(* ===== verification/_CoqProject ===== *)
-Q . S2P
Prelude.v
Kmp.v
JsString.v
Edits.v
EditsExact.v
EditsLines.v
EditsApply.v
Json.v
Protocol.v
ProtocolKeys.v
ProtocolPaths.v
ProtocolOrder.v
ProtocolRequests.v
ProtocolCaps.v
Redis.v
EditDiagnostics.v
EditDiagnosticsProofs.v
JsonText.v
BridgeKeys.v
BridgeAdmission.v
BridgeSlots.v
BridgeSlotsProofs.v
BridgeStore.v
Async.v
Logs.v
BridgeRouting.v
BridgeMethods.v
BridgeDispatch.v
BridgeStoreProofs.v
BridgeRegistration.v
BridgeSettlement.v
BridgeLocks.v
BridgeLeases.v
BridgeEnqueue.v
BridgeRuns.v
BridgeDispatchProofs.v
BridgeTermination.v
BridgeMethodsProofs.v
WorkspaceRequests.v
WorkspaceRequestsProofs.v
EgressLedger.v
EgressLedgerProofs.v
EgressLedgerHistory.v
EnrollmentProtocol.v
EnrollmentProtocolProofs.v
Pairing.v
PairingMethods.v
PairingScripts.v
PairingProofs.v
PairingRevocation.v
PairingRuns.v
JobCancellation.v
JobCancellationProofs.v
Decimals.v
RuntimeSession.v
RuntimeSessionProofs.v
ReplayState.v
ReplayStateProofs.v
Effects.v
Sealing.v
HostedRuntime.v
HostedApp.v
HostedWorld.v
HostedAppProofs.v
