(* ===== verification/Prelude.v ===== *)
(** * Code Interpreter: a verification library

    The repository runs code for clients in sandboxes. A client may bring a worker
    of its own (packages/code, the @librechat/code command line), which executes
    workspace tools on the client's machine. API replicas (service) hand work to
    workers over a bridge whose whole state is in Redis. This library models that
    bridge, from the validators at its ends to the durable requests above it, the
    pairing that admits a worker to it, the text edit engine the worker applies to
    files, and the other state the replicas share: the egress ledger, the
    cancellation of jobs, the registry of runtime sessions, the replay state of
    programmatic executions, and the control plane of hosted applications, which keeps
    at most one MicroVM of AWS Lambda for each application.

    ** Parts and files

    - Text edits, packages/code/src/edits.ts. [Kmp] (the prefix table and the inner
      loop its callers share), [JsString] (string operations of the language),
      [Edits] (the four matching strategies, the collection of matches,
      [applyTextEdits]). [EditsExact]: the linear search finds what a naive search
      finds, counts overlaps, and builds the replaced text. [EditsLines]: the line
      index and the line windows against naive definitions. [EditsApply]: a batch
      composes in order, is all or nothing, and a rejection names every edit that
      failed. [EditDiagnostics] (the sentence, excerpt and message for a rejected
      batch) and [EditDiagnosticsProofs]: the message exists, labels every failing
      edit and fits its limits, up to an excess of the byte limit that
      [byte_limit_overrun] exhibits.
    - Protocol, packages/code/src/protocol.ts. [Json] (untyped values), [Protocol]
      (identities, isolation keys, path rules, validators of requests, results,
      capabilities and artifacts). [ProtocolKeys]: isolation keys and their
      conflicts. [ProtocolPaths], [ProtocolOrder]: accepted paths stay in the
      workspace; listings are ordered and bounded. [ProtocolRequests],
      [ProtocolCaps]: what an accepted request, edit batch, capability set,
      programmatic body or import target guarantees.
    - Redis. [Redis] states the documented effect of the commands the code sends
      and a program logic [wp] for scripts; [JsonText] the round trips of
      [JSON.parse], [Date.parse] and the like; [Async] the trees of awaited effects
      of a method, their runs ([performs]) against a server shared with other
      replicas, and the logic [awp] for them; [Logs] their runs with the server's
      states and times and the clock's readings written down ([logged], [lwp]).
    - Bridge store, service/src/bridge. [BridgeKeys] (the keys, pairwise distinct),
      [BridgeAdmission] (admission.ts: a bounded FIFO queue), [BridgeSlots] and
      [BridgeSlotsProofs] (slots.ts: exclusive and fair reservation),
      [BridgeRouting] (selection.ts and lane-git.ts), [BridgeStore] (the data and
      every script of store.ts), [BridgeMethods] and [BridgeDispatch] (every method
      of [RedisBridgeStore]). [BridgeStoreProofs]: what each script may write.
      [BridgeRegistration], [BridgeSettlement], [BridgeLocks], [BridgeLeases],
      [BridgeEnqueue]: contracts of the scripts and invariants under every
      interleaving of replicas. [BridgeRuns], [BridgeDispatchProofs],
      [BridgeTermination], [BridgeMethodsProofs]: what the caller of a method may
      conclude, with lost replies and other replicas in between.
    - Durable requests, service/src/workspace-tools/requests.ts.
      [WorkspaceRequests] (records, scripts, methods), [WorkspaceRequestsProofs]
      (a request runs once, its states only move forward, retries are recognised).
    - Pairing, packages/code/src/identity.ts and browser-enrollment-protocol.ts,
      service/src/bridge/pairing.ts. [EnrollmentProtocol] (validators, canonical
      texts, signatures) and [EnrollmentProtocolProofs]: a signed text determines what
      it is a proof of, and is no text of another kind of proof. [Pairing] (keys and scripts),
      [PairingMethods] (every method of [RedisBridgePairingStore]).
      [PairingScripts]: what each script may write. [PairingProofs]: codes
      and challenges are accepted once. [PairingRevocation]: a revocation
      cuts a worker off. [PairingRuns]: what an authorized request has passed, and
      when its proof could be accepted a second time.
    - Egress ledger, service/src/egress-ledger.ts and its script. [EgressLedger]
      (both representations), [EgressLedgerProofs], [EgressLedgerHistory]: the
      script implements an abstract ledger, no budget is exceeded over any history,
      and a revocation is final, also when a grant is created again after its record
      has expired.
    - Cancellation, service/src/job-cancellation.ts and programmatic-cancellation.ts.
      [JobCancellation] (decisions, claims, the fence, request tombstones),
      [JobCancellationProofs]: a job has one durable winner and one execution, the
      fence settles, and a Stop meets its job in either order.
    - Runtime sessions, service/src/runtime-session/registry.ts, lock-heartbeat.ts
      and job-policy.ts. [Decimals] (decimal texts of counters are ordered as the
      counters; the numbers of Lua and their texts), [RuntimeSession] (records, lock and counters of a session, the
      heartbeat, the policy of queued jobs), [RuntimeSessionProofs]: a record is
      written under the lock and its fence only, counters grow, a settled heartbeat
      reports a lost lock, the registry fails closed.
    - Replay state, service/src/service/replay-state.ts and the continuation of
      programmatic-router.ts. [ReplayState] (the state of an execution, its history
      of tool results, the batches and the encrypted result), [ReplayStateProofs]:
      a committed batch keeps every readable entry of the history, the counters cover
      what is stored, and a stored result is not resurrected.
    - Hosted applications, service/src/hosted-app/control-plane.ts, record.ts,
      microvm-runtime.ts and credential.ts, runtime-session/lambda-client-aws.ts.
      [Effects] (trees over any signature of calls, their runs, the states they pass
      through, a logic for both), [Sealing] (preview credentials: what is sealed opens), [HostedRuntime] (the provider client
      and the runtime on it), [HostedApp] (status, start, stop and refresh of an
      application under its lease), [HostedWorld] (the provider, the record and the
      clock as a world in which the calls take effect, in whole or with their reply
      lost). [HostedAppProofs]: at every point of an operation the record accounts for
      the application's MicroVMs, a stop leaves none, a start leaves the one it
      reports, and a caller who does not own the application changes nothing.

    The protocol validates what [BridgeMethods] stores and reads; [BridgeDispatch]
    composes admission, slots or the lock, the enqueue and the settlement;
    [WorkspaceRequests] drives [BridgeDispatch] by its durable entry points.

    ** How code becomes definitions

    A string is its list of UTF-16 code units, a number that the code keeps an
    integer is a [Z]. A pure function is a function, an exception an error of
    [res]. A Lua script is a [prog], run atomically at a server time. A method is
    an [act]: clocks, timers, random identifiers, the abort signal and replies are
    chosen by the environment, and between two effects other clients may change the
    keyspace. [finally] blocks are [try] followed by the cleanup and the rethrow.

    ** Assumptions

    Code outside the repository is a class: [Platform] and [UnicodeTables] (Unicode
    tables and SHA-256; [asciiPlatform] and [ascii_tables] are instances), [Runtime] (serialisation, with
    [plain_runtime] and its round trips as laws), [RedisServer] (one law: a command does what its documentation
    says, with [reference_server]), [LedgerCodec], [Crypto], [UrlParser] and
    [ReplayCipher] (the ledger's serialisation, signatures, addresses and the
    encrypted replay of an enrollment; each has an instance the witnesses use).
    Of hosted applications, [MicrovmProvider] (a client token makes at most one
    MicroVM, and one that ended stays so; [reference_provider] is an instance), [Aead],
    [Utf8] and [Collation]. While an operation holds the lease of an application,
    others leave its record and its MicroVMs alone, but for the provider, which may
    end a MicroVM at any time; the record does not expire during a lease, and
    budgets, timers and aborts raise none of the provider's errors.
    The reply of SCAN is any the environment chooses. Theorems about interleavings hold of every
    server that obeys it. [dispatch_terminates], [fence_settles] and
    [lock_wait_settles] take an environment whose clock
    does not run backwards, whose timers do not fire early and where each command
    settles, as the command timeout of the store ensures. A release that the code
    starts and does not await is a step of another client. Clocks: the
    histories of the egress ledger take gateways whose clocks are within [lag] of the
    server's, twice [lag] being no more than the grace period a record outlives its
    grant by. Numbers: [INCR] and [HINCRBY] fail outside the 64-bit range; a Lua number
    is a double, which [tostring] prints with fourteen digits, so the theorems on
    counters that a script keeps as numbers bound them where it matters
    ([counters_grow], the policies of [sane], the arrivals of [numbered]). That
    [toUpperCase] leaves no lower-case letter is an assumption of
    [redemption_text_injective] and [proof_texts_injective].

    ** Bounds and fuel

    Searches and parsers recurse on their input, retry loops on the counters the
    code has (three retries of a cleanup, eight enqueue attempts), and unbounded
    waits are [Loop] nodes whose runs are inductive. The loops over [indexOf] (line
    feeds, the last separator of a key) take the length of the text plus one as
    fuel, which is enough since each turn moves past a character; the theorems on
    them are about that fuel. The cleanup of stale executions takes the number of keys,
    which is enough since each turn drops a batch of them. [play], which evaluates a method on a scripted
    environment for the examples, takes a number of steps.

    ** Not modelled

    - Logs, metrics and, but for rejected edits, the messages of errors.
    - HTTP routers, streaming and object storage, process sandboxes (api, the worker
      loop and native sandbox of packages/code), the Lambda backend and BullMQ
      queues: input and output around third-party services.
    - The subscriptions of [JobCancellationRegistry] and the waits on BullMQ jobs.
    - The execution that follows a committed replay continuation (runAndRespond) and
      the rest of programmatic-router.ts: calls to the sandbox backend.
    - Of hosted applications, the routes, the queue and its worker, the preview gateway
      and proxy, the validators of a specification, and the checkpoint that a start
      restores, whose outcome is the reply of a call. *)

From stdpp Require Import base list gmap strings numbers.
From Stdlib Require Import ZArith Lia.

(** ** Strings of the source language

    A JavaScript string is a finite sequence of UTF-16 code units; [jstr] keeps
    exactly that, so that lengths, slices and comparisons are the source's. *)
Abbreviation jstr := (list Z).

Fixpoint js (s : string) : jstr :=
  match s with
  | EmptyString => []
  | String c s' => Z.of_N (Ascii.N_of_ascii c) :: js s'
  end.

Declare Scope js_scope.
Delimit Scope js_scope with js.

(** ** Proof automation shared by the components *)

Ltac invc H := inversion H; subst; clear H.

(** Case analysis on the innermost [if] or [match] scrutinee of the goal. *)
Ltac case_goal :=
  match goal with
  | |- context [if ?b then _ else _] =>
      lazymatch b with context [if _ then _ else _] => fail | _ => destruct b eqn:? end
  end.

Ltac case_hyp H :=
  match type of H with
  | context [if ?b then _ else _] =>
      lazymatch b with context [if _ then _ else _] => fail | _ => destruct b eqn:? end
  | context [match ?b with _ => _ end] =>
      lazymatch b with context [match _ with _ => _ end] => fail | _ => destruct b eqn:? end
  end.

(** Turn boolean tests of the code into propositions. *)
Ltac bools :=
  repeat match goal with
  | H : (_ && _)%bool = true |- _ => apply andb_true_iff in H as [? ?]
  | H : (_ || _)%bool = false |- _ => apply orb_false_iff in H as [? ?]
  | H : negb _ = true |- _ => apply negb_true_iff in H
  | H : negb _ = false |- _ => apply negb_false_iff in H
  | H : bool_decide _ = true |- _ => apply bool_decide_eq_true_1 in H
  | H : bool_decide _ = false |- _ => apply bool_decide_eq_false_1 in H
  | H : (_ <? _)%Z = true |- _ => apply Z.ltb_lt in H
  | H : (_ <? _)%Z = false |- _ => apply Z.ltb_ge in H
  | H : (_ <=? _)%Z = true |- _ => apply Z.leb_le in H
  | H : (_ <=? _)%Z = false |- _ => apply Z.leb_gt in H
  | H : (_ =? _)%Z = true |- _ => apply Z.eqb_eq in H
  | H : (_ =? _)%Z = false |- _ => apply Z.eqb_neq in H
  | H : (_ <? _)%nat = true |- _ => apply Nat.ltb_lt in H
  | H : (_ <? _)%nat = false |- _ => apply Nat.ltb_ge in H
  | H : (_ <=? _)%nat = true |- _ => apply Nat.leb_le in H
  | H : (_ <=? _)%nat = false |- _ => apply Nat.leb_gt in H
  | H : (_ =? _)%nat = true |- _ => apply Nat.eqb_eq in H
  | H : (_ =? _)%nat = false |- _ => apply Nat.eqb_neq in H
  end.

Create HintDb jsdb.

(** ** Fallible code

    A function that throws returns [Err] with the error; stdpp's monad notation
    ([x ← c; k]) threads it. *)
Inductive res (E A : Type) : Type :=
| Ok (a : A)
| Err (e : E).
Arguments Ok {E A} a.
Arguments Err {E A} e.

#[global] Instance res_ret E : MRet (res E) := fun _ a => Ok a.
#[global] Instance res_bind E : MBind (res E) := fun _ _ k m =>
  match m with Ok a => k a | Err e => Err e end.

Definition throw {E A} (e : E) : res E A := Err e.

(** [if (cond) throw e;] *)
Definition guard_throw {E} (ok : bool) (e : E) : res E unit := if ok then Ok tt else Err e.

Lemma bind_Ok {E A B} (m : res E A) (k : A -> res E B) b :
  (m ≫= k) = Ok b <-> exists a, m = Ok a /\ k a = Ok b.
Proof. destruct m; simpl; naive_solver. Qed.

Lemma bind_Err {E A B} (m : res E A) (k : A -> res E B) e :
  (m ≫= k) = Err e <-> m = Err e \/ exists a, m = Ok a /\ k a = Err e.
Proof. destruct m; simpl; naive_solver. Qed.
