(* ===== verification/Kmp.v ===== *)
(** * Linear-time search with a prefix table

    Models [prefixTable] of packages/code/src/edits.ts and the inner loop that
    its three callers share (the [while] that falls back along the table and the
    [if] that extends the match), generically in the compared values: code units
    for exact matching, lines for line windows and tokens for
    whitespace-normalized matching. The theorems say that the table holds the
    longest proper borders and that one step of the loop keeps the longest
    prefix of the needle that ends the input read so far. *)

From stdpp Require Import base list numbers.
From Stdlib Require Import Lia.
From S2P Require Import Prelude.

Section kmp.
Context {A : Type} `{EqDecision A}.
Implicit Types (values pat l : list A) (prefix : list nat) (x : A).

(** ** The code *)

(** [while (matched > 0 && x !== values[matched]) matched = prefix[matched - 1];]
    The fuel is the entry value of [matched]: [fall_spec] shows it suffices. *)
Fixpoint fall (fuel : nat) values prefix x (matched : nat) : nat :=
  match fuel with
  | 0 => matched
  | S fuel' =>
      if (0 <? matched) && negb (bool_decide (values !! matched = Some x))
      then fall fuel' values prefix x (default 0 (prefix !! (matched - 1)))
      else matched
  end.

(** The loop above followed by [if (x === values[matched]) matched++;]. *)
Definition kmp_next values prefix (matched : nat) x : nat :=
  let matched := fall matched values prefix x matched in
  if bool_decide (values !! matched = Some x) then S matched else matched.

(** One iteration of the [for] loop of [prefixTable]. *)
Definition prefix_step values (st : nat * list nat) (index : nat) : nat * list nat :=
  let '(matched, prefix) := st in
  match values !! index with
  | Some x =>
      let matched := kmp_next values prefix matched x in
      (matched, <[index := matched]> prefix)
  | None => st
  end.

Definition prefixTable values : list nat :=
  snd (fold_left (prefix_step values) (seq 1 (length values - 1))
         (0, replicate (length values) 0)).

(** ** What the table means *)

(** The first [k] values of the needle end the input [l]. *)
Definition suf pat l (k : nat) : Prop :=
  k <= length pat /\ take k pat `suffix_of` l.

(** [k] is the longest such prefix among those of length at most [b]. *)
Definition longest pat l (b k : nat) : Prop :=
  suf pat l k /\ k <= b /\ forall j, suf pat l j -> j <= b -> j <= k.

Definition table_ok pat prefix (n : nat) : Prop :=
  forall m, 1 <= m <= n ->
    exists k, prefix !! (m - 1) = Some k /\ longest pat (take m pat) (m - 1) k.

Lemma suf_0 pat l : suf pat l 0.
Proof. split; [lia|]. rewrite take_0. apply suffix_nil. Qed.

Lemma suf_full pat l : suf pat l (length pat) <-> pat `suffix_of` l.
Proof. unfold suf. rewrite take_ge by lia. intuition lia. Qed.

Lemma suf_snoc pat l x k :
  suf pat (l ++ [x]) (S k) <-> suf pat l k /\ pat !! k = Some x.
Proof.
  unfold suf. split.
  - intros [Hk Hs]. destruct (lookup_lt_is_Some_2 pat k) as [y Hy]; [lia|].
    erewrite take_S_r in Hs by done.
    pose proof (suffix_snoc_inv_1 _ _ _ _ Hs) as ->.
    apply suffix_snoc_inv_2 in Hs. split; [split; [lia|done]|done].
  - intros [[Hk Hs] Hx]. pose proof (lookup_lt_Some _ _ _ Hx).
    split; [lia|]. erewrite take_S_r by done. by apply suffix_snoc.
Qed.

Lemma suf_le pat l m k :
  suf pat l m -> k <= m -> suf pat l k <-> suf pat (take m pat) k.
Proof.
  intros [Hm Hs] Hk. unfold suf. split; intros [_ H]; (split; [lia|]).
  - destruct Hs as [p1 ->], H as [p2 Hp].
    assert (length p1 <= length p2) as Hl.
    { apply (f_equal length) in Hp. rewrite !length_app, !length_take in Hp. lia. }
    exists (drop (length p1) p2).
    apply (f_equal (drop (length p1))) in Hp.
    rewrite drop_app_length, drop_app_le in Hp by done. done.
  - by etrans.
Qed.

Lemma longest_nil pat b : longest pat [] b 0.
Proof.
  split_and!; [apply suf_0|lia|]. intros j [Hj Hs] _.
  apply suffix_nil_inv in Hs. apply (f_equal length) in Hs.
  rewrite length_take in Hs. simpl in Hs. lia.
Qed.

(** The table entry of a matched prefix is the next candidate for any input
    that prefix ends. *)
Lemma longest_border pat l m k :
  suf pat l m -> longest pat (take m pat) (m - 1) k -> longest pat l (m - 1) k.
Proof.
  intros Hm (Hk & Hb & Hmax). split_and!; [|done|].
  - rewrite suf_le by (done || lia). done.
  - intros j Hj Hjb. apply Hmax; [|done]. by apply (suf_le pat l m j); [done|lia|].
Qed.

Lemma fall_spec fuel pat prefix x l m :
  table_ok pat prefix m -> suf pat l m -> m <= fuel ->
  let r := fall fuel pat prefix x m in
  suf pat l r /\ r <= m /\ (r = 0 \/ pat !! r = Some x) /\
  (forall j, suf pat l j -> j <= m -> pat !! j = Some x -> j <= r).
Proof.
  revert m. induction fuel as [|fuel IH]; intros m Ht Hs Hf; simpl.
  { assert (m = 0) as -> by lia. auto. }
  destruct (Nat.ltb_spec 0 m) as [Hpos|Hz]; simpl; [|].
  2: { assert (m = 0) as -> by lia. split_and!; auto. }
  case_bool_decide as Hx; simpl; [by split_and!; auto|].
  destruct (Ht m) as (k & Hk & Hl); [lia|]. rewrite Hk. simpl.
  pose proof (longest_border _ _ _ _ Hs Hl) as (Hsk & Hkb & Hmax).
  destruct (IH k) as (H1 & H2 & H3 & H4); [| done | lia |].
  { intros m' Hm'. apply Ht. lia. }
  split_and!; [done|lia|done|]. intros j Hj Hjm Hjx.
  destruct (decide (j = m)) as [->|]; [done|].
  apply H4; [done| |done]. apply Hmax; [done|lia].
Qed.

Lemma kmp_next_longest pat prefix x l b m :
  table_ok pat prefix m -> longest pat l b m ->
  longest pat (l ++ [x]) (S b) (kmp_next pat prefix m x).
Proof.
  intros Ht (Hs & Hb & Hmax). unfold kmp_next.
  destruct (fall_spec m pat prefix x l m) as (H1 & H2 & H3 & H4); [done..|].
  set (r := fall m pat prefix x m) in *.
  case_bool_decide as Hx.
  - split_and!; [by apply suf_snoc|lia|]. intros [|j] Hj Hjb; [lia|].
    apply suf_snoc in Hj as [Hj Hjx].
    assert (j <= m) by (apply Hmax; [done|lia]).
    pose proof (H4 j Hj ltac:(lia) Hjx). lia.
  - destruct H3 as [->|]; [|done]. split_and!; [apply suf_0|lia|].
    intros [|j] Hj Hjb; [lia|]. apply suf_snoc in Hj as [Hj Hjx].
    assert (j <= m) by (apply Hmax; [done|lia]).
    pose proof (H4 j Hj ltac:(lia) Hjx). assert (j = 0) as -> by lia. done.
Qed.

(** ** Correctness of [prefixTable] *)

Definition table_inv pat (i : nat) (st : nat * list nat) : Prop :=
  length (snd st) = length pat /\ table_ok pat (snd st) i /\
  longest pat (take i pat) (i - 1) (fst st).

Lemma prefix_step_inv pat i st :
  1 <= i < length pat -> table_inv pat i st ->
  table_inv pat (S i) (prefix_step pat st i).
Proof.
  destruct st as [m prefix]. intros Hi (Hlen & Ht & Hl). simpl in *.
  destruct (lookup_lt_is_Some_2 pat i) as [x Hx]; [lia|]. rewrite Hx.
  assert (longest pat (take (S i) pat) i (kmp_next pat prefix m x)) as Hn.
  { erewrite take_S_r by done. replace i with (S (i - 1)) at 2 by lia.
    apply kmp_next_longest; [|done]. destruct Hl as (_ & Hb & _).
    intros m' Hm'. apply Ht. lia. }
  split_and!; simpl.
  - by rewrite length_insert.
  - intros m' Hm'. destruct (decide (m' = S i)) as [->|Hne].
    + replace (S i - 1) with i by lia. eexists. split; [|done].
      apply list_lookup_insert_eq. lia.
    + destruct (Ht m') as (k & Hk & Hlk); [lia|]. exists k. split; [|done].
      rewrite list_lookup_insert_ne by lia. done.
  - replace (i - 0) with i by lia. done.
Qed.

Lemma prefix_fold_inv pat d i st :
  1 <= i -> i + d <= length pat -> table_inv pat i st ->
  table_inv pat (i + d) (fold_left (prefix_step pat) (seq i d) st).
Proof.
  revert i st. induction d as [|d IH]; intros i st Hi Hd Hst; simpl.
  { by rewrite Nat.add_0_r. }
  replace (i + S d) with (S i + d) by lia.
  apply IH; [lia|lia|]. apply prefix_step_inv; [lia|done].
Qed.

Lemma prefixTable_table_ok pat : table_ok pat (prefixTable pat) (length pat).
Proof.
  destruct (decide (length pat = 0)) as [E|E].
  { intros m. lia. }
  assert (table_inv pat (1 + (length pat - 1))
    (fold_left (prefix_step pat) (seq 1 (length pat - 1)) (0, replicate (length pat) 0)))
    as (_ & Ht & _).
  { apply prefix_fold_inv; [lia|lia|]. split_and!; simpl.
    - by rewrite length_replicate.
    - intros m Hm. assert (m = 1) as -> by lia. exists 0.
      rewrite lookup_replicate_2 by lia. split; [done|]. split_and!; [apply suf_0|lia|lia].
    - split_and!; [apply suf_0|lia|lia]. }
  unfold prefixTable. by replace (1 + (length pat - 1)) with (length pat) in Ht by lia.
Qed.

Lemma table_ok_le pat prefix n m : m <= n -> table_ok pat prefix n -> table_ok pat prefix m.
Proof. intros Hm Ht k Hk. apply Ht. lia. Qed.

(** The state after reading [l]: the longest prefix shorter than the needle. *)
Lemma scan_step pat x l m :
  longest pat l (length pat - 1) m -> pat <> [] ->
  let m' := kmp_next pat (prefixTable pat) m x in
  (m' = length pat <-> pat `suffix_of` (l ++ [x])) /\
  (m' <> length pat -> longest pat (l ++ [x]) (length pat - 1) m') /\
  (m' = length pat ->
   longest pat (l ++ [x]) (length pat - 1) (default 0 (prefixTable pat !! (m' - 1)))).
Proof.
  intros Hl Hne m'. assert (length pat <> 0) by (by destruct pat).
  pose proof (prefixTable_table_ok pat) as Ht.
  assert (longest pat (l ++ [x]) (S (length pat - 1)) m') as (Hs & Hb & Hmax).
  { apply kmp_next_longest; [|done]. eapply table_ok_le; [|done].
    destruct Hl as (_ & ? & _). lia. }
  split_and!.
  - rewrite <- suf_full. split; [by intros <-|].
    intros Hf. specialize (Hmax _ Hf). lia.
  - intros Hm. split_and!; [done|lia|]. intros j Hj Hjb. apply Hmax; [done|lia].
  - intros Hm. destruct (Ht (length pat)) as (k & Hk & Hlk); [lia|].
    rewrite Hm, Hk. simpl. apply longest_border; [by rewrite Hm in Hs|done].
Qed.

End kmp.
