(* ===== verification/JsString.v ===== *)
(** * JavaScript strings

    The string operations of the language that the modelled sources use, on
    code-unit sequences: slices, searches, trimming, line-ending replacement,
    splitting at line feeds and the two fixed regular expressions for runs of
    white space and of non-space. They are the language's standard library, not
    code of the repository, so no definition of this file is mapped to a source
    line. *)

From stdpp Require Import base list numbers.
From Stdlib Require Import ZArith Lia.
From S2P Require Import Prelude.

Definition LF : Z := 10%Z.
Definition CR : Z := 13%Z.

(** [WhiteSpace] and [LineTerminator] of ECMA-262: what [trim] strips and [\s]
    matches. *)
Definition isSpace (c : Z) : bool :=
  ((9 <=? c) && (c <=? 13) || (c =? 32) || (c =? 160) || (c =? 5760)
   || (8192 <=? c) && (c <=? 8202) || (c =? 8232) || (c =? 8233)
   || (c =? 8239) || (c =? 8287) || (c =? 12288) || (c =? 65279))%Z%bool.

(** [s.slice(a, b)] for non-negative arguments. *)
Definition slice (s : jstr) (a b : nat) : jstr := take (b - a) (drop a s).

Fixpoint indexOf_at (c : Z) (s : jstr) (i : nat) : option nat :=
  match s with
  | [] => None
  | x :: s' => if (x =? c)%Z then Some i else indexOf_at c s' (S i)
  end.

(** [s.indexOf(c, from)] for a one-character needle; [None] is [-1]. *)
Definition indexOf (s : jstr) (c : Z) (from : nat) : option nat :=
  indexOf_at c (drop from s) from.

Definition isEmpty (s : jstr) : bool := bool_decide (s = []).
Definition startsWith (s p : jstr) : bool := bool_decide (take (length p) s = p).
Definition endsWith (s p : jstr) : bool :=
  (length p <=? length s) && bool_decide (drop (length s - length p) s = p).

Fixpoint includes (s p : jstr) : bool :=
  startsWith s p || match s with [] => false | _ :: s' => includes s' p end.

Fixpoint trimStart (s : jstr) : jstr :=
  match s with
  | x :: s' => if isSpace x then trimStart s' else s
  | [] => []
  end.
Definition trimEnd (s : jstr) : jstr := rev (trimStart (rev s)).
Definition trim (s : jstr) : jstr := trimEnd (trimStart s).

(** [/^\s*/.exec(s)[0]] and [/\s*$/.exec(s)[0]]. *)
Definition leadingSpace (s : jstr) : jstr := take (length s - length (trimStart s)) s.
Definition trailingSpace (s : jstr) : jstr := drop (length (trimEnd s)) s.

(** [s.replace(/\r\n/g, '\n')] and [s.replace(/\n/g, '\r\n')]. *)
Fixpoint crlfToLf (s : jstr) : jstr :=
  match s with
  | [] => []
  | x :: s' =>
      match s' with
      | y :: s'' => if ((x =? CR) && (y =? LF))%Z then LF :: crlfToLf s'' else x :: crlfToLf s'
      | [] => [x]
      end
  end.
Definition lfToCrlf (s : jstr) : jstr :=
  s ≫= fun c => if (c =? LF)%Z then [CR; LF] else [c].

(** [s.split('\n')]. *)
Fixpoint splitLF (s : jstr) : list jstr :=
  match s with
  | [] => [[]]
  | x :: s' =>
      if (x =? LF)%Z then [] :: splitLF s'
      else match splitLF s' with [] => [[x]] | l :: ls => (x :: l) :: ls end
  end.

(** [ls.join('\n')]. *)
Fixpoint joinLF (ls : list jstr) : jstr :=
  match ls with
  | [] => []
  | l :: ls' => match ls' with [] => l | _ => l ++ LF :: joinLF ls' end
  end.

(** Successive matches of [/\S+/g]: the offset of each word and the word. [cur]
    is the word being read and the offset it started at. *)
Fixpoint words_at (s : jstr) (i : nat) (cur : option (nat * jstr)) : list (nat * jstr) :=
  match s with
  | [] => option_list cur
  | x :: s' =>
      if isSpace x then option_list cur ++ words_at s' (S i) None
      else words_at s' (S i)
             (Some match cur with Some (j, w) => (j, w ++ [x]) | None => (i, [x]) end)
  end.
Definition words (s : jstr) : list (nat * jstr) := words_at s 0 None.

(** ** Lemmas *)

Lemma slice_app s a b c :
  a <= b -> b <= c -> slice s a b ++ slice s b c = slice s a c.
Proof.
  intros. unfold slice. replace (c - a) with ((b - a) + (c - b)) by lia.
  replace b with (a + (b - a)) at 3 by lia. rewrite <- drop_drop.
  apply take_take_drop.
Qed.

Lemma slice_nil s a : slice s a a = [].
Proof. unfold slice. by rewrite Nat.sub_diag. Qed.

Lemma length_slice s a b : b <= length s -> length (slice s a b) = b - a.
Proof. intros. unfold slice. rewrite length_take, length_drop. lia. Qed.

Lemma slice_drop s a : slice s a (length s) = drop a s.
Proof. unfold slice. apply take_ge. rewrite length_drop. lia. Qed.

Lemma indexOf_at_Some c s i j :
  indexOf_at c s i = Some j <->
  exists k, j = i + k /\ s !! k = Some c /\ forall m, m < k -> s !! m <> Some c.
Proof.
  revert i. induction s as [|x s IH]; intros i; simpl.
  { split; [done|]. by intros (k & _ & ? & _). }
  destruct (Z.eqb_spec x c) as [->|Hne].
  - split.
    + intros [= <-]. exists 0. split_and!; [lia|done|lia].
    + intros ([|k] & -> & Hk & Hm); [by rewrite Nat.add_0_r|].
      exfalso. by apply (Hm 0); [lia|].
  - rewrite IH. split.
    + intros (k & -> & Hk & Hm). exists (S k). split_and!; [lia|done|].
      intros [|m] Hlt; simpl; [congruence|]. apply Hm. lia.
    + intros ([|k] & -> & Hk & Hm); simpl in *; [congruence|].
      exists k. split_and!; [lia|done|]. intros m Hlt. apply (Hm (S m)). lia.
Qed.

Lemma indexOf_at_None c s i : indexOf_at c s i = None <-> c ∉ s.
Proof.
  revert i. induction s as [|x s IH]; intros i; simpl.
  { split; [intros _; apply not_elem_of_nil|done]. }
  rewrite not_elem_of_cons. destruct (Z.eqb_spec x c) as [->|Hne].
  - split; [done|]. by intros [].
  - rewrite IH. naive_solver.
Qed.

Lemma trimStart_head s : match trimStart s with x :: _ => isSpace x = false | [] => True end.
Proof. induction s as [|x s IH]; simpl; [done|]. by destruct (isSpace x) eqn:E. Qed.

Lemma splitLF_ne s : splitLF s <> [].
Proof.
  destruct s as [|x s]; simpl; [done|]. destruct (x =? LF)%Z; [done|]. by destruct (splitLF s).
Qed.

