(* ===== verification/Edits.v ===== *)
(** * Ordered text edits

    Models packages/code/src/edits.ts: the four matching strategies, the
    collection of their matches into either one replaced range or an
    incrementally built output, and [applyTextEdits] over them. Offsets are
    natural numbers, texts are code-unit sequences, and the two exceptions the
    code throws are the errors of [res].

    A failure keeps the data its diagnostic is computed from (the text at that
    point and the outcome); EditDiagnostics renders it. *)

From stdpp Require Import base list numbers option.
From Stdlib Require Import ZArith Lia.
From S2P Require Import Prelude Kmp JsString.

(** ** Data *)

Inductive WorkspaceEditMatchStrategy :=
| Exact | LineTrimmed | IndentationFlexible | WhitespaceNormalized.

Inductive WorkspaceEditMatching := MatchExact | MatchTolerant.

#[global] Instance strategy_eq_dec : EqDecision WorkspaceEditMatchStrategy.
Proof. solve_decision. Defined.

Record WorkspaceTextEdit := TextEdit {
  oldText : jstr;
  newText : jstr;
  replaceAll : option bool;
}.

Record MatchedRange := Range {
  range_start : nat;
  range_end : nat;
  replacement : jstr;
}.

Inductive MatchOutcome :=
| Matched (strategy : WorkspaceEditMatchStrategy) (ranges : list MatchedRange)
    (occurrences : nat) (updated : option jstr)
| Ambiguous (strategy : WorkspaceEditMatchStrategy) (count : nat) (starts : list nat)
| Limit
| NoMatch.

Record ReplacementOutput := Output {
  chunks : list jstr;
  pending : jstr;
  cursor : nat;
}.

Record CollectedMatches := Collected {
  count : nat;
  source : jstr;
  projectedLength : Z;
  ranges : list MatchedRange;
  starts : list nat;
  output : option ReplacementOutput;
}.

Record WorkspaceEditMatch := EditMatch {
  match_strategy : WorkspaceEditMatchStrategy;
  match_occurrences : nat;
}.

(** The position of a failed edit and what its message is rendered from. *)
Record EditFailure := Failure {
  failure_index : nat;
  failure_text : jstr;
  failure_outcome : MatchOutcome;
}.

Inductive EditError :=
| WorkspaceEditMatchError (failures : list EditFailure) (editCount : nat)
| WorkspaceEditOutputLimitError.

Record AppliedEdits := Applied {
  applied_text : jstr;
  applied_matches : list WorkspaceEditMatch;
}.

Definition BRIDGE_WORKSPACE_WRITE_MAX_BYTES : Z := (1024 * 1024)%Z.
Definition MAX_REPORTED_LINES : nat := 5.
Definition MAX_LINE_WINDOW_VERIFICATIONS : N := 100000%N.
Definition MAX_REPLACEMENT_CHUNK_CHARS : Z := (16 * 1024)%Z.

Definition is_true_opt (b : option bool) : bool :=
  match b with Some true => true | _ => false end.

(** ** Collecting matches *)

Definition collectedMatches (text : jstr) (replaceAll : option bool) : CollectedMatches :=
  Collected 0 text (Z.of_nat (length text)) [] []
    (if is_true_opt replaceAll then Some (Output [] [] 0) else None).

Definition appendReplacement (o : ReplacementOutput) (part : jstr) : ReplacementOutput :=
  match part with
  | [] => o
  | _ =>
      let p := pending o ++ part in
      if (MAX_REPLACEMENT_CHUNK_CHARS <=? Z.of_nat (length p))%Z
      then Output (chunks o ++ [p]) [] (cursor o)
      else Output (chunks o) p (cursor o)
  end.

Definition set_cursor (o : ReplacementOutput) (c : nat) : ReplacementOutput :=
  Output (chunks o) (pending o) c.

Definition finishReplacement (m : CollectedMatches) (o : ReplacementOutput) : jstr :=
  if cursor o =? 0 then source m
  else
    let o := appendReplacement o (drop (cursor o) (source m)) in
    concat (chunks o) ++ pending o.

Definition collectMatch (m : CollectedMatches) (start end_ : nat) (repl : jstr)
    (replaceAll : option bool) : res EditError CollectedMatches :=
  m ←
    (if is_true_opt replaceAll then
       let projected :=
         (projectedLength m + (Z.of_nat (length repl) - (Z.of_nat end_ - Z.of_nat start)))%Z in
       if (BRIDGE_WORKSPACE_WRITE_MAX_BYTES
           <? projected - (Z.of_nat (length (source m)) - Z.of_nat end_))%Z
       then throw WorkspaceEditOutputLimitError
       else
         let out :=
           if bool_decide (repl = slice (source m) start end_) then output m
           else
             match output m with
             | Some o =>
                 Some (set_cursor
                   (appendReplacement (appendReplacement o (slice (source m) (cursor o) start)) repl)
                   end_)
             | None => None
             end in
         mret (Collected (count m) (source m) projected (ranges m) (starts m) out)
     else mret m);
  let count' := S (count m) in
  mret (Collected count' (source m) (projectedLength m)
    (if count' =? 1 then ranges m ++ [Range start end_ repl] else ranges m)
    (if length (starts m) <? MAX_REPORTED_LINES then starts m ++ [start] else starts m)
    (output m)).

Definition resolve (strategy : WorkspaceEditMatchStrategy) (m : CollectedMatches)
    (replaceAll : option bool) : MatchOutcome :=
  if count m =? 0 then NoMatch
  else if (count m =? 1) || is_true_opt replaceAll then
    Matched strategy (ranges m) (count m)
      (if is_true_opt replaceAll then finishReplacement m <$> output m else None)
  else Ambiguous strategy (count m) (starts m).

(** ** Exact matching *)

Fixpoint exact_loop (edit : WorkspaceTextEdit) (prefix : list nat) (rest : jstr)
    (index matched : nat) (m : CollectedMatches) : res EditError CollectedMatches :=
  match rest with
  | [] => mret m
  | c :: rest' =>
      let matched := kmp_next (oldText edit) prefix matched c in
      if negb (matched =? length (oldText edit)) then
        exact_loop edit prefix rest' (S index) matched m
      else
        m ← collectMatch m (S index - matched) (S index) (newText edit) (replaceAll edit);
        exact_loop edit prefix rest' (S index)
          (if is_true_opt (replaceAll edit) then 0 else default 0 (prefix !! (matched - 1))) m
  end.

Definition findExact (text : jstr) (edit : WorkspaceTextEdit) : res EditError MatchOutcome :=
  if length (oldText edit) =? 0 then mret NoMatch
  else
    m ← exact_loop edit (prefixTable (oldText edit)) text 0 0
          (collectedMatches text (replaceAll edit));
    mret (resolve Exact m (replaceAll edit)).

(** ** Lines *)

(** The offsets of the line feeds of [source], in the order the constructor of
    [LineIndex] writes them: [indexOf] restarts one past each hit. *)
Fixpoint newline_loop (fuel : nat) (source : jstr) (offset : option nat) : list nat :=
  match fuel, offset with
  | S fuel', Some o => o :: newline_loop fuel' source (indexOf source LF (S o))
  | _, _ => []
  end.

Definition newline_offsets (source : jstr) : list nat :=
  newline_loop (S (length source)) source (indexOf source LF 0).

(** [newlineCount] runs the same loop and only counts. *)
Definition newlineCount (text : jstr) : nat := length (newline_offsets text).

Record LineIndex := MkLineIndex {
  li_source : jstr;
  li_newlines : list nat;
  li_length : nat;
}.

Definition new_LineIndex (source : jstr) : LineIndex :=
  let newlines := newline_offsets source in
  MkLineIndex source newlines (length newlines + 1).

Definition li_start (li : LineIndex) (index : nat) : nat :=
  match index with
  | 0 => 0
  | S i => default 0 (li_newlines li !! i) + 1
  end.

Definition li_next (li : LineIndex) (index : nat) : option nat :=
  if index <? length (li_newlines li)
  then Some (default 0 (li_newlines li !! index) + 1) else None.

Definition li_end (li : LineIndex) (index : nat) : nat :=
  let start := li_start li index in
  let end_ := if index <? length (li_newlines li)
              then default 0 (li_newlines li !! index) else length (li_source li) in
  if (start <? end_) && bool_decide (li_source li !! (end_ - 1) = Some CR)
  then end_ - 1 else end_.

Definition li_text (li : LineIndex) (index : nat) : jstr :=
  slice (li_source li) (li_start li index) (li_end li index).

Definition neededLines (oldText : jstr) : list jstr * bool :=
  let normalized := crlfToLf oldText in
  let throughTerminator := endsWith normalized [LF] in
  (splitLF (if throughTerminator then take (length normalized - 1) normalized else normalized),
   throughTerminator).

(** ['\r\n'] is [true]. *)
Definition fileLineEnding (text : jstr) : bool := includes text [CR; LF].

Definition lineEndingAt (text : jstr) (newline : nat) : bool :=
  (0 <? newline) && bool_decide (text !! (newline - 1) = Some CR).

Fixpoint leadingWhitespace (line : jstr) : jstr :=
  match line with
  | x :: line' => if ((x =? 32) || (x =? 9))%Z then x :: leadingWhitespace line' else []
  | [] => []
  end.

(** The [while] of [commonIndent]: how many leading characters two indents share. *)
Fixpoint sharedLength (common indent : jstr) : nat :=
  match common, indent with
  | x :: common', y :: indent' =>
      if (x =? y)%Z then S (sharedLength common' indent') else 0
  | _, _ => 0
  end.

Definition commonIndent_step (common : option jstr) (line : jstr) : option jstr :=
  if length (trim line) =? 0 then common
  else
    let indent := leadingWhitespace line in
    match common with
    | None => Some indent
    | Some c => Some (take (sharedLength c indent) c)
    end.

Definition commonIndent (lines : list jstr) : jstr :=
  default [] (fold_left commonIndent_step lines None).

Definition withLineEnding (value : jstr) (crlf : bool) : jstr :=
  let normalized := crlfToLf value in
  if crlf then lfToCrlf normalized else normalized.

Definition stripIndent (line indent : jstr) : jstr :=
  if startsWith line indent then drop (length indent) line else trimStart line.

Definition reindent (value from to : jstr) : jstr :=
  if bool_decide (from = to) then value
  else
    joinLF (map (fun line =>
      if negb (length (trim line) =? 0) && startsWith line from
      then to ++ drop (length from) line else line)
      (splitLF (crlfToLf value))).

(** ** Line windows *)

Record WindowState := Window {
  w_matched : nat;
  w_verifications : N;
  w_collected : CollectedMatches;
}.

Section line_windows.
Context (text : jstr) (edit : WorkspaceTextEdit) (flexible : bool).

Definition lw_needle : list jstr := fst (neededLines (oldText edit)).
Definition lw_through : bool := snd (neededLines (oldText edit)).
Definition lw_lines : LineIndex := new_LineIndex text.
Definition lw_needleIndent : jstr := if flexible then commonIndent lw_needle else [].
Definition lw_normalizedNeedle : list jstr :=
  map (fun line => trimEnd (if flexible then stripIndent line lw_needleIndent else line))
    lw_needle.
Definition lw_sought : list jstr :=
  if flexible then map trimStart lw_normalizedNeedle else lw_normalizedNeedle.

Definition lw_value (index : nat) : jstr :=
  if flexible then trim (li_text lw_lines index) else trimEnd (li_text lw_lines index).

Definition lw_budget : N :=
  N.max MAX_LINE_WINDOW_VERIFICATIONS (N.of_nat (length lw_needle)).

(** The lines a candidate window covers. *)
Definition lw_window (first : nat) : list jstr :=
  map (fun offset => li_text lw_lines (first + offset)) (seq 0 (length lw_needle)).

Definition lw_verify (first : nat) (windowIndent : jstr) : bool :=
  forallb (fun '(expected, line) => bool_decide (trimEnd (stripIndent line windowIndent) = expected))
    (combine lw_normalizedNeedle (lw_window first)).

(** The replacement of the window at [first], in the file's own indentation
    and line endings. *)
Definition lw_replacement (first : nat) (windowIndent : jstr) : jstr :=
  let repl := if flexible then reindent (newText edit) lw_needleIndent windowIndent
              else newText edit in
  let lineFeed :=
    match li_next lw_lines first with
    | Some n => Some n
    | None => if 0 <? first then li_next lw_lines (first - 1) else None
    end in
  let localEnding :=
    match lineFeed with
    | None => fileLineEnding text
    | Some n => lineEndingAt text (n - 1)
    end in
  withLineEnding repl localEnding.

(** One iteration of the [for] loop; [None] is [return { status: 'limit' }]. *)
Definition lw_step (st : WindowState) (index : nat) : res EditError (option WindowState) :=
  let matched := kmp_next lw_sought (prefixTable lw_sought) (w_matched st) (lw_value index) in
  if negb (matched =? length lw_sought) then
    mret (Some (Window matched (w_verifications st) (w_collected st)))
  else
    let first := S index - length lw_sought in
    let end_ := if lw_through then li_next lw_lines index else Some (li_end lw_lines index) in
    let verify := bool_decide (is_Some end_) && flexible in
    if verify && (lw_budget <? w_verifications st + N.of_nat (length lw_needle))%N then mret None
    else
      let verifications :=
        if verify then (w_verifications st + N.of_nat (length lw_needle))%N
        else w_verifications st in
      let windowIndent := if verify then commonIndent (lw_window first) else [] in
      let valid := bool_decide (is_Some end_) && (negb flexible || lw_verify first windowIndent) in
      m ←
        match end_ with
        | Some e =>
            if valid then
              collectMatch (w_collected st) (li_start lw_lines first) e
                (lw_replacement first windowIndent) (replaceAll edit)
            else mret (w_collected st)
        | None => mret (w_collected st)
        end;
      mret (Some (Window
        (if valid && is_true_opt (replaceAll edit) then 0
         else default 0 (prefixTable lw_sought !! (matched - 1)))
        verifications m)).

Fixpoint lw_loop (st : WindowState) (indices : list nat) : res EditError (option WindowState) :=
  match indices with
  | [] => mret (Some st)
  | index :: indices' =>
      next ← lw_step st index;
      match next with
      | None => mret None
      | Some st' => lw_loop st' indices'
      end
  end.

Definition findLineWindows : res EditError MatchOutcome :=
  if forallb (fun line => length (trim line) =? 0) lw_needle then mret NoMatch
  else if li_length lw_lines <? length lw_needle then mret NoMatch
  else
    final ← lw_loop (Window 0 0 (collectedMatches text (replaceAll edit)))
              (seq 0 (li_length lw_lines));
    match final with
    | None => mret Limit
    | Some st =>
        mret (resolve (if flexible then IndentationFlexible else LineTrimmed)
                (w_collected st) (replaceAll edit))
    end.
End line_windows.

(** ** White-space-normalized matching *)

(** The characters the [for] of [hasBoundaryWhitespace] visits, nearest first. *)
Fixpoint boundary_loop (chars : jstr) (requiredNewlines : Z) : bool :=
  match chars with
  | [] => false
  | c :: chars' =>
      if negb (isSpace c) then false
      else
        let required := if (c =? LF)%Z then (requiredNewlines - 1)%Z else requiredNewlines in
        if (required <=? 0)%Z then true else boundary_loop chars' required
  end.

(** [position] is [-1] when the candidate starts the text. *)
Definition hasBoundaryWhitespace (text : jstr) (position : Z) (forward : bool)
    (requiredNewlines : nat) : bool :=
  boundary_loop
    (if forward then drop (Z.to_nat position) text else rev (take (Z.to_nat (position + 1)) text))
    (Z.of_nat requiredNewlines).

(** [s.lastIndexOf(c, from)]; a negative [from] counts as 0, no hit is [-1]. *)
Fixpoint lastIndexOf_at (c : Z) (s : jstr) (i : Z) (best : Z) : Z :=
  match s with
  | [] => best
  | x :: s' => lastIndexOf_at c s' (i + 1)%Z (if (x =? c)%Z then i else best)
  end.
Definition lastIndexOf (s : jstr) (c : Z) (from : Z) : Z :=
  lastIndexOf_at c (take (S (Z.to_nat (Z.max 0 from))) s) 0 (-1).

Fixpoint peel_leading_newlines (n : nat) (whitespace : jstr) (end_ : nat) : nat :=
  match n with
  | 0 => end_
  | S n' =>
      peel_leading_newlines n' whitespace
        (match indexOf whitespace LF end_ with Some i => S i | None => 0 end)
  end.

(** [while (end < whitespace.length && whitespace[end] !== '\n') end++;] *)
Fixpoint skip_to_newline (rest : jstr) (end_ : nat) : nat :=
  match rest with
  | [] => end_
  | x :: rest' => if (x =? LF)%Z then end_ else skip_to_newline rest' (S end_)
  end.

Fixpoint peel_trailing_newlines (n : nat) (whitespace : jstr) (start : Z) : Z :=
  match n with
  | 0 => start
  | S n' => peel_trailing_newlines n' whitespace (lastIndexOf whitespace LF (start - 1)%Z)
  end.

Definition peelBoundaryWhitespace (text boundary : jstr) (leading : bool) : option jstr :=
  if length boundary =? 0 then Some text
  else
    let whitespace := if leading then leadingSpace text else trailingSpace text in
    if bool_decide (whitespace = boundary) then
      Some (if leading then drop (length boundary) text
            else take (length text - length boundary) text)
    else
      let requiredNewlines := newlineCount boundary in
      if requiredNewlines =? 0 then None
      else if newlineCount whitespace <? requiredNewlines then None
      else if leading then
        let end_ := peel_leading_newlines requiredNewlines whitespace 0 in
        Some (drop (skip_to_newline (drop end_ whitespace) end_) text)
      else if newlineCount whitespace =? requiredNewlines then
        Some (take (length text - length whitespace) text)
      else
        let start := peel_trailing_newlines requiredNewlines whitespace
                       (Z.of_nat (length whitespace)) in
        Some (take (Z.to_nat (Z.of_nat (length text)
                              - (Z.of_nat (length whitespace) - start))) text).

Record TokenState := Tokens {
  t_starts : list nat;
  t_matched : nat;
  t_index : nat;
  t_nextNewline : option nat;
  t_previousNewline : option nat;
  t_collected : CollectedMatches;
}.

(** The forward-only newline cursor:
    [while (nextNewline >= 0 && nextNewline < start) ...]. *)
Fixpoint advance_newline (fuel : nat) (text : jstr) (start : nat)
    (next previous : option nat) : option nat * option nat :=
  match fuel, next with
  | S fuel', Some n =>
      if n <? start then advance_newline fuel' text start (indexOf text LF (S n)) (Some n)
      else (next, previous)
  | _, _ => (next, previous)
  end.

Section whitespace_normalized.
Context (text : jstr) (tokens : list jstr) (leading trailing : jstr)
  (lfReplacement crlfReplacement : jstr) (all : option bool).

Definition token_step (st : TokenState) (word : nat * jstr) : res EditError TokenState :=
  let n := length tokens in
  let tokenStarts := <[ t_index st mod n := fst word ]> (t_starts st) in
  let matched := kmp_next tokens (prefixTable tokens) (t_matched st) (snd word) in
  if negb (matched =? n) then
    mret (Tokens tokenStarts matched (S (t_index st))
            (t_nextNewline st) (t_previousNewline st) (t_collected st))
  else
    let start := default 0 (tokenStarts !! ((t_index st + 1) mod n)) in
    let end_ := fst word + length (snd word) in
    let boundariesMatch :=
      ((length leading =? 0)
       || hasBoundaryWhitespace text (Z.of_nat start - 1) false (newlineCount leading))
      && ((length trailing =? 0)
          || hasBoundaryWhitespace text (Z.of_nat end_) true (newlineCount trailing)) in
    if boundariesMatch then
      let '(next, previous) :=
        advance_newline (S (length text)) text start (t_nextNewline st) (t_previousNewline st) in
      let nearest := match next with Some n => Some n | None => previous end in
      let repl :=
        match nearest with
        | Some n => if lineEndingAt text n then crlfReplacement else lfReplacement
        | None => lfReplacement
        end in
      m ← collectMatch (t_collected st) start end_ repl all;
      mret (Tokens tokenStarts
              (if is_true_opt all then 0 else default 0 (prefixTable tokens !! (matched - 1)))
              (S (t_index st)) next previous m)
    else
      mret (Tokens tokenStarts (default 0 (prefixTable tokens !! (matched - 1)))
              (S (t_index st)) (t_nextNewline st) (t_previousNewline st) (t_collected st)).

Fixpoint token_loop (st : TokenState) (ws : list (nat * jstr)) : res EditError TokenState :=
  match ws with
  | [] => mret st
  | w :: ws' => st' ← token_step st w; token_loop st' ws'
  end.
End whitespace_normalized.

Definition findWhitespaceNormalized (text : jstr) (edit : WorkspaceTextEdit)
    : res EditError MatchOutcome :=
  let old := crlfToLf (oldText edit) in
  let tokens := map snd (words (trim old)) in
  if length tokens <? 2 then mret NoMatch
  else
    let leading := leadingSpace old in
    let trailing := trailingSpace old in
    match peelBoundaryWhitespace (crlfToLf (newText edit)) leading true with
    | None => mret NoMatch
    | Some withoutLeading =>
        match peelBoundaryWhitespace withoutLeading trailing false with
        | None => mret NoMatch
        | Some new =>
            st ← token_loop text tokens leading trailing new (withLineEnding new true)
                   (replaceAll edit)
                   (Tokens (replicate (length tokens) 0) 0 0 (indexOf text LF 0) None
                      (collectedMatches text (replaceAll edit)))
                   (words text);
            mret (resolve WhitespaceNormalized (t_collected st) (replaceAll edit))
        end
    end.

(** ** Applying a batch *)

Definition find_strategy (text : jstr) (edit : WorkspaceTextEdit)
    (strategy : WorkspaceEditMatchStrategy) : res EditError MatchOutcome :=
  match strategy with
  | Exact => findExact text edit
  | LineTrimmed => findLineWindows text edit false
  | IndentationFlexible => findLineWindows text edit true
  | WhitespaceNormalized => findWhitespaceNormalized text edit
  end.

Definition RELAXED_STRATEGIES := [LineTrimmed; IndentationFlexible; WhitespaceNormalized].
Definition EXACT_STRATEGIES := [Exact].
Definition TOLERANT_STRATEGIES := Exact :: RELAXED_STRATEGIES.

Fixpoint first_outcome (text : jstr) (edit : WorkspaceTextEdit)
    (strategies : list WorkspaceEditMatchStrategy) : res EditError MatchOutcome :=
  match strategies with
  | [] => mret NoMatch
  | s :: strategies' =>
      outcome ← find_strategy text edit s;
      match outcome with
      | NoMatch => first_outcome text edit strategies'
      | _ => mret outcome
      end
  end.

Definition findEditMatch (text : jstr) (edit : WorkspaceTextEdit)
    (matching : WorkspaceEditMatching) : res EditError MatchOutcome :=
  first_outcome text edit
    (match matching with MatchTolerant => TOLERANT_STRATEGIES | MatchExact => EXACT_STRATEGIES end).

Fixpoint replace_loop (text : jstr) (ranges : list MatchedRange) (result : jstr) (cur : nat) : jstr :=
  match ranges with
  | [] => result ++ drop cur text
  | r :: ranges' =>
      replace_loop text ranges'
        (result ++ slice text cur (range_start r) ++ replacement r) (range_end r)
  end.

Definition replaced_length (text : jstr) (ranges : list MatchedRange) : Z :=
  fold_left (fun total r =>
    (total + Z.of_nat (length (replacement r))
     - (Z.of_nat (range_end r) - Z.of_nat (range_start r)))%Z) ranges (Z.of_nat (length text)).

Definition replaceRanges (text : jstr) (ranges : list MatchedRange) : res EditError jstr :=
  if (BRIDGE_WORKSPACE_WRITE_MAX_BYTES <? replaced_length text ranges)%Z
  then throw WorkspaceEditOutputLimitError
  else mret (replace_loop text ranges [] 0).

Record ApplyState := Applying {
  working : jstr;
  matches : list WorkspaceEditMatch;
  failures : list EditFailure;
}.

Definition apply_step (matching : WorkspaceEditMatching) (st : ApplyState)
    (index : nat) (edit : WorkspaceTextEdit) : res EditError ApplyState :=
  outcome ← findEditMatch (working st) edit matching;
  match outcome with
  | Matched strategy ranges occurrences updated =>
      w ← match updated with Some u => mret u | None => replaceRanges (working st) ranges end;
      mret (Applying w (matches st ++ [EditMatch strategy occurrences]) (failures st))
  | other =>
      mret (Applying (working st) (matches st)
              (failures st ++ [Failure index (working st) other]))
  end.

Fixpoint apply_loop (matching : WorkspaceEditMatching) (st : ApplyState) (index : nat)
    (edits : list WorkspaceTextEdit) : res EditError ApplyState :=
  match edits with
  | [] => mret st
  | edit :: edits' =>
      st' ← apply_step matching st index edit;
      apply_loop matching st' (S index) edits'
  end.

Definition applyTextEdits (text : jstr) (edits : list WorkspaceTextEdit)
    (matching : WorkspaceEditMatching) : res EditError AppliedEdits :=
  st ← apply_loop matching (Applying text [] []) 0 edits;
  match failures st with
  | [] => mret (Applied (working st) (matches st))
  | _ => throw (WorkspaceEditMatchError (failures st) (length edits))
  end.
