(* ===== verification/EditsExact.v ===== *)
(** * Collected matches and exact matching: theorems

    [collect_ok] describes the state after any sequence of [collectMatch] calls
    by the list of ranges collected; from it [resolve] is a function of that list
    and the incrementally chunked output is the text [replaceRanges] would build.
    The linear-time scan of [findExact] is then shown to report exactly the
    occurrences a naive definition lists, and with [replaceAll] the leftmost
    disjoint ones. *)

From stdpp Require Import base list numbers option strings.
From Stdlib Require Import ZArith Lia.
From S2P Require Import Prelude Kmp JsString Edits.

(** ** Replacing a list of ranges *)

Fixpoint body (text : jstr) (rs : list MatchedRange) (cur : nat) : jstr :=
  match rs with
  | [] => []
  | r :: rs' => slice text cur (range_start r) ++ replacement r ++ body text rs' (range_end r)
  end.

Definition last_end (cur : nat) (rs : list MatchedRange) : nat :=
  fold_left (fun _ r => range_end r) rs cur.

(** Ascending, disjoint, non-empty ranges of the text from [cur] on. *)
Fixpoint ranges_wf (text : jstr) (cur : nat) (rs : list MatchedRange) : Prop :=
  match rs with
  | [] => cur <= length text
  | r :: rs' =>
      cur <= range_start r /\ range_start r < range_end r /\ ranges_wf text (range_end r) rs'
  end.

Lemma last_end_snoc cur rs r : last_end cur (rs ++ [r]) = range_end r.
Proof. unfold last_end. by rewrite fold_left_app. Qed.

Lemma body_snoc text rs r cur :
  body text (rs ++ [r]) cur =
  body text rs cur ++ slice text (last_end cur rs) (range_start r) ++ replacement r.
Proof.
  revert cur. induction rs as [|r' rs IH]; intros cur; simpl.
  - by rewrite app_nil_r.
  - rewrite IH. by rewrite <- !app_assoc.
Qed.

Lemma ranges_wf_snoc text rs r cur :
  ranges_wf text cur (rs ++ [r]) <->
  ranges_wf text cur rs /\ last_end cur rs <= range_start r /\
  range_start r < range_end r /\ range_end r <= length text.
Proof.
  revert cur. induction rs as [|r' rs IH]; intros cur; simpl.
  - unfold last_end. simpl. intuition lia.
  - rewrite IH. unfold last_end. simpl. tauto.
Qed.

Lemma ranges_wf_last text rs cur :
  ranges_wf text cur rs -> cur <= last_end cur rs <= length text.
Proof.
  revert cur. induction rs as [|r rs IH]; intros cur; simpl; unfold last_end; simpl; [lia|].
  intros (? & ? & Hw). apply IH in Hw. unfold last_end in Hw. lia.
Qed.

Lemma replace_loop_body text rs acc cur :
  replace_loop text rs acc cur = acc ++ body text rs cur ++ drop (last_end cur rs) text.
Proof.
  revert acc cur. induction rs as [|r rs IH]; intros acc cur; simpl; [done|].
  rewrite IH. unfold last_end. simpl. by rewrite <- !app_assoc.
Qed.

Lemma replaced_length_from text rs total :
  fold_left (fun t r => (t + Z.of_nat (length (replacement r))
     - (Z.of_nat (range_end r) - Z.of_nat (range_start r)))%Z) rs total
  = (total + (replaced_length text rs - Z.of_nat (length text)))%Z.
Proof.
  unfold replaced_length. generalize (Z.of_nat (length text)) as t0.
  set (f := fun t r => _). assert (forall d t, fold_left f rs (t + d)%Z = (fold_left f rs t + d)%Z) as H.
  { induction rs as [|r rs IH]; intros d t; simpl; [done|].
    rewrite <- IH. f_equal. unfold f. lia. }
  intros t0. replace total with (t0 + (total - t0))%Z at 1 by lia. rewrite H. lia.
Qed.

Lemma body_length text rs cur :
  ranges_wf text cur rs ->
  (Z.of_nat (length (body text rs cur)) =
   replaced_length text rs - Z.of_nat (length text)
   + Z.of_nat (last_end cur rs) - Z.of_nat cur)%Z.
Proof.
  revert cur. induction rs as [|r rs IH]; intros cur Hw.
  - unfold replaced_length, last_end. simpl. lia.
  - destruct Hw as (Hs & He & Hw). pose proof (ranges_wf_last _ _ _ Hw).
    cbn [body]. rewrite !length_app, length_slice by lia.
    specialize (IH _ Hw).
    unfold replaced_length at 1. cbn [fold_left]. rewrite (replaced_length_from text).
    unfold last_end in *. cbn [fold_left]. lia.
Qed.

(** ** The state after some collected ranges *)

Lemma appendReplacement_spec o part :
  concat (chunks (appendReplacement o part)) ++ pending (appendReplacement o part)
    = concat (chunks o) ++ pending o ++ part
  /\ cursor (appendReplacement o part) = cursor o.
Proof.
  unfold appendReplacement. destruct part as [|c part]; [by rewrite app_nil_r|].
  case_goal; simpl; [|done]. rewrite concat_app. simpl. by rewrite !app_nil_r.
Qed.

Definition output_ok (text : jstr) (rs : list MatchedRange) (o : ReplacementOutput) : Prop :=
  concat (chunks o) ++ pending o ++ slice text (cursor o) (last_end 0 rs) = body text rs 0 /\
  cursor o <= last_end 0 rs /\
  (cursor o = 0 -> concat (chunks o) ++ pending o = []).

Record collect_ok (text : jstr) (all : option bool) (rs : list MatchedRange)
    (m : CollectedMatches) : Prop := {
  co_count : count m = length rs;
  co_source : source m = text;
  co_ranges : ranges m = take 1 rs;
  co_starts : starts m = take MAX_REPORTED_LINES (map range_start rs);
  co_all : is_true_opt all = true ->
    ranges_wf text 0 rs /\ projectedLength m = replaced_length text rs /\
    exists o, output m = Some o /\ output_ok text rs o;
}.

Lemma collect_ok_init text all : collect_ok text all [] (collectedMatches text all).
Proof.
  unfold collectedMatches. constructor; simpl; [done..|].
  intros ->. split_and!; [lia|done|]. eexists. split; [done|].
  split_and!; [done|unfold last_end; simpl; lia|done].
Qed.

Lemma output_ok_step text rs o r :
  output_ok text rs o -> ranges_wf text 0 (rs ++ [r]) ->
  output_ok text (rs ++ [r])
    (if bool_decide (replacement r = slice text (range_start r) (range_end r)) then o
     else set_cursor
       (appendReplacement (appendReplacement o (slice text (cursor o) (range_start r)))
          (replacement r)) (range_end r)).
Proof.
  intros (Hb & Hc & Hz) Hw. apply ranges_wf_snoc in Hw as (_ & H1 & H2 & H3).
  unfold output_ok. rewrite last_end_snoc, body_snoc, <- Hb.
  case_bool_decide as E; simpl.
  - split_and!; [|lia|done]. rewrite E, <- !app_assoc. do 2 f_equal.
    rewrite !slice_app by lia. done.
  - set (o1 := appendReplacement o _). set (o2 := appendReplacement o1 _).
    pose proof (appendReplacement_spec o (slice text (cursor o) (range_start r))) as [E1 _].
    pose proof (appendReplacement_spec o1 (replacement r)) as [E2 _].
    fold o1 in E1. fold o2 in E2. split_and!; [|lia|lia].
    rewrite slice_nil, app_nil_r, E2, app_assoc, E1.
    rewrite <- !app_assoc. do 2 f_equal. by rewrite app_assoc, slice_app by lia.
Qed.

(** What one [collectMatch] call does: it either exceeds the output limit, in
    [replaceAll] mode, or extends the collected ranges by one. *)
Lemma collectMatch_spec text all rs m r :
  collect_ok text all rs m ->
  (is_true_opt all = true -> ranges_wf text 0 (rs ++ [r])) ->
  let over := is_true_opt all &&
    (BRIDGE_WORKSPACE_WRITE_MAX_BYTES <? Z.of_nat (length (body text (rs ++ [r]) 0)))%Z in
  (over = true ->
   collectMatch m (range_start r) (range_end r) (replacement r) all
     = Err WorkspaceEditOutputLimitError) /\
  (over = false -> exists m',
   collectMatch m (range_start r) (range_end r) (replacement r) all = Ok m' /\
   collect_ok text all (rs ++ [r]) m').
Proof.
  intros [Hc Hsrc Hr Hst Hall] Hwf over. subst over. unfold collectMatch.
  assert (forall m1, count m1 = count m -> source m1 = text -> ranges m1 = ranges m ->
    starts m1 = starts m ->
    (is_true_opt all = true -> projectedLength m1 = replaced_length text (rs ++ [r]) /\
       exists o, output m1 = Some o /\ output_ok text (rs ++ [r]) o) ->
    collect_ok text all (rs ++ [r])
      (Collected (S (count m1)) (source m1) (projectedLength m1)
        (if S (count m1) =? 1 then ranges m1 ++ [Range (range_start r) (range_end r) (replacement r)]
         else ranges m1)
        (if length (starts m1) <? MAX_REPORTED_LINES then starts m1 ++ [range_start r]
         else starts m1) (output m1))) as Hmk.
  { intros m1 -> -> -> -> Ho. constructor; simpl.
    - rewrite Hc, length_app. simpl. lia.
    - done.
    - rewrite Hc, Hr. destruct rs; simpl; [by destruct r|done].
    - rewrite Hst, map_app. simpl. rewrite length_take, length_map.
      destruct (Nat.ltb_spec (Nat.min MAX_REPORTED_LINES (length rs)) MAX_REPORTED_LINES).
      + rewrite !take_ge; [done| |]; rewrite ?length_app, ?length_map; simpl; lia.
      + rewrite take_app_le; [done|]. rewrite length_map. lia.
    - intros Ha. destruct (Ho Ha). auto. }
  destruct (is_true_opt all) eqn:Ea; cbn [andb].
  - destruct (Hall eq_refl) as (_ & Hp & o & Ho & Hok). specialize (Hwf eq_refl).
    pose proof (body_length _ _ _ Hwf) as Hbl. rewrite last_end_snoc in Hbl.
    assert (replaced_length text (rs ++ [r]) =
      (replaced_length text rs + (Z.of_nat (length (replacement r))
       - (Z.of_nat (range_end r) - Z.of_nat (range_start r))))%Z) as Hrl.
    { unfold replaced_length. rewrite fold_left_app. simpl. lia. }
    rewrite Hp, Hsrc, <- Hrl.
    replace (replaced_length text (rs ++ [r])
             - (Z.of_nat (length text) - Z.of_nat (range_end r)))%Z
      with (Z.of_nat (length (body text (rs ++ [r]) 0))) by lia.
    split; intros ->; [done|]. eexists. split; [reflexivity|]. apply Hmk; simpl; try done.
    intros _. split; [done|]. rewrite Ho.
    pose proof (output_ok_step _ _ _ _ Hok Hwf) as Hstep.
    destruct (bool_decide _); eexists; split; done.
  - split; [done|]. intros _. eexists. split; [reflexivity|]. by apply Hmk.
Qed.

(** ** Resolving *)

Definition outcome_of (strategy : WorkspaceEditMatchStrategy) (text : jstr) (all : option bool)
    (rs : list MatchedRange) : MatchOutcome :=
  if is_true_opt all then
    match rs with
    | [] => NoMatch
    | _ => Matched strategy (take 1 rs) (length rs) (Some (replace_loop text rs [] 0))
    end
  else
    match rs with
    | [] => NoMatch
    | [r] => Matched strategy [r] 1 None
    | _ => Ambiguous strategy (length rs) (take MAX_REPORTED_LINES (map range_start rs))
    end.

Lemma finishReplacement_ok text rs m o :
  source m = text -> output_ok text rs o -> ranges_wf text 0 rs ->
  finishReplacement m o = replace_loop text rs [] 0.
Proof.
  intros Hs (Hb & Hc & Hz) Hw. pose proof (ranges_wf_last _ _ _ Hw) as [_ Hle].
  rewrite replace_loop_body. simpl. unfold finishReplacement.
  assert (slice text (cursor o) (last_end 0 rs) ++ drop (last_end 0 rs) text
          = drop (cursor o) text) as Hd.
  { rewrite <- !slice_drop, slice_app by lia. done. }
  rewrite <- Hb, <- !app_assoc, Hd, Hs. destruct (Nat.eqb_spec (cursor o) 0) as [E|E].
  - rewrite E, app_assoc, Hz by done. by rewrite drop_0.
  - pose proof (appendReplacement_spec o (drop (cursor o) text)) as [-> _]. done.
Qed.

Lemma resolve_spec strategy text all rs m :
  collect_ok text all rs m -> resolve strategy m all = outcome_of strategy text all rs.
Proof.
  intros [Hc Hsrc Hr Hst Hall]. unfold resolve, outcome_of. rewrite Hc, Hr, Hst.
  destruct (is_true_opt all) eqn:Ea; [|].
  - destruct (Hall eq_refl) as (Hw & _ & o & Ho & Hok). rewrite Ho. simpl.
    erewrite finishReplacement_ok by done. destruct rs as [|r [|]]; done.
  - destruct rs as [|r [|]]; done.
Qed.

(** ** Reference definitions of exact matching *)

Definition occurs_at {A} `{EqDecision A} (pat text : list A) (i : nat) : bool :=
  bool_decide (take (length pat) (drop i text) = pat).

(** Every position, overlapping ones included. *)
Definition occurrences {A} `{EqDecision A} (pat text : list A) : list nat :=
  List.filter (occurs_at pat text) (seq 0 (length text)).

(** Leftmost disjoint positions: after a hit the next [length pat] units are
    skipped. *)
Fixpoint disjoint_occurrences (pat text : jstr) (i skip : nat) : list nat :=
  match text with
  | [] => []
  | _ :: text' =>
      match skip with
      | S k => disjoint_occurrences pat text' (S i) k
      | 0 =>
          if startsWith text pat
          then i :: disjoint_occurrences pat text' (S i) (length pat - 1)
          else disjoint_occurrences pat text' (S i) 0
      end
  end.

(** [text.replaceAll(pat, new)] read left to right. *)
Fixpoint replace_all (pat new text : jstr) (skip : nat) : jstr :=
  match text with
  | [] => []
  | x :: text' =>
      match skip with
      | S k => replace_all pat new text' k
      | 0 =>
          if startsWith text pat
          then new ++ replace_all pat new text' (length pat - 1)
          else x :: replace_all pat new text' 0
      end
  end.

Definition range_at (edit : WorkspaceTextEdit) (i : nat) : MatchedRange :=
  Range i (i + length (oldText edit)) (newText edit).

(** ** Reading one more code unit *)

Lemma filter_all_false {A} (f : A -> bool) l :
  (forall x, In x l -> f x = false) -> List.filter f l = [].
Proof.
  induction l as [|x l IH]; simpl; intros H; [done|].
  rewrite H by auto. apply IH. auto.
Qed.

Lemma filter_ext_In {A} (f g : A -> bool) l :
  (forall x, In x l -> f x = g x) -> List.filter f l = List.filter g l.
Proof.
  induction l as [|x l IH]; simpl; intros H; [done|].
  rewrite H by auto. rewrite IH by auto. done.
Qed.

Section reading.
Context {A : Type} `{EqDecision A}.
Implicit Types pat l : list A.

Lemma occurs_at_app_l pat l l' i :
i + length pat <= length l -> occurs_at pat (l ++ l') i = occurs_at pat l i.
Proof.
intros. unfold occurs_at. rewrite drop_app_le by lia.
rewrite take_app_le by (rewrite length_drop; lia). done.
Qed.

Lemma occurs_at_short pat l i :
length l < i + length pat -> pat <> [] -> occurs_at pat l i = false.
Proof.
intros H Hne. unfold occurs_at. apply bool_decide_eq_false. intros E.
apply (f_equal length) in E. rewrite length_take, length_drop in E.
assert (1 <= length pat) by (destruct pat; simpl; [done|lia]). lia.
Qed.

Lemma suffix_occurs pat l :
pat `suffix_of` l <->
length pat <= length l /\ occurs_at pat l (length l - length pat) = true.
Proof.
unfold occurs_at. rewrite bool_decide_eq_true. split.
- intros [p ->]. rewrite length_app. split; [lia|].
  replace (length p + length pat - length pat) with (length p) by lia.
  rewrite drop_app_length. by apply take_ge.
- intros [Hl E]. exists (take (length l - length pat) l).
  rewrite take_ge in E by (rewrite length_drop; lia). rewrite <- E at 2. by rewrite take_drop.
Qed.

Lemma occurrences_short pat l n :
pat <> [] -> length l <= n + length pat - 1 ->
List.filter (occurs_at pat l) (seq n (length l - n)) = [].
Proof.
intros Hne Hl. assert (1 <= length pat) by (destruct pat; simpl; [done|lia]).
apply filter_all_false. intros i Hi. apply in_seq in Hi.
apply occurs_at_short; [lia|done].
Qed.

Lemma occurrences_snoc pat l x :
pat <> [] ->
occurrences pat (l ++ [x]) =
occurrences pat l ++
  (if bool_decide (pat `suffix_of` (l ++ [x])) then [length l + 1 - length pat] else []).
Proof.
intros Hne. assert (1 <= length pat) as Hp by (destruct pat; simpl; [done|lia]).
unfold occurrences. rewrite length_app. simpl.
destruct (decide (length l + 1 < length pat)) as [Hs|Hs].
- rewrite !filter_all_false.
  + rewrite bool_decide_eq_false_2; [done|]. rewrite suffix_occurs, length_app. simpl. lia.
  + intros i _. apply occurs_at_short; [lia|done].
  + intros i _. apply occurs_at_short; [rewrite length_app; simpl; lia|done].
- set (k := length l + 1 - length pat).
  assert (seq 0 (length l + 1) = seq 0 k ++ k :: seq (S k) (length l - k)) as ->.
  { replace (length l + 1) with (k + S (length l - k)) by lia. by rewrite seq_app. }
  assert (seq 0 (length l) = seq 0 k ++ seq k (length l - k)) as ->.
  { replace (length l) with (k + (length l - k)) at 1 by lia. by rewrite seq_app. }
  rewrite !List.filter_app, <- app_assoc.
  rewrite (filter_ext_In _ (occurs_at pat l) (seq 0 k)).
  2:{ intros i Hi%in_seq. apply occurs_at_app_l. lia. }
  rewrite (occurrences_short pat l k) by (done || lia). simpl. f_equal.
  assert (List.filter (occurs_at pat (l ++ [x])) (seq (S k) (length l - k)) = []) as ->.
  { apply filter_all_false. intros i Hi%in_seq.
    apply occurs_at_short; [rewrite length_app; simpl; lia|done]. }
  assert (occurs_at pat (l ++ [x]) k = bool_decide (pat `suffix_of` (l ++ [x]))) as ->.
  { apply Bool.eq_true_iff_eq. rewrite bool_decide_eq_true, suffix_occurs, length_app. simpl.
    replace (length l + 1 - length pat) with k by lia. intuition lia. }
  by destruct (bool_decide _).
Qed.

End reading.

(** ** Overlapping search *)

Lemma exact_loop_overlapping text edit l rest matched m :
  oldText edit <> [] -> is_true_opt (replaceAll edit) = false ->
  text = l ++ rest ->
  longest (oldText edit) l (length (oldText edit) - 1) matched ->
  collect_ok text (replaceAll edit) (map (range_at edit) (occurrences (oldText edit) l)) m ->
  exists m',
    exact_loop edit (prefixTable (oldText edit)) rest (length l) matched m = Ok m' /\
    collect_ok text (replaceAll edit) (map (range_at edit) (occurrences (oldText edit) text)) m'.
Proof.
  intros Hne Hall. revert l matched m.
  induction rest as [|c rest IH]; intros l matched m -> Hl Hm; simpl.
  { rewrite app_nil_r in *. eauto. }
  destruct (scan_step _ c l matched Hl Hne) as (Hend & Hmid & Hfull).
  set (k := kmp_next (oldText edit) (prefixTable (oldText edit)) matched c) in *.
  replace (S (length l)) with (length (l ++ [c])) by (rewrite length_app; simpl; lia).
  replace (l ++ c :: rest) with ((l ++ [c]) ++ rest) in * by (by rewrite <- app_assoc).
  destruct (Nat.eqb_spec k (length (oldText edit))) as [E|E]; simpl.
  - pose proof (proj1 Hend E) as Hs.
    assert (collect_ok ((l ++ [c]) ++ rest) (replaceAll edit)
      (map (range_at edit) (occurrences (oldText edit) (l ++ [c])))
      = collect_ok ((l ++ [c]) ++ rest) (replaceAll edit)
      (map (range_at edit) (occurrences (oldText edit) l)
       ++ [range_at edit (length (l ++ [c]) - k)])) as Hsnoc.
    { rewrite occurrences_snoc, bool_decide_eq_true_2, map_app by done. simpl.
      rewrite E, length_app. done. }
    destruct (collectMatch_spec _ _ _ _ (range_at edit (length (l ++ [c]) - k)) Hm)
      as [_ Hok]; [by rewrite Hall|].
    rewrite Hall in Hok. destruct (Hok eq_refl) as (m' & Hc & Hm'). simpl in Hc.
    assert (length (l ++ [c]) - k + length (oldText edit) = length (l ++ [c])) as Hlen.
    { apply suffix_length in Hs. lia. }
    rewrite Hlen in Hc. rewrite Hall. rewrite Hc. simpl.
    apply IH; [done|by apply Hfull|]. by rewrite Hsnoc.
  - apply IH; [done|by apply Hmid|].
    rewrite occurrences_snoc, bool_decide_eq_false_2, app_nil_r by (done || tauto). done.
Qed.

(** (C1) Exact matching without [replaceAll]: for a non-empty [oldText] the
    linear-time scan returns exactly what listing every occurrence (overlapping
    ones included) gives: none when there is none, the single range and its
    replacement when there is one, and otherwise the number of occurrences with
    the first five of their positions. *)
Theorem findExact_overlapping (text : jstr) (edit : WorkspaceTextEdit)
    (Hold : oldText edit <> []) (Hall : is_true_opt (replaceAll edit) = false) :
  findExact text edit =
  Ok match occurrences (oldText edit) text with
     | [] => NoMatch
     | [i] => Matched Exact [Range i (i + length (oldText edit)) (newText edit)] 1 None
     | l => Ambiguous Exact (length l) (take 5 l)
     end.
Proof.
  unfold findExact. destruct (Nat.eqb_spec (length (oldText edit)) 0) as [E|_].
  { by destruct (oldText edit). }
  destruct (exact_loop_overlapping text edit [] text 0 (collectedMatches text (replaceAll edit)))
    as (m & Hrun & Hm); [done..|apply longest_nil|apply collect_ok_init|].
  simpl in Hrun. rewrite Hrun. simpl. erewrite resolve_spec by done. unfold outcome_of. rewrite Hall.
  destruct (occurrences (oldText edit) text) as [|i [|j l]] eqn:E; simpl; [done|done|].
  do 2 f_equal. rewrite length_map. f_equal. by rewrite map_map, map_id.
Qed.

Lemma findExact_overlapping_witness :
  findExact (js "aaab") (TextEdit (js "aa") (js "x") None) = Ok (Ambiguous Exact 2 [0; 1]) /\
  findExact (js "abc") (TextEdit (js "bc") (js "x") None)
    = Ok (Matched Exact [Range 1 3 (js "x")] 1 None).
Proof.
  split; rewrite findExact_overlapping by (done || reflexivity); reflexivity.
Defined.

(** ** Disjoint replacement *)

Lemma body_app text rs rs' cur :
  body text (rs ++ rs') cur = body text rs cur ++ body text rs' (last_end cur rs).
Proof.
  revert cur. induction rs as [|r rs IH]; intros cur; simpl; [done|].
  rewrite IH. unfold last_end. simpl. by rewrite <- !app_assoc.
Qed.

Lemma disjoint_skip pat p rest i :
  disjoint_occurrences pat (p ++ rest) i (length p) = disjoint_occurrences pat rest (i + length p) 0.
Proof.
  revert i. induction p as [|x p IH]; intros i; simpl.
  - by rewrite Nat.add_0_r.
  - rewrite IH. f_equal. lia.
Qed.

Definition no_occurrence (pat l : jstr) : Prop :=
  forall i, i + length pat <= length l -> occurs_at pat l i = false.

Lemma startsWith_occurs pat text : startsWith text pat = occurs_at pat text 0.
Proof. done. Qed.

Lemma no_occurrence_cons pat x l : no_occurrence pat (x :: l) -> no_occurrence pat l.
Proof. intros H i Hi. apply (H (S i)). simpl. lia. Qed.

Lemma no_occurrence_snoc pat l x :
  pat <> [] -> no_occurrence pat l -> ~ pat `suffix_of` (l ++ [x]) -> no_occurrence pat (l ++ [x]).
Proof.
  intros Hne H Hs i Hi. rewrite length_app in Hi. simpl in Hi.
  destruct (decide (i + length pat <= length l)) as [Hle|Hgt].
  - rewrite occurs_at_app_l by lia. by apply H.
  - destruct (occurs_at pat (l ++ [x]) i) eqn:E; [|done]. exfalso. apply Hs.
    apply suffix_occurs. rewrite length_app. simpl.
    replace (length l + 1 - length pat) with i by lia. split; [lia|done].
Qed.

Lemma disjoint_none pat l i :
  pat <> [] -> no_occurrence pat l -> disjoint_occurrences pat l i 0 = [].
Proof.
  intros Hne. revert i. induction l as [|x l IH]; intros i H; simpl; [done|].
  rewrite startsWith_occurs. destruct (decide (length pat <= length (x :: l))) as [Hle|Hgt].
  - rewrite (H 0) by lia. apply IH. by eapply no_occurrence_cons.
  - rewrite occurs_at_short by (done || lia). apply IH. by eapply no_occurrence_cons.
Qed.

(** The first hit of a left-to-right scan is the first in the list. *)
Lemma disjoint_first pat c0 x cur rest i :
  pat <> [] -> cur ++ [x] = c0 ++ pat -> no_occurrence pat cur ->
  disjoint_occurrences pat (cur ++ x :: rest) i 0 =
  (i + length c0) :: disjoint_occurrences pat rest (i + length c0 + length pat) 0.
Proof.
  intros Hne Hc Hno.
  assert (cur ++ x :: rest = c0 ++ pat ++ rest) as ->.
  { rewrite app_assoc, <- Hc, <- app_assoc. done. }
  assert (forall j, j < length c0 -> occurs_at pat (c0 ++ pat ++ rest) j = false) as Hj.
  { intros j Hj. rewrite app_assoc, <- Hc, <- app_assoc.
    apply (f_equal length) in Hc. rewrite !length_app in Hc. simpl in Hc.
    rewrite occurs_at_app_l by lia. apply Hno. lia. }
  clear Hc Hno. revert i Hj. induction c0 as [|y c0 IH]; intros i Hj.
  - simpl. rewrite Nat.add_0_r. destruct pat as [|p pat]; [done|]. simpl.
    rewrite startsWith_occurs. unfold occurs_at. rewrite drop_0.
    rewrite bool_decide_eq_true_2 by (simpl; by rewrite take_app_length).
    f_equal. rewrite Nat.sub_0_r, disjoint_skip. f_equal. simpl. lia.
  - pose proof (Hj 0 ltac:(simpl; lia)) as H0. simpl in H0 |- *.
    rewrite startsWith_occurs, H0, IH.
    + f_equal; [lia|]. f_equal. lia.
    + intros j Hlt. apply (Hj (S j)). simpl. lia.
Qed.

Section replace_all_loop.
Context (text : jstr) (edit : WorkspaceTextEdit).
Local Abbreviation pat := (oldText edit).
Context (Hne : oldText edit <> []) (Hall : is_true_opt (replaceAll edit) = true).

(** The ranges still to be collected when the scan stands at [i]. *)
Definition to_come (tail : jstr) (i : nat) : list MatchedRange :=
  map (range_at edit) (disjoint_occurrences pat tail i 0).

Lemma exact_loop_disjoint rest dn cur rs matched m :
  text = dn ++ cur ++ rest ->
  longest pat cur (length pat - 1) matched -> no_occurrence pat cur ->
  collect_ok text (replaceAll edit) rs m ->
  last_end 0 rs = length dn -> ranges_wf text 0 rs ->
  let final := rs ++ to_come (cur ++ rest) (length dn) in
  (exists m',
    exact_loop edit (prefixTable pat) rest (length dn + length cur) matched m = Ok m' /\
    collect_ok text (replaceAll edit) final m') \/
  (exact_loop edit (prefixTable pat) rest (length dn + length cur) matched m
     = Err WorkspaceEditOutputLimitError /\
   (BRIDGE_WORKSPACE_WRITE_MAX_BYTES < Z.of_nat (length (body text final 0)))%Z).
Proof.
  revert dn cur rs matched m.
  induction rest as [|c rest IH]; intros dn cur rs matched m Ht Hl Hno Hm Hend Hwf.
  { left. exists m. split; [done|]. unfold to_come.
    rewrite app_nil_r, disjoint_none by done. simpl. by rewrite app_nil_r. }
  cbn [exact_loop].
  destruct (scan_step _ c cur matched Hl Hne) as (Hfull & Hmid & _).
  set (k := kmp_next pat (prefixTable pat) matched c) in *.
  destruct (Nat.eqb_spec k (length pat)) as [E|E]; cbn [negb].
  2: { replace (cur ++ c :: rest) with ((cur ++ [c]) ++ rest) in * by (by rewrite <- app_assoc).
       replace (S (length dn + length cur)) with (length dn + length (cur ++ [c]))
         by (rewrite length_app; simpl; lia).
       apply IH; [done|by apply Hmid| |done..].
       apply no_occurrence_snoc; [done..|tauto]. }
  pose proof (proj1 Hfull E) as [c0 Hc0]. rewrite Hall.
  assert (length cur + 1 = length c0 + length pat) as Hlen.
  { apply (f_equal length) in Hc0. rewrite !length_app in Hc0. done. }
  set (r := range_at edit (length dn + length c0)).
  assert (to_come (cur ++ c :: rest) (length dn)
          = r :: to_come rest (length (dn ++ cur ++ [c]))) as Hcome.
  { unfold to_come. rewrite (disjoint_first pat c0) by done. simpl. f_equal. do 2 f_equal.
    rewrite !length_app. simpl. lia. }
  assert (ranges_wf text 0 (rs ++ [r])) as Hwf'.
  { apply ranges_wf_snoc. rewrite Hend. split; [done|].
    assert (1 <= length pat) by (destruct pat; simpl; [done|lia]).
    rewrite Ht, !length_app. simpl. lia. }
  assert (S (length dn + length cur) - k = range_start r) as -> by (simpl; lia).
  assert (S (length dn + length cur) = range_end r) as Hre by (simpl; lia).
  rewrite Hcome, Hre.
  destruct (collectMatch_spec _ _ _ _ r Hm (fun _ => Hwf')) as [Herr Hok].
  rewrite Hall in Herr, Hok. cbn [andb] in Herr, Hok.
  destruct (Z.ltb_spec BRIDGE_WORKSPACE_WRITE_MAX_BYTES
              (Z.of_nat (length (body text (rs ++ [r]) 0)))) as [Hov|Hov].
  - right. change (newText edit) with (replacement r).
    rewrite (Herr eq_refl). split; [done|].
    rewrite (cons_middle r), app_assoc, body_app, length_app. lia.
  - destruct (Hok eq_refl) as (m' & Hc & Hm'). change (newText edit) with (replacement r).
    rewrite Hc. simpl mbind.
    specialize (IH (dn ++ cur ++ [c]) [] (rs ++ [r]) 0 m').
    rewrite (cons_middle r), app_assoc.
    replace (length dn + length c0 + length pat)
      with (length (dn ++ cur ++ [c]) + length (@nil Z)) by (rewrite !length_app; simpl; lia).
    apply IH.
    + rewrite Ht, <- !app_assoc. done.
    + apply longest_nil.
    + intros i Hi. apply occurs_at_short; [|done].
      assert (1 <= length pat) by (destruct pat; simpl; [done|lia]). simpl in *. lia.
    + done.
    + rewrite last_end_snoc, !length_app. simpl in *. lia.
    + done.
Qed.
End replace_all_loop.

(** Replacing the disjoint ranges is replacing from left to right. *)
Lemma replace_disjoint edit p s i k c :
  length p = i -> c <= i + k -> k <= length s ->
  let rs := map (range_at edit) (disjoint_occurrences (oldText edit) s i k) in
  oldText edit <> [] ->
  body (p ++ s) rs c ++ drop (last_end c rs) (p ++ s) =
  slice (p ++ s) c (i + k) ++ replace_all (oldText edit) (newText edit) s k.
Proof.
  intros Hp Hc Hk rs Hne. subst rs. revert p i k c Hp Hc Hk.
  induction s as [|x s IH]; intros p i k c Hp Hc Hk.
  { simpl in *. unfold last_end. simpl. rewrite !app_nil_r.
    replace (i + k) with (length p) by lia. by rewrite slice_drop. }
  assert (p ++ x :: s = (p ++ [x]) ++ s) as Ep by (by rewrite <- app_assoc).
  assert (length (p ++ [x]) = S i) as Hp' by (rewrite length_app; simpl; lia).
  destruct k as [|k]; simpl disjoint_occurrences; simpl replace_all.
  - destruct (startsWith (x :: s) (oldText edit)) eqn:Es.
    + assert (1 <= length (oldText edit)) by (destruct (oldText edit); simpl; [done|lia]).
      assert (length (oldText edit) <= S (length s)).
      { unfold startsWith in Es. apply bool_decide_eq_true in Es.
        apply (f_equal length) in Es. rewrite length_take in Es. simpl in Es. lia. }
      cbn [map body]. unfold last_end. cbn [fold_left].
      change (range_end (range_at edit i)) with (i + length (oldText edit)).
      change (range_start (range_at edit i)) with i.
      change (replacement (range_at edit i)) with (newText edit).
      rewrite Nat.add_0_r, <- !app_assoc. do 2 f_equal.
      pose proof (IH (p ++ [x]) (S i) (length (oldText edit) - 1)
        (i + length (oldText edit)) Hp' ltac:(lia) ltac:(lia)) as H1.
      unfold last_end in H1. rewrite <- Ep in H1. rewrite H1.
      replace (S i + (length (oldText edit) - 1)) with (i + length (oldText edit)) by lia.
      by rewrite slice_nil.
    + rewrite Ep. rewrite (IH (p ++ [x]) (S i) 0 c) by (done || lia).
      rewrite !Nat.add_0_r.
      rewrite <- (slice_app _ c i (S i)) by lia. rewrite <- app_assoc. f_equal.
      unfold slice. rewrite <- app_assoc.
      rewrite drop_app_ge by lia. replace (i - length p) with 0 by lia.
      replace (S i - i) with 1 by lia. done.
  - rewrite Ep. rewrite (IH (p ++ [x]) (S i) k c) by (done || simpl in *; lia).
    f_equal. f_equal. lia.
Qed.

Lemma replace_loop_disjoint edit text :
  oldText edit <> [] ->
  replace_loop text (map (range_at edit) (disjoint_occurrences (oldText edit) text 0 0)) [] 0
  = replace_all (oldText edit) (newText edit) text 0.
Proof.
  intros Hne. rewrite replace_loop_body. simpl.
  pose proof (replace_disjoint edit [] text 0 0 0 eq_refl ltac:(lia) ltac:(lia) Hne) as H.
  exact H.
Qed.

(** (C2) Exact matching with [replaceAll]: the scan either returns the text with
    the leftmost disjoint occurrences replaced, as a left-to-right
    [String.replaceAll] would, with their number, or throws the output-limit
    error, and it throws only when that text exceeds the 1 MiB write limit. *)
Theorem findExact_replaceAll (text : jstr) (edit : WorkspaceTextEdit)
    (Hold : oldText edit <> []) (Hall : replaceAll edit = Some true) :
  let found := disjoint_occurrences (oldText edit) text 0 0 in
  let updated := replace_all (oldText edit) (newText edit) text 0 in
  findExact text edit =
    Ok match found with
       | [] => NoMatch
       | i :: _ =>
           Matched Exact [Range i (i + length (oldText edit)) (newText edit)]
             (length found) (Some updated)
       end
  \/ findExact text edit = Err WorkspaceEditOutputLimitError /\
     (BRIDGE_WORKSPACE_WRITE_MAX_BYTES < Z.of_nat (length updated))%Z.
Proof.
  intros found updated. assert (is_true_opt (replaceAll edit) = true) as Ht by (by rewrite Hall).
  unfold findExact. destruct (Nat.eqb_spec (length (oldText edit)) 0) as [E|_].
  { by destruct (oldText edit). }
  pose proof (replace_loop_disjoint edit text Hold) as Hr.
  destruct (exact_loop_disjoint text edit Hold Ht text [] [] [] 0
    (collectedMatches text (replaceAll edit))) as [(m & Hrun & Hm)|[Hrun Hlim]];
    try done.
  - apply longest_nil.
  - intros i Hi. apply occurs_at_short; [|done].
    assert (1 <= length (oldText edit)) by (destruct (oldText edit); simpl; [done|lia]).
    simpl in *. lia.
  - apply collect_ok_init.
  - simpl. lia.
  - left. simpl in Hrun. rewrite Hrun. simpl. erewrite resolve_spec by done.
    unfold outcome_of, to_come. rewrite Ht. simpl. rewrite Hr. fold updated. fold found.
    rewrite length_map. destruct found as [|i l]; simpl; [done|]. by rewrite take_0.
  - right. simpl in Hrun. rewrite Hrun. split; [done|].
    rewrite replace_loop_body in Hr. simpl in Hr. subst updated. rewrite <- Hr, length_app.
    unfold to_come in Hlim. simpl in Hlim. lia.
Qed.

Lemma findExact_replaceAll_witness :
  findExact (js "aaaab") (TextEdit (js "aa") (js "xyz") (Some true))
    = Ok (Matched Exact [Range 0 2 (js "xyz")] 2 (Some (js "xyzxyzb"))).
Proof.
  destruct (findExact_replaceAll (js "aaaab") (TextEdit (js "aa") (js "xyz") (Some true)))
    as [->|[_ H]]; [done|done|reflexivity|]. exfalso. revert H. vm_compute. discriminate.
Defined.
