(* ===== verification/EditsLines.v ===== *)
(** * Line windows: theorems

    [LineIndex] is shown to agree with splitting the text at [\n] and dropping a
    final [\r] of each piece, and the scan of [findLineWindows] with the naive
    search for windows of lines. *)

From stdpp Require Import base list numbers option strings.
From Stdlib Require Import ZArith Lia.
From S2P Require Import Prelude Kmp JsString Edits EditsExact.

(** ** Line feeds *)

Definition is_LF (s : jstr) (i : nat) : bool := bool_decide (s !! i = Some LF).

Definition LF_positions (s : jstr) (from : nat) : list nat :=
  List.filter (is_LF s) (seq from (length s - from)).

Lemma LF_positions_next s from :
  LF_positions s from =
  match indexOf s LF from with
  | Some o => o :: LF_positions s (S o)
  | None => []
  end.
Proof.
  unfold LF_positions, indexOf. destruct (indexOf_at LF (drop from s) from) as [o|] eqn:E.
  - apply indexOf_at_Some in E as (k & -> & Hk & Hm). rewrite lookup_drop in Hk.
    pose proof (lookup_lt_Some _ _ _ Hk).
    replace (length s - from) with (k + S (length s - S (from + k))) by lia.
    rewrite seq_app, List.filter_app. simpl. unfold is_LF at 2.
    rewrite bool_decide_eq_true_2 by done. rewrite filter_all_false; [done|].
    intros i Hi%in_seq. apply bool_decide_eq_false. intros Hi'.
    apply (Hm (i - from)); [lia|]. rewrite lookup_drop. by replace (from + (i - from)) with i by lia.
  - apply indexOf_at_None in E. apply filter_all_false. intros i Hi%in_seq.
    apply bool_decide_eq_false. intros Hi'. apply E. apply list_elem_of_lookup.
    exists (i - from). rewrite lookup_drop. by replace (from + (i - from)) with i by lia.
Qed.

Lemma newline_loop_positions fuel s from :
  length s - from < fuel ->
  newline_loop fuel s (indexOf s LF from) = LF_positions s from.
Proof.
  revert from. induction fuel as [|fuel IH]; intros from Hf; [lia|].
  rewrite LF_positions_next. destruct (indexOf s LF from) as [o|] eqn:E; simpl; [|done].
  f_equal. unfold indexOf in E. apply indexOf_at_Some in E as (k & -> & Hk & _).
  rewrite lookup_drop in Hk. apply lookup_lt_Some in Hk. apply IH. lia.
Qed.

Lemma newline_offsets_positions s : newline_offsets s = LF_positions s 0.
Proof. apply newline_loop_positions. lia. Qed.

Lemma newline_offsets_none s : LF ∉ s -> newline_offsets s = [].
Proof.
  intros H. rewrite newline_offsets_positions, LF_positions_next.
  unfold indexOf. by rewrite (proj2 (indexOf_at_None LF (drop 0 s) 0)).
Qed.

Lemma newline_offsets_first l rest :
  LF ∉ l ->
  newline_offsets (l ++ LF :: rest) =
  length l :: map (fun o => S (length l) + o) (newline_offsets rest).
Proof.
  intros H. rewrite !newline_offsets_positions, LF_positions_next.
  assert (indexOf (l ++ LF :: rest) LF 0 = Some (length l)) as ->.
  { apply indexOf_at_Some. exists (length l). rewrite drop_0. split_and!; [done| |].
    - by rewrite list_lookup_middle.
    - intros m Hm. rewrite lookup_app_l by done. intros Hl. apply H.
      apply list_elem_of_lookup. eauto. }
  f_equal. unfold LF_positions. rewrite length_app. simpl.
  replace (length l + S (length rest) - S (length l)) with (length rest) by lia.
  rewrite Nat.sub_0_r.
  replace (seq (S (length l)) (length rest))
    with (map (fun o => S (length l) + o) (seq 0 (length rest))).
  - generalize (seq 0 (length rest)) as is_. intros is_.
    induction is_ as [|i is_ IH]; cbn [map List.filter]; [done|].
    assert (is_LF (l ++ LF :: rest) (S (length l) + i) = is_LF rest i) as ->.
    { unfold is_LF. rewrite lookup_app_r by lia.
      by replace (S (length l) + i - length l) with (S i) by lia. }
    rewrite IH. by destruct (is_LF rest i).
  - pose proof (fmap_add_seq (S (length l)) 0 (length rest)) as E.
    rewrite Nat.add_0_r in E. exact E.
Qed.

(** A text without a line feed, or its first line and the rest. *)
Lemma first_line s :
  LF ∉ s \/ exists l rest, s = l ++ LF :: rest /\ LF ∉ l.
Proof.
  destruct (decide (LF ∈ s)) as [H|]; [right|by left].
  apply list_elem_of_split_l in H as (l & rest & -> & H). eauto.
Qed.

Lemma splitLF_none s : LF ∉ s -> splitLF s = [s].
Proof.
  induction s as [|x s IH]; simpl; [done|]. rewrite not_elem_of_cons. intros [Hx Hs].
  destruct (Z.eqb_spec x LF); [congruence|]. by rewrite IH.
Qed.

Lemma splitLF_first l rest : LF ∉ l -> splitLF (l ++ LF :: rest) = l :: splitLF rest.
Proof.
  induction l as [|x l IH]; simpl; [done|]. rewrite not_elem_of_cons. intros [Hx Hl].
  destruct (Z.eqb_spec x LF); [congruence|]. by rewrite IH.
Qed.

(** ** The line index *)

(** A line's content: the piece without a final carriage return. *)
Definition dropCR (l : jstr) : jstr :=
  match last l with
  | Some c => if (c =? CR)%Z then take (length l - 1) l else l
  | None => l
  end.

Lemma li_length_first l rest :
  LF ∉ l -> li_length (new_LineIndex (l ++ LF :: rest)) = S (li_length (new_LineIndex rest)).
Proof. intros H. simpl. rewrite newline_offsets_first by done. simpl. by rewrite length_map. Qed.

Lemma li_start_shift l rest i :
  LF ∉ l -> i < li_length (new_LineIndex rest) ->
  li_start (new_LineIndex (l ++ LF :: rest)) (S i)
  = S (length l) + li_start (new_LineIndex rest) i.
Proof.
  intros H Hi. simpl in *. rewrite newline_offsets_first by done.
  destruct i as [|i]; simpl; [lia|]. rewrite list_lookup_fmap.
  destruct (lookup_lt_is_Some_2 (newline_offsets rest) i) as [o ->]; simpl; lia.
Qed.

Lemma li_end_shift l rest i :
  LF ∉ l -> i < li_length (new_LineIndex rest) ->
  li_end (new_LineIndex (l ++ LF :: rest)) (S i)
  = S (length l) + li_end (new_LineIndex rest) i.
Proof.
  intros H Hi. unfold li_end. rewrite li_start_shift by done. simpl li_newlines. simpl li_source.
  rewrite newline_offsets_first by done. simpl length.
  rewrite length_map. change (S i <? S (length (newline_offsets rest)))
    with (i <? length (newline_offsets rest)).
  set (e := if i <? length (newline_offsets rest) then _ else length rest).
  assert ((if i <? length (newline_offsets rest)
     then default 0 ((length l :: map (fun o => S (length l) + o) (newline_offsets rest)) !! S i)
     else length (l ++ LF :: rest)) = S (length l) + e) as He.
  { subst e. destruct (Nat.ltb_spec i (length (newline_offsets rest))).
    - simpl. rewrite list_lookup_fmap.
      destruct (lookup_lt_is_Some_2 (newline_offsets rest) i) as [o ->]; simpl; lia.
    - rewrite length_app. simpl. lia. }
  rewrite He. set (st := li_start (new_LineIndex rest) i).
  destruct (Nat.ltb_spec (S (length l) + st) (S (length l) + e));
    destruct (Nat.ltb_spec st e); try lia; simpl; [|lia].
  assert ((l ++ LF :: rest) !! (length l + e - 0) = rest !! (e - 1)) as ->.
  { rewrite lookup_app_r by lia. replace (length l + e - 0 - length l) with (S (e - 1)) by lia. done. }
  case_bool_decide; lia.
Qed.

Lemma li_text_shift l rest i :
  LF ∉ l -> i < li_length (new_LineIndex rest) ->
  li_text (new_LineIndex (l ++ LF :: rest)) (S i) = li_text (new_LineIndex rest) i.
Proof.
  intros H Hi. unfold li_text. rewrite li_start_shift, li_end_shift by done. simpl li_source.
  unfold slice. replace (S (length l) + li_end (new_LineIndex rest) i
    - (S (length l) + li_start (new_LineIndex rest) i))
    with (li_end (new_LineIndex rest) i - li_start (new_LineIndex rest) i) by lia.
  f_equal. rewrite drop_app_ge by lia.
  replace (S (length l) + li_start (new_LineIndex rest) i - length l)
    with (S (li_start (new_LineIndex rest) i)) by lia. done.
Qed.

Lemma li_text_0 l rest :
  LF ∉ l -> li_text (new_LineIndex (l ++ LF :: rest)) 0 = dropCR l.
Proof.
  intros H. unfold li_text, li_end. simpl. rewrite newline_offsets_first by done. simpl.
  unfold dropCR. destruct l as [|x l _] using rev_ind; [done|].
  rewrite last_snoc, length_app. simpl. replace (length l + 1 - 1) with (length l) by lia.
  rewrite <- !app_assoc. simpl. rewrite list_lookup_middle by done.
  destruct (Nat.ltb_spec 0 (length l + 1)); [|lia]. simpl.
  unfold slice. rewrite drop_0, !Nat.sub_0_r.
  destruct (Z.eqb_spec x CR) as [->|Hne].
  - rewrite bool_decide_eq_true_2 by done. by rewrite !take_app_length.
  - rewrite bool_decide_eq_false_2 by congruence.
    replace (l ++ x :: LF :: rest) with ((l ++ [x]) ++ LF :: rest) by (by rewrite <- app_assoc).
    replace (length l + 1) with (length (l ++ [x])) by (rewrite length_app; done).
    by rewrite take_app_length.
Qed.

Lemma li_text_single s : LF ∉ s -> li_text (new_LineIndex s) 0 = dropCR s.
Proof.
  intros H. unfold li_text, li_end. simpl. rewrite newline_offsets_none by done. simpl.
  unfold dropCR. destruct s as [|x l _] using rev_ind; [done|].
  rewrite last_snoc, length_app. simpl. replace (length l + 1 - 1) with (length l) by lia.
  rewrite list_lookup_middle by done. destruct (Nat.ltb_spec 0 (length l + 1)); [|lia]. simpl.
  unfold slice. rewrite drop_0, !Nat.sub_0_r.
  destruct (Z.eqb_spec x CR) as [->|Hne].
  - by rewrite bool_decide_eq_true_2.
  - rewrite bool_decide_eq_false_2 by congruence. apply take_ge. rewrite length_app. simpl. lia.
Qed.

(** The line index agrees with splitting: the texts it returns for
    [0 .. length - 1] are the pieces of the text between line feeds, each without
    a final carriage return, and there are as many of them. *)
Theorem LineIndex_splits (text : jstr) :
  map (li_text (new_LineIndex text)) (seq 0 (li_length (new_LineIndex text)))
  = map dropCR (splitLF text).
Proof.
  induction text as [text IH] using (induction_ltof1 _ (@length Z)). unfold ltof in IH.
  destruct (first_line text) as [H|(l & rest & -> & H)].
  - rewrite splitLF_none by done. simpl. rewrite newline_offsets_none by done. simpl.
    by rewrite li_text_single.
  - rewrite splitLF_first, li_length_first by done. cbn [seq map]. rewrite li_text_0 by done.
    f_equal. rewrite <- IH by (rewrite length_app; simpl; lia).
    rewrite <- seq_shift, map_map.
    apply map_ext_in. intros i Hi%in_seq. apply li_text_shift; [done|lia].
Qed.

(** ** Windows *)

Section windows.
Context (text : jstr) (edit : WorkspaceTextEdit) (flexible : bool).
Local Abbreviation sought := (lw_sought edit flexible).
Local Abbreviation lines := (lw_lines text).
Local Abbreviation width := (length (lw_needle edit)).

Definition lw_values (n : nat) : list jstr := map (lw_value text flexible) (seq 0 n).

(** Where a candidate window ends, if its last line has the terminator the
    needle asks for. *)
Definition lw_end (first : nat) : option nat :=
  if lw_through edit then li_next lines (first + width - 1)
  else Some (li_end lines (first + width - 1)).

Definition lw_indent (first : nat) : jstr :=
  if flexible then commonIndent (lw_window text edit first) else [].

(** The range a window whose lines equal the needle's contributes, if any. *)
Definition lw_range (first : nat) : option MatchedRange :=
  e ← lw_end first;
  if negb flexible || lw_verify text edit flexible first (lw_indent first)
  then Some (Range (li_start lines first) e (lw_replacement text edit flexible first (lw_indent first)))
  else None.

Definition lw_ranges (n : nat) : list MatchedRange :=
  omap lw_range (occurrences sought (lw_values n)).

Lemma length_sought : length sought = width.
Proof.
  unfold lw_sought, lw_normalizedNeedle. destruct flexible; by rewrite !length_map.
Qed.

Lemma sought_ne : sought <> [].
Proof.
  intros H. pose proof length_sought as Hl. rewrite H in Hl.
  unfold lw_needle, neededLines in Hl. simpl in Hl.
  destruct (splitLF _) eqn:E; [by apply splitLF_ne in E|done].
Qed.

Lemma lw_values_snoc n : lw_values (S n) = lw_values n ++ [lw_value text flexible n].
Proof. unfold lw_values. rewrite seq_S, map_app. done. Qed.

Lemma length_lw_values n : length (lw_values n) = n.
Proof. unfold lw_values. by rewrite length_map, length_seq. Qed.

Lemma lw_ranges_snoc n :
  lw_ranges (S n) = lw_ranges n ++
    (if bool_decide (sought `suffix_of` lw_values (S n))
     then option_list (lw_range (S n - width)) else []).
Proof.
  unfold lw_ranges. rewrite lw_values_snoc, (occurrences_snoc _ _ _ sought_ne), omap_app.
  rewrite length_lw_values, length_sought. f_equal. case_bool_decide; simpl; [|done].
  replace (n + 1 - width) with (S n - width) by lia. by destruct (lw_range _).
Qed.

Record window_inv (all : option bool) (n : nat) (st : WindowState) : Prop := {
  wi_matched : longest sought (lw_values n) (width - 1) (w_matched st);
  wi_work : (w_verifications st <=
    N.of_nat (width * length (occurrences sought (lw_values n))))%N;
  wi_collected : collect_ok text all (lw_ranges n) (w_collected st);
}.

(** The step exceeded the verification budget on the candidates seen so far. *)
Definition over_budget (n : nat) : Prop :=
  flexible = true /\
  (lw_budget edit < N.of_nat (width * length (occurrences sought (lw_values n))))%N.

Lemma lw_step_inv n st :
  is_true_opt (replaceAll edit) = false -> n < li_length lines ->
  window_inv (replaceAll edit) n st ->
  (exists st', lw_step text edit flexible st n = Ok (Some st') /\
     window_inv (replaceAll edit) (S n) st') \/
  (lw_step text edit flexible st n = Ok None /\ over_budget (S n)).
Proof.
  intros Hall Hn [Hl Hw Hc]. unfold lw_step.
  rewrite <- length_sought in Hl.
  destruct (scan_step _ (lw_value text flexible n) _ _ Hl sought_ne) as (Hend & Hmid & Hfull).
  set (k := kmp_next sought _ (w_matched st) _) in *.
  pose proof (lw_ranges_snoc n) as Hr. rewrite <- lw_values_snoc in *.
  assert (length (occurrences sought (lw_values (S n))) =
    length (occurrences sought (lw_values n)) +
    (if bool_decide (sought `suffix_of` lw_values (S n)) then 1 else 0)) as Hocc.
  { rewrite lw_values_snoc, (occurrences_snoc _ _ _ sought_ne), length_app.
    f_equal. by repeat case_bool_decide. }
  rewrite length_sought in *.
  destruct (Nat.eqb_spec k width) as [E|E]; cbn [negb]; last first.
  { left. eexists. split; [reflexivity|].
    rewrite bool_decide_eq_false_2 in Hr, Hocc by tauto. rewrite app_nil_r in Hr.
    constructor; simpl; [by apply Hmid| |by rewrite Hr].
    rewrite Hocc, Nat.add_0_r. done. }
  rewrite bool_decide_eq_true_2 in Hr, Hocc by tauto.
  assert (width <= S n) as Hws.
  { pose proof (proj1 Hend E) as Hs. apply suffix_length in Hs.
    by rewrite length_sought, length_lw_values in Hs. }
  assert (1 <= width) as Hpos.
  { rewrite <- length_sought. pose proof sought_ne. destruct sought; simpl; [done|lia]. }
  set (first := S n - width) in *.
  assert (n = first + width - 1) as Hlast by lia.
  assert ((if lw_through edit then li_next lines n else Some (li_end lines n))
          = lw_end first) as Hee by (unfold lw_end; by rewrite <- Hlast).
  rewrite !Hee.
  destruct (bool_decide (is_Some (lw_end first)) && flexible &&
    (lw_budget edit <? w_verifications st + N.of_nat width)%N) eqn:Hlim.
  - right. split; [done|]. bools. apply N.ltb_lt in H0. split; [done|]. lia.
  - left. unfold lw_range in Hr. fold (lw_indent first).
    destruct (lw_end first) as [e|] eqn:He.
    + rewrite bool_decide_eq_true_2 in * by eauto. cbn [andb] in *.
      assert ((if flexible then commonIndent (lw_window text edit first) else [])
              = lw_indent first) as -> by done.
      simpl in Hr.
      destruct (negb flexible || lw_verify text edit flexible first (lw_indent first)) eqn:Hv.
      * simpl in Hr.
        set (r := Range _ _ _) in Hr.
        destruct (collectMatch_spec _ _ _ _ r Hc) as [_ Hok]; [by rewrite Hall|].
        rewrite Hall in Hok. destruct (Hok eq_refl) as (m' & Hcm & Hm').
        simpl in Hcm. rewrite Hcm. simpl. eexists. split; [reflexivity|].
        rewrite Hall. cbn [andb].
        constructor; simpl; [by apply Hfull| |by rewrite Hr].
        destruct flexible; lia.
      * simpl in Hr. rewrite app_nil_r in Hr. simpl. eexists. split; [reflexivity|].
        constructor; simpl; [by apply Hfull| |by rewrite Hr]. destruct flexible; lia.
    + rewrite bool_decide_eq_false_2 in * by (by intros []). cbn [andb] in *.
      simpl in Hr |- *. rewrite app_nil_r in Hr. eexists. split; [reflexivity|].
      constructor; simpl; [by apply Hfull| |by rewrite Hr]. lia.
Qed.

Lemma occurrences_mono n d :
  length (occurrences sought (lw_values n)) <= length (occurrences sought (lw_values (n + d))).
Proof.
  induction d as [|d IH]; [by rewrite Nat.add_0_r|].
  rewrite Nat.add_succ_r, lw_values_snoc, (occurrences_snoc _ _ _ sought_ne), length_app. lia.
Qed.

Lemma lw_loop_inv d n st :
  is_true_opt (replaceAll edit) = false -> n + d = li_length lines ->
  window_inv (replaceAll edit) n st ->
  (exists st', lw_loop text edit flexible st (seq n d) = Ok (Some st') /\
     window_inv (replaceAll edit) (n + d) st') \/
  (lw_loop text edit flexible st (seq n d) = Ok None /\ over_budget (n + d)).
Proof.
  intros Hall. revert n st. induction d as [|d IH]; intros n st Hd Hst; simpl.
  { left. rewrite Nat.add_0_r. eauto. }
  destruct (lw_step_inv n st) as [(st' & -> & Hst')|[-> Hov]]; [done|lia|done| |]; simpl.
  - replace (n + S d) with (S n + d) by lia. apply IH; [lia|done].
  - right. split; [done|]. destruct Hov as [Hf Hb]. split; [done|].
    pose proof (occurrences_mono (S n) d). replace (n + S d) with (S n + d) by lia. nia.
Qed.
End windows.

(** (C4) Line windows without [replaceAll]: for a needle that is not blank and
    not longer than the file, both line strategies return what searching every
    window of lines naively gives (lines compared without trailing white space,
    and for the indentation-flexible strategy a window also has to agree line by
    line once its common indentation is removed; a needle ending in a line break
    also needs the window's last line to be terminated). The only other answer is
    the work limit, only for the indentation-flexible strategy, and only when the
    candidate windows together have more lines than the verification budget. *)
Theorem findLineWindows_correct (text : jstr) (edit : WorkspaceTextEdit) (flexible : bool)
    (Hall : is_true_opt (replaceAll edit) = false)
    (Hblank : forallb (fun line => length (trim line) =? 0) (lw_needle edit) = false)
    (Hfits : length (lw_needle edit) <= li_length (new_LineIndex text)) :
  let n := li_length (new_LineIndex text) in
  let windows := omap (lw_range text edit flexible)
                   (occurrences (lw_sought edit flexible) (lw_values text flexible n)) in
  findLineWindows text edit flexible =
    Ok match windows with
       | [] => NoMatch
       | [r] => Matched (if flexible then IndentationFlexible else LineTrimmed) [r] 1 None
       | rs => Ambiguous (if flexible then IndentationFlexible else LineTrimmed)
                 (length rs) (take 5 (map range_start rs))
       end
  \/ findLineWindows text edit flexible = Ok Limit /\ over_budget text edit flexible n.
Proof.
  intros n windows. unfold findLineWindows. rewrite Hblank.
  destruct (Nat.ltb_spec (li_length (lw_lines text)) (length (lw_needle edit))) as [Hlt|_].
  { unfold lw_lines in Hlt. lia. }
  destruct (lw_loop_inv text edit flexible n 0
    (Window 0 0 (collectedMatches text (replaceAll edit)))) as [(st & Hrun & [_ _ Hc])|[Hrun Hov]];
    [done|done| | |].
  - constructor; simpl; [apply longest_nil|lia|apply collect_ok_init].
  - left. unfold n in Hrun. unfold lw_lines. rewrite Hrun. simpl.
    erewrite resolve_spec by done. unfold outcome_of. rewrite Hall. simpl. fold n.
    change (lw_ranges text edit flexible n) with windows.
    by destruct windows as [|? [|]].
  - right. unfold n in Hrun. unfold lw_lines. rewrite Hrun. simpl. done.
Qed.

Lemma findLineWindows_correct_witness :
  let text := js "a b" ++ [32; LF]%Z ++ js "c" in
  findLineWindows text (TextEdit (js "a b") (js "x") None) false
    = Ok (Matched LineTrimmed [Range 0 4 (js "x")] 1 None).
Proof.
  intros text.
  destruct (findLineWindows_correct text (TextEdit (js "a b") (js "x") None) false)
    as [->|[_ [H _]]]; [reflexivity|reflexivity|vm_compute; lia|reflexivity|discriminate].
Defined.
