(* ===== verification/EditsApply.v ===== *)
(** * Batches of edits: theorems

    What [applyTextEdits] promises its callers: edits compose in order, nothing
    is returned unless every edit applied, and one rejection names every edit
    that did not. *)

From stdpp Require Import base list numbers option strings sorting.
From Stdlib Require Import ZArith Lia.
From S2P Require Import Prelude Kmp JsString Edits EditsExact.

Lemma apply_step_failures matching st i e st' :
  apply_step matching st i e = Ok st' -> failures st `prefix_of` failures st'.
Proof.
  unfold apply_step. intros H. apply bind_Ok in H as (o & _ & H).
  destruct o; simpl in H.
  - apply bind_Ok in H as (w & _ & H). by injection H as <-.
  - injection H as <-. simpl. by apply prefix_app_r.
  - injection H as <-. simpl. by apply prefix_app_r.
  - injection H as <-. simpl. by apply prefix_app_r.
Qed.

Lemma apply_loop_failures matching es st i st' :
  apply_loop matching st i es = Ok st' -> failures st `prefix_of` failures st'.
Proof.
  revert st i. induction es as [|e es IH]; intros st i H; simpl in H.
  { injection H as ->. done. }
  apply bind_Ok in H as (st1 & H1 & H2). etrans; [by eapply apply_step_failures|eauto].
Qed.

(** ** The contract: a chain of single edits *)

(** One edit turns [w] into [w'] and is reported as [m]. *)
Definition edit_ok (matching : WorkspaceEditMatching) (w : jstr) (e : WorkspaceTextEdit)
    (w' : jstr) (m : WorkspaceEditMatch) : Prop :=
  exists strategy rs n updated,
    findEditMatch w e matching = Ok (Matched strategy rs n updated) /\
    match updated with Some u => Ok u | None => replaceRanges w rs end = Ok w' /\
    m = EditMatch strategy n.

Inductive applies (matching : WorkspaceEditMatching)
    : jstr -> list WorkspaceTextEdit -> jstr -> list WorkspaceEditMatch -> Prop :=
| applies_nil w : applies matching w [] w []
| applies_cons w e es w1 m w2 ms :
    edit_ok matching w e w1 m -> applies matching w1 es w2 ms ->
    applies matching w (e :: es) w2 (m :: ms).

Lemma applies_app_iff matching w es1 es2 w' ms :
  applies matching w (es1 ++ es2) w' ms <->
  exists w1 ms1 ms2, applies matching w es1 w1 ms1 /\ applies matching w1 es2 w' ms2 /\
    ms = ms1 ++ ms2.
Proof.
  split.
  - revert w ms. induction es1 as [|e es1 IH]; simpl; intros w ms H.
    + exists w, [], ms. split_and!; [constructor|done|done].
    + inversion H as [|? ? ? wa m ? msa Ho Hr]; subst.
      destruct (IH _ _ Hr) as (w1 & ms1 & ms2 & H1 & H2 & ->).
      exists w1, (m :: ms1), ms2. split_and!; [by econstructor|done|done].
  - intros (w1 & ms1 & ms2 & H1 & H2 & ->). induction H1; simpl; [done|].
    econstructor; eauto.
Qed.

Lemma apply_step_clean matching w ms i e st' :
  apply_step matching (Applying w ms []) i e = Ok st' -> failures st' = [] ->
  exists w1 m, edit_ok matching w e w1 m /\ st' = Applying w1 (ms ++ [m]) [].
Proof.
  unfold apply_step. simpl. intros H Hf. apply bind_Ok in H as (o & Ho & H).
  destruct o; simpl in H; try (injection H as <-; done).
  apply bind_Ok in H as (u & Hu & H). injection H as <-.
  exists u, (EditMatch strategy occurrences). split; [|done].
  do 4 eexists. split_and!; [done|by destruct updated|done].
Qed.

Lemma apply_loop_clean matching es w ms i w' ms' :
  apply_loop matching (Applying w ms []) i es = Ok (Applying w' ms' []) <->
  exists ms1, ms' = ms ++ ms1 /\ applies matching w es w' ms1.
Proof.
  revert w ms i ms'. induction es as [|e es IH]; intros w ms i ms'; simpl.
  - split.
    + intros [= -> ->]. exists []. split; [by rewrite app_nil_r|constructor].
    + intros (ms1 & -> & H). inversion H; subst. by rewrite app_nil_r.
  - rewrite bind_Ok. split.
    + intros (st1 & H1 & H2). pose proof (apply_loop_failures _ _ _ _ _ H2) as Hp.
      apply prefix_nil_inv in Hp. destruct (apply_step_clean _ _ _ _ _ _ H1 Hp) as (w1 & m & Ho & ->).
      apply IH in H2 as (ms1 & -> & Ha). exists (m :: ms1).
      split; [by rewrite <- app_assoc|by econstructor].
    + intros (ms1 & -> & H). inversion H as [|? ? ? w1 m ? msa Ho Hr]; subst.
      exists (Applying w1 (ms ++ [m]) []). split.
      * destruct Ho as (strategy & rs & n & updated & Hf & Hu & ->). unfold apply_step. simpl.
        rewrite Hf. simpl. destruct updated; simpl in *; [by injection Hu as ->|by rewrite Hu].
      * apply IH. exists msa. split; [by rewrite <- app_assoc|done].
Qed.

Lemma applyTextEdits_Ok matching text es r :
  applyTextEdits text es matching = Ok r <->
  applies matching text es (applied_text r) (applied_matches r).
Proof.
  unfold applyTextEdits. rewrite bind_Ok. split.
  - intros ([w ms fs] & H & Hr). simpl in Hr. destruct fs; [|done]. injection Hr as <-.
    apply apply_loop_clean in H as (ms1 & -> & Ha). done.
  - intros Ha. exists (Applying (applied_text r) (applied_matches r) []). split.
    + apply apply_loop_clean. eauto.
    + simpl. by destruct r.
Qed.

(** A batch is the composition of its parts: applying [es1 ++ es2] succeeds
    exactly when applying [es1] succeeds and then applying [es2] to the text it
    produced succeeds, with that final text and the matches of both in order.
    In particular a batch is all or nothing. *)
Theorem applyTextEdits_app (matching : WorkspaceEditMatching) (text : jstr)
    (es1 es2 : list WorkspaceTextEdit) (r : AppliedEdits) :
  applyTextEdits text (es1 ++ es2) matching = Ok r <->
  exists r1 r2,
    applyTextEdits text es1 matching = Ok r1 /\
    applyTextEdits (applied_text r1) es2 matching = Ok r2 /\
    r = Applied (applied_text r2) (applied_matches r1 ++ applied_matches r2).
Proof.
  rewrite applyTextEdits_Ok, applies_app_iff. split.
  - intros (w1 & ms1 & ms2 & H1 & H2 & E).
    exists (Applied w1 ms1), (Applied (applied_text r) ms2). rewrite !applyTextEdits_Ok. simpl.
    split_and!; [done|done|]. rewrite <- E. by destruct r.
  - intros (r1 & r2 & H1 & H2 & ->). rewrite applyTextEdits_Ok in H1, H2. simpl. eauto 10.
Qed.

(** ** Rejections *)

Definition not_matched (o : MatchOutcome) : Prop :=
  match o with Matched _ _ _ _ => False | _ => True end.

(** The failures recorded for the edits [es] that start at position [i]. *)
Definition failures_of (matching : WorkspaceEditMatching) (i : nat) (es : list WorkspaceTextEdit)
    (fs : list EditFailure) : Prop :=
  StronglySorted lt (map failure_index fs) /\
  (forall f, f ∈ fs -> exists e, i <= failure_index f /\ es !! (failure_index f - i) = Some e /\
     findEditMatch (failure_text f) e matching = Ok (failure_outcome f) /\
     not_matched (failure_outcome f)) /\
  (forall k e, es !! k = Some e -> i + k ∉ map failure_index fs ->
     exists t t' m, edit_ok matching t e t' m).

Lemma failures_of_cons_ok matching i e es fs t t' m :
  edit_ok matching t e t' m -> failures_of matching (S i) es fs ->
  failures_of matching i (e :: es) fs.
Proof.
  intros Ho (Hs & Hf & Hm). split_and!; [done| |].
  - intros f Hin. destruct (Hf f Hin) as (e' & Hi & He & Hr). exists e'.
    split_and!; [lia| |apply Hr..].
    replace (failure_index f - i) with (S (failure_index f - S i)) by lia. done.
  - intros [|k] e' He Hno; simpl in He; [injection He as <-; eauto|].
    apply (Hm k e' He). by replace (S i + k) with (i + S k) by lia.
Qed.

Lemma failures_of_cons_fail matching i e es fs w o :
  findEditMatch w e matching = Ok o -> not_matched o -> failures_of matching (S i) es fs ->
  failures_of matching i (e :: es) (Failure i w o :: fs).
Proof.
  intros Ho Hn (Hs & Hf & Hm). split_and!; simpl.
  - constructor; [done|]. apply Forall_forall. intros k Hk%list_elem_of_In%in_map_iff.
    destruct Hk as (f & <- & Hin). destruct (Hf f) as (_ & ? & _); [by apply list_elem_of_In|lia].
  - intros f [->|Hin]%elem_of_cons; simpl.
    + exists e. rewrite Nat.sub_diag. split_and!; [lia|done|done|done].
    + destruct (Hf f Hin) as (e' & Hi & He & Hr). exists e'.
      split_and!; [lia| |apply Hr..].
      replace (failure_index f - i) with (S (failure_index f - S i)) by lia. done.
  - intros [|k] e' He Hno; simpl in *; apply not_elem_of_cons in Hno as [Hne Hno]; [lia|].
    apply (Hm k e' He). by rewrite <- Nat.add_succ_r.
Qed.

Lemma apply_loop_failures_of matching es st i st' :
  apply_loop matching st i es = Ok st' ->
  exists fs, failures st' = failures st ++ fs /\ failures_of matching i es fs.
Proof.
  revert st i. induction es as [|e es IH]; intros st i H; simpl in H.
  { injection H as ->. exists []. rewrite app_nil_r. split; [done|].
    split_and!; [constructor|by intros f ?%not_elem_of_nil|done]. }
  apply bind_Ok in H as (st1 & H1 & H2). apply IH in H2 as (fs & Hfs & Hof).
  unfold apply_step in H1. apply bind_Ok in H1 as (o & Ho & H1).
  destruct o; simpl in H1; [|injection H1 as <-; simpl in Hfs; eexists (Failure i _ _ :: fs);
    split; [by rewrite Hfs, <- app_assoc|by apply failures_of_cons_fail]..].
  apply bind_Ok in H1 as (u & Hu & H1). injection H1 as <-. exists fs. split; [done|].
  eapply failures_of_cons_ok; [|done]. exists strategy, ranges, occurrences, updated.
  split_and!; [done|by destruct updated|done].
Qed.

(** Which errors a computation may throw. *)
Definition throws {A} (E : EditError -> Prop) (m : res EditError A) : Prop := forall e, m = Err e -> E e.

Lemma throws_bind {A B} E (m : res EditError A) (k : A -> res EditError B) :
  throws E m -> (forall a, throws E (k a)) -> throws E (m ≫= k).
Proof. intros Hm Hk e [H|(a & _ & H)]%bind_Err; [by apply Hm|by eapply Hk]. Qed.

Lemma throws_ret {A} E (a : A) : throws E (mret a : res EditError A).
Proof. intros e. discriminate. Qed.

Lemma throws_nothing {A} (m : res EditError A) : throws (fun _ => False) m -> exists a, m = Ok a.
Proof. intros H. destruct m as [a|e]; [by exists a|]. by destruct (H e). Qed.

Create HintDb throws.
#[local] Hint Resolve throws_bind throws_ret : throws.

(** Matching throws only the output limit, and that only for [replaceAll]. *)
Section matching_throws.
Context (E : EditError -> Prop).

Definition limited (all : option bool) : Prop := is_true_opt all = true -> E WorkspaceEditOutputLimitError.

Lemma collectMatch_throws m s e r a : limited a -> throws E (collectMatch m s e r a).
Proof.
  intros Ha. unfold collectMatch. apply throws_bind; [|auto with throws].
  destruct (is_true_opt a) eqn:Ea; [|auto with throws].
  repeat case_goal; auto with throws; intros x [= <-]; by apply Ha.
Qed.

Lemma exact_loop_throws e p rest i k m : limited (replaceAll e) -> throws E (exact_loop e p rest i k m).
Proof.
  intros Ha. revert i k m. induction rest as [|c rest IH]; intros i k m; simpl; [auto with throws|].
  case_goal; [auto with throws|]. apply throws_bind; [by apply collectMatch_throws|auto with throws].
Qed.

Lemma lw_loop_throws text e fl st l : limited (replaceAll e) -> throws E (lw_loop text e fl st l).
Proof.
  intros Ha. revert st. induction l as [|i l IH]; intros st; simpl; [auto with throws|].
  apply throws_bind; [|intros [st'|]; auto with throws].
  unfold lw_step. cbv zeta. case_goal; [auto with throws|].
  generalize (if lw_through e then li_next (lw_lines text) i
              else Some (li_end (lw_lines text) i)) as end_. intros end_.
  case_goal; [auto with throws|]. apply throws_bind; [|auto with throws].
  destruct end_; [|auto with throws]. repeat case_goal; auto using collectMatch_throws with throws.
Qed.

Lemma token_loop_throws text tk ld tr lf crlf a st ws : limited a -> throws E (token_loop text tk ld tr lf crlf a st ws).
Proof.
  intros Ha. revert st. induction ws as [|w ws IH]; intros st; simpl; [auto with throws|].
  apply throws_bind; [|auto]. unfold token_step.
  case_goal; [auto with throws|]. case_goal; [|auto with throws].
  destruct (advance_newline _ _ _ _ _). auto using collectMatch_throws with throws.
Qed.

Lemma find_strategy_throws text e s : limited (replaceAll e) -> throws E (find_strategy text e s).
Proof.
  intros Ha. destruct s; simpl.
  - unfold findExact. case_goal; auto using exact_loop_throws with throws.
  - unfold findLineWindows. repeat case_goal; auto with throws.
    apply throws_bind; [by apply lw_loop_throws|]. intros []; auto with throws.
  - unfold findLineWindows. repeat case_goal; auto with throws.
    apply throws_bind; [by apply lw_loop_throws|]. intros []; auto with throws.
  - unfold findWhitespaceNormalized. case_goal; [auto with throws|].
    destruct (peelBoundaryWhitespace _ _ true) as [t|]; [|auto with throws].
    destruct (peelBoundaryWhitespace t _ false); auto using token_loop_throws with throws.
Qed.

Lemma first_outcome_throws text e ss : limited (replaceAll e) -> throws E (first_outcome text e ss).
Proof.
  intros Ha. induction ss as [|s ss IH]; simpl; [auto with throws|].
  apply throws_bind; [by apply find_strategy_throws|]. intros []; auto with throws.
Qed.
End matching_throws.

(** Matching itself never throws a match error: only [applyTextEdits] does. *)
Abbreviation no_match_error := (throws (fun e => e = WorkspaceEditOutputLimitError)).

Lemma findEditMatch_no_match_error w e matching : no_match_error (findEditMatch w e matching).
Proof. by apply first_outcome_throws. Qed.

Lemma apply_step_no_match_error matching st i e : no_match_error (apply_step matching st i e).
Proof.
  unfold apply_step. apply throws_bind; [apply findEditMatch_no_match_error|].
  intros []; auto with throws. apply throws_bind; [|auto with throws].
  destruct updated; [auto with throws|]. unfold replaceRanges. case_goal; [|auto with throws].
  by intros x [= <-].
Qed.

Lemma apply_loop_no_match_error matching es st i : no_match_error (apply_loop matching st i es).
Proof.
  revert st i. induction es as [|e es IH]; intros st i; simpl; [auto with throws|].
  apply throws_bind; [apply apply_step_no_match_error|auto].
Qed.

(** The failures a rejection carries. *)
Lemma rejection_failures matching text es fs n :
  applyTextEdits text es matching = Err (WorkspaceEditMatchError fs n) ->
  n = length es /\ fs <> [] /\ failures_of matching 0 es fs.
Proof.
  intros H. unfold applyTextEdits in H. apply bind_Err in H as [H|(st & H & Hr)].
  - by apply apply_loop_no_match_error in H.
  - apply apply_loop_failures_of in H as (fs' & Hfs & Hof). simpl in Hfs.
    rewrite Hfs in Hr. destruct fs' as [|f0 fs']; [done|]. by injection Hr as <- <-.
Qed.

(** A rejected batch names every edit that did not apply: the error carries
    the number of edits and at least one failure, the failures are in request
    order without repetition, each holds the outcome matching gave that edit on
    the text it saw, which is not a match, and every edit that is not named did
    match the text it saw. *)
Theorem applyTextEdits_rejection (matching : WorkspaceEditMatching) (text : jstr)
    (es : list WorkspaceTextEdit) (fs : list EditFailure) (n : nat)
    (H : applyTextEdits text es matching = Err (WorkspaceEditMatchError fs n)) :
  n = length es /\ fs <> [] /\
  StronglySorted lt (map failure_index fs) /\
  (forall f, f ∈ fs -> exists e, es !! failure_index f = Some e /\
     findEditMatch (failure_text f) e matching = Ok (failure_outcome f) /\
     not_matched (failure_outcome f)) /\
  (forall k e, es !! k = Some e -> k ∉ map failure_index fs ->
     exists t t' m, edit_ok matching t e t' m).
Proof.
  destruct (rejection_failures _ _ _ _ _ H) as (-> & Hne & Hs & Hf & Hm). split_and!; [done|done|done| |done].
  intros f Hin. destruct (Hf f Hin) as (e & _ & He & Hr). rewrite Nat.sub_0_r in He. eauto.
Qed.

Lemma applyTextEdits_rejection_witness :
  exists fs,
    applyTextEdits (js "one two oo") [TextEdit (js "three") (js "x") None;
      TextEdit (js "two") (js "2") None; TextEdit (js "o") (js "0") None] MatchExact
      = Err (WorkspaceEditMatchError fs 3) /\ map failure_index fs = [0; 2] /\
    StronglySorted lt (map failure_index fs).
Proof.
  eexists. split; [vm_compute; reflexivity|]. split; [reflexivity|].
  refine (proj1 (proj2 (proj2 (applyTextEdits_rejection MatchExact (js "one two oo")
    [TextEdit (js "three") (js "x") None; TextEdit (js "two") (js "2") None;
     TextEdit (js "o") (js "0") None] _ 3 _)))).
  vm_compute. reflexivity.
Defined.

(** One exact edit without [replaceAll]: the result is the text with the
    only occurrence of [oldText] replaced, the rest of the text unchanged; if
    [oldText] occurs nowhere or more than once the edit is rejected with that
    outcome and nothing is returned; and if the replaced text would exceed the
    write limit the output-limit error is thrown. *)
Theorem applyTextEdits_single_exact (text : jstr) (edit : WorkspaceTextEdit)
    (Hold : oldText edit <> []) (Hall : is_true_opt (replaceAll edit) = false) :
  applyTextEdits text [edit] MatchExact =
  match occurrences (oldText edit) text with
  | [] => Err (WorkspaceEditMatchError [Failure 0 text NoMatch] 1)
  | [i] =>
      let updated := take i text ++ newText edit ++ drop (i + length (oldText edit)) text in
      if (BRIDGE_WORKSPACE_WRITE_MAX_BYTES <? Z.of_nat (length updated))%Z
      then Err WorkspaceEditOutputLimitError
      else Ok (Applied updated [EditMatch Exact 1])
  | l =>
      Err (WorkspaceEditMatchError
             [Failure 0 text (Ambiguous Exact (length l) (take 5 l))] 1)
  end.
Proof.
  unfold applyTextEdits, apply_loop, apply_step, findEditMatch. simpl.
  rewrite findExact_overlapping by done. simpl.
  destruct (occurrences (oldText edit) text) as [|i [|j l]] eqn:Eo; simpl; [done| |done].
  assert (occurs_at (oldText edit) text i = true) as Hi.
  { assert (In i (occurrences (oldText edit) text)) as Hin by (rewrite Eo; by left).
    unfold occurrences in Hin. by apply filter_In in Hin as [_ ?]. }
  apply bool_decide_eq_true in Hi.
  assert (i + length (oldText edit) <= length text) as Hle.
  { assert (1 <= length (oldText edit)) by (destruct (oldText edit); simpl; [done|lia]).
    apply (f_equal length) in Hi. rewrite length_take, length_drop in Hi. lia. }
  unfold replaceRanges, replaced_length. simpl.
  set (updated := take i text ++ newText edit ++ drop (i + length (oldText edit)) text).
  assert (Z.of_nat (length updated) = Z.of_nat (length text) + Z.of_nat (length (newText edit))
    - (Z.of_nat (i + length (oldText edit)) - Z.of_nat i))%Z as <-.
  { unfold updated. rewrite !length_app, length_take, length_drop. lia. }
  destruct (_ <? _)%Z; simpl; [done|]. unfold slice.
  rewrite drop_0, Nat.sub_0_r. by rewrite <- app_assoc.
Qed.

Lemma applyTextEdits_single_exact_witness :
  applyTextEdits (js "let x = 1;") [TextEdit (js "= 1") (js "= 2") None] MatchExact
    = Ok (Applied (js "let x = 2;") [EditMatch Exact 1]).
Proof.
  rewrite (applyTextEdits_single_exact (js "let x = 1;") (TextEdit (js "= 1") (js "= 2") None));
    [vm_compute; reflexivity|discriminate|reflexivity].
Defined.
