(* ===== verification/Json.v ===== *)
(** * Untyped values

    The [unknown] values the validators of packages/code/src/protocol.ts inspect:
    what [JSON.parse] returns, with the property reads, [typeof] tests and integer
    tests the code applies to them, and the UTF-8 encoding of strings. Language
    and platform behaviour only; no definition of this file is mapped. *)

From stdpp Require Import base list numbers option strings pretty.
From Stdlib Require Import ZArith Lia.
From S2P Require Import Prelude JsString.

(** A number is an integer value or some other double; the latter is never a
    safe integer and equal to no integer. An object lists its own properties;
    [undefined] is the absence of a property. *)
Inductive json : Type :=
| JNull
| JBool (b : bool)
| JInt (n : Z)
| JNonInt (tag : Z)
| JStr (s : jstr)
| JArr (l : list json)
| JObj (fields : list (jstr * json)).

Definition record := list (jstr * json).

(** [o.k]: [None] is [undefined]. *)
Fixpoint field (o : record) (k : jstr) : option json :=
  match o with
  | [] => None
  | (k', v) :: o' => if bool_decide (k = k') then Some v else field o' k
  end.

Definition keys (o : record) : list jstr := map fst o.

(** The properties read when [typeof v === 'object' && v !== null]: an array's
    own keys are its indices. *)
Definition asRecord (v : json) : option record :=
  match v with
  | JObj fs => Some fs
  | JArr l => Some (imap (fun i x => (js (pretty i), x)) l)
  | _ => None
  end.

Definition MAX_SAFE_INTEGER : Z := (2 ^ 53 - 1)%Z.

Definition isSafeInteger (v : option json) : bool :=
  match v with
  | Some (JInt n) => ((- MAX_SAFE_INTEGER <=? n) && (n <=? MAX_SAFE_INTEGER))%Z
  | _ => false
  end.

(** [Number.isSafeInteger(v) && Number(v) >= lo && Number(v) <= hi]. *)
Definition safeIntIn (v : option json) (lo hi : Z) : bool :=
  match v with
  | Some (JInt n) => isSafeInteger v && ((lo <=? n) && (n <=? hi))%Z
  | _ => false
  end.

Definition isStr (v : option json) : bool := match v with Some (JStr _) => true | _ => false end.
Definition isBool (v : option json) : bool := match v with Some (JBool _) => true | _ => false end.
Definition isUndefined (v : option json) : bool := match v with None => true | _ => false end.

(** [v === s], [v === b] and [v === n] for a string, a boolean and an integer. *)
Definition eqStr (v : option json) (s : jstr) : bool :=
  match v with Some (JStr s') => bool_decide (s' = s) | _ => false end.
Definition eqBool (v : option json) (b : bool) : bool :=
  match v with Some (JBool b') => Bool.eqb b' b | _ => false end.
Definition eqInt (v : option json) (n : Z) : bool :=
  match v with Some (JInt n') => (n' =? n)%Z | _ => false end.

(** A test on a string property. *)
Definition strTest (v : option json) (f : jstr -> bool) : bool :=
  match v with Some (JStr s) => f s | _ => false end.

(** [v === undefined || test]. *)
Definition optional (v : option json) (test : bool) : bool := isUndefined v || test.

(** ** UTF-8 *)

Definition isHigh (c : Z) : bool := ((55296 <=? c) && (c <=? 56319))%Z.
Definition isLow (c : Z) : bool := ((56320 <=? c) && (c <=? 57343))%Z.

(** The bytes of one code point. *)
Definition utf8_point (p : Z) : list Z :=
  if (p <? 128)%Z then [p]
  else if (p <? 2048)%Z then [192 + p / 64; 128 + p mod 64]%Z
  else if (p <? 65536)%Z then [224 + p / 4096; 128 + p / 64 mod 64; 128 + p mod 64]%Z
  else [240 + p / 262144; 128 + p / 4096 mod 64; 128 + p / 64 mod 64; 128 + p mod 64]%Z.

(** [TextEncoder.encode]: a lone surrogate becomes U+FFFD. *)
Fixpoint utf8 (s : jstr) : list Z :=
  match s with
  | [] => []
  | c :: s' =>
      if isHigh c then
        match s' with
        | d :: s'' =>
            if isLow d then
              utf8_point (65536 + (c - 55296) * 1024 + (d - 56320))%Z ++ utf8 s''
            else utf8_point 65533 ++ utf8 s'
        | [] => utf8_point 65533
        end
      else if isLow c then utf8_point 65533 ++ utf8 s'
      else utf8_point c ++ utf8 s'
  end.

Definition byteLength (s : jstr) : Z := Z.of_nat (length (utf8 s)).

(** [Buffer.from(s).toString('utf8') === s]: no lone surrogate. *)
Fixpoint wellFormed (s : jstr) : bool :=
  match s with
  | [] => true
  | c :: s' =>
      if isHigh c then
        match s' with d :: s'' => isLow d && wellFormed s'' | [] => false end
      else negb (isLow c) && wellFormed s'
  end.

(** ** Character classes of the fixed patterns *)

Definition isDigit (c : Z) : bool := ((48 <=? c) && (c <=? 57))%Z.
Definition isUpper (c : Z) : bool := ((65 <=? c) && (c <=? 90))%Z.
Definition isLowerAZ (c : Z) : bool := ((97 <=? c) && (c <=? 122))%Z.
Definition isAlnum (c : Z) : bool := isDigit c || isUpper c || isLowerAZ c.
Definition isHexLower (c : Z) : bool := isDigit c || ((97 <=? c) && (c <=? 102))%Z.
Definition oneOf (c : Z) (s : string) : bool := bool_decide (c ∈ js s).

(** [/^[a-f0-9]{64}$/]. *)
Definition isHex64 (s : jstr) : bool := (length s =? 64) && forallb isHexLower s.

(** [/^[A-Za-z0-9][...]{0,n}$/] with a tail class. *)
Definition headTail (tail : Z -> bool) (n : nat) (s : jstr) : bool :=
  match s with
  | c :: t => isAlnum c && (length t <=? n) && forallb tail t
  | [] => false
  end.

(** [s.split('/')]. *)
Fixpoint splitOn (sep : Z) (s : jstr) : list jstr :=
  match s with
  | [] => [[]]
  | x :: s' =>
      if (x =? sep)%Z then [] :: splitOn sep s'
      else match splitOn sep s' with [] => [[x]] | l :: ls => (x :: l) :: ls end
  end.

Fixpoint joinWith (sep : Z) (ls : list jstr) : jstr :=
  match ls with
  | [] => []
  | l :: ls' => match ls' with [] => l | _ => l ++ sep :: joinWith sep ls' end
  end.

Definition SLASH : Z := 47%Z.
Definition NUL : Z := 0%Z.

(** ** Lemmas *)

Lemma splitOn_ne sep s : splitOn sep s <> [].
Proof.
  destruct s as [|x s]; simpl; [done|]. destruct (x =? sep)%Z; [done|]. by destruct (splitOn sep s).
Qed.

Lemma joinWith_splitOn sep s : joinWith sep (splitOn sep s) = s.
Proof.
  induction s as [|x s IH]; simpl; [done|].
  destruct (Z.eqb_spec x sep) as [->|Hne]; destruct (splitOn sep s) as [|l ls] eqn:E; simpl in *.
  - by subst.
  - by rewrite <- IH.
  - by subst.
  - rewrite <- IH. by destruct ls.
Qed.

Lemma splitOn_inj sep s t : splitOn sep s = splitOn sep t -> s = t.
Proof. intros H. by rewrite <- (joinWith_splitOn sep s), <- (joinWith_splitOn sep t), H. Qed.

Lemma splitOn_free sep s : Forall (fun l => sep ∉ l) (splitOn sep s).
Proof.
  induction s as [|x s IH]; simpl; [by repeat constructor; apply not_elem_of_nil|].
  destruct (Z.eqb_spec x sep) as [->|Hne]; [by constructor; [apply not_elem_of_nil|]|].
  destruct (splitOn sep s) as [|l ls]; [repeat constructor|].
  - rewrite elem_of_cons, elem_of_nil. naive_solver.
  - inversion IH; subst. constructor; [|done]. rewrite elem_of_cons. naive_solver.
Qed.

Lemma strTest_true v f : strTest v f = true <-> exists s, v = Some (JStr s) /\ f s = true.
Proof. destruct v as [[]|]; simpl; naive_solver. Qed.

Lemma eqStr_true v s : eqStr v s = true <-> v = Some (JStr s).
Proof. destruct v as [[]|]; simpl; rewrite ?bool_decide_eq_true; naive_solver. Qed.

Lemma isUndefined_true v : isUndefined v = true <-> v = None.
Proof. destruct v; simpl; naive_solver. Qed.

Lemma optional_true v t : optional v t = true <-> v = None \/ t = true.
Proof. unfold optional. rewrite orb_true_iff, isUndefined_true. done. Qed.
