(* ===== verification/Protocol.v ===== *)
(** * The bridge protocol: identities, paths and validators

    Models packages/code/src/protocol.ts: the isolation keys that scheduling and
    quarantine share, the portable path rules, and the validators that decide
    which requests, results and capabilities cross the bridge. A validator takes
    the untyped value the code receives and returns the code's boolean.

    The Unicode tables behind [toLowerCase] and the [\p{...}] classes and the
    SHA-256 digest are not code of the repository: they are the fields of
    [Platform], which the validators that use them take as an argument. *)

From stdpp Require Import base list numbers option strings.
From Stdlib Require Import ZArith Lia.
From S2P Require Import Prelude JsString Json.

Class Platform := {
  toLowerCase : jstr -> jstr;
  stripIgnorable : jstr -> jstr;   (* replace(/\p{Default_Ignorable_Code_Point}/gu, '') *)
  hasControl : jstr -> bool;       (* /[\x00-\x1f\x7f\p{Cc}\p{Cf}\p{Zl}\p{Zp}]/u *)
  sha256hex : jstr -> jstr;
}.

(** ** Limits *)

Definition BRIDGE_PROTOCOL_VERSION : Z := 1%Z.
Definition BRIDGE_SANDBOX_PROFILE_MAX_LENGTH : nat := 128.
Definition BRIDGE_RUNTIME_MAX_COUNT : nat := 32.
Definition BRIDGE_RUNTIME_MAX_LENGTH : nat := 64.
Definition BRIDGE_WORKSPACE_MAX_COUNT : nat := 32.
Definition BRIDGE_WORKSPACE_NAME_MAX_LENGTH : nat := 128.
Definition BRIDGE_WORKSPACE_PATH_MAX_LENGTH : Z := 4096%Z.
Definition BRIDGE_WORKSPACE_QUERY_MAX_LENGTH : Z := 4096%Z.
Definition BRIDGE_WORKSPACE_READ_MAX_BYTES : Z := (1024 * 1024)%Z.
Definition BRIDGE_WORKSPACE_WRITE_MAX_BYTES : Z := (1024 * 1024)%Z.
Definition BRIDGE_WORKSPACE_EDIT_MAX_EDITS : nat := 100.
Definition BRIDGE_WORKSPACE_READ_MAX_LINES : Z := 500%Z.
Definition BRIDGE_WORKSPACE_SEARCH_MAX_RESULTS : Z := 200%Z.
Definition BRIDGE_WORKSPACE_SEARCH_TEXT_MAX_LENGTH : Z := 2000%Z.
Definition BRIDGE_WORKSPACE_LIST_MAX_RESULTS : Z := 500%Z.
Definition BRIDGE_WORKSPACE_COMMAND_MAX_BYTES : Z := (32 * 1024)%Z.
Definition BRIDGE_WORKSPACE_COMMAND_MAX_TIMEOUT_MS : Z := (5 * 60000)%Z.
Definition BRIDGE_WORKSPACE_COMMAND_DEFAULT_OUTPUT_BYTES : Z := (256 * 1024)%Z.
Definition BRIDGE_WORKSPACE_COMMAND_MAX_OUTPUT_BYTES : Z := (1024 * 1024)%Z.
Definition BRIDGE_WORKSPACE_COMMAND_SIGNAL_MAX_LENGTH : nat := 32.
Definition BRIDGE_WORKSPACE_PROGRAMMATIC_MAX_FILES : nat := 100.
Definition BRIDGE_WORKSPACE_PROGRAMMATIC_TRANSFER_TIMEOUT_MS : Z := 30000%Z.
Definition BRIDGE_WORKSPACE_PROGRAMMATIC_MAX_FILE_BYTES : Z := (10 * 1024 * 1024)%Z.
Definition BRIDGE_WORKSPACE_PROGRAMMATIC_MAX_HISTORY_BYTES : Z := 40000000%Z.
Definition BRIDGE_WORKSPACE_PROGRAMMATIC_MAX_TOTAL_BYTES : Z := (100 * 1024 * 1024)%Z.
Definition BRIDGE_WORKSPACE_IMPORT_FILE_HANDLE_MAX_LENGTH : Z := 32768%Z.
Definition BRIDGE_WORKSPACE_IMPORT_FILE_GRANT_MAX_LENGTH : Z := (256 * 1024)%Z.
Definition REPOSITORY_INSTRUCTION_MAX_BYTES : Z := (32 * 1024)%Z.

Definition len (s : jstr) : Z := Z.of_nat (length s).

Definition programmaticTransferReserveMs (jobTimeoutMs : Z) : Z := Z.max 1 (jobTimeoutMs / 3).

(** ** Identities *)

(** [BRIDGE_WORKER_ID_PATTERN]. *)
Definition isValidBridgeWorkerId (workerId : jstr) : bool :=
  headTail (fun c => isAlnum c || oneOf c "._:-") 127 workerId.

Definition isValidLinkedWorktreeName (value : option json) : bool :=
  strTest value (fun s =>
    headTail (fun c => isAlnum c || oneOf c "._-") 127 s && negb (endsWith s (js ".lock"))).

Definition LINKED_WORKTREE_KEY_PREFIX : jstr := [NUL] ++ js "linked-worktree" ++ [NUL].
Definition GIT_WORKTREE_KEY_PREFIX : jstr := [NUL] ++ js "git-worktree" ++ [NUL].

Definition workspaceIsolationKey (workspaceId : jstr) (instanceId worktree : option jstr) : jstr :=
  let base :=
    match instanceId with
    | None => workspaceId
    | Some i => GIT_WORKTREE_KEY_PREFIX ++ workspaceId ++ [NUL] ++ i
    end in
  match worktree with
  | None => base
  | Some w => LINKED_WORKTREE_KEY_PREFIX ++ base ++ [NUL] ++ w
  end.

(** [key.lastIndexOf('\0')], [-1] for none. *)
Definition lastNul (key : jstr) : Z :=
  fold_left (fun best ic => if (snd ic =? NUL)%Z then Z.of_nat (fst ic) else best)
    (imap (fun i c => (i, c)) key) (-1)%Z.

Definition workspaceIsolationParent (key : jstr) : option jstr :=
  if negb (startsWith key LINKED_WORKTREE_KEY_PREFIX) then None
  else
    let separator := lastNul key in
    if (separator <=? len LINKED_WORKTREE_KEY_PREFIX)%Z then None
    else Some (slice key (length LINKED_WORKTREE_KEY_PREFIX) (Z.to_nat separator)).

Definition workspaceIsolationKeysConflict (left_ right_ : jstr) : bool :=
  bool_decide (left_ = right_)
  || bool_decide (workspaceIsolationParent left_ = Some right_)
  || bool_decide (workspaceIsolationParent right_ = Some left_).

Definition isWorkspaceMutationOperation (operation : jstr) : bool :=
  bool_decide (operation = js "write_file") || bool_decide (operation = js "edit_file")
  || bool_decide (operation = js "execute_command") || bool_decide (operation = js "import_file").

(** ** Artifact names *)

Definition BRIDGE_ARTIFACT_EXTENSIONS : list jstr := map js
  [
   ".c"; ".cs"; ".cpp"; ".go"; ".java"; ".js"; ".kt"; ".kts"; ".lua"; ".php"; ".pl"; ".ps1";
   ".py"; ".r"; ".rb"; ".rs"; ".scala"; ".sh"; ".sql"; ".swift"; ".ts"; ".jsx"; ".tsx";
   ".groovy"; ".css"; ".htm"; ".html"; ".less"; ".sass"; ".scss"; ".svg"; ".svelte"; ".vue";
   ".adoc"; ".asciidoc"; ".md"; ".rst"; ".tex"; ".txt"; ".wiki"; ".csv"; ".json"; ".bson";
   ".json5"; ".jsonl"; ".parquet"; ".tsv"; ".xml"; ".yaml"; ".yml"; ".ics"; ".ical"; ".ifb";
   ".icalendar"; ".conf"; ".env"; ".gitignore"; ".ini"; ".properties"; ".toml"; ".doc";
   ".docx"; ".pdf"; ".ppt"; ".pptx"; ".xls"; ".xlsx"; ".odt"; ".ods"; ".odp"; ".rtf"; ".avif";
   ".bmp"; ".gif"; ".ico"; ".jpeg"; ".jpg"; ".png"; ".tif"; ".tiff"; ".webp"; ".eot"; ".ttf";
   ".woff"; ".woff2"; ".7z"; ".bz2"; ".gz"; ".gzip"; ".rar"; ".tar"; ".zip"; ".tf"; ".tfvars";
   ".tfstate"; ".hcl"; ".dockerfile"; ".Dockerfile"; ".dockerignore"; ".helmignore";
   ".helmfile"; ".jenkinsfile"; ".vagrantfile"; ".eslintrc"; ".prettierrc"; ".editorconfig";
   ".nomad"; ".bat"; ".cmd"; ".deb"; ".log"; ".rpm"; ".vbs"].

Definition BRIDGE_ARTIFACT_MEDIA_TYPES : list (jstr * jstr) := map (fun kv => (js (fst kv), js (snd kv)))
  [
   (".avif", "image/avif"); (".bmp", "image/bmp"); (".bz2", "application/x-bzip2");
   (".c", "text/x-c"); (".conf", "text/plain"); (".cpp", "text/x-c++src");
   (".css", "text/css"); (".csv", "text/csv"); (".doc", "application/msword");
   (".gif", "image/gif"); (".gz", "application/gzip"); (".gzip", "application/gzip");
   (".htm", "text/html"); (".html", "text/html"); (".ico", "image/x-icon");
   (".ics", "text/calendar"); (".ifb", "text/calendar"); (".ical", "text/calendar");
   (".icalendar", "text/calendar"); (".ini", "text/plain"); (".java", "text/x-java-source");
   (".jpeg", "image/jpeg"); (".jpg", "image/jpeg"); (".js", "text/javascript");
   (".json", "application/json"); (".json5", "application/json5");
   (".jsonl", "application/x-ndjson"); (".jsx", "text/jsx"); (".log", "text/plain");
   (".md", "text/markdown"); (".odt", "application/vnd.oasis.opendocument.text");
   (".ods", "application/vnd.oasis.opendocument.spreadsheet");
   (".odp", "application/vnd.oasis.opendocument.presentation");
   (".parquet", "application/vnd.apache.parquet"); (".pdf", "application/pdf");
   (".png", "image/png"); (".ppt", "application/vnd.ms-powerpoint"); (".py", "text/x-python");
   (".rst", "text/x-rst"); (".rtf", "application/rtf"); (".sh", "application/x-sh");
   (".sql", "application/sql"); (".svg", "image/svg+xml"); (".tar", "application/x-tar");
   (".tex", "application/x-tex"); (".tif", "image/tiff"); (".tiff", "image/tiff");
   (".toml", "application/toml"); (".ts", "text/typescript"); (".tsx", "text/tsx");
   (".tsv", "text/tab-separated-values"); (".txt", "text/plain"); (".webp", "image/webp");
   (".woff", "font/woff"); (".woff2", "font/woff2"); (".xls", "application/vnd.ms-excel");
   (".xml", "application/xml"); (".yaml", "application/yaml"); (".yml", "application/yaml");
   (".zip", "application/zip")].

(** The part after the last [c], or the whole string: [s.slice(s.lastIndexOf(c) + 1)]. *)
Definition afterLast (c : Z) (s : jstr) : jstr := default [] (last (splitOn c s)).

Definition portableBasename (name : jstr) : jstr := afterLast SLASH name.

Definition DOT : Z := 46%Z.

(** [dot > 0 ? basename.slice(dot) : none] for [dot = basename.lastIndexOf('.')]. *)
Definition extensionOf (basename : jstr) : option jstr :=
  let after := afterLast DOT basename in
  let dot := (len basename - len after - 1)%Z in
  if (0 <? dot)%Z then Some (DOT :: after) else None.

Definition hasExtension (e : jstr) : bool := bool_decide (e ∈ BRIDGE_ARTIFACT_EXTENSIONS).

Definition isSupportedBridgeArtifactName `{Platform} (name : jstr) : bool :=
  let basename := portableBasename name in
  if bool_decide (basename = js ".dirkeep") then true
  else
    let extension := match extensionOf basename with Some e => toLowerCase e | None => [] end in
    let dottedBasename := DOT :: basename in
    (negb (bool_decide (extension = [])) && hasExtension extension)
    || hasExtension basename
    || hasExtension (toLowerCase basename)
    || (bool_decide (extension = [])
        && (hasExtension dottedBasename || hasExtension (toLowerCase dottedBasename))).

Definition assoc (k : jstr) (l : list (jstr * jstr)) : option jstr :=
  snd <$> List.find (fun kv => bool_decide (fst kv = k)) l.

Definition bridgeArtifactMediaType `{Platform} (name : jstr) : jstr :=
  let basename := toLowerCase (portableBasename name) in
  let extension := match extensionOf basename with Some e => e | None => basename end in
  default (js "application/octet-stream") (assoc extension BRIDGE_ARTIFACT_MEDIA_TYPES).

(** ** Lane Git state and repository instructions *)

Definition boundedBranch `{Platform} (value : option json) : option jstr :=
  match value with
  | Some (JStr s) =>
      if (0 <? len s)%Z && (len s <=? 256)%Z && negb (hasControl s) then Some s else None
  | _ => None
  end.

Definition boundedHead (value : option json) : option jstr :=
  match value with
  | Some (JStr s) =>
      if ((length s =? 40) || (length s =? 64)) && forallb isHexLower s then Some s else None
  | _ => None
  end.

(** [v === null]. *)
Definition isNull (v : option json) : bool := match v with Some JNull => true | _ => false end.

Definition hasOnlyKeys (value : record) (allowed : list string) : bool :=
  forallb (fun key => bool_decide (key ∈ map js allowed)) (keys value).

Definition isWorkspaceLaneGit `{Platform} (value : option json) : bool :=
  match value with
  | Some (JObj state) =>
      (length (keys state) =? 2)
      && bool_decide (js "branch" ∈ keys state) && bool_decide (js "head" ∈ keys state)
      && (isNull (field state (js "branch")) || bool_decide (is_Some (boundedBranch (field state (js "branch")))))
      && (isNull (field state (js "head")) || bool_decide (is_Some (boundedHead (field state (js "head")))))
  | _ => false
  end.

Definition isRepositoryInstructionDescriptor (value : json) : bool :=
  match asRecord value with
  | None => false
  | Some d =>
      hasOnlyKeys d ["path"; "bytes"; "sha256"; "truncated"]
      && (eqStr (field d (js "path")) (js "AGENTS.md") || eqStr (field d (js "path")) (js "CLAUDE.md"))
      && safeIntIn (field d (js "bytes")) 0 REPOSITORY_INSTRUCTION_MAX_BYTES
      && strTest (field d (js "sha256")) isHex64
      && isBool (field d (js "truncated"))
  end.

(** ** The properties each message may carry *)

Definition WORKSPACE_READ_REQUEST_KEYS : list string :=
  ["instructionSha256"; "protocolVersion"; "operation"; "workspaceId"; "workspaceInstanceId";
   "worktree"; "path"; "startLine"; "maxLines"].
Definition WORKSPACE_SEARCH_REQUEST_KEYS : list string :=
  ["protocolVersion"; "operation"; "workspaceId"; "workspaceInstanceId"; "worktree"; "query";
   "path"; "maxResults"].
Definition WORKSPACE_LIST_REQUEST_KEYS : list string :=
  ["protocolVersion"; "operation"; "workspaceId"; "workspaceInstanceId"; "worktree"; "path";
   "maxResults"; "afterPath"].
Definition WORKSPACE_WRITE_REQUEST_KEYS : list string :=
  ["protocolVersion"; "operation"; "workspaceId"; "workspaceInstanceId"; "worktree"; "path";
   "content"; "overwrite"].
Definition WORKSPACE_EDIT_REQUEST_KEYS : list string :=
  ["protocolVersion"; "operation"; "workspaceId"; "workspaceInstanceId"; "worktree"; "path";
   "oldText"; "newText"; "edits"; "expectedBaseSha256"; "matching"].
Definition WORKSPACE_PREVIEW_EDIT_REQUEST_KEYS : list string :=
  ["protocolVersion"; "operation"; "workspaceId"; "workspaceInstanceId"; "worktree"; "path";
   "oldText"; "newText"; "edits"; "matching"].
Definition WORKSPACE_TEXT_EDIT_KEYS : list string :=
  ["oldText"; "newText"; "replaceAll"].
Definition WORKSPACE_EDIT_MATCH_KEYS : list string :=
  ["strategy"; "occurrences"].
Definition WORKSPACE_COMMAND_REQUEST_KEYS : list string :=
  ["environmentAction"; "protocolVersion"; "operation"; "workspaceId"; "workspaceInstanceId";
   "worktree"; "command"; "cwd"; "timeoutMs"; "maxOutputBytes"].
Definition WORKSPACE_IMPORT_REQUEST_KEYS : list string :=
  ["protocolVersion"; "operation"; "workspaceId"; "workspaceInstanceId"; "worktree"; "path";
   "source"; "bytes"; "sha256"; "overwrite"; "egressGrant"].
Definition WORKSPACE_IMPORT_SOURCE_KEYS : list string :=
  ["storage_session_id"; "id"].
Definition WORKSPACE_IMPORT_RESULT_KEYS : list string :=
  ["protocolVersion"; "operation"; "workspaceId"; "path"; "created"; "unchanged";
   "bytesWritten"; "sha256"].
Definition WORKSPACE_READ_RESULT_KEYS : list string :=
  ["protocolVersion"; "operation"; "workspaceId"; "path"; "content"; "startLine"; "endLine";
   "truncated"; "nextStartLine"].
Definition WORKSPACE_SEARCH_RESULT_KEYS : list string :=
  ["protocolVersion"; "operation"; "workspaceId"; "matches"; "truncated"].
Definition WORKSPACE_LIST_RESULT_KEYS : list string :=
  ["protocolVersion"; "operation"; "workspaceId"; "paths"; "truncated"; "nextAfterPath"].
Definition WORKSPACE_WRITE_RESULT_KEYS : list string :=
  ["protocolVersion"; "operation"; "workspaceId"; "path"; "created"; "bytesWritten"].
Definition WORKSPACE_EDIT_RESULT_KEYS : list string :=
  ["protocolVersion"; "operation"; "workspaceId"; "path"; "replacements"; "bytesWritten";
   "matches"].
Definition WORKSPACE_PREVIEW_EDIT_RESULT_KEYS : list string :=
  ["protocolVersion"; "operation"; "workspaceId"; "path"; "content"; "hasUtf8Bom";
   "baseSha256"; "replacements"; "bytesWritten"; "matches"].
Definition WORKSPACE_COMMAND_RESULT_KEYS : list string :=
  ["protocolVersion"; "operation"; "workspaceId"; "exitCode"; "signal"; "stdout"; "stderr";
   "truncated"; "timedOut"; "laneGit"].
Definition WORKSPACE_SEARCH_MATCH_KEYS : list string :=
  ["path"; "line"; "column"; "text"].

(** ** Paths *)

Definition BACKSLASH : Z := 92%Z.
Definition COLON : Z := 58%Z.
Definition dotdot : jstr := js "..".

Definition hasDrivePrefix (s : jstr) : bool :=
  match s with
  | c :: d :: _ => (isUpper c || isLowerAZ c) && (d =? COLON)%Z
  | _ => false
  end.

Definition includesChar (s : jstr) (c : Z) : bool := bool_decide (c ∈ s).

Definition safePath (value : jstr) : bool :=
  negb ((len value =? 0)%Z
        || (BRIDGE_WORKSPACE_PATH_MAX_LENGTH <? len value)%Z
        || negb (wellFormed value)
        || includesChar value NUL
        || includesChar value BACKSLASH
        || startsWith value [SLASH]
        || hasDrivePrefix value)
  && forallb (fun segment => negb (bool_decide (segment = dotdot))) (splitOn SLASH value).

Definition isSafePortableRelativePath (value : option json) : bool := strTest value safePath.

(** [s.replace(/[. ]+$/, '')]. *)
Fixpoint stripDotsSpaces (rs : jstr) : jstr :=
  match rs with
  | c :: rs' => if ((c =? 46) || (c =? 32))%Z then stripDotsSpaces rs' else rs
  | [] => []
  end.

Definition isDotGitPathSegment `{Platform} (segment : jstr) : bool :=
  let folded :=
    rev (stripDotsSpaces (rev (stripIgnorable (toLowerCase (default [] (head (splitOn COLON segment))))))) in
  bool_decide (folded = js ".git") || bool_decide (folded = js "git~1").

Definition importPath `{Platform} (value : jstr) : bool :=
  safePath value
  && let segments := splitOn SLASH value in
     let last_ := default [] (last segments) in
     negb (bool_decide (last_ = [])) && negb (bool_decide (last_ = [DOT]))
     && negb (existsb isDotGitPathSegment segments).

Definition isWorkspaceImportFilePath `{Platform} (value : option json) : bool :=
  strTest value importPath.

(** [/[\0\r\n]/.test(s)]. *)
Definition hasNulCrLf (s : jstr) : bool := existsb (fun c => (c =? 0) || (c =? 13) || (c =? 10))%Z s.

(** A non-empty string of at most [max] units without NUL, CR or LF. *)
Definition isWorkspaceImportFileHandle (value : option json) : bool :=
  strTest value (fun s =>
    (0 <? len s)%Z && (len s <=? BRIDGE_WORKSPACE_IMPORT_FILE_HANDLE_MAX_LENGTH)%Z
    && negb (hasNulCrLf s)).

Definition isWorkspaceImportFileRequestShape `{Platform} (request : record) : bool :=
  hasOnlyKeys request WORKSPACE_IMPORT_REQUEST_KEYS
  && isWorkspaceImportFilePath (field request (js "path"))
  && match field request (js "source") with
     | Some (JObj source) =>
         hasOnlyKeys source WORKSPACE_IMPORT_SOURCE_KEYS
         && isWorkspaceImportFileHandle (field source (js "storage_session_id"))
         && isWorkspaceImportFileHandle (field source (js "id"))
     | _ => false
     end
  && safeIntIn (field request (js "bytes")) 0 MAX_SAFE_INTEGER
  && strTest (field request (js "sha256")) isHex64
  && optional (field request (js "overwrite")) (isBool (field request (js "overwrite")))
  && optional (field request (js "egressGrant"))
       (strTest (field request (js "egressGrant")) (fun s =>
          (0 <? len s)%Z && (len s <=? BRIDGE_WORKSPACE_IMPORT_FILE_GRANT_MAX_LENGTH)%Z
          && negb (hasNulCrLf s))).

Definition normalizePortableRelativePath (value : jstr) : jstr :=
  let joined := joinWith SLASH
    (List.filter (fun segment => (0 <? length segment) && negb (bool_decide (segment = [DOT])))
       (splitOn SLASH value)) in
  if length joined =? 0 then [DOT] else joined.

(** The inner byte loop of [comparePortableRelativePaths], then the length
    difference. *)
Fixpoint compareBytes (l r : list Z) : Z :=
  match l, r with
  | x :: l', y :: r' => if (x - y =? 0)%Z then compareBytes l' r' else (x - y)%Z
  | _, _ => (Z.of_nat (length l) - Z.of_nat (length r))%Z
  end.

Fixpoint compareSegments (l r : list jstr) : Z :=
  match l, r with
  | x :: l', y :: r' =>
      let d := compareBytes (utf8 x) (utf8 y) in
      if (d =? 0)%Z then compareSegments l' r' else d
  | _, _ => (Z.of_nat (length l) - Z.of_nat (length r))%Z
  end.

Definition comparePortableRelativePaths (left_ right_ : jstr) : Z :=
  compareSegments (splitOn SLASH left_) (splitOn SLASH right_).

Definition isWithinRequestedPath (candidate : jstr) (requested : option jstr) : bool :=
  match requested with
  | None => true
  | Some requested =>
      let c := normalizePortableRelativePath candidate in
      let r := normalizePortableRelativePath requested in
      bool_decide (r = [DOT]) || bool_decide (c = r) || startsWith c (r ++ [SLASH])
  end.

(** The string value of a property the code already knows to be a string or
    absent. *)
Definition strField (o : record) (k : string) : option jstr :=
  match field o (js k) with Some (JStr s) => Some s | _ => None end.
Definition intField (o : record) (k : string) : option Z :=
  match field o (js k) with Some (JInt n) => Some n | _ => None end.

(** ** Edit requests *)

(** The entries of a [record] array property. *)
Definition arrField (o : record) (k : string) : option (list json) :=
  match field o (js k) with Some (JArr l) => Some l | _ => None end.

(** One iteration of the validation loop: the bytes of a valid edit. *)
Definition editBytes (edit : json) : option (Z * Z) :=
  match asRecord edit with
  | None => None
  | Some candidate =>
      if negb (hasOnlyKeys candidate WORKSPACE_TEXT_EDIT_KEYS) then None
      else
        match field candidate (js "oldText"), field candidate (js "newText") with
        | Some (JStr old), Some (JStr new) =>
            if negb (length old =? 0) && wellFormed old && wellFormed new
               && optional (field candidate (js "replaceAll")) (isBool (field candidate (js "replaceAll")))
            then Some (byteLength old, byteLength new) else None
        | _, _ => None
        end
  end.

Fixpoint validEdits (hasBatch : bool) (edits : list json) (totalBytes : Z) : bool :=
  match edits with
  | [] => true
  | edit :: edits' =>
      match editBytes edit with
      | None => false
      | Some (oldBytes, newBytes) =>
          let totalBytes := (totalBytes + (oldBytes + newBytes))%Z in
          if (hasBatch && (BRIDGE_WORKSPACE_WRITE_MAX_BYTES <? totalBytes)%Z)
             || (negb hasBatch && ((BRIDGE_WORKSPACE_WRITE_MAX_BYTES <? oldBytes)%Z
                                   || (BRIDGE_WORKSPACE_WRITE_MAX_BYTES <? newBytes)%Z))
          then false else validEdits hasBatch edits' totalBytes
      end
  end.

(** [{ oldText: request.oldText, newText: request.newText }]: an absent property
    fails the string tests either way. *)
Definition singleEdit (request : record) : json :=
  JObj (option_list ((fun v => (js "oldText", v)) <$> field request (js "oldText"))
        ++ option_list ((fun v => (js "newText", v)) <$> field request (js "newText"))).

Definition isValidWorkspaceEditRequest (request : record) : bool :=
  let hasBatch := negb (isUndefined (field request (js "edits"))) in
  if hasBatch && (negb (isUndefined (field request (js "oldText")))
                  || negb (isUndefined (field request (js "newText")))) then false
  else if negb (optional (field request (js "matching"))
                  (eqStr (field request (js "matching")) (js "exact")
                   || eqStr (field request (js "matching")) (js "tolerant"))) then false
  else
    match (if hasBatch then arrField request "edits" else Some [singleEdit request]) with
    | None => false
    | Some edits =>
        (1 <=? length edits) && (length edits <=? BRIDGE_WORKSPACE_EDIT_MAX_EDITS)
        && validEdits hasBatch edits 0
    end.

(** ** Requests *)

Definition readRequest (request : record) : bool :=
  if negb (isUndefined (field request (js "instructionSha256"))) then
    hasOnlyKeys request WORKSPACE_READ_REQUEST_KEYS
    && strTest (field request (js "instructionSha256")) isHex64
    && (eqStr (field request (js "path")) (js "AGENTS.md")
        || eqStr (field request (js "path")) (js "CLAUDE.md"))
    && isUndefined (field request (js "startLine")) && isUndefined (field request (js "maxLines"))
  else
    hasOnlyKeys request WORKSPACE_READ_REQUEST_KEYS
    && isSafePortableRelativePath (field request (js "path"))
    && optional (field request (js "startLine"))
         (safeIntIn (field request (js "startLine")) 1 MAX_SAFE_INTEGER)
    && optional (field request (js "maxLines"))
         (safeIntIn (field request (js "maxLines")) 1 BRIDGE_WORKSPACE_READ_MAX_LINES).

Definition searchRequest (request : record) : bool :=
  hasOnlyKeys request WORKSPACE_SEARCH_REQUEST_KEYS
  && strTest (field request (js "query")) (fun q =>
       (0 <? len q)%Z && (len q <=? BRIDGE_WORKSPACE_QUERY_MAX_LENGTH)%Z && wellFormed q
       && (byteLength q <=? BRIDGE_WORKSPACE_SEARCH_TEXT_MAX_LENGTH)%Z
       && negb (includesChar q NUL) && negb (includesChar q LF) && negb (includesChar q CR))
  && optional (field request (js "path")) (isSafePortableRelativePath (field request (js "path")))
  && optional (field request (js "maxResults"))
       (safeIntIn (field request (js "maxResults")) 1 BRIDGE_WORKSPACE_SEARCH_MAX_RESULTS).

Definition listRequest (request : record) : bool :=
  hasOnlyKeys request WORKSPACE_LIST_REQUEST_KEYS
  && optional (field request (js "path")) (isSafePortableRelativePath (field request (js "path")))
  && optional (field request (js "afterPath"))
       (strTest (field request (js "afterPath")) (fun after =>
          safePath after && bool_decide (normalizePortableRelativePath after = after)
          && isWithinRequestedPath after (strField request "path")))
  && optional (field request (js "maxResults"))
       (safeIntIn (field request (js "maxResults")) 1 BRIDGE_WORKSPACE_LIST_MAX_RESULTS).

Definition writeRequest (request : record) : bool :=
  hasOnlyKeys request WORKSPACE_WRITE_REQUEST_KEYS
  && isSafePortableRelativePath (field request (js "path"))
  && strTest (field request (js "content")) (fun content =>
       wellFormed content && (byteLength content <=? BRIDGE_WORKSPACE_WRITE_MAX_BYTES)%Z)
  && optional (field request (js "overwrite")) (isBool (field request (js "overwrite"))).

Definition previewEditRequest (request : record) : bool :=
  hasOnlyKeys request WORKSPACE_PREVIEW_EDIT_REQUEST_KEYS
  && isSafePortableRelativePath (field request (js "path"))
  && isValidWorkspaceEditRequest request.

Definition editRequest (request : record) : bool :=
  hasOnlyKeys request WORKSPACE_EDIT_REQUEST_KEYS
  && isSafePortableRelativePath (field request (js "path"))
  && optional (field request (js "expectedBaseSha256"))
       (strTest (field request (js "expectedBaseSha256")) isHex64)
  && isValidWorkspaceEditRequest request.

Definition isEnvironmentAction (value : option json) : bool :=
  match value with
  | Some v =>
      match asRecord v with
      | Some a =>
          (length (keys a) =? 2)
          && strTest (field a (js "name")) (headTail (fun c => isAlnum c || oneOf c "_-") 63)
          && strTest (field a (js "fingerprint")) isHex64
      | None => false
      end
  | None => false
  end.

Definition commandRequest (request : record) : bool :=
  optional (field request (js "environmentAction"))
    (isEnvironmentAction (field request (js "environmentAction")))
  && hasOnlyKeys request WORKSPACE_COMMAND_REQUEST_KEYS
  && strTest (field request (js "command")) (fun command =>
       (0 <? len (trim command))%Z && wellFormed command && negb (includesChar command NUL)
       && (byteLength command <=? BRIDGE_WORKSPACE_COMMAND_MAX_BYTES)%Z)
  && optional (field request (js "cwd")) (isSafePortableRelativePath (field request (js "cwd")))
  && optional (field request (js "timeoutMs"))
       (safeIntIn (field request (js "timeoutMs")) 1 BRIDGE_WORKSPACE_COMMAND_MAX_TIMEOUT_MS)
  && optional (field request (js "maxOutputBytes"))
       (safeIntIn (field request (js "maxOutputBytes")) 1 BRIDGE_WORKSPACE_COMMAND_MAX_OUTPUT_BYTES).

Definition isWorkspaceToolRequest `{Platform} (value : json) : bool :=
  match asRecord value with
  | None => false
  | Some request =>
      if negb (eqInt (field request (js "protocolVersion")) BRIDGE_PROTOCOL_VERSION)
         || negb (strTest (field request (js "workspaceId")) isValidBridgeWorkerId)
         || negb (optional (field request (js "workspaceInstanceId"))
                    (strTest (field request (js "workspaceInstanceId")) isHex64))
         || negb (optional (field request (js "worktree"))
                    (isValidLinkedWorktreeName (field request (js "worktree"))))
      then false
      else
        let op := eqStr (field request (js "operation")) in
        if op (js "read_file") then readRequest request
        else if op (js "search_text") then searchRequest request
        else if op (js "list_files") then listRequest request
        else if op (js "write_file") then writeRequest request
        else if op (js "preview_edit") then previewEditRequest request
        else if op (js "edit_file") then editRequest request
        else if op (js "execute_command") then commandRequest request
        else if op (js "import_file") then isWorkspaceImportFileRequestShape request
        else false
  end.

Definition isBridgeWorkspaceImportFileRequest `{Platform} (value : json) : bool :=
  isWorkspaceToolRequest value
  && match asRecord value with
     | Some request =>
         eqStr (field request (js "operation")) (js "import_file")
         && isUndefined (field request (js "egressGrant"))
     | None => false
     end.

Definition isRelayedWorkspaceImportFileRequest `{Platform} (value : json) : bool :=
  isWorkspaceToolRequest value
  && match asRecord value with
     | Some request =>
         eqStr (field request (js "operation")) (js "import_file")
         && negb (isUndefined (field request (js "egressGrant")))
     | None => false
     end.

Definition WORKSPACE_TOOL_ERROR_CODES : list string :=
  ["INVALID_PATH"; "NOT_FOUND"; "INVALID_REQUEST"; "READ_LIMIT_EXCEEDED"; "WRITE_LIMIT_EXCEEDED";
   "WRITE_DISABLED"; "WRITE_UNAVAILABLE"; "EDIT_CONFLICT"; "REGISTRATION_INVALID";
   "EXECUTION_ABORTED"; "LIST_TIMEOUT"; "LIST_UNAVAILABLE"; "SEARCH_TIMEOUT"; "SEARCH_UNAVAILABLE";
   "COMMAND_TIMEOUT"; "COMMAND_UNAVAILABLE"; "COMMAND_DISABLED"].

Definition isWorkspaceToolErrorCode (value : option json) : bool :=
  strTest value (fun s => bool_decide (s ∈ map js WORKSPACE_TOOL_ERROR_CODES)).

(** ** Results

    The request of a result validator is one [isWorkspaceToolRequest] accepted,
    so its properties have the types the reads below assume. *)

Definition opIs (request : record) (op : string) : bool :=
  eqStr (field request (js "operation")) (js op).

Definition replaceAllSet (edit : json) : bool :=
  match asRecord edit with
  | Some e => negb (isUndefined (field e (js "replaceAll")))
  | None => false
  end.

Definition workspaceEditRequestReportsMatches (request : record) : bool :=
  negb (isUndefined (field request (js "matching")))
  || match arrField request "edits" with Some es => existsb replaceAllSet es | None => false end.

Definition requestEdits (request : record) : list json :=
  match arrField request "edits" with Some es => es | None => [singleEdit request] end.

Definition isEditMatchStrategy (v : option json) : bool :=
  eqStr v (js "exact") || eqStr v (js "line-trimmed") || eqStr v (js "whitespace-normalized")
  || eqStr v (js "indentation-flexible").

Definition replaceAllTrue (edit : json) : bool :=
  match asRecord edit with
  | Some e => eqBool (field e (js "replaceAll")) true
  | None => false
  end.

Definition validEditMatch (request : record) (edit match_ : json) : bool :=
  match asRecord match_ with
  | None => false
  | Some candidate =>
      hasOnlyKeys candidate WORKSPACE_EDIT_MATCH_KEYS
      && isEditMatchStrategy (field candidate (js "strategy"))
      && (eqStr (field request (js "matching")) (js "tolerant")
          || eqStr (field candidate (js "strategy")) (js "exact"))
      && safeIntIn (field candidate (js "occurrences")) 1 MAX_SAFE_INTEGER
      && (replaceAllTrue edit || eqInt (field candidate (js "occurrences")) 1)
  end.

Definition isValidWorkspaceEditMatches (request : record) (matches : option json) : bool :=
  if negb (workspaceEditRequestReportsMatches request) then isUndefined matches
  else
    match matches with
    | Some (JArr ms) =>
        (length ms =? length (requestEdits request))
        && forallb (fun '(edit, m) => validEditMatch request edit m) (combine (requestEdits request) ms)
    | _ => false
    end.

(** [result.path === request.path]. *)
Definition samePath (request result : record) : bool :=
  match strField request "path" with
  | Some p => eqStr (field result (js "path")) p
  | None => false
  end.

Definition lineCount (content : jstr) : Z := Z.of_nat (length (splitLF content)).

Definition readResult `{Platform} (request result : record) : bool :=
  match strField request "instructionSha256" with
  | Some digest =>
      hasOnlyKeys result WORKSPACE_READ_RESULT_KEYS && samePath request result
      && strTest (field result (js "content")) (fun content =>
           (byteLength content <=? REPOSITORY_INSTRUCTION_MAX_BYTES)%Z
           && bool_decide (sha256hex content = digest)
           && eqInt (field result (js "startLine")) 1
           && eqInt (field result (js "endLine")) (lineCount content))
      && isUndefined (field result (js "nextStartLine"))
  | None =>
      let startLine := default 1%Z (intField request "startLine") in
      let maxLines := default 200%Z (intField request "maxLines") in
      hasOnlyKeys result WORKSPACE_READ_RESULT_KEYS && samePath request result
      && isSafePortableRelativePath (field result (js "path"))
      && strTest (field result (js "content")) (fun content =>
           (byteLength content <=? BRIDGE_WORKSPACE_READ_MAX_BYTES)%Z
           && eqInt (field result (js "startLine")) startLine
           && match field result (js "endLine") with
              | Some (JInt endLine) =>
                  let reported := (endLine - startLine + 1)%Z in
                  isSafeInteger (Some (JInt endLine))
                  && (startLine - 1 <=? endLine)%Z && (endLine <? startLine + maxLines)%Z
                  && (0 <=? reported)%Z && (reported <=? maxLines)%Z
                  && (negb (length content =? 0) || (reported <=? 1)%Z)
                  && ((length content =? 0) || (lineCount content =? reported)%Z)
                  && (if eqBool (field result (js "truncated")) true then
                        match field result (js "nextStartLine") with
                        | Some (JInt next) =>
                            isSafeInteger (Some (JInt next))
                            && (next =? endLine + 1)%Z && (startLine <? next)%Z
                        | _ => false
                        end
                      else isUndefined (field result (js "nextStartLine")))
              | _ => false
              end)
  end.

(** The loop over [result.paths]: [seen] are the normalized paths so far. *)
Fixpoint listPaths (requested : option jstr) (pagination : bool) (paths : list json)
    (seen : list jstr) (previous : option jstr) : bool :=
  match paths with
  | [] => true
  | JStr path :: paths' =>
      if negb (safePath path) || negb (isWithinRequestedPath path requested) then false
      else
        let normalized := normalizePortableRelativePath path in
        if bool_decide (normalized ∈ seen)
           || (pagination
               && (negb (bool_decide (normalized = path))
                   || match previous with
                      | Some p => (comparePortableRelativePaths normalized p <=? 0)%Z
                      | None => false
                      end))
        then false
        else listPaths requested pagination paths' (normalized :: seen) (Some normalized)
  | _ => false
  end.

(** [capabilities === undefined || capabilities.listFileFeatures?.includes('after_path')];
    [features] is the [listFileFeatures] of the capabilities, if those were given. *)
Definition enforcesPagination (capabilities : option (option (list jstr))) : bool :=
  match capabilities with
  | None => true
  | Some features => match features with Some fs => bool_decide (js "after_path" ∈ fs) | None => false end
  end.

Definition listResult (request result : record) (capabilities : option (option (list jstr))) : bool :=
  let maxResults := default 100%Z (intField request "maxResults") in
  if negb (hasOnlyKeys result WORKSPACE_LIST_RESULT_KEYS) then false
  else
    match arrField result "paths" with
    | None => false
    | Some paths =>
        if (maxResults <? Z.of_nat (length paths))%Z then false
        else
          let pagination := enforcesPagination capabilities in
          if negb (listPaths (strField request "path") pagination paths []
                     (normalizePortableRelativePath <$> strField request "afterPath")) then false
          else if negb pagination then isUndefined (field result (js "nextAfterPath"))
          else if negb (eqBool (field result (js "truncated")) true)
          then isUndefined (field result (js "nextAfterPath"))
          else
            match last paths with
            | Some (JStr p) => eqStr (field result (js "nextAfterPath")) p
            | _ => false
            end
    end.

Definition writeResult (request result : record) : bool :=
  hasOnlyKeys result WORKSPACE_WRITE_RESULT_KEYS
  && samePath request result
  && isBool (field result (js "created"))
  && (negb (eqBool (field request (js "overwrite")) false) || eqBool (field result (js "created")) true)
  && match strField request "content" with
     | Some content => isSafeInteger (field result (js "bytesWritten"))
                       && eqInt (field result (js "bytesWritten")) (byteLength content)
     | None => false
     end.

(** [result.k === request.k] for the integer property [bytes] and a digest. *)
Definition importResult (request result : record) : bool :=
  if negb (hasOnlyKeys result WORKSPACE_IMPORT_RESULT_KEYS)
     || negb (samePath request result)
     || negb (match strField request "sha256" with
              | Some d => eqStr (field result (js "sha256")) d | None => false end)
     || negb (isBool (field result (js "created")))
     || negb (optional (field result (js "unchanged")) (isBool (field result (js "unchanged"))))
     || negb (isSafeInteger (field result (js "bytesWritten")))
  then false
  else if eqBool (field result (js "unchanged")) true then
    eqBool (field result (js "created")) false && eqInt (field result (js "bytesWritten")) 0
  else
    match intField request "bytes" with
    | Some n => eqInt (field result (js "bytesWritten")) n
    | None => false
    end
    && (eqBool (field request (js "overwrite")) true || eqBool (field result (js "created")) true).

Definition replacementsOf (request : record) : Z :=
  match arrField request "edits" with Some es => Z.of_nat (length es) | None => 1%Z end.

Definition editResult (request result : record) : bool :=
  hasOnlyKeys result WORKSPACE_EDIT_RESULT_KEYS
  && samePath request result
  && eqInt (field result (js "replacements")) (replacementsOf request)
  && safeIntIn (field result (js "bytesWritten")) 0 BRIDGE_WORKSPACE_WRITE_MAX_BYTES
  && isValidWorkspaceEditMatches request (field result (js "matches")).

Definition previewEditResult (request result : record) : bool :=
  hasOnlyKeys result WORKSPACE_PREVIEW_EDIT_RESULT_KEYS
  && samePath request result
  && strTest (field result (js "content")) (fun content =>
       wellFormed content
       && isBool (field result (js "hasUtf8Bom"))
       && strTest (field result (js "baseSha256")) isHex64
       && eqInt (field result (js "replacements")) (replacementsOf request)
       && eqInt (field result (js "bytesWritten"))
            (byteLength content + (if eqBool (field result (js "hasUtf8Bom")) true then 3 else 0))
       && safeIntIn (field result (js "bytesWritten")) (- MAX_SAFE_INTEGER) BRIDGE_WORKSPACE_WRITE_MAX_BYTES)
  && isValidWorkspaceEditMatches request (field result (js "matches")).

Definition isSignalName (s : jstr) : bool :=
  (length s <=? BRIDGE_WORKSPACE_COMMAND_SIGNAL_MAX_LENGTH)
  && startsWith s (js "SIG") && (3 <? length s)
  && forallb (fun c => isUpper c || isDigit c) (drop 3 s).

Definition commandResult `{Platform} (request result : record) : bool :=
  let outputLimit := default BRIDGE_WORKSPACE_COMMAND_DEFAULT_OUTPUT_BYTES
                       (intField request "maxOutputBytes") in
  hasOnlyKeys result WORKSPACE_COMMAND_RESULT_KEYS
  && match strField result "stdout", strField result "stderr" with
     | Some stdout, Some stderr =>
         wellFormed stdout && wellFormed stderr
         && (byteLength stdout + byteLength stderr <=? outputLimit)%Z
     | _, _ => false
     end
  && (isNull (field result (js "exitCode")) || safeIntIn (field result (js "exitCode")) 0 255)
  && optional (field result (js "signal")) (strTest (field result (js "signal")) isSignalName)
  && isBool (field result (js "truncated")) && isBool (field result (js "timedOut"))
  && optional (field result (js "laneGit")) (isWorkspaceLaneGit (field result (js "laneGit")))
  && (if isNull (field result (js "exitCode"))
      then eqBool (field result (js "timedOut")) true || negb (isUndefined (field result (js "signal")))
      else eqBool (field result (js "timedOut")) false && isUndefined (field result (js "signal"))).

Definition searchMatch (request : record) (match_ : json) : bool :=
  match asRecord match_ with
  | None => false
  | Some candidate =>
      hasOnlyKeys candidate WORKSPACE_SEARCH_MATCH_KEYS
      && strTest (field candidate (js "path")) (fun p =>
           safePath p && isWithinRequestedPath p (strField request "path"))
      && safeIntIn (field candidate (js "line")) 1 MAX_SAFE_INTEGER
      && safeIntIn (field candidate (js "column")) 1 MAX_SAFE_INTEGER
      && strTest (field candidate (js "text")) (fun t =>
           (len t <=? BRIDGE_WORKSPACE_SEARCH_TEXT_MAX_LENGTH)%Z
           && match strField request "query" with Some q => includes t q | None => false end)
  end.

Definition searchResult (request result : record) : bool :=
  match arrField result "matches" with
  | None => false
  | Some ms =>
      hasOnlyKeys result WORKSPACE_SEARCH_RESULT_KEYS
      && (Z.of_nat (length ms) <=? default 50%Z (intField request "maxResults"))%Z
      && forallb (searchMatch request) ms
  end.

Definition isWorkspaceToolResult `{Platform} (request : record) (value : json)
    (capabilities : option (option (list jstr))) : bool :=
  match asRecord value with
  | None => false
  | Some result =>
      if negb (eqInt (field result (js "protocolVersion")) BRIDGE_PROTOCOL_VERSION)
         || negb (match strField request "operation" with
                  | Some op => eqStr (field result (js "operation")) op | None => false end)
         || negb (match strField request "workspaceId" with
                  | Some w => eqStr (field result (js "workspaceId")) w | None => false end)
         || ((opIs request "read_file" || opIs request "search_text" || opIs request "list_files")
             && negb (isBool (field result (js "truncated"))))
      then false
      else if opIs request "read_file" then readResult request result
      else if opIs request "list_files" then listResult request result capabilities
      else if opIs request "write_file" then writeResult request result
      else if opIs request "import_file" then importResult request result
      else if opIs request "edit_file" then editResult request result
      else if opIs request "preview_edit" then previewEditResult request result
      else if opIs request "execute_command" then commandResult request result
      else searchResult request result
  end.

(** ** Capabilities *)

(** [new Set(values).size === values.length] for arrays whose entries the code
    also checks to be strings. *)
Fixpoint noDuplicates (values : list json) (seen : list jstr) : bool :=
  match values with
  | [] => true
  | JStr s :: values' => negb (bool_decide (s ∈ seen)) && noDuplicates values' (s :: seen)
  | _ :: _ => false
  end.

Definition strIn (v : json) (names : list string) : bool :=
  match v with JStr s => bool_decide (s ∈ map js names) | _ => false end.

(** [values.includes(s)]. *)
Definition includesStr (values : list json) (s : string) : bool :=
  existsb (fun v => eqStr (Some v) (js s)) values.

Definition OPERATIONS : list string :=
  ["read_file"; "search_text"; "list_files"; "write_file"; "preview_edit"; "edit_file";
   "execute_command"; "import_file"].

(** An optional array property: [min] to [max] distinct entries, each passing
    [test], available only with one of the listed operations. *)
Definition featureList (c : record) (k : string) (min max : nat) (needs : list string)
    (operations : list json) (test : json -> bool) : bool :=
  optional (field c (js k))
    match arrField c k with
    | Some l =>
        (min <=? length l) && (length l <=? max)
        && existsb (includesStr operations) needs
        && forallb test l && noDuplicates l []
    | None => false
    end.

Definition WORKSPACE_EDIT_FILE_FEATURES : list string :=
  ["expected_base_sha256"; "tolerant_match"; "replace_all"].

Definition isValidCodeEnvironmentDescriptor (value : json) : bool :=
  match asRecord value with
  | None => false
  | Some e =>
      hasOnlyKeys e ["fingerprint"; "repo"; "ref"; "actions"]
      && strTest (field e (js "fingerprint")) isHex64
      && optional (field e (js "repo")) (strTest (field e (js "repo")) (fun s =>
           (len s <=? 256)%Z
           && match splitOn SLASH s with
              | [owner; name] =>
                  let part p := (0 <? length p) && forallb (fun c => isAlnum c || oneOf c "_.-") p in
                  part owner && part name
              | _ => false
              end))
      && optional (field e (js "ref")) (strTest (field e (js "ref")) (fun s =>
           (0 <? len (trim s))%Z && (len s <=? 256)%Z && negb (hasNulCrLf s)))
      && match arrField e "actions" with
         | Some actions =>
             (length actions <=? 32)
             && forallb (fun a => strTest (Some a) (headTail (fun c => isAlnum c || oneOf c "_-") 63)) actions
             && noDuplicates actions []
         | None => false
         end
  end.

(** One entry of [capabilities.workspaces]: its id when it is valid. *)
Definition validWorkspace (operations : list json) (seen : list jstr) (workspace : json) : option jstr :=
  match asRecord workspace with
  | None => None
  | Some d =>
      match strField d "id" with
      | None => None
      | Some id =>
          if hasOnlyKeys d ["id"; "name"; "operations"; "workspaceInstances"; "workspaceScopes";
                            "instructions"; "environment"]
             && isValidBridgeWorkerId id && negb (bool_decide (id ∈ seen))
             && optional (field d (js "workspaceInstances"))
                  match arrField d "workspaceInstances" with
                  | Some [v] => eqStr (Some v) (js "git_worktree") | _ => false end
             && optional (field d (js "workspaceScopes"))
                  match arrField d "workspaceScopes" with
                  | Some [v] => eqStr (Some v) (js "git_linked_worktree") | _ => false end
             && optional (field d (js "instructions"))
                  match arrField d "instructions" with
                  | Some l => (length l <=? 1) && forallb isRepositoryInstructionDescriptor l
                  | None => false end
             && match field d (js "environment") with
                | None => true | Some e => isValidCodeEnvironmentDescriptor e end
             && optional (field d (js "name")) (strTest (field d (js "name")) (fun s =>
                  (0 <? len (trim s))%Z && (length s <=? BRIDGE_WORKSPACE_NAME_MAX_LENGTH)))
             && optional (field d (js "operations"))
                  match arrField d "operations" with
                  | Some ops =>
                      (1 <=? length ops) && (length ops <=? length operations)
                      && forallb (fun o => match o with
                           | JStr s => existsb (fun v => eqStr (Some v) s) operations
                           | _ => false end) ops
                      && noDuplicates ops []
                  | None => false end
          then Some id else None
      end
  end.

Fixpoint validWorkspaces (operations : list json) (workspaces : list json) (seen : list jstr) : bool :=
  match workspaces with
  | [] => true
  | w :: workspaces' =>
      match validWorkspace operations seen w with
      | Some id => validWorkspaces operations workspaces' (id :: seen)
      | None => false
      end
  end.

Definition isValidBridgeWorkspaceToolCapabilities (value : json) : bool :=
  match asRecord value with
  | None => false
  | Some c =>
      match arrField c "operations", arrField c "workspaces" with
      | Some operations, Some workspaces =>
          eqInt (field c (js "protocolVersion")) BRIDGE_PROTOCOL_VERSION
          && (1 <=? length operations) && (length operations <=? 8)
          && forallb (fun o => strIn o OPERATIONS) operations
          && noDuplicates operations []
          && (1 <=? length workspaces) && (length workspaces <=? BRIDGE_WORKSPACE_MAX_COUNT)
          && featureList c "writeFileModes" 1 2 ["write_file"] operations
               (fun m => strIn m ["replace"; "create"])
          && featureList c "editFileModes" 1 2 ["edit_file"; "preview_edit"] operations
               (fun m => strIn m ["single"; "batch"])
          && featureList c "editFileFeatures" 1 3 ["edit_file"; "preview_edit"] operations
               (fun f => strIn f WORKSPACE_EDIT_FILE_FEATURES
                         && (negb (eqStr (Some f) (js "expected_base_sha256"))
                             || includesStr operations "edit_file"))
          && featureList c "listFileFeatures" 1 1 ["list_files"] operations
               (fun f => strIn f ["after_path"])
          && featureList c "commandResultFeatures" 1 1 ["execute_command"] operations
               (fun f => strIn f ["lane_git"])
          && featureList c "programmaticLanguages" 1 1 ["execute_command"] operations
               (fun f => strIn f ["bash"])
          && validWorkspaces operations workspaces []
      | _, _ => false
      end
  end.

Definition isValidBridgeWorkerCapabilities (value : json) : bool :=
  match asRecord value with
  | None => false
  | Some c =>
      optional (field c (js "workspaceLeaseSlots")) (safeIntIn (field c (js "workspaceLeaseSlots")) 1 8)
      && isBool (field c (js "statefulWorkspace"))
      && strTest (field c (js "sandboxProfile")) (fun s =>
           (0 <? len (trim s))%Z && (length s <=? BRIDGE_SANDBOX_PROFILE_MAX_LENGTH))
      && match arrField c "runtimes" with
         | Some runtimes =>
             (length runtimes <=? BRIDGE_RUNTIME_MAX_COUNT)
             && forallb (fun r => strTest (Some r) (fun s =>
                  (0 <? length s) && (length s <=? BRIDGE_RUNTIME_MAX_LENGTH))) runtimes
         | None => false
         end
      && optional (field c (js "policyDigest")) (strTest (field c (js "policyDigest")) isHex64)
      && optional (field c (js "requiresReadyConfirmation"))
           (isBool (field c (js "requiresReadyConfirmation")))
      && match field c (js "workspaceTools") with
         | None => true
         | Some t => isValidBridgeWorkspaceToolCapabilities t
         end
  end.

(** ** Programmatic requests *)

(** An absent property, or an integer in the range. *)
Definition optInt (o : record) (k : string) (lo hi : Z) : bool :=
  optional (field o (js k)) (safeIntIn (field o (js k)) lo hi).

Definition isSessionHandle (v : option json) : bool :=
  strTest v (fun s => (0 <? len s)%Z && (len s <=? 32768)%Z && negb (hasNulCrLf s)).

Definition programmaticBody (body : record) : bool :=
  eqStr (field body (js "language")) (js "bash")
  && strTest (field body (js "version")) (fun s =>
       (0 <? length s) && (length s <=? BRIDGE_RUNTIME_MAX_LENGTH))
  && optional (field body (js "workspace_instance_id"))
       (strTest (field body (js "workspace_instance_id")) isHex64)
  && optional (field body (js "workspace_worktree"))
       (isValidLinkedWorktreeName (field body (js "workspace_worktree")))
  && optional (field body (js "execution_id")) (strTest (field body (js "execution_id")) (fun s =>
       (1 <=? length s) && (length s <=? 128) && forallb (fun c => isAlnum c || oneOf c "_-") s))
  && optInt body "replay_tool_count" 0 256
  && optInt body "max_output_files" 0 (Z.of_nat BRIDGE_WORKSPACE_PROGRAMMATIC_MAX_FILES)
  && optInt body "max_output_file_bytes" 1 BRIDGE_WORKSPACE_PROGRAMMATIC_MAX_FILE_BYTES
  && isSessionHandle (field body (js "session_id"))
  && optional (field body (js "output_session_id")) (isSessionHandle (field body (js "output_session_id")))
  && optional (field body (js "egress_grant")) (strTest (field body (js "egress_grant")) (fun s =>
       (0 <? len s)%Z && (len s <=? 256 * 1024)%Z))
  && optInt body "transfer_timeout_ms" 1 BRIDGE_WORKSPACE_PROGRAMMATIC_TRANSFER_TIMEOUT_MS
  && optInt body "run_timeout" 1 BRIDGE_WORKSPACE_COMMAND_MAX_TIMEOUT_MS.

(** One file of the body: its name and inline size when it is valid and new. *)
Definition programmaticFile `{Platform} (names : list jstr) (rawFile : json) : option (jstr * Z) :=
  match asRecord rawFile with
  | None => None
  | Some file =>
      match strField file "name" with
      | None => None
      | Some name =>
          if negb (safePath name) || bool_decide (name = [DOT])
             || bool_decide (toLowerCase (portableBasename name) = js "_ptc_pending_result.json")
             || negb (bool_decide (normalizePortableRelativePath name = name))
             || bool_decide (name ∈ names)
          then None
          else
            match field file (js "content") with
            | Some (JStr content) =>
                if negb (hasOnlyKeys file ["name"; "content"])
                   || ((if bool_decide (name = js "_ptc_history.json")
                        then BRIDGE_WORKSPACE_PROGRAMMATIC_MAX_HISTORY_BYTES
                        else BRIDGE_WORKSPACE_PROGRAMMATIC_MAX_FILE_BYTES) <? byteLength content)%Z
                then None else Some (name, byteLength content)
            | _ =>
                if isSessionHandle (field file (js "id"))
                   && isSessionHandle (field file (js "storage_session_id"))
                   && hasOnlyKeys file ["name"; "id"; "storage_session_id"; "input_cache_key"]
                   && optional (field file (js "input_cache_key"))
                        (strTest (field file (js "input_cache_key")) isHex64)
                then Some (name, 0%Z) else None
            end
      end
  end.

Fixpoint programmaticFiles `{Platform} (files : list json) (names : list jstr) (inlineBytes : Z)
    : option (list jstr * Z) :=
  match files with
  | [] => Some (names, inlineBytes)
  | f :: files' =>
      match programmaticFile names f with
      | Some (name, bytes) => programmaticFiles files' (name :: names) (inlineBytes + bytes)
      | None => None
      end
  end.

(** The proper directory prefixes of a name, as [ancestor] runs over them. *)
Fixpoint ancestorsFrom (ancestor : jstr) (segments : list jstr) : list jstr :=
  match segments with
  | [] => []
  | s :: segments' =>
      match segments' with
      | [] => []
      | _ =>
          let a := if length ancestor =? 0 then s else ancestor ++ [SLASH] ++ s in
          a :: ancestorsFrom a segments'
      end
  end.

Definition ancestors (name : jstr) : list jstr := ancestorsFrom [] (splitOn SLASH name).

Definition isBridgeWorkspaceProgrammaticRequest `{Platform} (value : json) : bool :=
  match asRecord value with
  | None => false
  | Some request =>
      match field request (js "headers") ≫= asRecord, field request (js "body") ≫= asRecord with
      | Some headers, Some body =>
          forallb (fun kv => isStr (Some (snd kv))) headers
          && programmaticBody body
          && match arrField body "files" with
             | Some files =>
                 (1 <=? length files) && (length files <=? BRIDGE_WORKSPACE_PROGRAMMATIC_MAX_FILES)
                 && match programmaticFiles files [] 0 with
                    | Some (names, inlineBytes) =>
                        negb (existsb (fun name =>
                          existsb (fun a => bool_decide (a ∈ names)) (ancestors name)) names)
                        && bool_decide (js "main.sh" ∈ names)
                        && (inlineBytes <=? BRIDGE_WORKSPACE_PROGRAMMATIC_MAX_TOTAL_BYTES)%Z
                    | None => false
                    end
             | None => false
             end
      | _, _ => false
      end
  end.
