(* ===== verification/ProtocolKeys.v ===== *)
(** * Isolation keys and portable paths

    Theorems on the identities of packages/code/src/protocol.ts: an isolation key
    determines the workspace, instance and worktree it was made from, its parent
    is the key of the checkout, and two keys conflict exactly when one lane is
    the other or the checkout of the other. *)

From stdpp Require Import base list numbers option strings.
From Stdlib Require Import ZArith Lia.
From S2P Require Import Prelude JsString Json Protocol.

(** ** String lemmas *)

Lemma startsWith_spec s p : startsWith s p = true <-> exists t, s = p ++ t.
Proof.
  unfold startsWith. rewrite bool_decide_eq_true. split.
  - intros H. exists (drop (length p) s). by rewrite <- H at 1; rewrite take_drop.
  - intros [t ->]. by rewrite take_app_length.
Qed.

Lemma lastNul_snoc s c :
  lastNul (s ++ [c]) = if (c =? NUL)%Z then Z.of_nat (length s) else lastNul s.
Proof.
  unfold lastNul. rewrite imap_app, fold_left_app. simpl. by rewrite Nat.add_0_r.
Qed.

Lemma lastNul_app a b : NUL ∉ b -> lastNul (a ++ NUL :: b) = Z.of_nat (length a).
Proof.
  induction b as [|c b IH] using rev_ind; intros Hb.
  - by rewrite lastNul_snoc.
  - rewrite not_elem_of_app, list_elem_of_singleton in Hb. destruct Hb as [Hb Hc].
    rewrite app_comm_cons, app_assoc, lastNul_snoc.
    destruct (Z.eqb_spec c NUL) as [->|_]; [done|]. by apply IH.
Qed.

Lemma nul_split_inj a b a' b' :
  NUL ∉ b -> NUL ∉ b' -> a ++ NUL :: b = a' ++ NUL :: b' -> a = a' /\ b = b'.
Proof.
  intros Hb Hb' E.
  assert (length a = length a') as Hl.
  { apply Nat2Z.inj. rewrite <- (lastNul_app a b Hb), <- (lastNul_app a' b' Hb'). by rewrite E. }
  apply app_inj_1 in E as [-> E]; [|done]. by inversion E.
Qed.

Lemma forallb_not_in (f : Z -> bool) (s : jstr) c : forallb f s = true -> f c = false -> c ∉ s.
Proof.
  intros H Hc Hin. rewrite forallb_forall in H.
  assert (f c = true) as Ht by by apply H, list_elem_of_In. congruence.
Qed.

Lemma headTail_not_in tail n s c :
  headTail tail n s = true -> isAlnum c = false -> tail c = false -> c ∉ s /\ s <> [].
Proof.
  destruct s as [|x s]; simpl; [done|]. intros H Hc Ht. bools.
  split; [|done]. rewrite elem_of_cons. intros [->|Hin]; [congruence|].
  by eapply forallb_not_in in Hin.
Qed.

(** ** Lanes *)

(** A lane: a workspace, an optional Git worktree instance and an optional linked
    worktree, as the request validators admit them. *)
Record lane := Lane { ln_workspace : jstr; ln_instance : option jstr; ln_worktree : option jstr }.

#[global] Instance lane_eq_dec : EqDecision lane.
Proof. solve_decision. Defined.

Definition lane_ok (l : lane) : bool :=
  isValidBridgeWorkerId (ln_workspace l)
  && match ln_instance l with Some i => isHex64 i | None => true end
  && match ln_worktree l with Some w => isValidLinkedWorktreeName (Some (JStr w)) | None => true end.

Definition lane_key (l : lane) : jstr :=
  workspaceIsolationKey (ln_workspace l) (ln_instance l) (ln_worktree l).

(** The checkout a lane belongs to. *)
Definition checkout (l : lane) : lane := Lane (ln_workspace l) (ln_instance l) None.

Lemma lane_ok_parts l : lane_ok l = true ->
  (NUL ∉ ln_workspace l /\ ln_workspace l <> [])
  /\ (forall i, ln_instance l = Some i -> NUL ∉ i)
  /\ (forall w, ln_worktree l = Some w -> NUL ∉ w /\ w <> []).
Proof.
  unfold lane_ok. intros H. bools. split; [|split].
  - by eapply headTail_not_in.
  - intros i Hi. rewrite Hi in *. unfold isHex64 in *. bools.
    by eapply forallb_not_in.
  - intros w Hw. rewrite Hw in *. unfold isValidLinkedWorktreeName, strTest in *. bools.
    by eapply headTail_not_in.
Qed.

Lemma checkout_ok l : lane_ok l = true -> lane_ok (checkout l) = true.
Proof. unfold lane_ok. intros H. bools. simpl. rewrite H, H1. done. Qed.

Lemma checkout_key_parent l :
  lane_ok l = true -> ln_worktree l = None -> workspaceIsolationParent (lane_key l) = None.
Proof.
  intros Hok Hw. destruct (lane_ok_parts l Hok) as ((Hn & Hne) & _).
  unfold workspaceIsolationParent, lane_key, workspaceIsolationKey. rewrite Hw.
  destruct (startsWith _ _) eqn:E; [|done].
  apply startsWith_spec in E as [t E]. destruct (ln_instance l); [done|].
  rewrite E in Hn. exfalso. apply Hn. by left.
Qed.

Lemma lane_key_parent l w :
  lane_ok l = true -> ln_worktree l = Some w ->
  workspaceIsolationParent (lane_key l) = Some (lane_key (checkout l)).
Proof.
  intros Hok Hw. destruct (lane_ok_parts l Hok) as ((Hn & Hne) & _ & Hwn).
  destruct (Hwn w Hw) as [Hwn' _]. clear Hwn.
  unfold workspaceIsolationParent, lane_key. cbn [ln_workspace ln_instance ln_worktree checkout].
  set (base := workspaceIsolationKey (ln_workspace l) (ln_instance l) None).
  assert (workspaceIsolationKey (ln_workspace l) (ln_instance l) (ln_worktree l)
          = LINKED_WORKTREE_KEY_PREFIX ++ base ++ [NUL] ++ w) as -> by (by rewrite Hw).
  assert (base <> []) as Hb.
  { unfold base, workspaceIsolationKey. destruct (ln_instance l); [done|]. done. }
  replace (startsWith _ _) with true by (symmetry; apply startsWith_spec; eauto).
  change ([NUL] ++ w) with (NUL :: w). rewrite app_assoc, lastNul_app by done.
  unfold len. cbn [negb]. rewrite length_app.
  destruct (Z.leb_spec (Z.of_nat (length LINKED_WORKTREE_KEY_PREFIX + length base))
              (Z.of_nat (length LINKED_WORKTREE_KEY_PREFIX))) as [Hle|_].
  { destruct base; [done|]. simpl length in Hle. lia. }
  f_equal. unfold slice. rewrite Nat2Z.id, <- app_assoc, drop_app_length.
  replace (_ + _ - _) with (length base) by lia. by rewrite take_app_length.
Qed.

Lemma checkout_key_inj l l' :
  lane_ok l = true -> lane_ok l' = true -> ln_worktree l = None -> ln_worktree l' = None ->
  lane_key l = lane_key l' -> l = l'.
Proof.
  intros Hok Hok'. destruct (lane_ok_parts l Hok) as ((Hn & _) & Hi & _).
  destruct (lane_ok_parts l' Hok') as ((Hn' & _) & Hi' & _).
  destruct l as [ws i t], l' as [ws' i' t']. unfold lane_key, workspaceIsolationKey.
  cbn [ln_workspace ln_instance ln_worktree] in *. intros -> -> E. destruct i as [i|], i' as [i'|].
  - apply app_inv_head in E. change ([NUL] ++ i) with (NUL :: i) in E.
    change ([NUL] ++ i') with (NUL :: i') in E.
    apply nul_split_inj in E as [-> ->]; eauto.
  - exfalso. apply Hn'. rewrite <- E. by left.
  - exfalso. apply Hn. rewrite E. by left.
  - by subst.
Qed.

Lemma lane_parent l : lane_ok l = true ->
  workspaceIsolationParent (lane_key l)
  = (if ln_worktree l then Some (lane_key (checkout l)) else None).
Proof.
  intros Hok. destruct (ln_worktree l) as [w|] eqn:Hw;
    [by eapply lane_key_parent|by apply checkout_key_parent].
Qed.

Lemma lane_key_inj l l' :
  lane_ok l = true -> lane_ok l' = true -> lane_key l = lane_key l' <-> l = l'.
Proof.
  intros Hok Hok'. split; [|by intros ->]. intros E.
  pose proof (f_equal workspaceIsolationParent E) as P. rewrite !lane_parent in P by done.
  destruct (ln_worktree l) as [w|] eqn:Hw, (ln_worktree l') as [w'|] eqn:Hw'; try done;
    [|by apply checkout_key_inj].
  injection P as P. apply checkout_key_inj in P; try done; try by apply checkout_ok.
  destruct l as [ws i t], l' as [ws' i' t']. injection P as -> ->.
  unfold lane_key, workspaceIsolationKey in E. cbn [ln_workspace ln_instance ln_worktree] in *. subst.
  apply app_inv_head, app_inv_head in E. by injection E as ->.
Qed.

Lemma lane_parent_eq l l' : lane_ok l = true -> lane_ok l' = true ->
  workspaceIsolationParent (lane_key l) = Some (lane_key l')
  <-> is_Some (ln_worktree l) /\ checkout l = l'.
Proof.
  intros Hok Hok'. rewrite lane_parent by done. destruct (ln_worktree l) as [w|].
  - rewrite <- (lane_key_inj (checkout l) l') by (try apply checkout_ok; done).
    split; [intros [=]; eauto|intros [_ ->]; done].
  - split; [done|]. by intros [[? [=]] _].
Qed.

(** The isolation key of a lane determines the lane: no two different
    combinations of workspace, instance and worktree that the validators admit
    share a scheduling or quarantine key; and the key names its checkout: the
    parent of a linked worktree's key is the key of the checkout it belongs to,
    while a checkout's key has no parent. *)
Theorem isolation_key_faithful l l' :
  lane_ok l = true -> lane_ok l' = true ->
  (lane_key l = lane_key l' <-> l = l')
  /\ workspaceIsolationParent (lane_key l)
     = (if ln_worktree l then Some (lane_key (checkout l)) else None).
Proof. intros Hok Hok'. split; [by apply lane_key_inj|by apply lane_parent]. Qed.

Lemma isolation_key_faithful_witness :
  let l := Lane (js "repo") None (Some (js "feature")) in
  let l' := Lane (js "repo") None None in
  (lane_key l = lane_key l' <-> l = l')
  /\ workspaceIsolationParent (lane_key l) = Some (js "repo").
Proof.
  apply (isolation_key_faithful (Lane (js "repo") None (Some (js "feature"))) (Lane (js "repo") None None));
    vm_compute; reflexivity.
Defined.

(** Two lanes share files: they are equal, or one is the checkout of the other. *)
Definition lanes_overlap (l l' : lane) : Prop :=
  ln_workspace l = ln_workspace l' /\ ln_instance l = ln_instance l'
  /\ (ln_worktree l = ln_worktree l' \/ ln_worktree l = None \/ ln_worktree l' = None).

(** The scheduler's conflict test on keys is the overlap of lanes: two keys
    conflict exactly when the lanes are of one workspace instance and are equal
    or one of them is the checkout itself. In particular the test is symmetric,
    and two different linked worktrees of one checkout never conflict. *)
Theorem isolation_conflict_overlap l l' :
  lane_ok l = true -> lane_ok l' = true ->
  (workspaceIsolationKeysConflict (lane_key l) (lane_key l') = true <-> lanes_overlap l l').
Proof.
  intros Hok Hok'. unfold workspaceIsolationKeysConflict, lanes_overlap.
  rewrite !orb_true_iff, !bool_decide_eq_true, lane_key_inj, !lane_parent_eq by done.
  destruct l as [ws i t], l' as [ws' i' t']. unfold checkout. simpl. split.
  - intros [[[=]|[_ [=]]]|[_ [=]]]; subst; auto.
  - intros (-> & -> & Ht). destruct t as [t|], t' as [t'|].
    + destruct Ht as [->|[|]]; [by left; left|done..].
    + left; right. eauto.
    + right. eauto.
    + by left; left.
Qed.

Lemma isolation_conflict_overlap_witness :
  let l := Lane (js "repo") None (Some (js "feature")) in
  let l' := Lane (js "repo") None None in
  workspaceIsolationKeysConflict (lane_key l) (lane_key l') = true <-> lanes_overlap l l'.
Proof.
  apply (isolation_conflict_overlap (Lane (js "repo") None (Some (js "feature"))) (Lane (js "repo") None None));
    vm_compute; reflexivity.
Defined.
