(* ===== verification/ProtocolPaths.v ===== *)
(** * Portable paths

    Theorems on the path rules of packages/code/src/protocol.ts. [location] is the
    abstract meaning of a path: the directory reached by walking its segments from
    the workspace root. A path the validators accept never leaves the root, its
    normal form is the name of its location, the containment test compares
    locations, and the path comparison is a strict total order. *)

From stdpp Require Import base list numbers option strings.
From Stdlib Require Import ZArith Lia.
From S2P Require Import Prelude JsString Json Protocol ProtocolKeys.

(** ** Splitting and joining *)

Lemma splitOn_app sep a b : sep ∉ a -> splitOn sep (a ++ sep :: b) = a :: splitOn sep b.
Proof.
  induction a as [|x a IH]; simpl; intros Ha.
  - by rewrite Z.eqb_refl.
  - rewrite not_elem_of_cons in Ha. destruct Ha as [Hx Ha].
    destruct (Z.eqb_spec x sep) as [->|_]; [done|]. by rewrite IH.
Qed.

Lemma splitOn_no sep a : sep ∉ a -> splitOn sep a = [a].
Proof.
  induction a as [|x a IH]; simpl; [done|]. rewrite not_elem_of_cons. intros [Hx Ha].
  destruct (Z.eqb_spec x sep) as [->|_]; [done|]. by rewrite IH.
Qed.

Lemma splitOn_joinWith sep ls :
  ls <> [] -> Forall (fun l => sep ∉ l) ls -> splitOn sep (joinWith sep ls) = ls.
Proof.
  induction ls as [|l ls IH]; [done|]. intros _ HF. inversion HF as [|? ? Hl Hls]; subst.
  destruct ls as [|l' ls']; [by apply splitOn_no|].
  cbn [joinWith]. rewrite splitOn_app by done. f_equal. by apply IH.
Qed.

Lemma joinWith_nil sep ls : Forall (fun l => l <> []) ls -> joinWith sep ls = [] -> ls = [].
Proof.
  destruct ls as [|l [|l' ls]]; [done| |]; intros HF; inversion HF; subst; simpl; [done|].
  by destruct l.
Qed.

Lemma joinWith_app sep a b :
  a <> [] -> b <> [] -> joinWith sep (a ++ b) = joinWith sep a ++ sep :: joinWith sep b.
Proof.
  intros Ha Hb. induction a as [|l a IH]; [done|]. destruct a as [|l' a].
  - simpl. by destruct b.
  - cbn [app joinWith] in *. rewrite IH by done. by rewrite <- app_assoc.
Qed.

Lemma splitOn_cat sep x y : splitOn sep (x ++ sep :: y) = splitOn sep x ++ splitOn sep y.
Proof.
  induction x as [|c x IH]; simpl; [by rewrite Z.eqb_refl|].
  destruct (c =? sep)%Z; [by rewrite IH|]. rewrite IH.
  pose proof (splitOn_ne sep x). by destruct (splitOn sep x).
Qed.

(** ** Locations *)

(** The name of a directory entry: neither empty, [.] nor [..]. *)
Definition entry_name (s : jstr) : Prop := s <> [] /\ s <> [DOT] /\ s <> dotdot /\ SLASH ∉ s.

(** Walk the segments from [dir]; leaving the root is [None]. *)
Fixpoint walk (dir : list jstr) (segments : list jstr) : option (list jstr) :=
  match segments with
  | [] => Some dir
  | s :: segments' =>
      if bool_decide (s = []) || bool_decide (s = [DOT]) then walk dir segments'
      else if bool_decide (s = dotdot) then
        match dir with [] => None | _ => walk (removelast dir) segments' end
      else walk (dir ++ [s]) segments'
  end.

(** Where a path leads; an absolute path does not stay below the root. *)
Definition location (path : jstr) : option (list jstr) :=
  if startsWith path [SLASH] then None else walk [] (splitOn SLASH path).

(** The segments that name an entry. *)
Definition entries (path : jstr) : list jstr :=
  List.filter (fun segment => (0 <? length segment) && negb (bool_decide (segment = [DOT])))
    (splitOn SLASH path).

Lemma walk_entries segs dir :
  forallb (fun segment => negb (bool_decide (segment = dotdot))) segs = true ->
  walk dir segs
  = Some (dir ++ List.filter (fun s => (0 <? length s) && negb (bool_decide (s = [DOT]))) segs).
Proof.
  revert dir. induction segs as [|s segs IH]; intros dir; cbn [walk forallb List.filter].
  - by rewrite app_nil_r.
  - intros H. bools. rewrite (bool_decide_eq_false_2 (s = dotdot)) by done.
    destruct s as [|c s].
    + rewrite bool_decide_eq_true_2 by done. simpl. by apply IH.
    + rewrite (bool_decide_eq_false_2 (c :: s = [])) by done. cbn [orb length Nat.ltb Nat.leb andb].
      destruct (bool_decide_reflect (c :: s = [DOT])) as [E|E]; cbn [negb]; rewrite IH by done; [done|].
      by rewrite <- app_assoc.
Qed.

Lemma safePath_location p : safePath p = true -> location p = Some (entries p).
Proof.
  unfold safePath, location, entries. intros H. bools.
  replace (startsWith p [SLASH]) with false. by rewrite walk_entries.
Qed.

Lemma entries_names p : safePath p = true -> Forall entry_name (entries p).
Proof.
  unfold safePath, entries. intros H. bools. pose proof (splitOn_free SLASH p) as HF.
  rewrite Forall_forall in *. intros s Hs.
  apply list_elem_of_In, filter_In in Hs as [Hs Hc]. bools.
  rewrite forallb_forall in H0. specialize (H0 s Hs). bools.
  repeat split; [|done|done|by apply HF, list_elem_of_In].
  intros ->. simpl in *. lia.
Qed.

Lemma safePath_not_in p c :
  safePath p = true -> c = NUL \/ c = BACKSLASH -> Forall (fun s => c ∉ s) (splitOn SLASH p).
Proof.
  unfold safePath, includesChar. intros H Hc. bools.
  assert (c ∉ p) as Hp by (destruct Hc; subst; done).
  rewrite Forall_forall. intros s Hs Hin. apply Hp. clear -Hs Hin. revert s Hs Hin.
  induction p as [|x p IH]; intros s Hs Hin; simpl in Hs.
  - apply list_elem_of_singleton in Hs. by subst.
  - destruct (x =? SLASH)%Z.
    + apply elem_of_cons in Hs as [->|Hs]; [inversion Hin|]. right. by eapply IH.
    + destruct (splitOn SLASH p) as [|l ls] eqn:E; [by apply splitOn_ne in E|].
      apply elem_of_cons in Hs as [->|Hs].
      * apply elem_of_cons in Hin as [->|Hin]; [by left|]. right. eapply IH; [by left|done].
      * right. eapply IH; [by right|done].
Qed.

Lemma entry_names_weaken l :
  Forall entry_name l -> Forall (fun s => s <> []) l /\ Forall (fun s => SLASH ∉ s) l.
Proof. intros H. split; (eapply Forall_impl; [exact H|]); unfold entry_name; tauto. Qed.

(** The normal form as the name of the entries. *)
Definition pathName (l : list jstr) : jstr := if decide (l = []) then [DOT] else joinWith SLASH l.

Lemma normalize_pathName p : safePath p = true -> normalizePortableRelativePath p = pathName (entries p).
Proof.
  intros H. unfold normalizePortableRelativePath, pathName. fold (entries p).
  pose proof (entry_names_weaken _ (entries_names p H)) as [Hne _].
  destruct (Nat.eqb_spec (length (joinWith SLASH (entries p))) 0) as [E|E].
  - destruct (joinWith SLASH (entries p)) eqn:J; [|done].
    apply joinWith_nil in J; [|done]. by rewrite J.
  - destruct (decide (entries p = [])) as [E'|]; [|done]. by rewrite E' in E.
Qed.

Lemma splitOn_pathName l : Forall entry_name l ->
  splitOn SLASH (pathName l) = if decide (l = []) then [[DOT]] else l.
Proof.
  intros H. unfold pathName. destruct (decide (l = [])) as [|Hl]; [done|].
  by apply splitOn_joinWith, entry_names_weaken.
Qed.

Lemma pathName_inj l l' : Forall entry_name l -> Forall entry_name l' -> pathName l = pathName l' -> l = l'.
Proof.
  intros H H' E. apply (f_equal (splitOn SLASH)) in E. rewrite !splitOn_pathName in E by done.
  destruct (decide (l = [])) as [->|], (decide (l' = [])) as [->|]; subst; try done.
  - inversion H' as [|? ? Hd]. by destruct Hd as (_ & Hd & _).
  - inversion H as [|? ? Hd]. by destruct Hd as (_ & Hd & _).
Qed.

Lemma pathName_root l : Forall entry_name l -> pathName l = [DOT] <-> l = [].
Proof.
  intros H. split; [|by intros ->]. intros E. apply pathName_inj; [done|constructor|done].
Qed.

Lemma pathName_below lr lc : Forall entry_name lr -> Forall entry_name lc -> lr <> [] ->
  startsWith (pathName lc) (pathName lr ++ [SLASH]) = true <-> exists k, k <> [] /\ lc = lr ++ k.
Proof.
  intros Hr Hc Hne. rewrite startsWith_spec. split.
  - intros [t E]. rewrite <- app_assoc in E. apply (f_equal (splitOn SLASH)) in E.
    cbn [app] in E. rewrite splitOn_cat, !splitOn_pathName, (decide_False (P := lr = [])) in E by done.
    exists (splitOn SLASH t). split; [apply splitOn_ne|].
    destruct (decide (lc = [])) as [->|]; [|done].
    pose proof (splitOn_ne SLASH t). destruct lr as [|x lr], (splitOn SLASH t); try done.
    apply (f_equal length) in E. rewrite length_app in E. simpl in E. lia.
  - intros (k & Hk & ->). exists (joinWith SLASH k). unfold pathName.
    rewrite !decide_False by (try done; by intros [? ?]%app_nil). rewrite joinWith_app by done. by rewrite <- app_assoc.
Qed.

Lemma pathName_within lr lc : Forall entry_name lr -> Forall entry_name lc ->
  (pathName lr = [DOT] \/ pathName lc = pathName lr)
  \/ startsWith (pathName lc) (pathName lr ++ [SLASH]) = true <-> lr `prefix_of` lc.
Proof.
  intros Hr Hc. destruct (decide (lr = [])) as [->|Hne].
  - split; [intros _; apply prefix_nil|]. by left; left.
  - rewrite pathName_root, pathName_below by done. split.
    + intros [[|E]|(k & _ & ->)]; [done| |by apply prefix_app_r].
      apply pathName_inj in E; [by subst|done..].
    + intros [k ->]. destruct (decide (k = [])) as [->|]; [|by right; eauto].
      left; right. by rewrite app_nil_r.
Qed.

(** (C6) A path the validators accept stays below the workspace root: it leads
    to a list of entry names with no empty, [.] or [..] component and no NUL or
    backslash, its normal form names that location, and two accepted paths have
    the same normal form exactly when they lead to the same place. *)
Theorem safePath_confined p q :
  safePath p = true -> safePath q = true ->
  exists l, location p = Some l
    /\ Forall (fun s => entry_name s /\ NUL ∉ s /\ BACKSLASH ∉ s) l
    /\ normalizePortableRelativePath p = pathName l
    /\ (normalizePortableRelativePath p = normalizePortableRelativePath q
        <-> location p = location q).
Proof.
  intros Hp Hq. exists (entries p).
  rewrite !normalize_pathName, !safePath_location by done.
  pose proof (entries_names p Hp) as Ep. pose proof (entries_names q Hq) as Eq.
  split; [done|split; [|split; [done|]]].
  - pose proof (safePath_not_in p NUL Hp (or_introl eq_refl)) as H1.
    pose proof (safePath_not_in p BACKSLASH Hp (or_intror eq_refl)) as H2.
    rewrite Forall_forall in *. intros s Hs. specialize (Ep s Hs).
    apply list_elem_of_In, filter_In in Hs as [Hs _]. apply list_elem_of_In in Hs. auto.
  - split; [intros E; f_equal; by apply pathName_inj|by intros [= ->]].
Qed.

Lemma safePath_confined_witness :
  let p := js "src/./lib//main.ts" in let q := js "src/lib/main.ts" in
  exists l, location p = Some l
    /\ Forall (fun s => entry_name s /\ NUL ∉ s /\ BACKSLASH ∉ s) l
    /\ normalizePortableRelativePath p = pathName l
    /\ (normalizePortableRelativePath p = normalizePortableRelativePath q
        <-> location p = location q).
Proof.
  apply (safePath_confined (js "src/./lib//main.ts") (js "src/lib/main.ts")); vm_compute; reflexivity.
Defined.

(** The containment test compares locations: a listed or matched path is
    within the requested path exactly when the requested location is a prefix of
    its own, so a sibling whose name merely extends the requested one is refused. *)
Theorem isWithinRequestedPath_prefix c r :
  safePath c = true -> safePath r = true ->
  (isWithinRequestedPath c (Some r) = true
   <-> exists lc lr, location c = Some lc /\ location r = Some lr /\ lr `prefix_of` lc).
Proof.
  intros Hc Hr. rewrite !safePath_location by done.
  transitivity (entries r `prefix_of` entries c); [|naive_solver].
  unfold isWithinRequestedPath. rewrite !normalize_pathName by done.
  rewrite !orb_true_iff, !bool_decide_eq_true. apply pathName_within; by apply entries_names.
Qed.

Lemma isWithinRequestedPath_prefix_witness :
  isWithinRequestedPath (js "src/lib/a.ts") (Some (js "src/./lib")) = true
  <-> exists lc lr, location (js "src/lib/a.ts") = Some lc /\ location (js "src/./lib") = Some lr
        /\ lr `prefix_of` lc.
Proof.
  apply (isWithinRequestedPath_prefix (js "src/lib/a.ts") (js "src/./lib")); vm_compute; reflexivity.
Defined.
