(* ===== verification/ProtocolOrder.v ===== *)
(** * The order of a paginated listing

    [comparePortableRelativePaths] of packages/code/src/protocol.ts orders paths
    segment by segment by their UTF-8 bytes. It is a strict total order on
    well-formed strings, and a paginated [list_files] result the validator accepts
    is strictly increasing in it, lies after the cursor and carries the cursor of
    the next page. *)

From stdpp Require Import base list numbers option strings sorting.
From Stdlib Require Import ZArith Lia.
From S2P Require Import Prelude JsString Json Protocol ProtocolKeys ProtocolPaths.

(** ** UTF-8 is injective on well-formed strings *)

Definition unit_ok (c : Z) : Prop := (0 <= c < 65536)%Z.

Lemma utf8_point_inj p q a b :
  (0 <= p < 1114112)%Z -> (0 <= q < 1114112)%Z ->
  utf8_point p ++ a = utf8_point q ++ b -> p = q /\ a = b.
Proof.
  intros Hp Hq. unfold utf8_point.
  repeat case_match; bools; cbn [app]; intros E; injection E; clear E; intros;
    (split; [|first [assumption|exfalso]]); Z.to_euclidean_division_equations; lia.
Qed.

(** The code points of a well-formed string. *)
Fixpoint points (s : jstr) : list Z :=
  match s with
  | [] => []
  | c :: s' =>
      if isHigh c then
        match s' with
        | d :: s'' => (65536 + (c - 55296) * 1024 + (d - 56320))%Z :: points s''
        | [] => []
        end
      else c :: points s'
  end.

Lemma jstr_pair_ind (P : jstr -> Prop) :
  P [] -> (forall c, P [c]) -> (forall c d s, P s -> P (d :: s) -> P (c :: d :: s)) -> forall s, P s.
Proof.
  intros H0 H1 H2. assert (forall s, P s /\ forall c, P (c :: s)) as H; [|by intros s; apply H].
  induction s as [|d s [IH1 IH2]]; [done|]. split; [done|]. intros c. apply H2; [done|]. apply IH2.
Qed.

Lemma utf8_points s : wellFormed s = true -> utf8 s = points s ≫= utf8_point.
Proof.
  induction s as [|c|c d s IH1 IH2] using jstr_pair_ind; [done| |]; intros H.
  - simpl in *. destruct (isHigh c); [done|]. bools. simpl. by destruct (isLow c).
  - cbn [wellFormed utf8 points] in *. destruct (isHigh c).
    + bools. rewrite H. cbn [mbind list_bind]. by rewrite <- IH1.
    + bools. rewrite H. cbn [mbind list_bind]. by rewrite <- IH2.
Qed.

Lemma points_range s : Forall unit_ok s -> wellFormed s = true ->
  Forall (fun p => 0 <= p < 1114112)%Z (points s).
Proof.
  unfold unit_ok.
  induction s as [|c|c d s IH1 IH2] using jstr_pair_ind; [done| |]; intros HF H.
  - inversion HF; subst. simpl in *. destruct (isHigh c); [done|]. constructor; [lia|done].
  - inversion HF as [|? ? ? HF']; subst. inversion HF'; subst.
    cbn [wellFormed points] in *. destruct (isHigh c) eqn:Ec; bools.
    + unfold isHigh, isLow in *. bools. constructor; [lia|by apply IH1].
    + constructor; [lia|by apply IH2].
Qed.

(** The first code point tells whether the string starts with a surrogate pair. *)
Lemma points_inj s t : Forall unit_ok s -> Forall unit_ok t ->
  wellFormed s = true -> wellFormed t = true -> points s = points t -> s = t.
Proof.
  unfold unit_ok. revert t.
  induction s as [|c|c d s IH1 IH2] using jstr_pair_ind; intros t HF HG Hs Ht.
  - destruct t as [|c' [|d' t]]; [done| |]; simpl in *; destruct (isHigh c') eqn:?; done.
  - simpl in *. destruct (isHigh c) eqn:Ec; [done|].
    destruct t as [|c' [|d' t]]; [done| |]; cbn [points wellFormed] in *; destruct (isHigh c') eqn:Ec'; try done.
    + unfold isHigh, isLow in *. bools. inversion HF; subst. intros [= E _]. lia.
    + intros [= _ E]. destruct t; simpl in *; destruct (isHigh d'); bools; done.
  - inversion HF as [|? ? Hc HF']; subst. inversion HF' as [|? ? Hd HF'']; subst.
    destruct t as [|c' t']; [cbn [points]; by destruct (isHigh c)|].
    inversion HG as [|? ? Hc' HG']; subst. cbn [points wellFormed] in *.
    destruct (isHigh c) eqn:Ec, (isHigh c') eqn:Ec'.
    + destruct t' as [|d' t']; [done|]. inversion HG'; subst. bools. intros [= E E'].
      unfold isHigh, isLow in *. bools. f_equal; [lia|f_equal; [lia|by apply IH1]].
    + unfold isHigh, isLow in *. bools. intros [= E E']. lia.
    + destruct t' as [|d' t']; [done|]. unfold isHigh, isLow in *. bools. intros [= E E']. lia.
    + bools. intros [= -> E]. f_equal. by apply IH2.
Qed.

Lemma utf8_inj s t : Forall unit_ok s -> Forall unit_ok t ->
  wellFormed s = true -> wellFormed t = true -> utf8 s = utf8 t -> s = t.
Proof.
  intros HF HG Hs Ht E. apply points_inj; [done..|].
  rewrite !utf8_points in E by done.
  pose proof (points_range s HF Hs) as Rs. pose proof (points_range t HG Ht) as Rt.
  revert E Rs Rt. generalize (points s) (points t). clear.
  assert (forall p, utf8_point p <> []) as Hne by (intros p; unfold utf8_point; repeat case_match; done).
  intros ps. induction ps as [|p ps IH]; intros [|q qs]; cbn [mbind list_bind]; intros E Rs Rt; try done.
  - destruct (utf8_point q) eqn:?; [by eapply Hne in Heql|done].
  - destruct (utf8_point p) eqn:?; [by eapply Hne in Heql|done].
  - inversion Rs; inversion Rt; subst. apply utf8_point_inj in E as [-> E]; [|done..]. f_equal. by apply IH.
Qed.

(** ** The comparison *)

Lemma compareBytes_anti l r : compareBytes r l = (- compareBytes l r)%Z.
Proof.
  revert r. induction l as [|x l IH]; intros [|y r]; simpl; try lia.
  destruct (Z.eqb_spec (x - y) 0), (Z.eqb_spec (y - x) 0); try lia. apply IH.
Qed.

Lemma compareBytes_zero l r : compareBytes l r = 0%Z <-> l = r.
Proof.
  revert r. induction l as [|x l IH]; intros [|y r]; simpl; try (split; [lia|done]); [done|].
  destruct (Z.eqb_spec (x - y) 0) as [E|E].
  - rewrite IH. split; [|naive_solver]. intros ->. f_equal. lia.
  - split; [done|]. intros [= -> ->]. lia.
Qed.

Lemma compareBytes_trans a b c :
  (compareBytes a b < 0 -> compareBytes b c < 0 -> compareBytes a c < 0)%Z.
Proof.
  revert b c. induction a as [|x a IH]; intros [|y b] [|z c]; simpl; try lia.
  destruct (Z.eqb_spec (x - y) 0), (Z.eqb_spec (y - z) 0), (Z.eqb_spec (x - z) 0); try lia. apply IH.
Qed.

Lemma compareSegments_anti l r : compareSegments r l = (- compareSegments l r)%Z.
Proof.
  revert r. induction l as [|x l IH]; intros [|y r]; cbn [compareSegments length]; try lia.
  rewrite (compareBytes_anti (utf8 x) (utf8 y)).
  destruct (Z.eqb_spec (compareBytes (utf8 x) (utf8 y)) 0) as [->|E]; simpl; [apply IH|].
  destruct (Z.eqb_spec (- compareBytes (utf8 x) (utf8 y)) 0); lia.
Qed.

Lemma compareSegments_zero l r : compareSegments l r = 0%Z <-> utf8 <$> l = utf8 <$> r.
Proof.
  revert r. induction l as [|x l IH]; intros [|y r]; cbn [compareSegments fmap list_fmap];
    try (simpl; split; [lia|done]); [done|].
  destruct (Z.eqb_spec (compareBytes (utf8 x) (utf8 y)) 0) as [E|E].
  - apply compareBytes_zero in E. rewrite IH, E. split; [by intros ->|by intros [=]].
  - split; [done|]. intros [= Ex _]. by apply compareBytes_zero in Ex.
Qed.

Lemma compareSegments_trans a b c :
  (compareSegments a b < 0 -> compareSegments b c < 0 -> compareSegments a c < 0)%Z.
Proof.
  revert b c. induction a as [|x a IH]; intros [|y b] [|z c]; cbn [compareSegments length]; try lia.
  destruct (Z.eqb_spec (compareBytes (utf8 x) (utf8 y)) 0) as [E|E],
    (Z.eqb_spec (compareBytes (utf8 y) (utf8 z)) 0) as [E'|E'].
  - apply compareBytes_zero in E, E'. rewrite E, E', (proj2 (compareBytes_zero _ _) eq_refl). apply IH.
  - apply compareBytes_zero in E. rewrite E. by destruct (Z.eqb_spec (compareBytes (utf8 y) (utf8 z)) 0).
  - apply compareBytes_zero in E'. rewrite <- E'. by destruct (Z.eqb_spec (compareBytes (utf8 x) (utf8 y)) 0).
  - intros H1 H2. pose proof (compareBytes_trans _ _ _ H1 H2).
    destruct (Z.eqb_spec (compareBytes (utf8 x) (utf8 z)) 0); lia.
Qed.

Lemma splitOn_cons sep x s :
  splitOn sep (x :: s) =
    if (x =? sep)%Z then [] :: splitOn sep s
    else match splitOn sep s with [] => [[x]] | l :: ls => (x :: l) :: ls end.
Proof. done. Qed.

Lemma wellFormed_segments s : wellFormed s = true -> Forall (fun l => wellFormed l = true) (splitOn SLASH s).
Proof.
  induction s as [|c|c d s IH1 IH2] using jstr_pair_ind; intros H.
  - by repeat constructor.
  - simpl in *. destruct (isHigh c) eqn:Ec; [done|]. bools.
    destruct (c =? SLASH)%Z; repeat constructor. simpl. by rewrite Ec, H.
  - cbn [wellFormed] in *. rewrite (splitOn_cons _ c). destruct (isHigh c) eqn:Ec.
    + bools. rewrite (splitOn_cons _ d). assert (c =? SLASH = false /\ d =? SLASH = false)%Z as [-> ->]
        by (unfold isHigh, isLow, SLASH in *; bools; lia).
      specialize (IH1 H0). destruct (splitOn SLASH s) as [|l ls] eqn:E; [by apply splitOn_ne in E|].
      inversion IH1; subst. constructor; [|done]. simpl. by rewrite Ec, H.
    + bools. specialize (IH2 H0). destruct (c =? SLASH)%Z; [by constructor|].
      destruct (splitOn SLASH (d :: s)) as [|l ls] eqn:E; [by apply splitOn_ne in E|].
      inversion IH2; subst. constructor; [|done]. cbn [wellFormed]. by rewrite Ec, H.
Qed.

Lemma unit_ok_segments s : Forall unit_ok s -> Forall (Forall unit_ok) (splitOn SLASH s).
Proof.
  induction 1 as [|c s Hc Hs IH]; [by repeat constructor|]. cbn [splitOn].
  destruct (c =? SLASH)%Z; [by constructor|].
  destruct (splitOn SLASH s); [by apply Forall_singleton, Forall_singleton|].
  inversion IH; subst. constructor; [by constructor|done].
Qed.

(** A string of code units without a lone surrogate. *)
Definition text (s : jstr) : Prop := Forall unit_ok s /\ wellFormed s = true.

Lemma utf8_segments_inj l l' : Forall text l -> Forall text l' -> utf8 <$> l = utf8 <$> l' -> l = l'.
Proof.
  intros Hl. revert l'. induction Hl as [|s l [Hu Hw] Hl IH]; intros [|s' l'] Hl' E; try done.
  inversion Hl' as [|? ? [? ?] ?]; subst. injection E as Es E. f_equal; [by apply utf8_inj|by apply IH].
Qed.

Lemma text_segments s : text s -> Forall text (splitOn SLASH s).
Proof.
  intros [Hu Hw]. apply Forall_and. split; [by apply unit_ok_segments|by apply wellFormed_segments].
Qed.

(** Path comparison is a strict total order on well-formed strings: zero
    exactly on equal paths, antisymmetric and transitive, so "strictly increasing"
    determines one order of any set of paths. *)
Theorem comparePortableRelativePaths_order p q r :
  text p -> text q -> text r ->
  (comparePortableRelativePaths p q = 0 <-> p = q)%Z
  /\ comparePortableRelativePaths q p = (- comparePortableRelativePaths p q)%Z
  /\ (comparePortableRelativePaths p q < 0 -> comparePortableRelativePaths q r < 0 ->
      comparePortableRelativePaths p r < 0)%Z.
Proof.
  intros Hp Hq Hr. unfold comparePortableRelativePaths. split; [|split].
  - rewrite compareSegments_zero. split; [|by intros ->].
    intros E. eapply splitOn_inj, utf8_segments_inj; [by apply text_segments..|exact E].
  - apply compareSegments_anti.
  - apply compareSegments_trans.
Qed.

Lemma comparePortableRelativePaths_order_witness :
  let p := js "a/b" in let q := js "a-b" in let r := js "b" in
  (comparePortableRelativePaths p q = 0 <-> p = q)%Z
  /\ comparePortableRelativePaths q p = (- comparePortableRelativePaths p q)%Z
  /\ (comparePortableRelativePaths p q < 0 -> comparePortableRelativePaths q r < 0 ->
      comparePortableRelativePaths p r < 0)%Z.
Proof.
  apply (comparePortableRelativePaths_order (js "a/b") (js "a-b") (js "b"));
    (split; [repeat constructor; vm_compute; congruence|vm_compute; reflexivity]).
Defined.

(** ** Listings *)

Definition path_lt (p q : jstr) : Prop := (comparePortableRelativePaths p q < 0)%Z.

#[global] Instance path_lt_trans : Transitive path_lt.
Proof. intros p q r. apply compareSegments_trans. Qed.

(** What [listPaths] establishes of the listed paths. *)
Lemma listPaths_spec requested pagination js_paths seen previous :
  listPaths requested pagination js_paths seen previous = true ->
  exists paths, js_paths = JStr <$> paths
    /\ Forall (fun p => safePath p = true /\ isWithinRequestedPath p requested = true) paths
    /\ NoDup (normalizePortableRelativePath <$> paths)
    /\ (forall p, p ∈ paths -> normalizePortableRelativePath p ∉ seen)
    /\ (pagination = true ->
        Forall (fun p => normalizePortableRelativePath p = p) paths
        /\ Sorted path_lt (option_list previous ++ paths)).
Proof.
  revert seen previous. induction js_paths as [|v vs IH]; intros seen previous.
  - intros _. exists []. repeat split; try constructor; [by intros p Hp; inversion Hp|].
    destruct previous; simpl; repeat constructor.
  - destruct v; try done. cbn [listPaths]. intros H.
    destruct (negb (safePath s) || _) eqn:E1; [done|]. case_hyp H; [done|]. bools.
    destruct (IH _ _ H) as (paths & -> & HF & HN & Hseen & Hp). clear IH H.
    exists (s :: paths). split; [done|]. split; [by constructor|]. split; [|split].
    + rewrite fmap_cons. constructor; [|done]. rewrite list_elem_of_fmap. intros (p & Ep & Hin).
      apply (Hseen p Hin). rewrite Ep. by left.
    + intros p Hin. apply elem_of_cons in Hin as [->|Hin]; [done|].
      intros Hs. apply (Hseen p Hin). by right.
    + intros ->. destruct (Hp eq_refl) as [HNf HS]. cbn [andb] in *. bools.
      split; [by constructor|]. match goal with H : normalizePortableRelativePath s = s |- _ => rewrite H in * end.
      destruct previous as [q|]; cbn [option_list app] in *; [|done].
      constructor; [done|]. constructor. unfold path_lt, comparePortableRelativePaths in *. bools.
      rewrite compareSegments_anti. lia.
Qed.

(** An accepted [list_files] result holds at most the requested number of
    paths, each inside the requested directory and no two leading to the same
    place; when the worker paginates, they are in normal form and strictly
    increasing after the cursor, and a truncated page carries the last path as
    the next cursor while a complete one carries none. *)
Theorem listResult_page request result capabilities :
  listResult request result capabilities = true ->
  exists paths,
    field result (js "paths") = Some (JArr (JStr <$> paths))
    /\ (Z.of_nat (length paths) <= default 100 (intField request "maxResults"))%Z
    /\ Forall (fun p => safePath p = true
                        /\ isWithinRequestedPath p (strField request "path") = true) paths
    /\ NoDup (normalizePortableRelativePath <$> paths)
    /\ (enforcesPagination capabilities = true ->
        StronglySorted path_lt
          (option_list (normalizePortableRelativePath <$> strField request "afterPath") ++ paths)
        /\ Forall (fun p => normalizePortableRelativePath p = p) paths
        /\ field result (js "nextAfterPath")
           = if eqBool (field result (js "truncated")) true then JStr <$> last paths else None).
Proof.
  unfold listResult. intros H. case_hyp H; [done|].
  destruct (arrField result "paths") as [vs|] eqn:Ev; [|done]. case_hyp H; [done|].
  destruct (listPaths _ _ _ _ _) eqn:EL; [|done]. cbn [negb] in H. bools.
  destruct (listPaths_spec _ _ _ _ _ EL) as (paths & -> & HF & HN & _ & Hp).
  rewrite length_fmap in *. exists paths. split.
  { unfold arrField in Ev. repeat case_match; naive_solver. }
  split; [done|]. split; [done|]. split; [done|]. intros HE. destruct (Hp HE) as [HNf HS].
  split; [by apply Sorted_StronglySorted; [apply _|]|]. split; [done|].
  rewrite HE in H. cbn [negb] in H. destruct (eqBool _ true); cbn [negb] in H.
  - rewrite fmap_last in H. destruct (last paths); [|done]. by apply eqStr_true in H.
  - by apply isUndefined_true in H.
Qed.

Lemma listResult_page_witness :
  let request := [(js "operation", JStr (js "list_files")); (js "path", JStr (js "src"));
                  (js "afterPath", JStr (js "src/a.ts")); (js "maxResults", JInt 2)] in
  let result := [(js "paths", JArr [JStr (js "src/b.ts"); JStr (js "src/c/d.ts")]);
                 (js "truncated", JBool true); (js "nextAfterPath", JStr (js "src/c/d.ts"))] in
  exists paths,
    field result (js "paths") = Some (JArr (JStr <$> paths))
    /\ (Z.of_nat (length paths) <= default 100 (intField request "maxResults"))%Z
    /\ Forall (fun p => safePath p = true
                        /\ isWithinRequestedPath p (strField request "path") = true) paths
    /\ NoDup (normalizePortableRelativePath <$> paths)
    /\ (enforcesPagination None = true ->
        StronglySorted path_lt
          (option_list (normalizePortableRelativePath <$> strField request "afterPath") ++ paths)
        /\ Forall (fun p => normalizePortableRelativePath p = p) paths
        /\ field result (js "nextAfterPath")
           = if eqBool (field result (js "truncated")) true then JStr <$> last paths else None).
Proof.
  cbv zeta. apply listResult_page. vm_compute. reflexivity.
Defined.
