(* ===== verification/ProtocolRequests.v ===== *)
(** * What an accepted request guarantees

    Theorems on the request and capability validators of
    packages/code/src/protocol.ts, stated on the untyped value they receive: an
    accepted request addresses one well-formed lane, every path it carries is
    confined to the workspace, its payload is bounded, and an accepted capability
    set or programmatic body is free of duplicates and of name collisions. *)

From stdpp Require Import base list numbers option strings.
From Stdlib Require Import ZArith Lia.
From S2P Require Import Prelude JsString Json Protocol ProtocolKeys ProtocolPaths.

(** ** Reading validated properties *)

Lemma hasOnlyKeys_absent r ks k :
  hasOnlyKeys r ks = true -> k ∉ map js ks -> field r k = None.
Proof.
  unfold hasOnlyKeys, keys. induction r as [|[k' v] r IH]; [done|]. cbn [map fst forallb field].
  intros H Hk. bools. destruct (bool_decide_reflect (k = k')) as [->|]; [done|]. by apply IH.
Qed.

Lemma optional_str v f : optional v (strTest v f) = true ->
  forall x, v = Some x -> exists s, x = JStr s /\ f s = true.
Proof.
  rewrite optional_true, strTest_true. intros [->|(s & -> & Hs)] x [= <-]. eauto.
Qed.

Lemma strTest_str v f : strTest v f = true ->
  forall x, v = Some x -> exists s, x = JStr s /\ f s = true.
Proof. rewrite strTest_true. intros (s & -> & Hs) x [= <-]. eauto. Qed.

Lemma eqStr_safe v s x : eqStr v s = true -> safePath s = true -> v = Some x ->
  exists p, x = JStr p /\ safePath p = true.
Proof. rewrite eqStr_true. intros -> Hs [= <-]. eauto. Qed.

(** A property absent from the allowed keys holds vacuously of its values. *)
Lemma absent_vacuous r ks k x (P : json -> Prop) :
  hasOnlyKeys r ks = true -> field r (js k) = Some x -> bool_decide (js k ∈ map js ks) = false -> P x.
Proof.
  intros H Hx Hk. apply bool_decide_eq_false in Hk. by rewrite (hasOnlyKeys_absent r ks) in Hx.
Qed.

Create HintDb reqdb.
#[export] Hint Resolve optional_str strTest_str : reqdb.

(** The path-valued properties of a request. *)
Definition PATH_KEYS : list string := ["path"; "cwd"; "afterPath"].

Definition paths_safe (r : record) : Prop :=
  forall k x, k ∈ PATH_KEYS -> field r (js k) = Some x -> exists p, x = JStr p /\ safePath p = true.

Lemma paths_safe_intro r :
  (forall x, field r (js "path") = Some x -> exists p, x = JStr p /\ safePath p = true) ->
  (forall x, field r (js "cwd") = Some x -> exists p, x = JStr p /\ safePath p = true) ->
  (forall x, field r (js "afterPath") = Some x -> exists p, x = JStr p /\ safePath p = true) ->
  paths_safe r.
Proof.
  intros H1 H2 H3 k x Hk. unfold PATH_KEYS in Hk.
  repeat (apply elem_of_cons in Hk as [->|Hk]; [by eauto|]). inversion Hk.
Qed.

Ltac absent := intros; eapply absent_vacuous; [eassumption..|vm_compute; reflexivity].

Ltac request_paths :=
  unfold isSafePortableRelativePath in *; bools; apply paths_safe_intro;
  first [by eauto with reqdb | absent].

Lemma readRequest_paths r : readRequest r = true -> paths_safe r.
Proof.
  unfold readRequest. intros H. case_hyp H; bools.
  - apply paths_safe_intro; [|absent..].
    intros x Hx. apply orb_true_iff in H2 as [H2|H2]; (eapply eqStr_safe; [exact H2| |exact Hx]);
      vm_compute; reflexivity.
  - request_paths.
Qed.

Lemma searchRequest_paths r : searchRequest r = true -> paths_safe r.
Proof. unfold searchRequest. intros H. request_paths. Qed.

Lemma listRequest_paths r : listRequest r = true -> paths_safe r.
Proof.
  unfold listRequest. intros H. bools. apply paths_safe_intro; [by eauto with reqdb|absent|].
  intros x Hx. destruct (optional_str _ _ H1 x Hx) as (p & -> & Hp). bools. eauto.
Qed.

Lemma writeRequest_paths r : writeRequest r = true -> paths_safe r.
Proof. unfold writeRequest. intros H. request_paths. Qed.

Lemma previewEditRequest_paths r : previewEditRequest r = true -> paths_safe r.
Proof. unfold previewEditRequest. intros H. request_paths. Qed.

Lemma editRequest_paths r : editRequest r = true -> paths_safe r.
Proof. unfold editRequest. intros H. request_paths. Qed.

Lemma commandRequest_paths r : commandRequest r = true -> paths_safe r.
Proof. unfold commandRequest. intros H. request_paths. Qed.

Lemma importRequest_paths `{Platform} r : isWorkspaceImportFileRequestShape r = true -> paths_safe r.
Proof.
  unfold isWorkspaceImportFileRequestShape, isWorkspaceImportFilePath. intros Hr. bools.
  apply paths_safe_intro; [|absent..].
  intros x Hx. match goal with Hp : strTest _ importPath = true |- _ =>
    destruct (strTest_str _ _ Hp x Hx) as (p & -> & Hs) end.
  unfold importPath in Hs. bools. eauto.
Qed.

Lemma optional_strField r k f : optional (field r (js k)) (strTest (field r (js k)) f) = true ->
  match strField r k with Some s => f s | None => true end = true.
Proof.
  unfold strField. destruct (field r (js k)) as [[]|] eqn:E; try done.
Qed.

#[export] Hint Resolve readRequest_paths searchRequest_paths listRequest_paths writeRequest_paths
  previewEditRequest_paths editRequest_paths commandRequest_paths importRequest_paths : reqdb.

Section requests.
Context `{Platform}.

(** Every request the bridge accepts addresses exactly one lane with valid
    identifiers (so [isolation_key_faithful] applies to its scheduling key), names
    one of the eight operations, and carries only paths that stay below the
    workspace root, whichever property holds them; a path property the operation
    does not define is absent. *)
Theorem isWorkspaceToolRequest_confined v :
  isWorkspaceToolRequest v = true ->
  exists r ws op,
    asRecord v = Some r
    /\ field r (js "workspaceId") = Some (JStr ws)
    /\ lane_ok (Lane ws (strField r "workspaceInstanceId") (strField r "worktree")) = true
    /\ field r (js "operation") = Some (JStr (js op)) /\ op ∈ OPERATIONS
    /\ paths_safe r.
Proof.
  unfold isWorkspaceToolRequest. destruct (asRecord v) as [r|]; [|done]. intros Hv.
  destruct (_ || _) eqn:E; [done|]. bools.
  match goal with Hw : strTest (field r (js "workspaceId")) _ = true |- _ =>
    apply strTest_true in Hw as (ws & Hws & Hid) end.
  assert (lane_ok (Lane ws (strField r "workspaceInstanceId") (strField r "worktree")) = true) as Hlane.
  { unfold lane_ok. cbn [ln_workspace ln_instance ln_worktree]. rewrite Hid. cbn [andb].
    rewrite optional_strField by done. by apply optional_strField. }
  cbv zeta in Hv. repeat case_hyp Hv; try done;
    match goal with Ho : eqStr _ (js ?op) = true |- _ =>
      apply eqStr_true in Ho; exists r, ws, op; do 4 (split; [done|]);
      split; [by apply (bool_decide_eq_true_1 (op ∈ OPERATIONS)); vm_compute|eauto with reqdb] end.
Qed.
End requests.

(** ** A concrete platform

    ASCII behaviour of the Unicode tables and a constant digest: enough to
    evaluate the validators on concrete requests. *)
Definition asciiLower (c : Z) : Z := if isUpper c then (c + 32)%Z else c.

Definition asciiPlatform : Platform := {|
  toLowerCase := map asciiLower;
  stripIgnorable := fun s => s;
  hasControl := existsb (fun c => (c <? 32) || (c =? 127))%Z;
  sha256hex := fun _ => repeat 48%Z 64;
|}.

Lemma isWorkspaceToolRequest_confined_witness :
  let v := JObj [(js "protocolVersion", JInt 1); (js "operation", JStr (js "write_file"));
                 (js "workspaceId", JStr (js "repo")); (js "worktree", JStr (js "feature"));
                 (js "path", JStr (js "src/a.ts")); (js "content", JStr (js "x"))] in
  exists r ws op,
    asRecord v = Some r
    /\ field r (js "workspaceId") = Some (JStr ws)
    /\ lane_ok (Lane ws (strField r "workspaceInstanceId") (strField r "worktree")) = true
    /\ field r (js "operation") = Some (JStr (js op)) /\ op ∈ OPERATIONS
    /\ paths_safe r.
Proof. cbv zeta. apply (@isWorkspaceToolRequest_confined asciiPlatform). vm_compute. reflexivity. Defined.

(** ** Edits *)

(** The texts of one requested edit. *)
Definition editTexts (edit : json) : option (jstr * jstr) :=
  match asRecord edit with
  | Some e => match strField e "oldText", strField e "newText" with
              | Some o, Some n => Some (o, n) | _, _ => None end
  | None => None
  end.

Definition textBytes (on : jstr * jstr) : Z := (byteLength (fst on) + byteLength (snd on))%Z.

Lemma editBytes_texts edit b : editBytes edit = Some b ->
  exists o n, editTexts edit = Some (o, n) /\ o <> [] /\ wellFormed o = true /\ wellFormed n = true
    /\ b = (byteLength o, byteLength n).
Proof.
  unfold editBytes, editTexts, strField. destruct (asRecord edit) as [e|]; [|done].
  destruct (hasOnlyKeys _ _); [|done]. cbn [negb].
  destruct (field e (js "oldText")) as [[]|]; try done.
  destruct (field e (js "newText")) as [[]|]; try done.
  case_match; [|done]. intros [= <-]. bools. eexists _, _. repeat split; try done. by intros ->.
Qed.

Lemma validEdits_texts hasBatch edits total :
  validEdits hasBatch edits total = true ->
  exists texts, mapM editTexts edits = Some texts
    /\ Forall (fun on => fst on <> [] /\ wellFormed (fst on) = true /\ wellFormed (snd on) = true
         /\ (hasBatch = false ->
             byteLength (fst on) <= BRIDGE_WORKSPACE_WRITE_MAX_BYTES
             /\ byteLength (snd on) <= BRIDGE_WORKSPACE_WRITE_MAX_BYTES)%Z) texts
    /\ (hasBatch = true -> total <= BRIDGE_WORKSPACE_WRITE_MAX_BYTES ->
        total + foldr Z.add 0 (textBytes <$> texts) <= BRIDGE_WORKSPACE_WRITE_MAX_BYTES)%Z.
Proof.
  revert total. induction edits as [|edit edits IH]; intros total; cbn [validEdits mapM].
  - intros _. exists []. split; [done|]. split; [constructor|]. simpl. lia.
  - destruct (editBytes edit) as [[ob nb]|] eqn:E; [|done]. case_match eqn:G; [done|]. intros H.
    apply editBytes_texts in E as (o & n & Et & Ho & Hwo & Hwn & [= -> ->]).
    destruct (IH _ H) as (texts & -> & HF & Hsum). exists ((o, n) :: texts).
    split; [by rewrite Et|]. apply orb_false_iff in G as [G1 G2]. split.
    + constructor; [|done]. repeat split; try done; subst; cbn [negb andb] in *; bools; cbn [fst snd]; lia.
    + intros -> _. cbn [andb] in *. bools. specialize (Hsum eq_refl ltac:(lia)).
      cbn [fmap list_fmap foldr]. unfold textBytes at 1. cbn [fst snd]. lia.
Qed.

(** An accepted edit request holds between one and a hundred edits, each a
    pair of well-formed texts whose search text is not empty (what the edit engine
    requires); the texts of a batch together, and each text of a single edit, fit
    the write limit. *)
Theorem isValidWorkspaceEditRequest_bounds r :
  isValidWorkspaceEditRequest r = true ->
  exists texts, mapM editTexts (requestEdits r) = Some texts
    /\ 1 <= length texts <= BRIDGE_WORKSPACE_EDIT_MAX_EDITS
    /\ Forall (fun on => fst on <> [] /\ wellFormed (fst on) = true /\ wellFormed (snd on) = true) texts
    /\ (foldr Z.add 0 (textBytes <$> texts)
        <= (if field r (js "edits") then 1 else 2) * BRIDGE_WORKSPACE_WRITE_MAX_BYTES)%Z.
Proof.
  unfold isValidWorkspaceEditRequest, requestEdits, arrField. intros H.
  case_hyp H; [done|]. case_hyp H; [done|].
  destruct (field r (js "edits")) as [v|] eqn:Ev; cbn [isUndefined negb] in *.
  - destruct v; try done. bools.
    match goal with Hv : validEdits _ _ _ = true |- _ => apply validEdits_texts in Hv as (ts & Em & HF & Hs) end.
    exists ts. pose proof (length_mapM _ _ _ Em). split; [done|]. split; [lia|].
    specialize (Hs eq_refl ltac:(vm_compute; discriminate)).
    split; [eapply Forall_impl; [exact HF|]; naive_solver|lia].
  - bools.
    match goal with Hv : validEdits _ _ _ = true |- _ => apply validEdits_texts in Hv as (ts & Em & HF & _) end.
    exists ts. pose proof (length_mapM _ _ _ Em) as Hl. split; [done|]. split; [lia|].
    split; [eapply Forall_impl; [exact HF|]; naive_solver|].
    destruct ts as [|t [|]]; try done. inversion HF as [|? ? (_ & _ & _ & Hb)]; subst.
    specialize (Hb eq_refl). simpl. unfold textBytes. lia.
Qed.

Lemma isValidWorkspaceEditRequest_bounds_witness :
  let r := [(js "edits", JArr [JObj [(js "oldText", JStr (js "a")); (js "newText", JStr (js "bc"))]])] in
  exists texts, mapM editTexts (requestEdits r) = Some texts
    /\ 1 <= length texts <= BRIDGE_WORKSPACE_EDIT_MAX_EDITS
    /\ Forall (fun on => fst on <> [] /\ wellFormed (fst on) = true /\ wellFormed (snd on) = true) texts
    /\ (foldr Z.add 0 (textBytes <$> texts) <= 1 * BRIDGE_WORKSPACE_WRITE_MAX_BYTES)%Z.
Proof.
  apply (isValidWorkspaceEditRequest_bounds
    [(js "edits", JArr [JObj [(js "oldText", JStr (js "a")); (js "newText", JStr (js "bc"))]])]).
  vm_compute. reflexivity.
Defined.
