(* ===== verification/ProtocolCaps.v ===== *)
(** * Capabilities, programmatic bodies and import targets

    Theorems on the remaining validators of packages/code/src/protocol.ts: the
    capability set a worker registers, the body of a programmatic execution and
    the target of an imported file. *)

From stdpp Require Import base list numbers option strings.
From Stdlib Require Import ZArith Lia.
From S2P Require Import Prelude JsString Json Protocol ProtocolKeys ProtocolPaths ProtocolRequests.

(** ** Capabilities *)

Lemma noDuplicates_spec values seen : noDuplicates values seen = true ->
  exists l, values = JStr <$> l /\ NoDup l /\ (forall s, s ∈ l -> s ∉ seen).
Proof.
  revert seen. induction values as [|v values IH]; intros seen.
  - intros _. exists []. split; [done|]. split; [constructor|]. intros s Hs. inversion Hs.
  - destruct v; cbn [noDuplicates]; try done. intros H. bools.
    destruct (IH _ H0) as (l & -> & Hnd & Hs). exists (s :: l). split; [done|]. split.
    + constructor; [|done]. intros Hin. apply (Hs s Hin). by left.
    + intros s' Hin. apply elem_of_cons in Hin as [->|Hin]; [done|]. intros Hseen.
      apply (Hs s' Hin). by right.
Qed.

Definition workspaceId (w : json) : option jstr := asRecord w ≫= fun d => strField d "id".

(** The operations a workspace offers: its own list, or the worker's. *)
Definition workspaceOperations (operations : list json) (w : json) : list json :=
  match asRecord w with Some d => default operations (arrField d "operations") | None => operations end.

Lemma validWorkspace_spec operations seen w id : validWorkspace operations seen w = Some id ->
  workspaceId w = Some id /\ isValidBridgeWorkerId id = true /\ id ∉ seen
  /\ workspaceOperations operations w ⊆ operations.
Proof.
  unfold validWorkspace, workspaceId, workspaceOperations. destruct (asRecord w) as [d|]; [|done].
  cbn [mbind option_bind].
  destruct (strField d "id") as [i|]; [|done]. case_match eqn:E; [|done]. intros [= ->]. bools.
  repeat split; try done. destruct (arrField d "operations") as [ops|] eqn:Eo; [|done].
  match goal with Ho : optional (field d (js "operations")) _ = true |- _ =>
    apply optional_true in Ho as [Ho|Ho]; [unfold arrField in Eo; by rewrite Ho in Eo|] end.
  bools. unfold from_option, Datatypes.id. intros o Ho.
  match goal with Hf : forallb _ ops = true |- _ => rewrite forallb_forall in Hf;
    specialize (Hf o ltac:(by apply list_elem_of_In)) end.
  destruct o; try done. cbn beta iota in *.
  match goal with Hx : existsb _ _ = true |- _ => apply existsb_exists in Hx as (v & Hv & Ev) end.
  apply eqStr_true in Ev. injection Ev as ->. by apply list_elem_of_In.
Qed.

Lemma validWorkspaces_spec operations ws seen : validWorkspaces operations ws seen = true ->
  exists ids, mapM workspaceId ws = Some ids /\ NoDup ids
    /\ Forall (fun id => isValidBridgeWorkerId id = true /\ id ∉ seen) ids
    /\ Forall (fun w => workspaceOperations operations w ⊆ operations) ws.
Proof.
  revert seen. induction ws as [|w ws IH]; intros seen; cbn [validWorkspaces mapM].
  - intros _. exists []. repeat split; constructor.
  - destruct (validWorkspace operations seen w) as [id|] eqn:E; [|done]. intros H.
    apply validWorkspace_spec in E as (Hid & Hv & Hseen & Hops).
    destruct (IH _ H) as (ids & Em & Hnd & HF & HO). exists (id :: ids). rewrite Hid.
    cbn [mbind option_bind]. rewrite Em. split; [done|]. rewrite Forall_forall in HF. split; [|split].
    + constructor; [|done]. intros Hin. destruct (HF id Hin) as [_ Hn]. apply Hn. by left.
    + constructor; [done|]. apply Forall_forall. intros x Hx. destruct (HF x Hx) as [? Hn].
      split; [done|]. intros ?. apply Hn. by right.
    + by constructor.
Qed.

Lemma strIn_OPERATIONS operations :
  forallb (fun o => strIn o OPERATIONS) operations = true ->
  forall o, JStr o ∈ operations -> o ∈ map js OPERATIONS.
Proof.
  rewrite forallb_forall. intros H o Ho. specialize (H (JStr o) ltac:(by apply list_elem_of_In)).
  unfold strIn in H. by bools.
Qed.

(** (C10) An accepted workspace capability set offers distinct known operations
    and between one and thirty-two workspaces with distinct valid identifiers, and
    no workspace offers an operation its worker does not; so an identifier selects
    at most one workspace, and dispatch can rely on the worker-level list. *)
Theorem isValidBridgeWorkspaceToolCapabilities_sound v :
  isValidBridgeWorkspaceToolCapabilities v = true ->
  exists c ops ws ids, asRecord v = Some c
    /\ field c (js "operations") = Some (JArr (JStr <$> ops))
    /\ NoDup ops /\ ops ⊆ map js OPERATIONS /\ 1 <= length ops
    /\ field c (js "workspaces") = Some (JArr ws)
    /\ mapM workspaceId ws = Some ids /\ NoDup ids
    /\ 1 <= length ids <= BRIDGE_WORKSPACE_MAX_COUNT
    /\ Forall (fun id => isValidBridgeWorkerId id = true) ids
    /\ Forall (fun w => workspaceOperations (JStr <$> ops) w ⊆ (JStr <$> ops)) ws.
Proof.
  unfold isValidBridgeWorkspaceToolCapabilities. destruct (asRecord v) as [c|]; [|done].
  destruct (arrField c "operations") as [jops|] eqn:Eo; [|done].
  destruct (arrField c "workspaces") as [ws|] eqn:Ew; [|done]. intros H. bools.
  match goal with Hn : noDuplicates jops [] = true |- _ =>
    apply noDuplicates_spec in Hn as (ops & -> & Hnd & _) end.
  match goal with Hn : validWorkspaces _ _ _ = true |- _ =>
    apply validWorkspaces_spec in Hn as (ids & Hm & Hni & HF & HO) end.
  match goal with Hs : forallb _ (JStr <$> ops) = true |- _ => pose proof (strIn_OPERATIONS _ Hs) as Hin end.
  pose proof (length_mapM _ _ _ Hm). rewrite length_fmap in *.
  exists c, ops, ws, ids. split; [done|].
  split; [unfold arrField in Eo; repeat case_match; naive_solver|]. split; [done|].
  split; [intros o Ho; apply Hin; by apply list_elem_of_fmap_2|]. split; [done|].
  split; [unfold arrField in Ew; repeat case_match; naive_solver|]. split; [done|]. split; [done|].
  split; [lia|]. split; [|done]. eapply Forall_impl; [exact HF|]. naive_solver.
Qed.

Lemma isValidBridgeWorkspaceToolCapabilities_sound_witness :
  let v := JObj [(js "protocolVersion", JInt 1);
                 (js "operations", JArr [JStr (js "read_file"); JStr (js "edit_file")]);
                 (js "workspaces", JArr [JObj [(js "id", JStr (js "a"))];
                    JObj [(js "id", JStr (js "b")); (js "operations", JArr [JStr (js "read_file")])]])] in
  exists c ops ws ids, asRecord v = Some c
    /\ field c (js "operations") = Some (JArr (JStr <$> ops))
    /\ NoDup ops /\ ops ⊆ map js OPERATIONS /\ 1 <= length ops
    /\ field c (js "workspaces") = Some (JArr ws)
    /\ mapM workspaceId ws = Some ids /\ NoDup ids
    /\ 1 <= length ids <= BRIDGE_WORKSPACE_MAX_COUNT
    /\ Forall (fun id => isValidBridgeWorkerId id = true) ids
    /\ Forall (fun w => workspaceOperations (JStr <$> ops) w ⊆ (JStr <$> ops)) ws.
Proof. cbv zeta. apply isValidBridgeWorkspaceToolCapabilities_sound. vm_compute. reflexivity. Defined.

(** ** Programmatic bodies *)

(** A file name of an accepted body: a normalized safe path below the root. *)
Definition body_name (name : jstr) : Prop :=
  safePath name = true /\ name <> [DOT] /\ normalizePortableRelativePath name = name.

Lemma body_name_segments name : body_name name ->
  splitOn SLASH name = entries name /\ entries name <> [] /\ pathName (entries name) = name.
Proof.
  intros (Hs & Hd & Hn). rewrite normalize_pathName in Hn by done.
  assert (entries name <> []) as Hne by (intros E; rewrite E in Hn; by apply Hd).
  pose proof (splitOn_pathName _ (entries_names name Hs)) as E. rewrite Hn, decide_False in E by done. done.
Qed.

Lemma ancestorsFrom_prefix ancestor l k :
  Forall (fun s => s <> []) l -> l <> [] -> k <> [] ->
  (if decide (ancestor = []) then joinWith SLASH l else ancestor ++ SLASH :: joinWith SLASH l)
    ∈ ancestorsFrom ancestor (l ++ k).
Proof.
  intros HF. revert ancestor. induction HF as [|s l Hs HF IH]; intros ancestor Hl Hk; [done|].
  cbn [app ancestorsFrom]. destruct (l ++ k) as [|x r] eqn:E; [by apply app_nil in E as [_ ?]|].
  rewrite <- E. destruct (decide (l = [])) as [->|Hne].
  - destruct (decide (ancestor = [])) as [->|]; [by left|]. destruct ancestor; [done|]. by left.
  - right. set (a := if length ancestor =? 0 then s else ancestor ++ [SLASH] ++ s).
    assert (a <> []) as Ha by (unfold a; destruct ancestor; simpl; [done|by intros [=]]).
    specialize (IH a Hne Hk). rewrite (decide_False _ _ Ha) in IH. rewrite <- E in IH.
    replace (if decide (ancestor = []) then _ else _) with (a ++ SLASH :: joinWith SLASH l); [done|].
    destruct l as [|y l]; [done|]. unfold a.
    destruct (decide (ancestor = [])) as [->|]; [done|].
    destruct ancestor; [done|]. cbn. by rewrite <- !app_assoc.
Qed.

(** [a] names a directory above the file [b]. *)
Definition above (a b : jstr) : Prop :=
  exists la lb k, location a = Some la /\ location b = Some lb /\ k <> [] /\ lb = la ++ k.

Lemma above_ancestor a b : body_name a -> body_name b -> above a b -> a ∈ ancestors b.
Proof.
  intros Ha Hb (la & lb & k & Ela & Elb & Hk & ->).
  destruct (body_name_segments a Ha) as (_ & Hne & Hna).
  destruct (body_name_segments b Hb) as (Hsb & _ & _).
  destruct Ha as (Ha & _), Hb as (Hb & _).
  rewrite safePath_location in Ela, Elb by done. injection Ela as <-. injection Elb as Elb.
  unfold ancestors. rewrite Hsb, Elb.
  pose proof (ancestorsFrom_prefix [] (entries a) k
    (proj1 (entry_names_weaken _ (entries_names a Ha))) Hne Hk) as Hin.
  rewrite decide_True in Hin by done. unfold pathName in Hna. rewrite decide_False in Hna by done.
  by rewrite Hna in Hin.
Qed.

Section programmatic.
Context `{Platform}.

Definition fileName (f : json) : option jstr := asRecord f ≫= fun d => strField d "name".

Lemma programmaticFile_spec names f name b : programmaticFile names f = Some (name, b) ->
  fileName f = Some name /\ body_name name /\ name ∉ names
  /\ (0 <= b <= BRIDGE_WORKSPACE_PROGRAMMATIC_MAX_HISTORY_BYTES)%Z.
Proof.
  unfold programmaticFile, fileName. destruct (asRecord f) as [d|]; [|done]. cbn [mbind option_bind].
  destruct (strField d "name") as [nm|]; [|done]. case_match eqn:E; [done|]. bools. intros Hf.
  assert (nm = name /\ (0 <= b <= BRIDGE_WORKSPACE_PROGRAMMATIC_MAX_HISTORY_BYTES)%Z) as [-> Hb].
  { unfold BRIDGE_WORKSPACE_PROGRAMMATIC_MAX_HISTORY_BYTES, BRIDGE_WORKSPACE_PROGRAMMATIC_MAX_FILE_BYTES in *.
    repeat case_match; simplify_eq; bools; unfold byteLength in *; split; done || lia. }
  done.
Qed.

Lemma programmaticFiles_spec files names bytes names' total :
  programmaticFiles files names bytes = Some (names', total) ->
  Forall body_name names -> NoDup names ->
  exists new, mapM fileName files = Some new /\ names' = rev new ++ names /\ NoDup names'
    /\ Forall body_name names' /\ (bytes <= total)%Z.
Proof.
  revert names bytes. induction files as [|f files IH]; intros names bytes; cbn [programmaticFiles mapM].
  - intros [= -> ->] HF HN. exists []. repeat split; try done; lia.
  - destruct (programmaticFile names f) as [[name b]|] eqn:E; [|done]. intros Hf HF HN.
    apply programmaticFile_spec in E as (Hn & Hb & Hnot & Hpos).
    destruct (IH _ _ Hf ltac:(by constructor) ltac:(by constructor)) as (new & Hm & -> & HN' & HF' & Hle).
    exists (name :: new). rewrite Hn. cbn [mbind option_bind]. rewrite Hm. split; [done|].
    simpl. rewrite <- app_assoc. repeat split; try done; lia.
Qed.

(** The files of an accepted programmatic body can be laid out on disk as
    given: their names are normalized paths below the root, pairwise distinct, and
    no file's name is a directory above another file; the entry script is among
    them. *)
Theorem isBridgeWorkspaceProgrammaticRequest_files v :
  isBridgeWorkspaceProgrammaticRequest v = true ->
  exists r body files names, asRecord v = Some r
    /\ field r (js "body") ≫= asRecord = Some body
    /\ field body (js "files") = Some (JArr files) /\ mapM fileName files = Some names
    /\ length names <= BRIDGE_WORKSPACE_PROGRAMMATIC_MAX_FILES
    /\ NoDup names /\ Forall body_name names /\ js "main.sh" ∈ names
    /\ (forall a b, a ∈ names -> b ∈ names -> ~ above a b).
Proof.
  unfold isBridgeWorkspaceProgrammaticRequest. destruct (asRecord v) as [r|]; [|done].
  destruct (field r (js "headers") ≫= asRecord) as [hd|]; [|done].
  destruct (field r (js "body") ≫= asRecord) as [body|] eqn:Eb; [|done].
  destruct (arrField body "files") as [files|] eqn:Ef; [|intros Hv; by rewrite andb_false_r in Hv].
  intros Hv. bools.
  destruct (programmaticFiles files [] 0) as [[names total]|] eqn:Ep; [|done]. bools.
  apply programmaticFiles_spec in Ep as (new & Hm & -> & HN & HF & _); [|constructor..].
  rewrite app_nil_r in *. pose proof (length_mapM _ _ _ Hm).
  assert (forall x, x ∈ rev new <-> x ∈ new) as Hrev by (intros x; rewrite !list_elem_of_In; symmetry; apply in_rev).
  exists r, body, files, new. split; [done|]. split; [done|].
  split; [unfold arrField in Ef; repeat case_match; naive_solver|]. split; [done|]. split; [lia|].
  rewrite Forall_forall in HF.
  split; [apply NoDup_ListNoDup; rewrite <- (rev_involutive new); by apply NoDup_rev, NoDup_ListNoDup|].
  split; [apply Forall_forall; intros x Hx; by apply HF, Hrev|]. split; [by apply Hrev|].
  intros a b Ha Hb Hab. apply Hrev in Ha, Hb.
  pose proof (above_ancestor a b (HF a Ha) (HF b Hb) Hab) as Hanc.
  match goal with Hx : existsb _ _ = false |- _ => apply not_true_iff_false in Hx; apply Hx end.
  apply existsb_exists. exists b. split; [by apply list_elem_of_In|]. apply existsb_exists.
  exists a. split; [by apply list_elem_of_In|]. by apply bool_decide_eq_true.
Qed.
End programmatic.

Definition programmatic_example : json :=
  JObj [(js "headers", JObj []);
        (js "body", JObj [
           (js "language", JStr (js "bash")); (js "version", JStr (js "5.2"));
           (js "session_id", JStr (js "s1"));
           (js "files", JArr [
              JObj [(js "name", JStr (js "main.sh")); (js "content", JStr (js "echo"))];
              JObj [(js "name", JStr (js "lib/a.sh")); (js "content", JStr (js "true"))]])])].

Lemma isBridgeWorkspaceProgrammaticRequest_files_witness :
  exists r body files names, asRecord programmatic_example = Some r
    /\ field r (js "body") ≫= asRecord = Some body
    /\ field body (js "files") = Some (JArr files) /\ mapM fileName files = Some names
    /\ length names <= BRIDGE_WORKSPACE_PROGRAMMATIC_MAX_FILES
    /\ NoDup names /\ Forall body_name names /\ js "main.sh" ∈ names
    /\ (forall a b, a ∈ names -> b ∈ names -> ~ above a b).
Proof.
  apply (@isBridgeWorkspaceProgrammaticRequest_files asciiPlatform). vm_compute. reflexivity.
Defined.

(** ** Import targets *)

(** What the code relies on of [toLowerCase] and of the ignorable code points:
    on ASCII text they are ASCII lower-casing and the identity. *)
Class PlatformLaws `{Platform} : Prop := {
  toLowerCase_ascii s : Forall (fun c => 0 <= c < 128)%Z s -> toLowerCase s = map asciiLower s;
  stripIgnorable_ascii s : Forall (fun c => 0 <= c < 128)%Z s -> stripIgnorable s = s;
}.

Lemma asciiPlatform_laws : @PlatformLaws asciiPlatform.
Proof. split; done. Qed.

Lemma splitOn_head sep a b : sep ∉ a -> b = [] \/ head b = Some sep -> head (splitOn sep (a ++ b)) = Some a.
Proof.
  intros Ha [->|Hb]; [by rewrite app_nil_r, splitOn_no|].
  destruct b as [|x b]; [done|]. injection Hb as ->. by rewrite splitOn_app.
Qed.

Lemma stripDotsSpaces_app t r :
  Forall (fun c => c = 46 \/ c = 32)%Z t -> stripDotsSpaces (t ++ r) = stripDotsSpaces r.
Proof.
  induction 1 as [|c t Hc Ht IH]; [done|]. cbn [app stripDotsSpaces].
  destruct Hc as [->| ->]; exact IH.
Qed.

Definition GIT_NAMES : list jstr := [js ".git"; js "git~1"].

Section imports.
Context `{PlatformLaws}.

(** A spelling of the Git directory: any letter case, trailing dots and spaces,
    an alternate data stream. *)
Definition git_spelling (s : jstr) : Prop :=
  exists g tail stream, s = g ++ tail ++ stream /\ map asciiLower g ∈ GIT_NAMES
    /\ Forall (fun c => c = 46 \/ c = 32)%Z tail /\ (stream = [] \/ head stream = Some COLON).

Lemma forallb_Forall_ascii s :
  forallb (fun c => (0 <=? c) && (c <? 128) && negb (c =? COLON))%Z s = true ->
  Forall (fun c => 0 <= c < 128 /\ c <> COLON)%Z s.
Proof.
  rewrite forallb_forall, Forall_forall. intros Hs c Hc. apply list_elem_of_In in Hc.
  specialize (Hs c Hc). bools. lia.
Qed.

Lemma git_spelling_ascii g :
  map asciiLower g ∈ GIT_NAMES -> Forall (fun c => 0 <= c < 128 /\ c <> COLON)%Z g.
Proof.
  intros Hg. assert (Forall (fun c => 0 <= c < 128 /\ c <> COLON)%Z (map asciiLower g)) as HF.
  { unfold GIT_NAMES in Hg. apply elem_of_cons in Hg as [->|Hg].
    - apply forallb_Forall_ascii; vm_compute; reflexivity.
    - apply list_elem_of_singleton in Hg as ->. apply forallb_Forall_ascii; vm_compute; reflexivity. }
  clear Hg. induction g as [|c g IH]; [constructor|]. inversion HF as [|? ? Hc Hg]; subst.
  constructor; [|by apply IH]. unfold asciiLower, isUpper, COLON in *.
  destruct ((65 <=? c) && (c <=? 90))%Z eqn:E; bools; lia.
Qed.

Lemma git_name_strip g tail : map asciiLower g ∈ GIT_NAMES ->
  Forall (fun c => c = 46 \/ c = 32)%Z tail ->
  rev (stripDotsSpaces (rev (map asciiLower g ++ tail))) = map asciiLower g.
Proof.
  intros Hg Ht. rewrite rev_app_distr, stripDotsSpaces_app.
  - unfold GIT_NAMES in Hg. apply elem_of_cons in Hg as [->|Hg]; [vm_compute; reflexivity|].
    apply list_elem_of_singleton in Hg as ->. vm_compute. reflexivity.
  - by apply Forall_rev.
Qed.

Lemma git_spelling_refused s : git_spelling s -> isDotGitPathSegment s = true.
Proof.
  intros (g & tail & stream & -> & Hg & Ht & Hs). unfold isDotGitPathSegment.
  pose proof (git_spelling_ascii g Hg) as Ha.
  assert (Forall (fun c => 0 <= c < 128 /\ c <> COLON)%Z (g ++ tail)) as Hall.
  { apply Forall_app_2; [done|]. eapply Forall_impl; [exact Ht|]. unfold COLON. lia. }
  assert (COLON ∉ g ++ tail) as Hcol
    by (intros Hin; rewrite Forall_forall in Hall; by destruct (Hall _ Hin)).
  rewrite app_assoc, (splitOn_head COLON (g ++ tail) stream Hcol Hs). unfold from_option, Datatypes.id.
  assert (map asciiLower (g ++ tail) = map asciiLower g ++ tail) as El.
  { rewrite map_app. f_equal. clear -Ht. induction Ht as [|c t Hc _ IH]; [done|].
    cbn [map]. rewrite IH. f_equal. by destruct Hc as [->| ->]. }
  rewrite toLowerCase_ascii, El, stripIgnorable_ascii, git_name_strip; try done.
  - unfold GIT_NAMES in Hg. apply orb_true_iff. rewrite !bool_decide_eq_true.
    apply elem_of_cons in Hg as [->|Hg]; [by left|]. apply list_elem_of_singleton in Hg. by right.
  - rewrite <- El. apply Forall_map. eapply Forall_impl; [exact Hall|].
    intros c Hc. cbv beta in Hc. unfold compose, asciiLower, isUpper. destruct (_ && _) eqn:E; bools; lia.
  - eapply Forall_impl; [exact Hall|]. intros c Hc. cbv beta in *. lia.
Qed.

(** An import target names a file below the workspace root and never
    reaches into the Git directory: no component of its location is [.git] or its
    short name in any letter case, with trailing dots or spaces, or with a stream
    suffix. *)
Theorem importPath_outside_git p :
  importPath p = true ->
  exists l, location p = Some l /\ l <> [] /\ Forall (fun s => entry_name s /\ ~ git_spelling s) l.
Proof.
  unfold importPath. intros Hp. bools. exists (entries p).
  rewrite safePath_location by done. split; [done|].
  pose proof (entries_names p ltac:(done)) as Hn. split.
  - destruct (last (splitOn SLASH p)) as [x|] eqn:El; unfold from_option, Datatypes.id in *; [|done].
    assert (x ∈ entries p) as Hin; [|intros E; rewrite E in Hin; inversion Hin].
    unfold entries. apply list_elem_of_In, filter_In. split.
    + apply list_elem_of_In. by apply last_Some_elem_of.
    + rewrite bool_decide_eq_false_2 by done. destruct x; done.
  - rewrite Forall_forall in *. intros s Hs. split; [by apply Hn|]. intros Hg.
    apply list_elem_of_In, filter_In in Hs as [Hs _].
    match goal with Hx : existsb _ _ = false |- _ => apply not_true_iff_false in Hx; apply Hx end.
    apply existsb_exists. eauto using git_spelling_refused.
Qed.
End imports.

Lemma importPath_outside_git_witness :
  exists l, location (js "data/in.csv") = Some l /\ l <> []
    /\ Forall (fun s => entry_name s /\ ~ git_spelling s) l.
Proof.
  apply (@importPath_outside_git asciiPlatform asciiPlatform_laws). vm_compute. reflexivity.
Defined.

