(* ===== verification/Redis.v ===== *)
(** * The Redis server

    The bridge of service/src/bridge keeps its whole state in a Redis server and
    changes it with Lua scripts the server runs atomically. The server is not code
    of the repository: it is the parameter [RedisServer], an arbitrary database
    with a function that executes one command, and its single law
    [redis_documented] says that the effect of each command on the keyspace is the
    documented one ([exec] below). A script is a [prog], a tree of commands; a
    theorem about a script holds of every server that obeys the law.
    [reference_server] is the keyspace itself, used to evaluate scripts on
    concrete states. No definition of this file is mapped to a source line. *)

From stdpp Require Import base list numbers option strings gmap fin_maps.
From Stdlib Require Import ZArith Lia DecimalString DecimalZ.
From S2P Require Import Prelude JsString.

(** ** Numbers as strings *)

Fixpoint unjs (s : jstr) : string :=
  match s with
  | [] => EmptyString
  | c :: s' => String (Ascii.ascii_of_N (Z.to_N c)) (unjs s')
  end.

Lemma unjs_js s : unjs (js s) = s.
Proof.
  induction s as [|c s IH]; [done|]. cbn [js unjs]. by rewrite IH, N2Z.id, Ascii.ascii_N_embedding.
Qed.

Lemma js_inj s t : js s = js t -> s = t.
Proof. intros E. by rewrite <- (unjs_js s), <- (unjs_js t), E. Qed.

(** [String(n)] of an integer and Lua's [tonumber] of an integer literal. *)
Definition dec (n : Z) : jstr := js (NilZero.string_of_int (Z.to_int n)).

(** A literal whose units are not those of its text is not a number. *)
Definition tonumber (s : jstr) : option Z :=
  if bool_decide (js (unjs s) = s) then Z.of_int <$> NilZero.int_of_string (unjs s) else None.

Lemma tonumber_dec n : tonumber (dec n) = Some n.
Proof.
  unfold tonumber, dec. rewrite unjs_js, bool_decide_eq_true_2 by done.
  rewrite NilZero.isi; [|destruct n; simpl; intros [=]; by eapply DecimalPos.Unsigned.to_uint_nonnil..].
  simpl. by rewrite DecimalZ.of_to.
Qed.

Lemma dec_inj n m : dec n = dec m -> n = m.
Proof. intros E. apply (f_equal tonumber) in E. rewrite !tonumber_dec in E. congruence. Qed.

(** ** The keyspace *)

(** A sorted set is its listing by score, then by member. *)
Inductive rvalue :=
| VStr (s : jstr)
| VHash (fields : gmap jstr jstr)
| VZset (members : list (Z * jstr))
| VList (items : list jstr)
| VSet (members : gset jstr).

Record entry := Entry { e_val : rvalue; e_exp : option Z }.

Abbreviation keyspace := (@gmap jstr (@list_eq_dec Z Z.eq_dec) (@list_countable Z Z.eq_dec Z_countable) entry).

(** A key past its expiry is absent. *)
Definition alive (now : Z) (e : entry) : bool :=
  match e_exp e with Some t => (now <=? t)%Z | None => true end.

Definition find (now : Z) (ks : keyspace) (k : jstr) : option entry :=
  match ks !! k with Some e => if alive now e then Some e else None | None => None end.

(** Relative and absolute expiry options. *)
Inductive ttl := NOTTL | EX (seconds : Z) | PX (ms : Z) | PXAT (at_ms : Z).

Definition expiry (now : Z) (t : ttl) : option Z :=
  match t with
  | NOTTL => None
  | EX s => Some (now + s * 1000)%Z
  | PX ms => Some (now + ms)%Z
  | PXAT at_ms => Some at_ms
  end.

(** Lexicographic order of members with equal scores. *)
Fixpoint lex (a b : jstr) : bool :=
  match a, b with
  | [], _ :: _ => true
  | x :: a', y :: b' => (x <? y)%Z || ((x =? y)%Z && lex a' b')
  | _, [] => false
  end.

Definition zbefore (a b : Z * jstr) : bool :=
  (fst a <? fst b)%Z || ((fst a =? fst b)%Z && lex (snd a) (snd b)).

Fixpoint zinsert (x : Z * jstr) (l : list (Z * jstr)) : list (Z * jstr) :=
  match l with
  | [] => [x]
  | y :: l' => if zbefore x y then x :: l else y :: zinsert x l'
  end.

Definition zremove (m : jstr) (l : list (Z * jstr)) : list (Z * jstr) :=
  List.filter (fun x => negb (bool_decide (snd x = m))) l.

Definition zscore (m : jstr) (l : list (Z * jstr)) : option Z :=
  fst <$> List.find (fun x => bool_decide (snd x = m)) l.

Fixpoint zrank (m : jstr) (l : list (Z * jstr)) : option nat :=
  match l with
  | [] => None
  | x :: l' => if bool_decide (snd x = m) then Some 0 else S <$> zrank m l'
  end.

(** ** Commands *)

Inductive cmd : Type -> Type :=
| GET (k : jstr) : cmd (option jstr)
| SET (k v : jstr) (t : ttl) (nx : bool) : cmd bool
| EXISTS (k : jstr) : cmd bool
| DEL (ks : list jstr) : cmd Z
| INCR (k : jstr) : cmd Z
| PTTL (k : jstr) : cmd Z
| TTL (k : jstr) : cmd Z
| PEXPIREAT (k : jstr) (t : ttl) : cmd unit
| PERSIST (k : jstr) : cmd unit
| HGET (k f : jstr) : cmd (option jstr)
| HSET (k : jstr) (fvs : list (jstr * jstr)) : cmd unit
| HDEL (k : jstr) (fs : list jstr) : cmd unit
| HLEN (k : jstr) : cmd Z
| HINCRBY (k f : jstr) (n : Z) : cmd Z
| HKEYS (k : jstr) : cmd (list jstr)
| TYPE (k : jstr) : cmd jstr
| ZADD (k : jstr) (score : Z) (m : jstr) : cmd unit
| ZREM (k m : jstr) : cmd unit
| ZSCORE (k m : jstr) : cmd (option Z)
| ZCARD (k : jstr) : cmd Z
| ZRANGE (k : jstr) (stop : nat) : cmd (list jstr)          (* from index 0 to stop *)
| ZRANGEBYSCORE (k : jstr) (max : Z) : cmd (list jstr)      (* from -inf *)
| ZLAST (k : jstr) : cmd (option (Z * jstr))                (* ZREVRANGE k 0 0 WITHSCORES *)
| ZRANK (k m : jstr) : cmd (option nat)
| LPOP (k : jstr) : cmd (option jstr)
| RPUSH (k v : jstr) : cmd unit
| LPUSH (k v : jstr) : cmd unit
| LREM (k v : jstr) : cmd Z
| SADD (k m : jstr) : cmd unit
| SREM (k m : jstr) : cmd unit
| SMEMBERS (k : jstr) : cmd (list jstr)
| TIME : cmd (Z * Z).

(** Containers as the commands read them: an absent key is the empty one, and a
    key of another type is an error. *)
Definition as_str (e : option entry) : option (option jstr) :=
  match e with
  | None => Some None
  | Some (Entry (VStr s) _) => Some (Some s)
  | _ => None
  end.
Definition as_hash (e : option entry) : option (gmap jstr jstr) :=
  match e with None => Some ∅ | Some (Entry (VHash h) _) => Some h | _ => None end.
Definition as_zset (e : option entry) : option (list (Z * jstr)) :=
  match e with None => Some [] | Some (Entry (VZset z) _) => Some z | _ => None end.
Definition as_list (e : option entry) : option (list jstr) :=
  match e with None => Some [] | Some (Entry (VList l) _) => Some l | _ => None end.
Definition as_set (e : option entry) : option (gset jstr) :=
  match e with None => Some ∅ | Some (Entry (VSet m) _) => Some m | _ => None end.

(** A write keeps the key's expiry; an emptied container is removed. *)
Definition keep (now : Z) (ks : keyspace) (k : jstr) (v : rvalue) : keyspace :=
  <[k := Entry v (find now ks k ≫= e_exp)]> ks.

Definition put_hash (now : Z) (ks : keyspace) (k : jstr) (h : gmap jstr jstr) : keyspace :=
  if decide (h = ∅) then delete k ks else keep now ks k (VHash h).
Definition put_zset (now : Z) (ks : keyspace) (k : jstr) (z : list (Z * jstr)) : keyspace :=
  if decide (z = []) then delete k ks else keep now ks k (VZset z).
Definition put_list (now : Z) (ks : keyspace) (k : jstr) (l : list jstr) : keyspace :=
  if decide (l = []) then delete k ks else keep now ks k (VList l).
Definition put_set (now : Z) (ks : keyspace) (k : jstr) (m : gset jstr) : keyspace :=
  if decide (m = ∅) then delete k ks else keep now ks k (VSet m).

Definition pttl (now : Z) (e : option entry) : Z :=
  match e with
  | None => (-2)%Z
  | Some e => match e_exp e with None => (-1)%Z | Some t => (t - now)%Z end
  end.

Definition count_live (now : Z) (ks : keyspace) (keys : list jstr) : Z :=
  Z.of_nat (length (List.filter (fun k => bool_decide (is_Some (find now ks k))) keys)).

Definition typeName (e : option entry) : jstr :=
  js match e with
     | None => "none"
     | Some (Entry (VStr _) _) => "string" | Some (Entry (VHash _) _) => "hash" | Some (Entry (VZset _) _) => "zset"
     | Some (Entry (VList _) _) => "list" | Some (Entry (VSet _) _) => "set"
     end.

(** [INCR] and [HINCRBY] work on 64-bit integers. *)
Definition isInt64 (n : Z) : bool := ((- 2 ^ 63 <=? n) && (n <? 2 ^ 63))%Z.

Lemma int64_next n : (0 <= n < 2 ^ 63 - 1)%Z -> isInt64 n && isInt64 (n + 1) = true.
Proof. intros Hn. unfold isInt64. rewrite !andb_true_iff, !Z.leb_le, !Z.ltb_lt. lia. Qed.

Lemma int64_full n : (2 ^ 63 - 1 <= n)%Z -> isInt64 n && isInt64 (n + 1) = false.
Proof. intros Hn. unfold isInt64. rewrite !andb_false_iff, !Z.ltb_ge. lia. Qed.

(** The effect and reply of one command at Redis time [now]; [None] is an error
    reply, which changes nothing and stops the script. *)
Definition exec {R} (c : cmd R) (now : Z) (ks : keyspace) : option (keyspace * R) :=
  match c with
  | GET k => v ← as_str (find now ks k); Some (ks, v)
  | SET k v t nx =>
      if nx && bool_decide (is_Some (find now ks k)) then Some (ks, false)
      else Some (<[k := Entry (VStr v) (expiry now t)]> ks, true)
  | EXISTS k => Some (ks, bool_decide (is_Some (find now ks k)))
  | DEL keys => Some (foldr (fun k m => delete k m) ks keys, count_live now ks keys)
  | INCR k =>
      v ← as_str (find now ks k);
      n ← match v with None => Some 0%Z | Some s => tonumber s end;
      if isInt64 n && isInt64 (n + 1) then Some (keep now ks k (VStr (dec (n + 1))), (n + 1)%Z) else None
  | PTTL k => Some (ks, pttl now (find now ks k))
  | TTL k =>
      let p := pttl now (find now ks k) in
      Some (ks, if (p <? 0)%Z then p else ((p + 500) / 1000)%Z)
  | PEXPIREAT k t =>
      match find now ks k, expiry now t with
      | Some e, Some at_ms =>
          Some (if (at_ms <=? now)%Z then delete k ks else <[k := Entry (e_val e) (Some at_ms)]> ks, tt)
      | _, _ => Some (ks, tt)
      end
  | PERSIST k =>
      Some (match find now ks k with Some e => <[k := Entry (e_val e) None]> ks | None => ks end, tt)
  | HGET k f => h ← as_hash (find now ks k); Some (ks, h !! f)
  | HSET k fvs =>
      h ← as_hash (find now ks k);
      Some (put_hash now ks k (foldl (fun h fv => <[fst fv := snd fv]> h) h fvs), tt)
  | HDEL k fs =>
      h ← as_hash (find now ks k); Some (put_hash now ks k (foldr (fun f m => delete f m) h fs), tt)
  | HLEN k => h ← as_hash (find now ks k); Some (ks, Z.of_nat (size h))
  | HINCRBY k f n =>
      h ← as_hash (find now ks k);
      v ← match h !! f with None => Some 0%Z | Some s => tonumber s end;
      if isInt64 v && isInt64 (v + n) then Some (put_hash now ks k (<[f := dec (v + n)]> h), (v + n)%Z) else None
  | HKEYS k => h ← as_hash (find now ks k); Some (ks, fst <$> map_to_list h)
  | TYPE k => Some (ks, typeName (find now ks k))
  | ZADD k score m =>
      z ← as_zset (find now ks k); Some (put_zset now ks k (zinsert (score, m) (zremove m z)), tt)
  | ZREM k m => z ← as_zset (find now ks k); Some (put_zset now ks k (zremove m z), tt)
  | ZSCORE k m => z ← as_zset (find now ks k); Some (ks, zscore m z)
  | ZCARD k => z ← as_zset (find now ks k); Some (ks, Z.of_nat (length z))
  | ZRANGE k stop => z ← as_zset (find now ks k); Some (ks, snd <$> take (S stop) z)
  | ZRANGEBYSCORE k max =>
      z ← as_zset (find now ks k); Some (ks, snd <$> List.filter (fun x => (fst x <=? max)%Z) z)
  | ZLAST k => z ← as_zset (find now ks k); Some (ks, last z)
  | ZRANK k m => z ← as_zset (find now ks k); Some (ks, zrank m z)
  | LPOP k =>
      l ← as_list (find now ks k);
      match l with
      | [] => Some (ks, None)
      | x :: l' => Some (put_list now ks k l', Some x)
      end
  | RPUSH k v => l ← as_list (find now ks k); Some (put_list now ks k (l ++ [v]), tt)
  | LPUSH k v => l ← as_list (find now ks k); Some (put_list now ks k (v :: l), tt)
  | LREM k v =>
      l ← as_list (find now ks k);
      let l' := List.filter (fun x => negb (bool_decide (x = v))) l in
      Some (put_list now ks k l', (Z.of_nat (length l) - Z.of_nat (length l'))%Z)
  | SADD k m => s ← as_set (find now ks k); Some (put_set now ks k ({[m]} ∪ s), tt)
  | SREM k m => s ← as_set (find now ks k); Some (put_set now ks k (s ∖ {[m]}), tt)
  | SMEMBERS k => s ← as_set (find now ks k); Some (ks, elements s)
  | TIME => Some (ks, (now / 1000, now mod 1000 * 1000)%Z)
  end.

(** ** Scripts *)

(** A script: a value, a command and its continuation, or a Lua error. *)
Inductive prog (A : Type) : Type :=
| Ret (a : A)
| Call {R : Type} (c : cmd R) (k : R -> prog A)
| Crash.
Arguments Ret {A} a.
Arguments Call {A R} c k.
Arguments Crash {A}.

Fixpoint pbind {A B} (p : prog A) (f : A -> prog B) : prog B :=
  match p with
  | Ret a => f a
  | Call c k => Call c (fun r => pbind (k r) f)
  | Crash => Crash
  end.

#[global] Instance prog_ret : MRet prog := fun _ => Ret.
#[global] Instance prog_bind : MBind prog := fun _ _ f p => pbind p f.

(** Issue one command. *)
Definition rd {R} (c : cmd R) : prog R := Call c Ret.

(** A value Lua needs to be present: [nil] in arithmetic is an error. *)
Definition need {A} (o : option A) : prog A := match o with Some a => Ret a | None => Crash end.

(** [redis.call('GET', k) ~= v]: an absent key equals no string. *)
Definition neqStr (o : option jstr) (v : jstr) : bool := negb (bool_decide (o = Some v)).

(** ** Servers *)

Class RedisServer (db : Type) := {
  content : db -> keyspace;
  command : forall R, cmd R -> Z -> db -> db * option R;
  redis_documented : forall R (c : cmd R) now s,
    match exec c now (content s) with
    | Some (ks, r) => content (fst (command R c now s)) = ks /\ snd (command R c now s) = Some r
    | None => content (fst (command R c now s)) = content s /\ snd (command R c now s) = None
    end;
}.

(** Run a script atomically at time [now]; the second component is [None] when it
    stopped with an error. *)
Fixpoint run {db} `{RedisServer db} {A} (p : prog A) (now : Z) (s : db) : db * option A :=
  match p with
  | Ret a => (s, Some a)
  | Call c k =>
      match command _ c now s with
      | (s', Some r) => run (k r) now s'
      | (s', None) => (s', None)
      end
  | Crash => (s, None)
  end.

(** The script on the keyspace alone. *)
Fixpoint eval {A} (p : prog A) (now : Z) (ks : keyspace) : keyspace * option A :=
  match p with
  | Ret a => (ks, Some a)
  | Call c k =>
      match exec c now ks with
      | Some (ks', r) => eval (k r) now ks'
      | None => (ks, None)
      end
  | Crash => (ks, None)
  end.

(** Every server runs a script to the keyspace and the reply of [eval]. *)
Lemma run_eval {db} `{RedisServer db} {A} (p : prog A) now s :
  content (fst (run p now s)) = fst (eval p now (content s))
  /\ snd (run p now s) = snd (eval p now (content s)).
Proof.
  revert s. induction p as [a|R c k IH|]; intros s; cbn [run eval]; [done| |done].
  pose proof (redis_documented R c now s) as L.
  destruct (exec c now (content s)) as [[ks r]|], (command R c now s) as [s' [r'|]]; simpl in L;
    destruct L as [L1 L2]; simplify_eq; try done.
Qed.

Lemma run_eval_eq {db} `{RedisServer db} {A} (p : prog A) now s s' r :
  run p now s = (s', r) -> eval p now (content s) = (content s', r).
Proof.
  intros E. destruct (run_eval p now s) as [L1 L2]. rewrite E in L1, L2. simpl in *.
  rewrite L1, L2. by destruct (eval _ _ _).
Qed.

(** The keyspace as a server. *)
Definition reference_command (R : Type) (c : cmd R) (now : Z) (ks : keyspace) : keyspace * option R :=
  match exec c now ks with Some (ks', r) => (ks', Some r) | None => (ks, None) end.

Lemma reference_documented R (c : cmd R) now ks :
  match exec c now ks with
  | Some (ks', r) => fst (reference_command R c now ks) = ks' /\ snd (reference_command R c now ks) = Some r
  | None => fst (reference_command R c now ks) = ks /\ snd (reference_command R c now ks) = None
  end.
Proof. unfold reference_command. by destruct (exec c now ks) as [[]|]. Qed.

#[global] Instance reference_server : RedisServer keyspace := {|
  content ks := ks;
  command := reference_command;
  redis_documented := reference_documented;
|}.

Lemma eval_bind {A B} (p : prog A) (f : A -> prog B) now ks :
  eval (p ≫= f) now ks =
    match eval p now ks with (ks', Some a) => eval (f a) now ks' | (ks', None) => (ks', None) end.
Proof.
  unfold mbind, prog_bind. revert ks. induction p as [a|R c k IH|]; intros ks; cbn [pbind eval]; try done.
  destruct (exec c now ks) as [[ks' r]|]; [apply IH|done].
Qed.

(** ** Reads after writes *)

Lemma find_insert_eq now ks k e : find now (<[k := e]> ks) k = if alive now e then Some e else None.
Proof. unfold find. by rewrite lookup_insert_eq. Qed.

Lemma find_insert_ne now ks k k' e : k <> k' -> find now (<[k := e]> ks) k' = find now ks k'.
Proof. intros H. unfold find. by rewrite lookup_insert_ne. Qed.

Lemma find_delete_eq now ks k : find now (delete k ks) k = None.
Proof. unfold find. by rewrite lookup_delete_eq. Qed.

Lemma find_delete_ne now ks k k' : k <> k' -> find now (delete k ks) k' = find now ks k'.
Proof. intros H. unfold find. by rewrite lookup_delete_ne. Qed.

Lemma find_alive now ks k e : find now ks k = Some e -> alive now e = true.
Proof. unfold find. destruct (ks !! k) as [e'|]; [|done]. destruct (alive now e') eqn:E; naive_solver. Qed.

(** The expiry a write keeps is not in the past. *)
Lemma kept_alive now ks k v : alive now (Entry v (find now ks k ≫= e_exp)) = true.
Proof.
  destruct (find now ks k) as [e|] eqn:E; simpl; [|done].
  apply find_alive in E. by destruct e as [? []].
Qed.

Lemma find_keep_eq now ks k v :
  find now (keep now ks k v) k = Some (Entry v (find now ks k ≫= e_exp)).
Proof. unfold keep. by rewrite find_insert_eq, kept_alive. Qed.

Lemma find_keep_ne now ks k k' v : k <> k' -> find now (keep now ks k v) k' = find now ks k'.
Proof. apply find_insert_ne. Qed.

Lemma find_dels_ne now ks keys k : k ∉ keys -> find now (foldr (fun k m => delete k m) ks keys) k = find now ks k.
Proof.
  induction keys as [|k' keys IH]; [done|]. rewrite not_elem_of_cons. intros [H1 H2]. simpl.
  rewrite find_delete_ne by done. by apply IH.
Qed.

Lemma find_dels_in now ks keys k : k ∈ keys -> find now (foldr (fun k m => delete k m) ks keys) k = None.
Proof.
  induction 1 as [k keys|k k' keys _ IH]; simpl; [apply find_delete_eq|].
  destruct (decide (k' = k)) as [->|]; [apply find_delete_eq|]. by rewrite find_delete_ne.
Qed.

Lemma zset_put_eq now ks k z : as_zset (find now (put_zset now ks k z) k) = Some z.
Proof.
  unfold put_zset. destruct (decide (z = [])) as [->|]; [by rewrite find_delete_eq|].
  by rewrite find_keep_eq.
Qed.

Lemma zset_put_ne now ks k k' z : k <> k' -> find now (put_zset now ks k z) k' = find now ks k'.
Proof.
  intros H. unfold put_zset. case_decide; [by apply find_delete_ne|by apply find_keep_ne].
Qed.

Lemma hash_put_eq now ks k h : as_hash (find now (put_hash now ks k h) k) = Some h.
Proof.
  unfold put_hash. destruct (decide (h = ∅)) as [->|]; [by rewrite find_delete_eq|].
  by rewrite find_keep_eq.
Qed.

Lemma hash_put_ne now ks k k' h : k <> k' -> find now (put_hash now ks k h) k' = find now ks k'.
Proof.
  intros H. unfold put_hash. case_decide; [by apply find_delete_ne|by apply find_keep_ne].
Qed.

Lemma list_put_eq now ks k l : as_list (find now (put_list now ks k l) k) = Some l.
Proof.
  unfold put_list. destruct (decide (l = [])) as [->|]; [by rewrite find_delete_eq|].
  by rewrite find_keep_eq.
Qed.

(** [PEXPIREAT] into the future keeps every value. *)
Lemma expireat_future now ks k at_ms : (now < at_ms)%Z ->
  exists ks', exec (PEXPIREAT k (PXAT at_ms)) now ks = Some (ks', tt)
    /\ (forall k', k <> k' -> find now ks' k' = find now ks k')
    /\ find now ks' k = (fun e => Entry (e_val e) (Some at_ms)) <$> find now ks k.
Proof.
  intros H. cbn [exec expiry]. destruct (find now ks k) as [e|] eqn:E.
  - rewrite (proj2 (Z.leb_gt _ _)) by done. eexists. split; [done|]. split.
    + intros k' Hk. by apply find_insert_ne.
    + rewrite find_insert_eq. unfold alive. cbn [e_exp]. by rewrite (proj2 (Z.leb_le _ _)) by lia.
  - eexists. split; [done|]. split; [done|]. by rewrite E.
Qed.

(** Sorted sets. *)
Lemma zremove_notin m z : m ∉ z.*2 -> zremove m z = z.
Proof.
  unfold zremove. induction z as [|x z IH]; [done|]. cbn [fmap list_fmap List.filter].
  rewrite not_elem_of_cons. intros [H1 H2]. rewrite bool_decide_eq_false_2 by done. simpl. by rewrite IH.
Qed.

(** A member with the greatest score goes last. *)
Lemma zinsert_last x z : Forall (fun y => fst y < fst x)%Z z -> zinsert x z = z ++ [x].
Proof.
  induction 1 as [|y z Hy Hz IH]; [done|]. cbn [zinsert app]. unfold zbefore.
  rewrite (proj2 (Z.ltb_ge _ _)) by lia. rewrite (proj2 (Z.eqb_neq _ _)) by lia. simpl. by rewrite IH.
Qed.

Lemma zinsert_perm x z : zinsert x z ≡ₚ x :: z.
Proof.
  induction z as [|y z IH]; [done|]. cbn [zinsert]. destruct (zbefore x y); [done|].
  rewrite IH. by constructor.
Qed.

Lemma zscore_none m z : zscore m z = None <-> m ∉ z.*2.
Proof.
  unfold zscore. induction z as [|x z IH]; simpl; [split; [intros _ H; inversion H|done]|].
  rewrite not_elem_of_cons. case_bool_decide; simpl; [naive_solver|]. rewrite IH. naive_solver.
Qed.

(** ** Stepping through a script *)

Lemma eval_step {R A} (c : cmd R) (f : R -> prog A) now ks ks' r :
  exec c now ks = Some (ks', r) -> eval (rd c ≫= f) now ks = eval (f r) now ks'.
Proof. intros H. unfold rd, mbind, prog_bind. cbn [pbind eval]. by rewrite H. Qed.

(** [cmd_step]: run the next command of the script, reading its key through the
    hypotheses of the context. *)
Ltac cmd_step :=
  erewrite eval_step by
    (cbn [exec];
     repeat match goal with
     | H : as_zset (find _ _ ?k) = Some _ |- context [as_zset (find _ _ ?k)] => rewrite H; cbn [mbind option_bind]
     | H : as_hash (find _ _ ?k) = Some _ |- context [as_hash (find _ _ ?k)] => rewrite H; cbn [mbind option_bind]
     | H : as_list (find _ _ ?k) = Some _ |- context [as_list (find _ _ ?k)] => rewrite H; cbn [mbind option_bind]
     | H : as_set (find _ _ ?k) = Some _ |- context [as_set (find _ _ ?k)] => rewrite H; cbn [mbind option_bind]
     | H : as_str (find _ _ ?k) = Some _ |- context [as_str (find _ _ ?k)] => rewrite H; cbn [mbind option_bind]
     end; reflexivity).

(** ** Frames and postconditions *)

(** The keys a command may change. *)
Definition writes {R} (c : cmd R) : list jstr :=
  match c with
  | SET k _ _ _ | INCR k | PEXPIREAT k _ | PERSIST k | HSET k _ | HDEL k _ | HINCRBY k _ _ | ZADD k _ _ | ZREM k _
  | LPOP k | RPUSH k _ | LPUSH k _ | LREM k _ | SADD k _ | SREM k _ => [k]
  | DEL ks => ks
  | _ => []
  end.

Lemma delete_frame (ks : keyspace) keys k :
  k ∉ keys -> foldr (fun k m => delete k m) ks keys !! k = ks !! k.
Proof.
  induction keys as [|k' keys IH]; [done|]. rewrite not_elem_of_cons. intros [H1 H2]. simpl.
  rewrite lookup_delete_ne by done. by apply IH.
Qed.

Lemma delete_in (ks : keyspace) keys k : k ∈ keys -> foldr (fun k m => delete k m) ks keys !! k = None.
Proof.
  induction keys as [|k' keys IH]; [intros H; inversion H|]. rewrite elem_of_cons. intros Hk. simpl.
  destruct (decide (k' = k)) as [->|]; [by rewrite lookup_delete_eq|]. rewrite lookup_delete_ne by done.
  apply IH. naive_solver.
Qed.

Lemma keep_frame now ks k k' v : k' <> k -> keep now ks k v !! k' = ks !! k'.
Proof. intros H. unfold keep. by rewrite lookup_insert_ne. Qed.

Lemma exec_frame {R} (c : cmd R) now ks ks' r k :
  exec c now ks = Some (ks', r) -> k ∉ writes c -> ks' !! k = ks !! k.
Proof.
  destruct c; cbn [exec writes]; unfold put_hash, put_zset, put_list, put_set; intros E Hk;
    rewrite ?list_elem_of_singleton in Hk;
    repeat (case_match || (apply bind_Some in E as (? & ? & E))); simplify_eq; try done;
    rewrite ?lookup_insert_ne, ?lookup_delete_ne, ?keep_frame by done; try done.
  by apply delete_frame.
Qed.

(** Every command the script may issue satisfies [P]. *)
Fixpoint commands {A} (P : forall R, cmd R -> Prop) (p : prog A) : Prop :=
  match p with
  | Ret _ | Crash => True
  | Call c k => P _ c /\ forall r, commands P (k r)
  end.

Lemma commands_bind {A B} P (p : prog A) (f : A -> prog B) :
  commands P p -> (forall a, commands P (f a)) -> commands P (p ≫= f).
Proof.
  unfold mbind, prog_bind. induction p as [a|R c k IH|]; cbn [commands pbind]; [auto| |done].
  intros [Hc Hk] Hf. split; [done|]. intros r. by apply IH.
Qed.

Definition avoids (key : jstr) {A} (p : prog A) : Prop := commands (fun R c => key ∉ writes c) p.

Lemma eval_avoids {A} (key : jstr) (p : prog A) (now : Z) (ks : keyspace) :
  avoids key p -> fst (eval p now ks) !! key = ks !! key.
Proof.
  unfold avoids. revert ks. induction p as [a|R c k IH|]; intros ks; cbn [commands eval]; try done.
  intros [Hc Hk]. destruct (exec c now ks) as [[ks' r]|] eqn:E; [|done].
  rewrite IH by done. by eapply exec_frame.
Qed.

(** [wp p now ks Q]: the script ends in a state and a result that satisfy [Q];
    the result is [None] when it stopped with an error. *)
Definition wp {A} (p : prog A) (now : Z) (ks : keyspace) (Q : option A -> keyspace -> Prop) : Prop :=
  Q (snd (eval p now ks)) (fst (eval p now ks)).

Lemma wp_ret {A} (a : A) (now : Z) (ks : keyspace) (Q : option A -> keyspace -> Prop) : Q (Some a) ks -> wp (Ret a) now ks Q.
Proof. done. Qed.

Lemma wp_bind {A B} (p : prog A) (f : A -> prog B) (now : Z) (ks : keyspace) (Q : option B -> keyspace -> Prop) :
  wp p now ks (fun r ks' => match r with Some a => wp (f a) now ks' Q | None => Q None ks' end) ->
  wp (p ≫= f) now ks Q.
Proof. unfold wp. rewrite eval_bind. destruct (eval p now ks) as [ks' [a|]]; done. Qed.

Lemma wp_mono {A} (p : prog A) (now : Z) (ks : keyspace) (Q Q' : option A -> keyspace -> Prop) :
  wp p now ks Q -> (forall r ks', Q r ks' -> Q' r ks') -> wp p now ks Q'.
Proof. unfold wp. auto. Qed.

Lemma wp_and {A} (p : prog A) (now : Z) (ks : keyspace) (Q Q' : option A -> keyspace -> Prop) :
  wp p now ks Q -> wp p now ks Q' -> wp p now ks (fun r ks' => Q r ks' /\ Q' r ks').
Proof. unfold wp. auto. Qed.

Lemma wp_true {A} (p : prog A) (now : Z) (ks : keyspace) : wp p now ks (fun _ _ => True).
Proof. done. Qed.

Lemma wp_cmd {R} (c : cmd R) (now : Z) (ks : keyspace) (Q : option R -> keyspace -> Prop) :
  (forall ks' r, exec c now ks = Some (ks', r) -> Q (Some r) ks') -> (exec c now ks = None -> Q None ks) ->
  wp (rd c) now ks Q.
Proof. unfold wp, rd. cbn [eval]. destruct (exec c now ks) as [[ks' r]|]; simpl; auto. Qed.

(** A command whose outcome is known. *)
Lemma wp_known {R} (c : cmd R) (now : Z) (ks ks' : keyspace) r (Q : option R -> keyspace -> Prop) :
  exec c now ks = Some (ks', r) -> Q (Some r) ks' -> wp (rd c) now ks Q.
Proof. intros E HQ. apply wp_cmd; intros *; rewrite E; [|done]. by intros [= <- <-]. Qed.

Lemma wp_need {A} (o : option A) (now : Z) (ks : keyspace) (Q : option A -> keyspace -> Prop) :
  Q o ks -> wp (need o) now ks Q.
Proof. by destruct o. Qed.

Lemma exec_read {R} (c : cmd R) now ks ks' r : writes c = [] -> exec c now ks = Some (ks', r) -> ks' = ks.
Proof.
  destruct c; cbn [exec writes]; intros W E; try discriminate W; subst;
    repeat (case_match || (apply bind_Some in E as (? & ? & E))); by simplify_eq.
Qed.

Lemma wp_read {R A} (c : cmd R) (f : R -> prog A) (now : Z) (ks : keyspace) (Q : option A -> keyspace -> Prop) :
  writes c = [] -> (forall r, wp (f r) now ks Q) -> Q None ks -> wp (rd c ≫= f) now ks Q.
Proof.
  intros W Hf Hn. apply wp_bind, wp_cmd; [|done]. intros ks' r E.
  by rewrite (exec_read c now ks ks' r W E).
Qed.

(** A script that avoids a key keeps what is known of it. *)
Lemma wp_avoids {A} (key : jstr) (p : prog A) (now : Z) (ks : keyspace) :
  avoids key p -> wp p now ks (fun _ ks' => ks' !! key = ks !! key).
Proof. intros H. unfold wp. by apply eval_avoids. Qed.

Lemma run_wp {db} `{RedisServer db} {A} (p : prog A) (now : Z) (s s' : db) r Q :
  run p now s = (s', r) -> wp p now (content s) Q -> Q r (content s').
Proof. intros E. apply run_eval_eq in E. unfold wp. by rewrite E. Qed.

(** Name the final state of a run from its result alone. *)
Lemma run_result {db} `{RedisServer db} {A} (p : prog A) (now : Z) (s : db) r :
  snd (run p now s) = r -> run p now s = (fst (run p now s), r).
Proof. intros <-. by destruct (run p now s). Qed.
