(* ===== verification/EditDiagnostics.v ===== *)
(** * Diagnostics of a rejected batch of edits

    Models the second half of packages/code/src/edits.ts: the sentence for each edit
    that did not apply, the excerpt of the current text, and the message of
    [WorkspaceEditMatchError], which has to fit the error body a host reads. The
    Unicode classes of [ANCHOR_LINE] are the parameter [UnicodeTables]. *)

From stdpp Require Import base list numbers option strings gmap.
From Stdlib Require Import ZArith Lia.
From S2P Require Import Prelude Kmp JsString Edits Json Redis.

Class UnicodeTables := { isLetterOrNumber : Z -> bool }.  (* [\p{L}\p{N}] *)

Definition EDIT_DIAGNOSTIC_MAX_CHARS : Z := 3000%Z.
Definition EDIT_DIAGNOSTIC_MAX_BODY_BYTES : Z := 3800%Z.
Definition MAX_SNIPPET_CHARS : nat := 120.
Definition MAX_EXCERPT_LINES : nat := 8.
Definition MAX_EXCERPT_LINE_CHARS : nat := 160.
Definition MAX_EXCERPT_BYTES : Z := 1600%Z.
Definition MAX_REGION_VOTES : Z := 200000%Z.

(** ** Characters *)

Definition TAB : Z := 9%Z.
Definition QUOTE : Z := 34%Z.
Definition BACKSLASH : Z := 92%Z.
Definition ELLIPSIS : Z := 8230%Z.
Definition num (n : nat) : jstr := dec (Z.of_nat n).

(** [parts.join(separator)]. *)
Fixpoint joined (separator : jstr) (parts : list jstr) : jstr :=
  match parts with
  | [] => []
  | [part] => part
  | part :: parts' => part ++ separator ++ joined separator parts'
  end.

(** [JSON.stringify] of a string, without its quotes: a lone surrogate, a control
    character, a quote and a backslash are escaped. *)
Definition hexDigitLower (n : Z) : Z := if (n <? 10)%Z then (48 + n)%Z else (87 + n)%Z.
Definition escapeUnit (c : Z) : jstr :=
  [BACKSLASH; 117%Z; hexDigitLower (c / 4096); hexDigitLower (c / 256 mod 16); hexDigitLower (c / 16 mod 16); hexDigitLower (c mod 16)].

Definition jsonChar (c : Z) : jstr :=
  if ((c =? QUOTE) || (c =? BACKSLASH))%Z then [BACKSLASH; c]
  else if (c =? 8)%Z then [BACKSLASH; 98%Z] else if (c =? 9)%Z then [BACKSLASH; 116%Z]
  else if (c =? 10)%Z then [BACKSLASH; 110%Z] else if (c =? 12)%Z then [BACKSLASH; 102%Z]
  else if (c =? 13)%Z then [BACKSLASH; 114%Z]
  else if (c <? 32)%Z then escapeUnit c else [c].

Fixpoint jsonBody (s : jstr) : jstr :=
  match s with
  | [] => []
  | c :: s' =>
      if isHigh c then
        match s' with
        | d :: s'' => if isLow d then c :: d :: jsonBody s'' else escapeUnit c ++ jsonBody s'
        | [] => escapeUnit c
        end
      else if isLow c then escapeUnit c ++ jsonBody s' else jsonChar c ++ jsonBody s'
  end.

Definition jsonString (s : jstr) : jstr := QUOTE :: jsonBody s ++ [QUOTE].

(** UTF-8 bytes of a value inside a JSON error body. *)
Definition encodedBytes (value : jstr) : Z := (byteLength (jsonString value) - 2)%Z.

(** ** Lines and snippets *)

(** The loop of [lineNumberAt] over the offsets [indexOf] finds. *)
Fixpoint countBefore (offsets : list nat) (offset line : nat) : nat :=
  match offsets with
  | index :: offsets' => if index <? offset then countBefore offsets' offset (S line) else line
  | [] => line
  end.

Definition lineNumberAt (text : jstr) (offset : nat) : nat := countBefore (newline_offsets text) offset 1.

Definition formatLineList (text : jstr) (starts : list nat) (count : nat) : jstr :=
  let shown := map (lineNumberAt text) (take MAX_REPORTED_LINES starts) in
  let more := count - length shown in
  js "line" ++ (if length shown =? 1 then [] else js "s") ++ js " " ++ joined (js ", ") (map num shown)
    ++ (if 0 <? more then js " and " ++ num more ++ js " more" else []).

Definition strategyText (s : WorkspaceEditMatchStrategy) : jstr :=
  js match s with
     | Exact => "exact" | LineTrimmed => "line-trimmed"
     | IndentationFlexible => "indentation-flexible" | WhitespaceNormalized => "whitespace-normalized"
     end.

Definition describeAmbiguous (text : jstr) (strategy : WorkspaceEditMatchStrategy) (count : nat) (starts : list nat) : jstr :=
  let how := match strategy with Exact => [] | _ => js " (" ++ strategyText strategy ++ js ")" end in
  js "old_text matched " ++ num count ++ js " locations" ++ how ++ js " at " ++ formatLineList text starts count
    ++ js "; include more surrounding lines so it matches exactly one".

Definition isLineSeparator (c : Z) : bool := ((c =? 8232) || (c =? 8233))%Z.

Definition quote (value : jstr) : jstr :=
  jsonString value ≫= fun c => if isLineSeparator c then escapeUnit c else [c].

Definition snippet (line : jstr) : jstr :=
  let trimmed := trim line in
  quote (if MAX_SNIPPET_CHARS <? length trimmed then take MAX_SNIPPET_CHARS trimmed ++ [ELLIPSIS] else trimmed).

(** [.] matches every character but these. *)
Definition isLineTerminator (c : Z) : bool := (c =? LF)%Z || (c =? CR)%Z || isLineSeparator c.

Definition allSpace (s : jstr) : bool := forallb isSpace s.

(** One of the alternatives begins [s]; what follows it. *)
Definition afterOneOf (alternatives : list jstr) (s : jstr) : list jstr :=
  map (fun p => drop (length p) s) (filter (fun p => startsWith s p = true) alternatives).

Definition dots : list jstr := [js "..."; [ELLIPSIS]].

(** [ELISION_LINE]: the regular expression, alternative by alternative. *)
Definition isElisionLine (line : jstr) : bool :=
  let body := trimStart line in
  let commented := map trimStart (afterOneOf [js "//"; js "#"; js "--"; js "/*"; js "*"; js "<!--"] body) in
  existsb (fun rest =>
      allSpace rest
      || existsb (fun i =>
           forallb (fun c => negb (isLineTerminator c)) (take i rest)
           && existsb allSpace (afterOneOf (dots ++ [js "*/"; js "-->"]) (drop i rest)))
           (seq 0 (S (length rest))))
    ((body :: commented) ≫= afterOneOf dots).

Fixpoint skipDigits (s : jstr) : jstr :=
  match s with c :: s' => if isDigit c then skipDigits s' else s | [] => [] end.

(** [LINE_NUMBER_PREFIX]: the white space after the digits may itself hold the tab. *)
Definition hasLineNumberPrefix (line : jstr) : bool :=
  let body := trimStart line in
  let rest := skipDigits body in
  negb (length rest =? length body)
  && (bool_decide (TAB ∈ leadingSpace rest)
      || match trimStart rest with c :: _ => ((c =? 124) || (c =? 58))%Z | [] => false end).

(** ** The closest line *)

(** [split(/\W+/)]. *)
Definition isWordUnit (c : Z) : bool := isAlnum c || (c =? 95)%Z.

Fixpoint splitWords (s : jstr) (inGap : bool) : list jstr :=
  match s with
  | [] => [[]]
  | c :: s' =>
      if isWordUnit c then
        match splitWords s' false with
        | w :: ws => (c :: w) :: ws
        | [] => [[c]]
        end
      else if inGap then splitWords s' true else [] :: splitWords s' true
  end.

Record NearestLine := Nearest {
  nl_exact : bool; nl_count : nat; nl_index : nat; nl_starts : list nat; nl_text : jstr;
}.

(** The lines whose trimmed text is the target, in order. *)
Definition sameLines (lines : LineIndex) (target : jstr) : list nat :=
  filter (fun index => trim (li_text lines index) = target) (seq 0 (li_length lines)).

(** The first line of the highest score. *)
Fixpoint bestLine (score : nat -> nat) (indices : list nat) (best : option nat) (bestScore : nat) : option nat * nat :=
  match indices with
  | [] => (best, bestScore)
  | index :: indices' =>
      if bestScore <? score index then bestLine score indices' (Some index) (score index)
      else bestLine score indices' best bestScore
  end.

Definition nearestLine (firstLine : option jstr) (lines : LineIndex) : option NearestLine :=
  target ← trim <$> firstLine;
  if length target =? 0 then None else
  match sameLines lines target with
  | first :: more =>
      Some (Nearest true (S (length more)) first
        (map (li_start lines) (take MAX_REPORTED_LINES (first :: more))) (li_text lines first))
  | [] =>
      let tokens := remove_dups (filter (fun token => 1 < length token) (splitWords target false)) in
      if length tokens <? 2 then None else
      let score index :=
        length (filter (fun token => token ∈ tokens) (remove_dups (splitWords (li_text lines index) false))) in
      match bestLine score (seq 0 (li_length lines)) None 0 with
      | (Some best, bestScore) =>
          if length tokens <=? 2 * bestScore
          then Some (Nearest false 1 best [li_start lines best] (li_text lines best)) else None
      | (None, _) => None
      end
  end.

(** ** The region a missing edit belongs to *)

Section region.
Context `{UnicodeTables}.

(** The code points of a string, as a regular expression with the [u] flag reads them. *)
Fixpoint codePoints (s : jstr) : list Z :=
  match s with
  | [] => []
  | c :: s' =>
      match s' with
      | d :: s'' =>
          if isHigh c && isLow d then (65536 + (c - 55296) * 1024 + (d - 56320))%Z :: codePoints s'' else c :: codePoints s'
      | [] => [c]
      end
  end.

Definition isAnchorPoint (p : Z) : bool := isLetterOrNumber p || (p =? 95)%Z.

Fixpoint anchored (ps : list Z) : bool :=
  match ps with
  | p :: (q :: _) as ps' => (isAnchorPoint p && isAnchorPoint q) || anchored ps'
  | _ => false
  end.

Definition isAnchorLine (key : jstr) : bool := anchored (codePoints key).

(** [offsets]: the positions of each distinctive line of the edit, ascending. *)
Fixpoint lineOffsets (needle : list jstr) (offset : nat) : gmap jstr (list nat) :=
  match needle with
  | [] => ∅
  | line :: needle' =>
      let rest := lineOffsets needle' (S offset) in
      let key := trim line in
      if isAnchorLine key then <[key := offset :: default [] (rest !! key)]> rest else rest
  end.

Record Poll := Polled { votes : gmap nat nat; budget : Z; best : option nat; bestVotes : nat }.

(** The inner [for]. *)
Fixpoint castVotes (index : nat) (hits : list nat) (p : Poll) : Poll :=
  match hits with
  | [] => p
  | offset :: hits' =>
      let spent := Polled (votes p) (budget p - 1) (best p) (bestVotes p) in
      if (budget p <=? 0)%Z then spent
      else if index <? offset then spent
      else
        let start := index - offset in
        let count := S (default 0 (votes p !! start)) in
        let better := (bestVotes p <? count)
          || ((count =? bestVotes p) && match best p with Some b => start <? b | None => false end) in
        castVotes index hits'
          (Polled (<[start := count]> (votes p)) (budget p - 1) (if better then Some start else best p)
             (if better then count else bestVotes p))
  end.

Fixpoint poll (offsets : gmap jstr (list nat)) (lines : LineIndex) (indices : list nat) (p : Poll) : Poll :=
  match indices with
  | [] => p
  | index :: indices' =>
      if (budget p <=? 0)%Z then p
      else poll offsets lines indices' (castVotes index (default [] (offsets !! trim (li_text lines index))) p)
  end.

Definition closestRegion (needle : list jstr) (lines : LineIndex) : option nat :=
  let anchors := length (filter (fun line => isAnchorLine (trim line) = true) needle) in
  if anchors <? 2 then None else
  let p := poll (lineOffsets needle 0) lines (seq 0 (li_length lines)) (Polled ∅ MAX_REGION_VOTES None 0) in
  if 2 <=? bestVotes p then best p else None.
End region.

(** ** The excerpt *)

Definition SAME : Z := 32%Z.
Definition SPACING : Z := 126%Z.
Definition DIFFERENT : Z := 33%Z.

Definition excerptMark (current : jstr) (expected : option jstr) : Z :=
  match expected with
  | None => DIFFERENT
  | Some e => if bool_decide (current = e) then SAME else if bool_decide (trim current = trim e) then SPACING else DIFFERENT
  end.

Definition shortenLine (line : jstr) : jstr :=
  if length line <=? MAX_EXCERPT_LINE_CHARS then line else
  let split := match line !! (MAX_EXCERPT_LINE_CHARS - 1), line !! MAX_EXCERPT_LINE_CHARS with
               | Some c, Some d => isHigh c && isLow d | _, _ => false end in
  take (if split then MAX_EXCERPT_LINE_CHARS - 1 else MAX_EXCERPT_LINE_CHARS) line ++ [ELLIPSIS].

(** The sentence that quotes the given rows. *)
Definition excerptText (first : nat) (rows : list jstr) : jstr :=
  let where_ := if length rows =? 1 then js "line " ++ num (first + 1)
                else js "lines " ++ num (first + 1) ++ js "-" ++ num (first + length rows) in
  js "the current text at " ++ where_ ++ js " (~ whitespace differs, ! text differs) is " ++ quote (joined [LF] rows).

(** The last [for]: rows are dropped from the end until the sentence fits. *)
Fixpoint fitRows (first : nat) (rows : list jstr) (n : nat) : option jstr :=
  match n with
  | 0 => None
  | S n' =>
      let excerpt := excerptText first (take n rows) in
      if (encodedBytes excerpt <=? MAX_EXCERPT_BYTES)%Z then Some excerpt else fitRows first rows n'
  end.

Fixpoint findIndexFrom {A} (f : A -> bool) (l : list A) (i : nat) : option nat :=
  match l with
  | [] => None
  | x :: l' => if f x then Some i else findIndexFrom f l' (S i)
  end.

Definition currentTextExcerpt (needle : list jstr) (lines : LineIndex) (start : nat) : option jstr :=
  let span := Nat.max 1 (Nat.min (length needle) (li_length lines - start)) in
  let marks := map (fun offset => excerptMark (li_text lines (start + offset)) (needle !! offset)) (seq 0 span) in
  let shown := Nat.min span MAX_EXCERPT_LINES in
  let firstDifference := default 0 (findIndexFrom (fun mark => negb (mark =? SAME)%Z) marks 0) in
  let skipped := Nat.min (firstDifference - 1) (span - shown) in
  let first := start + skipped in
  let rows := imap (fun offset mark => num (first + offset + 1) ++ js "|" ++ mark :: shortenLine (li_text lines (first + offset)))
                (take shown (drop skipped marks)) in
  fitRows first rows (length rows).

(** ** The reason *)

Section reason.
Context `{UnicodeTables}.

Definition isBlank (line : jstr) : bool := length (trim line) =? 0.

(** The hint of exact matching: a tolerant match of the same text. *)
Definition tolerantHint (text oldText : jstr) : res EditError (list jstr) :=
  tolerant ← first_outcome text (TextEdit oldText oldText None) RELAXED_STRATEGIES;
  mret match tolerant with
       | Matched strategy (range :: _) _ _ =>
           [js "the same text exists at " ++ formatLineList text [range_start range] 1 ++ js " with different whitespace ("
              ++ strategyText strategy ++ js "); copy that whitespace exactly"]
       | _ =>
           if includes text [CR; LF] && negb (includes oldText [CR; LF]) && includes oldText [LF]
           then [js "the file uses CRLF line endings"] else []
       end.

Definition describeMissingReason (text oldText : jstr) (needle : list jstr) (matching : WorkspaceEditMatching)
    (nearest : option NearestLine) : res EditError jstr :=
  let nonBlank := filter (fun line => isBlank line = false) needle in
  let elision :=
    if existsb isElisionLine nonBlank
    then [js "it contains an elision placeholder (" ++ QUOTE :: js "..." ++ QUOTE :: js "); copy the exact lines instead of abbreviating"]
    else [] in
  let prefixed :=
    if (0 <? length nonBlank) && forallb hasLineNumberPrefix nonBlank
    then [js "it appears to include line-number prefixes from read_file output; remove them"] else [] in
  tolerant ← match matching with MatchExact => tolerantHint text oldText | MatchTolerant => mret [] end;
  let hints := elision ++ prefixed ++ tolerant in
  let hints :=
    match nearest, hints with
    | Some n, [] =>
        [if nl_exact n
         then js "its first line appears at " ++ formatLineList text (nl_starts n) (nl_count n) ++ js ", but the lines after it differ"
         else js "the closest line is " ++ formatLineList text (nl_starts n) (length (nl_starts n)) ++ js ": " ++ snippet (nl_text n)]
    | _, _ => hints
    end in
  mret (js "old_text was not found" ++ if 0 <? length hints then js "; " ++ joined (js "; ") hints else []).

Definition describeMissing (text oldText : jstr) (matching : WorkspaceEditMatching) : res EditError (jstr * option jstr) :=
  let lines := new_LineIndex text in
  let needle := fst (neededLines oldText) in
  let firstOffset := findIndexFrom (fun line => negb (isBlank line)) needle 0 in
  let nearest := nearestLine (firstOffset ≫= fun i => needle !! i) lines in
  reason ← describeMissingReason text oldText needle matching nearest;
  let anchor :=
    n ← nearest;
    if negb (nl_exact n) || (nl_count n =? 1) then Some (nl_index n - default 0 firstOffset) else None in
  let start := match closestRegion needle lines with Some s => Some s | None => anchor end in
  mret (reason, start ≫= currentTextExcerpt needle lines).

(** A failure as the error carries it. *)
Record Diagnostic := Diagnosed { dg_index : nat; dg_reason : jstr; dg_excerpt : option jstr }.

(** The [failures.push] of [applyTextEdits], from the data a failure keeps. *)
Definition diagnose (matching : WorkspaceEditMatching) (edits : list WorkspaceTextEdit) (f : EditFailure) : res EditError Diagnostic :=
  match failure_outcome f with
  | Ambiguous strategy count starts =>
      mret (Diagnosed (failure_index f) (describeAmbiguous (failure_text f) strategy count starts) None)
  | Limit =>
      mret (Diagnosed (failure_index f)
        (js "old_text has too many repetitive line-window candidates; include more surrounding lines or use an exact match") None)
  | NoMatch | Matched _ _ _ _ =>
      d ← describeMissing (failure_text f) (default [] (oldText <$> edits !! failure_index f)) matching;
      mret (Diagnosed (failure_index f) (fst d) (snd d))
  end.
End reason.

(** ** The message *)

(** A granted excerpt follows its reason. An empty excerpt is falsy. *)
Definition failureText (failure : Diagnostic) (withExcerpt : bool) : jstr :=
  match dg_excerpt failure with
  | Some (c :: e) => if withExcerpt then dg_reason failure ++ js "; " ++ c :: e else dg_reason failure
  | _ => dg_reason failure
  end.

Definition len (s : jstr) : Z := Z.of_nat (length s).
Definition total {A} (f : A -> Z) (l : list A) : Z := fold_left (fun t x => (t + f x)%Z) l 0%Z.

Fixpoint grantLoop (failures : list Diagnostic) (chars bytes : Z) : list bool :=
  match failures with
  | [] => []
  | failure :: failures' =>
      match dg_excerpt failure with
      | Some (c :: e) =>
          let addition := js "; " ++ c :: e in
          let byteCost := encodedBytes addition in
          if (chars <? len addition)%Z || (bytes <? byteCost)%Z then false :: grantLoop failures' chars bytes
          else true :: grantLoop failures' (chars - len addition) (bytes - byteCost)
      | _ => false :: grantLoop failures' chars bytes
      end
  end.

Definition grantExcerpts (failures : list Diagnostic) (availableChars availableBytes : Z) : list bool :=
  grantLoop failures (availableChars - total (len ∘ dg_reason) failures)
    (availableBytes - total (encodedBytes ∘ dg_reason) failures).

(** A limit; [None] is [Infinity]. *)
Definition within (n : Z) (limit : option Z) : bool :=
  match limit with None => true | Some l => (n <=? l)%Z end.

(** The [while] of [shortenReason]: how far the prefix goes. *)
Fixpoint shortenLoop (charLimit budget : option Z) (rest : jstr) (end_ : nat) (bytes : Z) : nat :=
  let go c := within (Z.of_nat end_ + Z.of_nat (length c)) charLimit && within (bytes + encodedBytes c) budget in
  match rest with
  | [] => end_
  | c :: rest' =>
      match rest' with
      | d :: rest'' =>
          if isHigh c && isLow d then
            if go [c; d] then shortenLoop charLimit budget rest'' (end_ + 2) (bytes + encodedBytes [c; d]) else end_
          else if go [c] then shortenLoop charLimit budget rest' (end_ + 1) (bytes + encodedBytes [c]) else end_
      | [] => if go [c] then end_ + 1 else end_
      end
  end.

Definition shortenReason (reason : jstr) (charLimit byteLimit : option Z) : jstr :=
  if within (len reason) charLimit && within (encodedBytes reason) byteLimit then reason else
  let budget := (fun l => l - encodedBytes [ELLIPSIS])%Z <$> byteLimit in
  take (shortenLoop ((fun l => l - 1)%Z <$> charLimit) budget reason 0 0) reason ++ [ELLIPSIS].

Definition fitsDiagnosticBounds (message : jstr) : bool :=
  ((len message <=? EDIT_DIAGNOSTIC_MAX_CHARS) && (encodedBytes message <=? EDIT_DIAGNOSTIC_MAX_BODY_BYTES))%Z.

Definition formatOneFailure (failure : option Diagnostic) : jstr :=
  let prefix := js "Workspace edit did not apply and nothing was written: " in
  let detailed := prefix ++ match failure with Some f => failureText f true | None => js "no match" end ++ js "." in
  if fitsDiagnosticBounds detailed then detailed else
  let reason := shortenReason (match failure with Some f => dg_reason f | None => js "no match" end)
                  (Some (EDIT_DIAGNOSTIC_MAX_CHARS - len prefix - 1)%Z)
                  (Some (EDIT_DIAGNOSTIC_MAX_BODY_BYTES - encodedBytes prefix - 1)%Z) in
  prefix ++ reason ++ js ".".

Definition editPrefix (failure : Diagnostic) : jstr := LF :: js "Edit " ++ num (dg_index failure + 1) ++ js ": ".

Definition headerText (failures : list Diagnostic) (editCount : nat) : jstr :=
  num (length failures) ++ js " of " ++ num editCount
    ++ js " workspace edits did not apply, so nothing was written. Every other edit matched.".

Definition footerText (failures : list Diagnostic) : jstr :=
  if existsb (fun failure => 0 <? dg_index failure) failures
  then LF :: js "Line numbers account for the earlier edits in this batch." else [].

Definition detail (charLimit byteLimit : option Z) (failure : Diagnostic) (reason : jstr) : jstr :=
  editPrefix failure ++ shortenReason reason charLimit byteLimit ++ js ".".

Definition formatEditFailures (failures : list Diagnostic) (editCount : nat) : jstr :=
  if editCount =? 1 then formatOneFailure (head failures) else
  let header := headerText failures editCount in
  let footer := footerText failures in
  let available := (EDIT_DIAGNOSTIC_MAX_CHARS - len header - len footer - total (fun f => len (editPrefix f) + 1) failures)%Z in
  let frame := header ++ footer ++ concat (map editPrefix failures) ++ replicate (length failures) 46%Z in
  let availableBytes := (EDIT_DIAGNOSTIC_MAX_BODY_BYTES - encodedBytes frame)%Z in
  let granted := grantExcerpts failures available availableBytes in
  let reasons := zip_with failureText failures granted in
  let n := Z.of_nat (length failures) in
  let charLimit := if (total len reasons <=? available)%Z then None else Some (available / n)%Z in
  let byteLimit := if (total encodedBytes reasons <=? availableBytes)%Z then None else Some (availableBytes / n)%Z in
  header ++ concat (zip_with (detail charLimit byteLimit) failures reasons) ++ footer.

(** The message of the error [applyTextEdits] throws. *)
Definition editMessage `{UnicodeTables} (matching : WorkspaceEditMatching) (edits : list WorkspaceTextEdit)
    (failures : list EditFailure) : res EditError jstr :=
  diagnostics ← mapM (diagnose matching edits) failures;
  mret (formatEditFailures diagnostics (length edits)).
