(* ===== verification/EditDiagnosticsProofs.v ===== *)
(** * The message of a rejected batch fits its error body

    The cost of a text inside a JSON body is almost additive ([jsonCost_app]): a
    surrogate pair that a concatenation joins only makes it cheaper. From that:
    shortening keeps both limits, and the whole message of [applyTextEdits] fits the
    character limit, names every failing edit, and fits the byte limit up to one
    byte for each shortened reason ([rejection_message]). The excess is real
    ([byte_limit_overrun]): an ellipsis takes three bytes where two characters were
    cut. *)

From stdpp Require Import base list numbers option strings gmap.
From Stdlib Require Import ZArith Lia Sorted.
From S2P Require Import Prelude Kmp JsString Edits EditsApply Json Redis EditDiagnostics.

(** ** The cost of a text *)

Definition charCost (c : Z) : Z := Z.of_nat (length (utf8 (jsonChar c))).

Fixpoint jsonCost (s : jstr) : Z :=
  match s with
  | [] => 0
  | c :: s' =>
      if isHigh c then
        match s' with
        | d :: s'' => if isLow d then (4 + jsonCost s'')%Z else (6 + jsonCost s')%Z
        | [] => 6
        end
      else if isLow c then (6 + jsonCost s')%Z else (charCost c + jsonCost s')%Z
  end.

(** Induction that may take two units at once. *)
Lemma units_ind (P : jstr -> Prop) :
  P [] -> (forall c, P [c]) -> (forall c d s, P s -> P (d :: s) -> P (c :: d :: s)) -> forall s, P s.
Proof.
  intros H0 H1 H2 s. enough (P s /\ forall c, P (c :: s)) as [? _] by done.
  induction s as [|d s [IH1 IH2]]; [by split|]. split; [apply IH2|]. intros c. apply H2; [done|apply IH2].
Qed.

Lemma utf8_app_plain x y : Forall (fun c => isHigh c = false) x -> utf8 (x ++ y) = utf8 x ++ utf8 y.
Proof.
  induction 1 as [|c x Hc Hx IH]; [done|]. cbn [app utf8]. rewrite Hc, IH. case_match; by rewrite <- app_assoc.
Qed.

Lemma hexDigit_plain n : (0 <= n < 16)%Z -> (0 <= hexDigitLower n < 128)%Z.
Proof. unfold hexDigitLower. case_match; lia. Qed.

Lemma ascii_plain c : (0 <= c < 128)%Z -> isHigh c = false /\ isLow c = false /\ utf8_point c = [c].
Proof.
  intros H. unfold isHigh, isLow, utf8_point. rewrite (proj2 (Z.ltb_lt _ _)) by lia. rewrite !andb_false_iff. split_and!; lia || done.
Qed.

Lemma ascii_utf8 s : Forall (fun c => 0 <= c < 128)%Z s -> utf8 s = s.
Proof.
  induction 1 as [|c s Hc Hs IH]; [done|]. cbn [utf8]. destruct (ascii_plain c Hc) as (-> & -> & ->). by rewrite IH.
Qed.

Lemma escapeUnit_ascii c : (0 <= c < 65536)%Z -> Forall (fun c => 0 <= c < 128)%Z (escapeUnit c).
Proof.
  intros H. unfold escapeUnit, BACKSLASH. repeat constructor; try lia; apply hexDigit_plain;
    first [apply Z.mod_pos_bound; lia | split; [apply Z.div_pos; lia|apply Z.div_lt_upper_bound; lia]].
Qed.

Lemma surrogate_unit c : isHigh c = true \/ isLow c = true -> (0 <= c < 65536)%Z.
Proof. unfold isHigh, isLow. rewrite !andb_true_iff. lia. Qed.

Lemma escape_utf8 c r : isHigh c = true \/ isLow c = true -> length (utf8 (escapeUnit c ++ r)) = 6 + length (utf8 r).
Proof.
  intros H. pose proof (escapeUnit_ascii c (surrogate_unit c H)) as Ha.
  rewrite utf8_app_plain, (ascii_utf8 _ Ha), length_app; [done|]. eapply Forall_impl; [exact Ha|]. intros x Hx. by apply ascii_plain.
Qed.

(** The digits of a control character; no unit of a string is negative, but the
    bound needs no such assumption. *)
Lemma hexDigit_low n : (n < 16)%Z -> isHigh (hexDigitLower n) = false.
Proof. intros H. unfold hexDigitLower, isHigh. case_match; apply andb_false_iff; lia. Qed.

Lemma jsonChar_plain c : isHigh c = false -> Forall (fun c => isHigh c = false) (jsonChar c).
Proof.
  intros Hh. assert (c < 32 -> c / 4096 < 16)%Z as Hd by (intros; apply Z.div_lt_upper_bound; lia).
  assert (forall x, x mod 16 < 16)%Z as Hm by (intros x; apply Z.mod_pos_bound; lia).
  unfold jsonChar, BACKSLASH, QUOTE. repeat case_match; repeat constructor; try done; apply hexDigit_low; auto. lia.
Qed.

Lemma jsonBody_pair c d s : jsonBody (c :: d :: s) =
  if isHigh c then if isLow d then c :: d :: jsonBody s else escapeUnit c ++ jsonBody (d :: s)
  else if isLow c then escapeUnit c ++ jsonBody (d :: s) else jsonChar c ++ jsonBody (d :: s).
Proof. reflexivity. Qed.

Lemma jsonCost_pair c d s : jsonCost (c :: d :: s) =
  if isHigh c then if isLow d then (4 + jsonCost s)%Z else (6 + jsonCost (d :: s))%Z
  else if isLow c then (6 + jsonCost (d :: s))%Z else (charCost c + jsonCost (d :: s))%Z.
Proof. reflexivity. Qed.

Lemma jsonBody_bytes s r : length (utf8 (jsonBody s ++ r)) = Z.to_nat (jsonCost s) + length (utf8 r) /\ (0 <= jsonCost s)%Z.
Proof.
  revert s. apply (units_ind (fun s => length (utf8 (jsonBody s ++ r)) = Z.to_nat (jsonCost s) + length (utf8 r) /\ (0 <= jsonCost s)%Z)).
  - done.
  - intros c. cbn [jsonBody jsonCost]. destruct (isHigh c) eqn:Hh; [rewrite escape_utf8 by auto; split; lia|].
    rewrite !app_nil_r. destruct (isLow c) eqn:Hl; [rewrite escape_utf8 by auto; split; lia|].
    rewrite utf8_app_plain, length_app by (by apply jsonChar_plain). unfold charCost. split; lia.
  - intros c d s [IH1 P1] [IH2 P2]. rewrite jsonBody_pair, jsonCost_pair. destruct (isHigh c) eqn:Hh.
    + destruct (isLow d) eqn:Hd; [|rewrite <- app_assoc, escape_utf8, IH2 by auto; split; lia].
      cbn [app utf8]. rewrite Hh, Hd, length_app, IH1. unfold utf8_point.
      unfold isHigh, isLow in *. rewrite !andb_true_iff in *.
      rewrite !(proj2 (Z.ltb_ge _ _)) by lia. cbn [length]. split; lia.
    + destruct (isLow c) eqn:Hl; [rewrite <- app_assoc, escape_utf8, IH2 by auto; split; lia|].
      rewrite <- app_assoc, utf8_app_plain, length_app, IH2 by (by apply jsonChar_plain). unfold charCost. split; lia.
Qed.

Lemma encodedBytes_cost s : encodedBytes s = jsonCost s.
Proof.
  unfold encodedBytes, byteLength, jsonString. cbn [utf8]. replace (isHigh QUOTE) with false by done. replace (isLow QUOTE) with false by done.
  destruct (jsonBody_bytes s [QUOTE]) as [E P]. rewrite length_app, E. change (length (utf8_point QUOTE)) with 1.
  change (length (utf8 [QUOTE])) with 1. lia.
Qed.

(** A unit costs at least one byte. *)
Lemma charCost_pos c : (1 <= charCost c)%Z.
Proof.
  unfold charCost, jsonChar. enough (0 < length (utf8 (jsonChar c))) by (unfold jsonChar in *; lia).
  assert (forall x s, 0 < length (utf8 (x :: s))) as Hp.
  { intros x s. cbn [utf8]. unfold utf8_point. repeat case_match; rewrite ?length_app; cbn [length]; lia. }
  unfold jsonChar, escapeUnit. repeat case_match; apply Hp.
Qed.

Lemma jsonCost_length s : (len s <= jsonCost s)%Z.
Proof.
  unfold len. revert s. apply (units_ind (fun s => (Z.of_nat (length s) <= jsonCost s)%Z)); [done| |].
  - intros c. cbn [jsonCost length]. pose proof (charCost_pos c). repeat case_match; lia.
  - intros c d s IH1 IH2. rewrite jsonCost_pair. cbn [length] in *. pose proof (charCost_pos c). repeat case_match; lia.
Qed.

Lemma jsonCost_app a b : (jsonCost (a ++ b) <= jsonCost a + jsonCost b)%Z.
Proof.
  revert a. apply (units_ind (fun a => (jsonCost (a ++ b) <= jsonCost a + jsonCost b)%Z)); [cbn; lia| |].
  - intros c. destruct b as [|d b]; [rewrite app_nil_r; cbn [jsonCost]; repeat case_match; lia|].
    cbn [app]. rewrite jsonCost_pair. cbn [jsonCost]. pose proof (jsonCost_length b). pose proof (charCost_pos d). unfold len in *.
    destruct (isHigh c); [|destruct (isLow c); lia]. destruct (isLow d) eqn:Hd; [|lia].
    assert (isHigh d = false) as -> by (unfold isHigh, isLow in *; rewrite andb_true_iff, andb_false_iff in *; lia). lia.
  - intros c d s IH1 IH2. cbn [app] in *. rewrite !jsonCost_pair. repeat case_match; lia.
Qed.

(** No surrogate is joined after a text without one. *)
Lemma jsonCost_plain a b : Forall (fun c => isHigh c = false) a -> jsonCost (a ++ b) = (jsonCost a + jsonCost b)%Z.
Proof.
  induction 1 as [|c a Hc Ha IH]; [done|]. cbn [app jsonCost]. rewrite Hc. case_match; lia.
Qed.

(** ** Shortening *)

(** The prefix the loop keeps: it splits no pair, so the costs of the two parts add
    up, and unless it is empty it is within both limits. *)
Definition keeps (charLimit budget : option Z) (rest : jstr) (end_ : nat) (bytes : Z) (k : nat) : Prop :=
  k <= length rest /\ jsonCost rest = (jsonCost (take k rest) + jsonCost (drop k rest))%Z
  /\ (k = 0 \/ within (Z.of_nat (end_ + k)) charLimit = true /\ within (bytes + jsonCost (take k rest)) budget = true).

Lemma keeps_none charLimit budget rest end_ bytes : keeps charLimit budget rest end_ bytes 0.
Proof. split; [lia|]. rewrite take_0, drop_0. split; [done|by left]. Qed.

(** A step that takes the units [c], followed by a kept prefix. *)
Lemma keeps_more charLimit budget c rest end_ bytes k :
  (forall x, x `prefix_of` rest -> jsonCost (c ++ x) = (jsonCost c + jsonCost x)%Z) ->
  within (Z.of_nat (end_ + length c)) charLimit = true -> within (bytes + jsonCost c) budget = true ->
  keeps charLimit budget rest (end_ + length c) (bytes + jsonCost c) k ->
  keeps charLimit budget (c ++ rest) end_ bytes (length c + k).
Proof.
  intros Hc H1 H2 (Hk & E & Hw). unfold keeps. rewrite length_app, take_app_add, drop_app_add by done.
  pose proof (Hc (take k rest) (prefix_take rest k)) as E1. pose proof (Hc rest (reflexivity _)) as E2.
  split; [lia|]. split; [lia|]. destruct (decide (length c + k = 0)) as [|Hn]; [by left|right].
  destruct Hw as [->|[W1 W2]].
  - rewrite take_0, app_nil_r, Nat.add_0_r. done.
  - split; [by rewrite Nat.add_assoc|]. by rewrite E1, Z.add_assoc.
Qed.

Lemma jsonCost_unit c rest x : (match rest with d :: _ => isHigh c && isLow d = false | [] => True end) -> x `prefix_of` rest ->
  jsonCost ([c] ++ x) = (jsonCost [c] + jsonCost x)%Z.
Proof.
  intros Hp [y ->]. destruct x as [|d x]; [rewrite app_nil_r; cbn [jsonCost]; lia|]. cbn [app] in *.
  rewrite jsonCost_pair. cbn [jsonCost]. destruct (isHigh c); [|case_match; lia]. cbn [andb] in Hp. by rewrite Hp.
Qed.

Lemma jsonCost_joined c d x : isHigh c && isLow d = true -> jsonCost ([c; d] ++ x) = (jsonCost [c; d] + jsonCost x)%Z.
Proof. intros [Hc Hd]%andb_true_iff. cbn [app]. rewrite !jsonCost_pair, Hc, Hd. cbn [jsonCost]. lia. Qed.

Lemma shortenLoop_pair charLimit budget c d rest end_ bytes :
  let go x := within (Z.of_nat end_ + Z.of_nat (length x)) charLimit && within (bytes + encodedBytes x) budget in
  shortenLoop charLimit budget (c :: d :: rest) end_ bytes =
    if isHigh c && isLow d
    then if go [c; d] then shortenLoop charLimit budget rest (end_ + 2) (bytes + encodedBytes [c; d]) else end_
    else if go [c] then shortenLoop charLimit budget (d :: rest) (end_ + 1) (bytes + encodedBytes [c]) else end_.
Proof. reflexivity. Qed.

Lemma shortenLoop_keeps charLimit budget rest end_ bytes :
  exists k, shortenLoop charLimit budget rest end_ bytes = end_ + k /\ keeps charLimit budget rest end_ bytes k.
Proof.
  revert end_ bytes. revert rest. apply (units_ind (fun rest => forall end_ bytes,
    exists k, shortenLoop charLimit budget rest end_ bytes = end_ + k /\ keeps charLimit budget rest end_ bytes k)).
  - intros end_ bytes. exists 0. split; [cbn; lia|apply keeps_none].
  - intros c end_ bytes. cbn [shortenLoop length]. rewrite encodedBytes_cost. case_match eqn:E; [|exists 0; split; [lia|apply keeps_none]].
    apply andb_true_iff in E as [E1 E2]. exists 1. split; [lia|]. change [c] with ([c] ++ []).
    apply (keeps_more charLimit budget [c] [] end_ bytes 0); [intros x Hx; by apply (jsonCost_unit c [])|..|apply keeps_none]; [|done].
    cbn [length]. by rewrite Nat2Z.inj_add.
  - intros c d rest IH1 IH2 end_ bytes. rewrite shortenLoop_pair. cbv zeta beta. cbn [length]. rewrite !encodedBytes_cost.
    destruct (isHigh c && isLow d) eqn:Ep; (case_match eqn:E; [|exists 0; split; [lia|apply keeps_none]]); apply andb_true_iff in E as [E1 E2].
    + destruct (IH1 (end_ + 2) (bytes + jsonCost [c; d])%Z) as (k & -> & Hk). exists (2 + k). split; [lia|].
      apply (keeps_more charLimit budget [c; d] rest end_ bytes k); [intros x _; by apply jsonCost_joined|..]; [|done..].
      cbn [length]. by rewrite Nat2Z.inj_add.
    + destruct (IH2 (end_ + 1) (bytes + jsonCost [c])%Z) as (k & Ek & Hk). exists (1 + k). split; [rewrite Ek; lia|].
      apply (keeps_more charLimit budget [c] (d :: rest) end_ bytes k); [intros x; by apply jsonCost_unit|..]; [|done..].
      cbn [length]. by rewrite Nat2Z.inj_add.
Qed.

(** What a shortened reason costs. *)
Lemma shortenReason_spec reason charLimit byteLimit : let r := shortenReason reason charLimit byteLimit in
  (forall l, charLimit = Some l -> 1 <= l -> len r <= l)%Z
  /\ (forall b, byteLimit = Some b -> 3 <= b -> jsonCost r <= b)%Z
  /\ ((forall b, byteLimit = Some b -> 3 <= b)%Z -> (forall l, charLimit = Some l -> 1 <= l)%Z -> (len r <= len reason)%Z)
  /\ (byteLimit = None -> (forall l, charLimit = Some l -> 1 <= l)%Z ->
        (jsonCost r <= jsonCost reason + match charLimit with Some _ => 1 | None => 0 end)%Z).
Proof.
  cbv zeta. unfold shortenReason. rewrite encodedBytes_cost. destruct (within (len reason) charLimit && _) eqn:Ew.
  { apply andb_true_iff in Ew as [E1 E2]. unfold within in *. split_and!; [intros l ->; lia|intros b ->; lia|lia|intros _ _; destruct charLimit; lia]. }
  destruct (shortenLoop_keeps ((fun l => l - 1)%Z <$> charLimit) ((fun l => l - encodedBytes [ELLIPSIS])%Z <$> byteLimit) reason 0 0)
    as (k & -> & Hk & E & Hw). rewrite Nat.add_0_l in *.
  pose proof (jsonCost_app (take k reason) [ELLIPSIS]) as Ha. change (jsonCost [ELLIPSIS]) with 3%Z in Ha.
  pose proof (jsonCost_length (drop k reason)) as Hd. unfold len in *. rewrite length_drop in Hd. rewrite length_app, length_take_le by done.
  change (encodedBytes [ELLIPSIS]) with 3%Z in Hw. cbn [length].
  pose proof (jsonCost_length reason) as Hl. unfold len in Hl.
  assert (length reason <= k -> jsonCost (drop k reason) = 0%Z) as Hz by (intros; by rewrite drop_ge).
  assert (length reason = 0 -> jsonCost reason = 0%Z) as Hn by (intros ->%length_zero_iff_nil; done).
  apply andb_false_iff in Ew. unfold within in *. destruct charLimit as [l|], byteLimit as [b|]; cbn [fmap option_fmap option_map] in *;
    split_and!; intros; simplify_eq; try lia;
    repeat match goal with H : forall _, Some ?x = Some _ -> _ |- _ => specialize (H x eq_refl) end; destruct Hw as [->|[W1 W2]]; rewrite ?take_0 in *; cbn [jsonCost] in *; try lia;
    destruct Ew as [Ew|Ew]; try done; lia.
Qed.

(** ** Sums *)

Lemma total_from {A} (f : A -> Z) l t : fold_left (fun t x => (t + f x)%Z) l t = (t + total f l)%Z.
Proof.
  unfold total. revert t. induction l as [|x l IH]; intros t; cbn [fold_left]; [lia|].
  rewrite IH, (IH (0 + f x)%Z). lia.
Qed.

Lemma total_cons {A} (f : A -> Z) x l : total f (x :: l) = (f x + total f l)%Z.
Proof. unfold total at 1. cbn [fold_left]. by rewrite total_from. Qed.

Lemma total_mono {A} (f g : A -> Z) l : (forall x, x ∈ l -> f x <= g x)%Z -> (total f l <= total g l)%Z.
Proof.
  induction l as [|x l IH]; intros H; [done|]. rewrite !total_cons.
  pose proof (H x ltac:(left)). specialize (IH ltac:(intros; apply H; by right)). lia.
Qed.

Lemma total_bound {A} (f : A -> Z) l b : (forall x, x ∈ l -> f x <= b)%Z -> (total f l <= Z.of_nat (length l) * b)%Z.
Proof.
  induction l as [|x l IH]; intros H; [done|]. rewrite total_cons. cbn [length].
  pose proof (H x ltac:(left)). specialize (IH ltac:(intros; apply H; by right)). lia.
Qed.

Lemma total_plus {A} (f : A -> Z) b l : total (fun x => f x + b)%Z l = (total f l + Z.of_nat (length l) * b)%Z.
Proof. induction l as [|x l IH]; [done|]. rewrite !total_cons, IH. cbn [length]. lia. Qed.

(** ** The frame *)

Abbreviation plain := (Forall (fun c => isHigh c = false)).

Lemma js_plain s : plain (js s).
Proof.
  induction s as [|c s IH]; cbn [js]; constructor; [|done]. pose proof (Ascii.N_ascii_bounded c). unfold isHigh. apply andb_false_iff. lia.
Qed.

Lemma editPrefix_plain f : plain (editPrefix f).
Proof. unfold editPrefix, num, dec. constructor; [done|]. rewrite !Forall_app. auto using js_plain. Qed.

Lemma header_plain fs n : plain (headerText fs n).
Proof. unfold headerText, num, dec. rewrite !Forall_app. auto using js_plain. Qed.

Lemma footer_plain fs : plain (footerText fs).
Proof. unfold footerText. case_match; [constructor; [done|apply js_plain]|constructor]. Qed.

(** A number up to a hundred has three digits at most. *)
Lemma num_small n : n <= 100 -> (len (num n) <= 3 /\ jsonCost (num n) <= 3)%Z.
Proof.
  intros H. assert (forallb (fun n => (len (num n) <=? 3) && (jsonCost (num n) <=? 3))%Z (seq 0 101) = true) as Hc by (vm_compute; reflexivity).
  rewrite forallb_forall in Hc. specialize (Hc n ltac:(apply in_seq; lia)). lia.
Qed.

Lemma editPrefix_small f : dg_index f < 100 -> (len (editPrefix f) <= 11 /\ jsonCost (editPrefix f) <= 12)%Z.
Proof.
  intros H. destruct (num_small (dg_index f + 1)) as [H1 H2]; [lia|]. unfold editPrefix. split.
  - unfold len in *. cbn [length]. rewrite !length_app. change (length (js "Edit ")) with 5. change (length (js ": ")) with 2. lia.
  - change (LF :: ?x) with ([LF] ++ x). rewrite !jsonCost_plain by first [apply js_plain | by repeat constructor].
    change (jsonCost [LF]) with 2%Z. change (jsonCost (js "Edit ")) with 5%Z. change (jsonCost (js ": ")) with 2%Z. lia.
Qed.

Lemma header_small fs n : length fs <= 100 -> n <= 100 -> (len (headerText fs n) <= 91 /\ jsonCost (headerText fs n) <= 91)%Z.
Proof.
  intros H1 H2. destruct (num_small _ H1) as [A1 A2], (num_small _ H2) as [B1 B2]. unfold headerText. split.
  - unfold len in *. rewrite !length_app. change (length (js " of ")) with 4. match goal with |- context [length (js ?s)] => change (length (js s)) with (String.length s) end. cbn [String.length]. lia.
  - rewrite !jsonCost_plain by apply js_plain. change (jsonCost (js " of ")) with 4%Z.
    match goal with |- context [jsonCost (js ?s)] => let v := eval vm_compute in (jsonCost (js s)) in change (jsonCost (js s)) with v end. lia.
Qed.

Lemma footer_small fs : (len (footerText fs) <= 60 /\ jsonCost (footerText fs) <= 60)%Z.
Proof. unfold footerText. case_match; vm_compute; split; discriminate. Qed.

(** ** The message *)

Section details.
Context (charLimit byteLimit : option Z).

Abbreviation shortened := (fun r => shortenReason r charLimit byteLimit).

Lemma details_length fs rs : length fs = length rs ->
  len (concat (zip_with (detail charLimit byteLimit) fs rs))
  = (total (fun f => len (editPrefix f) + 1) fs + total (len ∘ shortened) rs)%Z.
Proof.
  revert rs. induction fs as [|f fs IH]; intros [|r rs] Hl; try done. cbn [zip_with concat]. rewrite !total_cons.
  specialize (IH rs ltac:(by injection Hl)). unfold len, detail, compose in *. rewrite !length_app, !Nat2Z.inj_add, IH.
  change (length (js ".")) with 1. lia.
Qed.

Lemma details_cost fs rs : length fs = length rs ->
  (jsonCost (concat (zip_with (detail charLimit byteLimit) fs rs))
   <= total (fun f => jsonCost (editPrefix f) + 1) fs + total (jsonCost ∘ shortened) rs)%Z.
Proof.
  revert rs. induction fs as [|f fs IH]; intros [|r rs] Hl; try done. cbn [zip_with concat]. rewrite !total_cons.
  specialize (IH rs ltac:(by injection Hl)). revert IH. generalize (concat (zip_with (detail charLimit byteLimit) fs rs)). intros more IH.
  unfold detail, compose in *. rewrite <- !app_assoc, jsonCost_plain by apply editPrefix_plain.
  pose proof (jsonCost_app (shortenReason r charLimit byteLimit) (js "." ++ more)) as H.
  rewrite (jsonCost_plain (js ".")) in H by apply js_plain. change (jsonCost (js ".")) with 1%Z in H. lia.
Qed.
End details.

(** A share of the room for each of [n] reasons. *)
Lemma share_total n available : (0 < n)%Z -> (n * (available / n) <= available)%Z.
Proof. intros H. by apply Z.mul_div_le. Qed.

Lemma share_least n available b : (0 < n)%Z -> (n * b <= available)%Z -> (b <= available / n)%Z.
Proof. intros H Hb. by apply Z.div_le_lower_bound. Qed.

(** The reasons fit the room for characters, and the room for bytes up to one byte
    for each. *)
Lemma reasons_fit (rs : list jstr) available availableBytes :
  let n := Z.of_nat (length rs) in
  (0 < n)%Z -> (n <= available)%Z -> (n * 3 <= availableBytes)%Z ->
  let charLimit := if (total len rs <=? available)%Z then None else Some (available / n)%Z in
  let byteLimit := if (total encodedBytes rs <=? availableBytes)%Z then None else Some (availableBytes / n)%Z in
  (total (fun r => len (shortenReason r charLimit byteLimit)) rs <= available)%Z
  /\ (total (fun r => jsonCost (shortenReason r charLimit byteLimit)) rs <= availableBytes + n)%Z.
Proof.
  intros n Hn Ha Hb charLimit byteLimit.
  assert (forall l, charLimit = Some l -> 1 <= l)%Z as Hc.
  { unfold charLimit. intros l. case_match; [done|]. intros [= <-]. apply share_least; lia. }
  assert (forall b, byteLimit = Some b -> 3 <= b)%Z as Hbl.
  { unfold byteLimit. intros l. case_match; [done|]. intros [= <-]. apply share_least; lia. }
  split.
  - destruct charLimit as [l|] eqn:E; revert E; unfold charLimit; case_match eqn:Ew; intros [= <-] || intros _; try done.
    + etransitivity; [apply total_bound; intros r _; by apply shortenReason_spec; auto|]. by apply share_total.
    + etransitivity; [apply (total_mono _ len); intros r _; by apply shortenReason_spec; auto|]. lia.
  - destruct byteLimit as [b|] eqn:E; revert E; unfold byteLimit; case_match eqn:Ew; intros [= <-] || intros _; try done.
    + etransitivity; [apply total_bound; intros r _; by apply shortenReason_spec; auto|]. pose proof (share_total n availableBytes Hn). lia.
    + etransitivity; [apply (total_mono _ (fun r => encodedBytes r + 1)%Z); intros r _|rewrite total_plus; lia].
      rewrite encodedBytes_cost. destruct (shortenReason_spec r charLimit None) as (_ & _ & _ & H4).
      specialize (H4 eq_refl Hc). destruct charLimit; lia.
Qed.

Lemma frame_cost header footer fs : plain header -> plain footer ->
  jsonCost (header ++ footer ++ concat (map editPrefix fs) ++ replicate (length fs) 46%Z)
  = (jsonCost header + jsonCost footer + total (fun f => jsonCost (editPrefix f) + 1) fs)%Z.
Proof.
  intros Hh Hf. rewrite !jsonCost_plain by done.
  enough (jsonCost (concat (map editPrefix fs) ++ replicate (length fs) 46%Z) = total (fun f => jsonCost (editPrefix f) + 1)%Z fs) by lia.
  assert (forall n, jsonCost (replicate n 46%Z) = Z.of_nat n) as Hr.
  { induction n as [|n IH]; [done|]. cbn [replicate]. change (46%Z :: ?l) with ([46%Z] ++ l).
    rewrite jsonCost_plain, IH by (by repeat constructor). change (jsonCost [46%Z]) with 1%Z. lia. }
  rewrite total_plus. rewrite <- Hr. induction fs as [|f fs IH]; [done|]. rewrite total_cons. cbn [map concat length].
  rewrite <- app_assoc, jsonCost_plain, Hr by apply editPrefix_plain.
  assert (plain (concat (map editPrefix fs))) as Hp.
  { apply Forall_concat. rewrite Forall_map. apply Forall_true. apply editPrefix_plain. }
  rewrite jsonCost_plain, Hr in * by done. lia.
Qed.

(** The message for one edit. *)
Lemma formatOne_fits f : let message := formatOneFailure f in
  (len message <= EDIT_DIAGNOSTIC_MAX_CHARS /\ encodedBytes message <= EDIT_DIAGNOSTIC_MAX_BODY_BYTES)%Z.
Proof.
  cbv zeta. unfold formatOneFailure. case_match eqn:E; [unfold fitsDiagnosticBounds in E; lia|]. clear E.
  match goal with |- context [shortenReason ?r ?c ?b] => destruct (shortenReason_spec r c b) as (H1 & H2 & _); revert H1 H2;
    generalize (shortenReason r c b) end.
  intros r H1 H2. specialize (H1 _ eq_refl ltac:(vm_compute; discriminate)). specialize (H2 _ eq_refl ltac:(vm_compute; discriminate)).
  rewrite encodedBytes_cost in *. set (prefix := js "Workspace edit did not apply and nothing was written: ") in *.
  split.
  - unfold len in *. rewrite !length_app. change (length (js ".")) with 1. unfold EDIT_DIAGNOSTIC_MAX_CHARS in *. lia.
  - rewrite jsonCost_plain by apply js_plain. pose proof (jsonCost_app r (js ".")) as Ha. change (jsonCost (js ".")) with 1%Z in Ha. lia.
Qed.

Lemma length_grant fs chars bytes : length (grantExcerpts fs chars bytes) = length fs.
Proof.
  unfold grantExcerpts. generalize (chars - total (len ∘ dg_reason) fs)%Z (bytes - total (encodedBytes ∘ dg_reason) fs)%Z.
  induction fs as [|f fs IH]; intros c b; [done|]. cbn [grantLoop length]. repeat case_match; cbn [length]; by rewrite IH.
Qed.

Lemma formatEditFailures_fits fs editCount : 1 <= length fs -> length fs <= editCount -> editCount <= 100 ->
  (forall f, f ∈ fs -> dg_index f < editCount) ->
  let message := formatEditFailures fs editCount in
  (len message <= EDIT_DIAGNOSTIC_MAX_CHARS)%Z
  /\ (encodedBytes message <= EDIT_DIAGNOSTIC_MAX_BODY_BYTES + if (editCount =? 1)%nat then 0 else Z.of_nat (length fs))%Z.
Proof.
  intros H1 H2 H3 Hi. cbv zeta. unfold formatEditFailures. destruct (editCount =? 1) eqn:E1.
  { destruct (formatOne_fits (head fs)). split; lia. }
  pose proof (header_plain fs editCount) as Ph. pose proof (footer_plain fs) as Pf.
  destruct (header_small fs editCount) as [Sh1 Sh2]; [lia..|]. destruct (footer_small fs) as [Sf1 Sf2].
  assert (forall f, f ∈ fs -> len (editPrefix f) + 1 <= 12 /\ jsonCost (editPrefix f) + 1 <= 13)%Z as Sp.
  { intros f Hf. destruct (editPrefix_small f) as [? ?]; [specialize (Hi f Hf); lia|]. lia. }
  pose proof (total_bound (fun f => len (editPrefix f) + 1)%Z fs 12 (fun f Hf => proj1 (Sp f Hf))) as Sp1.
  pose proof (total_bound (fun f => jsonCost (editPrefix f) + 1)%Z fs 13 (fun f Hf => proj2 (Sp f Hf))) as Sp2.
  rewrite (encodedBytes_cost (headerText fs editCount ++ _)), frame_cost by done.
  set (available := (_ - _ - _ - _)%Z). set (availableBytes := (EDIT_DIAGNOSTIC_MAX_BODY_BYTES - _)%Z).
  set (rs := zip_with failureText fs _).
  assert (length rs = length fs) as Hl.
  { unfold rs. rewrite length_zip_with, length_grant. lia. }
  destruct (reasons_fit rs available availableBytes) as [R1 R2];
    rewrite ?Hl; unfold available, availableBytes, EDIT_DIAGNOSTIC_MAX_CHARS, EDIT_DIAGNOSTIC_MAX_BODY_BYTES; [lia..|].
  rewrite Hl in R1, R2. fold availableBytes available in R1, R2 |- *.
  set (cl := if (total len rs <=? _)%Z then _ else _) in *. set (bl := if (total encodedBytes rs <=? _)%Z then _ else _) in *.
  split.
  - unfold len at 1. rewrite !length_app, !Nat2Z.inj_add. fold (len (headerText fs editCount)) (len (footerText fs)).
    fold (len (concat (zip_with (detail cl bl) fs rs))). rewrite details_length by done. unfold available, compose in *.
    unfold EDIT_DIAGNOSTIC_MAX_CHARS in *. lia.
  - rewrite encodedBytes_cost, jsonCost_plain by done. pose proof (jsonCost_app (concat (zip_with (detail cl bl) fs rs)) (footerText fs)) as Ha.
    pose proof (details_cost cl bl fs rs ltac:(done)) as Hd. unfold availableBytes, compose in *. unfold EDIT_DIAGNOSTIC_MAX_BODY_BYTES in *. lia.
Qed.

(** ** Rejections *)

Lemma tolerantHint_ok text old : exists hints, tolerantHint text old = Ok hints.
Proof. apply throws_nothing. unfold tolerantHint. apply throws_bind; [by apply first_outcome_throws|intros; apply throws_ret]. Qed.

Section diagnosing.
Context `{UnicodeTables}.

Lemma diagnose_ok matching es f : exists d, diagnose matching es f = Ok d /\ dg_index d = failure_index f.
Proof.
  unfold diagnose.
  assert (forall text old, exists d, describeMissing text old matching = Ok d) as Hm.
  { intros text old. unfold describeMissing, describeMissingReason. destruct (tolerantHint_ok text old) as [hints Eh].
    destruct matching; rewrite ?Eh; eexists; reflexivity. }
  destruct (failure_outcome f); try (eexists; split; reflexivity);
    (destruct (Hm (failure_text f) (default [] (oldText <$> es !! failure_index f))) as [d ->]; eexists; split; reflexivity).
Qed.

Lemma diagnoses_ok matching es fs :
  exists ds, mapM (diagnose matching es) fs = Ok ds /\ map dg_index ds = map failure_index fs.
Proof.
  induction fs as [|f fs (ds & E & Hi)]; [by exists []|]. destruct (diagnose_ok matching es f) as (d & Ed & Hd).
  exists (d :: ds). cbn [mapM map]. rewrite Ed. cbn [mbind res_bind]. rewrite E. split; [reflexivity|congruence].
Qed.
End diagnosing.

(** Distinct positions below [n] are at most [n]. *)
Lemma sorted_positions l a n : StronglySorted lt l -> (forall x, x ∈ l -> a <= x < n) -> length l <= n - a.
Proof.
  intros Hs. revert a. induction Hs as [|x l Hs IH Hx]; intros a Ha; [cbn; lia|]. cbn [length]. rewrite Forall_forall in Hx.
  pose proof (Ha x ltac:(left)). enough (length l <= n - S x) by lia. apply IH.
  intros y Hy. specialize (Hx y Hy). pose proof (Ha y ltac:(by right)). lia.
Qed.

(** (C3) The message of a rejected batch. Whatever the texts, every failing edit of
    a batch of at most a hundred edits (the protocol's limit) gets its diagnosis
    without an error; the message fits the character limit, holds the label of every
    failing edit in order, and fits the byte limit of the error body, up to one byte
    for each failing edit when there are several. *)
Theorem rejection_message `{UnicodeTables} matching text es fs n :
  applyTextEdits text es matching = Err (WorkspaceEditMatchError fs n) -> n <= 100 ->
  exists ds message, mapM (diagnose matching es) fs = Ok ds /\ editMessage matching es fs = Ok message
    /\ map dg_index ds = map failure_index fs
    /\ (len message <= EDIT_DIAGNOSTIC_MAX_CHARS)%Z
    /\ (encodedBytes message <= EDIT_DIAGNOSTIC_MAX_BODY_BYTES + if (n =? 1)%nat then 0 else Z.of_nat (length fs))%Z
    /\ (n <> 1 -> exists details, length details = length fs
         /\ message = headerText ds n ++ concat (zip_with (fun d text => editPrefix d ++ text ++ js ".") ds details) ++ footerText ds).
Proof.
  intros Hr Hn. destruct (rejection_failures _ _ _ _ _ Hr) as (-> & Hne & Hs & Hf & _).
  destruct (diagnoses_ok matching es fs) as (ds & Eds & Hi). exists ds, (formatEditFailures ds (length es)).
  assert (length ds = length fs) as Hl by (by rewrite <- (length_map dg_index), Hi, length_map).
  assert (forall f, f ∈ fs -> failure_index f < length es) as Hb.
  { intros f Hin. destruct (Hf f Hin) as (e & _ & He & _). rewrite Nat.sub_0_r in He. by apply lookup_lt_Some in He. }
  assert (length fs <= length es) as Hle.
  { rewrite <- (length_map failure_index), <- (Nat.sub_0_r (length es)). apply (sorted_positions _ 0 _ Hs).
    intros x (f & -> & Hin)%list_elem_of_fmap. specialize (Hb f Hin). lia. }
  destruct (formatEditFailures_fits ds (length es)) as [B1 B2]; [destruct fs; [done|]; rewrite Hl; cbn; lia|lia|done| |].
  { intros d Hd. assert (dg_index d ∈ map failure_index fs) as Hin by (rewrite <- Hi; by apply list_elem_of_fmap_2).
    apply list_elem_of_fmap in Hin as (f & -> & Hin). by apply Hb. }
  split_and!; [done|unfold editMessage; by rewrite Eds|done|done|by rewrite Hl in B2|].
  intros Hn1. unfold formatEditFailures. rewrite (proj2 (Nat.eqb_neq _ _) Hn1). cbv zeta.
  match goal with |- context [zip_with (detail ?c ?b) ds ?rs] => exists (map (fun r => shortenReason r c b) rs) end.
  split.
  - rewrite length_map, length_zip_with, length_grant. lia.
  - do 3 f_equal. by rewrite zip_with_fmap_r.
Qed.

(** A batch with a missing and an ambiguous edit. *)
#[global] Instance ascii_tables : UnicodeTables := {| isLetterOrNumber := isAlnum |}.

Definition rejected (text : jstr) (es : list WorkspaceTextEdit) : list EditFailure :=
  match applyTextEdits text es MatchExact with Err (WorkspaceEditMatchError fs _) => fs | _ => [] end.
Definition rejected_edits : list WorkspaceTextEdit :=
  [TextEdit (js "zz") (js "y") None; TextEdit (js "a") (js "b") None; TextEdit (js "two") (js "2") None].

Lemma rejection_message_witness :
  exists ds message, mapM (diagnose MatchExact rejected_edits) (rejected (js "a two a") rejected_edits) = Ok ds
    /\ editMessage MatchExact rejected_edits (rejected (js "a two a") rejected_edits) = Ok message
    /\ map dg_index ds = [0; 1] /\ (len message <= 3000)%Z /\ (encodedBytes message <= 3802)%Z.
Proof.
  destruct (rejection_message MatchExact (js "a two a") rejected_edits (rejected (js "a two a") rejected_edits) 3) as (ds & message & H1 & H2 & H3 & H4 & H5 & _).
  - vm_compute. reflexivity.
  - lia.
  - exists ds, message. split_and!; [exact H1|exact H2|exact H3|exact H4|exact H5].
Defined.

(** ** The byte limit can be exceeded

    Ten edits miss a line of wide characters and eleven are ambiguous. Together the
    reasons fit the bytes but not the characters, so only the characters are limited:
    each ambiguous reason loses its last two letters and gains an ellipsis. *)
Definition wideLine (c : string) (dashes acute tail : nat) : jstr :=
  js "k" ++ js c ++ js "1 k" ++ js c ++ js "2 " ++ replicate dashes 8212%Z ++ replicate acute 233%Z ++ replicate tail 97%Z ++ [LF].

Definition overrun_text : jstr :=
  concat (map (fun c => wideLine c 38 0 25) ["a"; "b"; "c"; "d"; "e"; "f"; "g"]%string)
    ++ wideLine "h" 37 0 26 ++ wideLine "i" 37 0 26 ++ wideLine "j" 36 1 25 ++ concat (replicate 14 (js "q" ++ [LF])).

Definition overrun_edits : list WorkspaceTextEdit :=
  map (fun c => TextEdit (js "k" ++ js c ++ js "1 k" ++ js c ++ js "2 zzz") (js "x") None) ["a"; "b"; "c"; "d"; "e"; "f"; "g"; "h"; "i"; "j"]%string
    ++ replicate 11 (TextEdit (js "q") (js "x") None).

(** The message of this rejection takes 3811 bytes of the 3800 allowed. *)
Theorem byte_limit_overrun :
  (m ← editMessage MatchExact overrun_edits (rejected overrun_text overrun_edits); mret (encodedBytes m))
  = Ok (EDIT_DIAGNOSTIC_MAX_BODY_BYTES + 11)%Z.
Proof. vm_compute. reflexivity. Qed.
