(* ===== verification/JsonText.v ===== *)
(** * Serialised values

    [JSON.stringify], [JSON.parse], [Date.prototype.toISOString] and [Date.parse] as
    the bridge uses them: what one replica writes to Redis another reads back. They
    are the fields of [Runtime], with the documented round trips as laws;
    [plain_runtime] is an instance. No definition of this file is mapped. *)

From stdpp Require Import base list numbers option strings countable.
From Stdlib Require Import ZArith Lia.
From S2P Require Import Prelude JsString Json Redis.

(** ** Values that survive [JSON.stringify]

    An object whose property names are distinct and none of which is an array
    index (the engine lists those first). *)
Definition isIndexName (k : jstr) : bool := negb (bool_decide (k = [])) && forallb isDigit k.

Definition distinctNames (o : record) : bool :=
  bool_decide (NoDup (keys o)) && forallb (fun k => negb (isIndexName k)) (keys o).

Fixpoint plainJson (v : json) : bool :=
  match v with
  | JArr l => forallb plainJson l
  | JObj fields => distinctNames fields && forallb (fun kv => plainJson (snd kv)) fields
  | _ => true
  end.

(** The range of a [Date]. *)
Definition MAX_TIME : Z := 8640000000000000%Z.

Class Runtime := {
  stringify : json -> jstr;
  parse : jstr -> option json;
  toISOString : Z -> jstr;
  parseDate : jstr -> option Z;
  parse_stringify : forall v, plainJson v = true -> parse (stringify v) = Some v;
  parseDate_toISOString : forall t, (Z.abs t <= MAX_TIME)%Z -> parseDate (toISOString t) = Some t;
}.

(** ** An instance *)

Fixpoint json_tree (v : json) : gen_tree (Z * jstr) :=
  match v with
  | JNull => GenNode 0 []
  | JBool b => GenNode (if b then 1 else 2) []
  | JInt n => GenNode 3 [GenLeaf (n, [])]
  | JNonInt n => GenNode 4 [GenLeaf (n, [])]
  | JStr s => GenNode 5 [GenLeaf (0%Z, s)]
  | JArr l => GenNode 6 (map json_tree l)
  | JObj fields => GenNode 7 (map (fun kv => GenNode 8 [GenLeaf (0%Z, fst kv); json_tree (snd kv)]) fields)
  end.

Fixpoint tree_json (t : gen_tree (Z * jstr)) : json :=
  match t with
  | GenNode 1 _ => JBool true
  | GenNode 2 _ => JBool false
  | GenNode 3 [GenLeaf (n, _)] => JInt n
  | GenNode 4 [GenLeaf (n, _)] => JNonInt n
  | GenNode 5 [GenLeaf (_, s)] => JStr s
  | GenNode 6 l => JArr (map tree_json l)
  | GenNode 7 l => JObj (map (fun t => match t with
                                       | GenNode 8 [GenLeaf (_, k); v] => (k, tree_json v)
                                       | _ => ([], JNull) end) l)
  | _ => JNull
  end.

Lemma tree_json_tree v : tree_json (json_tree v) = v.
Proof.
  revert v. fix IH 1. intros [|[]|n|n|s|l|fields]; simpl; try done.
  - f_equal. rewrite map_map. induction l as [|v l IHl]; simpl; [done|]. by rewrite IH, IHl.
  - f_equal. rewrite map_map. induction fields as [|[k v] l IHl]; simpl; [done|]. by rewrite IH, IHl.
Qed.

#[global, refine] Instance plain_runtime : Runtime := {|
  stringify v := [Zpos (encode (json_tree v))];
  parse s := match s with [Zpos p] => tree_json <$> decode p | _ => None end;
  toISOString := dec;
  parseDate := tonumber;
|}.
Proof.
  - intros v _. rewrite decode_encode. simpl. by rewrite tree_json_tree.
  - intros t _. apply tonumber_dec.
Defined.
