(* ===== verification/BridgeKeys.v ===== *)
(** * The bridge's Redis keys

    The key functions of service/src/bridge/store.ts, admission.ts and slots.ts,
    as the string concatenations the code writes, and the proof that no two of
    them name the same key: [parseKey] reads back which function made a key and
    from which arguments. *)

From stdpp Require Import base list numbers option strings.
From Stdlib Require Import ZArith Lia DecimalString.
From S2P Require Import Prelude JsString Json Protocol ProtocolKeys ProtocolPaths ProtocolOrder Redis.

(** ** [encodeURIComponent]

    Every byte of the UTF-8 encoding outside the unreserved set becomes a percent
    escape. (A lone surrogate throws; worker identifiers are ASCII.) *)
Definition hexDigit (n : Z) : Z := if (n <? 10)%Z then (48 + n)%Z else (55 + n)%Z.

Definition isUnreserved (c : Z) : bool := isAlnum c || oneOf c "-_.!~*'()".

Definition encodeURIComponent (s : jstr) : jstr :=
  utf8 s ≫= fun b => if isUnreserved b then [b] else [37; hexDigit (b / 16); hexDigit (b mod 16)]%Z.

(** ** Key functions *)

Definition PREFIX : jstr := js "codeapi:bridge:v1".

Definition assignmentKey (assignmentId : jstr) : jstr := PREFIX ++ js ":assignment:" ++ assignmentId.
Definition settlementKey (assignmentId : jstr) : jstr :=
  PREFIX ++ js ":assignment:" ++ assignmentId ++ js ":settlement".
Definition assignmentDeadlineKey (assignmentId : jstr) : jstr :=
  PREFIX ++ js ":assignment:" ++ assignmentId ++ js ":deadline".
Definition cancellationKey (assignmentId : jstr) : jstr :=
  PREFIX ++ js ":assignment:" ++ assignmentId ++ js ":cancelled".
Definition workspaceFenceReceiptKey (assignmentId : jstr) : jstr :=
  assignmentKey assignmentId ++ js ":workspace-fence-owner".
(** [`${assignmentKey(assignment.assignmentId)}:no-workspace`] of [cleanup]. *)
Definition noWorkspaceKey (assignmentId : jstr) : jstr := assignmentKey assignmentId ++ js ":no-workspace".

Definition workerKey (workerId : jstr) : jstr := PREFIX ++ js ":worker:" ++ encodeURIComponent workerId.
Definition workerStableIdentityKey (workerId : jstr) : jstr := PREFIX ++ js ":stable-identity:" ++ workerId.
(** The pairing keys [register] reads. *)
Definition pairingGenerationKey (workerId : jstr) : jstr := PREFIX ++ js ":pairing-generation:" ++ workerId.
Definition identityKey (workerId : jstr) : jstr := PREFIX ++ js ":identity:" ++ workerId.

Definition workerIncarnationKey (workerId : jstr) : jstr :=
  PREFIX ++ js ":worker:" ++ encodeURIComponent workerId ++ js ":incarnation".
Definition workerRegistrationGenerationKey (workerId : jstr) : jstr :=
  PREFIX ++ js ":worker:" ++ encodeURIComponent workerId ++ js ":registration-generation".
Definition workerRegistrationGenerationIncarnationKey (workerId : jstr) : jstr :=
  PREFIX ++ js ":worker:" ++ encodeURIComponent workerId ++ js ":registration-generation-incarnation".
Definition workerReadyKey (workerId : jstr) : jstr :=
  PREFIX ++ js ":worker:" ++ encodeURIComponent workerId ++ js ":ready".
Definition generationKey (workerId : jstr) : jstr :=
  PREFIX ++ js ":worker:" ++ encodeURIComponent workerId ++ js ":generation".
Definition lockKey (workerId : jstr) : jstr :=
  PREFIX ++ js ":worker:" ++ encodeURIComponent workerId ++ js ":lock".
Definition lockIncarnationKey (workerId : jstr) : jstr :=
  PREFIX ++ js ":worker:" ++ encodeURIComponent workerId ++ js ":lock:incarnation".

(** [`${PREFIX}:worker:...:incarnation:`], the prefix [register] completes. *)
Definition incarnationPrefix (workerId : jstr) : jstr :=
  PREFIX ++ js ":worker:" ++ encodeURIComponent workerId ++ js ":incarnation:".
Definition incarnationFenceKey (workerId incarnationId : jstr) : jstr :=
  incarnationPrefix workerId ++ incarnationId ++ js ":fenced".
Definition quarantineKey (workerId incarnationId : jstr) : jstr :=
  incarnationPrefix workerId ++ incarnationId ++ js ":quarantined".

Definition slotSuffix (slot : option Z) : jstr :=
  match slot with None => [] | Some n => js ":slot:" ++ dec n end.
Definition queueKey (workerId incarnationId : jstr) (slot : option Z) : jstr :=
  incarnationPrefix workerId ++ incarnationId ++ js ":assignments" ++ slotSuffix slot.
Definition leaseClaimKey (workerId incarnationId : jstr) (slot : option Z) : jstr :=
  incarnationPrefix workerId ++ incarnationId ++ js ":lease-claim" ++ slotSuffix slot.
Definition leaseAckKey (workerId incarnationId : jstr) (slot : option Z) : jstr :=
  incarnationPrefix workerId ++ incarnationId ++ js ":lease-ack" ++ slotSuffix slot.

Definition workspaceQuarantineKey `{Platform} (workerId runtimeSessionId : jstr) : jstr :=
  PREFIX ++ js ":worker:" ++ encodeURIComponent workerId ++ js ":workspace:"
    ++ sha256hex runtimeSessionId ++ js ":quarantined".
Definition workspaceEpochKey `{Platform} (workerId runtimeSessionId : jstr) : jstr :=
  workspaceQuarantineKey workerId runtimeSessionId ++ js ":epoch".
Definition workspaceLaneFenceIndexKey (checkoutFenceKey : jstr) : jstr := checkoutFenceKey ++ js ":lanes".

(** [BridgeAdmissionQueue.keys] and [BridgeWorkspaceSlots.keys]. *)
Definition admissionKey (workerId : jstr) : jstr :=
  PREFIX ++ js ":worker:" ++ encodeURIComponent workerId ++ js ":admission".
Definition admissionDeadlinesKey (workerId : jstr) : jstr := admissionKey workerId ++ js ":deadlines".
Definition admissionSequenceKey (workerId : jstr) : jstr := admissionKey workerId ++ js ":sequence".
Definition admissionWorkspacesKey (workerId : jstr) : jstr := admissionKey workerId ++ js ":workspaces".
Definition workspaceSlotsKey (workerId : jstr) : jstr := workerKey workerId ++ js ":workspace-slots".
Definition workspaceSlotCapacityKey (workerId : jstr) : jstr :=
  workerKey workerId ++ js ":workspace-slot-capacity".

(** ** What a key names *)

(** A call of a key function. *)
Inductive keyCall :=
| CAssignment (assignmentId : jstr) | CSettlement (assignmentId : jstr)
| CDeadline (assignmentId : jstr) | CCancelled (assignmentId : jstr)
| CReceipt (assignmentId : jstr) | CNoWorkspace (assignmentId : jstr)
| CStableIdentity (workerId : jstr) | CPairingGeneration (workerId : jstr) | CIdentity (workerId : jstr)
| CWorker (workerId : jstr) | CIncarnation (workerId : jstr)
| CRegistrationGeneration (workerId : jstr) | CRegistrationGenerationIncarnation (workerId : jstr)
| CReady (workerId : jstr) | CGeneration (workerId : jstr)
| CLock (workerId : jstr) | CLockIncarnation (workerId : jstr)
| CFenced (workerId incarnationId : jstr) | CQuarantined (workerId incarnationId : jstr)
| CQueue (workerId incarnationId : jstr) (slot : option Z)
| CLeaseClaim (workerId incarnationId : jstr) (slot : option Z)
| CLeaseAck (workerId incarnationId : jstr) (slot : option Z)
| CAdmission (workerId : jstr) | CAdmissionDeadlines (workerId : jstr)
| CAdmissionSequence (workerId : jstr) | CAdmissionWorkspaces (workerId : jstr)
| CSlots (workerId : jstr) | CSlotCapacity (workerId : jstr).

Definition keyOf (c : keyCall) : jstr :=
  match c with
  | CAssignment a => assignmentKey a | CSettlement a => settlementKey a
  | CDeadline a => assignmentDeadlineKey a | CCancelled a => cancellationKey a
  | CReceipt a => workspaceFenceReceiptKey a | CNoWorkspace a => noWorkspaceKey a
  | CStableIdentity w => workerStableIdentityKey w | CPairingGeneration w => pairingGenerationKey w
  | CIdentity w => identityKey w | CWorker w => workerKey w | CIncarnation w => workerIncarnationKey w
  | CRegistrationGeneration w => workerRegistrationGenerationKey w
  | CRegistrationGenerationIncarnation w => workerRegistrationGenerationIncarnationKey w
  | CReady w => workerReadyKey w | CGeneration w => generationKey w
  | CLock w => lockKey w | CLockIncarnation w => lockIncarnationKey w
  | CFenced w i => incarnationFenceKey w i | CQuarantined w i => quarantineKey w i
  | CQueue w i n => queueKey w i n | CLeaseClaim w i n => leaseClaimKey w i n
  | CLeaseAck w i n => leaseAckKey w i n
  | CAdmission w => admissionKey w | CAdmissionDeadlines w => admissionDeadlinesKey w
  | CAdmissionSequence w => admissionSequenceKey w | CAdmissionWorkspaces w => admissionWorkspacesKey w
  | CSlots w => workspaceSlotsKey w | CSlotCapacity w => workspaceSlotCapacityKey w
  end.

(** Identifiers as the router and the store admit them: worker identifiers match
    [BRIDGE_WORKER_ID_PATTERN], incarnations [/^[A-Za-z0-9_-]{16,128}$/], and
    assignment identifiers are base64url. *)
Definition idText (s : jstr) : bool := forallb (fun c => isAlnum c || oneOf c "_-") s.

Definition keyCall_ok (c : keyCall) : bool :=
  match c with
  | CAssignment a | CSettlement a | CDeadline a | CCancelled a | CReceipt a | CNoWorkspace a => idText a
  | CStableIdentity w | CPairingGeneration w | CIdentity w | CWorker w | CIncarnation w
  | CRegistrationGeneration w | CRegistrationGenerationIncarnation w | CReady w | CGeneration w
  | CLock w | CLockIncarnation w | CAdmission w | CAdmissionDeadlines w | CAdmissionSequence w
  | CAdmissionWorkspaces w | CSlots w | CSlotCapacity w => isValidBridgeWorkerId w
  | CFenced w i | CQuarantined w i => isValidBridgeWorkerId w && idText i
  | CQueue w i _ | CLeaseClaim w i _ | CLeaseAck w i _ => isValidBridgeWorkerId w && idText i
  end.

(** The colon-separated parts of a key, after the prefix. *)
Definition keyParts (c : keyCall) : list jstr :=
  let W w l := js "worker" :: encodeURIComponent w :: map js l in
  let I w i l := [js "worker"; encodeURIComponent w; js "incarnation"; i; js l] in
  let S w i l n := I w i l ++ match n with None => [] | Some n => [js "slot"; dec n] end in
  match c with
  | CAssignment a => [js "assignment"; a] | CSettlement a => [js "assignment"; a; js "settlement"]
  | CDeadline a => [js "assignment"; a; js "deadline"] | CCancelled a => [js "assignment"; a; js "cancelled"]
  | CReceipt a => [js "assignment"; a; js "workspace-fence-owner"]
  | CNoWorkspace a => [js "assignment"; a; js "no-workspace"]
  | CStableIdentity w => js "stable-identity" :: splitOn COLON w
  | CPairingGeneration w => js "pairing-generation" :: splitOn COLON w
  | CIdentity w => js "identity" :: splitOn COLON w
  | CWorker w => W w [] | CIncarnation w => W w ["incarnation"]
  | CRegistrationGeneration w => W w ["registration-generation"]
  | CRegistrationGenerationIncarnation w => W w ["registration-generation-incarnation"]
  | CReady w => W w ["ready"] | CGeneration w => W w ["generation"]
  | CLock w => W w ["lock"] | CLockIncarnation w => W w ["lock"; "incarnation"]
  | CFenced w i => I w i "fenced" | CQuarantined w i => I w i "quarantined"
  | CQueue w i n => S w i "assignments" n | CLeaseClaim w i n => S w i "lease-claim" n
  | CLeaseAck w i n => S w i "lease-ack" n
  | CAdmission w => W w ["admission"] | CAdmissionDeadlines w => W w ["admission"; "deadlines"]
  | CAdmissionSequence w => W w ["admission"; "sequence"]
  | CAdmissionWorkspaces w => W w ["admission"; "workspaces"]
  | CSlots w => W w ["workspace-slots"] | CSlotCapacity w => W w ["workspace-slot-capacity"]
  end.

(** ** Injectivity *)

Lemma isValid_chars w : isValidBridgeWorkerId w = true ->
  Forall (fun c => isAlnum c || oneOf c "._:-" = true) w.
Proof.
  unfold isValidBridgeWorkerId. destruct w as [|c w]; [done|]. cbn [headTail]. intros H. bools.
  constructor; [by rewrite H|]. rewrite forallb_forall in H0. apply Forall_forall.
  intros x Hx. apply H0. by apply list_elem_of_In.
Qed.

Lemma isAlnum_ascii c : isAlnum c = true -> (0 <= c < 128 /\ c <> COLON /\ c <> 37)%Z.
Proof.
  unfold isAlnum, isDigit, isUpper, isLowerAZ, COLON. rewrite !orb_true_iff, !andb_true_iff. lia.
Qed.

(** A test that holds of every character of the class. *)
Lemma oneOf_test f c s : oneOf c s = true -> forallb f (js s) = true -> f c = true.
Proof.
  unfold oneOf. rewrite bool_decide_eq_true, list_elem_of_In, forallb_forall. auto.
Qed.

Definition plainByte (c : Z) : bool :=
  (0 <=? c)%Z && (c <? 128)%Z && negb (c =? COLON)%Z && negb (c =? 37)%Z.

Lemma plainByte_true c : plainByte c = true <-> (0 <= c < 128 /\ c <> COLON /\ c <> 37)%Z.
Proof.
  unfold plainByte. rewrite !andb_true_iff, !negb_true_iff, !Z.eqb_neq, Z.leb_le, Z.ltb_lt. tauto.
Qed.

Lemma oneOf_ascii c : oneOf c "-_.!~*'()" = true -> (0 <= c < 128 /\ c <> COLON /\ c <> 37)%Z.
Proof. intros H. apply plainByte_true, (oneOf_test _ _ _ H). vm_compute. reflexivity. Qed.

Lemma isUnreserved_ascii c : isUnreserved c = true -> (0 <= c < 128 /\ c <> COLON /\ c <> 37)%Z.
Proof. unfold isUnreserved. rewrite orb_true_iff. intros [H|H]; [by apply isAlnum_ascii|by apply oneOf_ascii]. Qed.

Lemma id_char_cases c : isAlnum c || oneOf c "._:-" = true ->
  (0 <= c < 128)%Z /\ (isUnreserved c = true \/ c = COLON).
Proof.
  rewrite orb_true_iff. intros [H|H].
  - pose proof (isAlnum_ascii c H). split; [tauto|]. left. unfold isUnreserved. by rewrite H.
  - assert ((0 <=? c) && (c <? 128) && (isUnreserved c || (c =? COLON)) = true)%Z as Ht.
    { apply (oneOf_test (fun c => (0 <=? c) && (c <? 128) && (isUnreserved c || (c =? COLON)))%Z _ _ H).
      vm_compute. reflexivity. }
    bools. split; [lia|]. apply orb_true_iff in H1 as [H1|H1]; bools; auto.
Qed.

Lemma utf8_ascii s : Forall (fun c => 0 <= c < 128)%Z s -> utf8 s = s.
Proof.
  induction 1 as [|c s Hc Hs IH]; [done|]. cbn [utf8].
  assert (isHigh c = false /\ isLow c = false) as [-> ->] by (unfold isHigh, isLow; split; apply andb_false_iff; lia).
  unfold utf8_point. rewrite (proj2 (Z.ltb_lt _ _)) by lia. by rewrite IH.
Qed.

(** One character of a worker identifier. *)
Definition encodeChar (b : Z) : jstr :=
  if isUnreserved b then [b] else [37; hexDigit (b / 16); hexDigit (b mod 16)]%Z.

Lemma encode_worker w : isValidBridgeWorkerId w = true -> encodeURIComponent w = w ≫= encodeChar.
Proof.
  intros H. unfold encodeURIComponent. rewrite utf8_ascii; [done|].
  eapply Forall_impl; [by apply isValid_chars|]. intros c Hc. cbv beta in Hc. apply id_char_cases in Hc as [? _]. done.
Qed.

Lemma encodeChar_colon : encodeChar COLON = js "%3A".
Proof. vm_compute. reflexivity. Qed.

Lemma encode_colon_free w : isValidBridgeWorkerId w = true -> COLON ∉ encodeURIComponent w.
Proof.
  intros H. rewrite encode_worker by done. rewrite list_elem_of_bind. intros (c & Hc & Hin).
  pose proof (isValid_chars w H) as HF. rewrite Forall_forall in HF.
  destruct (id_char_cases c (HF c Hin)) as [_ [Hu| ->]].
  - unfold encodeChar in Hc. rewrite Hu in Hc. apply list_elem_of_singleton in Hc.
    apply isUnreserved_ascii in Hu. naive_solver.
  - rewrite encodeChar_colon in Hc. revert Hc. apply (forallb_not_in (fun c => negb (c =? COLON)%Z));
      vm_compute; reflexivity.
Qed.

Lemma hexDigit_inj a b : (0 <= a < 16)%Z -> (0 <= b < 16)%Z -> hexDigit a = hexDigit b -> a = b.
Proof. unfold hexDigit. intros ? ?. repeat case_match; bools; lia. Qed.

Lemma encodeChar_inj c d x y : (0 <= c < 128)%Z -> (0 <= d < 128)%Z ->
  encodeChar c ++ x = encodeChar d ++ y -> c = d /\ x = y.
Proof.
  unfold encodeChar. intros Hc Hd.
  destruct (isUnreserved c) eqn:Ec, (isUnreserved d) eqn:Ed; cbn [app]; intros E; injection E.
  - done.
  - intros. apply isUnreserved_ascii in Ec. lia.
  - intros. apply isUnreserved_ascii in Ed. lia.
  - intros -> E2 E1. split; [|done].
    apply hexDigit_inj in E1, E2; try (Z.to_euclidean_division_equations; lia).
Qed.

Lemma encode_inj w w' : isValidBridgeWorkerId w = true -> isValidBridgeWorkerId w' = true ->
  encodeURIComponent w = encodeURIComponent w' -> w = w'.
Proof.
  intros H H'. rewrite !encode_worker by done.
  pose proof (isValid_chars w H) as HF. pose proof (isValid_chars w' H') as HF'. clear H H'.
  revert w' HF'. induction HF as [|c w Hc Hw IH]; intros [|d w'] HF'; cbn [mbind list_bind]; intros E; try done.
  - unfold encodeChar in E. by destruct (isUnreserved d).
  - unfold encodeChar in E. by destruct (isUnreserved c).
  - inversion HF'; subst. apply encodeChar_inj in E as [-> E]; [f_equal; by apply IH|by apply id_char_cases..].
Qed.

Lemma idText_colon_free s : idText s = true -> COLON ∉ s.
Proof. intros H. by apply (forallb_not_in _ _ _ H). Qed.

Lemma uint_colon_free u : COLON ∉ js (NilZero.string_of_uint u).
Proof.
  assert (forall u, COLON ∉ js (NilEmpty.string_of_uint u)) as H.
  { clear u. intros u. induction u; cbn [NilEmpty.string_of_uint js]; [apply not_elem_of_nil|..];
      apply not_elem_of_cons; split; try exact IHu; vm_compute; congruence. }
  destruct u; [|apply H..]. by apply (forallb_not_in (fun c => negb (c =? COLON)%Z)); vm_compute.
Qed.

Lemma dec_colon_free n : COLON ∉ dec n.
Proof.
  unfold dec. destruct (Z.to_int n) as [u|u]; cbn [NilZero.string_of_int js]; [apply uint_colon_free|].
  apply not_elem_of_cons. split; [vm_compute; congruence|apply uint_colon_free].
Qed.

Lemma keyParts_colon_free c : keyCall_ok c = true -> Forall (fun s => COLON ∉ s) (keyParts c).
Proof.
  assert (forall s, forallb (fun c => negb (c =? COLON)%Z) (js s) = true -> COLON ∉ js s) as Hjs
    by (intros s Hs; by apply (forallb_not_in _ _ _ Hs)).
  intros H. destruct c as [| | | | | | | | | | | | | | | | | | |? ? [?|]|? ? [?|]|? ? [?|]| | | | | |];
    cbn [keyCall_ok keyParts map app] in *; bools;
    repeat (apply Forall_nil_2 || (apply Forall_cons; split));
    first [by apply idText_colon_free | by apply encode_colon_free | apply dec_colon_free
          | apply splitOn_free | apply Hjs; vm_compute; reflexivity].
Qed.

(** Every key is its parts joined by colons. *)
Lemma globalKey_parts kind w :
  PREFIX ++ COLON :: js kind ++ COLON :: w
  = joinWith COLON (map js ["codeapi"; "bridge"; "v1"] ++ js kind :: splitOn COLON w).
Proof.
  rewrite joinWith_app by done. cbn [joinWith]. pose proof (splitOn_ne COLON w) as Hne.
  rewrite joinWith_splitOn. by destruct (splitOn COLON w).
Qed.

Lemma keyOf_parts c : keyOf c = joinWith COLON (map js ["codeapi"; "bridge"; "v1"] ++ keyParts c).
Proof.
  destruct c as [| | | | | |w|w|w| | | | | | | | | | |? ? [?|]|? ? [?|]|? ? [?|]| | | | | |];
    first [reflexivity | exact (globalKey_parts "stable-identity" w)
          | exact (globalKey_parts "pairing-generation" w) | exact (globalKey_parts "identity" w)
          | cbn [keyOf]; unfold workspaceFenceReceiptKey, noWorkspaceKey, assignmentKey, incarnationFenceKey,
              quarantineKey, queueKey, leaseClaimKey, leaseAckKey, incarnationPrefix, slotSuffix,
              admissionDeadlinesKey, admissionSequenceKey, admissionWorkspacesKey, admissionKey,
              workspaceSlotsKey, workspaceSlotCapacityKey, workerKey;
            rewrite <- ?app_assoc, ?app_nil_r; reflexivity].
Qed.

Lemma keyOf_split c : keyCall_ok c = true ->
  splitOn COLON (keyOf c) = map js ["codeapi"; "bridge"; "v1"] ++ keyParts c.
Proof.
  intros H. rewrite keyOf_parts. apply splitOn_joinWith; [done|]. apply Forall_app_2.
  - repeat constructor; apply (forallb_not_in (fun c => negb (c =? COLON)%Z)); vm_compute; reflexivity.
  - by apply keyParts_colon_free.
Qed.

(** Close an equation of parts: equal calls, or distinct literals. *)
Ltac keyParts_inv E :=
  first
    [ injection E; intros; f_equal;
      first [by apply encode_inj | done | by eapply splitOn_inj | f_equal; by apply dec_inj]
    | exfalso; injection E; intros;
      repeat match goal with Hj : js _ = js _ |- _ => apply js_inj in Hj; first [discriminate Hj | clear Hj] end ].

Lemma keyOf_inj c c' : keyCall_ok c = true -> keyCall_ok c' = true -> keyOf c = keyOf c' -> c = c'.
Proof.
  intros H H' E. apply (f_equal (splitOn COLON)) in E. rewrite !keyOf_split in E by done.
  apply app_inv_head in E. revert E.
  destruct c as [| | | | | | | | | | | | | | | | | | |? ? [?|]|? ? [?|]|? ? [?|]| | | | | |],
    c' as [| | | | | | | | | | | | | | | | | | |? ? [?|]|? ? [?|]|? ? [?|]| | | | | |];
    cbn [keyCall_ok] in *; bools; cbn [keyParts map app]; intros E; try discriminate E;
    keyParts_inv E.
Qed.

(** No two bridge keys collide: two different calls of the key functions, on
    identifiers the router and the store admit, produce different Redis keys. So
    the state of one worker, incarnation, slot or assignment is never another's,
    although every key is a plain string concatenation and worker identifiers may
    contain the separator. *)
Theorem bridge_keys_injective c c' :
  keyCall_ok c = true -> keyCall_ok c' = true -> c <> c' -> keyOf c <> keyOf c'.
Proof. intros H H' Hne E. by apply Hne, keyOf_inj. Qed.

Lemma bridge_keys_injective_witness :
  keyOf (CLock (js "team:a")) <> keyOf (CLockIncarnation (js "team")).
Proof. apply bridge_keys_injective; [vm_compute; reflexivity..|discriminate]. Defined.
