(* ===== verification/BridgeAdmission.v ===== *)
(** * The admission queue

    Models service/src/bridge/admission.ts: the bounded first-in-first-out queue of
    pending workspace requests that API replicas share. Each Lua script is a
    [prog]; [Date.now()] of the calling replica is the argument [clock], the Redis
    clock is the [now] a script runs at.

    The abstract queue is a list of waiting requests. [enter_fifo] shows that the
    scripts on four Redis keys implement it. *)

From stdpp Require Import base list numbers option strings gmap sorting.
From Stdlib Require Import ZArith Lia.
From S2P Require Import Prelude JsString Json Protocol Redis BridgeKeys.

(** ** The scripts *)

(** A durable request's guard: its record, its claim and the claim's token. *)
Record DurableWorkspaceGuard := Guard { g_key : jstr; g_claimKey : jstr; g_token : jstr }.

(** The Redis clock in milliseconds, as the scripts compute it from [TIME]. *)
Definition admissionTime : prog Z :=
  t ← rd TIME; Ret (fst t * 1000 + snd t / 1000)%Z.

(** [durableAdmissionFence]: [inr] is the early return; [inl] carries
    [admissionNowMs] to the rest of the script. *)
Definition durableAdmissionFence (g : DurableWorkspaceGuard) (rejected : Z) : prog (Z + Z) :=
  claim ← rd (GET (g_claimKey g));
  if neqStr claim (g_token g) then Ret (inr rejected) else
  state ← rd (HGET (g_key g) (js "state"));
  if neqStr state (js "queued") then Ret (inr rejected) else
  cancel ← rd (HGET (g_key g) (js "cancelRequested"));
  if bool_decide (cancel = Some (js "1")) then Ret (inr rejected) else
  admissionNowMs ← admissionTime;
  raw ← rd (HGET (g_key g) (js "queueDeadlineAtMs"));
  deadline ← need (raw ≫= tonumber);
  if (deadline <=? admissionNowMs)%Z then Ret (inr rejected) else Ret (inl admissionNowMs).

(** [for _, id in ipairs(expired) do ... end]: forget the expired requests. *)
Fixpoint forgetAll (order deadlines workspaces : jstr) (ids : list jstr) : prog unit :=
  match ids with
  | [] => Ret tt
  | id :: ids' =>
      rd (ZREM order id);; rd (ZREM deadlines id);; rd (HDEL workspaces [id]);;
      forgetAll order deadlines workspaces ids'
  end.

Definition forgetExpired (order deadlines workspaces : jstr) (clock : Z) : prog unit :=
  expired ← rd (ZRANGEBYSCORE deadlines clock);
  forgetAll order deadlines workspaces expired.

Fixpoint expireAll (keys : list jstr) (at_ms : Z) : prog unit :=
  match keys with
  | [] => Ret tt
  | key :: keys' => rd (PEXPIREAT key (PXAT at_ms));; expireAll keys' at_ms
  end.

Definition DEFAULT_CAPACITY : Z := 32%Z.

(** The queue keys: order, deadlines, sequence, workspaces. *)
Definition queueKeys (workerId : jstr) : list jstr :=
  [admissionKey workerId; admissionDeadlinesKey workerId; admissionSequenceKey workerId;
   admissionWorkspacesKey workerId].

(** The tail [enter] and [submit] share: take a sequence number, record the
    request, and move the keys' expiry past the latest deadline. *)
Definition append (workerId id : jstr) (deadlineAtMs : Z) (workspaceId : jstr) : prog unit :=
  sequence ← rd (INCR (admissionSequenceKey workerId));
  rd (ZADD (admissionKey workerId) sequence id);;
  rd (ZADD (admissionDeadlinesKey workerId) deadlineAtMs id);;
  (if bool_decide (workspaceId = []) then Ret tt
   else rd (HSET (admissionWorkspacesKey workerId) [(id, workspaceId)]));;
  latest ← rd (ZLAST (admissionDeadlinesKey workerId));
  latest ← need latest;
  expireAll (queueKeys workerId) (fst latest + 30000)%Z.

Definition enter (workerId id : jstr) (clock deadlineAtMs capacity : Z) (workspaceId : option jstr) : prog bool :=
  forgetExpired (admissionKey workerId) (admissionDeadlinesKey workerId)
    (admissionWorkspacesKey workerId) clock;;
  score ← rd (ZSCORE (admissionKey workerId) id);
  if bool_decide (is_Some score) then Ret true else
  n ← rd (ZCARD (admissionKey workerId));
  if (capacity <=? n)%Z then Ret false else
  append workerId id deadlineAtMs (default [] workspaceId);;
  Ret true.

Inductive submitResult := Accepted | Existing | Conflict | Full.

Definition submit (workerId id : jstr) (clock deadlineAtMs capacity : Z) (workspaceId : option jstr)
    (key activeKey fingerprint record_ : jstr) (retentionMs : Z) : prog submitResult :=
  known ← rd (HGET key (js "fingerprint"));
  match known with
  | Some f => Ret (if bool_decide (f = fingerprint) then Existing else Conflict)
  | None =>
      forgetExpired (admissionKey workerId) (admissionDeadlinesKey workerId)
        (admissionWorkspacesKey workerId) clock;;
      n ← rd (ZCARD (admissionKey workerId));
      if (capacity <=? n)%Z then Ret Full else
      append workerId id deadlineAtMs (default [] workspaceId);;
      rd (HSET key [(js "record", record_); (js "fingerprint", fingerprint); (js "state", js "queued");
                    (js "queueDeadlineAtMs", dec deadlineAtMs)]);;
      rd (PEXPIREAT key (PX retentionMs));;
      rd (ZADD activeKey clock key);;
      Ret Accepted
  end.

Definition position (workerId id : jstr) : prog (option Z) :=
  rank ← rd (ZRANK (admissionKey workerId) id);
  Ret (option_map (fun n => Z.of_nat n + 1)%Z rank).

Definition isHead (workerId id : jstr) (clock : Z) : prog bool :=
  forgetExpired (admissionKey workerId) (admissionDeadlinesKey workerId)
    (admissionWorkspacesKey workerId) clock;;
  first ← rd (ZRANGE (admissionKey workerId) 0);
  Ret (bool_decide (head first = Some id)).

Definition leave (workerId id : jstr) : prog unit :=
  rd (ZREM (admissionKey workerId) id);;
  rd (ZREM (admissionDeadlinesKey workerId) id);;
  rd (HDEL (admissionWorkspacesKey workerId) [id]).

(** ** The abstract queue *)

Record waiting := Waiting { w_id : jstr; w_deadline : Z; w_workspace : option jstr }.

Definition ids (q : list waiting) : list jstr := w_id <$> q.

(** The requests still in time. *)
Definition pending (clock : Z) (q : list waiting) : list waiting :=
  List.filter (fun e => (clock <? w_deadline e)%Z) q.

Definition enter_spec (clock capacity : Z) (e : waiting) (q : list waiting) : list waiting * bool :=
  let q' := pending clock q in
  if bool_decide (w_id e ∈ ids q') then (q', true)
  else if (capacity <=? Z.of_nat (length q'))%Z then (q', false)
  else (q' ++ [e], true).

(** The four keys hold the queue [q] at Redis time [now]. *)
Record holds (now : Z) (ks : keyspace) (workerId : jstr) (q : list waiting) : Prop := {
  h_order : exists z n,
    as_zset (find now ks (admissionKey workerId)) = Some z /\ z.*2 = ids q
    /\ StronglySorted Z.lt z.*1 /\ Forall (fun score => score <= n)%Z z.*1
    /\ match as_str (find now ks (admissionSequenceKey workerId)) with
       | Some None => n = 0%Z | Some (Some s) => tonumber s = Some n | None => False end;
  h_deadlines : exists d,
    as_zset (find now ks (admissionDeadlinesKey workerId)) = Some d
    /\ d ≡ₚ (fun e => (w_deadline e, w_id e)) <$> q;
  h_workspaces : exists h,
    as_hash (find now ks (admissionWorkspacesKey workerId)) = Some h
    /\ forall id ws, h !! id = Some ws <-> exists e, e ∈ q /\ w_id e = id /\ w_workspace e = Some ws;
  h_nodup : NoDup (ids q);
}.

(** The number of the last arrival is such that the next one is an exact score. *)
Definition numbered (now : Z) (ks : keyspace) (workerId : jstr) : Prop :=
  match as_str (find now ks (admissionSequenceKey workerId)) with
  | Some (Some s) => match tonumber s with Some n => (0 <= n < 2 ^ 53)%Z | None => True end
  | _ => True
  end.

Lemma numbered_next now ks w n : numbered now ks w ->
  match as_str (find now ks (admissionSequenceKey w)) with Some None => n = 0%Z | Some (Some s) => tonumber s = Some n | None => False end ->
  isInt64 n && isInt64 (n + 1) = true.
Proof.
  unfold numbered. destruct (as_str _) as [[s|]|]; [|by intros _ ->|done]. intros Hn E. rewrite E in Hn. apply int64_next. lia.
Qed.

(** ** The scripts implement the queue *)

(** A set of members dropped from a sorted set. *)
Definition zdrop (l : list jstr) (z : list (Z * jstr)) : list (Z * jstr) :=
  List.filter (fun x => negb (bool_decide (snd x ∈ l))) z.

Lemma zdrop_cons id l z : zdrop l (zremove id z) = zdrop (id :: l) z.
Proof.
  unfold zdrop, zremove. induction z as [|x z IH]; [done|]. cbn [List.filter].
  destruct (bool_decide_reflect (x.2 = id)) as [E|E]; cbn [negb List.filter].
  - rewrite IH, (bool_decide_eq_true_2 (x.2 ∈ id :: l)) by (rewrite E; by left). done.
  - rewrite IH. replace (bool_decide (x.2 ∈ id :: l)) with (bool_decide (x.2 ∈ l)); [done|].
    apply bool_decide_ext. rewrite elem_of_cons. naive_solver.
Qed.

Lemma zdrop_nil z : zdrop [] z = z.
Proof.
  unfold zdrop. induction z as [|x z IH]; [done|]. cbn [List.filter].
  rewrite bool_decide_eq_false_2 by apply not_elem_of_nil. cbn [negb]. by rewrite IH.
Qed.

Lemma admission_keys_ne w :
  admissionKey w <> admissionDeadlinesKey w /\ admissionKey w <> admissionSequenceKey w
  /\ admissionKey w <> admissionWorkspacesKey w /\ admissionDeadlinesKey w <> admissionSequenceKey w
  /\ admissionDeadlinesKey w <> admissionWorkspacesKey w /\ admissionSequenceKey w <> admissionWorkspacesKey w.
Proof.
  unfold admissionDeadlinesKey, admissionSequenceKey, admissionWorkspacesKey.
  assert (forall s : string, s <> EmptyString -> admissionKey w <> admissionKey w ++ js s) as H.
  { intros s Hs E. apply (f_equal length) in E. rewrite length_app in E. destruct s; [done|]. simpl in E. lia. }
  repeat split; try (by apply H); intros E; apply app_inv_head, js_inj in E; discriminate.
Qed.

Lemma forgetAll_eval now w l ks z d h :
  as_zset (find now ks (admissionKey w)) = Some z ->
  as_zset (find now ks (admissionDeadlinesKey w)) = Some d ->
  as_hash (find now ks (admissionWorkspacesKey w)) = Some h ->
  exists ks' h', eval (forgetAll (admissionKey w) (admissionDeadlinesKey w) (admissionWorkspacesKey w) l) now ks
      = (ks', Some tt)
    /\ as_zset (find now ks' (admissionKey w)) = Some (zdrop l z)
    /\ as_zset (find now ks' (admissionDeadlinesKey w)) = Some (zdrop l d)
    /\ as_hash (find now ks' (admissionWorkspacesKey w)) = Some h'
    /\ (forall id, h' !! id = if bool_decide (id ∈ l) then None else h !! id)
    /\ (forall k, k <> admissionKey w -> k <> admissionDeadlinesKey w -> k <> admissionWorkspacesKey w ->
        find now ks' k = find now ks k).
Proof.
  destruct (admission_keys_ne w) as (N1 & _ & N3 & _ & N5 & _).
  revert ks z d h. induction l as [|id l IH]; intros ks z d h Hz Hd Hh; cbn [forgetAll].
  - exists ks, h. rewrite !zdrop_nil. repeat split; done.
  - cmd_step. set (ks1 := put_zset _ _ _ _).
    assert (as_zset (find now ks1 (admissionDeadlinesKey w)) = Some d) as Hd1
      by (unfold ks1; by rewrite zset_put_ne).
    cmd_step. set (ks2 := put_zset now ks1 _ _).
    assert (as_hash (find now ks2 (admissionWorkspacesKey w)) = Some h) as Hh2
      by (unfold ks2, ks1; by rewrite !zset_put_ne).
    cmd_step. set (ks3 := put_hash _ _ _ _).
    destruct (IH ks3 (zremove id z) (zremove id d) (delete id h)) as (ks' & h' & E & Hz' & Hd' & Hh' & Hl & Hk).
    + unfold ks3, ks2. rewrite hash_put_ne, zset_put_ne by done. apply zset_put_eq.
    + unfold ks3. rewrite hash_put_ne by done. apply zset_put_eq.
    + unfold ks3. rewrite hash_put_eq. done.
    + exists ks', h'. rewrite <- !zdrop_cons. repeat split; try done.
      * intros x. rewrite Hl. destruct (decide (x = id)) as [->|Hne].
        { rewrite (bool_decide_eq_true_2 (id ∈ id :: l)), lookup_delete_eq by (by left).
          by case_bool_decide. }
        rewrite lookup_delete_ne by done.
        replace (bool_decide (x ∈ id :: l)) with (bool_decide (x ∈ l)); [done|].
        apply bool_decide_ext. rewrite elem_of_cons. naive_solver.
      * intros k K1 K2 K3. rewrite Hk by done. unfold ks3, ks2, ks1.
        by rewrite hash_put_ne, !zset_put_ne by done.
Qed.

Lemma filter_perm {A} (f : A -> bool) l l' : l ≡ₚ l' -> List.filter f l ≡ₚ List.filter f l'.
Proof.
  induction 1 as [|x l l' _ IH|x y l|]; simpl; [done| | |by etransitivity].
  - destruct (f x); [by constructor|done].
  - destruct (f x), (f y); try done. by constructor.
Qed.

Lemma filter_fmap {A B} (g : A -> B) (f : B -> bool) l :
  List.filter f (g <$> l) = g <$> List.filter (fun x => f (g x)) l.
Proof.
  induction l as [|x l IH]; [done|]. cbn [fmap list_fmap List.filter].
  destruct (f (g x)); cbn [fmap list_fmap]; [f_equal|]; exact IH.
Qed.

Lemma filter_ext_elem {A} (f g : A -> bool) l :
  (forall x, x ∈ l -> f x = g x) -> List.filter f l = List.filter g l.
Proof.
  induction l as [|x l IH]; [done|]. intros H. simpl. rewrite (H x) by (by left).
  rewrite IH; [done|]. intros y Hy. apply H. by right.
Qed.

Lemma filter_elem {A} (f : A -> bool) l x : x ∈ List.filter f l <-> x ∈ l /\ f x = true.
Proof. by rewrite !list_elem_of_In, filter_In. Qed.

Lemma filter_sorted {A} (R : Z -> Z -> Prop) (g : A -> Z) f l :
  StronglySorted R (g <$> l) -> StronglySorted R (g <$> List.filter f l).
Proof.
  induction l as [|x l IH]; [done|]. cbn [fmap list_fmap List.filter]. intros H.
  inversion H as [|? ? Hs HF]; subst. destruct (f x); [|by apply IH].
  cbn [fmap list_fmap]. constructor; [by apply IH|]. rewrite Forall_fmap in *.
  rewrite Forall_forall in *. intros y Hy. apply HF. by apply filter_elem in Hy as [? _].
Qed.

Lemma NoDup_ids_inj q e e' : NoDup (ids q) -> e ∈ q -> e' ∈ q -> w_id e = w_id e' -> e = e'.
Proof.
  unfold ids. induction q as [|x q IH]; [intros _ H; inversion H|].
  cbn [fmap list_fmap]. rewrite NoDup_cons, !elem_of_cons. intros [Hx HN] [->|He] [->|He'] E; try done.
  - exfalso. apply Hx. rewrite E. by apply list_elem_of_fmap_2.
  - exfalso. apply Hx. rewrite <- E. by apply list_elem_of_fmap_2.
  - by apply IH.
Qed.

Lemma zdrop_members l z : (zdrop l z).*2 = List.filter (fun x => negb (bool_decide (x ∈ l))) z.*2.
Proof.
  unfold zdrop. induction z as [|x z IH]; [done|]. cbn [fmap list_fmap List.filter].
  destruct (bool_decide (x.2 ∈ l)); cbn [negb fmap list_fmap]; [exact IH|f_equal; exact IH].
Qed.

Section queue.
Context (now : Z) (w : jstr).

(** The identifiers the scripts read as expired are those past their deadline. *)
Lemma expired_ids clock q d e : NoDup (ids q) -> d ≡ₚ (fun e => (w_deadline e, w_id e)) <$> q -> e ∈ q ->
  bool_decide (w_id e ∈ snd <$> List.filter (fun x => (fst x <=? clock)%Z) d) = (w_deadline e <=? clock)%Z.
Proof.
  intros HN HP He. apply eq_iff_eq_true. rewrite bool_decide_eq_true, list_elem_of_fmap, Z.leb_le. split.
  - intros ([t i] & Ei & Hin). apply filter_elem in Hin as [Hin Ht]. simpl in *. subst i.
    rewrite HP in Hin. apply list_elem_of_fmap in Hin as (e' & [= -> Ei] & He').
    rewrite (NoDup_ids_inj q e e') by done. bools. lia.
  - intros Ht. exists (w_deadline e, w_id e). split; [done|]. apply filter_elem. split; [|simpl; by apply Z.leb_le].
    rewrite HP. by apply (list_elem_of_fmap_2 (fun e => (w_deadline e, w_id e))).
Qed.

Lemma forgetExpired_holds clock ks q : holds now ks w q ->
  exists ks', eval (forgetExpired (admissionKey w) (admissionDeadlinesKey w) (admissionWorkspacesKey w) clock) now ks
      = (ks', Some tt)
    /\ holds now ks' w (pending clock q)
    /\ (forall k, k <> admissionKey w -> k <> admissionDeadlinesKey w -> k <> admissionWorkspacesKey w ->
        find now ks' k = find now ks k).
Proof.
  intros [(z & n & Hz & Hzq & Hs & Hn & Hseq) (d & Hd & HP) (h & Hh & Hw) HN].
  unfold forgetExpired. cmd_step.
  set (l := snd <$> List.filter (fun x => (fst x <=? clock)%Z) d).
  destruct (forgetAll_eval now w l ks z d h Hz Hd Hh) as (ks' & h' & E & Hz' & Hd' & Hh' & Hl & Hk).
  exists ks'. split; [exact E|]. split; [|exact Hk].
  assert (forall e, e ∈ q -> bool_decide (w_id e ∈ l) = negb (clock <? w_deadline e)%Z) as Hex.
  { intros e He. unfold l. rewrite (expired_ids clock q) by done. by rewrite Z.leb_antisym. }
  destruct (admission_keys_ne w) as (_ & N2 & _ & N4 & _ & N6).
  split.
  - exists (zdrop l z), n. split; [done|]. split; [|split; [|split]].
    + rewrite zdrop_members, Hzq. unfold ids, pending.
      rewrite filter_fmap. f_equal. apply filter_ext_elem. intros e He. rewrite Hex by done. by rewrite negb_involutive.
    + by apply filter_sorted.
    + rewrite Forall_fmap in *. rewrite Forall_forall in *. intros x Hx. apply Hn. by apply filter_elem in Hx as [? _].
    + by rewrite Hk.
  - exists (zdrop l d). split; [done|]. unfold zdrop, pending. rewrite (filter_perm _ _ _ HP), filter_fmap.
    apply reflexive_eq. f_equal. apply filter_ext_elem. intros e He. simpl. rewrite Hex by done. by rewrite negb_involutive.
  - exists h'. split; [done|]. intros id ws. rewrite Hl. unfold pending. setoid_rewrite filter_elem. split.
    + case_bool_decide as Hin; [done|]. intros Hws. apply Hw in Hws as (e & He & Hid & Hws).
      exists e. split; [|done]. split; [done|]. subst id. specialize (Hex e He).
      rewrite bool_decide_eq_false_2 in Hex by done. by destruct (clock <? w_deadline e)%Z.
    + intros (e & [He Ht] & Hid & Hws). subst id. rewrite Hex, Ht by done. simpl. apply Hw. eauto.
  - unfold pending, ids in *. revert HN. clear. induction q as [|x q IH]; [done|]. simpl.
    rewrite NoDup_cons. intros [Hx HN]. destruct (clock <? w_deadline x)%Z; [|by apply IH].
    simpl. constructor; [|by apply IH]. rewrite list_elem_of_fmap. intros (y & Ey & Hy). apply Hx. rewrite Ey.
    apply list_elem_of_fmap_2. by apply filter_elem in Hy as [? _].
Qed.

(** The value of a key, without its expiry. *)
Definition valueAt (ks : keyspace) (k : jstr) : option rvalue := e_val <$> find now ks k.

Lemma holds_values ks ks' q :
  (forall k, k ∈ queueKeys w -> valueAt ks' k = valueAt ks k) -> holds now ks w q -> holds now ks' w q.
Proof.
  intros Hv [(z & n & Hz & H1) (d & Hd & H2) (h & Hh & H3) HN].
  assert (forall k, k ∈ queueKeys w -> as_zset (find now ks' k) = as_zset (find now ks k)
    /\ as_hash (find now ks' k) = as_hash (find now ks k) /\ as_str (find now ks' k) = as_str (find now ks k)) as Ha.
  { intros k Hk. specialize (Hv k Hk). unfold valueAt in Hv.
    destruct (find now ks' k) as [[v e]|], (find now ks k) as [[v' e']|]; simpl in Hv; try done.
    injection Hv as ->. destruct v'; done. }
  unfold queueKeys in Ha. split; [exists z, n|exists d|exists h|done].
  - by rewrite (proj1 (Ha _ ltac:(by left))), (proj2 (proj2 (Ha _ ltac:(by right; right; left)))).
  - by rewrite (proj1 (Ha _ ltac:(by right; left))).
  - by rewrite (proj1 (proj2 (Ha _ ltac:(by right; right; right; left)))).
Qed.

Lemma expireAll_eval keys at_ms ks : (now < at_ms)%Z ->
  exists ks', eval (expireAll keys at_ms) now ks = (ks', Some tt)
    /\ (forall k, valueAt ks' k = valueAt ks k) /\ (forall k, k ∉ keys -> find now ks' k = find now ks k).
Proof.
  intros Ht. revert ks. induction keys as [|key keys IH]; intros ks; cbn [expireAll]; [by eexists|].
  destruct (expireat_future now ks key at_ms Ht) as (ks1 & E & Hne & Heq).
  rewrite (eval_step _ _ _ _ _ _ E). destruct (IH ks1) as (ks' & E' & Hv & Hf).
  exists ks'. split; [exact E'|]. split.
  - intros k. rewrite Hv. unfold valueAt. destruct (decide (key = k)) as [<-|]; [|by rewrite Hne].
    rewrite Heq. by destruct (find now ks key).
  - intros k. rewrite not_elem_of_cons. intros [H1 H2]. rewrite Hf, Hne by done. done.
Qed.

Definition entryOf (id : jstr) (deadlineAtMs : Z) (workspaceId : jstr) : waiting :=
  Waiting id deadlineAtMs (if bool_decide (workspaceId = []) then None else Some workspaceId).
End queue.

Section appending.
Context (now : Z) (w : jstr).

(** Recording the workspace of the new request. *)
Lemma append_workspace ks h id ws :
  as_hash (find now ks (admissionWorkspacesKey w)) = Some h ->
  exists ks' h',
    (forall A (f : prog A),
       eval ((if bool_decide (ws = []) then Ret tt else rd (HSET (admissionWorkspacesKey w) [(id, ws)]));; f) now ks
       = eval f now ks')
    /\ as_hash (find now ks' (admissionWorkspacesKey w)) = Some h'
    /\ h' = (if bool_decide (ws = []) then h else <[id := ws]> h)
    /\ (forall k, k <> admissionWorkspacesKey w -> find now ks' k = find now ks k).
Proof.
  intros Hh. case_bool_decide.
  - exists ks, h. repeat split; done.
  - eexists _, (<[id := ws]> h). split; [|split; [|split; [done|]]].
    + intros A f. cmd_step. reflexivity.
    + apply hash_put_eq.
    + intros k Hk. by apply hash_put_ne.
Qed.

Lemma order_append z q n e :
  z.*2 = ids q -> StronglySorted Z.lt z.*1 -> Forall (fun score => score <= n)%Z z.*1 -> w_id e ∉ ids q ->
  let z' := zinsert (n + 1, w_id e)%Z (zremove (w_id e) z) in
  z'.*2 = ids (q ++ [e]) /\ StronglySorted Z.lt z'.*1 /\ Forall (fun score => score <= n + 1)%Z z'.*1.
Proof.
  intros Hzq Hs Hn Hid. cbv zeta. rewrite zremove_notin by (by rewrite Hzq). rewrite zinsert_last.
  2: { rewrite Forall_fmap in Hn. eapply Forall_impl; [exact Hn|]. simpl. lia. }
  rewrite !fmap_app. split; [rewrite Hzq; unfold ids; by rewrite fmap_app|]. split.
  - apply StronglySorted_app_2; [|done|repeat constructor]. intros a b Ha Hb.
    apply list_elem_of_singleton in Hb as ->. rewrite Forall_forall in Hn. specialize (Hn a Ha). simpl. lia.
  - apply Forall_app_2; [eapply Forall_impl; [exact Hn|]; simpl; lia|]. apply Forall_singleton. simpl. lia.
Qed.

Lemma deadlines_append d q e :
  d ≡ₚ (fun e => (w_deadline e, w_id e)) <$> q -> w_id e ∉ ids q ->
  zinsert (w_deadline e, w_id e) (zremove (w_id e) d) ≡ₚ (fun e => (w_deadline e, w_id e)) <$> (q ++ [e]).
Proof.
  intros HP Hid. rewrite zremove_notin.
  - rewrite zinsert_perm, HP, fmap_app. apply (Permutation_app_comm [_]).
  - rewrite HP, <- list_fmap_compose. exact Hid.
Qed.

Lemma workspaces_append (h : gmap jstr jstr) q id dl ws :
  (forall id ws, h !! id = Some ws <-> exists e, e ∈ q /\ w_id e = id /\ w_workspace e = Some ws) ->
  id ∉ ids q -> forall i x,
  (if bool_decide (ws = []) then h else <[id := ws]> h) !! i = Some x
  <-> exists e, e ∈ q ++ [entryOf id dl ws] /\ w_id e = i /\ w_workspace e = Some x.
Proof.
  intros Hw Hid i x. setoid_rewrite elem_of_app. setoid_rewrite list_elem_of_singleton.
  assert (forall e, e ∈ q -> w_id e <> id) as Hne
    by (intros e He <-; by apply Hid, list_elem_of_fmap_2).
  unfold entryOf. case_bool_decide as Hws.
  - rewrite Hw. split; [naive_solver|]. intros (e & [He| ->] & Hi & Hx); [eauto|done].
  - destruct (decide (i = id)) as [->|].
    + rewrite lookup_insert_eq. split; [intros [= <-]; eexists; by split; [right|]|].
      intros (e & [He| ->] & Hi & Hx); [by apply Hne in He|by simpl in Hx].
    + rewrite lookup_insert_ne, Hw by done. split; [naive_solver|].
      intros (e & [He| ->] & Hi & Hx); [eauto|]. by simpl in Hi.
Qed.

(** The four writes of [append], before the expiries move. *)
Lemma append_writes ks q id dl ws : holds now ks w q -> numbered now ks w -> id ∉ ids q ->
  exists ks', (forall A (f : prog A),
      eval (sequence ← rd (INCR (admissionSequenceKey w));
            rd (ZADD (admissionKey w) sequence id);;
            rd (ZADD (admissionDeadlinesKey w) dl id);;
            (if bool_decide (ws = []) then Ret tt else rd (HSET (admissionWorkspacesKey w) [(id, ws)]));; f) now ks
      = eval f now ks')
    /\ holds now ks' w (q ++ [entryOf id dl ws])
    /\ (forall k, k ∉ queueKeys w -> find now ks' k = find now ks k).
Proof.
  intros [(z & n & Hz & Hzq & Hs & Hn & Hseq) (d & Hd & HP) (h & Hh & Hw) HN] Hroom Hid.
  destruct (admission_keys_ne w) as (N1 & N2 & N3 & N4 & N5 & N6).
  assert (isInt64 n && isInt64 (n + 1) = true) as Hint by (by apply (numbered_next now ks w)).
  assert (exists sv, as_str (find now ks (admissionSequenceKey w)) = Some sv
            /\ match sv with None => Some 0%Z | Some s => tonumber s end = Some n) as (sv & Hsv & Hsn).
  { destruct (as_str (find now ks (admissionSequenceKey w))) as [[sv|]|]; [eexists; done|exists None|done].
    split; [done|]. by rewrite Hseq. }
  set (ks1 := keep now ks (admissionSequenceKey w) (VStr (dec (n + 1)))).
  assert (as_zset (find now ks1 (admissionKey w)) = Some z) as Hz1 by (unfold ks1; by rewrite find_keep_ne).
  set (ks2 := put_zset now ks1 (admissionKey w) (zinsert (n + 1, id)%Z (zremove id z))).
  assert (as_zset (find now ks2 (admissionDeadlinesKey w)) = Some d) as Hd2
    by (unfold ks2, ks1; by rewrite zset_put_ne, find_keep_ne).
  set (ks3 := put_zset now ks2 (admissionDeadlinesKey w) (zinsert (dl, id) (zremove id d))).
  assert (as_hash (find now ks3 (admissionWorkspacesKey w)) = Some h) as Hh3
    by (unfold ks3, ks2, ks1; by rewrite !zset_put_ne, find_keep_ne).
  destruct (append_workspace ks3 h id ws Hh3) as (ks4 & h' & E4 & Hh4 & -> & Hk4).
  exists ks4. split; [|split].
  - intros A f.
    erewrite eval_step by (cbn [exec]; rewrite Hsv; cbn [mbind option_bind]; rewrite Hsn; cbn [mbind option_bind]; rewrite Hint; reflexivity).
    fold ks1. cmd_step. fold ks2. cmd_step. fold ks3. apply E4.
  - destruct (order_append z q n (entryOf id dl ws)) as (O1 & O2 & O3); [done..|]. split.
    + eexists _, (n + 1)%Z. rewrite !Hk4 by done. unfold ks3. rewrite !zset_put_ne by done. unfold ks2.
      rewrite zset_put_eq, zset_put_ne by done. unfold ks1. rewrite find_keep_eq. cbn [as_str].
      rewrite tonumber_dec. done.
    + eexists. rewrite Hk4 by done. unfold ks3. rewrite zset_put_eq. split; [done|].
      by apply (deadlines_append d q (entryOf id dl ws)).
    + eexists. split; [exact Hh4|]. by apply workspaces_append.
    + unfold ids. rewrite fmap_app. apply NoDup_app. split; [done|]. split; [|apply NoDup_singleton].
      intros y Hy Hin. apply list_elem_of_singleton in Hin as ->. by apply Hid.
  - intros k Hk. unfold queueKeys in Hk. rewrite !not_elem_of_cons in Hk. destruct Hk as (K1 & K2 & K3 & K4 & _).
    rewrite Hk4 by done. unfold ks3, ks2, ks1. by rewrite !zset_put_ne, find_keep_ne by done.
Qed.

Lemma append_holds ks q id dl ws :
  holds now ks w q -> numbered now ks w -> id ∉ ids q -> Forall (fun e => now < w_deadline e + 30000)%Z q -> (now < dl + 30000)%Z ->
  exists ks', eval (append w id dl ws) now ks = (ks', Some tt)
    /\ holds now ks' w (q ++ [entryOf id dl ws])
    /\ (forall k, k ∉ queueKeys w -> find now ks' k = find now ks k).
Proof.
  intros Hq Hroom Hid Hdl Hnew. destruct (append_writes ks q id dl ws Hq Hroom Hid) as (ks4 & E & Hq4 & Hk4).
  unfold append. rewrite E. destruct (h_deadlines _ _ _ _ Hq4) as (d & Hd & HP). cmd_step.
  destruct (last d) as [x|] eqn:El.
  2: { apply last_None in El. rewrite El in HP. apply Permutation_nil_l in HP. by destruct q. }
  assert (now < fst x + 30000)%Z as Hx.
  { apply last_Some_elem_of in El. rewrite HP, fmap_app, elem_of_app in El.
    destruct El as [Hin|Hin]; [|apply list_elem_of_singleton in Hin; by subst x].
    apply list_elem_of_fmap in Hin as (e & -> & He). rewrite Forall_forall in Hdl. by apply Hdl. }
  cbn [need mbind prog_bind pbind].
  destruct (expireAll_eval now (queueKeys w) (fst x + 30000) ks4 Hx) as (ks' & E' & Hv & Hf).
  exists ks'. split; [exact E'|]. split.
  - apply (holds_values now w ks4); [intros k _; apply Hv|done].
  - intros k Hk. by rewrite Hf, Hk4.
Qed.
End appending.

Lemma numbered_frame now ks ks' w : numbered now ks w ->
  (forall k, k <> admissionKey w -> k <> admissionDeadlinesKey w -> k <> admissionWorkspacesKey w -> find now ks' k = find now ks k) -> numbered now ks' w.
Proof.
  intros Hn Hk. unfold numbered. destruct (admission_keys_ne w) as (_ & N2 & _ & N4 & _ & N6). by rewrite Hk by (intros E; congruence).
Qed.

Lemma pending_forall clock now q : (now < clock + 30000)%Z ->
  Forall (fun e => now < w_deadline e + 30000)%Z (pending clock q).
Proof.
  intros Ht. apply Forall_forall. intros e He. unfold pending in He. apply filter_elem in He as [_ He]. bools. lia.
Qed.

Lemma entryOf_option id dl ws : ws <> Some [] -> entryOf id dl (default [] ws) = Waiting id dl ws.
Proof. intros H. unfold entryOf. destruct ws as [x|]; simpl; [|done]. case_bool_decide; [by subst|done]. Qed.

Lemma holds_length now ks w q z : holds now ks w q ->
  as_zset (find now ks (admissionKey w)) = Some z -> length z = length q.
Proof.
  intros [(z' & n & Hz & Hzq & _) _ _ _] E. rewrite Hz in E. injection E as ->.
  rewrite <- (length_fmap snd z), Hzq; unfold ids; by rewrite length_fmap.
Qed.

Lemma enter_eval now ks w q id clock dl cap ws :
  holds now ks w q -> numbered now ks w -> (now < clock + 30000)%Z -> (clock <= dl)%Z -> ws <> Some [] ->
  exists ks', eval (enter w id clock dl cap ws) now ks
      = (ks', Some (snd (enter_spec clock cap (Waiting id dl ws) q)))
    /\ holds now ks' w (fst (enter_spec clock cap (Waiting id dl ws) q))
    /\ (forall k, k ∉ queueKeys w -> find now ks' k = find now ks k).
Proof.
  intros Hq Hroom Ht Hdl Hws. unfold enter. rewrite eval_bind.
  destruct (forgetExpired_holds now w clock ks q Hq) as (ks1 & E & Hq1 & Hk1). rewrite E.
  assert (forall k, k ∉ queueKeys w -> find now ks1 k = find now ks k) as Hk1'.
  { intros k Hk. unfold queueKeys in Hk. rewrite !not_elem_of_cons in Hk. destruct Hk as (? & ? & ? & ? & _). by apply Hk1. }
  pose proof (h_order _ _ _ _ Hq1) as (z & n & Hz & Hzq & _).
  unfold enter_spec. cbn [w_id]. cmd_step.
  replace (bool_decide (is_Some (zscore id z))) with (bool_decide (id ∈ ids (pending clock q))).
  2: { apply bool_decide_ext. rewrite <- Hzq, <- not_eq_None_Some, zscore_none.
       destruct (decide (id ∈ z.*2)); naive_solver. }
  case_bool_decide as Hin; [by exists ks1|].
  cmd_step. rewrite (holds_length _ _ _ _ _ Hq1 Hz).
  destruct (cap <=? Z.of_nat (length (pending clock q)))%Z; [by exists ks1|].
  rewrite eval_bind.
  destruct (append_holds now w ks1 (pending clock q) id dl (default [] ws) Hq1 (numbered_frame _ _ _ _ Hroom Hk1) Hin
    (pending_forall clock now q Ht)) as (ks2 & E2 & Hq2 & Hk2); [lia|].
  rewrite E2. exists ks2. rewrite entryOf_option in Hq2 by done. split; [done|]. split; [done|].
  intros k Hk. by rewrite Hk2, Hk1'.
Qed.

Section server.
Context {db : Type} `{RedisServer db}.

(** (C13) The shared admission queue is a bounded first-in-first-out queue: from
    any keyspace that holds the queue [q], [enter] always returns, first drops the
    requests past their deadline, admits a request that is already waiting again
    without moving it, refuses a new one exactly when the capacity is reached, and
    otherwise appends it at the end; keys outside the queue are untouched. The
    Redis clock may run ahead of the caller's by less than thirty seconds, and fewer
    than [2^53] requests have entered before ([numbered]). *)
Theorem enter_fifo now s w q id clock dl cap ws :
  holds now (content s) w q -> numbered now (content s) w -> (now < clock + 30000)%Z -> (clock <= dl)%Z -> ws <> Some [] ->
  exists s', run (enter w id clock dl cap ws) now s
      = (s', Some (snd (enter_spec clock cap (Waiting id dl ws) q)))
    /\ holds now (content s') w (fst (enter_spec clock cap (Waiting id dl ws) q))
    /\ (forall k, k ∉ queueKeys w -> find now (content s') k = find now (content s) k).
Proof.
  intros Hq Hroom Ht Hdl Hws. destruct (enter_eval now _ w q id clock dl cap ws Hq Hroom Ht Hdl Hws) as (ks' & E & H1 & H2).
  destruct (run_eval (enter w id clock dl cap ws) now s) as [R1 R2].
  destruct (run _ now s) as [s' r]. rewrite E in R1, R2. simpl in *. subst. by exists s'.
Qed.

Lemma forget_run now s w q clock : holds now (content s) w q ->
  exists ks', eval (forgetExpired (admissionKey w) (admissionDeadlinesKey w) (admissionWorkspacesKey w) clock)
      now (content s) = (ks', Some tt) /\ holds now ks' w (pending clock q).
Proof. intros Hq. destruct (forgetExpired_holds now w clock _ q Hq) as (ks' & ? & ? & _). eauto. Qed.

(** Serial admission follows the order of arrival: [isHead] holds of exactly
    one request, the longest waiting one that is still in time, and the position
    reported to a waiting caller is its rank in the queue. *)
Theorem isHead_first now s w q id clock :
  holds now (content s) w q ->
  (exists s', run (isHead w id clock) now s = (s', Some (bool_decide (head (ids (pending clock q)) = Some id)))
     /\ holds now (content s') w (pending clock q))
  /\ run (position w id) now s
     = (fst (run (position w id) now s),
        Some (option_map (fun ie => Z.of_nat (fst ie) + 1)%Z (list_find (fun i => i = id) (ids q)))).
Proof.
  intros Hq. split.
  - destruct (forget_run now s w q clock Hq) as (ks' & E & Hq').
    pose proof (h_order _ _ _ _ Hq') as (z & n & Hz & Hzq & _).
    assert (eval (isHead w id clock) now (content s)
            = (ks', Some (bool_decide (head (ids (pending clock q)) = Some id)))) as Ei.
    { unfold isHead. rewrite eval_bind, E. cmd_step. rewrite <- Hzq. by destruct z as [|? [|]]. }
    destruct (run_eval (isHead w id clock) now s) as [R1 R2].
    destruct (run _ now s) as [s' r]. rewrite Ei in R1, R2. simpl in *. subst. by exists s'.
  - pose proof (h_order _ _ _ _ Hq) as (z & n & Hz & Hzq & _).
    destruct (run_eval (position w id) now s) as [_ R2]. destruct (run _ now s) as [s' r]. simpl in *.
    rewrite Hz in R2. simpl in R2. subst r. do 2 f_equal. rewrite <- Hzq. clear.
    induction z as [|x z IH]; [done|]. cbn [zrank fmap list_fmap list_find].
    destruct (decide (x.2 = id)) as [->|]; [by rewrite bool_decide_eq_true_2|].
    rewrite bool_decide_eq_false_2 by done. destruct (zrank id z), (list_find _ z.*2) as [[]|]; simpl in *;
      try done. injection IH as IH. f_equal. lia.
Qed.
End server.

Lemma holds_empty now w : holds now ∅ w [].
Proof.
  split.
  - exists [], 0%Z. repeat split; constructor.
  - by exists [].
  - exists ∅. split; [done|]. intros id ws. rewrite lookup_empty. split; [done|].
    intros (e & He & _). inversion He.
  - constructor.
Qed.

Lemma enter_fifo_witness :
  exists s', run (enter (js "w") (js "a") 1000 2000 32 None) 1000 (∅ : keyspace) = (s', Some true)
    /\ holds 1000 (content s') (js "w") [Waiting (js "a") 2000 None]
    /\ (forall k, k ∉ queueKeys (js "w") -> find 1000 (content s') k = find 1000 (content (∅ : keyspace)) k).
Proof.
  apply (enter_fifo 1000 (∅ : keyspace) (js "w") [] (js "a") 1000 2000 32 None);
    [apply holds_empty|exact I|lia|lia|done].
Defined.

Lemma isHead_first_witness :
  (exists s', run (isHead (js "w") (js "a") 1000) 1000 (∅ : keyspace) = (s', Some false)
     /\ holds 1000 (content s') (js "w") [])
  /\ run (position (js "w") (js "a")) 1000 (∅ : keyspace)
     = (fst (run (position (js "w") (js "a")) 1000 (∅ : keyspace)), Some None).
Proof. apply (isHead_first 1000 (∅ : keyspace) (js "w") [] (js "a") 1000). apply holds_empty. Defined.

(** ** Submission *)

Section submission.
Context (now : Z) (w id : jstr) (clock dl cap : Z) (ws : option jstr).
Context (key activeKey fingerprint record_ : jstr) (retentionMs : Z).

Abbreviation submission := (submit w id clock dl cap ws key activeKey fingerprint record_ retentionMs).

Lemma submit_known ks h f : as_hash (find now ks key) = Some h -> h !! js "fingerprint" = Some f ->
  eval submission now ks = (ks, Some (if bool_decide (f = fingerprint) then Existing else Conflict)).
Proof. intros Hh Hf. unfold submit. cmd_step. by rewrite Hf. Qed.

(** The record writes at the end of an accepted submission. *)
Lemma submit_record ks h za :
  as_hash (find now ks key) = Some h -> as_zset (find now ks activeKey) = Some za ->
  key <> activeKey -> (0 < retentionMs)%Z ->
  exists ks' h',
    eval (rd (HSET key [(js "record", record_); (js "fingerprint", fingerprint); (js "state", js "queued");
                        (js "queueDeadlineAtMs", dec dl)]);;
          rd (PEXPIREAT key (PX retentionMs));; rd (ZADD activeKey clock key);; Ret Accepted) now ks
      = (ks', Some Accepted)
    /\ as_hash (find now ks' key) = Some h' /\ h' !! js "fingerprint" = Some fingerprint
    /\ h' !! js "state" = Some (js "queued")
    /\ (forall k, k <> key -> k <> activeKey -> find now ks' k = find now ks k).
Proof.
  intros Hh Ha Hne Hr. cmd_step. set (h' := foldl _ h _). set (ks1 := put_hash _ _ _ _).
  destruct (expireat_future now ks1 key (now + retentionMs)%Z ltac:(lia)) as (ks2 & E & K1 & K2).
  assert (exec (PEXPIREAT key (PX retentionMs)) now ks1 = Some (ks2, tt)) as E' by exact E.
  rewrite (eval_step _ _ _ _ _ _ E').
  assert (as_zset (find now ks2 activeKey) = Some za) as Ha2
    by (rewrite K1 by done; unfold ks1; by rewrite hash_put_ne).
  cmd_step. eexists _, h'. split; [reflexivity|]. split; [|split; [|split]].
  - rewrite zset_put_ne, K2 by done. pose proof (hash_put_eq now ks key h') as Hp. fold ks1 in Hp.
    by destruct (find now ks1 key) as [[[] ?]|].
  - unfold h'. simpl. rewrite !lookup_insert_ne by (discriminate).
    apply lookup_insert_eq.
  - unfold h'. simpl. rewrite lookup_insert_ne by (discriminate).
    apply lookup_insert_eq.
  - intros k Hk1 Hk2. rewrite zset_put_ne, K1 by done. unfold ks1. by rewrite hash_put_ne.
Qed.

(** A durable submission takes effect once: resubmitting a known request
    changes nothing and reports whether the stored fingerprint is the same; a new
    one is refused only when the queue is full; otherwise it is queued at the end
    and recorded, so that repeating the submission reports it as existing. *)
Theorem submit_once {db} `{RedisServer db} (s : db) q h za :
  holds now (content s) w q -> numbered now (content s) w -> (now < clock + 30000)%Z -> (clock <= dl)%Z -> ws <> Some [] ->
  as_hash (find now (content s) key) = Some h -> as_zset (find now (content s) activeKey) = Some za ->
  key ∉ queueKeys w -> activeKey ∉ queueKeys w -> key <> activeKey -> (0 < retentionMs)%Z -> id ∉ ids q ->
  exists s' r, run submission now s = (s', Some r) /\
    match h !! js "fingerprint" with
    | Some f => r = (if bool_decide (f = fingerprint) then Existing else Conflict) /\ content s' = content s
    | None =>
        if (cap <=? Z.of_nat (length (pending clock q)))%Z then r = Full /\ holds now (content s') w (pending clock q)
        else r = Accepted /\ holds now (content s') w (pending clock q ++ [Waiting id dl ws])
             /\ snd (run submission now s') = Some Existing
    end.
Proof.
  intros Hq Hroom Ht Hdl Hws Hh Ha K1 K2 K3 Hr Hid.
  destruct (run submission now s) as [s' o] eqn:R. pose proof (run_eval_eq _ _ _ _ _ R) as E. clear R.
  exists s'. destruct (h !! js "fingerprint") as [f|] eqn:Ef.
  { rewrite (submit_known _ h f) in E by done. injection E as E1 <-. eexists. by repeat split. }
  unfold submit in E. erewrite eval_step in E by (cbn [exec]; rewrite Hh; reflexivity). rewrite Ef in E.
  rewrite eval_bind in E.
  destruct (forgetExpired_holds now w clock _ q Hq) as (ks1 & E1 & Hq1 & Hk1). rewrite E1 in E.
  pose proof (h_order _ _ _ _ Hq1) as (z & n & Hz & Hzq & _).
  erewrite eval_step in E by (cbn [exec]; rewrite Hz; reflexivity).
  rewrite (holds_length _ _ _ _ _ Hq1 Hz) in E.
  destruct (cap <=? Z.of_nat (length (pending clock q)))%Z.
  { injection E as E4 <-. rewrite <- E4. eexists. split; [done|]. by split. }
  assert (id ∉ ids (pending clock q)) as Hid'.
  { intros Hin. apply Hid. apply list_elem_of_fmap in Hin as (e & -> & He). apply list_elem_of_fmap_2.
    unfold pending in He. by apply filter_elem in He as [? _]. }
  destruct (append_holds now w ks1 (pending clock q) id dl (default [] ws) Hq1 (numbered_frame _ _ _ _ Hroom Hk1) Hid'
    (pending_forall clock now q Ht)) as (ks2 & E2 & Hq2 & Hk2); [lia|].
  rewrite eval_bind, E2, entryOf_option in * by done.
  assert (forall k, k ∉ queueKeys w -> find now ks2 k = find now (content s) k) as Hk.
  { intros k Hk. rewrite Hk2 by done. unfold queueKeys in Hk. rewrite !not_elem_of_cons in Hk.
    destruct Hk as (? & ? & ? & ? & _). by apply Hk1. }
  destruct (submit_record ks2 h za) as (ks3 & h' & E3 & Hh' & Hf' & _ & Hk3); [by rewrite Hk|by rewrite Hk|done..|].
  rewrite E3 in E. injection E as E4 <-. eexists. split; [done|]. split; [done|]. rewrite <- E4. split.
  - apply (holds_values now w ks2); [|done]. intros k Hin. unfold valueAt. rewrite Hk3; [done|congruence..].
  - destruct (run_eval submission now s') as [_ ->]. rewrite <- E4.
    rewrite (submit_known ks3 h' fingerprint) by done. by rewrite bool_decide_eq_true_2.
Qed.
End submission.

Lemma submit_once_witness :
  exists s' r,
    run (submit (js "w") (js "a") 1000 2000 32 None (js "req") (js "active") (js "f") (js "{}") 60000) 1000
      (∅ : keyspace) = (s', Some r)
    /\ (r = Accepted /\ holds 1000 (content s') (js "w") [Waiting (js "a") 2000 None]
        /\ snd (run (submit (js "w") (js "a") 1000 2000 32 None (js "req") (js "active") (js "f") (js "{}") 60000)
                 1000 s') = Some Existing).
Proof.
  epose proof (submit_once 1000 (js "w") (js "a") 1000 2000 32 None (js "req") (js "active") (js "f") (js "{}") 60000
    (∅ : keyspace) [] ∅ [] (holds_empty _ _) I) as W.
  rewrite lookup_empty in W. apply W; try done; try lia; [..|apply not_elem_of_nil];
    apply (bool_decide_unpack _); vm_compute; exact I.
Defined.
