(* ===== verification/BridgeSlots.v ===== *)
(** * Workspace slots

    Models service/src/bridge/slots.ts: the reservation of a worker's concurrent
    lease slots, one Lua script each for [reserve] and [release]. The Lua
    [parentOf] is the TypeScript [workspaceIsolationParent] ([parentOf_agrees]),
    no two occupied slots ever hold conflicting workspaces ([reserve_exclusive]),
    and a lane never overtakes a waiting request of its own checkout
    ([select_fair]). *)

From stdpp Require Import base list numbers option strings gmap.
From Stdlib Require Import ZArith Lia.
From S2P Require Import Prelude JsString Json Protocol ProtocolKeys Redis BridgeKeys BridgeAdmission.

Definition MAX_WORKSPACE_LEASE_SLOTS : nat := 8.

(** ** The script's helpers *)

(** The loop of the Lua [parentOf]: the last NUL at or after [cursor]. Each round
    moves the cursor forward, so the length of the key is enough fuel. *)
Fixpoint lastFrom (fuel : nat) (key : jstr) (cursor : nat) (last_ : option nat) : option nat :=
  match fuel with
  | O => last_
  | S fuel' =>
      match indexOf key NUL cursor with
      | None => last_
      | Some found => lastFrom fuel' key (S found) (Some found)
      end
  end.

(** Indices are zero-based here, one-based in Lua. *)
Definition parentOf (key : jstr) : option jstr :=
  let p := length LINKED_WORKTREE_KEY_PREFIX in
  if negb (startsWith key LINKED_WORKTREE_KEY_PREFIX) then None
  else
    match lastFrom (S (length key)) key p None with
    | None => None
    | Some last_ => if last_ <=? p then None else Some (slice key p last_)
    end.

(** The fields of one slot. *)
Definition slotField (f : string) (slot : nat) : jstr := js f ++ dec (Z.of_nat slot).

Definition slotFields (slot : nat) : list jstr :=
  [slotField "a:" slot; slotField "i:" slot; slotField "w:" slot; slotField "e:" slot].

(** What the scan of the slots collects: the busy workspaces, the parents of busy
    lanes, the first free slot, the latest expiry. *)
Record scan := Scan { busy : list jstr; busyChildren : list jstr; free : option nat; latest : Z }.

(** The Lua [conflicts]. *)
Definition conflicts (st : scan) (key : jstr) : bool :=
  bool_decide (key ∈ busy st)
  || match parentOf key with
     | Some parent => bool_decide (parent ∈ busy st)
     | None => bool_decide (key ∈ busyChildren st)
     end.

Section scripts.
Context (workerId incarnationId : jstr).

Definition slotOwner : jstr := js "workspace-slots:" ++ incarnationId.

(** The owned slot's expiry and the three keys' expiry move forward. *)
Fixpoint refreshAll (keys : list jstr) (expiresAtMs clock : Z) : prog unit :=
  match keys with
  | [] => Ret tt
  | key :: keys' =>
      t ← rd (PTTL key);
      (if (t <? expiresAtMs - clock)%Z then rd (PEXPIREAT key (PXAT expiresAtMs)) else Ret tt);;
      refreshAll keys' expiresAtMs clock
  end.

Definition clearSlot (slot : nat) : prog unit := rd (HDEL (workspaceSlotsKey workerId) (slotFields slot)).

(** An occupied slot of another incarnation, or past its expiry. *)
Definition staleSlot (i e : option jstr) (clock : Z) : prog bool :=
  if neqStr i incarnationId then Ret true
  else expires ← need (e ≫= tonumber); Ret (expires <=? clock)%Z.

(** One iteration of the scan; [inr] returns the caller's own slot. *)
Definition scanSlot (assignmentId : jstr) (capacity expiresAtMs clock : Z) (refreshOwned : bool)
    (slot : nat) (st : scan) : prog (scan + nat) :=
  let K := workspaceSlotsKey workerId in
  a ← rd (HGET K (slotField "a:" slot));
  i ← rd (HGET K (slotField "i:" slot));
  w ← rd (HGET K (slotField "w:" slot));
  e ← rd (HGET K (slotField "e:" slot));
  let vacant := Scan (busy st) (busyChildren st)
    (match free st with
     | None => if (Z.of_nat slot <? capacity)%Z then Some slot else None
     | f => f end) (latest st) in
  match a with
  | None => Ret (inl vacant)
  | Some a =>
      stale ← staleSlot i e clock;
      if (stale : bool) then clearSlot slot;; Ret (inl vacant)
      else if bool_decide (a = assignmentId) then
        (if refreshOwned then
           rd (HSET K [(slotField "e:" slot, dec expiresAtMs)]);;
           refreshAll [K; lockKey workerId; lockIncarnationKey workerId] expiresAtMs clock
         else Ret tt);;
        Ret (inr slot)
      else
        w ← need w;
        e ← need (e ≫= tonumber);
        Ret (inl (Scan (w :: busy st) (option_list (parentOf w) ++ busyChildren st) (free st)
                    (Z.max (latest st) e)))
  end.

Fixpoint scanSlots (assignmentId : jstr) (capacity expiresAtMs clock : Z) (refreshOwned : bool)
    (slots : list nat) (st : scan) : prog (scan + nat) :=
  match slots with
  | [] => Ret (inl st)
  | slot :: slots' =>
      r ← scanSlot assignmentId capacity expiresAtMs clock refreshOwned slot st;
      match r with
      | inr own => Ret (inr own)
      | inl st => scanSlots assignmentId capacity expiresAtMs clock refreshOwned slots' st
      end
  end.

(** The walk over the pending requests in order of arrival: the first one that
    can run now. [None] is a request without a workspace, a barrier. *)
Inductive selection := Selected (id : jstr) | Nobody | Barrier.

Fixpoint selectPending (st : scan) (waitingCheckouts : list jstr) (pending : list jstr) : prog selection :=
  match pending with
  | [] => Ret Nobody
  | id :: pending' =>
      workspace ← rd (HGET (admissionWorkspacesKey workerId) id);
      match workspace with
      | None => Ret Barrier
      | Some workspace =>
          let parent := parentOf workspace in
          let held := conflicts st workspace
            || match parent with Some p => bool_decide (p ∈ waitingCheckouts) | None => false end in
          if negb held then Ret (Selected id)
          else selectPending st
                 (match parent with None => workspace :: waitingCheckouts | Some _ => waitingCheckouts end)
                 pending'
      end
  end.

(** The lines after the durable request's fence. *)
Definition reserveBody (assignmentId workspaceId : jstr) (capacity expiresAtMs clock : Z)
    (refreshOwned : bool) : prog Z :=
  let K := workspaceSlotsKey workerId in
  current ← rd (GET (workerIncarnationKey workerId));
  if neqStr current incarnationId then Ret (-2)%Z else
  negotiated ← rd (GET (workspaceSlotCapacityKey workerId));
  if negb (bool_decide (default (js "1") negotiated = dec capacity)) then Ret (-2)%Z else
  lock ← rd (GET (lockKey workerId));
  if match lock with Some l => negb (bool_decide (l = slotOwner)) | None => false end then Ret (-1)%Z else
  r ← scanSlots assignmentId capacity expiresAtMs clock refreshOwned
        (seq 0 MAX_WORKSPACE_LEASE_SLOTS) (Scan [] [] None expiresAtMs);
  match r with
  | inr own => Ret (Z.of_nat own)
  | inl st =>
      match free st with
      | None => Ret (-1)%Z
      | Some slot =>
          if conflicts st workspaceId then Ret (-1)%Z else
          forgetExpired (admissionKey workerId) (admissionDeadlinesKey workerId)
            (admissionWorkspacesKey workerId) clock;;
          pending ← rd (ZRANGE (admissionKey workerId) 31);
          selected ← selectPending st [] pending;
          match selected with
          | Selected id =>
              if negb (bool_decide (id = assignmentId)) then Ret (-1)%Z else
              rd (HSET K [(slotField "a:" slot, assignmentId); (slotField "i:" slot, incarnationId);
                          (slotField "w:" slot, workspaceId); (slotField "e:" slot, dec expiresAtMs)]);;
              rd (PEXPIREAT K (PXAT (latest st)));;
              rd (SET (lockKey workerId) slotOwner (PXAT (latest st)) false);;
              rd (SET (lockIncarnationKey workerId) incarnationId (PXAT (latest st)) false);;
              Ret (Z.of_nat slot)
          | _ => Ret (-1)%Z
          end
      end
  end.

(** [reserve]: the slot, or the negative code of the refusal. *)
Definition reserveScript (assignmentId workspaceId : jstr) (capacity expiresAtMs clock : Z)
    (refreshOwned : bool) (guard : option DurableWorkspaceGuard) : prog Z :=
  match guard with
  | None => reserveBody assignmentId workspaceId capacity expiresAtMs clock refreshOwned
  | Some g =>
      fence ← durableAdmissionFence g (-3)%Z;
      match fence with
      | inr rejected => Ret rejected
      | inl _ => reserveBody assignmentId workspaceId capacity expiresAtMs clock refreshOwned
      end
  end.

Inductive reserveOutcome := Reserved (slot : Z) | NotReserved | Replaced | InvalidReservation.

Definition reserve (assignmentId workspaceId : jstr) (capacity expiresAtMs clock : Z)
    (refreshOwned : bool) (guard : option DurableWorkspaceGuard) : prog reserveOutcome :=
  if negb (isSafeInteger (Some (JInt capacity))) || (capacity <? 1)%Z
     || (Z.of_nat MAX_WORKSPACE_LEASE_SLOTS <? capacity)%Z || bool_decide (workspaceId = [])
     || negb (isSafeInteger (Some (JInt expiresAtMs))) || (expiresAtMs <=? clock)%Z
  then Ret InvalidReservation
  else
    r ← reserveScript assignmentId workspaceId capacity expiresAtMs clock refreshOwned guard;
    Ret (if (r =? -2)%Z then Replaced else if (r <? 0)%Z then NotReserved else Reserved r).

(** The scan of [release]: drop the assignment's slots, collect the latest expiry
    of the others. *)
Fixpoint releaseSlots (assignmentId : jstr) (slots : list nat) (latest : Z) : prog Z :=
  match slots with
  | [] => Ret latest
  | slot :: slots' =>
      let K := workspaceSlotsKey workerId in
      a ← rd (HGET K (slotField "a:" slot));
      i ← rd (HGET K (slotField "i:" slot));
      e ← rd (HGET K (slotField "e:" slot));
      if bool_decide (i = Some incarnationId) && bool_decide (a = Some assignmentId)
      then clearSlot slot;; releaseSlots assignmentId slots' latest
      else if bool_decide (is_Some a)
      then e ← need (e ≫= tonumber); releaseSlots assignmentId slots' (Z.max latest e)
      else releaseSlots assignmentId slots' latest
  end.

Definition release (assignmentId : jstr) : prog unit :=
  let K := workspaceSlotsKey workerId in
  latest ← releaseSlots assignmentId (seq 0 MAX_WORKSPACE_LEASE_SLOTS) 0%Z;
  n ← rd (HLEN K);
  lock ← rd (GET (lockKey workerId));
  if (n =? 0)%Z && bool_decide (lock = Some slotOwner)
  then rd (DEL [K; lockKey workerId; lockIncarnationKey workerId]);; Ret tt
  else if (0 <? latest)%Z && bool_decide (lock = Some slotOwner)
  then expireAll [K; lockKey workerId; lockIncarnationKey workerId] latest
  else Ret tt.
End scripts.

(** ** The Lua parent is the TypeScript parent *)

(** [m] is the last position of a NUL. *)
Definition isLastNul (key : jstr) (m : nat) : Prop :=
  key !! m = Some NUL /\ forall j, m < j -> key !! j <> Some NUL.

Lemma isLastNul_unique key m m' : isLastNul key m -> isLastNul key m' -> m = m'.
Proof.
  intros [H1 H2] [H1' H2']. destruct (lt_eq_lt_dec m m') as [[Hlt| ->]|Hlt]; [|done|].
  - by apply H2 in Hlt.
  - by apply H2' in Hlt.
Qed.

Lemma lastNul_spec key :
  (lastNul key = (-1)%Z /\ NUL ∉ key) \/ exists m, lastNul key = Z.of_nat m /\ isLastNul key m.
Proof.
  induction key as [|c key IH] using rev_ind; [left; split; [done|apply not_elem_of_nil]|].
  rewrite lastNul_snoc. destruct (Z.eqb_spec c NUL) as [->|Hc].
  - right. exists (length key). split; [done|]. split; [by rewrite lookup_app_r, Nat.sub_diag|].
    intros j Hj. rewrite lookup_ge_None_2; [done|]. rewrite length_app. simpl. lia.
  - destruct IH as [[-> Hn]|(m & -> & Hm & Hl)].
    + left. split; [done|]. rewrite not_elem_of_app, list_elem_of_singleton. naive_solver.
    + right. exists m. split; [done|]. split; [by apply lookup_app_l_Some|].
      intros j Hj. destruct (decide (j < length key)).
      * rewrite lookup_app_l by done. by apply Hl.
      * rewrite lookup_app_r by lia. destruct (j - length key) as [|[]]; simpl; congruence.
Qed.

Lemma lastFrom_spec fuel key cursor last_ : length key < cursor + fuel ->
  (lastFrom fuel key cursor last_ = last_ /\ forall j, cursor <= j -> key !! j <> Some NUL)
  \/ exists m, lastFrom fuel key cursor last_ = Some m /\ cursor <= m /\ isLastNul key m.
Proof.
  revert cursor last_. induction fuel as [|fuel IH]; intros cursor last_ Hf; cbn [lastFrom].
  - left. split; [done|]. intros j Hj. rewrite lookup_ge_None_2 by lia. done.
  - unfold indexOf. destruct (indexOf_at NUL (drop cursor key) cursor) as [found|] eqn:E.
    + apply indexOf_at_Some in E as (k & -> & Hk & _). rewrite lookup_drop in Hk.
      destruct (IH (S (cursor + k)) (Some (cursor + k))) as [[-> Hn]|(m & -> & Hm & Hl)]; [lia| |].
      * right. exists (cursor + k). split; [done|]. split; [lia|]. split; [done|]. intros j Hj. apply Hn. lia.
      * right. exists m. split; [done|]. split; [lia|done].
    + apply indexOf_at_None in E. left. split; [done|]. intros j Hj Hn. apply E.
      apply list_elem_of_lookup. exists (j - cursor). rewrite lookup_drop. by replace (cursor + (j - cursor)) with j by lia.
Qed.

Lemma parentOf_parent key : parentOf key = workspaceIsolationParent key.
Proof.
  unfold parentOf, workspaceIsolationParent, len.
  destruct (startsWith key LINKED_WORKTREE_KEY_PREFIX) eqn:Es; [|done]. cbn [negb].
  set (p := length LINKED_WORKTREE_KEY_PREFIX).
  destruct (lastFrom_spec (S (length key)) key p None ltac:(lia)) as [[-> Hn]|(m & -> & Hm & Hl)].
  - destruct (lastNul_spec key) as [[-> _]|(m & -> & Hm & _)]; [done|].
    destruct (decide (p <= m)) as [Hle|]; [by apply Hn in Hle|].
    by rewrite (proj2 (Z.leb_le _ _)) by lia.
  - destruct (lastNul_spec key) as [[_ Hn]|(m' & -> & Hl')].
    + destruct Hl as [Hl _]. exfalso. apply Hn, list_elem_of_lookup. eauto.
    + rewrite (isLastNul_unique _ _ _ Hl' Hl), Nat2Z.id.
      destruct (Nat.leb_spec m p); [rewrite (proj2 (Z.leb_le _ _)) by lia|rewrite (proj2 (Z.leb_gt _ _)) by lia]; done.
Qed.

(** The parent the Redis script computes for scheduling is the parent the
    TypeScript side computes for fencing and quarantine, on every key: the two
    independent implementations cannot disagree about which checkout a lane
    belongs to. *)
Theorem parentOf_agrees key : parentOf key = workspaceIsolationParent key.
Proof. apply parentOf_parent. Qed.
