(* ===== verification/BridgeSlotsProofs.v ===== *)
(** * Exclusive workspaces and fair selection

    The slot table of a worker is a Redis hash. [exclusive] says that no two of its
    slots hold the same assignment or conflicting workspaces; every run of
    [reserve] and [release], with any outcome, preserves it. *)

From stdpp Require Import base list numbers option strings gmap.
From Stdlib Require Import ZArith Lia.
From S2P Require Import Prelude JsString Json Protocol ProtocolKeys Redis BridgeKeys BridgeAdmission BridgeSlots.

(** ** The slot table *)

Definition hashOf (e : option entry) : gmap jstr jstr :=
  match e with Some (Entry (VHash h) _) => h | _ => ∅ end.

(** The assignment and workspace a slot holds. *)
Definition entryAt (h : gmap jstr jstr) (slot : nat) : option (jstr * jstr) :=
  a ← h !! slotField "a:" slot; w ← h !! slotField "w:" slot; Some (a, w).

(** A workspace key the request validators can produce. *)
Definition is_lane_key (w : jstr) : Prop := exists l, lane_ok l = true /\ w = lane_key l.

Definition exclusive (h : gmap jstr jstr) : Prop :=
  (forall n a w, n < MAX_WORKSPACE_LEASE_SLOTS -> entryAt h n = Some (a, w) -> is_lane_key w)
  /\ forall n m a w a' w', n < MAX_WORKSPACE_LEASE_SLOTS -> m < MAX_WORKSPACE_LEASE_SLOTS ->
       n <> m -> entryAt h n = Some (a, w) -> entryAt h m = Some (a', w') ->
       a <> a' /\ workspaceIsolationKeysConflict w w' = false.

Lemma slotField_inj f g n m : length (js f) = length (js g) ->
  slotField f n = slotField g m -> f = g /\ n = m.
Proof.
  unfold slotField. intros Hl E. apply app_inj_1 in E as [E1 E2]; [|done].
  apply js_inj in E1. apply dec_inj in E2. split; [done|lia].
Qed.

Lemma slotField_ne f g n m : length (js f) = length (js g) -> f <> g \/ n <> m ->
  slotField f n <> slotField g m.
Proof. intros Hl Hd E. apply slotField_inj in E as [-> ->]; [|done]. naive_solver. Qed.

Lemma hashOf_seen now ks k h : as_hash (find now ks k) = Some h -> h = hashOf (find now ks k).
Proof. destruct (find now ks k) as [[[] ?]|]; simpl; congruence. Qed.

(** A live key reads as its stored table; a dead one as the empty table. *)
Lemma seen_subset now ks k : hashOf (find now ks k) ⊆ hashOf (ks !! k).
Proof.
  unfold find. destruct (ks !! k) as [e|]; [|done]. destruct (alive now e); [done|]. apply map_empty_subseteq.
Qed.

Lemma entryAt_mono h h' n x : h ⊆ h' -> entryAt h n = Some x -> entryAt h' n = Some x.
Proof.
  unfold entryAt. intros Hs H. apply bind_Some in H as (a & Ha & H). apply bind_Some in H as (w & Hw & H).
  by rewrite (lookup_weaken _ _ _ _ Ha Hs), (lookup_weaken _ _ _ _ Hw Hs).
Qed.

Lemma exclusive_sub h h' :
  (forall n x, entryAt h' n = Some x -> entryAt h n = Some x) -> exclusive h -> exclusive h'.
Proof.
  intros Hs [H1 H2]. split; [eauto|]. intros n m a w a' w' Ln Lm Hne Hn Hm. by eapply (H2 n m); eauto.
Qed.

Lemma exclusive_empty : exclusive ∅.
Proof. split; [intros n a w _ H|intros n m a w a' w' _ _ _ H]; unfold entryAt in H; by rewrite lookup_empty in H. Qed.

Lemma hashOf_put now ks k h : hashOf (put_hash now ks k h !! k) = h.
Proof.
  unfold put_hash. case_decide; [subst; by rewrite lookup_delete_eq|]. unfold keep. by rewrite lookup_insert_eq.
Qed.

Lemma seen_put now ks k h : hashOf (find now (put_hash now ks k h) k) = h.
Proof. by rewrite <- (hashOf_seen now _ _ _ (hash_put_eq now ks k h)). Qed.

Lemma foldr_delete_subset (fs : list jstr) (h : gmap jstr jstr) : foldr (fun f m => delete f m) h fs ⊆ h.
Proof.
  induction fs as [|f fs IH]; simpl; [done|]. etransitivity; [apply delete_subseteq|done].
Qed.

Lemma workspaceSlotsKey_ne w :
  workspaceSlotsKey w <> lockKey w /\ workspaceSlotsKey w <> lockIncarnationKey w
  /\ workspaceSlotsKey w ∉ queueKeys w.
Proof.
  assert (forall s, s <> js ":workspace-slots" ->
            PREFIX ++ js ":worker:" ++ encodeURIComponent w ++ s <> workspaceSlotsKey w) as H.
  { intros s Hs E. unfold workspaceSlotsKey, workerKey in E. rewrite <- !app_assoc in E.
    do 3 apply app_inv_head in E. done. }
  unfold queueKeys, admissionDeadlinesKey, admissionSequenceKey, admissionWorkspacesKey, admissionKey.
  rewrite <- !app_assoc, !not_elem_of_cons. unfold lockKey, lockIncarnationKey.
  repeat split; try (apply not_eq_sym, H; discriminate). apply not_elem_of_nil.
Qed.

Section slots.
Context (now : Z) (w inc : jstr).

Abbreviation K := (workspaceSlotsKey w).
Abbreviation seen ks := (hashOf (find now ks K)).
Abbreviation stored ks := (hashOf (ks !! K)).

(** The stored entries of [ks'] are among those of [ks]. *)
Definition shrinks (ks ks' : keyspace) : Prop :=
  forall n x, entryAt (stored ks') n = Some x -> entryAt (stored ks) n = Some x.

Lemma shrinks_refl ks : shrinks ks ks.
Proof. by intros n x. Qed.

Lemma shrinks_trans ks1 ks2 ks3 : shrinks ks1 ks2 -> shrinks ks2 ks3 -> shrinks ks1 ks3.
Proof. unfold shrinks. eauto. Qed.

Lemma shrinks_frame ks ks' : ks' !! K = ks !! K -> shrinks ks ks'.
Proof. intros E n x. by rewrite E. Qed.

Lemma clearSlot_wp (slot : nat) (ks : keyspace) (Q : option unit -> keyspace -> Prop) :
  (forall ks' : keyspace, shrinks ks ks' -> seen ks' ⊆ seen ks -> seen ks' !! slotField "a:" slot = None -> Q (Some tt) ks') ->
  Q None ks -> wp (clearSlot w slot) now ks Q.
Proof.
  intros HQ Hn. unfold clearSlot. apply wp_cmd; [|done]. intros ks' [] E. cbn [exec] in E.
  destruct (as_hash (find now ks K)) as [h|] eqn:Eh; [|done].
  assert (ks' = put_hash now ks K (foldr (fun f m => delete f m) h (slotFields slot))) as -> by (cbn [mbind option_bind] in E; congruence).
  pose proof (hashOf_seen _ _ _ _ Eh) as ->. apply HQ.
  - intros n x. rewrite hashOf_put. intros Hx. eapply entryAt_mono; [|exact Hx].
    etransitivity; [apply foldr_delete_subset|apply seen_subset].
  - rewrite seen_put. apply foldr_delete_subset.
  - rewrite seen_put. unfold slotFields. cbn [foldr]. apply lookup_delete_eq.
Qed.

(** A command that adds no entry to the table, whatever the state. *)
Definition quiet (R : Type) (c : cmd R) : Prop :=
  forall ks ks' r, exec c now ks = Some (ks', r) -> shrinks ks ks'.

Lemma quiet_frame R (c : cmd R) : K ∉ writes c -> quiet R c.
Proof. intros Hk ks ks' r E. apply shrinks_frame. by eapply exec_frame. Qed.

Lemma quiet_expire k t : quiet unit (PEXPIREAT k t).
Proof.
  destruct (decide (k = K)) as [->|Hne]; [|apply quiet_frame; cbn [writes]; by rewrite list_elem_of_singleton].
  intros ks ks' [] E. cbn [exec] in E. destruct (find now ks K) as [e|] eqn:Ef, (expiry now t); simplify_eq;
    try apply shrinks_refl.
  assert (ks !! K = Some e) as El.
  { unfold find in Ef. destruct (ks !! K); [|done]. by destruct (alive now _); simplify_eq. }
  intros n x. rewrite El. case_match; [by rewrite lookup_delete_eq|]. rewrite lookup_insert_eq. by destruct e.
Qed.

Lemma quiet_del ks0 : quiet Z (DEL ks0).
Proof.
  intros ks ks' r E. cbn [exec] in E. simplify_eq. intros n x.
  destruct (decide (K ∈ ks0)) as [Hin|Hin]; [|by rewrite delete_frame].
  by rewrite delete_in.
Qed.

Lemma quiet_hdel fs : quiet unit (HDEL K fs).
Proof.
  intros ks ks' [] E. cbn [exec] in E. destruct (as_hash (find now ks K)) as [h|] eqn:Eh; [|done].
  assert (ks' = put_hash now ks K (foldr (fun f m => delete f m) h fs)) as -> by (cbn [mbind option_bind] in E; congruence).
  pose proof (hashOf_seen _ _ _ _ Eh) as ->. intros n x. rewrite hashOf_put. intros Hx.
  eapply entryAt_mono; [|exact Hx]. etransitivity; [apply foldr_delete_subset|apply seen_subset].
Qed.

Lemma quiet_hset_expiry slot v : quiet unit (HSET K [(slotField "e:" slot, v)]).
Proof.
  intros ks ks' [] E. cbn [exec] in E. destruct (as_hash (find now ks K)) as [h|] eqn:Eh; [|done].
  assert (ks' = put_hash now ks K (<[slotField "e:" slot := v]> h)) as -> by (cbn [mbind option_bind foldl fst snd] in E; congruence).
  pose proof (hashOf_seen _ _ _ _ Eh) as ->. intros n x. rewrite hashOf_put. unfold entryAt at 1.
  rewrite !lookup_insert_ne by (apply slotField_ne; [done|left; discriminate]).
  fold (entryAt (seen ks) n). intros Hx. eapply entryAt_mono; [apply seen_subset|done].
Qed.

Lemma quiet_wp {A} (p : prog A) (ks : keyspace) : commands quiet p -> wp p now ks (fun _ ks' => shrinks ks ks').
Proof.
  unfold wp. revert ks. induction p as [a|R c k IH|]; intros ks; cbn [commands eval];
    [intros _; apply shrinks_refl| |intros _; apply shrinks_refl].
  intros [Hc Hk]. destruct (exec c now ks) as [[ks' r]|] eqn:E; [|apply shrinks_refl].
  eapply shrinks_trans; [by eapply Hc|by apply IH].
Qed.
End slots.

Create HintDb quietdb.
#[export] Hint Resolve quiet_expire quiet_del quiet_hdel quiet_hset_expiry : quietdb.

(** ** The scan *)

(** The lanes of a parent are one level deep. *)
Lemma lane_parent_flat b v : is_lane_key b -> workspaceIsolationParent b = Some v ->
  workspaceIsolationParent v = None.
Proof.
  intros (l & Hl & ->) E. rewrite lane_parent in E by done. destruct (ln_worktree l); [|done].
  injection E as <-. by apply checkout_key_parent; [apply checkout_ok|].
Qed.

Lemma conflicts_sound st b v :
  is_lane_key b -> b ∈ busy st -> (forall p, parentOf b = Some p -> p ∈ busyChildren st) ->
  conflicts st v = false -> workspaceIsolationKeysConflict b v = false.
Proof.
  intros Hb Hin Hch. unfold conflicts, workspaceIsolationKeysConflict. rewrite !parentOf_parent in *.
  intros H. bools. rewrite !orb_false_iff, !bool_decide_eq_false.
  destruct (workspaceIsolationParent v) as [p|] eqn:Ev; bools.
  - split; [split|]; [congruence| |congruence]. intros E. apply lane_parent_flat in E; [congruence|done].
  - split; [split|]; [congruence| |done]. intros E. by apply Hch in E.
Qed.

Section scanning.
Context (now : Z) (w inc assignmentId : jstr) (capacity expiresAtMs clock : Z) (refreshOwned : bool).

Abbreviation K := (workspaceSlotsKey w).
Abbreviation seen ks := (hashOf (find now ks K)).
Abbreviation stored ks := (hashOf (ks !! K)).

Lemma wp_hget (f : jstr) (ks : keyspace) (Q : option (option jstr) -> keyspace -> Prop) :
  Q (Some (seen ks !! f)) ks -> Q None ks -> wp (rd (HGET K f)) now ks Q.
Proof.
  intros H1 H2. apply wp_cmd; [|done]. intros ks' r E. cbn [exec] in E.
  destruct (as_hash (find now ks K)) as [h|] eqn:Eh; [|done].
  pose proof (hashOf_seen _ _ _ _ Eh) as ->. cbn [mbind option_bind] in E. by simplify_eq.
Qed.

(** What the scan knows of the slots it has passed. *)
Definition scanned (slots : list nat) (ks : keyspace) (st : scan) : Prop :=
  (forall n a v, n ∈ slots -> entryAt (seen ks) n = Some (a, v) ->
     a <> assignmentId /\ v ∈ busy st /\ (forall p, parentOf v = Some p -> p ∈ busyChildren st))
  /\ (forall f, free st = Some f ->
      f ∈ slots /\ (Z.of_nat f < capacity)%Z /\ seen ks !! slotField "a:" f = None)
  /\ (expiresAtMs <= latest st)%Z.

Lemma scanned_mono slots ks ks' st : seen ks' ⊆ seen ks -> scanned slots ks st -> scanned slots ks' st.
Proof.
  intros Hs (H1 & H2 & H3). split; [|split; [|done]].
  - intros n a v Hn Hx. eapply H1; [done|]. by eapply entryAt_mono.
  - intros f Hf. destruct (H2 f Hf) as (? & ? & Hx). repeat split; try done.
    destruct (seen ks' !! slotField "a:" f) eqn:E; [|done]. by rewrite (lookup_weaken _ _ _ _ E Hs) in Hx.
Qed.

Lemma refresh_quiet slot : commands (quiet now w)
  (rd (HSET K [(slotField "e:" slot, dec expiresAtMs)]);;
   refreshAll [K; lockKey w; lockIncarnationKey w] expiresAtMs clock).
Proof.
  apply commands_bind; [split; [apply quiet_hset_expiry|done]|]. intros _.
  assert (forall keys, commands (quiet now w) (refreshAll keys expiresAtMs clock)) as H; [|apply H].
  induction keys as [|k keys IH]; cbn [refreshAll]; [done|].
  apply commands_bind; [split; [apply quiet_frame, not_elem_of_nil|done]|]. intros t.
  apply commands_bind; [|done]. destruct (t <? _)%Z; [split; [apply quiet_expire|done]|done].
Qed.

(** Refreshing an owned slot keeps its assignment. *)
Lemma refresh_owned slot (ks : keyspace) : seen ks !! slotField "a:" slot = Some assignmentId ->
  wp (rd (HSET K [(slotField "e:" slot, dec expiresAtMs)]);;
      refreshAll [K; lockKey w; lockIncarnationKey w] expiresAtMs clock) now ks
    (fun _ ks' => (now < expiresAtMs)%Z -> seen ks' !! slotField "a:" slot = Some assignmentId).
Proof.
  intros Ha. apply wp_bind, wp_cmd; [|done]. intros ks1 [] E. cbn [exec] in E.
  assert (seen ks1 !! slotField "a:" slot = Some assignmentId) as Ha1.
  { destruct (as_hash (find now ks K)) as [h|] eqn:Eh; [|done].
    assert (ks1 = put_hash now ks K (<[slotField "e:" slot := dec expiresAtMs]> h)) as ->
      by (cbn [mbind option_bind foldl fst snd] in E; congruence).
    rewrite (hashOf_seen _ _ _ _ Eh), seen_put, lookup_insert_ne; [done|].
    apply slotField_ne; [done|left; discriminate]. }
  clear E Ha. revert ks1 Ha1. generalize [K; lockKey w; lockIncarnationKey w] as keys.
  induction keys as [|k keys IH]; intros ks1 Ha1; cbn [refreshAll]; [by apply wp_ret|].
  apply wp_bind, wp_cmd; [|done]. intros ks2 t E. cbn [exec] in E. injection E as <- <-.
  apply wp_bind. destruct (_ <? _)%Z; [|by apply wp_ret, IH].
  apply wp_cmd; [|done]. intros ks3 [] E.
  destruct (decide (now < expiresAtMs)%Z) as [Ht|]; [|eapply wp_mono; [by apply wp_true|done]].
  apply IH. destruct (expireat_future now ks1 k expiresAtMs Ht) as (ks' & E' & Hne & Heq).
  assert (ks3 = ks') as -> by congruence.
  destruct (decide (k = K)) as [->|]; [|by rewrite Hne]. rewrite Heq. by destruct (find now ks1 K) as [[] |].
Qed.

(** A slot found vacant. *)
Lemma scanned_vacant slots slot ks st :
  scanned slots ks st -> seen ks !! slotField "a:" slot = None ->
  scanned (slots ++ [slot]) ks (Scan (busy st) (busyChildren st)
    (match free st with
     | None => if (Z.of_nat slot <? capacity)%Z then Some slot else None
     | f => f end) (latest st)).
Proof.
  intros (H1 & H2 & H3) Hv. split; [|split; [|done]].
  - intros n a v Hn Hx. apply elem_of_app in Hn as [Hn|Hn]; [by eapply H1|].
    apply list_elem_of_singleton in Hn as ->. unfold entryAt in Hx. by rewrite Hv in Hx.
  - intros f Hf. cbn [free] in Hf. destruct (free st) as [g|].
    + injection Hf as <-. destruct (H2 g eq_refl) as (? & ? & ?). rewrite elem_of_app. auto.
    + destruct (Z.ltb_spec (Z.of_nat slot) capacity); [|done]. injection Hf as <-.
      rewrite elem_of_app, list_elem_of_singleton. auto.
Qed.

Lemma scanSlot_wp slots slot ks st :
  scanned slots ks st ->
  wp (scanSlot w inc assignmentId capacity expiresAtMs clock refreshOwned slot st) now ks (fun r ks' =>
    shrinks w ks ks' /\
    match r with
    | Some (inl st') => scanned (slots ++ [slot]) ks' st' /\ seen ks' ⊆ seen ks
    | Some (inr own) => (now < expiresAtMs)%Z -> seen ks' !! slotField "a:" own = Some assignmentId
    | None => True
    end).
Proof.
  intros Hst. unfold scanSlot.
  do 4 (apply wp_bind, wp_hget; [|split; [apply shrinks_refl|done]]).
  destruct (seen ks !! slotField "a:" slot) as [a|] eqn:Ea.
  2: { apply wp_ret. split; [apply shrinks_refl|]. split; [|done]. by apply scanned_vacant. }
  apply wp_bind. unfold staleSlot.
  assert (wp (staleSlot inc (seen ks !! slotField "i:" slot) (seen ks !! slotField "e:" slot) clock) now ks
            (fun _ ks' => ks' = ks)) as Hstale.
  { unfold staleSlot. destruct (neqStr _ _); [done|]. by destruct (_ ≫= tonumber). }
  eapply wp_mono; [exact Hstale|]. intros [stale|] ks' ->; [|split; [apply shrinks_refl|done]].
  destruct stale.
  - apply wp_bind, clearSlot_wp; [|split; [apply shrinks_refl|done]]. intros ks' Hs Hsub Hv.
    apply wp_ret. split; [done|]. split; [|done]. apply scanned_vacant; [|done]. by eapply scanned_mono.
  - case_bool_decide as Ha.
    + apply wp_bind. subst a. destruct refreshOwned; [|do 2 apply wp_ret; split; [apply shrinks_refl|by intros _]].
      eapply wp_mono; [apply wp_and; [apply quiet_wp, refresh_quiet|by apply refresh_owned]|].
      intros [u|] ks' [Hs Ho]; [by apply wp_ret|done].
    + apply wp_bind, wp_need. destruct (seen ks !! slotField "w:" slot) as [v|] eqn:Ew;
        [|split; [apply shrinks_refl|done]].
      apply wp_bind, wp_need. destruct (_ ≫= tonumber) as [e|]; [|split; [apply shrinks_refl|done]].
      apply wp_ret. split; [apply shrinks_refl|]. split; [|done]. destruct Hst as (H1 & H2 & H3). split; [|split].
      * intros n a' v' Hn Hx. cbn [busy busyChildren]. apply elem_of_app in Hn as [Hn|Hn].
        { destruct (H1 n a' v' Hn Hx) as (? & ? & Hp). split; [done|]. split; [by right|].
          intros p Ep. apply elem_of_app. right. by apply Hp. }
        apply list_elem_of_singleton in Hn as ->. unfold entryAt in Hx. rewrite Ea, Ew in Hx.
        injection Hx as <- <-. split; [done|]. split; [by left|]. intros p ->. apply elem_of_app. by left; left.
      * intros f Hf. cbn [free] in Hf. destruct (H2 f Hf) as (? & ? & ?). rewrite elem_of_app. auto.
      * cbn [latest]. lia.
Qed.

Lemma scanSlots_wp slots done_ ks st :
  scanned done_ ks st ->
  wp (scanSlots w inc assignmentId capacity expiresAtMs clock refreshOwned slots st) now ks (fun r ks' =>
    shrinks w ks ks' /\
    match r with
    | Some (inl st') => scanned (done_ ++ slots) ks' st'
    | Some (inr own) => (now < expiresAtMs)%Z -> seen ks' !! slotField "a:" own = Some assignmentId
    | None => True
    end).
Proof.
  revert done_ ks st. induction slots as [|slot slots IH]; intros done_ ks st Hst; cbn [scanSlots].
  - apply wp_ret. rewrite app_nil_r. split; [apply shrinks_refl|done].
  - apply wp_bind. eapply wp_mono; [by apply scanSlot_wp|]. intros r ks1 [Hs Hr].
    destruct r as [[st1|own]|]; [|by apply wp_ret|done]. destruct Hr as [Hr _].
    eapply wp_mono; [by apply IH|]. intros r ks2 [Hs2 Hr2]. rewrite <- app_assoc in Hr2.
    split; [by eapply shrinks_trans|done].
Qed.
End scanning.

(** ** Reservation and release *)

Lemma workspaceIsolationKeysConflict_sym l r :
  workspaceIsolationKeysConflict l r = workspaceIsolationKeysConflict r l.
Proof.
  unfold workspaceIsolationKeysConflict. apply eq_iff_eq_true.
  rewrite !orb_true_iff, !bool_decide_eq_true. naive_solver.
Qed.


(** Scripts that only read, or write elsewhere. *)
Lemma avoids_ret {A} key (a : A) : avoids key (Ret a).
Proof. done. Qed.
Lemma avoids_rd {R} (key : jstr) (c : cmd R) : key ∉ writes c -> avoids key (rd c).
Proof. done. Qed.
Lemma avoids_bind {A B} key (p : prog A) (f : A -> prog B) :
  avoids key p -> (forall a, avoids key (f a)) -> avoids key (p ≫= f).
Proof. apply commands_bind. Qed.
Lemma avoids_need {A} key (o : option A) : avoids key (need o).
Proof. by destruct o. Qed.

Ltac avoids_auto :=
  repeat first
    [ apply avoids_ret | apply avoids_need
    | apply avoids_rd; cbn [writes]; rewrite ?list_elem_of_singleton, ?not_elem_of_cons;
      first [apply not_elem_of_nil | done | by apply not_eq_sym]
    | apply avoids_bind; [|intros ?]
    | case_match ].

(** The fence only reads, and rejects with the given code. *)
Lemma durableAdmissionFence_wp (now : Z) g rejected (ks : keyspace) :
  wp (durableAdmissionFence g rejected) now ks
    (fun r ks' => ks' = ks /\ match r with Some (inr x) => x = rejected | _ => True end).
Proof.
  unfold durableAdmissionFence, admissionTime.
  apply wp_read; [done| |done]. intros claim. destruct (neqStr _ _); [done|].
  apply wp_read; [done| |done]. intros state. destruct (neqStr _ _); [done|].
  apply wp_read; [done| |done]. intros cancel. destruct (bool_decide _); [done|].
  apply wp_bind, wp_read; [done| |done]. intros t. apply wp_ret.
  apply wp_read; [done| |done]. intros raw. apply wp_bind, wp_need.
  destruct (raw ≫= tonumber) as [d|]; [|done]. by destruct (_ <=? _)%Z.
Qed.

Lemma forgetExpired_avoids key o d ws clock :
  key <> o -> key <> d -> key <> ws -> avoids key (forgetExpired o d ws clock).
Proof.
  intros H1 H2 H3. unfold forgetExpired. apply avoids_bind; [avoids_auto|]. intros l.
  induction l as [|id l IH]; cbn [forgetAll]; [done|]. avoids_auto. exact IH.
Qed.

Lemma selectPending_avoids key w st wc l : avoids key (selectPending w st wc l).
Proof.
  revert wc. induction l as [|id l IH]; intros wc; cbn [selectPending]; [done|].
  apply avoids_bind; [avoids_auto|]. intros [v|]; [|done]. cbv zeta. case_match; [done|]. apply IH.
Qed.

Section reserving.
Context (now : Z) (w inc : jstr).

Abbreviation K := (workspaceSlotsKey w).
Abbreviation seen ks := (hashOf (find now ks K)).
Abbreviation stored ks := (hashOf (ks !! K)).

Lemma wp_avoiding {A B} (p : prog A) (f : A -> prog B) ks (Q : option B -> keyspace -> Prop) :
  avoids K p -> (forall a ks', ks' !! K = ks !! K -> wp (f a) now ks' Q) ->
  (forall ks', ks' !! K = ks !! K -> Q None ks') -> wp (p ≫= f) now ks Q.
Proof.
  intros Hp Hf Hn. apply wp_bind. eapply wp_mono; [by apply wp_avoids|]. intros [a|] ks' E; auto.
Qed.

(** The table after the new slot is written. *)
Lemma new_slot_exclusive ks st slot aid ws h :
  exclusive (stored ks) -> is_lane_key ws -> conflicts st ws = false ->
  (forall n a v, n < MAX_WORKSPACE_LEASE_SLOTS -> entryAt (seen ks) n = Some (a, v) ->
     a <> aid /\ v ∈ busy st /\ (forall p, parentOf v = Some p -> p ∈ busyChildren st)) ->
  h = <[slotField "w:" slot := ws]> (<[slotField "i:" slot := inc]> (<[slotField "a:" slot := aid]> (seen ks))) ->
  forall e, exclusive (<[slotField "e:" slot := e]> h).
Proof.
  intros Hex Hl Hc Hs -> e.
  assert (exclusive (seen ks)) as [E1 E2]
    by (eapply exclusive_sub; [|exact Hex]; intros n x; apply entryAt_mono, seen_subset).
  set (h := <[slotField "e:" slot := e]> _).
  assert (entryAt h slot = Some (aid, ws)) as Hnew.
  { assert (h !! slotField "a:" slot = Some aid) as Ha
      by (unfold h; rewrite !lookup_insert_ne by (apply slotField_ne; [done|left; discriminate]); apply lookup_insert_eq).
    assert (h !! slotField "w:" slot = Some ws) as Hw
      by (unfold h; rewrite lookup_insert_ne by (apply slotField_ne; [done|left; discriminate]); apply lookup_insert_eq).
    unfold entryAt. by rewrite Ha, Hw. }
  assert (forall n, n <> slot -> entryAt h n = entryAt (seen ks) n) as Hold.
  { intros n Hn. assert (forall f, length (js f) = 2 -> h !! slotField f n = seen ks !! slotField f n) as Hf
      by (intros f Hf; unfold h; by rewrite !lookup_insert_ne by (apply slotField_ne; [done|by right])).
    unfold entryAt. by rewrite !Hf. }
  assert (forall n a v, n < MAX_WORKSPACE_LEASE_SLOTS -> n <> slot -> entryAt h n = Some (a, v) ->
            a <> aid /\ workspaceIsolationKeysConflict v ws = false) as Hdis.
  { intros n a v Ln Hn Hx. rewrite Hold in Hx by done. destruct (Hs _ _ _ Ln Hx) as (? & ? & ?).
    split; [done|]. eapply conflicts_sound; eauto. }
  split.
  - intros n a v Ln Hx. destruct (decide (n = slot)) as [->|Hn]; [congruence|]. rewrite Hold in Hx by done. eauto.
  - intros n m a v a' v' Ln Lm Hnm Hn Hm. destruct (decide (n = slot)) as [->|].
    + rewrite Hnew in Hn. injection Hn as <- <-. destruct (Hdis m a' v') as [? Hcf]; [done..|].
      split; [done|]. by rewrite workspaceIsolationKeysConflict_sym.
    + destruct (decide (m = slot)) as [->|].
      * rewrite Hnew in Hm. injection Hm as <- <-. by apply (Hdis n).
      * rewrite Hold in Hn, Hm by done. by eapply (E2 n m).
Qed.

Lemma frame_seen ks ks' : ks' !! K = ks !! K -> seen ks' = seen ks.
Proof. unfold find. by intros ->. Qed.

(** The end of [reserve]: the slot is written, then the keys' expiry. *)
Lemma reserve_commit_wp (ks : keyspace) st slot aid ws e (Q : option Z -> keyspace -> Prop) :
  exclusive (stored ks) -> is_lane_key ws -> conflicts st ws = false ->
  (forall n a v, n < MAX_WORKSPACE_LEASE_SLOTS -> entryAt (seen ks) n = Some (a, v) ->
     a <> aid /\ v ∈ busy st /\ (forall p, parentOf v = Some p -> p ∈ busyChildren st)) ->
  (forall ks', exclusive (stored ks') ->
     ((now < latest st)%Z -> seen ks' !! slotField "a:" slot = Some aid) -> Q (Some (Z.of_nat slot)) ks') ->
  (forall ks', exclusive (stored ks') -> Q None ks') ->
  wp (rd (HSET K [(slotField "a:" slot, aid); (slotField "i:" slot, inc);
                  (slotField "w:" slot, ws); (slotField "e:" slot, e)]);;
      rd (PEXPIREAT K (PXAT (latest st)));;
      rd (SET (lockKey w) (slotOwner inc) (PXAT (latest st)) false);;
      rd (SET (lockIncarnationKey w) inc (PXAT (latest st)) false);;
      Ret (Z.of_nat slot)) now ks Q.
Proof.
  intros Hex Hl Hc Hs HQ HN. destruct (workspaceSlotsKey_ne w) as (N1 & N2 & _).
  apply wp_bind, wp_cmd; [|intros _; by apply HN]. intros ks1 [] E. cbn [exec] in E.
  destruct (as_hash (find now ks K)) as [h0|] eqn:Eh; [|done].
  pose proof (hashOf_seen _ _ _ _ Eh) as ->. cbn [mbind option_bind foldl fst snd] in E.
  set (h := <[slotField "e:" slot := e]> _) in E. assert (ks1 = put_hash now ks K h) as -> by congruence.
  assert (exclusive (stored (put_hash now ks K h))) as Hex1
    by (rewrite hashOf_put; eapply new_slot_exclusive; eauto).
  assert (seen (put_hash now ks K h) !! slotField "a:" slot = Some aid) as Ha.
  { rewrite seen_put. unfold h. rewrite !lookup_insert_ne by (apply slotField_ne; [done|left; discriminate]).
    apply lookup_insert_eq. }
  apply wp_bind, wp_cmd; [|intros _; by apply HN]. intros ks2 [] E2.
  assert (exclusive (stored ks2)) as Hex2
    by (eapply exclusive_sub; [|exact Hex1]; by apply (quiet_expire now w) in E2).
  assert ((now < latest st)%Z -> seen ks2 !! slotField "a:" slot = Some aid) as Ha2.
  { intros Ht. destruct (expireat_future now (put_hash now ks K h) K (latest st) Ht) as (ks' & E' & _ & Heq).
    assert (ks2 = ks') as -> by congruence. rewrite Heq.
    destruct (find now (put_hash now ks K h) K) as [[]|]; exact Ha. }
  apply wp_avoiding; [avoids_auto| |]; [|intros ks' E3; apply HN; by rewrite E3].
  intros b ks3 E3. apply wp_avoiding; [avoids_auto| |]; [|intros ks' E4; apply HN; by rewrite E4, E3].
  intros b' ks4 E4. apply wp_ret, HQ; [by rewrite E4, E3|]. intros Ht.
  rewrite (frame_seen ks2 ks4) by congruence. by apply Ha2.
Qed.

Lemma slots_all n : n < MAX_WORKSPACE_LEASE_SLOTS -> n ∈ seq 0 MAX_WORKSPACE_LEASE_SLOTS.
Proof. intros H. apply elem_of_seq. lia. Qed.

(** What every run of the script establishes: the table stays exclusive, and a
    slot it returns is held by the caller. *)
Definition reserved_ok (aid : jstr) (expiresAtMs : Z) (r : option Z) (ks' : keyspace) : Prop :=
  exclusive (stored ks')
  /\ forall n, r = Some n -> (0 <= n)%Z -> (now < expiresAtMs)%Z ->
       seen ks' !! slotField "a:" (Z.to_nat n) = Some aid.

Lemma reserved_refused aid e r (ks ks' : keyspace) : ks' !! K = ks !! K -> exclusive (stored ks) ->
  match r with Some n => (n < 0)%Z | None => True end -> reserved_ok aid e r ks'.
Proof. intros E Hex Hr. split; [by rewrite E|]. intros n -> Hn. lia. Qed.

Lemma reserved_here aid e r (ks : keyspace) : exclusive (stored ks) ->
  match r with Some n => (n < 0)%Z | None => True end -> reserved_ok aid e r ks.
Proof. by apply reserved_refused. Qed.

Lemma reserve_select_wp (ks : keyspace) st slot aid ws capacity expiresAtMs clock :
  exclusive (stored ks) -> is_lane_key ws -> conflicts st ws = false ->
  scanned now w aid capacity expiresAtMs (seq 0 MAX_WORKSPACE_LEASE_SLOTS) ks st ->
  wp (forgetExpired (admissionKey w) (admissionDeadlinesKey w) (admissionWorkspacesKey w) clock;;
      pending ← rd (ZRANGE (admissionKey w) 31);
      selected ← selectPending w st [] pending;
      match selected with
      | Selected id =>
          if negb (bool_decide (id = aid)) then Ret (-1)%Z else
          rd (HSET K [(slotField "a:" slot, aid); (slotField "i:" slot, inc);
                      (slotField "w:" slot, ws); (slotField "e:" slot, dec expiresAtMs)]);;
          rd (PEXPIREAT K (PXAT (latest st)));;
          rd (SET (lockKey w) (slotOwner inc) (PXAT (latest st)) false);;
          rd (SET (lockIncarnationKey w) inc (PXAT (latest st)) false);;
          Ret (Z.of_nat slot)
      | _ => Ret (-1)%Z
      end) now ks (reserved_ok aid expiresAtMs).
Proof.
  intros Hex Hl Ec (Hscan & _ & Hlat). destruct (workspaceSlotsKey_ne w) as (_ & _ & N3).
  unfold queueKeys in N3. rewrite !not_elem_of_cons in N3. destruct N3 as (M1 & M2 & _ & M4 & _).
  apply wp_avoiding; [by apply forgetExpired_avoids| |intros ks' E; by eapply reserved_refused].
  intros [] ks2 E2. rewrite <- E2 in Hex.
  apply wp_avoiding; [avoids_auto| |intros ks' E; by eapply reserved_refused]. intros pend ks3 E3.
  rewrite <- E3 in Hex.
  apply wp_avoiding; [apply selectPending_avoids| |intros ks' E; by eapply reserved_refused]. intros sel ks4 E4.
  assert (ks4 !! K = ks !! K) as E by congruence. rewrite <- E4 in Hex.
  destruct sel as [id| |]; [|apply wp_ret; by apply reserved_here..].
  destruct (negb (bool_decide (id = aid))); [apply wp_ret; by apply reserved_here|].
  apply reserve_commit_wp; try done.
  - intros n a v Hn. rewrite (frame_seen ks ks4) by done. apply Hscan. by apply slots_all.
  - intros ks' Hex' Ha. split; [done|]. intros n [= <-] Hn Ht. rewrite Nat2Z.id. apply Ha. lia.
Qed.

Lemma reserveBody_wp (ks : keyspace) aid ws capacity expiresAtMs clock refreshOwned :
  exclusive (stored ks) -> is_lane_key ws ->
  wp (reserveBody w inc aid ws capacity expiresAtMs clock refreshOwned) now ks (reserved_ok aid expiresAtMs).
Proof.
  intros Hex Hl. unfold reserveBody.
  apply wp_read; [done| |by apply reserved_here]. intros cur.
  destruct (neqStr cur inc); [by apply reserved_here|].
  apply wp_read; [done| |by apply reserved_here]. intros neg.
  destruct (negb _); [by apply reserved_here|].
  apply wp_read; [done| |by apply reserved_here]. intros lock.
  destruct (match lock with Some l => negb (bool_decide (l = slotOwner inc)) | None => false end);
    [by apply reserved_here|].
  apply wp_bind. eapply wp_mono.
  { apply (scanSlots_wp now w inc aid capacity expiresAtMs clock refreshOwned _ []).
    split; [intros n ? ? Hn; inversion Hn|]. split; [done|simpl; lia]. }
  intros r ks1 [Hs Hr]. apply exclusive_sub with (h' := stored ks1) in Hex; [|exact Hs].
  destruct r as [[st|own]|]; [| |by apply reserved_here].
  - cbn [app] in Hr. destruct (free st) as [slot|]; [|by apply reserved_here].
    destruct (conflicts st ws) eqn:Ec; [by apply reserved_here|]. by eapply reserve_select_wp.
  - apply wp_ret. split; [done|]. intros n [= <-] _ Ht. rewrite Nat2Z.id. by apply Hr.
Qed.

Lemma reserveScript_wp (ks : keyspace) aid ws capacity expiresAtMs clock refreshOwned guard :
  exclusive (stored ks) -> is_lane_key ws ->
  wp (reserveScript w inc aid ws capacity expiresAtMs clock refreshOwned guard) now ks
    (reserved_ok aid expiresAtMs).
Proof.
  intros Hex Hl. destruct guard as [g|]; cbn [reserveScript]; [|by apply reserveBody_wp].
  apply wp_bind. eapply wp_mono; [apply durableAdmissionFence_wp|].
  intros [[t|x]|] ks' [-> Hx]; [by apply reserveBody_wp| |by apply reserved_here].
  subst x. by apply reserved_here.
Qed.

Lemma releaseSlots_quiet aid slots latest : commands (quiet now w) (releaseSlots w inc aid slots latest).
Proof.
  revert latest. induction slots as [|slot slots IH]; intros latest; cbn [releaseSlots]; [done|]. cbv zeta.
  do 3 (apply commands_bind; [split; [apply quiet_frame, not_elem_of_nil|done]|intros ?]).
  case_match; [apply commands_bind; [split; [apply quiet_hdel|done]|done]|].
  case_match; [|done]. apply commands_bind; [by destruct (_ ≫= tonumber)|done].
Qed.

Lemma release_quiet aid : commands (quiet now w) (release w inc aid).
Proof.
  unfold release. apply commands_bind; [apply releaseSlots_quiet|]. intros l.
  do 2 (apply commands_bind; [split; [apply quiet_frame, not_elem_of_nil|done]|intros ?]).
  case_match; [apply commands_bind; [split; [apply quiet_del|done]|done]|]. case_match; [|done].
  generalize [K; lockKey w; lockIncarnationKey w]. intros keys.
  induction keys as [|k keys IH]; cbn [expireAll]; [done|].
  apply commands_bind; [split; [apply quiet_expire|done]|done].
Qed.
End reserving.

(** ** Every interleaving of replicas *)

Section machine.
Context {db : Type} `{RedisServer db}.
Context (w : jstr).

Definition slotTable (s : db) : gmap jstr jstr := hashOf (content s !! workspaceSlotsKey w).

(** One atomic step of some replica, at any Redis time: a reservation of a valid
    lane by any incarnation with any outcome (a Lua error included), a release, or
    any script that does not write the table. *)
Inductive slot_step : db -> db -> Prop :=
| step_reserve now s s' r inc aid ws capacity expiresAtMs clock refreshOwned guard :
    is_lane_key ws ->
    run (reserve w inc aid ws capacity expiresAtMs clock refreshOwned guard) now s = (s', r) -> slot_step s s'
| step_release now s s' r inc aid :
    run (release w inc aid) now s = (s', r) -> slot_step s s'
| step_other A now s s' r (p : prog A) :
    avoids (workspaceSlotsKey w) p -> run p now s = (s', r) -> slot_step s s'.

Lemma reserve_wp now ks inc aid ws capacity expiresAtMs clock refreshOwned guard :
  exclusive (hashOf (ks !! workspaceSlotsKey w)) -> is_lane_key ws ->
  wp (reserve w inc aid ws capacity expiresAtMs clock refreshOwned guard) now ks
    (fun r ks' => exclusive (hashOf (ks' !! workspaceSlotsKey w))
       /\ forall n, r = Some (Reserved n) -> (now < expiresAtMs)%Z ->
            hashOf (find now ks' (workspaceSlotsKey w)) !! slotField "a:" (Z.to_nat n) = Some aid).
Proof.
  intros Hex Hl. unfold reserve. destruct (_ || _); [done|]. apply wp_bind.
  eapply wp_mono; [by apply reserveScript_wp|]. intros [r|] ks' [Hex' Hr]; [|done].
  apply wp_ret. split; [done|]. intros n Hn Ht. destruct (Z.eqb_spec r (-2)); [done|].
  destruct (Z.ltb_spec r 0); [done|]. injection Hn as <-. by apply Hr.
Qed.

Lemma slot_step_exclusive s s' : slot_step s s' -> exclusive (slotTable s) -> exclusive (slotTable s').
Proof.
  unfold slotTable. destruct 1 as [now s s' r inc aid ws cap e c ro g Hl E|now s s' r inc aid E|A now s s' r p Hp E];
    intros Hex.
  - by destruct (run_wp _ _ _ _ _ _ E (reserve_wp now (content s) inc aid ws cap e c ro g Hex Hl)) as [? _].
  - eapply exclusive_sub; [|exact Hex]. eapply (run_wp _ _ _ _ _ (fun _ ks' => shrinks w (content s) ks') E).
    apply quiet_wp, release_quiet.
  - pose proof (run_wp _ _ _ _ _ (fun _ ks' => ks' !! workspaceSlotsKey w = content s !! workspaceSlotsKey w) E
      (wp_avoids _ _ _ _ Hp)) as ->. done.
Qed.

(** (C17) Slots are mutually exclusive under every interleaving: starting from a
    worker without slots, after any sequence of reservations, releases and other
    scripts by any replicas and incarnations, at any times and with any outcomes,
    no two slots hold the same assignment or lanes that share files. A successful
    reservation leaves the caller holding the slot it returned. *)
Theorem slots_always_exclusive s0 s now s' inc aid ws capacity expiresAtMs clock refreshOwned guard slot :
  slotTable s0 = ∅ -> rtc slot_step s0 s -> is_lane_key ws ->
  run (reserve w inc aid ws capacity expiresAtMs clock refreshOwned guard) now s = (s', Some (Reserved slot)) ->
  exclusive (slotTable s) /\ exclusive (slotTable s')
  /\ ((now < expiresAtMs)%Z ->
      hashOf (find now (content s') (workspaceSlotsKey w)) !! slotField "a:" (Z.to_nat slot) = Some aid).
Proof.
  intros H0 Hr Hl E.
  assert (exclusive (slotTable s)) as Hex.
  { clear E. assert (exclusive (slotTable s0)) as Hex0 by (rewrite H0; apply exclusive_empty). clear H0.
    induction Hr as [s|s0 s1 s Hstep _ IH]; [done|]. by apply IH, (slot_step_exclusive s0). }
  destruct (run_wp _ _ _ _ _ _ E (reserve_wp now _ inc aid ws capacity expiresAtMs clock refreshOwned guard Hex Hl))
    as [Hex' Hheld].
  split; [done|]. split; [done|]. by apply Hheld.
Qed.
End machine.

(** A registered worker with two slots and one waiting request. *)
Definition slots_example : keyspace :=
  fst (eval (rd (SET (workerIncarnationKey (js "w")) (js "incarnation-0001") NOTTL false);;
             rd (SET (workspaceSlotCapacityKey (js "w")) (js "2") NOTTL false);;
             append (js "w") (js "a1") 90000 (js "repo")) 1000 ∅).

Lemma slots_always_exclusive_witness :
  let r := run (reserve (js "w") (js "incarnation-0001") (js "a1") (js "repo") 2 60000 1000 false None)
             1000 slots_example in
  exclusive (slotTable (js "w") slots_example) /\ exclusive (slotTable (js "w") (fst r))
  /\ ((1000 < 60000)%Z ->
      hashOf (find 1000 (content (fst r)) (workspaceSlotsKey (js "w"))) !! slotField "a:" (Z.to_nat 0)
      = Some (js "a1")).
Proof.
  apply (slots_always_exclusive (js "w") slots_example slots_example 1000
           (fst (run (reserve (js "w") (js "incarnation-0001") (js "a1") (js "repo") 2 60000 1000 false None)
              1000 slots_example))
           (js "incarnation-0001") (js "a1") (js "repo") 2 60000 1000 false None 0).
  - apply map_eq. intros k. vm_compute. reflexivity.
  - apply rtc_refl.
  - exists (Lane (js "repo") None None). split; vm_compute; reflexivity.
  - apply run_result. vm_compute. reflexivity.
Defined.

(** ** Fair selection *)

(** A request is blocked by the running work, or by a waiting request of its
    checkout among the older ones. *)
Definition blocked (st : scan) (older : list (jstr * jstr)) (v : jstr) : Prop :=
  conflicts st v = true \/ exists i c, (i, c) ∈ older /\ parentOf c = None /\ parentOf v = Some c.

Section selection.
Context (now : Z) (w : jstr) (st : scan).

(** The workspace a waiting request asked for. *)
Abbreviation workspaceOf ks i := (hashOf (find now ks (admissionWorkspacesKey w)) !! i).

(** The selection of [id] from [pending], with [older] requests already passed. *)
Definition selects (ks : keyspace) (older : list (jstr * jstr)) (pending : list jstr) (id : jstr) : Prop :=
  exists passed after v, pending = (fst <$> passed) ++ id :: after /\ workspaceOf ks id = Some v
    /\ ~ blocked st (older ++ passed) v
    /\ Forall (fun ic => workspaceOf ks (fst ic) = Some (snd ic)) passed
    /\ forall before x rest, passed = before ++ x :: rest -> blocked st (older ++ before) (snd x).

Lemma held_blocked (older : list (jstr * jstr)) (wc : list jstr) v :
  (forall c, c ∈ wc <-> exists i, (i, c) ∈ older /\ parentOf c = None) ->
  conflicts st v || match parentOf v with Some p => bool_decide (p ∈ wc) | None => false end = true
  <-> blocked st older v.
Proof.
  intros Hwc. unfold blocked. rewrite orb_true_iff. destruct (parentOf v) as [p|].
  - rewrite bool_decide_eq_true, Hwc. naive_solver.
  - naive_solver.
Qed.

Lemma selectPending_spec (pending : list jstr) (ks : keyspace) id (wc : list jstr) (older : list (jstr * jstr)) :
  (forall c, c ∈ wc <-> exists i, (i, c) ∈ older /\ parentOf c = None) ->
  wp (selectPending w st wc pending) now ks (fun r ks' => ks' = ks /\
    (r = Some (Selected id) -> selects ks older pending id)).
Proof.
  revert wc older. induction pending as [|i pending IH]; intros wc older Hwc; cbn [selectPending].
  { by apply wp_ret. }
  apply wp_bind, wp_cmd; [|done]. intros ks' r E.
  assert (ks' = ks) as -> by (eapply exec_read; [|exact E]; done).
  assert (r = workspaceOf ks i) as ->.
  { cbn [exec] in E. destruct (as_hash (find now ks (admissionWorkspacesKey w))) as [h|] eqn:Eh; [|done].
    rewrite <- (hashOf_seen _ _ _ _ Eh). cbn [mbind option_bind] in E. congruence. }
  destruct (workspaceOf ks i) as [v|] eqn:Ev; [|by apply wp_ret]. cbv zeta.
  pose proof (held_blocked older wc v Hwc) as Hb.
  destruct (conflicts st v || _); cbn [negb].
  - eapply wp_mono.
    { apply (IH _ (older ++ [(i, v)])). intros c. setoid_rewrite elem_of_app. setoid_rewrite list_elem_of_singleton.
      destruct (parentOf v) eqn:Ep; rewrite ?elem_of_cons, Hwc; naive_solver. }
    intros r ks' [-> Hr]. split; [done|]. intros Er.
    destruct (Hr Er) as (passed & after & v' & -> & Hv & Hno & HF & Hbl).
    exists ((i, v) :: passed), after, v'. rewrite <- app_assoc in Hno.
    split; [done|]. split; [done|]. split; [done|]. split; [by constructor|].
    intros before x rest Eq. destruct before as [|y before]; simplify_eq/=.
    + rewrite app_nil_r. by apply Hb.
    + rewrite (cons_middle _ older before), app_assoc. by eapply Hbl.
  - apply wp_ret. split; [done|]. intros [= ->]. exists [], pending, v. rewrite app_nil_r.
    split; [done|]. split; [done|]. split; [by rewrite <- Hb|]. split; [constructor|].
    intros [|] x rest [=].
Qed.
End selection.

(** Selection is first-come first-served among the requests that can run,
    and a lane never overtakes a waiting request of its own checkout: the request
    selected for a free slot is not blocked, and each older waiting request it
    passes is blocked, by running work or by an even older request for its
    checkout. *)
Theorem select_fair {db} `{RedisServer db} now s s' w st pending id :
  run (selectPending w st [] pending) now s = (s', Some (Selected id)) ->
  content s' = content s /\ selects now w st (content s) [] pending id.
Proof.
  intros E. destruct (run_wp _ _ _ _ _ _ E (selectPending_spec now w st pending (content s) id [] [] ltac:(set_solver)))
    as [Hs Hr]. split; [done|]. by apply Hr.
Qed.

Lemma select_fair_witness :
  let st := Scan [] [] (Some 0) 60000 in
  content (fst (run (selectPending (js "w") st [] [js "a1"]) 1000 slots_example)) = content slots_example
  /\ selects 1000 (js "w") st (content slots_example) [] [js "a1"] (js "a1").
Proof. cbv zeta. apply select_fair. apply run_result. vm_compute. reflexivity. Defined.
