(* ===== verification/BridgeStore.v ===== *)
(** * The bridge store: data and scripts

    Models the data of service/src/bridge/store.ts and every Lua script and Redis
    command it sends, one [prog] each. A script takes the arguments the method
    computes; the methods that send the scripts are in BridgeMethods. The results
    are the numbers the scripts return. *)

From stdpp Require Import base list numbers option strings gmap.
From Stdlib Require Import ZArith Lia.
From S2P Require Import Prelude JsString Json Protocol ProtocolKeys Redis JsonText BridgeKeys BridgeAdmission BridgeSlots.

(** ** Errors *)

Inductive BridgeStoreErrorCode :=
| WORKER_OFFLINE | WORKER_UNAUTHORIZED | WORKER_BUSY | WORKER_QUEUE_FULL | WORKSPACE_QUEUE_TIMEOUT
| ASSIGNMENT_EXPIRED | ASSIGNMENT_FENCED | ASSIGNMENT_NOT_FOUND | WORKER_FENCED | WORKER_QUARANTINED
| WORKSPACE_QUARANTINED | WORKER_MISMATCH | ASSIGNMENT_INVALID | RESULT_INVALID.

#[global] Instance BridgeStoreErrorCode_dec : EqDecision BridgeStoreErrorCode.
Proof. solve_decision. Defined.

(** The codes of a [BridgePairingError]. *)
Inductive BridgePairingErrorCode :=
| PAIRING_INVALID | PUBLIC_KEY_INVALID | CREDENTIAL_INVALID | PROOF_INVALID | PROOF_REPLAYED
| ENROLLMENT_INVALID | CHALLENGE_INVALID | RECOVERY_RATE_LIMITED.

#[global] Instance BridgePairingErrorCode_dec : EqDecision BridgePairingErrorCode.
Proof. solve_decision. Defined.

(** What a method throws: a [BridgeStoreError], a [BridgePairingError], a [WorkspaceRequestConflict], the
    rejection of a Redis command (timed out, aborted or failed), or another [Error]. *)
Inductive error :=
| StoreError (code : BridgeStoreErrorCode) | PairingError (code : BridgePairingErrorCode)
| RequestConflict | Thrown (message : string) | CommandFailed | OtherError.

#[global] Instance error_dec : EqDecision error.
Proof. solve_decision. Defined.

(** ** Assignments *)

Record AssignmentOwnership := Ownership {
  assignmentId : jstr;
  workerId : jstr;
  incarnationId : jstr;
  workspaceFence : option jstr;
  workspaceLeaseSlot : option Z;
  generation : Z;
  leaseTokenHash : jstr;
  workerIdentityId : option jstr;
  expiresAt : jstr;
  runtimeSessionId : option jstr;
  durableRequestKey : option jstr;
}.

Record StoredAssignment := Stored {
  owned :> AssignmentOwnership;
  leaseToken : jstr;
  executionKind : option jstr;
  workspaceId : option jstr;
  request : json;
}.

(** A property that is omitted when undefined. *)
Definition optProp {A} (k : string) (f : A -> json) (v : option A) : record :=
  match v with Some v => [(js k, f v)] | None => [] end.

Definition ownershipFields (o : AssignmentOwnership) : record :=
  [(js "assignmentId", JStr (assignmentId o)); (js "workerId", JStr (workerId o));
   (js "incarnationId", JStr (incarnationId o))]
  ++ optProp "workspaceFence" JStr (workspaceFence o)
  ++ optProp "workspaceLeaseSlot" JInt (workspaceLeaseSlot o)
  ++ [(js "generation", JInt (generation o)); (js "leaseTokenHash", JStr (leaseTokenHash o))]
  ++ optProp "workerIdentityId" JStr (workerIdentityId o)
  ++ [(js "expiresAt", JStr (expiresAt o))]
  ++ optProp "runtimeSessionId" JStr (runtimeSessionId o)
  ++ optProp "durableRequestKey" JStr (durableRequestKey o).

Definition storedFields (a : StoredAssignment) : record :=
  [(js "protocolVersion", JInt BRIDGE_PROTOCOL_VERSION)] ++ ownershipFields a
  ++ [(js "leaseToken", JStr (leaseToken a))]
  ++ optProp "executionKind" JStr (executionKind a)
  ++ optProp "workspaceId" JStr (workspaceId a)
  ++ [(js "request", request a)].

(** [JSON.parse(raw) as AssignmentOwnership] and [as StoredAssignment]: the reads
    of the fields. *)
Definition readOwnership (r : record) : option AssignmentOwnership :=
  a ← strField r "assignmentId"; w ← strField r "workerId"; i ← strField r "incarnationId";
  g ← intField r "generation"; h ← strField r "leaseTokenHash"; e ← strField r "expiresAt";
  Some (Ownership a w i (strField r "workspaceFence") (intField r "workspaceLeaseSlot") g h
    (strField r "workerIdentityId") e (strField r "runtimeSessionId") (strField r "durableRequestKey")).

Definition readStored (r : record) : option StoredAssignment :=
  o ← readOwnership r; t ← strField r "leaseToken"; q ← field r (js "request");
  Some (Stored o t (strField r "executionKind") (strField r "workspaceId") q).

Definition NATIVE_WORKSPACE_FENCE_PREFIX : jstr := js "native-workspace:".

Definition workspaceFenceParent (fence : jstr) : option jstr :=
  if negb (startsWith fence NATIVE_WORKSPACE_FENCE_PREFIX) then None
  else option_map (app NATIVE_WORKSPACE_FENCE_PREFIX)
         (workspaceIsolationParent (drop (length NATIVE_WORKSPACE_FENCE_PREFIX) fence)).

Definition assignmentWorkspace (assignment : AssignmentOwnership) : option jstr :=
  match workspaceFence assignment with Some f => Some f | None => runtimeSessionId assignment end.

Definition workspaceAdmissionId (workspaceId : jstr) (instanceId worktree : option jstr) : jstr :=
  workspaceIsolationKey workspaceId instanceId worktree.

Definition workerReadyToken (incarnationId : jstr) (registrationGeneration : Z) : jstr :=
  incarnationId ++ [COLON] ++ dec registrationGeneration.

Definition tokenHash `{Platform} (token : jstr) : jstr := sha256hex token.

(** [Math.ceil(n / d)]. *)
Definition ceilDiv (n d : Z) : Z := (- ((- n) / d))%Z.

Definition assignmentTtlSeconds (deadlineAtMs clock : Z) : Z :=
  Z.max 1 (ceilDiv (deadlineAtMs - clock) 1000 + 30).

(** [None] when [expiresAt] is not a date: the seconds are [NaN], which Redis
    rejects. *)
Definition assignmentOutcomeTtlSeconds `{Runtime} (assignment : AssignmentOwnership) (clock : Z) : option Z :=
  match durableRequestKey assignment with
  | None => t ← parseDate (expiresAt assignment); Some (assignmentTtlSeconds t clock)
  | Some _ => Some (24 * 60 * 60)%Z
  end.

(** [Date.parse(expiresAt) <= Date.now()]; a comparison with [NaN] is false. *)
Definition isExpired `{Runtime} (assignment : AssignmentOwnership) (clock : Z) : bool :=
  match parseDate (expiresAt assignment) with Some t => (t <=? clock)%Z | None => false end.

(** ** Capabilities *)

Definition objField (o : record) (k : string) : option record :=
  match field o (js k) with Some (JObj r) => Some r | _ => None end.

(** [o.k?.includes(s) === true]. *)
Definition listIncludes (o : record) (k : string) (s : jstr) : bool :=
  match arrField o k with Some l => existsb (fun v => eqStr (Some v) s) l | None => false end.

(** [v == null]. *)
Definition isNullish (v : option json) : bool := isUndefined v || isNull v.

Definition capabilities (registration : record) : record := default [] (objField registration "capabilities").

(** [capabilities?.workspaces.find((candidate) => candidate.id === id)]. *)
Definition findWorkspace (tools : record) (id : jstr) : option record :=
  match arrField tools "workspaces" with
  | None => None
  | Some l => List.find (fun c => eqStr (field c (js "id")) id) (omap asRecord l)
  end.

Definition isWorkspaceMutation (request : record) : bool :=
  match strField request "operation" with Some op => isWorkspaceMutationOperation op | None => false end.

(** [editFileModes], [editFileFeatures] against an edit request. *)
Definition supportsEdit (tools request : record) : bool :=
  let mode := if isUndefined (field request (js "edits")) then js "single" else js "batch" in
  let supportsMode :=
    if isNullish (field tools (js "editFileModes")) then bool_decide (mode = js "single")
    else listIncludes tools "editFileModes" mode in
  let feature := listIncludes tools "editFileFeatures" in
  let supportsMatching := isUndefined (field request (js "matching")) || feature (js "tolerant_match") in
  let supportsReplaceAll :=
    negb (match arrField request "edits" with Some edits => existsb replaceAllSet edits | None => false end)
    || feature (js "replace_all") in
  if opIs request "preview_edit" then supportsMode && supportsMatching && supportsReplaceAll
  else supportsMode && supportsMatching && supportsReplaceAll
       && (isUndefined (field request (js "expectedBaseSha256")) || feature (js "expected_base_sha256")).

Definition supportsWorkspaceTool (registration request : record) : bool :=
  match objField (capabilities registration) "workspaceTools" with
  | None => false
  | Some tools =>
      match findWorkspace tools (default [] (strField request "workspaceId")) with
      | None => false
      | Some workspace =>
          let operation := default [] (strField request "operation") in
          if negb (listIncludes tools "operations" operation
                   && (isNullish (field workspace (js "operations")) || listIncludes workspace "operations" operation))
          then false
          else if negb (isUndefined (field request (js "workspaceInstanceId")))
                  && negb (listIncludes workspace "workspaceInstances" (js "git_worktree")) then false
          else if negb (isUndefined (field request (js "worktree")))
                  && negb (listIncludes workspace "workspaceScopes" (js "git_linked_worktree")) then false
          else if opIs request "list_files" && negb (isUndefined (field request (js "afterPath")))
          then listIncludes tools "listFileFeatures" (js "after_path")
          else if opIs request "write_file" then
            let mode := if eqBool (field request (js "overwrite")) false then js "create" else js "replace" in
            if isUndefined (field request (js "overwrite")) && isNullish (field tools (js "writeFileModes"))
            then true
            else listIncludes tools "writeFileModes" mode
          else if opIs request "preview_edit" || opIs request "edit_file" then supportsEdit tools request
          else true
      end
  end.

Definition supportsWorkspaceProgrammatic (registration : record) (workspaceId language : jstr)
    (workspaceInstanceId worktree : option jstr) : bool :=
  match objField (capabilities registration) "workspaceTools" with
  | None => false
  | Some tools =>
      match findWorkspace tools workspaceId with
      | None => false
      | Some workspace =>
          (bool_decide (workspaceInstanceId = None)
           || listIncludes workspace "workspaceInstances" (js "git_worktree"))
          && (bool_decide (worktree = None) || listIncludes workspace "workspaceScopes" (js "git_linked_worktree"))
          && listIncludes tools "operations" (js "execute_command")
          && (isNullish (field workspace (js "operations"))
              || listIncludes workspace "operations" (js "execute_command"))
          && listIncludes tools "programmaticLanguages" language
      end
  end.

Definition workspaceInstanceId (body : json) : option jstr :=
  match asRecord body with Some b => strField b "workspace_instance_id" | None => None end.

Definition workspaceWorktree (body : json) : option jstr :=
  match asRecord body with Some b => strField b "workspace_worktree" | None => None end.

(** ** Registration *)

(** Lua's [and]: the right operand is evaluated only when the left one holds. *)
Definition andAlso (b : bool) (p : prog bool) : prog bool := if b then p else Ret false.

(** [redis.call('GET', k) == v]. *)
Definition getIs (k v : jstr) : prog bool := o ← rd (GET k); Ret (bool_decide (o = Some v)).

Section registration.
Context (w inc : jstr).

(** The first guard of [register]: a pairing generation, if one was expected, and
    its identity or credential. [true] rejects. *)
Definition pairingChanged (pairingGeneration expectedIdentity activeCredential : jstr) : prog bool :=
  if isEmpty pairingGeneration then Ret false else
  g ← rd (GET (pairingGenerationKey w));
  if negb (bool_decide (default (js "0") g = pairingGeneration)) then Ret true
  else if negb (isEmpty expectedIdentity) then
    stable ← rd (GET (workerStableIdentityKey w)); Ret (neqStr stable expectedIdentity)
  else if negb (isEmpty activeCredential) then
    identity ← rd (GET (identityKey w)); Ret (neqStr identity activeCredential)
  else Ret false.

(** [ARGV[7] ~= "" and redis.call('GET', KEYS[9]) ~= ARGV[7]]. *)
Definition credentialRevoked (activeCredential : jstr) : prog bool :=
  if isEmpty activeCredential then Ret false
  else identity ← rd (GET (identityKey w)); Ret (neqStr identity activeCredential).

(** The second guard: the worker's stable identity is bound once. *)
Definition identityChanged (identityId activeCredential : jstr) (ttl : Z) : prog bool :=
  if isEmpty identityId then credentialRevoked activeCredential else
  stable ← rd (GET (workerStableIdentityKey w));
  match stable with
  | Some s => Ret (negb (bool_decide (s = identityId)))
  | None =>
      revoked ← credentialRevoked activeCredential;
      if (revoked : bool) then Ret true
      else rd (SET (workerStableIdentityKey w) identityId (EX ttl) false);; Ret false
  end.

(** [Some code]: the registration is refused. *)
Definition registerRefused (slots : jstr) : prog (option Z) :=
  quarantined ← rd (EXISTS (quarantineKey w inc));
  if (quarantined : bool) then Ret (Some (-2)%Z) else
  fenced ← rd (EXISTS (incarnationFenceKey w inc));
  if (fenced : bool) then Ret (Some (-1)%Z) else
  current ← rd (GET (workerIncarnationKey w));
  resized ← andAlso (bool_decide (current = Some inc))
    (busy ← rd (EXISTS (lockKey w));
     andAlso busy
       (capacity ← rd (GET (workspaceSlotCapacityKey w));
        Ret (negb (bool_decide (default (js "1") capacity = slots)))));
  if (resized : bool) then Ret (Some (-3)%Z) else
  match current with
  | None =>
      busy ← rd (EXISTS (lockKey w));
      if (busy : bool) then
        owner ← rd (GET (lockIncarnationKey w));
        Ret (if neqStr owner inc then Some (-3)%Z else None)
      else Ret None
  | Some c =>
      if bool_decide (c = inc) then Ret None else
      busy ← rd (EXISTS (lockKey w));
      if (busy : bool) then Ret (Some (-3)%Z)
      else rd (SET (incarnationPrefix w ++ c ++ js ":fenced") (js "1") NOTTL false);; Ret None
  end.

(** The registration generation moves when the incarnation does. *)
Definition nextGeneration : prog (Z * bool) :=
  g ← rd (GET (workerRegistrationGenerationKey w));
  current ← need (tonumber (default (js "0") g));
  known ← rd (GET (workerRegistrationGenerationIncarnationKey w));
  if (current <? 1)%Z || neqStr known inc then
    next ← rd (INCR (workerRegistrationGenerationKey w));
    rd (SET (workerRegistrationGenerationIncarnationKey w) inc NOTTL false);;
    Ret (next, true)
  else Ret (current, false).

Definition registerScript (registrationText : jstr) (ttl : Z)
    (pairingGeneration expectedIdentity activeCredential identityId : jstr) (requiresReady : bool)
    (slots : jstr) : prog Z :=
  changed ← pairingChanged pairingGeneration expectedIdentity activeCredential;
  if (changed : bool) then Ret (-5)%Z else
  changed ← identityChanged identityId activeCredential ttl;
  if (changed : bool) then Ret (-4)%Z else
  refused ← registerRefused slots;
  match refused with
  | Some code => Ret code
  | None =>
      gen ← nextGeneration;
      rd (SET (workerKey w) registrationText (EX ttl) false);;
      rd (SET (workerIncarnationKey w) inc (EX ttl) false);;
      rd (SET (workspaceSlotCapacityKey w) slots (EX ttl) false);;
      (if requiresReady && snd gen then rd (DEL [workerReadyKey w]);; Ret tt else Ret tt);;
      Ret (fst gen)
  end.

Definition confirmReadyScript (registrationGeneration : Z) (token : jstr) (ttl : Z) : prog Z :=
  registered ← rd (EXISTS (workerKey w));
  if negb registered then Ret (-1)%Z else
  current ← rd (GET (workerIncarnationKey w));
  if neqStr current inc then Ret (-2)%Z else
  g ← rd (GET (workerRegistrationGenerationKey w));
  if neqStr g (dec registrationGeneration) then Ret (-2)%Z else
  known ← rd (GET (workerRegistrationGenerationIncarnationKey w));
  if neqStr known inc then Ret (-2)%Z else
  fenced ← rd (EXISTS (incarnationFenceKey w inc));
  if (fenced : bool) then Ret (-2)%Z else
  quarantined ← rd (EXISTS (quarantineKey w inc));
  if (quarantined : bool) then Ret (-3)%Z else
  rd (SET (workerReadyKey w) token (EX ttl) false);;
  Ret 1%Z.

(** The snapshot of [workerStatus]. *)
Definition statusScript : prog (option jstr * option jstr * option jstr * Z) :=
  registration ← rd (GET (workerKey w));
  match registration with
  | None => Ret (None, None, None, (-2)%Z)
  | Some r =>
      ready ← rd (GET (workerReadyKey w));
      g ← rd (GET (workerRegistrationGenerationKey w));
      t ← rd (PTTL (workerKey w));
      Ret (Some r, ready, g, t)
  end.

(** The [MGET] of [dispatchableRegistration]. *)
Definition dispatchableScript : prog (option jstr * option jstr * option jstr * option jstr) :=
  raw ← rd (GET (workerKey w));
  ready ← rd (GET (workerReadyKey w));
  g ← rd (GET (workerRegistrationGenerationKey w));
  known ← rd (GET (workerRegistrationGenerationIncarnationKey w));
  Ret (raw, ready, g, known).
End registration.

(** ** The assignment lock *)

Definition acquireLockBody (w aid inc : jstr) (ttlMs : Z) (reuseOwned : bool) : prog Z :=
  owned ← andAlso reuseOwned
    (owner ← getIs (lockKey w) aid; andAlso owner (getIs (lockIncarnationKey w) inc));
  if (owned : bool) then
    rd (PEXPIREAT (lockKey w) (PX ttlMs));; rd (PEXPIREAT (lockIncarnationKey w) (PX ttlMs));; Ret 1%Z
  else
    locked ← rd (EXISTS (lockKey w));
    if (locked : bool) then Ret 0%Z else
    rd (SET (lockKey w) aid (PX ttlMs) false);;
    rd (SET (lockIncarnationKey w) inc (PX ttlMs) false);;
    Ret 1%Z.

Definition acquireLockScript (w aid inc : jstr) (ttlMs : Z) (reuseOwned : bool)
    (guard : option DurableWorkspaceGuard) : prog Z :=
  match guard with
  | None => acquireLockBody w aid inc ttlMs reuseOwned
  | Some g =>
      fence ← durableAdmissionFence g 0%Z;
      match fence with
      | inr rejected => Ret rejected
      | inl _ =>
          current ← rd (GET (workerIncarnationKey w));
          if neqStr current inc then Ret 0%Z else acquireLockBody w aid inc ttlMs reuseOwned
      end
  end.

Definition releaseLockScript (w aid : jstr) : prog Z :=
  owner ← rd (GET (lockKey w));
  if bool_decide (owner = Some aid) then rd (DEL [lockKey w; lockIncarnationKey w]) else Ret 0%Z.

(** [cancel]. *)
Definition cancelScript (aid : jstr) (ttl : Z) : prog bool :=
  rd (SET (cancellationKey aid) (js "1") (EX ttl) false).

(** ** Leases *)

(** The worker's identity is not the caller's: another one, or one where the
    caller has none. *)
Definition otherIdentity (w identityId : jstr) : prog bool :=
  if isEmpty identityId then rd (EXISTS (workerStableIdentityKey w))
  else stable ← rd (GET (workerStableIdentityKey w)); Ret (neqStr stable identityId).

Section leases.
Context (w inc : jstr) (slot : option Z).

Definition claimOrPopLeaseScript (identityId : jstr) : prog (option jstr) :=
  other ← otherIdentity w identityId;
  if (other : bool) then Ret None else
  claimed ← rd (GET (leaseClaimKey w inc slot));
  match claimed with
  | Some a => Ret (Some a)
  | None =>
      t ← rd (TTL (queueKey w inc slot));
      a ← rd (LPOP (queueKey w inc slot));
      match a with
      | None => Ret None
      | Some a => rd (SET (leaseClaimKey w inc slot) a (EX (Z.max 1 t)) false);; Ret (Some a)
      end
  end.

Definition discardLeaseClaimScript (aid : jstr) : prog Z :=
  claimed ← rd (GET (leaseClaimKey w inc slot));
  if bool_decide (claimed = Some aid) then rd (DEL [leaseClaimKey w inc slot; leaseAckKey w inc slot])
  else Ret 0%Z.

Definition returnLeaseScript (aid : jstr) : prog Z :=
  exists_ ← rd (EXISTS (assignmentKey aid));
  if negb exists_ then Ret 0%Z else
  claimed ← rd (GET (leaseClaimKey w inc slot));
  if neqStr claimed aid then Ret 0%Z else
  t ← rd (TTL (assignmentKey aid));
  rd (DEL [leaseClaimKey w inc slot; leaseAckKey w inc slot]);;
  rd (LREM (queueKey w inc slot) aid);;
  rd (LPUSH (queueKey w inc slot) aid);;
  (if (0 <? t)%Z then rd (PEXPIREAT (queueKey w inc slot) (EX t)) else Ret tt);;
  Ret 1%Z.

Definition acknowledgeScript (aid : jstr) (ttl : Z) : prog Z :=
  claimed ← rd (GET (leaseClaimKey w inc slot));
  if neqStr claimed aid then Ret 0%Z else
  rd (SET (leaseAckKey w inc slot) aid (EX ttl) false);; Ret 1%Z.
End leases.

(** ** Settlement *)

(** Delete a key that still holds the caller's value. *)
Definition delIfOwned (k v : jstr) : prog unit :=
  mine ← getIs k v;
  if (mine : bool) then rd (DEL [k]);; Ret tt else Ret tt.

(** [clearUndeliveredWorkspaceFence] and the final steps of the native commits. *)
Definition clearFenceScript (fence aid : jstr) : prog Z :=
  mine ← getIs fence aid;
  if (mine : bool) then rd (DEL [fence]) else Ret 0%Z.

(** The commit of [settle]; [fence] is the key of the assignment's workspace, if
    it has one. *)
Definition settleScript (w aid inc : jstr) (slot : option Z) (fence : option jstr)
    (settlementText : jstr) (ttl : Z) (rejected : bool) (identityId settlementIncarnation : jstr) : prog Z :=
  existing ← rd (GET (settlementKey aid));
  match existing with
  | Some e => Ret (if bool_decide (e = settlementText) then 2%Z else (-1)%Z)
  | None =>
      known ← rd (EXISTS (assignmentKey aid));
      if negb known then Ret 0%Z else
      lost ← match fence with
             | Some f => o ← rd (GET f); Ret (neqStr o aid)
             | None => Ret false end;
      if (lost : bool) then Ret (-2)%Z else
      open_ ← if rejected then Ret true else rd (EXISTS (assignmentDeadlineKey aid));
      if negb open_ then Ret (-3)%Z else
      other ← otherIdentity w identityId;
      if (other : bool) then Ret (-4)%Z else
      current ← rd (GET (workerIncarnationKey w));
      if neqStr current settlementIncarnation then Ret (-4)%Z else
      rd (SET (settlementKey aid) settlementText (EX ttl) false);;
      claimed ← getIs (leaseClaimKey w inc slot) aid;
      (if (claimed : bool) then rd (DEL [leaseClaimKey w inc slot; leaseAckKey w inc slot]);; Ret tt else Ret tt);;
      match fence with
      | Some f =>
          if rejected && bool_decide (slot = None) then rd (DEL [f]);; Ret 1%Z else Ret 1%Z
      | None => Ret 1%Z
      end
  end.

(** The close of [waitForSettlement]: the settlement if one won, otherwise the
    fulfilment gate is shut. *)
Definition closeScript (aid : jstr) (fence : option jstr) : prog (option jstr) :=
  settlement ← rd (GET (settlementKey aid));
  match settlement with
  | Some s => Ret (Some s)
  | None =>
      rd (DEL [assignmentDeadlineKey aid]);;
      mine ← match fence with Some f => getIs f aid | None => Ret false end;
      if (mine : bool) then Ret None else
      rd (DEL [assignmentKey aid]);; Ret None
  end.

(** ** Quarantine *)

Definition quarantineScript (w inc : jstr) (fence : option jstr) : prog Z :=
  rd (SET (quarantineKey w inc) (js "1") NOTTL false);;
  match fence with Some f => rd (SET f (js "1") NOTTL false);; Ret tt | None => Ret tt end;;
  current ← rd (GET (workerIncarnationKey w));
  if bool_decide (current = Some inc) then rd (DEL [workerKey w; workerIncarnationKey w]) else Ret 0%Z.

Definition QUARANTINED : jstr := js "quarantined:".

(** [dispatch]: the finalisation of a native workspace failed. *)
Definition quarantineFenceScript (fence aid : jstr) : prog Z :=
  mine ← getIs fence aid;
  if negb mine then Ret 0%Z else
  rd (SET fence (QUARANTINED ++ aid) NOTTL false);; Ret 1%Z.

(** The [HGETALL] of the ownership receipt: its metadata and epoch. *)
Definition receiptScript (aid : jstr) : prog (option jstr * option jstr) :=
  metadata ← rd (HGET (workspaceFenceReceiptKey aid) (js "metadata"));
  epoch ← rd (HGET (workspaceFenceReceiptKey aid) (js "epoch"));
  Ret (metadata, epoch).

(** [redis.call('HGET', k, f) == v]. *)
Definition hgetIs (k f v : jstr) : prog bool := o ← rd (HGET k f); Ret (bool_decide (o = Some v)).

(** The guards of [quarantineSettledWorkspace]; [epoch] is what [hgetall] read. *)
Definition receiptCurrent (w aid metadata inc identityId epoch fence : jstr) : prog bool :=
  let K := workspaceFenceReceiptKey aid in
  same ← hgetIs K (js "metadata") metadata;
  if negb same then Ret false else
  same ← hgetIs K (js "epoch") epoch;
  if negb same then Ret false else
  current ← rd (GET (workerIncarnationKey w));
  if neqStr current inc then Ret false else
  stable ← rd (GET (workerStableIdentityKey w));
  if negb (bool_decide (default [] stable = identityId)) then Ret false else
  e ← rd (GET (fence ++ js ":epoch"));
  Ret (bool_decide (default (js "0") e = epoch)).

(** The branch on [ARGV[8]]: [Some] is an early return. *)
Definition receiptAction (aid fence settlementText : jstr) (ttl : Z) (quarantine : bool) : prog (option Z) :=
  let K := workspaceFenceReceiptKey aid in
  if quarantine then
    cleaned ← hgetIs K (js "localCleanup") (js "1");
    done_ ← andAlso cleaned (hgetIs K (js "resultCommitted") (js "1"));
    if (done_ : bool) then Ret (Some 1%Z) else
    rd (SET fence (QUARANTINED ++ aid) NOTTL false);;
    rd (SET (settlementKey aid) settlementText (EX ttl) true);;
    Ret None
  else
    held ← rd (GET fence);
    if match held with Some f => startsWith f QUARANTINED | None => false end then Ret (Some 0%Z) else
    rd (HSET K [(js "localCleanup", js "1")]);;
    committed ← hgetIs K (js "resultCommitted") (js "1");
    (if committed && bool_decide (held = Some aid) then rd (DEL [fence]);; Ret tt else Ret tt);;
    Ret None.

Definition receiptCommitScript (w aid metadata inc identityId epoch fence : jstr) (slot : option Z)
    (settlementText : jstr) (ttl : Z) (quarantine : bool) : prog Z :=
  current ← receiptCurrent w aid metadata inc identityId epoch fence;
  if negb current then Ret 0%Z else
  r ← receiptAction aid fence settlementText ttl quarantine;
  match r with
  | Some code => Ret code
  | None =>
      delIfOwned (leaseClaimKey w inc slot) aid;;
      delIfOwned (leaseAckKey w inc slot) aid;;
      Ret 1%Z
  end.

Definition resetWorkspaceScript (w inc fence : jstr) : prog Z :=
  current ← rd (GET (workerIncarnationKey w));
  if neqStr current inc then Ret (-1)%Z else
  busy ← rd (EXISTS (lockKey w));
  if (busy : bool) then Ret (-2)%Z else
  rd (DEL [fence]);;
  epoch ← rd (EXISTS (fence ++ js ":epoch"));
  (if (epoch : bool) then rd (INCR (fence ++ js ":epoch"));; Ret tt else Ret tt);;
  Ret 1%Z.

(** ** Enqueue *)

(** A leased lane knows its checkout's fence; a leased checkout the fences of the
    lanes enqueued beneath it. *)
Inductive fenceScope := LaneScope (parentFence : jstr) | CheckoutScope (laneFences : list jstr).

Fixpoint anyExists (keys : list jstr) : prog bool :=
  match keys with
  | [] => Ret false
  | k :: keys' => e ← rd (EXISTS k); if (e : bool) then Ret true else anyExists keys'
  end.

Fixpoint sremAll (index : jstr) (members : list jstr) : prog unit :=
  match members with
  | [] => Ret tt
  | m :: members' => rd (SREM index m);; sremAll index members'
  end.

(** The arguments of the script. [e_fence] is the key of the assignment's
    workspace; [e_lease] its slot and the scope of its fence. *)
Record enqueueArgs := EnqueueArgs {
  e_worker : jstr; e_assignment : jstr; e_incarnation : jstr;
  e_text : jstr; e_receipt : jstr; e_ttl : Z; e_expiresAtMs : Z; e_readyToken : jstr;
  e_fence : option jstr; e_lease : option (Z * fenceScope); e_receiptTtl : Z;
}.

Section enqueue.
Context (e : enqueueArgs).

Definition slotOf : option Z := fst <$> e_lease e.

(** The durable request still holds the lock, or its slot. *)
Definition stillReserved : prog bool :=
  match slotOf with
  | None =>
      mine ← getIs (lockKey (e_worker e)) (e_assignment e);
      andAlso mine (getIs (lockIncarnationKey (e_worker e)) (e_incarnation e))
  | Some n =>
      mine ← hgetIs (workspaceSlotsKey (e_worker e)) (js "a:" ++ dec n) (e_assignment e);
      andAlso mine (hgetIs (workspaceSlotsKey (e_worker e)) (js "i:" ++ dec n) (e_incarnation e))
  end.

(** The workspace, its checkout or a lane beneath it is fenced. A checkout that is
    not refused forgets the lanes of its index. *)
Definition workspaceBlocked : prog bool :=
  own ← match e_fence e with Some f => rd (EXISTS f) | None => Ret false end;
  if (own : bool) then Ret true else
  match e_lease e, e_fence e with
  | Some (_, LaneScope parentFence), _ => rd (EXISTS parentFence)
  | Some (_, CheckoutScope laneFences), Some f =>
      stuck ← anyExists laneFences;
      if (stuck : bool) then Ret true else
      sremAll (workspaceLaneFenceIndexKey f) laneFences;; Ret false
  | _, _ => Ret false
  end.

(** The receipt of a leased workspace and its epoch. *)
Definition writeReceipt (f : jstr) : prog unit :=
  let K := f ++ js ":epoch" in
  epoch ← rd (GET K);
  epoch ← match epoch with
          | Some s => Ret s
          | None => rd (SET K (js "0") (EX (e_receiptTtl e)) false);; Ret (js "0") end;
  t ← rd (PTTL K);
  (if (t <? e_receiptTtl e * 1000)%Z then rd (PEXPIREAT K (EX (e_receiptTtl e))) else Ret tt);;
  rd (HSET (workspaceFenceReceiptKey (e_assignment e))
        [(js "metadata", e_receipt e); (js "epoch", epoch)]);;
  rd (PEXPIREAT (workspaceFenceReceiptKey (e_assignment e)) (EX (e_receiptTtl e))).

(** The writes: the assignment, its queue entry, its deadline gate and fence. *)
Definition enqueueWrites : prog unit :=
  let Q := queueKey (e_worker e) (e_incarnation e) slotOf in
  rd (SET (assignmentKey (e_assignment e)) (e_text e) (EX (e_ttl e)) false);;
  rd (RPUSH Q (e_assignment e));;
  rd (PEXPIREAT Q (EX (e_ttl e)));;
  match e_lease e with
  | None => rd (SET (lockIncarnationKey (e_worker e)) (e_incarnation e) (PX (e_ttl e * 1000)) false);; Ret tt
  | Some _ => Ret tt end;;
  rd (SET (assignmentDeadlineKey (e_assignment e)) (js "1") (PXAT (e_expiresAtMs e)) false);;
  match e_fence e with
  | None => Ret tt
  | Some f =>
      rd (SET f (e_assignment e) NOTTL false);;
      match e_lease e with
      | Some (_, LaneScope parentFence) => rd (SADD (workspaceLaneFenceIndexKey parentFence) f);; writeReceipt f
      | Some _ => writeReceipt f
      | None => Ret tt
      end
  end.

Definition enqueueBody : prog Z :=
  current ← rd (GET (workerIncarnationKey (e_worker e)));
  if neqStr current (e_incarnation e) then Ret 0%Z else
  unready ← andAlso (negb (isEmpty (e_readyToken e)))
    (token ← rd (GET (workerReadyKey (e_worker e))); Ret (neqStr token (e_readyToken e)));
  if (unready : bool) then Ret 0%Z else
  blocked ← workspaceBlocked;
  if (blocked : bool) then Ret (-1)%Z else
  enqueueWrites;;
  Ret 1%Z.

Definition enqueueScript (guard : option DurableWorkspaceGuard) : prog Z :=
  match guard with
  | None => enqueueBody
  | Some g =>
      fence ← durableAdmissionFence g (-2)%Z;
      match fence with
      | inr rejected => Ret rejected
      | inl admissionNowMs =>
          held ← stillReserved;
          if negb held then Ret (-2)%Z else
          r ← enqueueBody;
          if (r =? 1)%Z then
            rd (HSET (g_key g) [(js "state", js "admitted"); (js "assignment", e_text e);
                                (js "admittedAtMs", dec admissionNowMs)]);;
            Ret 1%Z
          else Ret r
      end
  end.
End enqueue.

(** ** Commit and cleanup *)

(** [commitPendingWorkspace], for a leased workspace. *)
Definition commitReceiptScript (aid fence : jstr) : prog Z :=
  let K := workspaceFenceReceiptKey aid in
  owned_ ← rd (EXISTS K);
  if negb owned_ then Ret 0%Z else
  rd (HSET K [(js "resultCommitted", js "1")]);;
  cleaned ← hgetIs K (js "localCleanup") (js "1");
  mine ← andAlso cleaned (getIs fence aid);
  (if (mine : bool) then rd (DEL [fence]);; Ret tt else Ret tt);;
  Ret 1%Z.

(** [commitPendingWorkspace], for any other workspace; [marker] is the durable
    request's commit marker. *)
Definition commitFenceScript (aid fence : jstr) (marker : option jstr) : prog Z :=
  match marker with
  | None => clearFenceScript fence aid
  | Some m =>
      committed ← rd (EXISTS m);
      if (committed : bool) then Ret 1%Z else
      mine ← getIs fence aid;
      if (mine : bool) then
        rd (DEL [fence]);; rd (SET m (js "1") (PX 86400000) false);; Ret 1%Z
      else Ret 0%Z
  end.

(** The script of [cleanup]; without a workspace its fence is the unused
    [noWorkspaceKey]. *)
Definition cleanupScript (w inc aid : jstr) (slot : option Z) (fence : option jstr) : prog Z :=
  let F := default (noWorkspaceKey aid) fence in
  let hasWorkspace := bool_decide (is_Some fence) in
  let leased := bool_decide (is_Some slot) in
  queued ← rd (LREM (queueKey w inc slot) aid);
  claimed ← getIs (leaseClaimKey w inc slot) aid;
  acknowledged ← getIs (leaseAckKey w inc slot) aid;
  undelivered ← andAlso (hasWorkspace && ((0 <? queued)%Z || (claimed && negb acknowledged))) (getIs F aid);
  (if (undelivered : bool) then rd (DEL [F]);; Ret tt else Ret tt);;
  (if claimed && negb acknowledged
   then rd (DEL [leaseClaimKey w inc slot; leaseAckKey w inc slot]);; Ret tt else Ret tt);;
  retained ← andAlso leased (getIs F aid);
  if (retained : bool) then Ret (-1)%Z else
  running ← andAlso ((queued =? 0)%Z && acknowledged && hasWorkspace) (getIs F aid);
  if (running : bool) then Ret (-1)%Z else
  (if (claimed : bool) then rd (DEL [leaseClaimKey w inc slot]);; Ret tt else Ret tt);;
  (if (acknowledged : bool) then rd (DEL [leaseAckKey w inc slot]);; Ret tt else Ret tt);;
  rd (DEL [assignmentKey aid]).
