(* ===== verification/Async.v ===== *)
(** * Asynchronous methods

    A method of the bridge store is an [act]: a tree of the effects an [async]
    function awaits (Redis scripts, the replica's clock, the abort signal, random
    identifiers, timers), with exceptions and unbounded loops. [performs] runs it
    against a server that other replicas use between any two effects, and on which
    a command may time out after it ran or before it did. [awp] is the program
    logic for it. No definition of this file is mapped to a source line. *)

From stdpp Require Import base list numbers option strings gmap relations.
From Stdlib Require Import ZArith Lia.
From S2P Require Import Prelude JsString Redis BridgeStore.

(** ** Effects *)

(** The reply [None] to a command is a rejected promise: a timeout, an abort, a
    connection or a script error. [SCAN] changes nothing, and the server chooses the
    cursor and the keys it replies. *)
Inductive eff : Type -> Type :=
| Command {R : Type} (p : prog R) : eff (option R)
| Now : eff Z
| Aborted : eff bool
| RandomBytes (n : Z) : eff jstr
| Scan (cursor prefix : jstr) : eff (option (jstr * list jstr))
| Delay (ms : Z) : eff unit.

(** A loop carries its variables; its body goes around again or leaves. *)
Inductive act : Type -> Type :=
| Done {A} (a : A) : act A
| Throw {A} (e : error) : act A
| Do {A R} (c : eff R) (k : R -> act A) : act A
| Loop {A V B} (v : V) (body : V -> act (V + B)) (k : B -> act A) : act A.

Fixpoint abind {A B} (m : act A) : (A -> act B) -> act B :=
  match m in act A return (A -> act B) -> act B with
  | Done a => fun f => f a
  | Throw e => fun _ => Throw e
  | Do c k => fun f => Do c (fun r => abind (k r) f)
  | Loop v body k => fun f => Loop v body (fun b => abind (k b) f)
  end.

#[global] Instance act_ret : MRet act := fun _ a => Done a.
#[global] Instance act_bind : MBind act := fun _ _ f m => abind m f.

(** The outcome of [m] as a value. *)
Fixpoint try {A} (m : act A) : act (error + A) :=
  match m with
  | Done a => Done (inr a)
  | Throw e => Done (inl e)
  | Do c k => Do c (fun r => try (k r))
  | Loop v body k =>
      Loop v
        (fun v => abind (try (body v)) (fun r =>
           Done (match r with
                 | inl e => inr (inl e)
                 | inr (inl v') => inl v'
                 | inr (inr b) => inr (inr b)
                 end)))
        (fun x => match x with inl e => Done (inl e) | inr b => try (k b) end)
  end.

(** [try { m } catch (e) { h e }]. *)
Definition catch {A} (m : act A) (h : error -> act A) : act A :=
  r ← try m; match r with inl e => h e | inr a => Done a end.

(** A command awaited: a rejection is thrown. *)
Definition await {R} (p : prog R) : act R :=
  r ← Do (Command p) Done; match r with Some a => Done a | None => Throw CommandFailed end.

Definition now_ : act Z := Do Now Done.
Definition aborted : act bool := Do Aborted Done.
Definition randomBytes (n : Z) : act jstr := Do (RandomBytes n) Done.
(** [SCAN cursor MATCH prefix*]: of a batch, the keys with the prefix. *)
Definition scan (cursor prefix : jstr) : act (jstr * list jstr) :=
  r ← Do (Scan cursor prefix) Done;
  match r with
  | Some (next, keys) => Done (next, List.filter (fun k => startsWith k prefix) keys)
  | None => Throw CommandFailed
  end.
Definition delay (ms : Z) : act unit := Do (Delay ms) Done.

(** [if (bad) throw e]. *)
Definition throwIf (bad : bool) (e : error) : act unit := if bad then Throw e else Done tt.

(** ** Runs *)

(** What a replica did to the server: a script it sent, and the reply it saw. *)
Inductive event :=
| Event {R : Type} (p : prog R) (reply : option R).

Section runs.
Context {db : Type} `{RedisServer db}.
(** The steps of the other clients of the server. *)
Context (others : db -> db -> Prop).

(** [reply s p s' r]: the command [p] is sent at [s], the caller sees [r]. *)
Inductive replied {R} (s : db) (p : prog R) : db -> option R -> Prop :=
| reply_seen t s1 s2 r : rtc others s s1 -> run p t s1 = (s2, r) -> replied s p s2 r
| reply_lost t s1 s2 r : rtc others s s1 -> run p t s1 = (s2, r) -> replied s p s2 None
| reply_unsent s1 : rtc others s s1 -> replied s p s1 None.

Inductive performs : forall {A}, db -> act A -> list event -> db -> error + A -> Prop :=
| p_done A s (a : A) : performs s (Done a) [] s (inr a)
| p_throw A s e : performs s (@Throw A e) [] s (inl e)
| p_command A R s s1 s' (p : prog R) r (k : option R -> act A) tr o :
    replied s p s1 r -> performs s1 (k r) tr s' o -> performs s (Do (Command p) k) (Event p r :: tr) s' o
| p_now A s s' t (k : Z -> act A) tr o : performs s (k t) tr s' o -> performs s (Do Now k) tr s' o
| p_aborted A s s' b (k : bool -> act A) tr o : performs s (k b) tr s' o -> performs s (Do Aborted k) tr s' o
| p_random A s s' n x (k : jstr -> act A) tr o : performs s (k x) tr s' o -> performs s (Do (RandomBytes n) k) tr s' o
| p_scan A s s' cursor prefix r (k : option (jstr * list jstr) -> act A) tr o :
    performs s (k r) tr s' o -> performs s (Do (Scan cursor prefix) k) tr s' o
| p_delay A s s' n (k : unit -> act A) tr o : performs s (k tt) tr s' o -> performs s (Do (Delay n) k) tr s' o
| p_loop_throw A V B s s' (v : V) (body : V -> act (V + B)) (k : B -> act A) tr e :
    performs s (body v) tr s' (inl e) -> performs s (Loop v body k) tr s' (inl e)
| p_loop_again A V B s s1 s' (v v' : V) (body : V -> act (V + B)) (k : B -> act A) tr tr' o :
    performs s (body v) tr s1 (inr (inl v')) -> performs s1 (Loop v' body k) tr' s' o ->
    performs s (Loop v body k) (tr ++ tr') s' o
| p_loop_exit A V B s s1 s' (v : V) (b : B) (body : V -> act (V + B)) (k : B -> act A) tr tr' o :
    performs s (body v) tr s1 (inr (inr b)) -> performs s1 (k b) tr' s' o ->
    performs s (Loop v body k) (tr ++ tr') s' o.

End runs.

(** ** Weakest preconditions

    [awp m tr Q]: every run of [m] that starts after the events [tr] and ends,
    ends in events and an outcome that satisfy [Q]. A loop has an invariant. *)
Fixpoint awp {A} (m : act A) (tr : list event) : (list event -> error + A -> Prop) -> Prop :=
  match m in act A return (list event -> error + A -> Prop) -> Prop with
  | Done a => fun Q => Q tr (inr a)
  | Throw e => fun Q => Q tr (inl e)
  | Do c k => fun Q =>
      match c in eff R return (R -> act _) -> (forall r : R, list event -> (list event -> error + _ -> Prop) -> Prop) -> Prop with
      | Command p => fun _ rec => forall r, rec r (tr ++ [Event p r]) Q
      | _ => fun _ rec => forall r, rec r tr Q
      end k (fun r tr' => awp (k r) tr')
  | Loop v body k => fun Q =>
      exists I : _ -> list event -> Prop, I v tr /\
        forall v' tr', I v' tr' ->
          awp (body v') tr' (fun tr'' o =>
            match o with
            | inl e => Q tr'' (inl e)
            | inr (inl v'') => I v'' tr''
            | inr (inr b) => awp (k b) tr'' Q
            end)
  end.

Lemma awp_mono {A} (m : act A) tr (Q Q' : list event -> error + A -> Prop) :
  awp m tr Q -> (forall tr' o, Q tr' o -> Q' tr' o) -> awp m tr Q'.
Proof.
  revert tr Q Q'. induction m as [A a|A e|A R c k IH|A V B v body IHb k IHk]; intros tr Q Q' HW HQ; cbn [awp] in *.
  - auto.
  - auto.
  - destruct c; intros r; eapply IH; eauto.
  - destruct HW as (I & Hv & Hb). exists I. split; [done|]. intros v' tr' Hi.
    eapply IHb; [by apply Hb|]. intros tr'' [e|[v''|b]] Ho; [auto|done|]. eapply IHk; eauto.
Qed.

Lemma awp_bind {A B} (m : act A) (f : A -> act B) tr (Q : list event -> error + B -> Prop) :
  awp m tr (fun tr' o => match o with inl e => Q tr' (inl e) | inr a => awp (f a) tr' Q end) ->
  awp (m ≫= f) tr Q.
Proof.
  unfold mbind, act_bind. revert tr Q. induction m as [A a|A e|A R c k IH|A V B' v body IHb k IHk]; intros tr Q HW; cbn [awp abind] in *.
  - done.
  - done.
  - destruct c; intros r; apply IH; apply HW.
  - destruct HW as (I & Hv & Hb). exists I. split; [done|]. intros v' tr' Hi.
    eapply awp_mono; [by apply Hb|]. intros tr'' [e|[v''|b]] Ho; [done..|]. by apply IHk.
Qed.

Lemma awp_try {A} (m : act A) tr (Q : list event -> error + (error + A) -> Prop) :
  awp m tr (fun tr' o => Q tr' (inr o)) -> awp (try m) tr Q.
Proof.
  revert tr Q. induction m as [A a|A e|A R c k IH|A V B v body IHb k IHk]; intros tr Q HW; cbn [awp try] in *.
  - done.
  - done.
  - destruct c; intros r; apply IH; apply HW.
  - destruct HW as (I & Hv & Hb). exists I. split; [done|]. intros v' tr' Hi.
    apply (awp_bind (try (body v'))). apply IHb. cbn [awp]. eapply awp_mono; [by apply Hb|].
    intros tr'' [e|[v''|b]] Ho; cbn [awp]; [done..|]. by apply IHk.
Qed.

(** A loop whose body keeps [I]. *)
Lemma awp_loop {A V B} (I : V -> list event -> Prop) (v : V) (body : V -> act (V + B)) (k : B -> act A) tr
    (Q : list event -> error + A -> Prop) :
  I v tr ->
  (forall v' tr', I v' tr' ->
     awp (body v') tr' (fun tr'' o => match o with
       | inl e => Q tr'' (inl e) | inr (inl v'') => I v'' tr'' | inr (inr b) => awp (k b) tr'' Q end)) ->
  awp (Loop v body k) tr Q.
Proof. intros Hv Hb. cbn [awp]. by exists I. Qed.

Lemma awp_await {R} (p : prog R) tr (Q : list event -> error + R -> Prop) :
  (forall a, Q (tr ++ [Event p (Some a)]) (inr a)) -> Q (tr ++ [Event p None]) (inl CommandFailed) ->
  awp (await p) tr Q.
Proof. intros H1 H2. unfold await. apply awp_bind. cbn [awp]. intros [a|]; cbn [awp]; auto. Qed.

(** The logic is sound: it covers every run, whatever the other clients do and
    whichever replies are lost. *)
Lemma awp_sound {db} `{RedisServer db} (others : db -> db -> Prop) {A} (m : act A) s tr s' o :
  performs others s m tr s' o ->
  forall tr0 (Q : list event -> error + A -> Prop), awp m tr0 Q -> Q (tr0 ++ tr) o.
Proof.
  induction 1; intros tr0 Q HW; cbn [awp] in HW.
  - by rewrite app_nil_r.
  - by rewrite app_nil_r.
  - specialize (HW r). apply IHperforms in HW. rewrite <- app_assoc in HW. exact HW.
  - by apply IHperforms, (HW t).
  - by apply IHperforms, (HW b).
  - by apply IHperforms, (HW x).
  - by apply IHperforms, (HW r).
  - by apply IHperforms, (HW tt).
  - destruct HW as (I & Hv & Hb). by apply (IHperforms _ _ (Hb _ _ Hv)).
  - destruct HW as (I & Hv & Hb). apply Hb in Hv. apply IHperforms1 in Hv. rewrite app_assoc.
    apply IHperforms2. cbn [awp]. by exists I.
  - destruct HW as (I & Hv & Hb). apply Hb in Hv. apply IHperforms1 in Hv. rewrite app_assoc. by apply IHperforms2.
Qed.

(** ** Runs under an invariant of the server

    [iwp I m Q]: while every other client keeps [I], the method sends only scripts
    that keep it and ends in an outcome that satisfies [Q]; a reply is what the script
    answers on a keyspace in which [I] holds. *)

Fixpoint iwp (I : keyspace -> Prop) {A} (m : act A) : (error + A -> Prop) -> Prop :=
  match m in act A return (error + A -> Prop) -> Prop with
  | Done a => fun Q => Q (inr a)
  | Throw e => fun Q => Q (inl e)
  | Do c k => fun Q =>
      match c in eff R return (R -> (error + _ -> Prop) -> Prop) -> Prop with
      | Command p => fun rec =>
          (forall t ks, I ks -> wp p t ks (fun _ ks' => I ks')) /\
          forall r, (r = None \/ exists t ks, I ks /\ r = snd (eval p t ks)) -> rec r Q
      | _ => fun rec => forall r, rec r Q
      end (fun r => iwp I (k r))
  | Loop v body k => fun Q =>
      exists J : _ -> Prop, J v /\ forall v', J v' ->
        iwp I (body v') (fun o => match o with
          | inl e => Q (inl e) | inr (inl v'') => J v'' | inr (inr b) => iwp I (k b) Q end)
  end.

Section invariants.
Context (I : keyspace -> Prop).

Lemma iwp_mono {A} (m : act A) (Q Q' : error + A -> Prop) : iwp I m Q -> (forall o, Q o -> Q' o) -> iwp I m Q'.
Proof.
  revert Q Q'. induction m as [A a|A e|A R c k IH|A V B v body IHb k IHk]; intros Q Q' HW HQ; cbn [iwp] in *; [auto..| |].
  - destruct c; try (intros r; eapply IH; eauto). destruct HW as [Hk Hr]. split; [done|]. intros r Hx. eapply IH; eauto.
  - destruct HW as (J & Hv & Hb). exists J. split; [done|]. intros v' Hj. eapply IHb; [by apply Hb|].
    intros [e|[v''|b]] Ho; [auto|done|]. eapply IHk; eauto.
Qed.

Lemma iwp_bind {A B} (m : act A) (f : A -> act B) (Q : error + B -> Prop) :
  iwp I m (fun o => match o with inl e => Q (inl e) | inr a => iwp I (f a) Q end) -> iwp I (m ≫= f) Q.
Proof.
  unfold mbind, act_bind. revert Q. induction m as [A a|A e|A R c k IH|A V B' v body IHb k IHk]; intros Q HW; cbn [iwp abind] in *; try done.
  - destruct c; try (intros r; by apply IH). destruct HW as [Hk Hr]. split; [done|]. intros r Hx. by apply IH, Hr.
  - destruct HW as (J & Hv & Hb). exists J. split; [done|]. intros v' Hj. eapply iwp_mono; [by apply Hb|].
    intros [e|[v''|b]] Ho; [done..|]. by apply IHk.
Qed.

Lemma iwp_await {R} (p : prog R) (Q : error + R -> Prop) :
  (forall t ks, I ks -> wp p t ks (fun _ ks' => I ks')) ->
  (forall t ks a, I ks -> snd (eval p t ks) = Some a -> Q (inr a)) -> Q (inl CommandFailed) -> iwp I (await p) Q.
Proof.
  intros Hp Ha Hn. unfold await. apply iwp_bind. cbn [iwp]. split; [done|]. intros r [->|(t & ks & Hi & ->)]; [done|].
  destruct (eval p t ks) as [ks' [a|]] eqn:E; cbn [snd iwp]; [|done]. apply (Ha t ks); [done|by rewrite E].
Qed.

Lemma iwp_sound {db} `{RedisServer db} (others : db -> db -> Prop) {A} (m : act A) s tr s' o :
  (forall s1 s2, others s1 s2 -> I (content s1) -> I (content s2)) ->
  performs others s m tr s' o -> forall Q, I (content s) -> iwp I m Q -> I (content s') /\ Q o.
Proof.
  intros Ho. assert (forall s1 s2, rtc others s1 s2 -> I (content s1) -> I (content s2)) as Hos.
  { induction 1 as [|s1 s2 s3 H1 _ IH]; [done|]. eauto. }
  assert (forall R (p : prog R) t s1 s2 r, (forall t ks, I ks -> wp p t ks (fun _ ks' => I ks')) -> I (content s1) ->
    run p t s1 = (s2, r) -> I (content s2) /\ r = snd (eval p t (content s1))) as Hrun.
  { intros R p t s1 s2 r Hp Hi E. split; [exact (run_wp _ _ _ _ _ _ E (Hp t _ Hi))|]. by rewrite (run_eval_eq _ _ _ _ _ E). }
  induction 1; intros Q Hi HW; cbn [iwp] in HW; try (by split); try (by apply IHperforms).
  - destruct HW as [Hp Hr].
    assert (I (content s1) /\ (r = None \/ exists t ks, I ks /\ r = snd (eval p t ks))) as [Hi1 Hx].
    { destruct H0 as [t s2 s3 r Hr' E|t s2 s3 r Hr' E|s2 Hr']; [..|split; [by eapply Hos|by left]];
        destruct (Hrun _ p t s2 s3 r Hp ltac:(by eapply Hos) E) as [Hi2 ->]; (split; [done|]); [|by left].
      right. exists t, (content s2). split; [by eapply Hos|done]. }
    apply IHperforms; [done|by apply Hr].
  - destruct HW as (J & Hv & Hb). apply (IHperforms _ Hi (Hb _ Hv)).
  - destruct HW as (J & Hv & Hb). destruct (IHperforms1 _ Hi (Hb _ Hv)) as [Hi1 Hj]. apply IHperforms2; [done|]. cbn [iwp]. by exists J.
  - destruct HW as (J & Hv & Hb). destruct (IHperforms1 _ Hi (Hb _ Hv)) as [Hi1 Hk]. by apply IHperforms2.
Qed.
End invariants.

(** ** Playing a run

    An executable run on the reference server without interference, for concrete
    examples: a command takes a millisecond, a timer its time, random texts are
    numbered and the signal aborts at a given time. *)

Record world := World { w_clock : Z; w_abortAt : option Z; w_fresh : Z }.

Definition advance (ms : Z) (w : world) : world := World (w_clock w + ms)%Z (w_abortAt w) (w_fresh w).
Definition isAborted (w : world) : bool := match w_abortAt w with Some t => (t <=? w_clock w)%Z | None => false end.

Definition played (A : Type) : Type := list event * keyspace * (error + A) * world.

(** Continue a finished part. *)
Definition after {A B} (r : option (played A)) (f : keyspace -> error + A -> world -> option (played B)) : option (played B) :=
  match r with
  | Some (tr, ks, o, w) =>
      match f ks o w with Some (tr', ks', o', w') => Some (tr ++ tr', ks', o', w') | None => None end
  | None => None
  end.

Fixpoint play (fuel : nat) {A} (m : act A) (w : world) (ks : keyspace) : option (played A) :=
  match fuel with
  | O => None
  | S fuel =>
      match m in act A return option (played A) with
      | Done a => Some ([], ks, inr a, w)
      | Throw e => Some ([], ks, inl e, w)
      | Do c k =>
          match c in eff R return (R -> act _) -> option (played _) with
          | Command p => fun k =>
              let r := run p (w_clock w) ks in
              after (Some ([Event p (snd r)], fst r, inr tt, advance 1 w)) (fun ks' _ w' => play fuel (k (snd r)) w' ks')
          | Now => fun k => play fuel (k (w_clock w)) w ks
          | Aborted => fun k => play fuel (k (isAborted w)) w ks
          | RandomBytes _ => fun k =>
              play fuel (k (js "r" ++ dec (w_fresh w))) (World (w_clock w) (w_abortAt w) (w_fresh w + 1)%Z) ks
          | Scan _ _ => fun k => play fuel (k (Some (js "0", (map_to_list ks).*1))) w ks
          | Delay ms => fun k => play fuel (k tt) (advance (Z.max 0 ms) w) ks
          end k
      | Loop v body k =>
          after (play fuel (body v) w ks) (fun ks o w =>
            match o with
            | inl e => Some ([], ks, inl e, w)
            | inr (inl v') => play fuel (Loop v' body k) w ks
            | inr (inr b) => play fuel (k b) w ks
            end)
      end
  end.

Lemma play_sound (others : keyspace -> keyspace -> Prop) fuel {A} (m : act A) w ks tr ks' o w' :
  play fuel m w ks = Some (tr, ks', o, w') -> performs others ks m tr ks' o.
Proof.
  revert A m w ks tr ks' o w'. induction fuel as [|fuel IH]; intros A m w ks tr ks' o w'; cbn [play]; [done|].
  destruct m as [A a|A e|A R c k|A V B v body k].
  - intros [= <- <- <- <-]. constructor.
  - intros [= <- <- <- <-]. constructor.
  - destruct c as [R p| | |n|cursor prefix|ms]; cbv zeta beta.
    + intros E. unfold after in E. destruct (play fuel _ _ _) as [[[[tr1 ks1] o1] w1]|] eqn:Ep; [|done].
      injection E as <- <- <- <-. eapply p_command; [|by eapply IH].
      eapply (reply_seen _ _ _ (w_clock w)); [apply rtc_refl|apply surjective_pairing].
    + intros E. eapply p_now. by eapply IH.
    + intros E. eapply p_aborted. by eapply IH.
    + intros E. eapply p_random. by eapply IH.
    + intros E. eapply p_scan. by eapply IH.
    + intros E. apply p_delay. by eapply IH.
  - unfold after. destruct (play fuel (body v) w ks) as [[[[tr1 ks1] [e|[v'|b]]] w1]|] eqn:Eb; try done.
    + intros [= <- <- <- <-]. rewrite app_nil_r. apply p_loop_throw. by eapply IH.
    + destruct (play fuel (Loop v' body k) w1 ks1) as [[[[tr2 ks2] o2] w2]|] eqn:El; [|done].
      intros [= <- <- <- <-]. eapply p_loop_again; by eapply IH.
    + destruct (play fuel (k b) w1 ks1) as [[[[tr2 ks2] o2] w2]|] eqn:El; [|done].
      intros [= <- <- <- <-]. eapply p_loop_exit; by eapply IH.
Qed.

(** The outcome of a played run. *)
Definition playedOutcome {A} (r : option (played A)) : option (error + A) :=
  match r with Some (_, _, o, _) => Some o | None => None end.
Definition playedTrace {A} (r : option (played A)) : list event := match r with Some (tr, _, _, _) => tr | None => [] end.
Definition playedState {A} (ks : keyspace) (r : option (played A)) : keyspace :=
  match r with Some (_, ks', _, _) => ks' | None => ks end.

Lemma play_performs (others : keyspace -> keyspace -> Prop) fuel {A} (m : act A) w ks o :
  playedOutcome (play fuel m w ks) = Some o ->
  performs others ks m (playedTrace (play fuel m w ks)) (playedState ks (play fuel m w ks)) o.
Proof.
  intros E. destruct (play fuel m w ks) as [[[[tr ks'] o'] w']|] eqn:Ep; [|done]. injection E as ->.
  by eapply play_sound.
Qed.
