(* ===== verification/Logs.v ===== *)
(** * Runs with their log

    [logged] is [performs] of Async with more of a run written down: beside the
    scripts that were sent, the Redis time and the states of the server between which
    each ran, and every reading of the replica's clock, in their order. [lwp] is the
    program logic for it. No definition of this file is mapped to a source line. *)

From stdpp Require Import base list numbers option strings gmap relations.
From Stdlib Require Import ZArith Lia.
From S2P Require Import Prelude JsString Redis BridgeStore Async.

Inductive mark (db : Type) :=
| Sent {R : Type} (p : prog R) (t : Z) (s1 s2 : db) (reply : option R)
| Unsent {R : Type} (p : prog R)
| ReadClock (t : Z).
Arguments Sent {db R} p t s1 s2 reply.
Arguments Unsent {db R} p.
Arguments ReadClock {db} t.

(** The events of a log. *)
Definition eventOf {db} (m : mark db) : list event :=
  match m with Sent p _ _ _ r => [Event p r] | @Unsent _ R p => [Event p None] | ReadClock _ => [] end.
Definition eventsOf {db} (log : list (mark db)) : list event := log ≫= eventOf.

Section logs.
Context {db : Type} `{RedisServer db} (others : db -> db -> Prop).

(** The command [p] as the log may have it when the caller sees [r]. *)
Inductive fits {R} (p : prog R) : option R -> mark db -> Prop :=
| fits_seen t s1 s2 r : run p t s1 = (s2, r) -> fits p r (Sent p t s1 s2 r)
| fits_lost t s1 s2 r : run p t s1 = (s2, r) -> fits p None (Sent p t s1 s2 None)
| fits_unsent : fits p None (Unsent p).

(** Where it leaves the server. *)
Definition moves (s : db) (m : mark db) (s' : db) : Prop :=
  match m with Sent _ _ s1 s2 _ => rtc others s s1 /\ s' = s2 | Unsent _ => rtc others s s' | ReadClock _ => s' = s end.

Inductive logged : forall {A}, db -> act A -> list (mark db) -> db -> error + A -> Prop :=
| l_done A s (a : A) : logged s (Done a) [] s (inr a)
| l_throw A s e : logged s (@Throw A e) [] s (inl e)
| l_command A R s s1 s' (p : prog R) r m (k : option R -> act A) log o :
    fits p r m -> moves s m s1 -> logged s1 (k r) log s' o -> logged s (Do (Command p) k) (m :: log) s' o
| l_now A s s' t (k : Z -> act A) log o : logged s (k t) log s' o -> logged s (Do Now k) (ReadClock t :: log) s' o
| l_aborted A s s' b (k : bool -> act A) log o : logged s (k b) log s' o -> logged s (Do Aborted k) log s' o
| l_random A s s' n x (k : jstr -> act A) log o : logged s (k x) log s' o -> logged s (Do (RandomBytes n) k) log s' o
| l_scan A s s' cursor prefix r (k : option (jstr * list jstr) -> act A) log o :
    logged s (k r) log s' o -> logged s (Do (Scan cursor prefix) k) log s' o
| l_delay A s s' n (k : unit -> act A) log o : logged s (k tt) log s' o -> logged s (Do (Delay n) k) log s' o
| l_loop_throw A V B s s' (v : V) (body : V -> act (V + B)) (k : B -> act A) log e :
    logged s (body v) log s' (inl e) -> logged s (Loop v body k) log s' (inl e)
| l_loop_again A V B s s1 s' (v v' : V) (body : V -> act (V + B)) (k : B -> act A) log log' o :
    logged s (body v) log s1 (inr (inl v')) -> logged s1 (Loop v' body k) log' s' o ->
    logged s (Loop v body k) (log ++ log') s' o
| l_loop_exit A V B s s1 s' (v : V) (b : B) (body : V -> act (V + B)) (k : B -> act A) log log' o :
    logged s (body v) log s1 (inr (inr b)) -> logged s1 (k b) log' s' o ->
    logged s (Loop v body k) (log ++ log') s' o.

(** A log is the record of a run, and every run has one. *)
Lemma eventsOf_app (l l' : list (mark db)) : eventsOf (l ++ l') = eventsOf l ++ eventsOf l'.
Proof. apply bind_app. Qed.

Lemma logged_performs {A} s (m : act A) log s' o : logged s m log s' o -> performs others s m (eventsOf log) s' o.
Proof.
  induction 1 as [| |A R s s1 s' p r m k log o Hf Hm _ IH| | | | | | | |]; rewrite ?eventsOf_app; try (by econstructor).
  destruct Hf as [t s2 s3 r E|t s2 s3 r E|]; cbn [moves] in Hm.
  - destruct Hm as [Ho ->]. refine (p_command _ _ _ _ _ _ _ _ _ _ _ _ IH). by eapply reply_seen.
  - destruct Hm as [Ho ->]. refine (p_command _ _ _ _ _ _ _ _ _ _ _ _ IH). by eapply reply_lost.
  - refine (p_command _ _ _ _ _ _ _ _ _ _ _ _ IH). by apply reply_unsent.
Qed.

Lemma performs_logged {A} s (m : act A) tr s' o : performs others s m tr s' o -> exists log, logged s m log s' o /\ eventsOf log = tr.
Proof.
  induction 1 as [| |A R s s1 s' p r k tr o Hr _ [log [IH <-]]|A s s' t k tr o _ [log [IH <-]]|A s s' b k tr o _ [log [IH <-]]
    |A s s' n x k tr o _ [log [IH <-]]|A s s' c x r k tr o _ [log [IH <-]]|A s s' n k tr o _ [log [IH <-]]
    |A V B s s' v body k tr e _ [log [IH <-]]|A V B s s1 s' v v' body k tr tr' o _ [log [IH1 <-]] _ [log' [IH2 <-]]
    |A V B s s1 s' v b body k tr tr' o _ [log [IH1 <-]] _ [log' [IH2 <-]]].
  - exists []. split; [constructor|done].
  - exists []. split; [constructor|done].
  - destruct Hr as [t s2 s3 r Ho E|t s2 s3 r Ho E|s2 Ho].
    + exists (Sent p t s2 s3 r :: log). split; [|done]. eapply l_command; [by constructor|by split|done].
    + exists (Sent p t s2 s3 None :: log). split; [|done]. eapply l_command; [by econstructor|by split|done].
    + exists (Unsent p :: log). split; [|done]. eapply l_command; [by constructor|done|done].
  - exists (ReadClock t :: log). split; [by constructor|done].
  - exists log. split; [by econstructor|done].
  - exists log. split; [by econstructor|done].
  - exists log. split; [by econstructor|done].
  - exists log. split; [by econstructor|done].
  - exists log. split; [by constructor|done].
  - exists (log ++ log'). split; [by econstructor|apply eventsOf_app].
  - exists (log ++ log'). split; [by econstructor|apply eventsOf_app].
Qed.

(** A reply the method saw is the answer of a script that ran in its log. *)
Definition sentIn (log : list (mark db)) (ev : event) : Prop :=
  match ev with
  | Event p (Some r) => exists t s1 s2, Sent p t s1 s2 (Some r) ∈ log /\ run p t s1 = (s2, Some r)
  | Event p None => True
  end.

Lemma sentIn_mono log log' ev : log ⊆ log' -> sentIn log ev -> sentIn log' ev.
Proof. destruct ev as [R p [r|]]; [|done]. intros Hs (t & s1 & s2 & Hin & E). exists t, s1, s2. split; [by apply Hs|done]. Qed.

Lemma logged_sent {A} s (m : act A) log s' o : logged s m log s' o -> Forall (sentIn log) (eventsOf log).
Proof.
  assert (forall (l l' : list (mark db)), l ⊆ l ++ l' /\ l' ⊆ l ++ l') as Hs by (split; [by apply list_subseteq_app_l|by apply list_subseteq_app_r]).
  assert (forall (mk : mark db) l, Forall (sentIn l) (eventsOf l) -> Forall (sentIn (mk :: l)) (eventsOf l)) as Hc.
  { intros mk l Hl. eapply Forall_impl; [exact Hl|]. intros ev. by apply sentIn_mono, (Hs [mk] l). }
  assert (forall l l' : list (mark db), Forall (sentIn l) (eventsOf l) -> Forall (sentIn l') (eventsOf l') ->
    Forall (sentIn (l ++ l')) (eventsOf (l ++ l'))) as Ha.
  { intros l l' H1 H2. rewrite eventsOf_app. apply Forall_app_2; [eapply Forall_impl; [exact H1|]|eapply Forall_impl; [exact H2|]];
      intros ev; apply sentIn_mono, Hs. }
  induction 1 as [| |A R s s1 s' p r mk k log o Hf _ _ IH| | | | | | | |]; try (by apply Forall_nil_2); try done; try (by apply Ha); [|exact (Hc (ReadClock t) _ IHlogged)].
  change (eventsOf (mk :: log)) with (eventOf mk ++ eventsOf log). apply Forall_app_2; [|by apply Hc].
  destruct Hf as [t s2 s3 [x|] E| |]; repeat constructor. exists t, s2, s3. split; [by left|done].
Qed.

Lemma event_sent {A} s (m : act A) log s' o R (p : prog R) r : logged s m log s' o -> Event p (Some r) ∈ eventsOf log ->
  exists t s1 s2, Sent p t s1 s2 (Some r) ∈ log /\ run p t s1 = (s2, Some r).
Proof. intros Hl Hin. apply logged_sent in Hl. rewrite Forall_forall in Hl. exact (Hl _ Hin). Qed.

(** ** Weakest preconditions *)

Fixpoint lwp {A} (m : act A) (log : list (mark db)) : (list (mark db) -> error + A -> Prop) -> Prop :=
  match m in act A return (list (mark db) -> error + A -> Prop) -> Prop with
  | Done a => fun Q => Q log (inr a)
  | Throw e => fun Q => Q log (inl e)
  | Do c k => fun Q =>
      match c in eff R return (R -> list (mark db) -> (list (mark db) -> error + _ -> Prop) -> Prop) -> Prop with
      | Command p => fun rec => forall r mk, fits p r mk -> rec r (log ++ [mk]) Q
      | Now => fun rec => forall t, rec t (log ++ [ReadClock t]) Q
      | _ => fun rec => forall r, rec r log Q
      end (fun r log' => lwp (k r) log')
  | Loop v body k => fun Q =>
      exists I : _ -> list (mark db) -> Prop, I v log /\
        forall v' log', I v' log' ->
          lwp (body v') log' (fun log'' o =>
            match o with
            | inl e => Q log'' (inl e)
            | inr (inl v'') => I v'' log''
            | inr (inr b) => lwp (k b) log'' Q
            end)
  end.

Lemma lwp_mono {A} (m : act A) log (Q Q' : list (mark db) -> error + A -> Prop) :
  lwp m log Q -> (forall log' o, Q log' o -> Q' log' o) -> lwp m log Q'.
Proof.
  revert log Q Q'. induction m as [A a|A e|A R c k IH|A V B v body IHb k IHk]; intros log Q Q' HW HQ; cbn [lwp] in *; [auto..| |].
  - destruct c; intros; eapply IH; eauto.
  - destruct HW as (I & Hv & Hb). exists I. split; [done|]. intros v' log' Hi.
    eapply IHb; [by apply Hb|]. intros log'' [e|[v''|b]] Ho; [auto|done|]. eapply IHk; eauto.
Qed.

Lemma lwp_bind {A B} (m : act A) (f : A -> act B) log (Q : list (mark db) -> error + B -> Prop) :
  lwp m log (fun log' o => match o with inl e => Q log' (inl e) | inr a => lwp (f a) log' Q end) -> lwp (m ≫= f) log Q.
Proof.
  unfold mbind, act_bind. revert log Q. induction m as [A a|A e|A R c k IH|A V B' v body IHb k IHk]; intros log Q HW; cbn [lwp abind] in *; [done..| |].
  - destruct c; intros; apply IH; by apply HW.
  - destruct HW as (I & Hv & Hb). exists I. split; [done|]. intros v' log' Hi.
    eapply lwp_mono; [by apply Hb|]. intros log'' [e|[v''|b]] Ho; [done..|]. by apply IHk.
Qed.

Lemma lwp_try {A} (m : act A) log (Q : list (mark db) -> error + (error + A) -> Prop) :
  lwp m log (fun log' o => Q log' (inr o)) -> lwp (try m) log Q.
Proof.
  revert log Q. induction m as [A a|A e|A R c k IH|A V B v body IHb k IHk]; intros log Q HW; cbn [lwp try] in *; [done..| |].
  - destruct c; intros; apply IH; by apply HW.
  - destruct HW as (I & Hv & Hb). exists I. split; [done|]. intros v' log' Hi.
    apply (lwp_bind (try (body v'))). apply IHb. cbn [lwp]. eapply lwp_mono; [by apply Hb|].
    intros log'' [e|[v''|b]] Ho; cbn [lwp]; [done..|]. by apply IHk.
Qed.

Lemma lwp_sound {A} (m : act A) s log s' o :
  logged s m log s' o -> forall log0 (Q : list (mark db) -> error + A -> Prop), lwp m log0 Q -> Q (log0 ++ log) o.
Proof.
  induction 1; intros log0 Q HW; cbn [lwp] in HW.
  - by rewrite app_nil_r.
  - by rewrite app_nil_r.
  - match goal with Hf : fits p r m |- _ => specialize (HW r m Hf) end. apply IHlogged in HW. by rewrite <- app_assoc in HW.
  - specialize (HW t). apply IHlogged in HW. by rewrite <- app_assoc in HW.
  - by apply IHlogged, (HW b).
  - by apply IHlogged, (HW x).
  - by apply IHlogged, (HW r).
  - by apply IHlogged, (HW tt).
  - destruct HW as (I & Hv & Hb). by apply (IHlogged _ _ (Hb _ _ Hv)).
  - destruct HW as (I & Hv & Hb). apply Hb in Hv. apply IHlogged1 in Hv. rewrite app_assoc. apply IHlogged2. cbn [lwp]. by exists I.
  - destruct HW as (I & Hv & Hb). apply Hb in Hv. apply IHlogged1 in Hv. rewrite app_assoc. by apply IHlogged2.
Qed.

(** A part whose outcome is all that matters. *)
Lemma lwp_grows {A} (m : act A) log : lwp m log (fun log' _ => exists l, log' = log ++ l).
Proof.
  revert log. enough (forall log log0, (exists l, log = log0 ++ l) -> lwp m log (fun log' _ => exists l, log' = log0 ++ l)) as Hg.
  { intros log. apply Hg. exists []. by rewrite app_nil_r. }
  induction m as [A a|A e|A R c k IH|A V B v body IHb k IHk]; intros log log0 [l ->]; cbn [lwp]; [by eexists..| |].
  - destruct c; intros; apply IH; rewrite <- ?app_assoc; by eexists.
  - exists (fun _ log' => exists l, log' = log0 ++ l). split; [by eexists|]. intros v' log' Hi. eapply lwp_mono; [by apply IHb|].
    intros log'' [e|[v''|b]] Ho; [done..|]. by apply IHk.
Qed.

Lemma lwp_any {A} (m : act A) log (Q : list (mark db) -> error + A -> Prop) : (forall log' o, Q log' o) -> lwp m log Q.
Proof. intros HQ. eapply lwp_mono; [apply lwp_grows|auto]. Qed.

Lemma lwp_now log (Q : list (mark db) -> error + Z -> Prop) : (forall t, Q (log ++ [ReadClock t]) (inr t)) -> lwp now_ log Q.
Proof. intros HQ t. apply HQ. Qed.

Lemma lwp_aborted log (Q : list (mark db) -> error + bool -> Prop) : (forall b, Q log (inr b)) -> lwp aborted log Q.
Proof. intros HQ b. apply HQ. Qed.

Lemma lwp_await {R} (p : prog R) log (Q : list (mark db) -> error + R -> Prop) :
  (forall a t s1 s2, run p t s1 = (s2, Some a) -> Q (log ++ [Sent p t s1 s2 (Some a)]) (inr a)) ->
  (forall mk, Q (log ++ [mk]) (inl CommandFailed)) -> lwp (await p) log Q.
Proof.
  intros H1 H2. unfold await. apply lwp_bind. cbn [lwp]. intros r mk Hf. destruct Hf as [t s1 s2 [a|] E| |]; cbn [lwp]; auto.
Qed.
End logs.

(** ** Playing a run

    The log of a run without loops in which every command is answered: the clock is
    read, and commands run, at the given times. *)
Fixpoint playLog {A} (m : act A) (times : list Z) (ks : keyspace) : option (list (mark keyspace) * keyspace * (error + A)) :=
  match m in act A return option (list (mark keyspace) * keyspace * (error + A)) with
  | Done a => Some ([], ks, inr a)
  | Throw e => Some ([], ks, inl e)
  | Do c k =>
      match c in eff R return (R -> list Z -> keyspace -> option (list (mark keyspace) * keyspace * (error + _))) -> _ with
      | Command p => fun next =>
          match times with
          | t :: times' =>
              match next (snd (run p t ks)) times' (fst (run p t ks)) with
              | Some (log, ks', o) => Some (Sent p t ks (fst (run p t ks)) (snd (run p t ks)) :: log, ks', o)
              | None => None
              end
          | [] => None
          end
      | Now => fun next =>
          match times with
          | t :: times' => match next t times' ks with Some (log, ks', o) => Some (ReadClock t :: log, ks', o) | None => None end
          | [] => None
          end
      | _ => fun _ => None
      end (fun r times ks => playLog (k r) times ks)
  | Loop _ _ _ => None
  end.

Lemma playLog_logged (others : keyspace -> keyspace -> Prop) {A} (m : act A) times ks log ks' o :
  playLog m times ks = Some (log, ks', o) -> logged others ks m log ks' o.
Proof.
  revert times ks log ks' o. induction m as [A a|A e|A R c k IH|A V B v body IHb k IHk]; intros times ks log ks' o; cbn [playLog]; [..|done].
  - intros [= <- <- <-]. constructor.
  - intros [= <- <- <-]. constructor.
  - destruct c as [R p| | |n|cursor prefix|ms]; try done; destruct times as [|t times]; try done.
    + destruct (playLog _ times _) as [[[log1 ks1] o1]|] eqn:E; [|done]. intros [= <- <- <-].
      eapply l_command; [apply fits_seen, surjective_pairing|by split|by eapply IH].
    + destruct (playLog _ times _) as [[[log1 ks1] o1]|] eqn:E; [|done]. intros [= <- <- <-]. constructor. by eapply IH.
Qed.
