(* ===== verification/BridgeRouting.v ===== *)
(** * Worker selection and lane Git policy

    Models service/src/bridge/selection.ts (which worker a request may be routed
    to) and service/src/bridge/lane-git.ts (what happens to the [laneGit] of a
    command result). *)

From stdpp Require Import base list numbers option strings.
From Stdlib Require Import ZArith Lia.
From S2P Require Import Prelude JsString Json Protocol.

(** ** Lane Git *)

Inductive LaneGitDropReason := Disabled | NotAdvertised | Invalid.

Definition hasLaneGit (result : option json) : bool :=
  match result with Some (JObj r) => bool_decide (js "laneGit" ∈ keys r) | _ => false end.

(** [const { laneGit, ...rest } = result]. *)
Definition withoutKey (k : jstr) (r : record) : record :=
  List.filter (fun kv => negb (bool_decide (fst kv = k))) r.

Definition laneGitPolicy `{Platform} (result : record) (enabled advertised : bool)
    : record * option LaneGitDropReason :=
  let reason :=
    if negb enabled then Some Disabled
    else if negb advertised then Some NotAdvertised
    else if isWorkspaceLaneGit (field result (js "laneGit")) then None
    else Some Invalid in
  match reason with
  | None => (result, None)
  | Some r => (withoutKey (js "laneGit") result, Some r)
  end.

(** ** Worker selection *)

Inductive SandboxBackendName := Http | LambdaMicrovm | RemoteBridge.

#[global] Instance SandboxBackendName_dec : EqDecision SandboxBackendName.
Proof. solve_decision. Defined.

(** The HTTP status of a [BridgeWorkerSelectionError]. *)
Inductive selectionStatus := S400 | S403 | S503.

(** [/^[A-Za-z0-9][A-Za-z0-9._-]{0,127}$/]. *)
Definition selectablePattern (workerId : jstr) : bool :=
  headTail (fun c => isAlnum c || oneOf c "._-") 127 workerId.

Definition nonEmpty (s : option jstr) : bool :=
  match s with Some s => negb (bool_decide (s = [])) | None => false end.

Definition resolveBridgeWorkerSelection (backend : SandboxBackendName) (configuredWorkerId : jstr)
    (dynamicWorkers : bool) (requested trusted : option jstr) : res selectionStatus (option (jstr * bool)) :=
  let requestedWorkerId := trim <$> requested in
  let trustedWorkerId := trim <$> trusted in
  let hasRequestedWorker := nonEmpty requestedWorkerId in
  let hasTrustedWorker := nonEmpty trustedWorkerId in
  if hasRequestedWorker || hasTrustedWorker then
    if negb (bool_decide (backend = RemoteBridge)) then Err S400
    else if hasRequestedWorker && negb hasTrustedWorker then Err S403
    else if hasRequestedWorker && hasTrustedWorker
            && negb (bool_decide (requestedWorkerId = trustedWorkerId)) then Err S403
    else
      let selectedWorkerId := default [] trustedWorkerId in
      if negb (selectablePattern selectedWorkerId) then Err S400
      else if negb dynamicWorkers && negb (bool_decide (selectedWorkerId = configuredWorkerId)) then Err S403
      else Ok (Some (selectedWorkerId, true))
  else if negb (bool_decide (backend = RemoteBridge)) then Ok None
  else
    let configured := trim configuredWorkerId in
    if bool_decide (configured = []) then Err S503
    else if negb (selectablePattern configured) then Err S503
    else Ok (Some (configured, false)).
