(* ===== verification/BridgeMethods.v ===== *)
(** * The bridge store: methods

    Models the methods of [RedisBridgeStore] (service/src/bridge/store.ts): what
    each reads, decides, sends and throws. A Redis command is [await]ed; a reply
    that never comes is a rejection. Settlements and registrations are the JSON
    objects the code handles, assignments the records of BridgeStore. *)

From stdpp Require Import base list numbers option strings gmap.
From Stdlib Require Import ZArith Lia.
From S2P Require Import Prelude JsString Json Protocol Redis JsonText BridgeKeys BridgeAdmission BridgeSlots BridgeStore Async BridgeRouting.

(** The constructor's arguments; the command timeout is the environment's choice
    of lost replies. *)
Record storeConfig := StoreConfig {
  workerTtlSeconds : Z;
  maxWorkspaceLeaseSlots : Z;
  laneGitEnabled : bool;
}.

(** The ceiling the constructor accepts. *)
Definition validConfig (cfg : storeConfig) : bool :=
  isSafeInteger (Some (JInt (maxWorkspaceLeaseSlots cfg)))
  && (1 <=? maxWorkspaceLeaseSlots cfg)%Z && (maxWorkspaceLeaseSlots cfg <=? 8)%Z.

Definition POLL_INTERVAL_MS : Z := 100%Z.
Definition BRIDGE_CANCELLED_WORKSPACE_SETTLEMENT_GRACE_MS : Z := 5000%Z.

Definition storeError {A} (c : BridgeStoreErrorCode) : act A := Throw (StoreError c).
Definition storeErrorIf (bad : bool) (c : BridgeStoreErrorCode) : act unit := throwIf bad (StoreError c).

(** A value the code needs: a conversion that would give [NaN] or read a property
    of a value that has none. *)
Definition needValue {A} (v : option A) : act A := match v with Some a => Done a | None => Throw OtherError end.

(** [{ ...o, [k]: v }]. *)
Definition setField (o : record) (k : string) (v : json) : record :=
  if bool_decide (js k ∈ keys o)
  then map (fun kv => if bool_decide (fst kv = js k) then (fst kv, v) else kv) o
  else o ++ [(js k, v)].

(** The text of [Number(s)]. *)
Definition numberText (s : jstr) : jstr := match tonumber s with Some n => dec n | None => js "NaN" end.

Definition statusIs (settlement : record) (s : string) : bool := eqStr (field settlement (js "status")) (js s).

(** [registration.capabilities.workspaceLeaseSlots ?? 1]. *)
Definition leaseSlots (registration : record) : Z :=
  default 1%Z (intField (capabilities registration) "workspaceLeaseSlots").

(** [registration.binding?.tenantId]. *)
Definition bindingTenant (registration : record) : option jstr :=
  objField registration "binding" ≫= fun b => strField b "tenantId".

Definition requiresReady (registration : record) : bool :=
  eqBool (field (capabilities registration) (js "requiresReadyConfirmation")) true.

Definition withoutLaneGit (settlement : record) : record :=
  if negb (statusIs settlement "fulfilled") then settlement
  else match objField settlement "result" with
       | Some result => setField settlement "result" (JObj (withoutKey (js "laneGit") result))
       | None => settlement
       end.

Section methods.
Context `{Platform} `{Runtime} (cfg : storeConfig).

Definition workspaceLeaseCapacity (requested : Z) : Z := Z.min (maxWorkspaceLeaseSlots cfg) requested.

(** [JSON.parse(raw)] of an object. *)
Definition parseObject (raw : jstr) : act record :=
  match parse raw with Some (JObj r) => Done r | _ => Throw OtherError end.

(** [Date.parse(assignment.expiresAt)] where a number is needed. *)
Definition expiryOf (a : AssignmentOwnership) : act Z := needValue (parseDate (expiresAt a)).

(** The Redis key of an assignment's workspace. *)
Definition fenceKey (a : AssignmentOwnership) : option jstr :=
  workspaceQuarantineKey (workerId a) <$> assignmentWorkspace a.

(** ** Registration *)

Record BridgeWorkerStatus := WorkerStatus {
  online : bool; ready : bool; leaseExpiresInMs : option Z; statusCapabilities : option json }.

Definition OFFLINE : BridgeWorkerStatus := WorkerStatus false false None None.

(** The status computed from the snapshot's registration. *)
Definition statusOf (w : jstr) (registration : record) (readyToken registrationGeneration : option jstr)
    (expires : Z) : BridgeWorkerStatus :=
  match strField registration "workerId", strField registration "incarnationId",
        field registration (js "capabilities") with
  | Some w', Some inc, Some caps =>
      if negb (eqInt (field registration (js "protocolVersion")) BRIDGE_PROTOCOL_VERSION)
         || negb (isValidBridgeWorkerId w') || negb (bool_decide (w' = w))
         || negb (isValidBridgeWorkerCapabilities caps)
      then OFFLINE
      else
        WorkerStatus true
          (negb (requiresReady registration)
           || match registrationGeneration with
              | Some g => bool_decide (readyToken = Some (inc ++ [COLON] ++ numberText g))
              | None => false end)
          (Some expires) (Some caps)
  | _, _, _ => OFFLINE
  end.

Definition workerStatus (w : jstr) : act BridgeWorkerStatus :=
  snapshot ← await (statusScript w);
  match snapshot with
  | (Some raw, readyToken, registrationGeneration, expires) =>
      if isEmpty raw || (expires <=? 0)%Z then Done OFFLINE
      else match parse raw with
           | None => Done OFFLINE
           | Some JNull => Throw OtherError
           | Some v =>
               Done (match asRecord v with
                     | Some r => statusOf w r readyToken registrationGeneration expires
                     | None => OFFLINE end)
           end
  | _ => Done OFFLINE
  end.

(** The negotiated registration. *)
Definition negotiate (registration : record) : act record :=
  match field (capabilities registration) (js "workspaceLeaseSlots") with
  | None => Done registration
  | Some _ =>
      storeErrorIf (negb (isValidBridgeWorkerCapabilities (JObj (capabilities registration)))
                    || negb (requiresReady registration)) WORKER_MISMATCH;;
      Done (setField registration "capabilities"
              (JObj (setField (capabilities registration) "workspaceLeaseSlots"
                       (JInt (workspaceLeaseCapacity (leaseSlots registration))))))
  end.

(** The [authorization] argument: a credential, or the expected pairing. *)
Inductive authorization :=
| AuthCredential (credential : jstr)
| AuthPairing (identityId : option jstr) (pairingGeneration : option Z) (activeCredentialId : option jstr).

Definition registerCode (result : Z) : act Z :=
  if (result =? -2)%Z then storeError WORKER_QUARANTINED
  else if (result =? -1)%Z then storeError WORKER_FENCED
  else if (result =? -3)%Z then storeError WORKER_BUSY
  else if (result =? -4)%Z then storeError WORKER_UNAUTHORIZED
  else if (result =? -5)%Z then storeError WORKER_FENCED
  else if negb (isSafeInteger (Some (JInt result))) || (result <? 1)%Z then Throw OtherError
  else Done result.

Definition register (registration : record) (auth : option authorization) : act Z :=
  registration ← negotiate registration;
  let w := default [] (strField registration "workerId") in
  let inc := default [] (strField registration "incarnationId") in
  let '(identity, pairing, credential) :=
    match auth with
    | None => (None, None, None)
    | Some (AuthCredential c) => (None, None, Some c)
    | Some (AuthPairing i g c) => (i, g, c)
    end in
  result ← await (registerScript w inc (stringify (JObj registration)) (workerTtlSeconds cfg)
    (match pairing with Some g => dec g | None => [] end) (default [] identity) (default [] credential)
    (default [] (strField registration "identityId")) (requiresReady registration)
    (dec (leaseSlots registration)));
  registerCode result.

Definition confirmReady (w inc : jstr) (registrationGeneration : Z) : act unit :=
  result ← await (confirmReadyScript w inc registrationGeneration (workerReadyToken inc registrationGeneration)
    (Z.min (workerTtlSeconds cfg) (ceilDiv (workerTtlSeconds cfg) 2 + 5)));
  if (result =? -1)%Z then storeError WORKER_OFFLINE
  else if (result =? -2)%Z then storeError WORKER_FENCED
  else if (result =? -3)%Z then storeError WORKER_QUARANTINED
  else if negb (result =? 1)%Z then Throw OtherError
  else Done tt.

Definition registration_ (w : jstr) : act (option record) :=
  raw ← await (rd (GET (workerKey w)));
  match raw with None => Done None | Some raw => r ← parseObject raw; Done (Some r) end.

(** [registration?.incarnationId === inc]. *)
Definition incarnationIs (registration : option record) (inc : jstr) : bool :=
  match registration with Some r => eqStr (field r (js "incarnationId")) inc | None => false end.

Definition dispatchableRegistration (w : jstr) : act (option (record * option jstr)) :=
  snapshot ← await (dispatchableScript w);
  let '(raw, ready, gen, genIncarnation) := snapshot in
  match raw with
  | None => Done None
  | Some raw =>
      registration ← parseObject raw;
      if negb (requiresReady registration) then Done (Some (registration, None))
      else match gen ≫= tonumber with
           | None => Done None
           | Some g =>
               let inc := default [] (strField registration "incarnationId") in
               if negb (isSafeInteger (Some (JInt g))) || (g <? 1)%Z
                  || negb (bool_decide (genIncarnation = Some inc))
                  || negb (bool_decide (ready = Some (workerReadyToken inc g)))
               then Done None
               else Done (Some (registration, ready))
           end
  end.

Definition readAssignment (aid : jstr) : act (option StoredAssignment) :=
  raw ← await (rd (GET (assignmentKey aid)));
  match raw with
  | None => Done None
  | Some raw => r ← parseObject raw; a ← needValue (readStored r); Done (Some a)
  end.

(** ** Locks, cancellation and cleanup *)

Definition acquireLock (w aid inc : jstr) (ttlSeconds : Z) (reuseOwned : bool)
    (guard : option DurableWorkspaceGuard) : act bool :=
  r ← await (acquireLockScript w aid inc (ttlSeconds * 1000) reuseOwned guard);
  Done (r =? 1)%Z.

Definition releaseLock (w aid : jstr) : act unit := await (releaseLockScript w aid);; Done tt.

Definition cancel (aid : jstr) (assignment : option AssignmentOwnership) : act unit :=
  ttl ← match assignment with
        | None => Done 30%Z
        | Some a => t ← expiryOf a; clock ← now_; Done (assignmentTtlSeconds t clock)
        end;
  await (cancelScript aid ttl);;
  Done tt.

Definition cleanup (a : AssignmentOwnership) : act unit :=
  result ← await (cleanupScript (workerId a) (incarnationId a) (assignmentId a) (workspaceLeaseSlot a) (fenceKey a));
  if (result =? -1)%Z then Done tt
  else match workspaceLeaseSlot a with
       | None => releaseLock (workerId a) (assignmentId a)
       | Some _ => await (release (workerId a) (incarnationId a) (assignmentId a))
       end.

(** Both promises of [Promise.all] and [Promise.allSettled] run; the first
    rejection is thrown. They are sent in the order of the code's array. *)
Definition both (m1 m2 : act unit) : act unit :=
  r1 ← try m1;
  r2 ← try m2;
  match r1, r2 with
  | inl e, _ => Throw e
  | inr _, inl e => Throw e
  | inr _, inr _ => Done tt
  end.

Definition cleanupDispatch (w aid : jstr) (assignment : option AssignmentOwnership) : act unit :=
  both (cancel aid assignment)
       (match assignment with None => releaseLock w aid | Some a => cleanup a end).

Definition cleanupUnassignedSlot (w inc aid : jstr) : act unit :=
  both (cleanupDispatch w aid None) (await (release w inc aid)).

(** [for (attempt < 3) try { m; return } catch { delay(25) }; throw lastError]. *)
Fixpoint retry (attempts : nat) (m : act unit) (lastError : error) : act unit :=
  match attempts with
  | O => Throw lastError
  | S attempts' => catch m (fun e => delay 25;; retry attempts' m e)
  end.

Definition cleanupWithRetry (w aid : jstr) (assignment : option AssignmentOwnership) : act unit :=
  retry 3 (cleanupDispatch w aid assignment) OtherError.

Definition commitPendingWorkspace (a : AssignmentOwnership) (settlement : record) (durableKey : option jstr) : act unit :=
  match workspaceLeaseSlot a with
  | Some _ =>
      fence ← needValue (workspaceFence a);
      committed ← await (commitReceiptScript (assignmentId a) (workspaceQuarantineKey (workerId a) fence));
      storeErrorIf (negb (committed =? 1)%Z) WORKSPACE_QUARANTINED
  | None =>
      match fenceKey a with
      | None => Done tt
      | Some fence =>
          if negb (statusIs settlement "fulfilled") then Done tt else
          committed ← await (commitFenceScript (assignmentId a) fence
            ((fun k => k ++ js ":committed:" ++ assignmentId a) <$> durableKey));
          storeErrorIf (negb (committed =? 1)%Z) WORKSPACE_QUARANTINED
      end
  end.

Definition quarantine (w inc : jstr) (runtimeSession : option jstr) : act unit :=
  await (quarantineScript w inc (workspaceQuarantineKey w <$> runtimeSession));; Done tt.

Definition resetWorkspace (w inc runtimeSession : jstr) : act unit :=
  result ← await (resetWorkspaceScript w inc (workspaceQuarantineKey w runtimeSession));
  if (result =? -1)%Z then storeError WORKER_FENCED
  else if (result =? -2)%Z then storeError WORKER_BUSY
  else Done tt.

(** ** Leases *)

Definition optStrIs (o : option jstr) (o' : option jstr) : bool := bool_decide (o = o').

Definition claimOrPopLease (w inc : jstr) (identityId : option jstr) (slot : option Z) : act (option jstr) :=
  await (claimOrPopLeaseScript w inc slot (default [] identityId)).

Definition discardLeaseClaim (w inc aid : jstr) (slot : option Z) : act unit :=
  await (discardLeaseClaimScript w inc slot aid);; Done tt.

Definition returnLeaseById (w inc aid : jstr) (slot : option Z) : act unit :=
  await (returnLeaseScript w inc slot aid);; Done tt.

Definition returnLease (a : AssignmentOwnership) : act unit :=
  returnLeaseById (workerId a) (incarnationId a) (assignmentId a) (workspaceLeaseSlot a).

Definition returnLeaseByIdWithRetry (w inc aid : jstr) (slot : option Z) : act unit :=
  retry 3 (returnLeaseById w inc aid slot) OtherError.

Definition clearUndeliveredWorkspaceFence (a : AssignmentOwnership) : act unit :=
  match fenceKey a with
  | None => Done tt
  | Some fence => await (clearFenceScript fence (assignmentId a));; Done tt
  end.

(** The assignment as the worker receives it: without the token's hash, the
    identity, the fence and the durable key. *)
Record wireAssignment := Wire {
  wire_assignmentId : jstr; wire_workerId : jstr; wire_incarnationId : jstr; wire_generation : Z;
  wire_leaseToken : jstr; wire_slot : option Z; wire_expiresAt : jstr; wire_runtimeSessionId : option jstr;
  wire_executionKind : option jstr; wire_workspaceId : option jstr; wire_request : json;
  wire_remainingMs : Z;
}.

Definition toWire (a : StoredAssignment) (remaining : Z) : wireAssignment :=
  Wire (assignmentId a) (workerId a) (incarnationId a) (generation a) (leaseToken a) (workspaceLeaseSlot a)
    (expiresAt a) (runtimeSessionId a) (executionKind a) (workspaceId a) (request a) remaining.

(** What one delivery attempt decides: poll again, give up, or deliver. *)
Inductive delivery := PollAgain | GiveUp | Deliver (a : wireAssignment).

(** The [try] block of [lease] on a claimed assignment. *)
Definition deliver (w inc : jstr) (identityId : option jstr) (slot : option Z) (aid : jstr) : act delivery :=
  found ← readAssignment aid;
  match (found : option StoredAssignment) with
  | None => discardLeaseClaim w inc aid slot;; Done PollAgain
  | Some a =>
      if negb (bool_decide (workerId a = w)) || negb (bool_decide (incarnationId a = inc))
         || negb (bool_decide (workspaceLeaseSlot a = slot))
      then discardLeaseClaim w inc aid slot;; Done PollAgain
      else
      gone ← aborted;
      if (gone : bool) then returnLease a;; Done GiveUp else
      registration ← registration_ w;
      storeErrorIf (negb (incarnationIs registration inc)) WORKER_FENCED;;
      if negb (optStrIs (workerIdentityId a) identityId)
      then discardLeaseClaim w inc aid slot;; Done PollAgain
      else
      clock ← now_;
      if isExpired a clock then
        ack ← await (rd (GET (leaseAckKey w inc slot)));
        (if bool_decide (ack = Some aid) then Done tt else clearUndeliveredWorkspaceFence a);;
        discardLeaseClaim w inc aid slot;;
        Done PollAgain
      else
      gone ← aborted;
      if (gone : bool) then returnLease a;; Done GiveUp else
      t ← expiryOf a;
      clock ← now_;
      Done (Deliver (toWire a (Z.max 0 (t - clock))))
  end.

(** The slot was negotiated by the current registration. *)
Definition slotNegotiated (registration : option record) (inc : jstr) (n : Z) : bool :=
  let slots := match registration with Some r => leaseSlots r | None => 1%Z end in
  isSafeInteger (Some (JInt n)) && (0 <=? n)%Z && (n <? maxWorkspaceLeaseSlots cfg)%Z
  && (n <? slots)%Z && (1 <? slots)%Z && incarnationIs registration inc.

(** One round of the loop: [None] goes around. *)
Definition leaseRound (w inc : jstr) (identityId : option jstr) (slot : option Z) (deadline : Z)
    : act (option (option wireAssignment)) :=
  claimed ← try (claimOrPopLease w inc identityId slot);
  match claimed with
  | inl e => gone ← aborted; if (gone : bool) then Done (Some None) else Throw e
  | inr None =>
      clock ← now_;
      delay (Z.min POLL_INTERVAL_MS (Z.max 0 (deadline - clock)));; Done None
  | inr (Some aid) =>
      r ← try (deliver w inc identityId slot aid);
      match r with
      | inl e =>
          returnLeaseByIdWithRetry w inc aid slot;;
          gone ← aborted; if (gone : bool) then Done (Some None) else Throw e
      | inr PollAgain => Done None
      | inr GiveUp => Done (Some None)
      | inr (Deliver a) => Done (Some (Some a))
      end
  end.

Definition lease (w inc : jstr) (waitMs : Z) (identityId : option jstr) (slot : option Z)
    : act (option wireAssignment) :=
  match slot with
  | None => Done tt
  | Some n =>
      registration ← registration_ w;
      storeErrorIf (negb (slotNegotiated registration inc n)) WORKER_MISMATCH
  end;;
  start ← now_;
  let deadline := (start + waitMs)%Z in
  Loop true (fun firstPoll : bool =>
    gone ← aborted;
    if (gone : bool) then Done (inr None) else
    inTime ← (if firstPoll then Done true else clock ← now_; Done (clock <? deadline)%Z);
    if negb inTime then Done (inr None) else
    r ← leaseRound w inc identityId slot deadline;
    Done (match r with None => inl false | Some a => inr a end)) Done.

Definition acknowledgeLease (w inc aid : jstr) (gen : Z) (token : jstr) : act unit :=
  found ← readAssignment aid;
  registration ← registration_ w;
  match (found : option StoredAssignment) with
  | None => storeError ASSIGNMENT_FENCED
  | Some a =>
      storeErrorIf (negb (bool_decide (workerId a = w)) || negb (bool_decide (incarnationId a = inc))
                    || negb (incarnationIs registration inc) || negb (generation a =? gen)%Z
                    || negb (bool_decide (tokenHash token = leaseTokenHash a))) ASSIGNMENT_FENCED;;
      t ← expiryOf a;
      clock ← now_;
      acknowledged ← await (acknowledgeScript w inc (workspaceLeaseSlot a) aid (assignmentTtlSeconds t clock));
      storeErrorIf (negb (acknowledged =? 1)%Z) ASSIGNMENT_FENCED
  end.

Definition cancelled (w inc aid : jstr) : act bool :=
  found ← readAssignment aid;
  registration ← registration_ w;
  match (found : option StoredAssignment) with
  | None => Done true
  | Some a =>
      if negb (bool_decide (workerId a = w)) || negb (bool_decide (incarnationId a = inc))
         || negb (incarnationIs registration inc)
      then Done true
      else await (rd (EXISTS (cancellationKey aid)))
  end.

(** ** Settlement *)

Definition resultOf (settlement : record) : option json :=
  if statusIs settlement "fulfilled" then field settlement (js "result") else None.

Definition sanitizeLaneGit (settlement : record) (a : StoredAssignment) (registration : option record) : record :=
  if negb (statusIs settlement "fulfilled") || negb (hasLaneGit (field settlement (js "result")))
     || negb (bool_decide (executionKind a = Some (js "workspace_tool")))
     || negb (match asRecord (request a) with Some q => opIs q "execute_command" | None => false end)
  then settlement
  else
    let advertised :=
      match registration ≫= (fun r => objField (capabilities r) "workspaceTools") with
      | Some tools => listIncludes tools "commandResultFeatures" (js "lane_git")
      | None => false end in
    match snd (laneGitPolicy (default [] (objField settlement "result")) (laneGitEnabled cfg) advertised) with
    | None => settlement
    | Some _ => withoutLaneGit settlement
    end.

(** The settlement claims the assignment's lease: its incarnation, generation and
    token. *)
Definition holdsLease (a : AssignmentOwnership) (settlement : record) : bool :=
  eqStr (field settlement (js "incarnationId")) (incarnationId a)
  && eqInt (field settlement (js "generation")) (generation a)
  && match strField settlement "leaseToken" with
     | Some t => bool_decide (tokenHash t = leaseTokenHash a) | None => false end.

(** [quarantineSettledWorkspace]; [confirmWorkspaceCleanup] passes [false]. *)
Definition quarantineSettledWorkspace (w aid : jstr) (settlement : record) (identityId : option jstr)
    (quarantine_ : bool) : act unit :=
  raw ← await (receiptScript aid);
  match fst raw with
  | None => storeError ASSIGNMENT_FENCED
  | Some metadata =>
      r ← parseObject metadata;
      receipt ← needValue (readOwnership r);
      match workspaceFence receipt, workspaceLeaseSlot receipt with
      | Some f, Some slot =>
          storeErrorIf (negb (bool_decide (workerId receipt = w)) || negb (bool_decide (assignmentId receipt = aid))
                        || negb (statusIs settlement "rejected") || negb (holdsLease receipt settlement)
                        || negb (optStrIs (workerIdentityId receipt) identityId)) ASSIGNMENT_FENCED;;
          clock ← now_;
          ttl ← needValue (assignmentOutcomeTtlSeconds receipt clock);
          accepted ← await (receiptCommitScript w aid metadata (incarnationId receipt) (default [] identityId)
            (default [] (snd raw)) (workspaceQuarantineKey w f) (Some slot) (stringify (JObj settlement)) ttl
            quarantine_);
          storeErrorIf (negb (accepted =? 1)%Z) ASSIGNMENT_FENCED;;
          cleanupWithRetry w aid (Some receipt)
      | _, _ => storeError ASSIGNMENT_FENCED
      end
  end.

Definition confirmWorkspaceCleanup (w aid : jstr) (intent : record) (identityId : option jstr) : act unit :=
  quarantineSettledWorkspace w aid intent identityId false.

(** A retry that differs from the committed settlement only by its [laneGit]. *)
Definition recognise (settlement : record) (existing : option jstr) : record :=
  match existing with
  | Some e =>
      if negb (bool_decide (e = stringify (JObj settlement))) && hasLaneGit (resultOf settlement)
         && bool_decide (e = stringify (JObj (withoutLaneGit settlement)))
      then withoutLaneGit settlement else settlement
  | None => settlement
  end.

Definition settleCode (accepted : Z) : act unit :=
  if (accepted =? -1)%Z then storeError ASSIGNMENT_FENCED
  else if (accepted =? -2)%Z then storeError WORKSPACE_QUARANTINED
  else if (accepted =? -3)%Z then storeError ASSIGNMENT_EXPIRED
  else if (accepted =? -4)%Z then storeError ASSIGNMENT_FENCED
  else if negb (accepted =? 1)%Z && negb (accepted =? 2)%Z then storeError ASSIGNMENT_EXPIRED
  else Done tt.

(** The commit of [settle], once the reads have passed. *)
Definition commitSettlement (w aid : jstr) (settlement : record) (identityId : option jstr) (a : StoredAssignment)
    (registration : option record) : act unit :=
  storeErrorIf (negb (holdsLease a settlement) || negb (incarnationIs registration (incarnationId a))
                || negb (optStrIs (workerIdentityId a) identityId)) ASSIGNMENT_FENCED;;
  clock ← now_;
  storeErrorIf (negb (statusIs settlement "rejected") && isExpired a clock) ASSIGNMENT_EXPIRED;;
  let settlement := sanitizeLaneGit settlement a registration in
  clock ← now_;
  ttl ← needValue (assignmentOutcomeTtlSeconds a clock);
  accepted ← await (settleScript w aid (incarnationId a) (workspaceLeaseSlot a) (fenceKey a)
    (stringify (JObj settlement)) ttl (statusIs settlement "rejected") (default [] identityId) (incarnationId a));
  settleCode accepted;;
  if bool_decide (is_Some (workspaceLeaseSlot a)) && statusIs settlement "rejected" then
    commitPendingWorkspace a settlement None;;
    cleanupWithRetry w aid (Some (a : AssignmentOwnership))
  else Done tt.

Definition settle (w aid : jstr) (settlement : record) (identityId : option jstr) (quarantineWorkspace : bool)
    : act unit :=
  if quarantineWorkspace then quarantineSettledWorkspace w aid settlement identityId true else
  existing ← await (rd (GET (settlementKey aid)));
  let settlement := recognise settlement existing in
  let committed := bool_decide (existing = Some (stringify (JObj settlement))) in
  storeErrorIf (bool_decide (is_Some existing) && negb committed) ASSIGNMENT_FENCED;;
  found ← readAssignment aid;
  let leased := match (found : option StoredAssignment) with
                | Some a => bool_decide (is_Some (workspaceLeaseSlot a)) | None => false end in
  if committed && (negb leased || negb (statusIs settlement "rejected")) then Done tt else
  match (found : option StoredAssignment) with
  | None => if committed then Done tt else storeError ASSIGNMENT_NOT_FOUND
  | Some a =>
      storeErrorIf (negb (bool_decide (workerId a = w))) WORKER_MISMATCH;;
      registration ← registration_ w;
      commitSettlement w aid settlement identityId a registration
  end.

(** ** Waiting *)

(** Poll for the settlement until [deadline]; the caller's interval doubles up to
    [maxPoll]. [signal] reads an abort signal. *)
Definition pollSettlement (aid : jstr) (deadline poll0 maxPoll : Z) (signal : option (act bool)) : act (option record) :=
  Loop poll0 (fun pollMs : Z =>
    gone ← default (Done false) signal;
    clock ← now_;
    if (gone : bool) || (deadline <=? clock)%Z then Done (inr None) else
    raw ← await (rd (GET (settlementKey aid)));
    match raw with
    | Some raw => s ← parseObject raw; Done (inr (Some s))
    | None =>
        clock ← now_;
        delay (if bool_decide (is_Some signal) then pollMs else Z.min pollMs (Z.max 0 (deadline - clock)));;
        Done (inl (Z.min (pollMs * 2) maxPoll))
    end) Done.

(** [assignment.executionKind === 'workspace_tool' && isWorkspaceToolRequest(request)]. *)
Definition workspaceToolRequest (a : StoredAssignment) : option record :=
  if bool_decide (executionKind a = Some (js "workspace_tool")) && isWorkspaceToolRequest (request a)
  then asRecord (request a) else None.

(** A cancelled assignment that may have changed files, or is durable, gets a grace
    period for a clean rejection. *)
Definition deservesGrace (a : StoredAssignment) (gone : bool) : bool :=
  let q := workspaceToolRequest a in
  gone && (bool_decide (executionKind a = Some (js "workspace_programmatic"))
           || match q with Some r => isWorkspaceMutation r | None => false end
           || (bool_decide (is_Some (durableRequestKey a)) && bool_decide (is_Some q))).

Definition waitForSettlement (signal : act bool) (a : StoredAssignment) (deadlineAtMs : Z) : act record :=
  polled ← try (pollSettlement (assignmentId a) deadlineAtMs POLL_INTERVAL_MS POLL_INTERVAL_MS (Some signal));
  match polled with
  | inr (Some s) => Done s
  | _ =>
      let pollError := match polled with inl e => Some e | inr _ => None end in
      gone ← signal;
      graced ← (if deservesGrace a gone then
        try (cancel (assignmentId a) (Some (a : AssignmentOwnership));;
             clock ← now_;
             pollSettlement (assignmentId a) (clock + BRIDGE_CANCELLED_WORKSPACE_SETTLEMENT_GRACE_MS)
               POLL_INTERVAL_MS 500 None)
       else Done (inr None));
      match graced with
      | inr (Some s) => Done s
      | _ =>
          let pollError := match pollError, graced with Some e, _ => Some e | None, inl e => Some e | _, _ => None end in
          final ← await (closeScript (assignmentId a) (fenceKey a));
          match final with
          | Some raw => parseObject raw
          | None =>
              gone ← signal;
              clock ← now_;
              match pollError with
              | Some e => if negb gone && (clock <? deadlineAtMs)%Z then Throw e else storeError ASSIGNMENT_EXPIRED
              | None => storeError ASSIGNMENT_EXPIRED
              end
          end
      end
  end.

(** ** Enqueue *)

Definition receiptOf (a : AssignmentOwnership) : AssignmentOwnership :=
  Ownership (assignmentId a) (workerId a) (incarnationId a) (workspaceFence a) (workspaceLeaseSlot a)
    (generation a) (leaseTokenHash a) (workerIdentityId a) (expiresAt a) None (durableRequestKey a).

(** The scope of a leased workspace's fence; a checkout reads its lanes' index. *)
Definition leaseScope (a : AssignmentOwnership) : act (option (Z * fenceScope)) :=
  match workspaceLeaseSlot a with
  | None => Done None
  | Some n =>
      fence ← needValue (workspaceFence a);
      match workspaceFenceParent fence with
      | Some parent => Done (Some (n, LaneScope (workspaceQuarantineKey (workerId a) parent)))
      | None =>
          laneFences ← await (rd (SMEMBERS (workspaceLaneFenceIndexKey (workspaceQuarantineKey (workerId a) fence))));
          Done (Some (n, CheckoutScope laneFences))
      end
  end.

Definition enqueueForActiveIncarnation (a : StoredAssignment) (ttlSeconds : Z) (readyToken : option jstr)
    (guard : option DurableWorkspaceGuard) : act bool :=
  scope ← leaseScope a;
  t ← expiryOf a;
  clock ← now_;
  receiptTtl ← match guard with
               | None => Done ttlSeconds
               | Some _ => needValue (assignmentOutcomeTtlSeconds a clock) end;
  result ← await (enqueueScript
    (EnqueueArgs (workerId a) (assignmentId a) (incarnationId a) (stringify (JObj (storedFields a)))
       (stringify (JObj (ownershipFields (receiptOf a)))) ttlSeconds t (default [] readyToken) (fenceKey a) scope
       receiptTtl) guard);
  if (result =? -1)%Z then storeError WORKSPACE_QUARANTINED else Done (result =? 1)%Z.
End methods.
