(* ===== verification/BridgeDispatch.v ===== *)
(** * The bridge store: dispatch

    Models [dispatch], [dispatchWorkspaceTool] and the durable variants
    ([prepareDurableWorkspaceTool], [advanceDurableWorkspaceTool],
    [finishDurableWorkspaceTool]) of service/src/bridge/store.ts: admission, slot
    or lock, enqueue with up to eight attempts, the wait for the settlement, its
    finalisation, and the [finally] block. *)

From stdpp Require Import base list numbers option strings gmap.
From Stdlib Require Import ZArith Lia.
From S2P Require Import Prelude JsString Json Protocol Redis JsonText BridgeKeys BridgeAdmission BridgeSlots BridgeStore Async BridgeRouting BridgeMethods.

(** A pre-enqueue expiry of a workspace request is a definite non-execution. *)
Definition classifyPreEnqueueExpiry (e : error) (forWorkspace gone : bool) : error :=
  if forWorkspace && negb gone && bool_decide (e = StoreError ASSIGNMENT_EXPIRED)
  then StoreError WORKSPACE_QUEUE_TIMEOUT else e.

Record dispatchArgs := DispatchArgs {
  x_workerId : jstr;
  x_tenantId : option jstr;
  x_requireTenantBinding : bool;
  x_body : json;
  x_headers : json;
  x_workspaceRequest : option record;
  x_workspaceId : option jstr;
  x_runtimeSessionId : option jstr;
  x_deadlineAtMs : Z;
  x_executionTimeoutMs : option Z;
  x_finalize : option (record -> record -> act record);
}.

Definition assertDispatchActive (deadlineAtMs : Z) : act unit :=
  gone ← aborted;
  if (gone : bool) then storeError ASSIGNMENT_EXPIRED else
  clock ← now_;
  storeErrorIf (deadlineAtMs <=? clock)%Z ASSIGNMENT_EXPIRED.

(** A failure after the deadline, or after an abort, is an expiry. *)
Definition boundedBy {A} (deadlineAtMs : Z) (m : act A) : act A :=
  catch m (fun e => assertDispatchActive deadlineAtMs;; Throw e).

Definition dispatchCommand {A} (deadlineAtMs : Z) (m : act A) : act A :=
  assertDispatchActive deadlineAtMs;; boundedBy deadlineAtMs m.

Section dispatch.
Context `{Platform} `{Runtime} (cfg : storeConfig) (args : dispatchArgs).

Definition forWorkspace : bool :=
  bool_decide (is_Some (x_workspaceRequest args)) || bool_decide (is_Some (x_workspaceId args)).

Definition selectedWorkspaceId : option jstr :=
  match x_workspaceRequest args with
  | Some q => strField q "workspaceId"
  | None => x_workspaceId args
  end.

(** [request?.k ?? body.k]. *)
Definition selectedInstanceId : option jstr :=
  match x_workspaceRequest args ≫= (fun q => strField q "workspaceInstanceId") with
  | Some i => Some i | None => workspaceInstanceId (x_body args) end.
Definition selectedWorktree : option jstr :=
  match x_workspaceRequest args ≫= (fun q => strField q "worktree") with
  | Some t => Some t | None => workspaceWorktree (x_body args) end.

Definition selectedAdmissionId : option jstr :=
  (fun w => workspaceAdmissionId w selectedInstanceId selectedWorktree) <$> selectedWorkspaceId.

(** The worker advertises what the request needs. *)
Definition supports (registration : record) : bool :=
  match x_workspaceRequest args with Some q => supportsWorkspaceTool registration q | None => true end
  && match x_workspaceId args with
     | Some id =>
         supportsWorkspaceProgrammatic registration id
           (default [] (asRecord (x_body args) ≫= fun b => strField b "language"))
           (workspaceInstanceId (x_body args)) (workspaceWorktree (x_body args))
     | None => true end.

Definition statefulMismatch (registration : record) : bool :=
  bool_decide (is_Some (x_runtimeSessionId args))
  && negb (eqBool (field (capabilities registration) (js "statefulWorkspace")) true).

(** A bound worker serves its tenant only. *)
Definition tenantRefused (registration : record) : bool :=
  let bound := negb (isNullish (field registration (js "binding"))) in
  (x_requireTenantBinding args && negb bound)
  || (bound && match x_tenantId args with
               | None => true
               | Some t => isEmpty t || negb (bool_decide (bindingTenant registration = Some t)) end).

(** The argument checks. *)
Definition argumentsInvalid : bool :=
  (bool_decide (is_Some (x_workspaceRequest args)) && bool_decide (is_Some (x_workspaceId args)))
  || match x_executionTimeoutMs args with
     | None => false
     | Some t => negb (bool_decide (is_Some (x_workspaceRequest args)))
                 || negb (isSafeInteger (Some (JInt t))) || (t <? 1)%Z || (305000 <? t)%Z
     end.

(** An error before the enqueue attempt. *)
Definition preEnqueue {A} (m : act A) : act A :=
  catch m (fun e => gone ← aborted; Throw (classifyPreEnqueueExpiry e forWorkspace gone)).

(** The lines before the admission: the worker's registration and its checks. *)
Definition prepare : act (record * option jstr) :=
  let w := x_workerId args in
  storeErrorIf argumentsInvalid ASSIGNMENT_INVALID;;
  dispatchable ← preEnqueue (assertDispatchActive (x_deadlineAtMs args);;
                             dispatchCommand (x_deadlineAtMs args) (dispatchableRegistration w));
  match dispatchable with
  | None => storeError WORKER_OFFLINE
  | Some (registration, readyToken) =>
      storeErrorIf (maxWorkspaceLeaseSlots cfg <? leaseSlots registration)%Z WORKER_MISMATCH;;
      storeErrorIf (tenantRefused registration) WORKER_UNAUTHORIZED;;
      storeErrorIf (statefulMismatch registration) WORKER_MISMATCH;;
      storeErrorIf (negb (supports registration)) WORKER_MISMATCH;;
      match x_runtimeSessionId args with
      | None => Done tt
      | Some session =>
          quarantined ← preEnqueue (dispatchCommand (x_deadlineAtMs args)
            (await (rd (EXISTS (workspaceQuarantineKey w session)))));
          storeErrorIf quarantined WORKSPACE_QUARANTINED
      end;;
      Done (registration, readyToken)
  end.

(** [workspaceSlots.reserve]. *)
Definition reserveSlot (w inc aid ws : jstr) (capacity expiresAtMs clock : Z) (refreshOwned : bool)
    (guard : option DurableWorkspaceGuard) : act (option Z) :=
  r ← await (reserve w inc aid ws capacity expiresAtMs clock refreshOwned guard);
  match r with
  | Reserved n => Done (Some n)
  | NotReserved => Done None
  | Replaced | InvalidReservation => Throw OtherError
  end.

Section admitted.
Context (registration : record) (readyToken : option jstr) (aid : jstr).

Definition inc0 : jstr := default [] (strField registration "incarnationId").

(** Concurrent slots are used for a workspace when more than one was negotiated. *)
Definition usesSlots : bool := bool_decide (is_Some selectedWorkspaceId) && (1 <? leaseSlots registration)%Z.
Definition hasAdmission : bool := bool_decide (is_Some selectedWorkspaceId).

(** [delay(Math.min(POLL_INTERVAL_MS, deadline - Date.now()))]. *)
Definition pollDelay : act unit :=
  clock ← now_; delay (Z.min POLL_INTERVAL_MS (x_deadlineAtMs args - clock)).

(** One attempt to take a slot or the lock: [Some slot] when it succeeded. *)
Definition tryLock : act (option (option Z)) :=
  let w := x_workerId args in
  clock ← now_;
  let ttlSeconds := assignmentTtlSeconds
    (match x_executionTimeoutMs args with None => x_deadlineAtMs args | Some t => (clock + t)%Z end) clock in
  if usesSlots then
    slot ← dispatchCommand (x_deadlineAtMs args)
      (clock ← now_;
       reserveSlot w inc0 aid (default [] selectedAdmissionId) (leaseSlots registration)
         (clock + ttlSeconds * 1000) clock false None);
    Done (option_map Some (slot : option Z))
  else
    locked ← dispatchCommand (x_deadlineAtMs args) (acquireLock w aid inc0 ttlSeconds false None);
    Done (if (locked : bool) then Some None else None).

(** The [do ... while] loop; it leaves with [None] when the worker is busy and the
    request does not wait. *)
Definition lockLoop : act (option (option Z)) :=
  Loop tt (fun _ =>
    waiting ← (if hasAdmission && negb usesSlots then
        head ← dispatchCommand (x_deadlineAtMs args)
          (clock ← now_; await (isHead (x_workerId args) aid clock));
        Done (negb head)
      else Done false);
    if (waiting : bool) then pollDelay;; Done (inl tt) else
    locked ← tryLock;
    match locked with
    | Some slot => Done (inr (Some slot))
    | None => if hasAdmission then pollDelay;; Done (inl tt) else Done (inr None)
    end) Done.

(** Waiting must not transfer accepted work to another machine or identity. *)
Definition sameWorker (current : record) : bool :=
  bool_decide (strField current "incarnationId" = strField registration "incarnationId")
  && bool_decide (strField current "identityId" = strField registration "identityId")
  && bool_decide (bindingTenant current = bindingTenant registration).

Definition revalidate : act unit :=
  current ← dispatchCommand (x_deadlineAtMs args) (dispatchableRegistration (x_workerId args));
  match current with
  | None => storeError WORKER_OFFLINE
  | Some (current, _) =>
      storeErrorIf (negb (sameWorker current)) WORKER_OFFLINE;;
      storeErrorIf (negb (supports current)) WORKER_MISMATCH
  end.

(** From the admission queue to the assignment's generation: the slot, the
    generation and the execution deadline. *)
Definition admitRequest : act (option Z * Z * Z) :=
  let w := x_workerId args in
  (if hasAdmission then
     entered ← dispatchCommand (x_deadlineAtMs args)
       (clock ← now_;
        await (enter w aid clock (x_deadlineAtMs args) DEFAULT_CAPACITY
                 (if usesSlots then selectedAdmissionId else None)));
     storeErrorIf (negb entered) WORKER_QUEUE_FULL
   else Done tt);;
  locked ← lockLoop;
  match locked with
  | None => storeError WORKER_BUSY
  | Some slot =>
      assertDispatchActive (x_deadlineAtMs args);;
      (if hasAdmission then revalidate else Done tt);;
      assertDispatchActive (x_deadlineAtMs args);;
      clock ← now_;
      let deadline := match x_executionTimeoutMs args with
                      | None => x_deadlineAtMs args | Some t => (clock + t)%Z end in
      gen ← dispatchCommand deadline (await (rd (INCR (generationKey w))));
      Done (slot, gen, deadline)
  end.

Definition buildAssignment (token : jstr) (slot : option Z) (gen deadline : Z) : StoredAssignment :=
  Stored
    (Ownership aid (x_workerId args) inc0 (app NATIVE_WORKSPACE_FENCE_PREFIX <$> selectedAdmissionId) slot gen
       (tokenHash token) (strField registration "identityId") (toISOString deadline)
       (x_runtimeSessionId args) None)
    token
    (match x_workspaceRequest args, x_workspaceId args with
     | Some _, _ => Some (js "workspace_tool")
     | None, Some _ => Some (js "workspace_programmatic")
     | None, None => None end)
    (match x_workspaceRequest args with Some _ => None | None => x_workspaceId args end)
    (match x_workspaceRequest args with
     | Some q => JObj q
     | None => JObj [(js "body", x_body args); (js "headers", x_headers args)] end).

(** [assignment.incarnationId = registration.incarnationId]. *)
Definition retarget (a : StoredAssignment) (r : record) : StoredAssignment :=
  Stored
    (Ownership (assignmentId a) (workerId a) (default [] (strField r "incarnationId")) (workspaceFence a)
       (workspaceLeaseSlot a) (generation a) (leaseTokenHash a) (workerIdentityId a) (expiresAt a)
       (runtimeSessionId a) (durableRequestKey a))
    (leaseToken a) (executionKind a) (workspaceId a) (request a).

(** A replacement registration for the next attempt. *)
Definition replacement (deadline : Z) : act (record * option jstr) :=
  r ← dispatchCommand deadline (dispatchableRegistration (x_workerId args));
  match r with
  | None => storeError WORKER_OFFLINE
  | Some (r, t) =>
      storeErrorIf (statefulMismatch r) WORKER_MISMATCH;;
      storeErrorIf (negb (supports r)) WORKER_MISMATCH;;
      Done (r, t)
  end.

(** The variables of the [try] block after the enqueue attempts. *)
Record enqueued := Enqueued {
  q_assignment : StoredAssignment; q_registration : record; q_attempted : bool; q_result : error + unit }.

Fixpoint enqueueAttempts (attempts : nat) (deadline : Z) (a : StoredAssignment) (r : record)
    (token : option jstr) (attempted : bool) : act enqueued :=
  match attempts with
  | O => Done (Enqueued a r attempted (inl (StoreError WORKER_OFFLINE)))
  | S attempts' =>
      active ← try (assertDispatchActive deadline);
      match active with
      | inl e => Done (Enqueued a r attempted (inl e))
      | inr _ =>
          let a := retarget a r in
          active ← try (assertDispatchActive deadline);
          match active with
          | inl e => Done (Enqueued a r attempted (inl e))
          | inr _ =>
              queued ← try (boundedBy deadline
                (t ← expiryOf a; clock ← now_;
                 enqueueForActiveIncarnation a (assignmentTtlSeconds t clock) token None));
              match queued with
              | inl e => Done (Enqueued a r true (inl e))
              | inr true => Done (Enqueued a r true (inr tt))
              | inr false =>
                  if hasAdmission then Done (Enqueued a r true (inl (StoreError WORKER_FENCED))) else
                  next ← try (replacement deadline);
                  match next with
                  | inl e => Done (Enqueued a r true (inl e))
                  | inr (r', token') => enqueueAttempts attempts' deadline a r' token' true
                  end
              end
          end
      end
  end.

(** After the enqueue: wait, finalise, commit; a failed finalisation quarantines
    the workspace. *)
Definition complete (a : StoredAssignment) (r : record) (deadline : Z) : act record :=
  settlement ← waitForSettlement aborted a deadline;
  catch
    (result ← match x_finalize args with None => Done settlement | Some f => f settlement r end;
     commitPendingWorkspace a settlement None;;
     Done result)
    (fun e =>
       match workspaceFence a with
       | Some fence =>
           await (quarantineFenceScript (workspaceQuarantineKey (x_workerId args) fence) (assignmentId a));; Done tt
       | None =>
           match assignmentWorkspace a with
           | Some session => quarantine (x_workerId args) (incarnationId a) (Some session)
           | None => Done tt end
       end;;
       Throw e).

(** The [finally] block. *)
Definition finish (assignment : option StoredAssignment) (resultCommitted : bool) : act unit :=
  let w := x_workerId args in
  (if hasAdmission then catch (await (leave w aid)) (fun _ => Done tt) else Done tt);;
  if resultCommitted then
    catch (cleanupWithRetry w aid (owned <$> assignment)) (fun _ => Done tt)
  else
    match assignment with
    | None => if usesSlots then cleanupUnassignedSlot w inc0 aid else cleanupDispatch w aid None
    | Some a => cleanupDispatch w aid (Some (a : AssignmentOwnership))
    end.

(** The [try] block from the admission on. *)
Definition execute (token : jstr) : act record :=
  admission ← try admitRequest;
  match admission with
  | inl e =>
      gone ← aborted;
      finish None false;;
      Throw (classifyPreEnqueueExpiry e forWorkspace gone)
  | inr (slot, gen, deadline) =>
      q ← enqueueAttempts 8 deadline (buildAssignment token slot gen deadline) registration readyToken false;
      match q_result q with
      | inl e =>
          gone ← aborted;
          finish (Some (q_assignment q)) false;;
          Throw (if q_attempted q then e else classifyPreEnqueueExpiry e forWorkspace gone)
      | inr _ =>
          r ← try (complete (q_assignment q) (q_registration q) deadline);
          match r with
          | inl e => finish (Some (q_assignment q)) false;; Throw e
          | inr result => finish (Some (q_assignment q)) true;; Done result
          end
      end
  end.
End admitted.

Definition dispatch : act record :=
  ready_ ← prepare;
  aid ← randomBytes 18;
  token ← randomBytes 32;
  execute (fst ready_) (snd ready_) aid token.
End dispatch.

(** ** Workspace tools *)

Section tools.
Context `{Platform} `{Runtime} (cfg : storeConfig).

(** The capabilities [isWorkspaceToolResult] reads: their [listFileFeatures]. *)
Definition toolFeatures (registration : record) : option (option (list jstr)) :=
  match objField (capabilities registration) "workspaceTools" with
  | None => None
  | Some tools =>
      Some (match arrField tools "listFileFeatures" with
            | None => None
            | Some l => Some (omap (fun v => match v with JStr s => Some s | _ => None end) l) end)
  end.

Definition checkResult (q settlement registration : record) : act record :=
  storeErrorIf (statusIs settlement "fulfilled"
                && negb (match field settlement (js "result") with
                         | Some result => isWorkspaceToolResult q result (toolFeatures registration)
                         | None => false end)) RESULT_INVALID;;
  Done settlement.

Definition dispatchWorkspaceTool (w : jstr) (tenant : option jstr) (requireTenantBinding : bool) (q : record)
    (deadlineAtMs : Z) (executionTimeoutMs : option Z) : act record :=
  storeErrorIf (negb (isWorkspaceToolRequest (JObj q))) ASSIGNMENT_INVALID;;
  dispatch cfg (DispatchArgs w tenant requireTenantBinding (JObj []) (JObj []) (Some q) None None deadlineAtMs
    executionTimeoutMs (Some (checkResult q))).

(** ** Durable requests *)

(** The fields of [StoredWorkspaceRequest] (workspace-tools/requests.ts) the bridge
    reads. *)
Record StoredWorkspaceRequest := WorkspaceRequest {
  r_id : jstr;
  r_key : jstr;
  r_workerId : jstr;
  r_tenantId : jstr;
  r_requireTenantBinding : bool;
  r_request : record;
  r_registration : record;
  r_queueDeadlineAtMs : Z;
  r_executionTimeoutMs : Z;
  r_queued : bool;
  r_cancelRequested : bool;
  r_assignment : option StoredAssignment;
  r_settlement : option record;
}.

Inductive durableState := Completed | Failed | Cancelled.

Record DurableWorkspaceOutcome := Outcome {
  o_state : durableState;
  o_result : option json;
  o_error : option jstr;          (* the error's code *)
  o_settlement : option record;
}.

Definition failedWith (code : string) : DurableWorkspaceOutcome := Outcome Failed None (Some (js code)) None.

Definition prepareDurableWorkspaceTool (w tenant : jstr) (requireTenantBinding : bool) (q : record)
    (executionTimeoutMs queueWaitMs : Z) : act record :=
  storeErrorIf (negb (isWorkspaceToolRequest (JObj q))
                || negb (isSafeInteger (Some (JInt executionTimeoutMs)))
                || (executionTimeoutMs <? 1)%Z || (305000 <? executionTimeoutMs)%Z
                || negb (isSafeInteger (Some (JInt queueWaitMs)))
                || (queueWaitMs <? 1)%Z || (300000 <? queueWaitMs)%Z) ASSIGNMENT_INVALID;;
  current ← dispatchableRegistration w;
  match current with
  | None => storeError WORKER_OFFLINE
  | Some (registration, _) =>
      let bound := negb (isNullish (field registration (js "binding"))) in
      storeErrorIf ((requireTenantBinding && negb bound)
                    || (bound && negb (bool_decide (bindingTenant registration = Some tenant)))) WORKER_UNAUTHORIZED;;
      storeErrorIf ((maxWorkspaceLeaseSlots cfg <? leaseSlots registration)%Z
                    || negb (supportsWorkspaceTool registration q)) WORKER_MISMATCH;;
      Done registration
  end.

Definition sameRegistration (r r' : record) : bool :=
  bool_decide (strField r "incarnationId" = strField r' "incarnationId")
  && bool_decide (strField r "identityId" = strField r' "identityId")
  && bool_decide (bindingTenant r = bindingTenant r').

Definition durableAssignment (record_ : StoredWorkspaceRequest) (registration : record) (workspace token : jstr)
    (slot : option Z) (gen expires : Z) : StoredAssignment :=
  Stored
    (Ownership (r_id record_) (r_workerId record_) (default [] (strField registration "incarnationId"))
       (Some (NATIVE_WORKSPACE_FENCE_PREFIX ++ workspace)) slot gen (tokenHash token)
       (strField registration "identityId") (toISOString expires) None (Some (r_key record_)))
    token (Some (js "workspace_tool")) None (JObj (r_request record_)).

(** The slot or the lock of a queued request: [None] when it must wait. *)
Definition takeDurable (record_ : StoredWorkspaceRequest) (guard : DurableWorkspaceGuard) (registration : record)
    (workspace : jstr) : act (option (option Z)) :=
  let w := r_workerId record_ in
  let inc := default [] (strField registration "incarnationId") in
  let capacity := leaseSlots registration in
  head ← (if (capacity =? 1)%Z then clock ← now_; await (isHead w (r_id record_) clock) else Done true);
  if negb head then Done None else
  clock ← now_;
  let expiresAtMs := (clock + r_executionTimeoutMs record_)%Z in
  clock ← now_;
  let ttlSeconds := assignmentTtlSeconds expiresAtMs clock in
  if (1 <? capacity)%Z then
    clock ← now_;
    slot ← reserveSlot w inc (r_id record_) workspace capacity (clock + ttlSeconds * 1000) clock true (Some guard);
    Done (option_map Some (slot : option Z))
  else
    locked ← acquireLock w (r_id record_) inc ttlSeconds true (Some guard);
    Done (if (locked : bool) then Some None else None).

Definition advanceQueued (record_ : StoredWorkspaceRequest) (guard : DurableWorkspaceGuard)
    : act (option DurableWorkspaceOutcome) :=
  if r_cancelRequested record_ then Done (Some (Outcome Cancelled None None None)) else
  clock ← now_;
  if (r_queueDeadlineAtMs record_ <=? clock)%Z then Done (Some (failedWith "WORKSPACE_QUEUE_TIMEOUT")) else
  clock ← now_;
  let w := r_workerId record_ in
  let q := r_request record_ in
  registration ← prepareDurableWorkspaceTool w (r_tenantId record_) (r_requireTenantBinding record_) q
    (r_executionTimeoutMs record_) (Z.max 1 (r_queueDeadlineAtMs record_ - clock));
  storeErrorIf (negb (sameRegistration registration (r_registration record_))) WORKER_FENCED;;
  let workspace := workspaceAdmissionId (default [] (strField q "workspaceId")) (strField q "workspaceInstanceId")
    (strField q "worktree") in
  taken ← takeDurable record_ guard registration workspace;
  match taken with
  | None => Done None
  | Some slot =>
      clock ← now_;
      if (r_queueDeadlineAtMs record_ <=? clock)%Z then Done (Some (failedWith "WORKSPACE_QUEUE_TIMEOUT")) else
      token ← randomBytes 32;
      gen ← await (rd (INCR (generationKey w)));
      clock ← now_;
      let a := durableAssignment record_ registration workspace token slot gen
        (clock + r_executionTimeoutMs record_) in
      ready_ ← dispatchableRegistration w;
      match ready_ with
      | None => storeError WORKER_OFFLINE
      | Some (r, readyToken) =>
          storeErrorIf (negb (sameRegistration r registration) || negb (supportsWorkspaceTool r q)) WORKER_FENCED;;
          t ← expiryOf a; clock ← now_;
          enqueueForActiveIncarnation a (assignmentTtlSeconds t clock) readyToken (Some guard);;
          Done None
      end
  end.

(** The settlement of an admitted request; [None] is still running. *)
Definition durableSettlement (record_ : StoredWorkspaceRequest) (a : StoredAssignment) : act (option record) :=
  raw ← await (rd (GET (settlementKey (r_id record_))));
  match raw with
  | Some raw => s ← parseObject raw; Done (Some s)
  | None =>
      clock ← now_;
      let running := match parseDate (expiresAt a) with Some t => (clock <? t)%Z | None => false end in
      if negb (r_cancelRequested record_) && running then Done None else
      t ← expiryOf a;
      s ← waitForSettlement (Done (r_cancelRequested record_)) a t;
      Done (Some s)
  end.

Definition advanceAdmitted (record_ : StoredWorkspaceRequest) : act (option DurableWorkspaceOutcome) :=
  a ← needValue (r_assignment record_);
  r ← try (durableSettlement record_ a);
  match r with
  | inl e =>
      if negb (bool_decide (e = StoreError ASSIGNMENT_EXPIRED)) then Throw e
      else if r_cancelRequested record_ && negb (isWorkspaceMutation (r_request record_))
      then Done (Some (Outcome Cancelled None None None))
      else Done (Some (failedWith "ASSIGNMENT_EXPIRED"))
  | inr None => Done None
  | inr (Some s) =>
      if statusIs s "fulfilled" then
        match field s (js "result") with
        | Some result =>
            if isWorkspaceToolResult (r_request record_) result (toolFeatures (r_registration record_))
            then Done (Some (Outcome Completed (Some result) None (Some s)))
            else Done (Some (failedWith "RESULT_INVALID"))
        | None => Done (Some (failedWith "RESULT_INVALID"))
        end
      else
        Done (Some (Outcome (if r_cancelRequested record_ then Cancelled else Failed) None
          (Some (default (js "WORKSPACE_TOOL_REJECTED") (strField s "errorCode"))) (Some s)))
  end.

Definition advanceDurableWorkspaceTool (record_ : StoredWorkspaceRequest) (guard : DurableWorkspaceGuard)
    : act (option DurableWorkspaceOutcome) :=
  if r_queued record_ then advanceQueued record_ guard else advanceAdmitted record_.

Definition finishDurableWorkspaceTool (record_ : StoredWorkspaceRequest) : act unit :=
  let w := r_workerId record_ in
  match r_assignment record_ with
  | Some a =>
      match r_settlement record_ with
      | Some s => commitPendingWorkspace a s (Some (r_key record_))
      | None => Done tt end;;
      cleanupDispatch w (r_id record_) (Some (a : AssignmentOwnership))
  | None =>
      cleanupUnassignedSlot w (default [] (strField (r_registration record_) "incarnationId")) (r_id record_)
  end;;
  await (leave w (r_id record_)).
End tools.
