(* ===== verification/BridgeStoreProofs.v ===== *)
(** * The bridge store: its scripts never interfere

    Which keys each script of the store writes, and what follows for every
    interleaving of replicas: a stored settlement is final, a fenced or
    quarantined incarnation never registers again. *)

From stdpp Require Import base list numbers option strings gmap relations.
From Stdlib Require Import ZArith Lia.
From S2P Require Import Prelude JsString Json Protocol ProtocolKeys ProtocolPaths Redis JsonText BridgeKeys BridgeAdmission BridgeSlots BridgeSlotsProofs BridgeStore.

(** ** Kinds of keys *)

Section keys.
Context `{Platform}.

(** The key of a workspace's fence, or one derived from it. *)
Definition fenceLike (k : jstr) : Prop :=
  exists w f s, isValidBridgeWorkerId w = true /\ k = workspaceQuarantineKey w f ++ s.

(** A key of another subsystem: a durable request, its claim or its marker. *)
Definition foreign (k : jstr) : Prop := startsWith k PREFIX = false.

Lemma fence_split w (f s : jstr) : isValidBridgeWorkerId w = true ->
  exists rest, splitOn COLON (workspaceQuarantineKey w f ++ s)
    = map js ["codeapi"; "bridge"; "v1"] ++ js "worker" :: encodeURIComponent w :: js "workspace" :: rest.
Proof.
  intros Hw. exists (splitOn COLON ((sha256hex f ++ js ":quarantined") ++ s)).
  unfold workspaceQuarantineKey.
  transitivity (splitOn COLON (js "codeapi" ++ COLON :: js "bridge" ++ COLON :: js "v1" ++ COLON :: js "worker"
    ++ COLON :: encodeURIComponent w ++ COLON :: js "workspace" ++ COLON :: (sha256hex f ++ js ":quarantined") ++ s)).
  { f_equal. unfold PREFIX. rewrite <- !app_assoc. reflexivity. }
  rewrite !splitOn_app; try reflexivity; try (by apply encode_colon_free);
    apply (forallb_not_in (fun c => negb (c =? COLON)%Z)); vm_compute; reflexivity.
Qed.

Lemma keyOf_fence_ne c k : keyCall_ok c = true -> fenceLike k -> keyOf c <> k.
Proof.
  intros Hc (w & f & s & Hw & ->) E. apply (f_equal (splitOn COLON)) in E.
  destruct (fence_split w f s Hw) as [rest Er]. rewrite Er, keyOf_split in E by done.
  apply app_inv_head in E. revert E.
  destruct c as [| | | | | | | | | | | | | | | | | | |? ? [?|]|? ? [?|]|? ? [?|]| | | | | |];
    cbn [keyParts map app]; intros E; try discriminate E;
    exfalso; injection E; intros;
    repeat match goal with Hj : js _ = js _ |- _ => apply js_inj in Hj; first [discriminate Hj | clear Hj] end.
Qed.

Lemma startsWith_app (p s : jstr) : startsWith (p ++ s) p = true.
Proof. unfold startsWith. rewrite take_app_length. by apply bool_decide_eq_true_2. Qed.

Lemma keyOf_foreign_ne c k : foreign k -> keyOf c <> k.
Proof.
  intros Hf <-. unfold foreign in Hf.
  assert (exists s, keyOf c = PREFIX ++ s) as [s E].
  { destruct c; cbn [keyOf]; unfold workspaceFenceReceiptKey, noWorkspaceKey, assignmentKey, incarnationFenceKey,
      quarantineKey, queueKey, leaseClaimKey, leaseAckKey, incarnationPrefix, admissionDeadlinesKey,
      admissionSequenceKey, admissionWorkspacesKey, admissionKey, workspaceSlotsKey, workspaceSlotCapacityKey,
      workerKey; rewrite <- ?app_assoc; eexists; reflexivity. }
  rewrite E, startsWith_app in Hf. discriminate.
Qed.

(** Keys whose loss or reuse would break the protocol: settlements, the marks of
    replaced and quarantined incarnations, and the pairing's generation and identity,
    which the store only reads. *)
Definition ordinary (c : keyCall) : bool :=
  match c with CSettlement _ | CFenced _ _ | CQuarantined _ _ | CPairingGeneration _ | CIdentity _ => false | _ => true end.

(** The gate of an assignment's fulfilment is written by its enqueue and its close,
    a worker's lock by the scripts that lock and release. *)
Definition isGate (c : keyCall) : bool := match c with CDeadline _ | CLock _ => true | _ => false end.

(** The calls a script may write, beside fences and foreign keys. *)
Context (ord : keyCall -> bool).

Definition ordinaryKey (k : jstr) : Prop :=
  (exists c, keyCall_ok c = true /\ ord c = true /\ k = keyOf c) \/ fenceLike k \/ foreign k.

(** A script that writes those keys only. *)
Definition tame {A} (p : prog A) : Prop := commands (fun R c => Forall ordinaryKey (writes c)) p.

Lemma commands_mono {A} (P P' : forall R, cmd R -> Prop) (p : prog A) :
  (forall R c, P R c -> P' R c) -> commands P p -> commands P' p.
Proof. intros HP. induction p as [a|R c k IH|]; cbn [commands]; [done| |done]. intros [Hc Hk]. split; auto. Qed.

Lemma tame_avoids {A} (p : prog A) c : keyCall_ok c = true -> ord c = false -> tame p -> avoids (keyOf c) p.
Proof.
  intros Hok Ho. apply commands_mono. intros R c' HF Hin. rewrite Forall_forall in HF.
  destruct (HF _ Hin) as [(c'' & Hok' & Ho' & E)|[Hf|Hf]].
  - apply keyOf_inj in E; [|done..]. congruence.
  - by eapply keyOf_fence_ne.
  - by eapply keyOf_foreign_ne.
Qed.

Lemma ordinary_fence k s : fenceLike k -> ordinaryKey (k ++ s).
Proof. intros (w & f & s' & Hw & ->). right. left. exists w, f, (s' ++ s). by rewrite app_assoc. Qed.

Lemma ordinary_fence_key k : fenceLike k -> ordinaryKey k.
Proof. intros Hk. by right; left. Qed.

Lemma ordinary_foreign k : foreign k -> ordinaryKey k.
Proof. intros Hk. by right; right. Qed.

Lemma ordinary_call c : keyCall_ok c = true -> ord c = true -> ordinaryKey (keyOf c).
Proof. left. eauto. Qed.

Lemma tame_ret {A} (a : A) : tame (Ret a).
Proof. done. Qed.
Lemma tame_need {A} (o : option A) : tame (need o).
Proof. by destruct o. Qed.
Lemma tame_rd {R} (c : cmd R) : Forall ordinaryKey (writes c) -> tame (rd c).
Proof. done. Qed.
Lemma tame_bind {A B} (p : prog A) (f : A -> prog B) : tame p -> (forall a, tame (f a)) -> tame (p ≫= f).
Proof. apply commands_bind. Qed.
End keys.

(** The call of a key function that a term is. *)
Ltac keycall k :=
  lazymatch k with
  | assignmentKey ?a => constr:(CAssignment a)
  | settlementKey ?a => constr:(CSettlement a)
  | assignmentDeadlineKey ?a => constr:(CDeadline a)
  | cancellationKey ?a => constr:(CCancelled a)
  | workspaceFenceReceiptKey ?a => constr:(CReceipt a)
  | noWorkspaceKey ?a => constr:(CNoWorkspace a)
  | workerStableIdentityKey ?w => constr:(CStableIdentity w)
  | identityKey ?w => constr:(CIdentity w)
  | pairingGenerationKey ?w => constr:(CPairingGeneration w)
  | workerKey ?w => constr:(CWorker w)
  | workerIncarnationKey ?w => constr:(CIncarnation w)
  | workerRegistrationGenerationKey ?w => constr:(CRegistrationGeneration w)
  | workerRegistrationGenerationIncarnationKey ?w => constr:(CRegistrationGenerationIncarnation w)
  | workerReadyKey ?w => constr:(CReady w)
  | generationKey ?w => constr:(CGeneration w)
  | lockKey ?w => constr:(CLock w)
  | lockIncarnationKey ?w => constr:(CLockIncarnation w)
  | incarnationFenceKey ?w ?i => constr:(CFenced w i)
  | quarantineKey ?w ?i => constr:(CQuarantined w i)
  | queueKey ?w ?i ?n => constr:(CQueue w i n)
  | leaseClaimKey ?w ?i ?n => constr:(CLeaseClaim w i n)
  | leaseAckKey ?w ?i ?n => constr:(CLeaseAck w i n)
  | admissionKey ?w => constr:(CAdmission w)
  | admissionDeadlinesKey ?w => constr:(CAdmissionDeadlines w)
  | admissionSequenceKey ?w => constr:(CAdmissionSequence w)
  | admissionWorkspacesKey ?w => constr:(CAdmissionWorkspaces w)
  | workspaceSlotsKey ?w => constr:(CSlots w)
  | workspaceSlotCapacityKey ?w => constr:(CSlotCapacity w)
  end.

(** [keyCall_ok] of a call whose identifiers are known to be valid. *)
Ltac call_ok := cbn [keyCall_ok]; repeat (apply andb_true_intro; split); assumption.

Ltac key_ne :=
  lazymatch goal with
  | |- ?k <> ?k' =>
      first
        [ let c := keycall k in let c' := keycall k' in
          let E := fresh in intros E; apply (keyOf_inj c c') in E; [discriminate E | call_ok | call_ok]
        | let c := keycall k in apply (keyOf_fence_ne c); [call_ok | assumption]
        | let c := keycall k' in apply not_eq_sym, (keyOf_fence_ne c); [call_ok | assumption] ]
  end.

Ltac ordinary_key :=
  first
    [ apply ordinary_fence_key; assumption
    | apply ordinary_fence; assumption
    | apply ordinary_foreign; assumption
    | match goal with
      | Hord : forall c, isGate c = false -> ordinary c = true -> ?ord c = true |- ordinaryKey ?ord ?k =>
          let c := keycall k in apply (ordinary_call ord c); [call_ok | first [assumption | by apply Hord]]
      end ].

Ltac all_ordinary := repeat first [apply Forall_nil_2 | apply Forall_cons_2; [first [assumption | ordinary_key]|]].

Ltac tame_auto :=
  repeat first
    [ apply tame_ret | apply tame_need
    | solve [apply tame_rd; cbn [writes]; all_ordinary]
    | apply tame_bind; [|intros ?]
    | case_match ].

(** ** What each script writes *)

Section tameness.
Context `{Platform}.
Context (ord : keyCall -> bool) (Hord : forall c, isGate c = false -> ordinary c = true -> ord c = true).
Context (w inc aid : jstr) (slot : option Z).
Context (Hw : isValidBridgeWorkerId w = true) (Hi : idText inc = true) (Ha : idText aid = true).

Lemma forgetAll_tame ids : tame ord (forgetAll (admissionKey w) (admissionDeadlinesKey w) (admissionWorkspacesKey w) ids).
Proof. induction ids as [|id ids IH]; cbn [forgetAll]; tame_auto. exact IH. Qed.

Lemma forgetExpired_tame clock :
  tame ord (forgetExpired (admissionKey w) (admissionDeadlinesKey w) (admissionWorkspacesKey w) clock).
Proof. unfold forgetExpired. apply tame_bind; [by apply tame_rd|]. intros ids. apply forgetAll_tame. Qed.

Lemma expireAll_tame keys at_ms : Forall (ordinaryKey ord) keys -> tame ord (expireAll keys at_ms).
Proof.
  induction 1 as [|k keys Hk Hks IH]; cbn [expireAll]; [done|].
  apply tame_bind; [|done]. apply tame_rd. cbn [writes]. all_ordinary.
Qed.

Lemma append_tame id deadline ws : tame ord (append w id deadline ws).
Proof. unfold append. tame_auto. Qed.

Lemma enter_tame id clock deadline capacity ws : tame ord (enter w id clock deadline capacity ws).
Proof. unfold enter. apply tame_bind; [apply forgetExpired_tame|]. intros _. tame_auto. Qed.

Lemma submit_tame id clock deadline capacity ws key activeKey fingerprint record_ retention :
  foreign key -> foreign activeKey -> tame ord (submit w id clock deadline capacity ws key activeKey fingerprint record_ retention).
Proof.
  intros Hk Hk'. unfold submit. apply tame_bind; [by apply tame_rd|]. intros [f|]; [done|].
  apply tame_bind; [apply forgetExpired_tame|]. intros _.
  apply tame_bind; [by apply tame_rd|]. intros n. case_match; [done|].
  apply tame_bind; [apply append_tame|]. intros _. tame_auto.
Qed.

Lemma isHead_tame id clock : tame ord (isHead w id clock).
Proof. unfold isHead. apply tame_bind; [apply forgetExpired_tame|]. intros _. tame_auto. Qed.

Lemma leave_tame id : tame ord (leave w id).
Proof. unfold leave. tame_auto. Qed.

Lemma durableAdmissionFence_tame g r : tame ord (durableAdmissionFence g r).
Proof. unfold durableAdmissionFence, admissionTime. tame_auto. Qed.

Lemma refreshAll_tame keys expiresAtMs clock : Forall (ordinaryKey ord) keys -> tame ord (refreshAll keys expiresAtMs clock).
Proof.
  induction 1 as [|k keys Hk Hks IH]; cbn [refreshAll]; [done|].
  apply tame_bind; [by apply tame_rd|]. intros t. apply tame_bind; [|done].
  case_match; [|done]. apply tame_rd. cbn [writes]. all_ordinary.
Qed.

Lemma slot_keys_ordinary : ord (CLock w) = true -> Forall (ordinaryKey ord) [workspaceSlotsKey w; lockKey w; lockIncarnationKey w].
Proof. intros Hl. all_ordinary. Qed.

Lemma clearSlot_tame n : tame ord (clearSlot w n).
Proof. unfold clearSlot. tame_auto. Qed.

Lemma scanSlots_tame id capacity expiresAtMs clock refreshOwned slots st :
  ord (CLock w) = true -> tame ord (scanSlots w inc id capacity expiresAtMs clock refreshOwned slots st).
Proof.
  intros Hl. revert st. induction slots as [|n slots IH]; intros st; cbn [scanSlots]; [done|].
  apply tame_bind; [|intros [st'|own]; [apply IH|done]].
  unfold scanSlot. do 4 (apply tame_bind; [by apply tame_rd|intros ?]). case_match; [|done].
  apply tame_bind; [unfold staleSlot; tame_auto|]. intros stale. case_match.
  - apply tame_bind; [apply clearSlot_tame|done].
  - case_match; [|tame_auto]. apply tame_bind; [|done]. case_match; [|done].
    apply tame_bind; [tame_auto|]. intros _. by apply refreshAll_tame, slot_keys_ordinary.
Qed.

Lemma selectPending_tame st wc l : tame ord (selectPending w st wc l).
Proof.
  revert wc. induction l as [|id l IH]; intros wc; cbn [selectPending]; [done|].
  apply tame_bind; [by apply tame_rd|]. intros [v|]; [|done]. cbv zeta. case_match; [done|]. apply IH.
Qed.

Lemma reserveBody_tame id ws capacity expiresAtMs clock refreshOwned :
  ord (CLock w) = true -> tame ord (reserveBody w inc id ws capacity expiresAtMs clock refreshOwned).
Proof.
  intros Hl. unfold reserveBody. apply tame_bind; [by apply tame_rd|]. intros c. case_match; [done|].
  apply tame_bind; [by apply tame_rd|]. intros g. case_match; [done|].
  apply tame_bind; [by apply tame_rd|]. intros l.
  destruct (match l with Some l => negb (bool_decide (l = slotOwner inc)) | None => false end); [done|].
  apply tame_bind; [by apply scanSlots_tame|]. intros [st|own]; [|done].
  case_match; [|done]. case_match; [done|].
  apply tame_bind; [apply forgetExpired_tame|]. intros _.
  apply tame_bind; [by apply tame_rd|]. intros pend.
  apply tame_bind; [apply selectPending_tame|]. intros sel. tame_auto.
Qed.

Lemma reserve_tame id ws capacity expiresAtMs clock refreshOwned guard :
  ord (CLock w) = true -> tame ord (reserve w inc id ws capacity expiresAtMs clock refreshOwned guard).
Proof.
  intros Hl. unfold reserve. case_match; [done|]. apply tame_bind; [|done]. unfold reserveScript.
  destruct guard as [g|]; [|by apply reserveBody_tame].
  apply tame_bind; [apply durableAdmissionFence_tame|]. intros [t|r]; [by apply reserveBody_tame|done].
Qed.

Lemma releaseSlots_tame id slots latest : tame ord (releaseSlots w inc id slots latest).
Proof.
  revert latest. induction slots as [|n slots IH]; intros latest; cbn [releaseSlots]; [done|].
  do 3 (apply tame_bind; [by apply tame_rd|intros ?]). case_match.
  - apply tame_bind; [apply clearSlot_tame|]. intros _. apply IH.
  - case_match; [|apply IH]. apply tame_bind; [apply tame_need|]. intros ?. apply IH.
Qed.

Lemma release_tame id : ord (CLock w) = true -> tame ord (release w inc id).
Proof.
  intros Hl. unfold release. apply tame_bind; [apply releaseSlots_tame|]. intros l.
  do 2 (apply tame_bind; [by apply tame_rd|intros ?]). case_match; [tame_auto|]. case_match; [|done].
  by apply expireAll_tame, slot_keys_ordinary.
Qed.

Lemma confirmReady_tame g token ttl : tame ord (confirmReadyScript w inc g token ttl).
Proof. unfold confirmReadyScript. tame_auto. Qed.

Lemma acquireLock_tame ttlMs reuse guard : ord (CLock w) = true -> tame ord (acquireLockScript w aid inc ttlMs reuse guard).
Proof.
  intros Hl. assert (tame ord (acquireLockBody w aid inc ttlMs reuse)) as Hb.
  { unfold acquireLockBody, andAlso, getIs. tame_auto. }
  unfold acquireLockScript. destruct guard as [g|]; [|done].
  apply tame_bind; [apply durableAdmissionFence_tame|]. intros [t|r]; [|done].
  apply tame_bind; [by apply tame_rd|]. intros c. by case_match.
Qed.

Lemma releaseLock_tame : ord (CLock w) = true -> tame ord (releaseLockScript w aid).
Proof. intros Hl. unfold releaseLockScript. tame_auto. Qed.

Lemma cancel_tame ttl : tame ord (cancelScript aid ttl).
Proof. unfold cancelScript. tame_auto. Qed.

Lemma claimOrPop_tame identity : tame ord (claimOrPopLeaseScript w inc slot identity).
Proof. unfold claimOrPopLeaseScript, otherIdentity. tame_auto. Qed.

Lemma discardLease_tame : tame ord (discardLeaseClaimScript w inc slot aid).
Proof. unfold discardLeaseClaimScript. tame_auto. Qed.

Lemma returnLease_tame : tame ord (returnLeaseScript w inc slot aid).
Proof. unfold returnLeaseScript. tame_auto. Qed.

Lemma acknowledge_tame ttl : tame ord (acknowledgeScript w inc slot aid ttl).
Proof. unfold acknowledgeScript. tame_auto. Qed.

Lemma clearFence_tame fence : fenceLike fence -> tame ord (clearFenceScript fence aid).
Proof. intros Hf. unfold clearFenceScript, getIs. tame_auto. Qed.

Lemma close_tame fence : ord (CDeadline aid) = true -> tame ord (closeScript aid fence).
Proof. intros Hg. unfold closeScript, getIs. tame_auto. Qed.

Lemma quarantineFence_tame fence : fenceLike fence -> tame ord (quarantineFenceScript fence aid).
Proof. intros Hf. unfold quarantineFenceScript, getIs. tame_auto. Qed.

Lemma resetWorkspace_tame fence : fenceLike fence -> tame ord (resetWorkspaceScript w inc fence).
Proof. intros Hf. unfold resetWorkspaceScript. tame_auto. Qed.

Lemma commitReceipt_tame fence : fenceLike fence -> tame ord (commitReceiptScript aid fence).
Proof. intros Hf. unfold commitReceiptScript, andAlso, hgetIs, getIs. tame_auto. Qed.

Lemma commitFence_tame fence marker : fenceLike fence -> (forall m, marker = Some m -> foreign m) ->
  tame ord (commitFenceScript aid fence marker).
Proof.
  intros Hf Hm. unfold commitFenceScript. destruct marker as [m|]; [|by apply clearFence_tame].
  specialize (Hm m eq_refl). unfold getIs. tame_auto.
Qed.

Lemma cleanup_tame fence : (forall f, fence = Some f -> fenceLike f) -> tame ord (cleanupScript w inc aid slot fence).
Proof.
  intros Hf. unfold cleanupScript, andAlso, getIs.
  destruct fence as [f|]; [specialize (Hf f eq_refl)|clear Hf]; cbn [default from_option]; unfold Datatypes.id; tame_auto.
Qed.
End tameness.

Section enqueueing.
Context `{Platform} (e : enqueueArgs).
Context (ord : keyCall -> bool) (Hord : forall c, isGate c = false -> ordinary c = true -> ord c = true).
Context (Hw : isValidBridgeWorkerId (e_worker e) = true) (Hi : idText (e_incarnation e) = true)
  (Ha : idText (e_assignment e) = true) (Hf : forall f, e_fence e = Some f -> fenceLike f)
  (Hp : forall n f, e_lease e = Some (n, LaneScope f) -> fenceLike f)
  (Hgate : ord (CDeadline (e_assignment e)) = true).

Lemma anyExists_tame keys : tame ord (anyExists keys).
Proof. induction keys as [|k keys IH]; cbn [anyExists]; [done|]. apply tame_bind; [by apply tame_rd|]. intros b. by case_match. Qed.

Lemma sremAll_tame index members : ordinaryKey ord index -> tame ord (sremAll index members).
Proof.
  intros Hk. induction members as [|m members IH]; cbn [sremAll]; [done|].
  apply tame_bind; [|done]. apply tame_rd. cbn [writes]. all_ordinary.
Qed.

Lemma writeReceipt_tame f : fenceLike f -> tame ord (writeReceipt e f).
Proof. intros Hk. unfold writeReceipt. tame_auto. Qed.

Lemma workspaceBlocked_tame : tame ord (workspaceBlocked e).
Proof.
  unfold workspaceBlocked. apply tame_bind; [tame_auto|]. intros own. case_match; [done|].
  destruct (e_lease e) as [[n [pf|lf]]|]; [by apply tame_rd| |done].
  destruct (e_fence e) as [f|] eqn:Ef; [|done]. specialize (Hf f eq_refl).
  apply tame_bind; [apply anyExists_tame|]. intros b. case_match; [done|].
  apply tame_bind; [|done]. apply sremAll_tame. by apply ordinary_fence.
Qed.

Lemma enqueueWrites_tame : tame ord (enqueueWrites e).
Proof.
  unfold enqueueWrites. do 3 (apply tame_bind; [tame_auto|intros _]).
  apply tame_bind; [destruct (e_lease e); tame_auto|intros _].
  apply tame_bind; [tame_auto|intros _].
  destruct (e_fence e) as [f|] eqn:Ef; [|done]. specialize (Hf f eq_refl).
  apply tame_bind; [tame_auto|intros _].
  destruct (e_lease e) as [[n [pf|lf]]|] eqn:El; [|by apply writeReceipt_tame|done].
  specialize (Hp n pf eq_refl). apply tame_bind; [|intros _; by apply writeReceipt_tame].
  unfold workspaceLaneFenceIndexKey. tame_auto.
Qed.

Lemma enqueueBody_tame : tame ord (enqueueBody e).
Proof.
  unfold enqueueBody, andAlso. apply tame_bind; [by apply tame_rd|]. intros c. case_match; [done|].
  apply tame_bind; [tame_auto|]. intros u. case_match; [done|].
  apply tame_bind; [apply workspaceBlocked_tame|]. intros b. case_match; [done|].
  apply tame_bind; [apply enqueueWrites_tame|done].
Qed.

Lemma enqueue_tame guard : (forall g, guard = Some g -> foreign (g_key g)) -> tame ord (enqueueScript e guard).
Proof.
  intros Hg. unfold enqueueScript. destruct guard as [g|]; [|apply enqueueBody_tame]. specialize (Hg g eq_refl).
  apply tame_bind; [apply durableAdmissionFence_tame|]. intros [t|r]; [|done].
  apply tame_bind; [unfold stillReserved, andAlso, getIs, hgetIs; tame_auto|]. intros held. case_match; [done|].
  apply tame_bind; [apply enqueueBody_tame|]. intros r. case_match; [|done]. tame_auto.
Qed.
End enqueueing.

(** ** Every script of the bridge *)

(** The scripts the replicas send, with arguments the router and the store admit. *)
Inductive storeScript `{Platform} : forall R, prog R -> Prop :=
| ss_register w inc text ttl pg ei ac ii rr slots :
    isValidBridgeWorkerId w = true -> idText inc = true ->
    storeScript Z (registerScript w inc text ttl pg ei ac ii rr slots)
| ss_confirm w inc g token ttl :
    isValidBridgeWorkerId w = true -> idText inc = true -> storeScript Z (confirmReadyScript w inc g token ttl)
| ss_acquire w aid inc ttlMs reuse guard :
    isValidBridgeWorkerId w = true -> storeScript Z (acquireLockScript w aid inc ttlMs reuse guard)
| ss_release_lock w aid : isValidBridgeWorkerId w = true -> storeScript Z (releaseLockScript w aid)
| ss_cancel aid ttl : idText aid = true -> storeScript bool (cancelScript aid ttl)
| ss_claim w inc slot identity :
    isValidBridgeWorkerId w = true -> idText inc = true ->
    storeScript (option jstr) (claimOrPopLeaseScript w inc slot identity)
| ss_discard w inc slot aid :
    isValidBridgeWorkerId w = true -> idText inc = true -> storeScript Z (discardLeaseClaimScript w inc slot aid)
| ss_return w inc slot aid :
    isValidBridgeWorkerId w = true -> idText inc = true -> storeScript Z (returnLeaseScript w inc slot aid)
| ss_acknowledge w inc slot aid ttl :
    isValidBridgeWorkerId w = true -> idText inc = true -> storeScript Z (acknowledgeScript w inc slot aid ttl)
| ss_clear fence aid : fenceLike fence -> storeScript Z (clearFenceScript fence aid)
| ss_settle w aid inc slot fence text ttl rejected identity sinc :
    isValidBridgeWorkerId w = true -> idText inc = true -> idText aid = true ->
    (forall f, fence = Some f -> fenceLike f) ->
    storeScript Z (settleScript w aid inc slot fence text ttl rejected identity sinc)
| ss_close aid fence : idText aid = true -> storeScript (option jstr) (closeScript aid fence)
| ss_quarantine w inc fence :
    isValidBridgeWorkerId w = true -> idText inc = true -> (forall f, fence = Some f -> fenceLike f) ->
    storeScript Z (quarantineScript w inc fence)
| ss_quarantine_fence fence aid : fenceLike fence -> storeScript Z (quarantineFenceScript fence aid)
| ss_receipt w aid metadata inc identity epoch fence slot text ttl q :
    isValidBridgeWorkerId w = true -> idText inc = true -> idText aid = true -> fenceLike fence ->
    storeScript Z (receiptCommitScript w aid metadata inc identity epoch fence slot text ttl q)
| ss_reset w inc fence : fenceLike fence -> storeScript Z (resetWorkspaceScript w inc fence)
| ss_enqueue e guard :
    isValidBridgeWorkerId (e_worker e) = true -> idText (e_incarnation e) = true -> idText (e_assignment e) = true ->
    (forall f, e_fence e = Some f -> fenceLike f) ->
    (forall n f, e_lease e = Some (n, LaneScope f) -> fenceLike f) ->
    (forall g, guard = Some g -> foreign (g_key g)) -> storeScript Z (enqueueScript e guard)
| ss_commit_receipt aid fence : idText aid = true -> fenceLike fence -> storeScript Z (commitReceiptScript aid fence)
| ss_commit_fence aid fence marker :
    fenceLike fence -> (forall m, marker = Some m -> foreign m) -> storeScript Z (commitFenceScript aid fence marker)
| ss_cleanup w inc aid slot fence :
    isValidBridgeWorkerId w = true -> idText inc = true -> idText aid = true ->
    (forall f, fence = Some f -> fenceLike f) -> storeScript Z (cleanupScript w inc aid slot fence)
| ss_generation w : isValidBridgeWorkerId w = true -> storeScript Z (rd (INCR (generationKey w)))
| ss_enter w id clock deadline capacity ws :
    isValidBridgeWorkerId w = true -> storeScript bool (enter w id clock deadline capacity ws)
| ss_submit w id clock deadline capacity ws key activeKey fingerprint record_ retention :
    isValidBridgeWorkerId w = true -> foreign key -> foreign activeKey ->
    storeScript submitResult (submit w id clock deadline capacity ws key activeKey fingerprint record_ retention)
| ss_head w id clock : isValidBridgeWorkerId w = true -> storeScript bool (isHead w id clock)
| ss_leave w id : isValidBridgeWorkerId w = true -> storeScript unit (leave w id)
| ss_reserve w inc id ws capacity expiresAtMs clock refreshOwned guard :
    isValidBridgeWorkerId w = true ->
    storeScript reserveOutcome (reserve w inc id ws capacity expiresAtMs clock refreshOwned guard)
| ss_release w inc id : isValidBridgeWorkerId w = true -> storeScript unit (release w inc id)
| ss_elsewhere R (p : prog R) : commands (fun R c => Forall foreign (writes c)) p -> storeScript R p.

Create HintDb tamedb.
#[export] Hint Resolve confirmReady_tame acquireLock_tame releaseLock_tame cancel_tame claimOrPop_tame
  discardLease_tame returnLease_tame acknowledge_tame clearFence_tame close_tame quarantineFence_tame
  resetWorkspace_tame enqueue_tame commitReceipt_tame commitFence_tame cleanup_tame enter_tame submit_tame
  isHead_tame leave_tame reserve_tame release_tame : tamedb.

(** A property of every script: of the tame ones, of those that write a
    fulfilment gate or a lock, and of the four that write protected keys. *)
Lemma storeScript_cases `{Platform} (ord : keyCall -> bool) (Q : forall R, prog R -> Prop) :
  (forall c, isGate c = false -> ordinary c = true -> ord c = true) ->
  (forall R (p : prog R), tame ord p -> Q R p) ->
  (forall aid fence, idText aid = true -> Q (option jstr) (closeScript aid fence)) ->
  (forall e guard,
    isValidBridgeWorkerId (e_worker e) = true -> idText (e_incarnation e) = true -> idText (e_assignment e) = true ->
    (forall f, e_fence e = Some f -> fenceLike f) ->
    (forall n f, e_lease e = Some (n, LaneScope f) -> fenceLike f) ->
    (forall g, guard = Some g -> foreign (g_key g)) -> Q Z (enqueueScript e guard)) ->
  (forall w aid inc ttlMs reuse guard, isValidBridgeWorkerId w = true -> Q Z (acquireLockScript w aid inc ttlMs reuse guard)) ->
  (forall w aid, isValidBridgeWorkerId w = true -> Q Z (releaseLockScript w aid)) ->
  (forall w inc id ws capacity expiresAtMs clock refreshOwned guard, isValidBridgeWorkerId w = true ->
     Q reserveOutcome (reserve w inc id ws capacity expiresAtMs clock refreshOwned guard)) ->
  (forall w inc id, isValidBridgeWorkerId w = true -> Q unit (release w inc id)) ->
  (forall w inc text ttl pg ei ac ii rr slots,
     isValidBridgeWorkerId w = true -> idText inc = true -> Q Z (registerScript w inc text ttl pg ei ac ii rr slots)) ->
  (forall w aid inc slot fence text ttl rejected identity sinc,
     isValidBridgeWorkerId w = true -> idText inc = true -> idText aid = true ->
     (forall f, fence = Some f -> fenceLike f) ->
     Q Z (settleScript w aid inc slot fence text ttl rejected identity sinc)) ->
  (forall w inc fence,
     isValidBridgeWorkerId w = true -> idText inc = true -> (forall f, fence = Some f -> fenceLike f) ->
     Q Z (quarantineScript w inc fence)) ->
  (forall w aid metadata inc identity epoch fence slot text ttl q,
     isValidBridgeWorkerId w = true -> idText inc = true -> idText aid = true -> fenceLike fence ->
     Q Z (receiptCommitScript w aid metadata inc identity epoch fence slot text ttl q)) ->
  forall R (p : prog R), storeScript R p -> Q R p.
Proof.
  intros Hord Ht Hcl He Hla Hlr Hsr Hsl Hr Hs Hq Hc. destruct 1; first [solve [auto] | solve [apply Ht; eauto with tamedb] | apply Ht].
  - tame_auto.
  - eapply commands_mono; [|eassumption]. intros R' c HF. eapply Forall_impl; [exact HF|]. apply ordinary_foreign.
Qed.

(** The scripts that leave settlements and marks alone. *)
Lemma storeScript_tame_cases `{Platform} (Q : forall R, prog R -> Prop) :
  (forall R (p : prog R), tame ordinary p -> Q R p) ->
  (forall w inc text ttl pg ei ac ii rr slots,
     isValidBridgeWorkerId w = true -> idText inc = true -> Q Z (registerScript w inc text ttl pg ei ac ii rr slots)) ->
  (forall w aid inc slot fence text ttl rejected identity sinc,
     isValidBridgeWorkerId w = true -> idText inc = true -> idText aid = true ->
     (forall f, fence = Some f -> fenceLike f) ->
     Q Z (settleScript w aid inc slot fence text ttl rejected identity sinc)) ->
  (forall w inc fence,
     isValidBridgeWorkerId w = true -> idText inc = true -> (forall f, fence = Some f -> fenceLike f) ->
     Q Z (quarantineScript w inc fence)) ->
  (forall w aid metadata inc identity epoch fence slot text ttl q,
     isValidBridgeWorkerId w = true -> idText inc = true -> idText aid = true -> fenceLike fence ->
     Q Z (receiptCommitScript w aid metadata inc identity epoch fence slot text ttl q)) ->
  forall R (p : prog R), storeScript R p -> Q R p.
Proof.
  intros Ht. apply (storeScript_cases ordinary); [done|done|..].
  - intros aid fence Ha. apply Ht. by apply close_tame.
  - intros e guard Hw Hi Ha Hf Hp Hg. apply Ht. by apply enqueue_tame.
  - intros. apply Ht. by apply acquireLock_tame.
  - intros. apply Ht. by apply releaseLock_tame.
  - intros. apply Ht. by apply reserve_tame.
  - intros. apply Ht. by apply release_tame.
Qed.

(** ** Keys that outlive every script *)

(** A command that keeps a live entry of [k], and one that keeps a mark without
    expiry. *)
Definition keepsLive (k : jstr) (R : Type) (c : cmd R) : Prop :=
  match c with SET _ _ _ true => True | _ => k ∉ writes c end.
Definition keepsMark (k : jstr) (R : Type) (c : cmd R) : Prop :=
  match c with SET _ _ NOTTL false => True | _ => k ∉ writes c end.

Definition marked (ks : keyspace) (k : jstr) : Prop := exists v, ks !! k = Some (Entry v None).

Lemma keepsLive_avoids k R (c : cmd R) : k ∉ writes c -> keepsLive k R c.
Proof. destruct c; try done. by destruct nx. Qed.

Lemma keepsMark_avoids k R (c : cmd R) : k ∉ writes c -> keepsMark k R c.
Proof. destruct c; try done. destruct t; try done. by destruct nx. Qed.

Lemma exec_live k R (c : cmd R) now (ks ks' : keyspace) r e :
  keepsLive k R c -> exec c now ks = Some (ks', r) -> ks !! k = Some e -> alive now e = true -> ks' !! k = Some e.
Proof.
  intros Hc E Hk Hl. destruct (decide (k ∈ writes c)) as [Hin|Hin]; [|by rewrite (exec_frame _ _ _ _ _ _ E Hin)].
  destruct c; try by destruct Hc. destruct nx; [|by destruct Hc]. apply list_elem_of_singleton in Hin as ->.
  cbn [exec] in E. unfold find in E. rewrite Hk, Hl, bool_decide_eq_true_2 in E by done. by injection E as <- _.
Qed.

Lemma exec_marked k R (c : cmd R) now (ks ks' : keyspace) r :
  keepsMark k R c -> exec c now ks = Some (ks', r) -> marked ks k -> marked ks' k.
Proof.
  intros Hc E [v Hk]. destruct (decide (k ∈ writes c)) as [Hin|Hin];
    [|exists v; by rewrite (exec_frame _ _ _ _ _ _ E Hin)].
  destruct c; try by destruct Hc. destruct t, nx; try by destruct Hc. apply list_elem_of_singleton in Hin as ->.
  cbn [exec andb expiry] in E. injection E as <- _. eexists. apply lookup_insert_eq.
Qed.

Lemma eval_live {A} k (p : prog A) now (ks : keyspace) e :
  commands (keepsLive k) p -> ks !! k = Some e -> alive now e = true -> fst (eval p now ks) !! k = Some e.
Proof.
  revert ks. induction p as [a|R c f IH|]; intros ks; cbn [commands eval]; try done.
  intros [Hc Hf] Hk Hl. destruct (exec c now ks) as [[ks' r]|] eqn:E; [|done].
  apply IH; [done| |done]. by eapply exec_live.
Qed.

Lemma eval_marked {A} k (p : prog A) now (ks : keyspace) :
  commands (keepsMark k) p -> marked ks k -> marked (fst (eval p now ks)) k.
Proof.
  revert ks. induction p as [a|R c f IH|]; intros ks; cbn [commands eval]; try done.
  intros [Hc Hf] Hk. destruct (exec c now ks) as [[ks' r]|] eqn:E; [|done].
  apply IH; [done|]. by eapply exec_marked.
Qed.

Lemma commands_ret {A} P (a : A) : commands P (Ret a).
Proof. done. Qed.
Lemma commands_need {A} P (o : option A) : commands P (need o).
Proof. by destruct o. Qed.
Lemma commands_rd {R} (P : forall R, cmd R -> Prop) (c : cmd R) : P R c -> commands P (rd c).
Proof. done. Qed.

(** Walk a script, closing each command with [tac]. *)
Ltac commands_auto tac :=
  repeat first
    [ apply commands_ret | apply commands_need
    | solve [apply commands_rd; tac]
    | apply commands_bind; [|intros ?]
    | case_match ].

(** The written keys differ from the protected one, or the command may write it. *)
Ltac protected_key :=
  first [ exact I
        | cbn [keepsLive keepsMark writes]; rewrite ?not_elem_of_cons;
          repeat split; first [apply not_elem_of_nil | key_ne] ].

Section protected_keys.
Context `{Platform}.

(** The mark of a replaced incarnation is no settlement, whatever was stored. *)
Lemma fenced_ne_settlement w s aid : isValidBridgeWorkerId w = true -> idText aid = true ->
  settlementKey aid <> incarnationPrefix w ++ s.
Proof.
  intros Hw Ha E. unfold settlementKey, incarnationPrefix in E. rewrite <- !app_assoc in E.
  apply app_inv_head in E. discriminate.
Qed.

Lemma register_live aid w inc text ttl pg ei ac ii rr slots :
  isValidBridgeWorkerId w = true -> idText inc = true -> idText aid = true ->
  commands (keepsLive (settlementKey aid)) (registerScript w inc text ttl pg ei ac ii rr slots).
Proof.
  intros Hw Hi Ha.
  unfold registerScript, pairingChanged, identityChanged, credentialRevoked, registerRefused, nextGeneration, andAlso.
  commands_auto ltac:(first [protected_key | cbn [keepsLive writes]; rewrite list_elem_of_singleton; by apply fenced_ne_settlement]).
Qed.

Lemma settle_live aid w aid' inc slot fence text ttl rejected identity sinc :
  isValidBridgeWorkerId w = true -> idText inc = true -> idText aid = true -> idText aid' = true -> aid <> aid' ->
  (forall f, fence = Some f -> fenceLike f) ->
  commands (keepsLive (settlementKey aid)) (settleScript w aid' inc slot fence text ttl rejected identity sinc).
Proof.
  intros Hw Hi Ha Ha' Hne Hf. unfold settleScript, otherIdentity, getIs.
  destruct fence as [f|]; [specialize (Hf f eq_refl)|clear Hf];
  commands_auto ltac:(first [protected_key
    | cbn [keepsLive writes]; rewrite list_elem_of_singleton; intros E;
      apply (keyOf_inj (CSettlement aid) (CSettlement aid')) in E; [congruence|call_ok|call_ok]]).
Qed.

Lemma quarantine_live aid w inc fence :
  isValidBridgeWorkerId w = true -> idText inc = true -> idText aid = true -> (forall f, fence = Some f -> fenceLike f) ->
  commands (keepsLive (settlementKey aid)) (quarantineScript w inc fence).
Proof.
  intros Hw Hi Ha Hf. unfold quarantineScript.
  destruct fence as [f|]; [specialize (Hf f eq_refl)|clear Hf]; commands_auto protected_key.
Qed.

Lemma receipt_live aid w aid' metadata inc identity epoch fence slot text ttl q :
  isValidBridgeWorkerId w = true -> idText inc = true -> idText aid = true -> idText aid' = true -> fenceLike fence ->
  commands (keepsLive (settlementKey aid))
    (receiptCommitScript w aid' metadata inc identity epoch fence slot text ttl q).
Proof.
  intros Hw Hi Ha Ha' Hf. unfold receiptCommitScript, receiptCurrent, receiptAction, delIfOwned, hgetIs, getIs, andAlso.
  commands_auto protected_key.
Qed.

(** The settlement read first decides the script. *)
Lemma settle_settled now ks w aid inc slot fence text ttl rejected identity sinc v x :
  find now ks (settlementKey aid) = Some (Entry (VStr v) x) ->
  eval (settleScript w aid inc slot fence text ttl rejected identity sinc) now ks
  = (ks, Some (if bool_decide (v = text) then 2%Z else (-1)%Z)).
Proof.
  intros E. unfold settleScript.
  rewrite (eval_step _ _ now ks ks (Some v)) by (cbn [exec]; by rewrite E). reflexivity.
Qed.

Lemma settlement_kept aid v x : idText aid = true ->
  forall R (p : prog R), storeScript R p -> forall now (ks : keyspace),
    ks !! settlementKey aid = Some (Entry (VStr v) x) -> alive now (Entry (VStr v) x) = true ->
    fst (eval p now ks) !! settlementKey aid = Some (Entry (VStr v) x).
Proof.
  intros Ha. apply (storeScript_tame_cases (fun R p => forall now (ks : keyspace),
    ks !! settlementKey aid = Some (Entry (VStr v) x) -> alive now (Entry (VStr v) x) = true ->
    fst (eval p now ks) !! settlementKey aid = Some (Entry (VStr v) x))).
  - intros R p Hp now ks Hk _. rewrite <- Hk. apply eval_avoids. by apply (tame_avoids ordinary p (CSettlement aid)).
  - intros w inc text ttl pg ei ac ii rr slots Hw Hi now ks Hk Hl. eapply eval_live; [|done|done]. by apply register_live.
  - intros w aid' inc slot fence text ttl rejected identity sinc Hw Hi Ha' Hf now ks Hk Hl.
    destruct (decide (aid = aid')) as [<-|Hne]; [|eapply eval_live; [|done|done]; by apply settle_live].
    erewrite settle_settled; [done|]. unfold find. rewrite Hk, Hl. reflexivity.
  - intros w inc fence Hw Hi Hf now ks Hk Hl. eapply eval_live; [|done|done]. by apply quarantine_live.
  - intros w aid' metadata inc identity epoch fence slot text ttl q Hw Hi Ha' Hf now ks Hk Hl.
    eapply eval_live; [|done|done]. by apply receipt_live.
Qed.

(** Marks of incarnations. *)
Definition isMark (c : keyCall) : bool :=
  match c with CFenced _ _ | CQuarantined _ _ => true | _ => false end.

Lemma mark_kept c : keyCall_ok c = true -> isMark c = true ->
  forall R (p : prog R), storeScript R p -> forall now (ks : keyspace),
    marked ks (keyOf c) -> marked (fst (eval p now ks)) (keyOf c).
Proof.
  intros Hok Hm.
  assert (ordinary c = false) as Ho by (by destruct c).
  assert (forall c', keyCall_ok c' = true -> isMark c' = false -> keyOf c <> keyOf c') as Hne.
  { intros c' Hok' Hm' E. apply keyOf_inj in E; [congruence|done..]. }
  apply (storeScript_tame_cases (fun R p => forall now (ks : keyspace), marked ks (keyOf c) -> marked (fst (eval p now ks)) (keyOf c))).
  - intros R p Hp now ks Hk. apply eval_marked; [|done]. eapply commands_mono; [|by apply (tame_avoids ordinary p c)].
    intros R' c'. apply keepsMark_avoids.
  - intros w inc text ttl pg ei ac ii rr slots Hw Hi now ks Hk. apply eval_marked; [|done].
    unfold registerScript, pairingChanged, identityChanged, credentialRevoked, registerRefused, nextGeneration, andAlso.
    commands_auto ltac:(first [exact I | cbn [keepsMark writes]; rewrite ?not_elem_of_cons; repeat split;
      first [apply not_elem_of_nil | match goal with |- _ <> ?k => let c' := keycall k in apply (Hne c'); [call_ok|reflexivity] end]]).
  - intros w aid inc slot fence text ttl rejected identity sinc Hw Hi Ha Hf now ks Hk. apply eval_marked; [|done].
    unfold settleScript, otherIdentity, getIs.
    destruct fence as [f|]; [specialize (Hf f eq_refl)|clear Hf];
    commands_auto ltac:(first [exact I | cbn [keepsMark writes]; rewrite ?not_elem_of_cons; repeat split;
      first [apply not_elem_of_nil | by apply keyOf_fence_ne
            | match goal with |- _ <> ?k => let c' := keycall k in apply (Hne c'); [call_ok|reflexivity] end]]).
  - intros w inc fence Hw Hi Hf now ks Hk. apply eval_marked; [|done]. unfold quarantineScript.
    commands_auto ltac:(first [exact I | cbn [keepsMark writes]; rewrite ?not_elem_of_cons; repeat split;
      first [apply not_elem_of_nil | match goal with |- _ <> ?k => let c' := keycall k in apply (Hne c'); [call_ok|reflexivity] end]]).
  - intros w aid metadata inc identity epoch fence slot text ttl q Hw Hi Ha Hf now ks Hk. apply eval_marked; [|done].
    unfold receiptCommitScript, receiptCurrent, receiptAction, delIfOwned, hgetIs, getIs, andAlso.
    commands_auto ltac:(first [exact I | cbn [keepsMark writes]; rewrite ?not_elem_of_cons; repeat split;
      first [apply not_elem_of_nil | by apply keyOf_fence_ne
            | match goal with |- _ <> ?k => let c' := keycall k in apply (Hne c'); [call_ok|reflexivity] end]]).
Qed.
End protected_keys.
