(* ===== verification/BridgeRegistration.v ===== *)
(** * Settlements are final, replaced incarnations stay replaced

    The store's invariants under every interleaving of its scripts
    ([settlement_final], [replaced_stays_replaced]) and the contract of
    registration ([register_generation]). *)

From stdpp Require Import base list numbers option strings gmap relations.
From Stdlib Require Import ZArith Lia.
From S2P Require Import Prelude JsString Json Protocol ProtocolRequests Redis JsonText BridgeKeys BridgeAdmission BridgeSlots BridgeSlotsProofs BridgeStore BridgeStoreProofs.

Section machine.
Context `{Platform} {db : Type} `{RedisServer db}.

(** One script of one replica, with any outcome, at a time within [until]. *)
Inductive store_step (until : option Z) (s s' : db) : Prop :=
| step R (p : prog R) now r :
    storeScript R p -> (forall t, until = Some t -> (now <= t)%Z) -> run p now s = (s', r) -> store_step until s s'.

Lemma store_step_kept until (P : keyspace -> Prop) s s' :
  (forall R (p : prog R), storeScript R p -> forall now ks,
     (forall t, until = Some t -> (now <= t)%Z) -> P ks -> P (fst (eval p now ks))) ->
  rtc (store_step until) s s' -> P (content s) -> P (content s').
Proof.
  intros HP. induction 1 as [s|s1 s2 s3 [R p now r Hp Ht E] _ IH]; [done|]. intros H1. apply IH.
  apply run_eval_eq in E. specialize (HP R p Hp now (content s1) Ht H1). by rewrite E in HP.
Qed.

(** (C33) A settlement is final. Once stored, it is not replaced, shortened or
    removed before its expiry by any sequence of scripts of any replicas (settle,
    quarantine, cleanup, registration, enqueue and all others, with any valid
    arguments); a retry with the same text is acknowledged and any other
    settlement is refused, both without a change. *)
Theorem settlement_final s s' aid v t :
  idText aid = true -> content s !! settlementKey aid = Some (Entry (VStr v) (Some t)) ->
  rtc (store_step (Some t)) s s' ->
  content s' !! settlementKey aid = Some (Entry (VStr v) (Some t))
  /\ forall now w inc slot fence text ttl rejected identity sinc, (now <= t)%Z ->
       eval (settleScript w aid inc slot fence text ttl rejected identity sinc) now (content s')
       = (content s', Some (if bool_decide (v = text) then 2%Z else (-1)%Z)).
Proof.
  intros Ha Hs Hr.
  assert (content s' !! settlementKey aid = Some (Entry (VStr v) (Some t))) as Hs'.
  { eapply (store_step_kept (Some t) (fun ks => ks !! settlementKey aid = Some (Entry (VStr v) (Some t)))); [|done..].
    intros R p Hp now ks Ht Hk. apply settlement_kept; [done..|]. by apply Z.leb_le, Ht. }
  split; [done|]. intros now w inc slot fence text ttl rejected identity sinc Ht.
  eapply settle_settled. unfold find. rewrite Hs'. cbn [alive e_exp]. by rewrite (proj2 (Z.leb_le _ _)).
Qed.

(** A mark without expiry is seen at every time. *)
Lemma marked_find now ks k : marked ks k -> exists v, find now ks k = Some (Entry v None).
Proof. intros [v E]. exists v. unfold find. by rewrite E. Qed.

Lemma wp_exists (now : Z) (k : jstr) (ks : keyspace) (Q : option bool -> keyspace -> Prop) :
  Q (Some (bool_decide (is_Some (find now ks k)))) ks -> wp (rd (EXISTS k)) now ks Q.
Proof. intros HQ. apply wp_cmd; [|done]. intros ks' r E. cbn [exec] in E. by injection E as <- <-. Qed.

Lemma refused_marked c w inc slots now ks :
  c = CFenced w inc \/ c = CQuarantined w inc -> marked ks (keyOf c) ->
  wp (registerRefused w inc slots) now ks (fun r ks' =>
    ks' = ks /\ match r with Some (Some code) => (code < 0)%Z | Some None => False | None => True end).
Proof.
  intros Hc Hm. unfold registerRefused. destruct (marked_find now _ _ Hm) as [v Ev].
  apply wp_bind, wp_exists. case_bool_decide as Hq; [by apply wp_ret|].
  destruct Hc as [-> | ->]; cbn [keyOf] in Ev; [|exfalso; apply Hq; rewrite Ev; eauto].
  apply wp_bind, wp_exists. rewrite bool_decide_eq_true_2 by (rewrite Ev; eauto). by apply wp_ret.
Qed.

Definition onlyWrites (l : list jstr) {A} (p : prog A) : Prop := commands (fun R c => forall k, k ∈ writes c -> k ∈ l) p.

Lemma onlyWrites_wp l {A} (p : prog A) now ks :
  onlyWrites l p -> wp p now ks (fun _ ks' => forall k, k ∉ l -> ks' !! k = ks !! k).
Proof.
  intros Hp. unfold wp. intros k Hk. apply eval_avoids. eapply commands_mono; [|exact Hp]. intros R c Hc Hin. by apply Hk, Hc.
Qed.

Lemma guards_only w pg ei ac ii ttl :
  onlyWrites [] (pairingChanged w pg ei ac) /\ onlyWrites [workerStableIdentityKey w] (identityChanged w ii ac ttl).
Proof.
  split; unfold onlyWrites, pairingChanged, identityChanged, credentialRevoked; commands_auto ltac:(cbn [writes]; set_solver).
Qed.

Lemma register_marked c w inc text ttl pg ei ac ii rr slots now ks :
  isValidBridgeWorkerId w = true -> idText inc = true ->
  c = CFenced w inc \/ c = CQuarantined w inc -> marked ks (keyOf c) ->
  wp (registerScript w inc text ttl pg ei ac ii rr slots) now ks (fun r ks' =>
    (forall k, k <> workerStableIdentityKey w -> ks' !! k = ks !! k) /\ forall g, r = Some g -> (g < 0)%Z).
Proof.
  intros Hw Hi Hc Hm. destruct (guards_only w pg ei ac ii ttl) as [G1 G2]. unfold registerScript.
  apply wp_bind. eapply wp_mono; [by apply onlyWrites_wp|]. intros r1 ks1 E1.
  destruct r1 as [[]|]; [apply wp_ret; split; [intros k _; apply E1, not_elem_of_nil|by intros g [= <-]]| |
    split; [intros k _; apply E1, not_elem_of_nil|done]].
  apply wp_bind. eapply wp_mono; [by apply onlyWrites_wp|]. intros r2 ks2 E2.
  assert (forall k, k <> workerStableIdentityKey w -> ks2 !! k = ks !! k) as E.
  { intros k Hk. rewrite E2, E1; [done|apply not_elem_of_nil|by rewrite list_elem_of_singleton]. }
  destruct r2 as [[]|]; [by apply wp_ret; split; [|intros g [= <-]]| |done].
  assert (marked ks2 (keyOf c)) as Hm2.
  { destruct Hm as [v Ev]. exists v. rewrite E; [done|]. destruct Hc as [-> | ->]; cbn [keyOf]; key_ne. }
  apply wp_bind. eapply wp_mono; [by eapply refused_marked|]. intros [[code|]|] ks3 [-> Hcode]; [|done..].
  apply wp_ret. split; [done|]. intros g [= <-]. done.
Qed.

(** A replaced or quarantined incarnation never comes back. Once an
    incarnation is fenced or quarantined, then after any sequence of scripts of any
    replicas its registration is refused with an error code, and the refusal
    changes nothing but, at most, the first binding of the worker's stable
    identity: the active incarnation, its generation and its readiness stay. *)
Theorem replaced_stays_replaced s s' s'' c w inc text ttl pg ei ac ii rr slots now r :
  isValidBridgeWorkerId w = true -> idText inc = true ->
  c = CFenced w inc \/ c = CQuarantined w inc -> marked (content s) (keyOf c) ->
  rtc (store_step None) s s' ->
  run (registerScript w inc text ttl pg ei ac ii rr slots) now s' = (s'', r) ->
  (forall k, k <> workerStableIdentityKey w -> content s'' !! k = content s' !! k)
  /\ (forall g, r = Some g -> (g < 0)%Z).
Proof.
  intros Hw Hi Hc Hm Hr E.
  assert (keyCall_ok c = true /\ isMark c = true) as [Hok Hk].
  { destruct Hc as [-> | ->]; split; try reflexivity; call_ok. }
  assert (marked (content s') (keyOf c)) as Hm'.
  { eapply (store_step_kept None (fun ks => marked ks (keyOf c))); [|done..]. intros R p Hp t ks _. by apply mark_kept. }
  exact (run_wp _ _ _ _ _ _ E (register_marked c w inc text ttl pg ei ac ii rr slots now _ Hw Hi Hc Hm')).
Qed.
End machine.

(** Worker "w" registers, its machine restarts under a second incarnation. *)
Definition reg_first : prog Z :=
  registerScript (js "w") (js "incarnation-0001") (js "{}") 60 [] [] [] [] true (js "2").
Definition reg_second : prog Z :=
  registerScript (js "w") (js "incarnation-0002") (js "{}") 60 [] [] [] [] true (js "2").
Definition replaced_example : keyspace := fst (run reg_second 2000 (fst (run reg_first 1000 ∅))).

Lemma replaced_stays_replaced_witness :
  let r := run reg_first 3000 replaced_example in
  (forall k, k <> workerStableIdentityKey (js "w") -> content (fst r) !! k = content replaced_example !! k)
  /\ (forall g, snd r = Some g -> (g < 0)%Z).
Proof.
  cbv zeta.
  apply (replaced_stays_replaced (H := asciiPlatform) replaced_example replaced_example _
           (CFenced (js "w") (js "incarnation-0001")) (js "w") (js "incarnation-0001")
           (js "{}") 60 [] [] [] [] true (js "2") 3000).
  - vm_compute. reflexivity.
  - vm_compute. reflexivity.
  - by left.
  - exists (VStr (js "1")). vm_compute. reflexivity.
  - apply rtc_refl.
  - apply run_result. reflexivity.
Defined.

(** A rejected assignment was settled with "r1"; a late "r2" is refused. *)
Definition settled_example : keyspace :=
  {[ settlementKey (js "a1") := Entry (VStr (js "r1")) (Some 90000%Z) ]}.

Lemma settlement_final_witness :
  content settled_example !! settlementKey (js "a1") = Some (Entry (VStr (js "r1")) (Some 90000%Z))
  /\ snd (eval (settleScript (js "w") (js "a1") (js "i") None None (js "r2") 60 true [] (js "i")) 5000
            (content settled_example)) = Some (-1)%Z.
Proof.
  destruct (settlement_final (H := asciiPlatform) settled_example settled_example (js "a1") (js "r1") 90000)
    as [Hs He]; [vm_compute; reflexivity|apply lookup_insert_eq|apply rtc_refl|].
  split; [exact Hs|]. rewrite He by lia. reflexivity.
Defined.

(** ** The contract of registration *)

Section contract.
Context (now : Z) (w inc : jstr).
Context (Hw : isValidBridgeWorkerId w = true) (Hi : idText inc = true).

(** The generation number in a keyspace, and the incarnation it belongs to. *)
Definition genOf (ks : keyspace) : option Z :=
  v ← as_str (find now ks (workerRegistrationGenerationKey w)); tonumber (default (js "0") v).
Definition genOwner (ks : keyspace) : option (option jstr) :=
  as_str (find now ks (workerRegistrationGenerationIncarnationKey w)).
Definition activeIncarnation (ks : keyspace) : option (option jstr) :=
  as_str (find now ks (workerIncarnationKey w)).
Definition fencedKey (c : jstr) : jstr := incarnationPrefix w ++ c ++ js ":fenced".

Lemma find_ext (ks ks' : keyspace) k : ks' !! k = ks !! k -> find now ks' k = find now ks k.
Proof. unfold find. by intros ->. Qed.

Lemma wp_get k (ks : keyspace) (Q : option (option jstr) -> keyspace -> Prop) :
  (forall v, as_str (find now ks k) = Some v -> Q (Some v) ks) -> Q None ks -> wp (rd (GET k)) now ks Q.
Proof.
  intros H1 H2. apply wp_cmd; [|done]. intros ks' r E. cbn [exec] in E.
  destruct (as_str (find now ks k)) as [v|]; [|done]. cbn [mbind option_bind] in E. injection E as <- <-. auto.
Qed.

(** The mark of an arbitrary stored incarnation collides with no other key. *)
Lemma fencedKey_ne c k : k ∈ [workerKey w; workerIncarnationKey w; workspaceSlotCapacityKey w; workerReadyKey w;
    workerRegistrationGenerationKey w; workerRegistrationGenerationIncarnationKey w] -> k <> fencedKey c.
Proof.
  unfold fencedKey, incarnationPrefix, workerIncarnationKey, workspaceSlotCapacityKey, workerReadyKey,
    workerRegistrationGenerationKey, workerRegistrationGenerationIncarnationKey, workerKey.
  rewrite !elem_of_cons, <- !app_assoc. intros Hk E.
  repeat destruct Hk as [->|Hk]; [..|by apply elem_of_nil in Hk];
    rewrite ?app_assoc in E; rewrite <- ?app_assoc in E; do 3 apply app_inv_head in E || idtac;
    first [ discriminate E
          | apply (f_equal length) in E; rewrite ?length_app in E; cbn in E; lia ].
Qed.

Lemma refused_wp slots ks :
  wp (registerRefused w inc slots) now ks (fun r ks' =>
    match r with
    | Some (Some code) => (code < 0)%Z
    | Some None =>
        (ks' = ks /\ forall c, activeIncarnation ks = Some (Some c) -> c = inc)
        \/ exists c, activeIncarnation ks = Some (Some c) /\ c <> inc /\ find now ks (lockKey w) = None
             /\ ks' = <[fencedKey c := Entry (VStr (js "1")) None]> ks
    | None => True
    end).
Proof.
  unfold registerRefused, activeIncarnation.
  apply wp_bind, wp_exists. case_match; [by apply wp_ret|].
  apply wp_bind, wp_exists. case_match; [by apply wp_ret|].
  apply wp_bind, wp_get; [|done]. intros current Ec.
  assert (wp (andAlso (bool_decide (current = Some inc))
      (busy ← rd (EXISTS (lockKey w));
       andAlso busy (capacity ← rd (GET (workspaceSlotCapacityKey w));
                     Ret (negb (bool_decide (default (js "1") capacity = slots)))))) now ks
      (fun _ ks' => ks' = ks)) as Hr.
  { unfold andAlso. case_match; [|by apply wp_ret]. apply wp_bind, wp_exists. case_match; [|by apply wp_ret].
    apply wp_bind, wp_get; [|done]. intros v _. by apply wp_ret. }
  apply wp_bind. eapply wp_mono; [exact Hr|]. clear Hr. intros [[]|] ks' ->; [by apply wp_ret| |done].
  destruct current as [c|].
  - destruct (bool_decide_reflect (c = inc)) as [Hc|Hc]; [apply wp_ret; left; split; [done|]; rewrite Ec; congruence|].
    apply wp_bind, wp_exists.
    destruct (bool_decide_reflect (is_Some (find now ks (lockKey w)))) as [Hl|Hl]; [by apply wp_ret|].
    apply wp_bind, wp_cmd; [|done]. intros ks' b E. cbn [exec andb expiry] in E. injection E as <- <-.
    apply wp_ret. right. exists c. repeat split; try done. destruct (find now ks (lockKey w)); [|done]. exfalso; eauto.
  - apply wp_bind, wp_exists. case_match.
    + apply wp_bind, wp_get; [|done]. intros v _. apply wp_ret.
      destruct (neqStr v inc); [done|]. left. split; [done|]. by rewrite Ec.
    + apply wp_ret. left. split; [done|]. by rewrite Ec.
Qed.

Lemma nextGeneration_wp ks :
  wp (nextGeneration w inc) now ks (fun r ks' => forall g b, r = Some (g, b) ->
    exists old, genOf ks = Some old
      /\ g = (if (old <? 1)%Z || negb (bool_decide (genOwner ks = Some (Some inc))) then old + 1 else old)%Z
      /\ genOf ks' = Some g /\ genOwner ks' = Some (Some inc)
      /\ forall k, k <> workerRegistrationGenerationKey w -> k <> workerRegistrationGenerationIncarnationKey w ->
           ks' !! k = ks !! k).
Proof.
  unfold nextGeneration, genOf, genOwner. apply wp_bind, wp_get; [|done]. intros v Ev. rewrite Ev.
  cbn [mbind option_bind]. apply wp_bind, wp_need. destruct (tonumber _) as [old|] eqn:Eo; [|done].
  apply wp_bind, wp_get; [|done]. intros known Ek. rewrite Ek.
  replace (bool_decide (Some known = Some (Some inc))) with (bool_decide (known = Some inc))
    by (apply bool_decide_ext; split; congruence).
  unfold neqStr. destruct ((old <? 1)%Z || negb (bool_decide (known = Some inc))) eqn:Eb.
  - assert (workerRegistrationGenerationKey w <> workerRegistrationGenerationIncarnationKey w) as N by key_ne.
    apply wp_bind, wp_cmd; [|done]. intros ks1 n E. cbn [exec] in E. rewrite Ev in E. cbn [mbind option_bind] in E.
    assert (match v with Some s => tonumber s | None => Some 0%Z end = Some old) as Ev' by (by destruct v).
    rewrite Ev' in E. cbn [mbind option_bind] in E. destruct (isInt64 old && _); [|done].
    assert (ks1 = keep now ks (workerRegistrationGenerationKey w) (VStr (dec (old + 1))) /\ n = (old + 1)%Z) as [-> ->]
      by (split; congruence).
    apply wp_bind, wp_cmd; [|done]. intros ks2 b E2. cbn [exec andb expiry] in E2. injection E2 as <- <-.
    apply wp_ret. intros g b' [= <- <-]. exists old. split; [done|]. split; [by rewrite Eb|].
    rewrite find_insert_ne by done. rewrite find_keep_eq, find_insert_eq. cbn [as_str mbind option_bind].
    split; [apply tonumber_dec|]. split; [done|]. intros k K1 K2. rewrite lookup_insert_ne by done. by apply keep_frame.
  - apply wp_ret. intros g b [= <- <-]. exists old. rewrite Ev, Ek, Eb. apply orb_false_iff in Eb as [_ Eb].
    bools. subst known. done.
Qed.

(** The last writes of the script. *)
Lemma register_writes_wp text ttl rr slots gen (ks : keyspace) : (0 < ttl)%Z ->
  wp (rd (SET (workerKey w) text (EX ttl) false);;
      rd (SET (workerIncarnationKey w) inc (EX ttl) false);;
      rd (SET (workspaceSlotCapacityKey w) slots (EX ttl) false);;
      (if rr && snd gen then rd (DEL [workerReadyKey w]);; Ret tt else Ret tt);;
      Ret (fst gen : Z)) now ks (fun r ks' =>
    r = Some (fst gen)
    /\ find now ks' (workerKey w) = Some (Entry (VStr text) (Some (now + ttl * 1000)%Z))
    /\ find now ks' (workerIncarnationKey w) = Some (Entry (VStr inc) (Some (now + ttl * 1000)%Z))
    /\ forall k, k ∉ [workerKey w; workerIncarnationKey w; workspaceSlotCapacityKey w; workerReadyKey w] ->
         ks' !! k = ks !! k).
Proof.
  intros Ht.
  assert (workerKey w <> workerIncarnationKey w /\ workerKey w <> workspaceSlotCapacityKey w
          /\ workerKey w <> workerReadyKey w /\ workerIncarnationKey w <> workspaceSlotCapacityKey w
          /\ workerIncarnationKey w <> workerReadyKey w) as (N1 & N2 & N3 & N4 & N5) by (repeat split; key_ne).
  do 3 (apply wp_bind, wp_cmd; [|done]; intros ? ? E; cbn [exec andb expiry] in E; injection E as <- <-).
  set (ks3 := <[workspaceSlotCapacityKey w := _]> _).
  assert (wp (if rr && gen.2 then rd (DEL [workerReadyKey w]);; Ret tt else Ret tt) now ks3
    (fun r ks' => r = Some tt /\ forall k, k <> workerReadyKey w -> ks' !! k = ks3 !! k)) as Hd.
  { case_match; [|by apply wp_ret]. apply wp_bind, wp_cmd; [|done]. intros ks4 n E. cbn [exec foldr] in E.
    injection E as <- <-. apply wp_ret. split; [done|]. intros k Hk. by rewrite lookup_delete_ne. }
  apply wp_bind. eapply wp_mono; [exact Hd|]. intros r ks4 [-> E4]. apply wp_ret. split; [done|].
  assert (alive now (Entry (VStr text) (Some (now + ttl * 1000)%Z)) = true) as Al by (apply Z.leb_le; lia).
  rewrite !(find_ext ks3 ks4) by (by apply E4). unfold ks3. split; [|split].
  - rewrite !find_insert_ne by done. rewrite find_insert_eq. by rewrite Al.
  - rewrite find_insert_ne by done. rewrite find_insert_eq. unfold alive in *. cbn [e_exp] in *. by rewrite Al.
  - intros k Hk. rewrite !not_elem_of_cons in Hk. destruct Hk as (K1 & K2 & K3 & K4 & _).
    rewrite E4 by done. unfold ks3. by rewrite !lookup_insert_ne.
Qed.

(** What a successful registration establishes, from the state before it. *)
Definition registered (text : jstr) (ttl : Z) (ks : keyspace) (g : Z) (ks' : keyspace) : Prop :=
  find now ks' (workerKey w) = Some (Entry (VStr text) (Some (now + ttl * 1000)%Z))
  /\ find now ks' (workerIncarnationKey w) = Some (Entry (VStr inc) (Some (now + ttl * 1000)%Z))
  /\ (exists old, genOf ks = Some old
      /\ g = (if (old <? 1)%Z || negb (bool_decide (genOwner ks = Some (Some inc))) then old + 1 else old)%Z)
  /\ genOf ks' = Some g /\ genOwner ks' = Some (Some inc)
  /\ forall c, activeIncarnation ks = Some (Some c) -> c <> inc ->
       find now ks (lockKey w) = None /\ marked ks' (fencedKey c).

(** The fence only adds its mark. *)
Lemma refused_frame ks ks' :
  (ks' = ks /\ forall c, activeIncarnation ks = Some (Some c) -> c = inc)
  \/ (exists c, activeIncarnation ks = Some (Some c) /\ c <> inc /\ find now ks (lockKey w) = None
        /\ ks' = <[fencedKey c := Entry (VStr (js "1")) None]> ks) ->
  (forall c, activeIncarnation ks = Some (Some c) -> c <> inc -> find now ks (lockKey w) = None /\ marked ks' (fencedKey c))
  /\ genOf ks' = genOf ks /\ genOwner ks' = genOwner ks.
Proof.
  intros [[-> Hc]|(c & Ec & Hne & Hl & ->)].
  - split; [|done]. intros c E Hne. by apply Hc in E.
  - split.
    + intros c' E _. assert (c' = c) as -> by congruence. split; [done|]. eexists. apply lookup_insert_eq.
    + unfold genOf, genOwner. rewrite !find_insert_ne; [done|apply not_eq_sym, fencedKey_ne; set_solver..].
Qed.

Lemma register_wp text ttl pg ei ac ii rr slots ks : (0 < ttl)%Z ->
  wp (registerScript w inc text ttl pg ei ac ii rr slots) now ks
    (fun r ks' => forall g, r = Some g -> (0 < g)%Z -> registered text ttl ks g ks').
Proof.
  intros Ht. destruct (guards_only w pg ei ac ii ttl) as [G1 G2]. unfold registerScript.
  apply wp_bind. eapply wp_mono; [by apply onlyWrites_wp|]. intros [[]|] ks1 E1; [apply wp_ret; intros g [= <-]; lia| |done].
  apply wp_bind. eapply wp_mono; [by apply onlyWrites_wp|]. intros [[]|] ks2 E2; [apply wp_ret; intros g [= <-]; lia| |done].
  assert (forall k, k <> workerStableIdentityKey w -> find now ks2 k = find now ks k) as E.
  { intros k Hk. apply find_ext. rewrite E2, E1; [done|apply not_elem_of_nil|by rewrite list_elem_of_singleton]. }
  apply wp_bind. eapply wp_mono; [apply refused_wp|]. intros [[code|]|] ks3 Hr; [apply wp_ret; intros g [= <-]; lia| |done].
  apply refused_frame in Hr as (Hf & Eg & Eo).
  apply wp_bind. eapply wp_mono; [apply nextGeneration_wp|]. intros [[g b]|] ks4 Hg; [|done].
  destruct (Hg g b eq_refl) as (old & Hold & Hgen & Hg4 & Ho4 & Hk4). clear Hg.
  eapply wp_mono; [by apply (register_writes_wp text ttl rr slots (g, b))|]. intros r ks5 (-> & Hw5 & Hi5 & Hk5) g' [= <-] _.
  assert (genOf ks5 = genOf ks4 /\ genOwner ks5 = genOwner ks4) as [Eg5 Eo5].
  { unfold genOf, genOwner. split; [f_equal|]; f_equal; apply find_ext, Hk5; rewrite !not_elem_of_cons;
      repeat split; try apply not_elem_of_nil; key_ne. }
  assert (genOf ks2 = genOf ks /\ genOwner ks2 = genOwner ks /\ activeIncarnation ks2 = activeIncarnation ks
          /\ find now ks2 (lockKey w) = find now ks (lockKey w)) as (Eg2 & Eo2 & Ea2 & El2).
  { unfold genOf, genOwner, activeIncarnation. rewrite !E by key_ne. done. }
  rewrite Eg, Eg2 in Hold. rewrite Eo, Eo2 in Hgen. rewrite Ea2, El2 in Hf.
  split; [done|]. split; [done|]. split; [by exists old|]. split; [congruence|]. split; [congruence|].
  intros c Ec Hne. destruct (Hf c Ec Hne) as [Hl [v Hv]]. split; [done|]. exists v.
  rewrite Hk5, Hk4; [done| | |].
  - apply not_eq_sym, fencedKey_ne. set_solver.
  - apply not_eq_sym, fencedKey_ne. set_solver.
  - rewrite !not_elem_of_cons. repeat split; try apply not_elem_of_nil; apply not_eq_sym, fencedKey_ne; set_solver.
Qed.
End contract.

(** What a successful registration means. The worker's registration and
    active incarnation are the new ones until the heartbeat expires; the returned
    generation is stored for this incarnation, is one more than before when the
    incarnation changed and unchanged when the same incarnation registers again;
    and an incarnation that was replaced had no assignment lock left and is fenced
    for good. *)
Theorem register_generation {db} `{RedisServer db} (s s' : db) w inc text ttl pg ei ac ii rr slots now g :
  isValidBridgeWorkerId w = true -> idText inc = true -> (0 < ttl)%Z ->
  run (registerScript w inc text ttl pg ei ac ii rr slots) now s = (s', Some g) -> (0 < g)%Z ->
  registered now w inc text ttl (content s) g (content s').
Proof.
  intros Hw Hi Ht E Hg.
  exact (run_wp _ _ _ _ _ _ E (register_wp now w inc Hw Hi text ttl pg ei ac ii rr slots _ Ht) g eq_refl Hg).
Qed.

(** The second incarnation takes over with generation 2. *)
Lemma register_generation_witness :
  registered 2000 (js "w") (js "incarnation-0002") (js "{}") 60
    (content (fst (run reg_first 1000 (∅ : keyspace)))) 2 (content replaced_example).
Proof.
  apply (register_generation (fst (run reg_first 1000 (∅ : keyspace))) replaced_example (js "w") (js "incarnation-0002")
           (js "{}") 60 [] [] [] [] true (js "2") 2000 2); [vm_compute; reflexivity..|lia| |lia].
  apply run_result. vm_compute. reflexivity.
Defined.
