(* ===== verification/BridgeSettlement.v ===== *)
(** * Accepting a settlement

    When [settleScript] accepts ([settle_accepted]), and the arbitration between a
    waiter that gives up and a worker that finishes late ([closed_gate_holds]). *)

From stdpp Require Import base list numbers option strings gmap relations.
From Stdlib Require Import ZArith Lia.
From S2P Require Import Prelude JsString Json Protocol ProtocolRequests Redis JsonText BridgeKeys BridgeAdmission BridgeSlots BridgeSlotsProofs BridgeStore BridgeStoreProofs BridgeRegistration.

Section accepting.
Context `{Platform} (now : Z).

Lemma wp_getIs k v (ks : keyspace) (Q : option bool -> keyspace -> Prop) :
  (forall o, as_str (find now ks k) = Some o -> Q (Some (bool_decide (o = Some v))) ks) -> Q None ks ->
  wp (getIs k v) now ks Q.
Proof. intros H1 H2. unfold getIs. apply wp_bind, wp_get; [|done]. intros o Ho. by apply wp_ret, H1. Qed.

(** The caller is the worker's identity: the bound one, or none where none is. *)
Definition isIdentity (ks : keyspace) (w identityId : jstr) : Prop :=
  if isEmpty identityId then find now ks (workerStableIdentityKey w) = None
  else as_str (find now ks (workerStableIdentityKey w)) = Some (Some identityId).

Lemma otherIdentity_wp w identityId (ks : keyspace) :
  wp (otherIdentity w identityId) now ks (fun r ks' => ks' = ks /\ (r = Some false -> isIdentity ks w identityId)).
Proof.
  unfold otherIdentity, isIdentity. destruct (isEmpty identityId).
  - apply wp_exists. split; [done|]. intros [= Hb]. bools. destruct (find _ _ _); [|done]. exfalso; eauto.
  - apply wp_bind, wp_get; [|done]. intros o Ho. apply wp_ret. split; [done|]. intros [= Hb]. unfold neqStr in Hb.
    bools. by rewrite Ho, Hb.
Qed.

(** What an accepted settlement needs of the state before it. *)
Record acceptable (ks : keyspace) (w aid : jstr) (fence : option jstr) (rejected : bool)
    (identityId incarnation : jstr) : Prop := {
  acc_first : find now ks (settlementKey aid) = None;
  acc_known : is_Some (find now ks (assignmentKey aid));
  acc_fence : forall f, fence = Some f -> as_str (find now ks f) = Some (Some aid);
  acc_open : rejected = false -> is_Some (find now ks (assignmentDeadlineKey aid));
  acc_identity : isIdentity ks w identityId;
  acc_incarnation : as_str (find now ks (workerIncarnationKey w)) = Some (Some incarnation);
}.

(** The writes after the guards keep the settlement. *)
Lemma settle_tail_wp w aid inc slot fence text ttl rejected (ks : keyspace) :
  isValidBridgeWorkerId w = true -> idText inc = true -> idText aid = true -> (forall f, fence = Some f -> fenceLike f) ->
  wp (rd (SET (settlementKey aid) text (EX ttl) false);;
      claimed ← getIs (leaseClaimKey w inc slot) aid;
      (if (claimed : bool) then rd (DEL [leaseClaimKey w inc slot; leaseAckKey w inc slot]);; Ret tt else Ret tt);;
      match fence with
      | Some f => if rejected && bool_decide (slot = None) then rd (DEL [f]);; Ret 1%Z else Ret 1%Z
      | None => Ret 1%Z
      end) now ks (fun r ks' =>
    (r = Some 1%Z \/ r = None) /\ ks' !! settlementKey aid = Some (Entry (VStr text) (Some (now + ttl * 1000)%Z))).
Proof.
  intros Hw Hi Ha Hf. apply wp_bind, wp_cmd; [|done]. intros ks1 b E. cbn [exec andb expiry] in E. injection E as <- <-.
  set (ks1 := <[settlementKey aid := _]> ks).
  match goal with |- wp ?p now ks1 _ => assert (avoids (settlementKey aid) p /\ wp p now ks1 (fun r _ => r = Some 1%Z \/ r = None)) as [Hav Hr] end.
  { split.
    - unfold getIs. destruct fence as [f|]; [specialize (Hf f eq_refl)|clear Hf];
        commands_auto ltac:(cbn [writes]; rewrite ?not_elem_of_cons; repeat split; first [apply not_elem_of_nil | key_ne]).
    - apply wp_bind, wp_getIs; [|by right]. intros o _. apply wp_bind.
      assert (forall ks2,
        wp (match fence with
            | Some f => if rejected && bool_decide (slot = None) then rd (DEL [f]);; Ret 1%Z else Ret 1%Z
            | None => Ret 1%Z end) now ks2 (fun r _ => r = Some 1%Z \/ r = None)) as Ht.
      { intros ks2. repeat case_match; try (apply wp_ret; by left). apply wp_bind, wp_cmd; [|done].
        intros; apply wp_ret; by left. }
      destruct (bool_decide (o = Some aid)); [apply wp_bind, wp_cmd; [|by right]; intros; apply wp_ret|apply wp_ret]; apply Ht. }
  eapply wp_mono; [apply wp_and; [exact Hr|by apply (wp_avoids _ _ now ks1 Hav)]|].
  intros r ks' [Hr' E]. split; [done|]. rewrite E. apply lookup_insert_eq.
Qed.

Lemma settle_wp w aid inc slot fence text ttl rejected identityId sinc (ks : keyspace) :
  isValidBridgeWorkerId w = true -> idText inc = true -> idText aid = true -> (forall f, fence = Some f -> fenceLike f) ->
  wp (settleScript w aid inc slot fence text ttl rejected identityId sinc) now ks (fun r ks' =>
    (r = Some 1%Z -> acceptable ks w aid fence rejected identityId sinc
       /\ ks' !! settlementKey aid = Some (Entry (VStr text) (Some (now + ttl * 1000)%Z)))
    /\ (r <> Some 1%Z -> r <> None -> ks' = ks)).
Proof.
  intros Hw Hi Ha Hf. unfold settleScript.
  apply wp_bind, wp_get; [|done]. intros existing Ee. destruct existing as [v|]; [apply wp_ret; split; [case_match; done|done]|].
  apply wp_bind, wp_exists. destruct (bool_decide_reflect (is_Some (find now ks (assignmentKey aid)))) as [Hk|Hk]; [|by apply wp_ret].
  apply wp_bind.
  assert (wp (match fence with Some f => o ← rd (GET f); Ret (neqStr o aid) | None => Ret false end) now ks
    (fun r ks' => ks' = ks /\ (r = Some false -> forall f, fence = Some f -> as_str (find now ks f) = Some (Some aid)))) as Hl.
  { destruct fence as [f|]; [|by apply wp_ret]. apply wp_bind, wp_get; [|done]. intros o Ho. apply wp_ret.
    split; [done|]. intros [= Hb] f' [= <-]. unfold neqStr in Hb. bools. by rewrite Ho, Hb. }
  eapply wp_mono; [exact Hl|]. clear Hl. intros lost ks' [-> Hlost]. destruct lost as [[]|]; [by apply wp_ret| |done].
  apply wp_bind.
  assert (wp (if rejected then Ret true else rd (EXISTS (assignmentDeadlineKey aid))) now ks
    (fun r ks' => ks' = ks /\ (r = Some true -> rejected = false -> is_Some (find now ks (assignmentDeadlineKey aid))))) as Ho.
  { destruct rejected; [by apply wp_ret|]. apply wp_exists. split; [done|]. intros [= Hb] _. by bools. }
  eapply wp_mono; [exact Ho|]. clear Ho. intros op ks' [-> Hopen]. destruct op as [[]|]; [|by apply wp_ret|done].
  apply wp_bind. eapply wp_mono; [apply otherIdentity_wp|]. intros other ks' [-> Hid].
  destruct other as [[]|]; [by apply wp_ret| |done].
  apply wp_bind, wp_get; [|done]. intros cur Hcur. unfold neqStr. destruct (bool_decide_reflect (cur = Some sinc)) as [->|Hc]; [|by apply wp_ret].
  eapply wp_mono; [by apply settle_tail_wp|]. intros r ks' [Hr E]. split; [|by destruct Hr].
  intros _. split; [|done]. split; try done; try by auto.
  destruct (find now ks (settlementKey aid)) as [[[] ?]|]; done.
Qed.
End accepting.

(** A settlement is accepted only from the current owner of an open
    assignment. If the script accepts, no settlement was stored before, the
    assignment is known, its workspace fence still names it, its deadline gate is
    open unless the settlement is a rejection, and the sender is the worker's bound
    identity and its active incarnation; the settlement is then stored with its
    retention. Every refusal leaves the keyspace as it was. *)
Theorem settle_accepted `{Platform} {db} `{RedisServer db} (s s' : db) now w aid inc slot fence text ttl rejected
    identityId sinc r :
  isValidBridgeWorkerId w = true -> idText inc = true -> idText aid = true -> (forall f, fence = Some f -> fenceLike f) ->
  run (settleScript w aid inc slot fence text ttl rejected identityId sinc) now s = (s', Some r) ->
  (r = 1%Z -> acceptable now (content s) w aid fence rejected identityId sinc
     /\ content s' !! settlementKey aid = Some (Entry (VStr text) (Some (now + ttl * 1000)%Z)))
  /\ (r <> 1%Z -> content s' = content s).
Proof.
  intros Hw Hi Ha Hf E.
  destruct (run_wp _ _ _ _ _ _ E (settle_wp now w aid inc slot fence text ttl rejected identityId sinc _ Hw Hi Ha Hf))
    as [H1 H2]. split; [intros ->; by apply H1|]. intros Hr. apply H2; congruence.
Qed.

(** An assignment of worker "w", incarnation "i", that is queued and not due. *)
Definition open_example : keyspace :=
  fst (eval (rd (SET (workerIncarnationKey (js "w")) (js "i") NOTTL false);;
             enqueueScript (EnqueueArgs (js "w") (js "a1") (js "i") (js "{}") [] 60 9000 [] None None 60) None)
         1000 ∅).

Lemma settle_accepted_witness :
  let p := settleScript (js "w") (js "a1") (js "i") None None (js "r1") 60 false [] (js "i") in
  (1%Z = 1%Z -> acceptable 2000 (content open_example) (js "w") (js "a1") None false [] (js "i")
     /\ content (fst (run p 2000 open_example)) !! settlementKey (js "a1")
        = Some (Entry (VStr (js "r1")) (Some (2000 + 60 * 1000)%Z)))
  /\ (1%Z <> 1%Z -> content (fst (run p 2000 open_example)) = content open_example).
Proof.
  cbv zeta.
  apply (settle_accepted (H := asciiPlatform) open_example _ 2000 (js "w") (js "a1") (js "i") None None (js "r1") 60 false
           [] (js "i") 1); [vm_compute; reflexivity..|done|].
  apply run_result. vm_compute. reflexivity.
Defined.

(** ** Giving up *)

#[global] Instance keyCall_dec : EqDecision keyCall.
Proof. solve_decision. Defined.

Definition keepsNone (k : jstr) (R : Type) (c : cmd R) : Prop :=
  match c with DEL _ => True | _ => k ∉ writes c end.

Lemma exec_none k R (c : cmd R) now (ks ks' : keyspace) r :
  keepsNone k R c -> exec c now ks = Some (ks', r) -> ks !! k = None -> ks' !! k = None.
Proof.
  intros Hc E Hk. destruct (decide (k ∈ writes c)) as [Hin|Hin]; [|by rewrite (exec_frame _ _ _ _ _ _ E Hin)].
  destruct c; try by destruct Hc. cbn [exec] in E. injection E as <- _. by apply delete_in.
Qed.

Lemma eval_none {A} k (p : prog A) now (ks : keyspace) :
  commands (keepsNone k) p -> ks !! k = None -> fst (eval p now ks) !! k = None.
Proof.
  revert ks. induction p as [a|R c f IH|]; intros ks; cbn [commands eval]; try done.
  intros [Hc Hf] Hk. destruct (exec c now ks) as [[ks' r]|] eqn:E; [|done].
  apply IH; [done|]. by eapply exec_none.
Qed.

Section gate.
Context `{Platform} (aid : jstr) (Ha : idText aid = true).

(** [p] enqueues the assignment again. *)
Definition enqueues {R} (p : prog R) : Prop :=
  exists e guard, e_assignment e = aid /\ existT (P := prog) R p = existT (P := prog) Z (enqueueScript e guard).

Definition notGate (c : keyCall) : bool := negb (bool_decide (c = CDeadline aid)).

Lemma gate_ne_fenced w s : isValidBridgeWorkerId w = true -> assignmentDeadlineKey aid <> incarnationPrefix w ++ s.
Proof.
  intros Hw E. unfold assignmentDeadlineKey, incarnationPrefix in E. rewrite <- !app_assoc in E.
  apply app_inv_head in E. discriminate.
Qed.

Ltac gate_key :=
  first [ exact I
        | cbn [keepsNone writes]; rewrite ?not_elem_of_cons;
          repeat split; first [apply not_elem_of_nil | key_ne | by apply gate_ne_fenced] ].

Lemma close_gate_none aid' fence : idText aid' = true -> commands (keepsNone (assignmentDeadlineKey aid)) (closeScript aid' fence).
Proof. intros Ha'. unfold closeScript, getIs. commands_auto gate_key. Qed.

Lemma register_gate_none w inc text ttl pg ei ac ii rr slots :
  isValidBridgeWorkerId w = true -> idText inc = true ->
  commands (keepsNone (assignmentDeadlineKey aid)) (registerScript w inc text ttl pg ei ac ii rr slots).
Proof.
  intros Hw Hi.
  unfold registerScript, pairingChanged, identityChanged, credentialRevoked, registerRefused, nextGeneration, andAlso.
  commands_auto gate_key.
Qed.

Lemma settle_gate_none w aid' inc slot fence text ttl rejected identity sinc :
  isValidBridgeWorkerId w = true -> idText inc = true -> idText aid' = true ->
  commands (keepsNone (assignmentDeadlineKey aid)) (settleScript w aid' inc slot fence text ttl rejected identity sinc).
Proof. intros Hw Hi Ha'. unfold settleScript, otherIdentity, getIs. commands_auto gate_key. Qed.

Lemma quarantine_gate_none w inc fence :
  isValidBridgeWorkerId w = true -> idText inc = true -> (forall f, fence = Some f -> fenceLike f) ->
  commands (keepsNone (assignmentDeadlineKey aid)) (quarantineScript w inc fence).
Proof.
  intros Hw Hi Hf. unfold quarantineScript. destruct fence as [f|]; [specialize (Hf f eq_refl)|clear Hf]; commands_auto gate_key.
Qed.

Lemma receipt_gate_none w aid' metadata inc identity epoch fence slot text ttl q :
  isValidBridgeWorkerId w = true -> idText inc = true -> idText aid' = true -> fenceLike fence ->
  commands (keepsNone (assignmentDeadlineKey aid))
    (receiptCommitScript w aid' metadata inc identity epoch fence slot text ttl q).
Proof.
  intros Hw Hi Ha' Hf. unfold receiptCommitScript, receiptCurrent, receiptAction, delIfOwned, hgetIs, getIs, andAlso.
  commands_auto gate_key.
Qed.

Lemma notGate_true c : c <> CDeadline aid -> notGate c = true.
Proof. intros Hc. unfold notGate. by apply negb_true_iff, bool_decide_eq_false. Qed.

Lemma notGate_ordinary c : isGate c = false -> ordinary c = true -> notGate c = true.
Proof. intros Hg _. apply notGate_true. by intros ->. Qed.

Lemma tame_gate {R} (p : prog R) now (ks : keyspace) : tame notGate p ->
  ks !! assignmentDeadlineKey aid = None -> fst (eval p now ks) !! assignmentDeadlineKey aid = None.
Proof.
  intros Hp Hk. rewrite <- Hk. apply eval_avoids. apply (tame_avoids notGate p (CDeadline aid)); [done| |done].
  unfold notGate. by rewrite bool_decide_eq_true_2.
Qed.

Lemma gate_stays_shut R (p : prog R) : storeScript R p -> ~ enqueues p -> forall now (ks : keyspace),
  ks !! assignmentDeadlineKey aid = None -> fst (eval p now ks) !! assignmentDeadlineKey aid = None.
Proof.
  revert R p. apply (storeScript_cases notGate (fun R p => ~ enqueues p -> forall now (ks : keyspace),
    ks !! assignmentDeadlineKey aid = None -> fst (eval p now ks) !! assignmentDeadlineKey aid = None)).
  - apply notGate_ordinary.
  - intros R p Hp _ now ks. by apply tame_gate.
  - intros aid' fence Ha' _ now ks. by apply eval_none, close_gate_none.
  - intros e guard Hw Hi Ha' Hf Hp Hg Hne now ks. apply tame_gate. apply enqueue_tame; try done; [apply notGate_ordinary|].
    apply notGate_true. intros [= E]. apply Hne. by exists e, guard.
  - intros. apply tame_gate; [|done]. apply acquireLock_tame; [apply notGate_ordinary|done|by apply notGate_true].
  - intros. apply tame_gate; [|done]. apply releaseLock_tame; [apply notGate_ordinary|done|by apply notGate_true].
  - intros. apply tame_gate; [|done]. apply reserve_tame; [apply notGate_ordinary|done|by apply notGate_true].
  - intros. apply tame_gate; [|done]. apply release_tame; [apply notGate_ordinary|done|by apply notGate_true].
  - intros w inc text ttl pg ei ac ii rr slots Hw Hi _ now ks. by apply eval_none, register_gate_none.
  - intros w aid' inc slot fence text ttl rejected identity sinc Hw Hi Ha' _ _ now ks. by apply eval_none, settle_gate_none.
  - intros w inc fence Hw Hi Hf _ now ks. by apply eval_none, quarantine_gate_none.
  - intros w aid' metadata inc identity epoch fence slot text ttl q Hw Hi Ha' Hf _ now ks. by apply eval_none, receipt_gate_none.
Qed.

(** A script of some replica that does not enqueue the assignment again. *)
Inductive late_step {db} `{RedisServer db} (s s' : db) : Prop :=
| late R (p : prog R) now r : storeScript R p -> ~ enqueues p -> run p now s = (s', r) -> late_step s s'.
End gate.

Lemma close_wp aid fence now (ks : keyspace) :
  wp (closeScript aid fence) now ks (fun r ks' => r = Some None -> ks' !! assignmentDeadlineKey aid = None).
Proof.
  unfold closeScript. apply wp_bind, wp_get; [|done]. intros v _. destruct v as [v|]; [by apply wp_ret|].
  apply wp_bind, wp_cmd; [|done]. intros ks1 n E. cbn [exec foldr] in E. injection E as <- <-.
  set (ks1 := delete (assignmentDeadlineKey aid) ks).
  match goal with |- wp ?p now ks1 _ => assert (commands (keepsNone (assignmentDeadlineKey aid)) p) as Hp end.
  { unfold getIs. commands_auto ltac:(first [exact I | apply not_elem_of_nil]). }
  unfold wp. intros _. apply eval_none; [exact Hp|]. apply lookup_delete_eq.
Qed.

(** (C35) A waiter that gives up has the last word. Once the close of an
    assignment found no settlement, then, whatever scripts any replicas run
    afterwards short of enqueueing the assignment again, a fulfilled settlement of
    it is never accepted: the caller who was told that the assignment expired
    cannot be contradicted by a late result. *)
Theorem closed_gate_holds `{Platform} {db} `{RedisServer db} (s s1 s2 s3 : db) aid fence0 now0 now w inc slot fence
    text ttl identityId sinc r :
  isValidBridgeWorkerId w = true -> idText inc = true -> idText aid = true -> (forall f, fence = Some f -> fenceLike f) ->
  run (closeScript aid fence0) now0 s = (s1, Some None) ->
  rtc (late_step aid) s1 s2 ->
  run (settleScript w aid inc slot fence text ttl false identityId sinc) now s2 = (s3, Some r) ->
  r <> 1%Z /\ content s3 = content s2.
Proof.
  intros Hw Hi Ha Hf E1 Hr E3.
  assert (content s1 !! assignmentDeadlineKey aid = None) as H1
    by exact (run_wp _ _ _ _ _ _ E1 (close_wp aid fence0 now0 _) eq_refl).
  assert (content s2 !! assignmentDeadlineKey aid = None) as H2.
  { clear E1 E3. induction Hr as [s1|s1 s1' s2 [R p t x Hp Hn E] _ IH]; [done|]. apply IH.
    apply run_eval_eq in E. pose proof (gate_stays_shut aid Ha R p Hp Hn t (content s1) H1) as Hg. by rewrite E in Hg. }
  destruct (run_wp _ _ _ _ _ _ E3 (settle_wp now w aid inc slot fence text ttl false identityId sinc _ Hw Hi Ha Hf))
    as [Hacc Hsame].
  assert (r <> 1%Z) as Hne.
  { intros ->. destruct (Hacc eq_refl) as [[_ _ _ Ho _ _] _]. destruct (Ho eq_refl) as [e He].
    unfold find in He. by rewrite H2 in He. }
  split; [done|]. apply Hsame; congruence.
Qed.

(** The dispatcher closes; the worker's late success is refused. *)
Lemma closed_gate_holds_witness :
  let s1 := fst (run (closeScript (js "a1") None) 3000 open_example) in
  let p := settleScript (js "w") (js "a1") (js "i") None None (js "r1") 60 false [] (js "i") in
  0%Z <> 1%Z /\ content (fst (run p 4000 s1)) = content s1.
Proof.
  cbv zeta.
  apply (closed_gate_holds (H := asciiPlatform) open_example
           (fst (run (closeScript (js "a1") None) 3000 open_example))
           (fst (run (closeScript (js "a1") None) 3000 open_example)) _ (js "a1") None 3000 4000
           (js "w") (js "i") None None (js "r1") 60 [] (js "i") 0).
  - vm_compute. reflexivity.
  - vm_compute. reflexivity.
  - vm_compute. reflexivity.
  - done.
  - apply run_result. vm_compute. reflexivity.
  - apply rtc_refl.
  - apply run_result. vm_compute. reflexivity.
Defined.
