(* ===== verification/BridgeLocks.v ===== *)
(** * The assignment lock

    A worker without concurrent slots runs one assignment at a time. While an
    assignment holds the worker's lock, no script of any other assignment, slot or
    incarnation takes, shortens or removes it ([lock_exclusive]). *)

From stdpp Require Import base list numbers option strings gmap relations.
From Stdlib Require Import ZArith Lia.
From S2P Require Import Prelude JsString Json Protocol ProtocolKeys ProtocolPaths ProtocolRequests Redis JsonText BridgeKeys BridgeAdmission BridgeSlots BridgeSlotsProofs BridgeStore BridgeStoreProofs BridgeRegistration BridgeSettlement.

(** The mark of an arbitrary stored incarnation is no lock. *)
Lemma fenced_ne_lock w w' s : isValidBridgeWorkerId w = true -> isValidBridgeWorkerId w' = true ->
  lockKey w <> incarnationPrefix w' ++ s.
Proof.
  intros Hw Hw' E. change (lockKey w) with (keyOf (CLock w)) in E. apply (f_equal (splitOn COLON)) in E.
  rewrite (keyOf_split (CLock w)) in E by done.
  assert (splitOn COLON (incarnationPrefix w' ++ s)
    = map js ["codeapi"; "bridge"; "v1"] ++ js "worker" :: encodeURIComponent w' :: js "incarnation" :: splitOn COLON s) as E'.
  { transitivity (splitOn COLON (js "codeapi" ++ COLON :: js "bridge" ++ COLON :: js "v1" ++ COLON :: js "worker"
      ++ COLON :: encodeURIComponent w' ++ COLON :: js "incarnation" ++ COLON :: s)).
    { f_equal. unfold incarnationPrefix, PREFIX. rewrite <- !app_assoc. reflexivity. }
    rewrite !splitOn_app; try reflexivity; try (by apply encode_colon_free);
      apply (forallb_not_in (fun c => negb (c =? COLON)%Z)); vm_compute; reflexivity. }
  rewrite E' in E. apply app_inv_head in E. cbn [keyParts map] in E. injection E. intros _ E2 _.
  discriminate E2.
Qed.

Lemma slotOwner_ne aid inc : idText aid = true -> aid <> slotOwner inc.
Proof.
  intros Ha ->. apply idText_colon_free in Ha. apply Ha. unfold slotOwner. apply elem_of_app. left.
  apply list_elem_of_In. vm_compute. tauto.
Qed.

Section held.
Context `{Platform} (w aid : jstr) (Hw : isValidBridgeWorkerId w = true) (Ha : idText aid = true).

(** The lock is held by the assignment at time [now]. *)
Definition heldAt (now : Z) (ks : keyspace) : Prop :=
  exists x, find now ks (lockKey w) = Some (Entry (VStr aid) x).

Lemma held_get now (ks : keyspace) (Q : option (option jstr) -> keyspace -> Prop) :
  heldAt now ks -> Q (Some (Some aid)) ks -> wp (rd (GET (lockKey w))) now ks Q.
Proof. intros [x Ex] HQ. apply wp_cmd; intros *; cbn [exec]; rewrite Ex; by intros [= <- <-]. Qed.

Lemma acquireBody_busy now (ks : keyspace) other inc ttlMs reuse : heldAt now ks -> other <> aid ->
  wp (acquireLockBody w other inc ttlMs reuse) now ks (fun r ks' => r <> Some 1%Z /\ ks' = ks).
Proof.
  intros Hh Hne. unfold acquireLockBody. apply wp_bind.
  assert (wp (andAlso reuse (owner ← getIs (lockKey w) other; andAlso owner (getIs (lockIncarnationKey w) inc))) now ks
    (fun r ks' => r = Some false /\ ks' = ks)) as Hf.
  { unfold andAlso. destruct reuse; [|by apply wp_ret]. apply wp_bind. unfold getIs at 1. apply wp_bind, (held_get now ks _ Hh).
    rewrite bool_decide_eq_false_2 by congruence. by do 2 apply wp_ret. }
  eapply wp_mono; [exact Hf|]. clear Hf. intros r ks' [-> ->].
  apply wp_bind, wp_exists. destruct Hh as [x Ex]. rewrite bool_decide_eq_true_2 by (rewrite Ex; eauto). by apply wp_ret.
Qed.

Lemma acquire_busy now (ks : keyspace) other inc ttlMs reuse guard : heldAt now ks -> other <> aid ->
  wp (acquireLockScript w other inc ttlMs reuse guard) now ks (fun r ks' => r <> Some 1%Z /\ ks' = ks).
Proof.
  intros Hh Hne. destruct guard as [g|]; cbn [acquireLockScript]; [|by apply acquireBody_busy].
  apply wp_bind. eapply wp_mono; [apply durableAdmissionFence_wp|].
  intros [[t|x]|] ks' [-> Hx]; [|subst x; by apply wp_ret|done].
  apply wp_bind, wp_get; [|done]. intros c _. case_match; [by apply wp_ret|]. by apply acquireBody_busy.
Qed.

Lemma releaseLock_busy now (ks : keyspace) other : heldAt now ks -> other <> aid ->
  wp (releaseLockScript w other) now ks (fun _ ks' => ks' = ks).
Proof.
  intros Hh Hne. unfold releaseLockScript. apply wp_bind, (held_get now ks _ Hh). rewrite bool_decide_eq_false_2 by congruence. by apply wp_ret.
Qed.

Lemma reserve_busy now (ks : keyspace) inc id ws capacity expiresAtMs clock refreshOwned guard : heldAt now ks ->
  wp (reserve w inc id ws capacity expiresAtMs clock refreshOwned guard) now ks (fun _ ks' => ks' = ks).
Proof.
  intros Hh. unfold reserve. case_match; [done|]. apply wp_bind.
  assert (wp (reserveBody w inc id ws capacity expiresAtMs clock refreshOwned) now ks (fun _ ks' => ks' = ks)) as Hb.
  { unfold reserveBody. apply wp_read; [done| |done]. intros c. case_match; [done|].
    apply wp_read; [done| |done]. intros g. case_match; [done|].
    apply wp_bind, (held_get now ks _ Hh). rewrite bool_decide_eq_false_2 by (by apply slotOwner_ne). by apply wp_ret. }
  assert (wp (reserveScript w inc id ws capacity expiresAtMs clock refreshOwned guard) now ks (fun _ ks' => ks' = ks)) as Hs.
  { destruct guard as [g|]; cbn [reserveScript]; [|done]. apply wp_bind.
    eapply wp_mono; [apply durableAdmissionFence_wp|]. by intros [[t|x]|] ks' [-> _]. }
  eapply wp_mono; [exact Hs|]. by intros [r|] ks' ->.
Qed.

Lemma releaseSlots_avoids inc id slots latest : avoids (lockKey w) (releaseSlots w inc id slots latest).
Proof.
  assert (lockKey w <> workspaceSlotsKey w) as N by key_ne.
  revert latest. induction slots as [|n slots IH]; intros latest; cbn [releaseSlots]; [done|].
  do 3 (apply avoids_bind; [by apply avoids_rd, not_elem_of_nil|intros ?]). case_match.
  - apply avoids_bind; [|intros _; apply IH]. apply avoids_rd. cbn [writes]. by rewrite list_elem_of_singleton.
  - case_match; [|apply IH]. apply avoids_bind; [apply avoids_need|]. intros ?. apply IH.
Qed.

Lemma release_busy now (ks : keyspace) inc id : heldAt now ks ->
  wp (release w inc id) now ks (fun _ ks' => ks' !! lockKey w = ks !! lockKey w).
Proof.
  intros Hh. unfold release. apply wp_bind. eapply wp_mono; [apply wp_avoids, releaseSlots_avoids|].
  intros [l|] ks1 E1; [|done]. apply wp_read; [done| |done]. intros n.
  assert (heldAt now ks1) as Hh1 by (unfold heldAt; by rewrite (find_ext now ks ks1 (lockKey w) E1)).
  apply wp_bind, (held_get now ks1 _ Hh1). rewrite bool_decide_eq_false_2 by (intros E; injection E; by apply slotOwner_ne).
  rewrite !andb_false_r. by apply wp_ret.
Qed.

(** The assignment's own scripts on its lock. *)
Definition own {R} (p : prog R) : Prop :=
  (exists inc ttlMs reuse guard, existT (P := prog) R p = existT (P := prog) Z (acquireLockScript w aid inc ttlMs reuse guard))
  \/ existT (P := prog) R p = existT (P := prog) Z (releaseLockScript w aid).

Definition notLock (c : keyCall) : bool := negb (bool_decide (c = CLock w)).

Lemma notLock_true c : c <> CLock w -> notLock c = true.
Proof. intros Hc. unfold notLock. by apply negb_true_iff, bool_decide_eq_false. Qed.

Lemma notLock_ordinary c : isGate c = false -> ordinary c = true -> notLock c = true.
Proof. intros Hg _. apply notLock_true. by intros ->. Qed.

Lemma tame_lock {R} (p : prog R) now (ks : keyspace) : tame notLock p -> fst (eval p now ks) !! lockKey w = ks !! lockKey w.
Proof.
  intros Hp. apply eval_avoids. apply (tame_avoids notLock p (CLock w)); [done| |done].
  unfold notLock. by rewrite bool_decide_eq_true_2.
Qed.

Ltac lock_key :=
  cbn [writes]; rewrite ?not_elem_of_cons;
  repeat split; first [apply not_elem_of_nil | key_ne | by apply fenced_ne_lock].

Ltac tame_side := try done; first [exact notLock_ordinary | apply notLock_true; congruence].

Lemma wp_state {A} (p : prog A) now (ks : keyspace) : wp p now ks (fun _ ks' => ks' = ks) -> fst (eval p now ks) = ks.
Proof. done. Qed.

Lemma lock_kept R (p : prog R) : storeScript R p -> ~ own p -> forall now (ks : keyspace),
  heldAt now ks -> fst (eval p now ks) !! lockKey w = ks !! lockKey w.
Proof.
  revert R p. apply (storeScript_cases notLock (fun R p => ~ own p -> forall now (ks : keyspace),
    heldAt now ks -> fst (eval p now ks) !! lockKey w = ks !! lockKey w)).
  - apply notLock_ordinary.
  - intros R p Hp _ now ks _. by apply tame_lock.
  - intros aid' fence Ha' _ now ks _. apply tame_lock, close_tame; tame_side.
  - intros e guard Hw' Hi Ha' Hf Hp Hg _ now ks _. apply tame_lock, enqueue_tame; tame_side.
  - intros w' aid' inc ttlMs reuse guard Hw' Hn now ks Hh. destruct (decide (w' = w)) as [->|Hne].
    + destruct (decide (aid' = aid)) as [->|Hne]; [exfalso; apply Hn; left; eauto 10|].
      destruct (acquire_busy now ks aid' inc ttlMs reuse guard Hh Hne) as [_ E]. unfold wp in E. by rewrite E.
    + apply tame_lock, acquireLock_tame; tame_side.
  - intros w' aid' Hw' Hn now ks Hh. destruct (decide (w' = w)) as [->|Hne].
    + destruct (decide (aid' = aid)) as [->|Hne]; [exfalso; apply Hn; by right|].
      by rewrite (wp_state _ _ _ (releaseLock_busy now ks aid' Hh Hne)).
    + apply tame_lock, releaseLock_tame; tame_side.
  - intros w' inc id ws capacity expiresAtMs clock ro guard Hw' _ now ks Hh. destruct (decide (w' = w)) as [->|Hne].
    + by rewrite (wp_state _ _ _ (reserve_busy now ks inc id ws capacity expiresAtMs clock ro guard Hh)).
    + apply tame_lock, reserve_tame; tame_side.
  - intros w' inc id Hw' _ now ks Hh. destruct (decide (w' = w)) as [->|Hne].
    + exact (release_busy now ks inc id Hh).
    + apply tame_lock, release_tame; tame_side.
  - intros w' inc text ttl pg ei ac ii rr slots Hw' Hi _ now ks _. apply eval_avoids.
    unfold avoids, registerScript, pairingChanged, identityChanged, credentialRevoked, registerRefused, nextGeneration, andAlso.
    commands_auto lock_key.
  - intros w' aid' inc slot fence text ttl rejected identity sinc Hw' Hi Ha' Hf _ now ks _. apply eval_avoids.
    unfold avoids, settleScript, otherIdentity, getIs.
    destruct fence as [f|]; [specialize (Hf f eq_refl)|clear Hf]; commands_auto lock_key.
  - intros w' inc fence Hw' Hi Hf _ now ks _. apply eval_avoids. unfold avoids, quarantineScript.
    destruct fence as [f|]; [specialize (Hf f eq_refl)|clear Hf]; commands_auto lock_key.
  - intros w' aid' metadata inc identity epoch fence slot text ttl q Hw' Hi Ha' Hf _ now ks _. apply eval_avoids.
    unfold avoids, receiptCommitScript, receiptCurrent, receiptAction, delIfOwned, hgetIs, getIs, andAlso.
    commands_auto lock_key.
Qed.

(** A script of some replica, other than the assignment's own, before [t]. *)
Inductive rival_step {db} `{RedisServer db} (t : Z) (s s' : db) : Prop :=
| rival R (p : prog R) now r :
    storeScript R p -> ~ own p -> (now <= t)%Z -> run p now s = (s', r) -> rival_step t s s'.
End held.

(** (C36) One assignment at a time. While an assignment holds a worker's lock, no
    sequence of scripts of other assignments, other incarnations, the slot table or
    any replica changes the lock before it expires; another assignment's attempt to
    take it fails and changes nothing, with or without a durable guard. *)
Theorem lock_exclusive `{Platform} {db} `{RedisServer db} (s s' s'' : db) w aid t now other inc ttlMs reuse guard r :
  isValidBridgeWorkerId w = true -> idText aid = true ->
  content s !! lockKey w = Some (Entry (VStr aid) (Some t)) ->
  rtc (rival_step w aid t) s s' -> (now <= t)%Z -> other <> aid ->
  run (acquireLockScript w other inc ttlMs reuse guard) now s' = (s'', r) ->
  content s' !! lockKey w = Some (Entry (VStr aid) (Some t)) /\ r <> Some 1%Z /\ content s'' = content s'.
Proof.
  intros Hw Ha Hs Hr Ht Hne E.
  assert (forall u ks, (u <= t)%Z -> ks !! lockKey w = Some (Entry (VStr aid) (Some t)) -> heldAt w aid u ks) as Hheld.
  { intros u ks Hu Hk. exists (Some t). unfold find. rewrite Hk. cbn [alive e_exp]. by rewrite (proj2 (Z.leb_le _ _)). }
  assert (content s' !! lockKey w = Some (Entry (VStr aid) (Some t))) as Hs'.
  { clear E. induction Hr as [s|s1 s2 s3 [R p u x Hp Ho Hu E] _ IH]; [done|]. apply IH.
    apply run_eval_eq in E. pose proof (lock_kept w aid Hw Ha R p Hp Ho u (content s1) (Hheld u _ Hu Hs)) as Hk.
    rewrite E in Hk. cbn [fst] in Hk. by rewrite Hk. }
  split; [done|]. exact (run_wp _ _ _ _ _ _ E (acquire_busy w aid now _ other inc ttlMs reuse guard (Hheld now _ Ht Hs') Hne)).
Qed.

Lemma lock_exclusive_witness :
  let s := {[ lockKey (js "w") := Entry (VStr (js "a1")) (Some 9000%Z) ]} : keyspace in
  let s' := fst (run (release (js "w") (js "i") (js "a2")) 2000 s) in
  content s' !! lockKey (js "w") = Some (Entry (VStr (js "a1")) (Some 9000%Z))
  /\ Some 0%Z <> Some 1%Z
  /\ content (fst (run (acquireLockScript (js "w") (js "a2") (js "i") 5000 true None) 3000 s')) = content s'.
Proof.
  cbv zeta.
  apply (lock_exclusive (H := asciiPlatform) {[ lockKey (js "w") := Entry (VStr (js "a1")) (Some 9000%Z) ]} _ _
           (js "w") (js "a1") 9000 3000 (js "a2") (js "i") 5000 true None (Some 0%Z)).
  - vm_compute. reflexivity.
  - vm_compute. reflexivity.
  - apply lookup_insert_eq.
  - apply rtc_once. eapply (rival _ _ _ _ _ unit (release (js "w") (js "i") (js "a2")) 2000);
      [apply ss_release; vm_compute; reflexivity| |lia|apply run_result; reflexivity].
    intros [(inc & t & b & g & E)|E]; apply (f_equal (projT1 (P := prog))) in E; cbn [projT1] in E;
      assert (forall x y : unit, x = y) as U by (by intros [] []); rewrite E in U; specialize (U 0%Z 1%Z); discriminate.
  - lia.
  - discriminate.
  - apply run_result. vm_compute. reflexivity.
Defined.
