(* ===== verification/BridgeLeases.v ===== *)
(** * Leasing

    The hand-over of an assignment to its worker: an assignment is taken from its
    queue once and offered again until it is returned or discarded
    ([lease_handoff]), a returned lease is offered first ([lease_returned]), and a
    cleanup touches nothing another assignment owns ([cleanup_spares_others]). *)

From stdpp Require Import base list numbers option strings gmap relations.
From Stdlib Require Import ZArith Lia.
From S2P Require Import Prelude JsString Json Protocol ProtocolRequests Redis JsonText BridgeKeys BridgeAdmission BridgeSlots BridgeSlotsProofs BridgeStore BridgeStoreProofs BridgeRegistration BridgeSettlement.

(** The list without an element. *)
Definition without (x : jstr) (l : list jstr) : list jstr := List.filter (fun y => negb (bool_decide (y = x))) l.

Lemma otherIdentity_ext now w identityId (ks ks' : keyspace) :
  ks' !! workerStableIdentityKey w = ks !! workerStableIdentityKey w ->
  snd (eval (otherIdentity w identityId) now ks') = snd (eval (otherIdentity w identityId) now ks).
Proof.
  intros E. unfold otherIdentity. destruct (isEmpty identityId); unfold rd, mbind, prog_bind; cbn [eval pbind exec];
    rewrite (find_ext now ks ks') by done; [done|]. by destruct (as_str _).
Qed.

Section leasing.
Context `{Platform} (w inc : jstr) (slot : option Z) (Hw : isValidBridgeWorkerId w = true) (Hi : idText inc = true).
Context (now : Z).

(** The assignments waiting for the worker's slot, and the one it was offered. *)
Definition queueOf (ks : keyspace) : option (list jstr) := as_list (find now ks (queueKey w inc slot)).
Definition claimOf (ks : keyspace) : option (option jstr) := as_str (find now ks (leaseClaimKey w inc slot)).
Definition ackOf (ks : keyspace) : option (option jstr) := as_str (find now ks (leaseAckKey w inc slot)).

Lemma lease_keys_ne : queueKey w inc slot <> leaseClaimKey w inc slot /\ queueKey w inc slot <> leaseAckKey w inc slot
  /\ leaseClaimKey w inc slot <> leaseAckKey w inc slot.
Proof. repeat split; key_ne. Qed.

Lemma wp_lpop k (ks : keyspace) (Q : option (option jstr) -> keyspace -> Prop) :
  (as_list (find now ks k) = Some [] -> Q (Some None) ks) ->
  (forall a l, as_list (find now ks k) = Some (a :: l) -> Q (Some (Some a)) (put_list now ks k l)) ->
  Q None ks -> wp (rd (LPOP k)) now ks Q.
Proof.
  intros H1 H2 H3. apply wp_cmd; [|done]. intros ks' r E. cbn [exec] in E.
  destruct (as_list (find now ks k)) as [[|a l]|]; cbn [mbind option_bind] in E; [| |done]; injection E as <- <-; auto.
Qed.

Lemma wp_ttl k (ks : keyspace) (Q : option Z -> keyspace -> Prop) :
  (forall t, Q (Some t) ks) -> wp (rd (TTL k)) now ks Q.
Proof. intros HQ. eapply wp_known; [reflexivity|]. apply HQ. Qed.

Lemma wp_set k v t (ks : keyspace) (Q : option bool -> keyspace -> Prop) :
  Q (Some true) (<[k := Entry (VStr v) (expiry now t)]> ks) -> wp (rd (SET k v t false)) now ks Q.
Proof. intros HQ. apply wp_cmd; intros *; cbn [exec andb]; [|done]. intros E. by injection E as <- <-. Qed.

Lemma wp_del keys (ks : keyspace) (Q : option Z -> keyspace -> Prop) :
  (forall n, Q (Some n) (foldr (fun k m => delete k m) ks keys)) -> wp (rd (DEL keys)) now ks Q.
Proof. intros HQ. apply wp_cmd; intros *; cbn [exec]; [|done]. intros E. injection E as <- <-. apply HQ. Qed.

Lemma put_list_frame (ks : keyspace) k k' l : k' <> k -> put_list now ks k l !! k' = ks !! k'.
Proof. intros Hk. unfold put_list. case_decide; [by rewrite lookup_delete_ne|by apply keep_frame]. Qed.

Definition handedOver (ks ks' : keyspace) (a : jstr) : Prop :=
  (claimOf ks = Some (Some a) /\ ks' = ks)
  \/ (claimOf ks = Some None /\ exists rest, queueOf ks = Some (a :: rest) /\ queueOf ks' = Some rest
      /\ forall k, k <> queueKey w inc slot -> k <> leaseClaimKey w inc slot -> ks' !! k = ks !! k).

Lemma claimOrPop_wp identityId (ks : keyspace) :
  wp (claimOrPopLeaseScript w inc slot identityId) now ks (fun r ks' =>
    (forall a, r = Some (Some a) -> isIdentity now ks w identityId /\ claimOf ks' = Some (Some a) /\ handedOver ks ks' a)
    /\ (r = Some None -> ks' = ks)).
Proof.
  destruct lease_keys_ne as (N1 & N2 & N3).
  unfold claimOrPopLeaseScript. apply wp_bind. eapply wp_mono; [apply otherIdentity_wp|].
  intros [[]|] ks' [-> Hid]; [by apply wp_ret| |done].
  apply wp_bind, wp_get; [|done]. intros claimed Hc. destruct claimed as [a|].
  - apply wp_ret. split; [|done]. intros a' [= <-]. split; [by apply Hid|]. split; [done|]. by left.
  - apply wp_bind, wp_ttl. intros t.
    apply wp_bind, wp_lpop; [by intros _; apply wp_ret| |done]. intros a l Hl.
    apply wp_bind, wp_set, wp_ret. split; [|done]. intros a' [= <-]. split; [by apply Hid|]. unfold handedOver, claimOf, queueOf.
    assert (alive now (Entry (VStr a) (expiry now (EX (Z.max 1 t)))) = true) as Al by (apply Z.leb_le; lia).
    split; [by rewrite find_insert_eq, Al|]. right. split; [done|]. exists l. split; [done|].
    split; [by rewrite find_insert_ne, list_put_eq|]. intros k K1 K2. rewrite lookup_insert_ne by done.
    by apply put_list_frame.
Qed.

(** A free claim with a waiting assignment and the right identity. *)
Lemma claimOrPop_next identityId a l (ks : keyspace) :
  snd (eval (otherIdentity w identityId) now ks) = Some false ->
  claimOf ks = Some None -> queueOf ks = Some (a :: l) ->
  snd (eval (claimOrPopLeaseScript w inc slot identityId) now ks) = Some (Some a).
Proof.
  intros Hid Hc Hq. unfold claimOf, queueOf in *.
  change (wp (claimOrPopLeaseScript w inc slot identityId) now ks (fun r _ => r = Some (Some a))).
  unfold claimOrPopLeaseScript. apply wp_bind. eapply wp_mono;
    [apply wp_and; [apply otherIdentity_wp|exact (Hid : wp _ _ _ (fun r _ => r = Some false))]|].
  intros r ks' [[-> _] ->]. apply wp_bind. eapply wp_known; [cbn [exec]; rewrite Hc; reflexivity|].
  apply wp_bind, wp_ttl. intros t.
  apply wp_bind. eapply wp_known; [cbn [exec]; rewrite Hq; reflexivity|]. by apply wp_bind, wp_set, wp_ret.
Qed.

(** Setting an expiry in the future keeps the value. *)
Lemma expire_keeps k t (ks : keyspace) : (0 < t)%Z ->
  wp (rd (PEXPIREAT k (EX t))) now ks (fun r ks' =>
    r = Some tt /\ as_list (find now ks' k) = as_list (find now ks k)
    /\ forall k', k' <> k -> ks' !! k' = ks !! k').
Proof.
  intros Ht. destruct (find now ks k) as [e|] eqn:Ef.
  - eapply wp_known; [cbn [exec expiry]; rewrite Ef, (proj2 (Z.leb_gt _ _)) by lia; reflexivity|].
    split; [done|]. rewrite find_insert_eq. unfold alive. cbn [e_exp]. rewrite (proj2 (Z.leb_le _ _)) by lia.
    split; [by destruct e|]. intros k' Hk. by apply lookup_insert_ne.
  - eapply wp_known; [cbn [exec expiry]; rewrite Ef; reflexivity|]. by rewrite Ef.
Qed.

Lemma returnLease_wp aid l (ks : keyspace) : idText aid = true ->
  is_Some (find now ks (assignmentKey aid)) -> claimOf ks = Some (Some aid) -> queueOf ks = Some l ->
  wp (returnLeaseScript w inc slot aid) now ks (fun r ks' =>
    r = Some 1%Z /\ queueOf ks' = Some (aid :: without aid l) /\ claimOf ks' = Some None
    /\ forall k, k ∉ [queueKey w inc slot; leaseClaimKey w inc slot; leaseAckKey w inc slot] -> ks' !! k = ks !! k).
Proof.
  intros Ha Hk Hc Hq. destruct lease_keys_ne as (N1 & N2 & N3).
  unfold returnLeaseScript. apply wp_bind, wp_exists. rewrite bool_decide_eq_true_2 by done. cbn [negb].
  unfold claimOf, queueOf in *.
  apply wp_bind. eapply wp_known; [cbn [exec]; rewrite Hc; reflexivity|].
  unfold neqStr. rewrite bool_decide_eq_true_2 by done. cbn [negb].
  apply wp_bind, wp_ttl. intros t.
  apply wp_bind, wp_del. intros _. cbn [foldr]. set (ks1 := delete _ _).
  assert (forall k, k <> leaseClaimKey w inc slot -> k <> leaseAckKey w inc slot -> ks1 !! k = ks !! k) as E1.
  { intros k K1 K2. unfold ks1. by rewrite !lookup_delete_ne. }
  assert (as_list (find now ks1 (queueKey w inc slot)) = Some l) as Hq1.
  { rewrite (find_ext now ks ks1); [done|]. by apply E1. }
  apply wp_bind. eapply wp_known; [cbn [exec]; rewrite Hq1; reflexivity|]. fold (without aid l).
  set (ks2 := put_list _ _ _ _).
  apply wp_bind. eapply wp_known; [cbn [exec]; unfold ks2; rewrite list_put_eq; reflexivity|].
  set (ks3 := put_list _ _ _ _).
  assert (forall k, k <> queueKey w inc slot -> ks3 !! k = ks1 !! k) as E3.
  { intros k K. unfold ks3, ks2. by rewrite !put_list_frame. }
  assert (as_list (find now ks3 (queueKey w inc slot)) = Some (aid :: without aid l)) as Hq3 by apply list_put_eq.
  apply wp_bind.
  assert (wp (if (0 <? t)%Z then rd (PEXPIREAT (queueKey w inc slot) (EX t)) else Ret tt) now ks3 (fun r ks' =>
    r = Some tt /\ as_list (find now ks' (queueKey w inc slot)) = as_list (find now ks3 (queueKey w inc slot))
    /\ forall k', k' <> queueKey w inc slot -> ks' !! k' = ks3 !! k')) as Hx.
  { destruct (Z.ltb_spec 0 t) as [Ht|Ht]; [by apply expire_keeps|by apply wp_ret]. }
  eapply wp_mono; [exact Hx|]. intros r ks4 (-> & Eq & E4). apply wp_ret. split; [done|]. split; [by rewrite Eq|]. split.
  - rewrite (find_ext now ks1 ks4) by (rewrite E4, E3; done). unfold ks1. by rewrite find_delete_eq.
  - intros k Hk'. rewrite !not_elem_of_cons in Hk'. destruct Hk' as (K1 & K2 & K3 & _). by rewrite E4, E3, E1.
Qed.
End leasing.

(** An assignment is handed over once. When a worker's poll gets an
    assignment, the caller is the worker's bound identity and the assignment is
    claimed for it; it was either claimed before (a repeated delivery, which
    changes nothing) or was the head of the queue, which loses exactly that entry;
    no other key changes. A poll that gets nothing changes nothing. *)
Theorem lease_handoff `{Platform} {db} `{RedisServer db} (s s' : db) w inc slot identityId now r :
  isValidBridgeWorkerId w = true -> idText inc = true ->
  run (claimOrPopLeaseScript w inc slot identityId) now s = (s', Some r) ->
  match r with
  | Some a => isIdentity now (content s) w identityId
              /\ claimOf w inc slot now (content s') = Some (Some a)
              /\ handedOver w inc slot now (content s) (content s') a
  | None => content s' = content s
  end.
Proof.
  intros Hw Hi E. pose proof (run_wp _ _ _ _ _ _ E (claimOrPop_wp w inc slot Hw Hi now identityId _)) as [H1 H2].
  destruct r as [a|]; [by apply H1|by apply H2].
Qed.

Lemma lease_handoff_witness :
  let s' := fst (run (claimOrPopLeaseScript (js "w") (js "i") None []) 2000 open_example) in
  isIdentity 2000 (content open_example) (js "w") []
  /\ claimOf (js "w") (js "i") None 2000 (content s') = Some (Some (js "a1"))
  /\ handedOver (js "w") (js "i") None 2000 (content open_example) (content s') (js "a1").
Proof.
  apply (lease_handoff (H := asciiPlatform) open_example _ (js "w") (js "i") None [] 2000 (Some (js "a1")));
    [vm_compute; reflexivity..|]. apply run_result. vm_compute. reflexivity.
Defined.

(** Returning a lease undoes the hand-over. Returning a claimed assignment
    that still exists succeeds, puts it before everything that waits and frees the
    claim and its acknowledgement, touching no other key; the worker's next poll,
    by the same identity, gets it again. *)
Theorem lease_returned `{Platform} {db} `{RedisServer db} (s s' : db) w inc slot aid l identityId now r :
  isValidBridgeWorkerId w = true -> idText inc = true -> idText aid = true ->
  is_Some (find now (content s) (assignmentKey aid)) ->
  claimOf w inc slot now (content s) = Some (Some aid) -> queueOf w inc slot now (content s) = Some l ->
  run (returnLeaseScript w inc slot aid) now s = (s', r) ->
  snd (run (otherIdentity w identityId) now s) = Some false ->
  r = Some 1%Z
  /\ queueOf w inc slot now (content s') = Some (aid :: without aid l)
  /\ claimOf w inc slot now (content s') = Some None
  /\ snd (run (claimOrPopLeaseScript w inc slot identityId) now s') = Some (Some aid).
Proof.
  intros Hw Hi Ha Hk Hc Hq E Hid.
  destruct (run_wp _ _ _ _ _ _ E (returnLease_wp w inc slot Hw Hi now aid l _ Ha Hk Hc Hq)) as (-> & Hq' & Hc' & Hf).
  split; [done|]. split; [done|]. split; [done|].
  assert (snd (eval (otherIdentity w identityId) now (content s')) = Some false) as Hid'.
  { rewrite (proj2 (run_eval _ _ _)) in Hid. rewrite (otherIdentity_ext now w identityId (content s)); [done|].
    apply Hf. rewrite !not_elem_of_cons. repeat split; try apply not_elem_of_nil; key_ne. }
  rewrite (proj2 (run_eval _ _ _)). by eapply claimOrPop_next.
Qed.

Lemma lease_returned_witness :
  let s := fst (run (claimOrPopLeaseScript (js "w") (js "i") None []) 2000 open_example) in
  let s' := fst (run (returnLeaseScript (js "w") (js "i") None (js "a1")) 3000 s) in
  Some 1%Z = Some 1%Z
  /\ queueOf (js "w") (js "i") None 3000 (content s') = Some (js "a1" :: without (js "a1") [])
  /\ claimOf (js "w") (js "i") None 3000 (content s') = Some None
  /\ snd (run (claimOrPopLeaseScript (js "w") (js "i") None []) 3000 s') = Some (Some (js "a1")).
Proof.
  cbv zeta.
  apply (lease_returned (H := asciiPlatform) (fst (run (claimOrPopLeaseScript (js "w") (js "i") None []) 2000 open_example)) _
           (js "w") (js "i") None (js "a1") [] [] 3000); [vm_compute; reflexivity..|vm_compute; eauto| | |apply run_result|];
    vm_compute; reflexivity.
Defined.

(** ** Cleanup *)

Section cleaning.
Context `{Platform} (w inc aid : jstr) (slot : option Z) (fence : option jstr).
Context (Hw : isValidBridgeWorkerId w = true) (Hi : idText inc = true) (Ha : idText aid = true)
  (Hf : forall f, fence = Some f -> fenceLike f) (now : Z).

(** The value of a key that [aid] owns. *)
Definition owns (ks : keyspace) (k : jstr) : Prop := as_str (find now ks k) = Some (Some aid).

Definition fenceOrNone : jstr := default (noWorkspaceKey aid) fence.

(** A key the cleanup of [aid] may delete. *)
Definition disposable (ks : keyspace) (k : jstr) : Prop :=
  k = assignmentKey aid
  \/ (k = leaseClaimKey w inc slot /\ owns ks k)
  \/ (k = leaseAckKey w inc slot /\ (owns ks k \/ owns ks (leaseClaimKey w inc slot)))
  \/ (k = fenceOrNone /\ owns ks k).

(** Every other key keeps its value, and the queue loses [aid] alone. *)
Definition spares (ks ks' : keyspace) : Prop :=
  forall k, k <> queueKey w inc slot -> ks' !! k = ks !! k \/ disposable ks k.

Lemma spares_dels ks ks' keys : spares ks ks' -> (forall k, k ∈ keys -> disposable ks k) ->
  spares ks (foldr (fun k m => delete k m) ks' keys).
Proof.
  intros Hs Hd k Hk. destruct (decide (k ∈ keys)) as [Hin|Hin]; [right; by apply Hd|].
  rewrite delete_frame by done. by apply Hs.
Qed.

Lemma fence_ne : queueKey w inc slot <> fenceOrNone /\ leaseClaimKey w inc slot <> fenceOrNone
  /\ leaseAckKey w inc slot <> fenceOrNone /\ assignmentKey aid <> fenceOrNone.
Proof.
  unfold fenceOrNone. destruct fence as [f|]; cbn [default from_option]; unfold id;
    [pose proof (Hf f eq_refl)|]; repeat split; key_ne.
Qed.

Lemma cleanup_keys_ne : queueKey w inc slot <> assignmentKey aid /\ leaseClaimKey w inc slot <> assignmentKey aid
  /\ leaseAckKey w inc slot <> assignmentKey aid.
Proof. repeat split; key_ne. Qed.

Definition dropIf (b : bool) (keys : list jstr) (ks : keyspace) : keyspace :=
  if b then foldr (fun k m => delete k m) ks keys else ks.

Lemma dropIf_frame b keys ks k : k ∉ keys -> dropIf b keys ks !! k = ks !! k.
Proof. unfold dropIf. destruct b; [apply delete_frame|done]. Qed.

Lemma wp_dropIf (b : bool) keys (ks : keyspace) (Q : option unit -> keyspace -> Prop) :
  Q (Some tt) (dropIf b keys ks) -> wp (if b then rd (DEL keys);; Ret tt else Ret tt) now ks Q.
Proof. unfold dropIf. intros HQ. destruct b; [apply wp_bind, wp_del; intros _|]; by apply wp_ret. Qed.

Lemma wp_ownedIf (b : bool) k (ks : keyspace) (Q : option bool -> keyspace -> Prop) :
  (forall r : bool, (r = true -> b = true /\ owns ks k) -> (b = true -> owns ks k -> r = true) -> Q (Some r) ks) ->
  Q None ks -> wp (andAlso b (getIs k aid)) now ks Q.
Proof.
  intros HQ Hn. unfold andAlso. destruct b; [|apply wp_ret, HQ; done].
  apply wp_getIs; [|done]. intros o Ho. apply HQ; unfold owns; rewrite Ho; [intros Hb; bools; by subst|].
  intros _ E. apply bool_decide_eq_true_2. congruence.
Qed.

Lemma wp_owned k (ks : keyspace) (Q : option bool -> keyspace -> Prop) :
  (forall r : bool, (r = true -> owns ks k) -> Q (Some r) ks) -> Q None ks -> wp (getIs k aid) now ks Q.
Proof. intros HQ Hn. apply (wp_ownedIf true); [|done]. intros r H1 _. apply HQ. intros Hr. by apply H1. Qed.

(** What the cleanup ends with. *)
Definition cleaned (l : list jstr) (ks ks' : keyspace) (r : option Z) : Prop :=
  spares ks ks' /\ queueOf w inc slot now ks' = Some (without aid l)
  /\ match r with
     | None => True
     | Some n =>
         if (n =? -1)%Z then owns ks' fenceOrNone /\ ks' !! assignmentKey aid = ks !! assignmentKey aid
         else ks' !! assignmentKey aid = None /\ (is_Some slot -> ~ owns ks' fenceOrNone)
     end.

(** One conditional deletion of the cleanup. *)
Lemma spares_dropIf b keys l ks ks' :
  spares ks ks' /\ queueOf w inc slot now ks' = Some l ->
  (b = true -> Forall (fun k => disposable ks k /\ k <> queueKey w inc slot) keys) ->
  spares ks (dropIf b keys ks') /\ queueOf w inc slot now (dropIf b keys ks') = Some l.
Proof.
  intros [Hs Hq] Hk. unfold dropIf. destruct b; [|done]. specialize (Hk eq_refl). rewrite Forall_forall in Hk. split.
  - apply spares_dels; [done|]. intros k Hin. by apply Hk.
  - unfold queueOf in *. rewrite find_dels_ne; [done|]. intros Hin. by apply Hk in Hin as [_ ?].
Qed.

Ltac not_listed := rewrite ?not_elem_of_cons; repeat split; first [apply not_elem_of_nil | done | by apply not_eq_sym].
Ltac each_disposable :=
  repeat apply Forall_cons_2; try apply Forall_nil_2; (split; [unfold disposable; tauto|first [done | by apply not_eq_sym]]).

Lemma cleanup_wp l (ks : keyspace) : queueOf w inc slot now ks = Some l ->
  wp (cleanupScript w inc aid slot fence) now ks (fun r ks' => cleaned l ks ks' r).
Proof.
  intros Hq. destruct (lease_keys_ne w inc slot Hw Hi) as (N1 & N2 & N3).
  destruct fence_ne as (F1 & F2 & F3 & F4). destruct cleanup_keys_ne as (K1 & K2 & K3).
  unfold cleanupScript. fold fenceOrNone.
  apply wp_bind. eapply wp_known; [cbn [exec]; unfold queueOf in Hq; rewrite Hq; reflexivity|].
  fold (without aid l). set (ks1 := put_list _ _ _ _). set (queued := (_ - _)%Z).
  assert (forall k, k <> queueKey w inc slot -> ks1 !! k = ks !! k) as E1 by (intros k Hk; by apply put_list_frame).
  assert (forall k, k <> queueKey w inc slot -> owns ks1 k <-> owns ks k) as O1.
  { intros k Hk. unfold owns. by rewrite (find_ext now ks ks1 k (E1 k Hk)). }
  assert (queueOf w inc slot now ks1 = Some (without aid l)) as Q1 by apply list_put_eq.
  assert (spares ks ks1 /\ queueOf w inc slot now ks1 = Some (without aid l)) as S1 by (split; [intros k Hk; left; by apply E1|done]).
  assert (ks1 !! assignmentKey aid = ks !! assignmentKey aid) as A1 by (by apply E1, not_eq_sym).
  apply wp_bind, wp_owned; [|by destruct S1]. intros claimed Hc. rewrite O1 in Hc by done.
  apply wp_bind, wp_owned; [|by destruct S1]. intros acked Hk. rewrite O1 in Hk by done.
  apply wp_bind, wp_ownedIf; [|by destruct S1]. intros und Hu _. rewrite O1 in Hu by done.
  apply wp_bind, wp_dropIf. set (ks2 := dropIf und _ ks1).
  assert (spares ks ks2 /\ queueOf w inc slot now ks2 = Some (without aid l)) as S2.
  { apply spares_dropIf; [done|]. intros [_ Ho]%Hu. each_disposable. }
  assert (ks2 !! assignmentKey aid = ks1 !! assignmentKey aid) as A2 by (apply dropIf_frame; not_listed).
  apply wp_bind, wp_dropIf. set (ks3 := dropIf _ _ ks2).
  assert (spares ks ks3 /\ queueOf w inc slot now ks3 = Some (without aid l)) as S3.
  { apply spares_dropIf; [done|]. intros [Ho%Hc _]%andb_true_iff. each_disposable. }
  assert (ks3 !! assignmentKey aid = ks2 !! assignmentKey aid) as A3 by (apply dropIf_frame; not_listed).
  apply wp_bind, wp_ownedIf; [|by destruct S3]. intros retained Hr Hr'.
  destruct retained; [apply wp_ret; destruct S3; split; [done|]; split; [done|]; split; [by apply Hr|congruence]|].
  apply wp_bind, wp_ownedIf; [|by destruct S3]. intros running Hu' _.
  destruct running; [apply wp_ret; destruct S3; split; [done|]; split; [done|]; split; [by apply Hu'|congruence]|].
  apply wp_bind, wp_dropIf. set (ks4 := dropIf claimed _ ks3). apply wp_bind, wp_dropIf. set (ks5 := dropIf acked _ ks4).
  assert (spares ks ks5 /\ queueOf w inc slot now ks5 = Some (without aid l)) as S5.
  { apply spares_dropIf; [apply spares_dropIf; [done|]|]; [intros Ho%Hc|intros Ho%Hk]; each_disposable. }
  eapply wp_known; [reflexivity|].
  apply (spares_dropIf true [assignmentKey aid]) in S5 as [S6 Q6]; [|intros _; each_disposable].
  split; [done|]. split; [done|]. rewrite (proj2 (Z.eqb_neq _ _)) by (unfold count_live; lia). split.
  - apply delete_in. by apply list_elem_of_singleton.
  - intros Hs Ho. specialize (Hr' (bool_decide_eq_true_2 _ Hs)). unfold owns in *.
    rewrite (find_ext now ks3) in Ho; [by apply Hr' in Ho|]. rewrite delete_frame by not_listed.
    unfold ks5, ks4. by rewrite !dropIf_frame by not_listed.
Qed.
End cleaning.

(** A delayed cleanup never takes what another assignment owns. Whatever the
    cleanup of an assignment finds, every key other than the queue is unchanged
    unless it is the assignment's record, its own claim, the acknowledgement of its
    own claim, or its own fence; the queue loses this assignment alone; the
    workspace of a running assignment is retained, with its record, when the result
    is -1, and otherwise the record is gone and a leased workspace is no longer
    fenced by it. *)
Theorem cleanup_spares_others `{Platform} {db} `{RedisServer db} (s s' : db) w inc aid slot fence now l r :
  isValidBridgeWorkerId w = true -> idText inc = true -> idText aid = true -> (forall f, fence = Some f -> fenceLike f) ->
  queueOf w inc slot now (content s) = Some l ->
  run (cleanupScript w inc aid slot fence) now s = (s', r) ->
  cleaned w inc aid slot fence now l (content s) (content s') r.
Proof.
  intros Hw Hi Ha Hf Hq E. exact (run_wp _ _ _ _ _ _ E (cleanup_wp w inc aid slot fence Hw Hi Ha Hf now l _ Hq)).
Qed.

(** The cleanup of "a0" outlives its lock: "a1" is queued in the meantime. *)
Lemma cleanup_spares_others_witness :
  cleaned (js "w") (js "i") (js "a0") None None 2000 [js "a1"] (content open_example)
    (content (fst (run (cleanupScript (js "w") (js "i") (js "a0") None None) 2000 open_example))) (Some 0%Z).
Proof.
  apply (cleanup_spares_others (H := asciiPlatform)); [vm_compute; reflexivity..|done| |apply run_result];
    vm_compute; reflexivity.
Defined.
