(* ===== verification/BridgeEnqueue.v ===== *)
(** * Enqueueing an assignment

    What a successful [enqueueScript] needs and leaves behind, and that a refused
    one changes nothing ([enqueue_accepted]). *)

From stdpp Require Import base list numbers option strings gmap relations.
From Stdlib Require Import ZArith Lia.
From S2P Require Import Prelude JsString Json Protocol ProtocolRequests Redis JsonText BridgeKeys BridgeAdmission BridgeSlots BridgeSlotsProofs BridgeStore BridgeStoreProofs BridgeRegistration BridgeSettlement BridgeLeases.

(** A key with one ending is not a key with another. *)
Lemma ends_ne (a b s t : jstr) : last s <> last t -> s <> [] -> t <> [] -> a ++ s <> b ++ t.
Proof.
  intros Hl Hs Ht E. apply (f_equal last) in E. rewrite !last_app in E.
  destruct (last s) eqn:E1; [|by apply last_None in E1]. destruct (last t) eqn:E2; [|by apply last_None in E2]. congruence.
Qed.

Lemma fenceLike_app `{Platform} k s : fenceLike k -> fenceLike (k ++ s).
Proof. intros (w & f & t & Hw & ->). exists w, f, (t ++ s). by rewrite app_assoc. Qed.

Section enqueueing.
Context `{Platform} (e : enqueueArgs) (now : Z).

(** The key of a workspace of this worker. *)
Definition fenceOf (k : jstr) : Prop := exists x, k = workspaceQuarantineKey (e_worker e) x.

Context (Hw : isValidBridgeWorkerId (e_worker e) = true) (Hi : idText (e_incarnation e) = true)
  (Ha : idText (e_assignment e) = true) (Ht : (0 < e_ttl e)%Z)
  (Hf : forall f, e_fence e = Some f -> fenceOf f)
  (Hp : forall n f, e_lease e = Some (n, LaneScope f) -> fenceOf f).

Lemma fenceOf_like k : fenceOf k -> fenceLike k.
Proof. intros [x ->]. exists (e_worker e), x, []. by rewrite app_nil_r. Qed.

Lemma fenceOf_ne k k' s : fenceOf k -> last s <> Some 100%Z -> s <> [] -> k <> k' ++ s.
Proof.
  intros [x ->] Hl Hs. unfold workspaceQuarantineKey. rewrite !app_assoc. apply ends_ne; [|done|done].
  intros E. by rewrite <- E in Hl.
Qed.

(** What the workspace needs to be free. *)
Definition workspaceFree (ks : keyspace) : Prop :=
  (forall f, e_fence e = Some f -> find now ks f = None)
  /\ match e_lease e with
     | Some (_, LaneScope parentFence) => find now ks parentFence = None
     | Some (_, CheckoutScope laneFences) => e_fence e = None \/ forall f, f ∈ laneFences -> find now ks f = None
     | None => True
     end.

Lemma not_found ks k : ~ is_Some (find now ks k) -> find now ks k = None.
Proof. destruct (find now ks k); [|done]. intros []. eauto. Qed.

Lemma anyExists_wp keys (ks : keyspace) :
  wp (anyExists keys) now ks (fun r ks' => ks' = ks /\ (r = Some false -> forall k, k ∈ keys -> find now ks k = None)).
Proof.
  induction keys as [|k keys IH]; cbn [anyExists]; [apply wp_ret; split; [done|]; intros _ k Hk; by apply elem_of_nil in Hk|].
  apply wp_bind, wp_exists. destruct (bool_decide_reflect (is_Some (find now ks k))) as [Hk|Hk]; [by apply wp_ret|].
  eapply wp_mono; [exact IH|]. intros r ks' [-> Hr]. split; [done|]. intros E k' [-> | Hk']%elem_of_cons; [by apply not_found|].
  by apply Hr.
Qed.

Lemma sremAll_only index members : onlyWrites [index] (sremAll index members).
Proof.
  unfold onlyWrites. induction members as [|m members IH]; cbn [sremAll]; [done|].
  apply commands_bind; [|intros _; exact IH]. apply commands_rd. cbn [writes]. auto.
Qed.

Definition laneIndexes : list jstr := match e_fence e with Some f => [workspaceLaneFenceIndexKey f] | None => [] end.

Lemma workspaceBlocked_wp (ks : keyspace) :
  wp (workspaceBlocked e) now ks (fun r ks' =>
    (r = Some true -> ks' = ks) /\ (r = Some false -> workspaceFree ks)
    /\ forall k, k ∉ laneIndexes -> ks' !! k = ks !! k).
Proof.
  unfold workspaceBlocked, workspaceFree, laneIndexes. apply wp_bind.
  assert (wp (match e_fence e with Some f => rd (EXISTS f) | None => Ret false end) now ks (fun r ks' =>
    ks' = ks /\ (r = Some false -> forall f, e_fence e = Some f -> find now ks f = None))) as Ho.
  { destruct (e_fence e) as [f|]; [|by apply wp_ret]. apply wp_exists. split; [done|]. intros [= Hb] f' [= <-]. bools.
    by apply not_found. }
  eapply wp_mono; [exact Ho|]. intros [[]|] ks' [-> Hown]; [by apply wp_ret| |done]. specialize (Hown eq_refl).
  destruct (e_lease e) as [[n [pf|lanes]]|]; [| |by apply wp_ret].
  - apply wp_exists. split; [done|]. split; [|done]. intros [= Hb]. bools. split; [done|]. by apply not_found.
  - destruct (e_fence e) as [f|]; [|apply wp_ret; split; [done|]; split; [|done]; intros _; by split; [|left]].
    apply wp_bind. eapply wp_mono; [apply anyExists_wp|]. intros [[]|] ks' [-> Hany]; [by apply wp_ret| |done].
    apply wp_bind. eapply wp_mono; [apply onlyWrites_wp, sremAll_only|]. intros [[]|] ks' Hk; [|done].
    apply wp_ret. split; [done|]. split; [|done]. intros _. split; [done|]. right. by apply Hany.
Qed.

(** ** The writes *)

Lemma wp_skip {A B} (p : prog A) (f : A -> prog B) (ks : keyspace) (Q : option B -> keyspace -> Prop) :
  (forall a ks', wp (f a) now ks' Q) -> (forall ks', Q None ks') -> wp (p ≫= f) now ks Q.
Proof. intros H1 H2. apply wp_bind. eapply wp_mono; [apply wp_true|]. by intros [a|] ks' _. Qed.

(** A value set for a key the rest of the script leaves alone. *)
Lemma wp_set_kept {A} k v t (q : prog A) (ks : keyspace) : avoids k q ->
  wp (rd (SET k v t false);; q) now ks (fun r ks' => ks' !! k = Some (Entry (VStr v) (expiry now t))).
Proof.
  intros Hq. apply wp_bind, wp_set. eapply wp_mono; [by apply wp_avoids|]. intros r ks' E. rewrite E. apply lookup_insert_eq.
Qed.

Ltac enqueue_key :=
  cbn [writes]; rewrite ?not_elem_of_cons; unfold workspaceLaneFenceIndexKey; repeat split;
  first [ apply not_elem_of_nil | key_ne | apply fenceOf_ne; [assumption | by vm_compute | done] ].

(** The commands of the tail, by the kind of workspace. *)
Ltac fenced_tail f Ef :=
  pose proof (Hf f Ef) as Hf0; pose proof (fenceOf_like f Hf0) as Hf1;
  pose proof (fenceLike_app f (js ":epoch") Hf1) as Hf2;
  (destruct (e_lease e) as [[n [pf|lanes]]|] eqn:El;
   [ pose proof (fenceLike_app pf (js ":lanes") (fenceOf_like pf (Hp n pf eq_refl))) as Hp1 | | ]);
  commands_auto enqueue_key.
Ltac enqueue_tail :=
  unfold avoids, writeReceipt;
  let f := fresh "f" in let Ef := fresh "Ef" in
  destruct (e_fence e) as [f|] eqn:Ef; [fenced_tail f (eq_refl (Some f)) | commands_auto enqueue_key].

Abbreviation waiting := (queueKey (e_worker e) (e_incarnation e) (slotOf e)).

(** What a successful enqueue leaves behind. *)
Record enqueuedState (l : list jstr) (ks : keyspace) : Prop := {
  enq_assignment : ks !! assignmentKey (e_assignment e) = Some (Entry (VStr (e_text e)) (Some (now + e_ttl e * 1000)%Z));
  enq_queue : as_list (find now ks waiting) = Some (l ++ [e_assignment e]);
  enq_gate : ks !! assignmentDeadlineKey (e_assignment e) = Some (Entry (VStr (js "1")) (Some (e_expiresAtMs e)));
  enq_fence : forall f, e_fence e = Some f -> ks !! f = Some (Entry (VStr (e_assignment e)) None);
}.

Lemma writes_assignment (ks : keyspace) : wp (enqueueWrites e) now ks (fun _ ks' =>
  ks' !! assignmentKey (e_assignment e) = Some (Entry (VStr (e_text e)) (Some (now + e_ttl e * 1000)%Z))).
Proof. unfold enqueueWrites. apply wp_set_kept. enqueue_tail. Qed.

Lemma writes_queue l (ks : keyspace) : as_list (find now ks waiting) = Some l ->
  wp (enqueueWrites e) now ks (fun _ ks' => as_list (find now ks' waiting) = Some (l ++ [e_assignment e])).
Proof.
  intros Hq. unfold enqueueWrites. apply wp_bind, wp_set.
  apply wp_bind. eapply wp_known.
  { cbn [exec]. rewrite find_insert_ne by key_ne. rewrite Hq. reflexivity. }
  apply wp_bind. eapply wp_mono; [by apply expire_keeps|]. intros r ks' (-> & E & _). rewrite list_put_eq in E.
  match goal with |- wp ?p now ks' _ => assert (avoids waiting p) as Hav by enqueue_tail end.
  eapply wp_mono; [apply wp_avoids, Hav|]. intros r ks'' E'. by rewrite (find_ext now ks' ks'' _ E').
Qed.

Lemma writes_gate (ks : keyspace) : wp (enqueueWrites e) now ks (fun r ks' => is_Some r ->
  ks' !! assignmentDeadlineKey (e_assignment e) = Some (Entry (VStr (js "1")) (Some (e_expiresAtMs e)))).
Proof.
  unfold enqueueWrites. do 4 (apply wp_skip; [intros _ ?|by intros ? []]).
  eapply wp_mono; [apply wp_set_kept; enqueue_tail|]. auto.
Qed.

Lemma writes_fence f (ks : keyspace) : e_fence e = Some f -> wp (enqueueWrites e) now ks (fun r ks' => is_Some r ->
  ks' !! f = Some (Entry (VStr (e_assignment e)) None)).
Proof.
  intros Ef. unfold enqueueWrites. do 5 (apply wp_skip; [intros _ ?|by intros ? []]). rewrite Ef.
  eapply wp_mono; [apply wp_set_kept|auto]. unfold avoids, writeReceipt. fenced_tail f Ef.
Qed.

Lemma enqueueWrites_wp l (ks : keyspace) : as_list (find now ks waiting) = Some l ->
  wp (enqueueWrites e) now ks (fun r ks' => is_Some r -> enqueuedState l ks').
Proof.
  intros Hq. pose proof (writes_assignment ks) as H1. pose proof (writes_queue l ks Hq) as H2.
  pose proof (writes_gate ks) as H3. pose proof (fun f Ef => writes_fence f ks Ef) as H4. unfold wp in *.
  intros Hr. split; auto.
Qed.
(** ** The script *)

(** The state in which an assignment may be enqueued. *)
Record enqueueable (ks : keyspace) : Prop := {
  able_incarnation : as_str (find now ks (workerIncarnationKey (e_worker e))) = Some (Some (e_incarnation e));
  able_ready : isEmpty (e_readyToken e) = false ->
    as_str (find now ks (workerReadyKey (e_worker e))) = Some (Some (e_readyToken e));
  able_free : workspaceFree ks;
}.

Lemma index_ne f k : fenceOf f -> k = waiting \/ k = assignmentKey (e_assignment e) -> k <> workspaceLaneFenceIndexKey f.
Proof.
  intros Hk Hc. pose proof (fenceLike_app f (js ":lanes") (fenceOf_like f Hk)) as HL. unfold workspaceLaneFenceIndexKey.
  destruct Hc as [-> | ->]; key_ne.
Qed.

Lemma enqueueBody_wp l (ks : keyspace) : as_list (find now ks waiting) = Some l ->
  wp (enqueueBody e) now ks (fun r ks' =>
    (r = Some 1%Z -> enqueueable ks /\ enqueuedState l ks') /\ (r <> Some 1%Z -> r <> None -> ks' = ks)).
Proof.
  intros Hq. unfold enqueueBody. apply wp_bind, wp_get; [|done]. intros current Hcur. unfold neqStr.
  destruct (bool_decide_reflect (current = Some (e_incarnation e))) as [->|Hne]; cbn [negb]; [|by apply wp_ret].
  apply wp_bind.
  assert (wp (andAlso (negb (isEmpty (e_readyToken e)))
      (token ← rd (GET (workerReadyKey (e_worker e))); Ret (negb (bool_decide (token = Some (e_readyToken e)))))) now ks
    (fun r ks' => ks' = ks /\ (r = Some false -> isEmpty (e_readyToken e) = false ->
       as_str (find now ks (workerReadyKey (e_worker e))) = Some (Some (e_readyToken e))))) as Hready.
  { unfold andAlso. destruct (isEmpty (e_readyToken e)); cbn [negb]; [by apply wp_ret|].
    apply wp_bind, wp_get; [|done]. intros o Ho. apply wp_ret. split; [done|]. intros [= Hb] _. bools. by rewrite Ho, Hb. }
  eapply wp_mono; [exact Hready|]. clear Hready. intros [[]|] ks' [-> Hready]; [by apply wp_ret| |done].
  apply wp_bind. eapply wp_mono; [apply workspaceBlocked_wp|]. intros [[]|] ks1 (Hb1 & Hb2 & Hk);
    [apply wp_ret; split; [done|]; intros _ _; by apply Hb1| |done].
  assert (as_list (find now ks1 waiting) = Some l) as Hq1.
  { rewrite (find_ext now ks ks1); [done|]. apply Hk. unfold laneIndexes. destruct (e_fence e) as [f|]; [|apply not_elem_of_nil].
    rewrite list_elem_of_singleton. apply index_ne; [by apply Hf|by left]. }
  apply wp_bind. eapply wp_mono; [by apply enqueueWrites_wp|]. intros [[]|] ks2 Hs; [|done]. apply wp_ret. split; [|done].
  intros _. split; [|apply Hs; eauto]. split; [done|by apply Hready|by apply Hb2].
Qed.

(** The durable request may still be admitted by the holder of its claim. *)
Definition guardOpen (g : DurableWorkspaceGuard) (ks : keyspace) : Prop :=
  as_str (find now ks (g_claimKey g)) = Some (Some (g_token g))
  /\ exists h deadline, as_hash (find now ks (g_key g)) = Some h
     /\ h !! js "state" = Some (js "queued") /\ h !! js "cancelRequested" <> Some (js "1")
     /\ h !! js "queueDeadlineAtMs" ≫= tonumber = Some deadline /\ (now < deadline)%Z.

Lemma wp_hget_known {A} k f (p : option jstr -> prog A) (ks : keyspace) (Q : option A -> keyspace -> Prop) :
  (forall h, as_hash (find now ks k) = Some h -> wp (p (h !! f)) now ks Q) -> Q None ks ->
  wp (rd (HGET k f) ≫= p) now ks Q.
Proof.
  intros HQ Hn. apply wp_bind, wp_cmd; [|done]. intros ks' r E. cbn [exec] in E.
  destruct (as_hash (find now ks k)) as [h|]; cbn [mbind option_bind] in E; [|done]. injection E as <- <-. by apply HQ.
Qed.

Lemma durableAdmissionFence_open g rejected (ks : keyspace) :
  wp (durableAdmissionFence g rejected) now ks (fun r ks' => ks' = ks /\ match r with
    | Some (inl t) => t = now /\ guardOpen g ks | Some (inr x) => x = rejected | None => True end).
Proof.
  unfold durableAdmissionFence, admissionTime, guardOpen, neqStr.
  apply wp_bind, wp_get; [|done]. intros c Hc.
  destruct (bool_decide_reflect (c = Some (g_token g))) as [->|]; cbn [negb]; [|by apply wp_ret].
  apply wp_hget_known; [|done]. intros h Hh.
  destruct (bool_decide_reflect (h !! js "state" = Some (js "queued"))) as [Es|]; cbn [negb]; [|by apply wp_ret].
  apply wp_hget_known; [|done]. intros h1 Hh1. assert (h1 = h) as -> by congruence.
  destruct (bool_decide_reflect (h !! js "cancelRequested" = Some (js "1"))) as [|Hn]; [by apply wp_ret|].
  apply wp_bind, wp_bind. eapply wp_known; [reflexivity|]. cbn [fst snd]. apply wp_ret.
  apply wp_hget_known; [|done]. intros h2 Hh2. assert (h2 = h) as -> by congruence.
  apply wp_bind, wp_need. destruct (h !! js "queueDeadlineAtMs" ≫= tonumber) as [d|] eqn:Ed; [|done].
  assert (now / 1000 * 1000 + now mod 1000 * 1000 / 1000 = now)%Z as En.
  { rewrite Z.div_mul by lia. pose proof (Z.div_mod now 1000). lia. }
  rewrite En. destruct (Z.leb_spec d now); [by apply wp_ret|]. apply wp_ret. split; [done|]. split; [done|]. split; [done|].
  by exists h, d.
Qed.
(** The request holds the worker's lock, or its slot. *)
Definition reserved (ks : keyspace) : Prop :=
  match slotOf e with
  | None => as_str (find now ks (lockKey (e_worker e))) = Some (Some (e_assignment e))
            /\ as_str (find now ks (lockIncarnationKey (e_worker e))) = Some (Some (e_incarnation e))
  | Some n => exists h, as_hash (find now ks (workspaceSlotsKey (e_worker e))) = Some h
            /\ h !! (js "a:" ++ dec n) = Some (e_assignment e) /\ h !! (js "i:" ++ dec n) = Some (e_incarnation e)
  end.

Lemma stillReserved_wp (ks : keyspace) :
  wp (stillReserved e) now ks (fun r ks' => ks' = ks /\ (r = Some true -> reserved ks)).
Proof.
  unfold stillReserved, reserved, andAlso, hgetIs. destruct (slotOf e) as [n|].
  - apply wp_bind, wp_hget_known; [|done]. intros h Hh. apply wp_ret.
    destruct (bool_decide_reflect (h !! (js "a:" ++ dec n) = Some (e_assignment e))) as [Ea|]; [|by apply wp_ret].
    apply wp_hget_known; [|done]. intros h' Hh'. assert (h' = h) as -> by congruence. apply wp_ret. split; [done|].
    intros [= Hb]. bools. by exists h.
  - apply wp_bind, wp_getIs; [|done]. intros o Ho.
    destruct (bool_decide_reflect (o = Some (e_assignment e))) as [->|]; [|by apply wp_ret].
    apply wp_getIs; [|done]. intros o' Ho'. split; [done|]. intros [= Hb]. bools. by rewrite Ho', Hb.
Qed.

(** What the durable request's guard adds. *)
Definition guarded (guard : option DurableWorkspaceGuard) (ks ks' : keyspace) : Prop :=
  forall g, guard = Some g ->
    guardOpen g ks /\ reserved ks
    /\ exists h, as_hash (find now ks' (g_key g)) = Some h
       /\ h !! js "state" = Some (js "admitted") /\ h !! js "assignment" = Some (e_text e).

Lemma foreign_fence_ne k f : foreign k -> fenceLike f -> f <> k.
Proof.
  intros Hk (w & x & t & _ & ->) <-. unfold foreign, workspaceQuarantineKey in Hk. rewrite <- !app_assoc in Hk.
  by rewrite startsWith_app in Hk.
Qed.

Lemma enqueuedState_frame l (ks ks' : keyspace) g : foreign g -> (forall k, k <> g -> ks' !! k = ks !! k) ->
  enqueuedState l ks -> enqueuedState l ks'.
Proof.
  intros Hg Hk [H1 H2 H3 H4].
  pose proof (keyOf_foreign_ne (CAssignment (e_assignment e)) g Hg) as N1.
  pose proof (keyOf_foreign_ne (CDeadline (e_assignment e)) g Hg) as N2.
  pose proof (keyOf_foreign_ne (CQueue (e_worker e) (e_incarnation e) (slotOf e)) g Hg) as N3. split.
  - by rewrite Hk.
  - rewrite (find_ext now ks ks'); [done|]. by apply Hk.
  - by rewrite Hk.
  - intros f Ef. rewrite Hk; [by apply H4|]. apply foreign_fence_ne; [done|]. by apply fenceOf_like, Hf.
Qed.

Lemma enqueue_wp l guard (ks : keyspace) : (forall g, guard = Some g -> foreign (g_key g)) ->
  as_list (find now ks waiting) = Some l ->
  wp (enqueueScript e guard) now ks (fun r ks' =>
    (r = Some 1%Z -> enqueueable ks /\ enqueuedState l ks' /\ guarded guard ks ks')
    /\ (r <> Some 1%Z -> r <> None -> ks' = ks)).
Proof.
  intros Hg Hq. unfold guarded. destruct guard as [g|]; cbn [enqueueScript].
  - specialize (Hg g eq_refl). apply wp_bind. eapply wp_mono; [apply durableAdmissionFence_open|].
    intros [[t|x]|] ks' [-> Ho]; [|subst x; by apply wp_ret|done]. destruct Ho as [-> Ho].
    apply wp_bind. eapply wp_mono; [apply stillReserved_wp|]. intros [[]|] ks' [-> Hr]; cbn [negb]; [|by apply wp_ret|done].
    apply wp_bind. eapply wp_mono; [by apply enqueueBody_wp|]. intros [r|] ks1 [H1 H2]; [|done].
    destruct (Z.eqb_spec r 1) as [->|Hne]; [|apply wp_ret; split; [congruence|]; intros _ _; apply H2; congruence].
    destruct (H1 eq_refl) as [Hable Hst]. apply wp_bind, wp_cmd; [|done]. intros ks2 u E.
    assert (forall k, k <> g_key g -> ks2 !! k = ks1 !! k) as Hk.
    { intros k Hk. eapply exec_frame; [exact E|]. cbn [writes]. by rewrite list_elem_of_singleton. }
    cbn [exec] in E. destruct (as_hash (find now ks1 (g_key g))) as [h|]; cbn [mbind option_bind] in E; [|done].
    injection E as <- _. apply wp_ret. split; [|done]. intros _. split; [done|]. split; [by eapply enqueuedState_frame|].
    intros g' [= <-]. split; [done|]. split; [by apply Hr|]. eexists. rewrite hash_put_eq. split; [done|]. cbn [foldl fst snd].
    split; [by rewrite lookup_insert_ne, lookup_insert_ne, lookup_insert_eq|by rewrite lookup_insert_ne, lookup_insert_eq].
  - eapply wp_mono; [by apply enqueueBody_wp|]. intros r ks' [H1 H2]. split; [|done]. intros E. by destruct (H1 E).
Qed.
End enqueueing.

(** Work reaches a worker only through a free workspace. If an enqueue
    succeeds, its incarnation is the active one and confirmed ready, neither the
    workspace nor its checkout nor (for a checkout) a lane beneath it was fenced,
    and a durable request was still queued, not cancelled, before its deadline,
    held by its claimant, with its lock or slot; afterwards the assignment is
    stored, is the last of its queue, may be fulfilled until its deadline, fences
    the workspace with no expiry, and a durable request is admitted with it. Every
    refusal leaves the keyspace as it was. *)
Theorem enqueue_accepted `{Platform} {db} `{RedisServer db} (e : enqueueArgs) (s s' : db) guard now l r :
  isValidBridgeWorkerId (e_worker e) = true -> idText (e_incarnation e) = true -> idText (e_assignment e) = true ->
  (0 < e_ttl e)%Z -> (forall f, e_fence e = Some f -> fenceOf e f) ->
  (forall n f, e_lease e = Some (n, LaneScope f) -> fenceOf e f) -> (forall g, guard = Some g -> foreign (g_key g)) ->
  as_list (find now (content s) (queueKey (e_worker e) (e_incarnation e) (slotOf e))) = Some l ->
  run (enqueueScript e guard) now s = (s', Some r) ->
  (r = 1%Z -> enqueueable e now (content s) /\ enqueuedState e now l (content s')
     /\ guarded e now guard (content s) (content s'))
  /\ (r <> 1%Z -> content s' = content s).
Proof.
  intros Hw Hi Ha Ht Hf Hp Hg Hq E.
  destruct (run_wp _ _ _ _ _ _ E (enqueue_wp e now Hw Hi Ha Ht Hf Hp l guard _ Hg Hq)) as [H1 H2].
  split; [intros ->; by apply H1|]. intros Hr. apply H2; congruence.
Qed.

(** A lane of workspace "ws" is enqueued; the same lane again is refused. *)
Definition lane_args (aid : jstr) : enqueueArgs :=
  EnqueueArgs (js "w") aid (js "i") (js "{}") (js "{}") 60 90000 []
    (Some (workspaceQuarantineKey (H := asciiPlatform) (js "w") (js "lane")))
    (Some (1%Z, LaneScope (workspaceQuarantineKey (H := asciiPlatform) (js "w") (js "ws")))) 120.

Definition active_example : keyspace :=
  {[ workerIncarnationKey (js "w") := Entry (VStr (js "i")) None ]}.
Definition enqueued_example : keyspace := fst (run (enqueueScript (lane_args (js "a1")) None) 1000 active_example).

Lemma enqueue_accepted_witness :
  (enqueueable (lane_args (js "a1")) 1000 (content active_example)
   /\ enqueuedState (lane_args (js "a1")) 1000 [] (content enqueued_example))
  /\ content (fst (run (enqueueScript (lane_args (js "a2")) None) 2000 enqueued_example)) = content enqueued_example.
Proof.
  assert (forall a k, k = workspaceQuarantineKey (H := asciiPlatform) (js "w") (js "lane")
    \/ k = workspaceQuarantineKey (H := asciiPlatform) (js "w") (js "ws") -> fenceOf (H := asciiPlatform) (lane_args a) k) as Hk.
  { intros a k [-> | ->]; eexists; reflexivity. }
  split.
  - assert (1 = 1)%Z as E by reflexivity. revert E.
    destruct (enqueue_accepted (H := asciiPlatform) (lane_args (js "a1")) active_example enqueued_example None 1000 [] 1) as [H1 _];
      [vm_compute; reflexivity..|by intros f [= <-]; apply Hk; left|by intros n f [= <- <-]; apply Hk; right|done|
       vm_compute; reflexivity|apply run_result; vm_compute; reflexivity|].
    intros E. destruct (H1 E) as (Ha & Hs & _). done.
  - destruct (enqueue_accepted (H := asciiPlatform) (lane_args (js "a2")) enqueued_example
      (fst (run (enqueueScript (lane_args (js "a2")) None) 2000 enqueued_example)) None 2000 [js "a1"] (-1)) as [_ H2];
      [vm_compute; reflexivity..|by intros f [= <-]; apply Hk; left|by intros n f [= <- <-]; apply Hk; right|done|
       vm_compute; reflexivity|apply run_result; vm_compute; reflexivity|by apply H2].
Defined.
