(* ===== verification/BridgeRuns.v ===== *)
(** * What a run of a method sends

    [does N m Q]: every run of the method [m] sends events that satisfy [N] and
    ends in an outcome that satisfies [Q], whatever the server replies and the
    other replicas do. A script is quiet when it cannot put an assignment on a
    worker's queue; every script of the bridge is, but the enqueue and the return
    of a lease. *)

From stdpp Require Import base list numbers option strings gmap relations.
From Stdlib Require Import ZArith Lia.
From S2P Require Import Prelude JsString Json Protocol Redis JsonText BridgeKeys BridgeAdmission BridgeSlots BridgeStore Async BridgeRouting BridgeMethods BridgeDispatch BridgeSlotsProofs BridgeStoreProofs.

(** ** Properties of traces *)

Class TraceProp (N : list event -> Prop) : Prop := {
  trace_nil : N [];
  trace_app a b : N a -> N b -> N (a ++ b);
}.

#[global] Instance any_trace : TraceProp (fun _ => True).
Proof. by split. Qed.

#[global] Instance forall_trace (P : event -> Prop) : TraceProp (Forall P).
Proof. split; [apply Forall_nil_2|]. intros a b. apply Forall_app_2. Qed.

Definition does (N : list event -> Prop) {A} (m : act A) (Q : error + A -> Prop) : Prop :=
  forall tr, awp m tr (fun tr' o => exists new, tr' = tr ++ new /\ N new /\ Q o).

Ltac traces := split_and?; try reflexivity; try assumption; repeat apply trace_app; try assumption; try apply trace_nil.

Section rules.
Context (N : list event -> Prop) `{!TraceProp N}.

Lemma does_done {A} (a : A) (Q : error + A -> Prop) : Q (inr a) -> does N (Done a) Q.
Proof. intros HQ tr. cbn [awp]. exists []. rewrite app_nil_r. traces. Qed.

Lemma does_throw {A} e (Q : error + A -> Prop) : Q (inl e) -> does N (Throw e) Q.
Proof. intros HQ tr. cbn [awp]. exists []. rewrite app_nil_r. traces. Qed.

Lemma does_mono {A} (m : act A) (Q Q' : error + A -> Prop) : does N m Q -> (forall o, Q o -> Q' o) -> does N m Q'.
Proof.
  intros Hm HQ tr. eapply awp_mono; [apply Hm|]. intros tr' o (new & -> & Hn & Ho). exists new. auto.
Qed.

Lemma does_bind {A B} (m : act A) (f : A -> act B) (Q : error + B -> Prop) :
  does N m (fun o => match o with inl e => Q (inl e) | inr a => does N (f a) Q end) -> does N (m ≫= f) Q.
Proof.
  intros Hm tr. apply awp_bind. eapply awp_mono; [apply Hm|]. intros tr' [e|a] (new & -> & Hn & Ho); [by exists new|].
  eapply awp_mono; [apply Ho|]. intros tr'' o (new' & -> & Hn' & HQ). exists (new ++ new').
  rewrite app_assoc. traces.
Qed.

Lemma does_try {A} (m : act A) (Q : error + (error + A) -> Prop) : does N m (fun o => Q (inr o)) -> does N (try m) Q.
Proof. intros Hm tr. apply awp_try. apply Hm. Qed.

Lemma does_catch {A} (m : act A) h (Q : error + A -> Prop) :
  does N m (fun o => match o with inl e => does N (h e) Q | inr a => Q (inr a) end) -> does N (catch m h) Q.
Proof.
  intros Hm. unfold catch. apply does_bind, does_try. eapply does_mono; [exact Hm|]. intros [e|a] Ho; [done|].
  by apply does_done.
Qed.

Lemma does_await {R} (p : prog R) (Q : error + R -> Prop) :
  (forall r, N [Event p r]) -> (forall a, Q (inr a)) -> Q (inl CommandFailed) -> does N (await p) Q.
Proof. intros Hp H1 H2 tr. apply awp_await; [intros a|]; eauto. Qed.

Lemma does_now (Q : error + Z -> Prop) : (forall t, Q (inr t)) -> does N now_ Q.
Proof. intros HQ tr t. by apply does_done. Qed.

Lemma does_aborted (Q : error + bool -> Prop) : (forall b, Q (inr b)) -> does N aborted Q.
Proof. intros HQ tr b. by apply does_done. Qed.

Lemma does_random n (Q : error + jstr -> Prop) : (forall x, Q (inr x)) -> does N (randomBytes n) Q.
Proof. intros HQ tr x. by apply does_done. Qed.

Lemma does_delay n (Q : error + unit -> Prop) : Q (inr tt) -> does N (delay n) Q.
Proof. intros HQ tr []. by apply does_done. Qed.

Lemma does_throwIf b e (Q : error + unit -> Prop) : (b = true -> Q (inl e)) -> (b = false -> Q (inr tt)) -> does N (throwIf b e) Q.
Proof. intros H1 H2. unfold throwIf. destruct b; [apply does_throw|apply does_done]; auto. Qed.

Lemma does_needValue {A} (v : option A) (Q : error + A -> Prop) :
  (forall a, Q (inr a)) -> Q (inl OtherError) -> does N (needValue v) Q.
Proof. intros H1 H2. destruct v; [by apply does_done|by apply does_throw]. Qed.

(** A loop each of whose rounds does [N]. *)
Lemma does_loop {V B A} (v : V) (body : V -> act (V + B)) (k : B -> act A) (Q : error + A -> Prop) :
  (forall v, does N (body v) (fun o => match o with
     | inl e => Q (inl e) | inr (inl _) => True | inr (inr b) => does N (k b) Q end)) ->
  does N (Loop v body k) Q.
Proof.
  intros Hb tr. apply (awp_loop (fun _ tr' => exists new, tr' = tr ++ new /\ N new)).
  { exists []. rewrite app_nil_r. traces. }
  intros v' tr' (new & -> & Hn). eapply awp_mono; [apply Hb|].
  intros tr'' [e|[v''|b]] (new' & -> & Hn' & Ho).
  - exists (new ++ new'). rewrite app_assoc. traces.
  - exists (new ++ new'). rewrite app_assoc. traces.
  - eapply awp_mono; [apply Ho|]. intros tr3 o (new3 & -> & Hn3 & HQ). exists ((new ++ new') ++ new3).
    rewrite !app_assoc. traces.
Qed.
End rules.

(** Walk through a method: [events] proves the events of each command. *)
Ltac run_auto events :=
  repeat first
    [ progress intros
    | apply does_throwIf; [exact _| |]
    | apply does_needValue; [exact _| |]
    | apply does_await; [events| |]
    | apply does_now; [exact _|] | apply does_aborted; [exact _|]
    | apply does_delay; [exact _|] | apply does_random; [exact _|]
    | apply does_done; [exact _|] | apply does_throw; [exact _|]
    | apply does_bind; [exact _|] | apply does_try; [exact _|] | apply does_catch; [exact _|]
    | case_match ].

(** A run's trace and outcome. *)
Lemma does_sound {db} `{RedisServer db} (others : db -> db -> Prop) N {A} (m : act A) Q s tr s' o :
  performs others s m tr s' o -> does N m Q -> N tr /\ Q o.
Proof.
  intros Hp Hm. destruct (awp_sound others m s tr s' o Hp [] _ (Hm [])) as (new & E & Hn & HQ). cbn [app] in E. by subst new.
Qed.

(** ** Quiet scripts *)

Definition noPush (R : Type) (c : cmd R) : Prop := match c with RPUSH _ _ | LPUSH _ _ => False | _ => True end.

Definition quiet (ev : event) : Prop := match ev with Event p _ => commands noPush p end.

Create HintDb quietdb.
Ltac quiet_script :=
  repeat first
    [ apply commands_ret | apply commands_need | solve [apply commands_rd; exact I] | solve [auto with quietdb nocore]
    | apply commands_bind; [|intros ?] | case_match ].

Lemma quiet_read {R} (c : cmd R) : writes c = [] -> commands noPush (rd c).
Proof. intros Hc. split; [|done]. by destruct c. Qed.

Lemma forgetExpired_quiet o d ws clock : commands noPush (forgetExpired o d ws clock).
Proof.
  unfold forgetExpired. apply commands_bind; [by split|]. intros l.
  induction l as [|id l IH]; cbn [forgetAll]; [done|]. quiet_script.
Qed.

Lemma expireAll_quiet keys at_ms : commands noPush (expireAll keys at_ms).
Proof. induction keys as [|k keys IH]; cbn [expireAll]; [done|]. quiet_script. Qed.

Lemma refreshAll_quiet keys expiresAtMs clock : commands noPush (refreshAll keys expiresAtMs clock).
Proof. induction keys as [|k keys IH]; cbn [refreshAll]; [done|]. quiet_script. Qed.

Lemma durableAdmissionFence_quiet g rejected : commands noPush (durableAdmissionFence g rejected).
Proof. unfold durableAdmissionFence, admissionTime. quiet_script. Qed.

#[export] Hint Resolve forgetExpired_quiet expireAll_quiet refreshAll_quiet durableAdmissionFence_quiet : quietdb.

Lemma enter_quiet w id clock deadline capacity ws : commands noPush (enter w id clock deadline capacity ws).
Proof. unfold enter, append. quiet_script. Qed.

Lemma isHead_quiet w id clock : commands noPush (isHead w id clock).
Proof. unfold isHead. quiet_script. Qed.

Lemma scanSlots_quiet w inc id capacity expiresAtMs clock ro slots st :
  commands noPush (scanSlots w inc id capacity expiresAtMs clock ro slots st).
Proof.
  revert st. induction slots as [|n slots IH]; intros st; cbn [scanSlots]; [done|].
  apply commands_bind; [|intros [st'|own]; [apply IH|done]]. unfold scanSlot, staleSlot, clearSlot. quiet_script.
Qed.

Lemma selectPending_quiet w st wc l : commands noPush (selectPending w st wc l).
Proof. revert wc. induction l as [|id l IH]; intros wc; cbn [selectPending]; [done|]. quiet_script; apply IH. Qed.

#[export] Hint Resolve scanSlots_quiet selectPending_quiet : quietdb.

Lemma reserveBody_quiet w inc id ws capacity expiresAtMs clock ro :
  commands noPush (reserveBody w inc id ws capacity expiresAtMs clock ro).
Proof. unfold reserveBody. quiet_script. Qed.

#[export] Hint Resolve reserveBody_quiet : quietdb.

Lemma reserve_quiet w inc id ws capacity expiresAtMs clock ro guard :
  commands noPush (reserve w inc id ws capacity expiresAtMs clock ro guard).
Proof. unfold reserve, reserveScript. quiet_script. Qed.

Lemma release_noPush w inc id : commands noPush (release w inc id).
Proof.
  unfold release. apply commands_bind; [|intros l; quiet_script].
  generalize 0%Z. induction (seq 0 MAX_WORKSPACE_LEASE_SLOTS) as [|n l IH]; intros t; cbn [releaseSlots]; [done|].
  unfold clearSlot. quiet_script; apply IH.
Qed.

Lemma acquireLock_quiet w aid inc ttlMs reuse guard : commands noPush (acquireLockScript w aid inc ttlMs reuse guard).
Proof. unfold acquireLockScript, acquireLockBody, andAlso, getIs. quiet_script. Qed.

Lemma cleanup_quiet w inc aid slot fence : commands noPush (cleanupScript w inc aid slot fence).
Proof. unfold cleanupScript, andAlso, getIs. quiet_script. Qed.

Lemma dispatchable_quiet w : commands noPush (dispatchableScript w).
Proof. unfold dispatchableScript. quiet_script. Qed.

Lemma leave_quiet w aid : commands noPush (leave w aid).
Proof. unfold leave. quiet_script. Qed.

Lemma releaseLock_quiet w aid : commands noPush (releaseLockScript w aid).
Proof. unfold releaseLockScript. quiet_script. Qed.

Lemma cancel_quiet aid ttl : commands noPush (cancelScript aid ttl).
Proof. unfold cancelScript. quiet_script. Qed.

Lemma close_quiet aid fence : commands noPush (closeScript aid fence).
Proof. unfold closeScript, getIs. quiet_script. Qed.

Lemma commitReceipt_quiet aid fence : commands noPush (commitReceiptScript aid fence).
Proof. unfold commitReceiptScript, andAlso, hgetIs, getIs. quiet_script. Qed.

Lemma commitFence_quiet aid fence marker : commands noPush (commitFenceScript aid fence marker).
Proof. unfold commitFenceScript, clearFenceScript, getIs. quiet_script. Qed.

Lemma quarantineFence_quiet fence aid : commands noPush (quarantineFenceScript fence aid).
Proof. unfold quarantineFenceScript, getIs. quiet_script. Qed.

Lemma quarantine_quiet w inc fence : commands noPush (quarantineScript w inc fence).
Proof. unfold quarantineScript, getIs. quiet_script. Qed.

#[export] Hint Resolve enter_quiet isHead_quiet reserve_quiet release_noPush acquireLock_quiet cleanup_quiet dispatchable_quiet
  leave_quiet releaseLock_quiet cancel_quiet close_quiet commitReceipt_quiet commitFence_quiet quarantineFence_quiet
  quarantine_quiet : quietdb.
#[export] Hint Extern 2 (commands noPush (rd _)) => (apply quiet_read; reflexivity) : quietdb.
#[export] Hint Extern 2 (commands noPush (rd (INCR _))) => (split; [exact I|done]) : quietdb.

(** A quiet script adds nothing to any list: whatever a list holds afterwards it
    held before. *)
Definition addsNothing {R} (p : prog R) : Prop :=
  forall now (ks : keyspace) k x l', as_list (find now (fst (eval p now ks)) k) = Some l' -> x ∈ l' ->
    exists l, as_list (find now ks k) = Some l /\ x ∈ l.

Lemma in_sublist {A} (x : A) l (o : option (list A)) : o = Some l -> x ∈ l -> exists l, o = Some l /\ x ∈ l.
Proof. eauto. Qed.

Lemma exec_addsNothing {R} (c : cmd R) now (ks ks' : keyspace) r k x l' : noPush R c -> exec c now ks = Some (ks', r) ->
  as_list (find now ks' k) = Some l' -> x ∈ l' -> exists l, as_list (find now ks k) = Some l /\ x ∈ l.
Proof.
  intros Hc E Hl Hx. destruct (decide (k ∈ writes c)) as [Hin|Hin].
  2: { apply (exec_frame _ _ _ _ _ k) in E; [|done]. unfold find in *. rewrite E in Hl. eauto. }
  destruct c; cbn [writes noPush] in Hin, Hc; try done; try (by apply elem_of_nil in Hin);
    try (apply list_elem_of_singleton in Hin; subst k); cbn [exec] in E.
  all: unfold put_hash, put_zset, put_set in E; repeat (case_match || (apply bind_Some in E as (? & ? & E))); simplify_eq.
  all: try (by eapply in_sublist).
  all: try (match goal with Hf : find _ _ _ = _ |- exists _, as_list ?o = _ /\ _ => rewrite Hf in Hl; by eapply in_sublist end).
  all: try (rewrite ?list_put_eq in Hl; simplify_eq; eapply in_sublist; [eassumption|]).
  all: try (rewrite find_insert_eq in Hl; unfold alive in Hl; cbn [e_exp e_val as_list] in Hl; repeat case_match; simplify_eq;
            try (by apply elem_of_nil in Hx)).
  all: try (rewrite find_delete_eq in Hl; cbn [as_list] in Hl; simplify_eq; by apply elem_of_nil in Hx).
  all: try (rewrite find_keep_eq in Hl; done).
  all: try (by constructor).
  all: try (cbn [as_list] in Hl; simplify_eq; by apply elem_of_nil in Hx).
  all: try (apply list_elem_of_In in Hx; apply filter_In in Hx as [Hx _]; by apply list_elem_of_In).
  all: try (destruct e as [[] ?]; cbn [e_val as_list] in *; simplify_eq; by eauto).
  all: try (rewrite find_dels_in in Hl by done; cbn [as_list] in Hl; simplify_eq; by apply elem_of_nil in Hx).
Qed.

Lemma quiet_addsNothing {R} (p : prog R) : commands noPush p -> addsNothing p.
Proof.
  intros Hp now ks k x l'. revert ks. induction p as [a|R' c f IH|]; intros ks; cbn [commands eval] in *; eauto.
  destruct Hp as [Hc Hf]. destruct (exec c now ks) as [[ks1 r]|] eqn:E; [|eauto]. intros Hl Hx.
  destruct (IH r (Hf r) ks1 Hl Hx) as (l & Hl1 & Hx1). by eapply exec_addsNothing.
Qed.
