(* ===== verification/BridgeDispatchProofs.v ===== *)
(** * Dispatching a workspace tool

    What the caller of a dispatch may conclude: a queue timeout means that nothing
    was put on a worker's queue ([queue_timeout_not_executed]), and a workspace
    request is put there at most once ([workspace_request_at_most_once]). *)

From stdpp Require Import base list numbers option strings gmap relations.
From Stdlib Require Import ZArith Lia.
From S2P Require Import Prelude JsString Json Protocol ProtocolRequests Redis JsonText BridgeKeys BridgeAdmission BridgeSlots BridgeStore Async BridgeRouting BridgeMethods BridgeDispatch BridgeSlotsProofs BridgeStoreProofs BridgeRuns.

(** ** Traces with few enqueues *)

(** At most [n] events of the trace may push. *)
Inductive pushesAtMost : nat -> list event -> Prop :=
| pam_nil n : pushesAtMost n []
| pam_quiet n ev tr : quiet ev -> pushesAtMost n tr -> pushesAtMost n (ev :: tr)
| pam_push n ev tr : pushesAtMost n tr -> pushesAtMost (S n) (ev :: tr).

Lemma pam_le n m tr : pushesAtMost n tr -> n <= m -> pushesAtMost m tr.
Proof.
  intros Hp. revert m. induction Hp as [n|n ev tr Hq Hp IH|n ev tr Hp IH]; intros m Hm; [constructor|constructor; auto|].
  destruct m as [|m]; [lia|]. apply pam_push, IH. lia.
Qed.

Lemma pam_app n m a b : pushesAtMost n a -> pushesAtMost m b -> pushesAtMost (n + m) (a ++ b).
Proof.
  intros Ha Hb. induction Ha as [n|n ev tr Hq Hp IH|n ev tr Hp IH]; cbn [app Nat.add].
  - apply (pam_le m); [done|lia].
  - by apply pam_quiet.
  - by apply pam_push.
Qed.

Lemma pam_quiets tr : Forall quiet tr <-> pushesAtMost 0 tr.
Proof.
  split; [induction 1; by constructor|]. intros Hp. remember 0 as n eqn:En.
  induction Hp; [by constructor|constructor; auto|discriminate].
Qed.

(** ** Methods that put nothing on a queue *)

(** The outcome is not the queue timeout. *)
Definition calm {A} (o : error + A) : Prop := match o with inl e => e <> StoreError WORKSPACE_QUEUE_TIMEOUT | inr _ => True end.

Abbreviation quietly := (does (Forall quiet)).

Ltac quiet_events := intros ?; apply Forall_singleton; cbn [quiet]; solve [auto with quietdb nocore].
Ltac calm_done := cbn [calm]; first [exact I | discriminate | assumption].
Ltac quiet_run := run_auto quiet_events; try solve [calm_done].

Lemma quietly_calm_bind {A B} (m : act A) (f : A -> act B) :
  quietly m calm -> (forall a, quietly (f a) calm) -> quietly (m ≫= f) calm.
Proof. intros Hm Hf. apply does_bind; [exact _|]. eapply does_mono; [exact Hm|]. intros [e|a] Ho; [done|apply Hf]. Qed.

Lemma quietly_try_bind {A B} (m : act A) (f : error + A -> act B) :
  quietly m calm -> (forall o, calm o -> quietly (f o) calm) -> quietly (try m ≫= f) calm.
Proof. intros Hm Hf. apply does_bind; [exact _|]. apply does_try. eapply does_mono; [exact Hm|]. intros o Ho. by apply Hf. Qed.

Lemma quietly_catch {A} (m : act A) h :
  quietly m calm -> (forall e, e <> StoreError WORKSPACE_QUEUE_TIMEOUT -> quietly (h e) calm) -> quietly (catch m h) calm.
Proof.
  intros Hm Hh. apply does_catch; [exact _|]. eapply does_mono; [exact Hm|]. intros [e|a] Ho; [by apply Hh|done].
Qed.

(** A step that does not throw. *)
Lemma quietly_value_bind {A B} (m : act A) (V : A -> Prop) (f : A -> act B) :
  quietly m (fun o => match o with inl _ => False | inr a => V a end) ->
  (forall a, V a -> quietly (f a) calm) -> quietly (m ≫= f) calm.
Proof. intros Hm Hf. apply does_bind; [exact _|]. eapply does_mono; [exact Hm|]. intros [e|a] Ho; [done|by apply Hf]. Qed.

Section quiet_methods.
Context `{Platform} `{Runtime} (cfg : storeConfig) (args : dispatchArgs).

Lemma parseObject_quiet raw : quietly (parseObject raw) calm.
Proof. unfold parseObject. quiet_run. Qed.

Lemma assertDispatchActive_quiet d : quietly (assertDispatchActive d) calm.
Proof. unfold assertDispatchActive, storeError, storeErrorIf. quiet_run. Qed.

Lemma boundedBy_calm {A} d (m : act A) : quietly m calm -> quietly (boundedBy d m) calm.
Proof.
  intros Hm. unfold boundedBy. apply does_catch; [exact _|]. eapply does_mono; [exact Hm|]. intros [e|a] Ho; [|done].
  apply quietly_calm_bind; [apply assertDispatchActive_quiet|]. intros _. by apply does_throw; [exact _|].
Qed.

Lemma dispatchCommand_quiet {A} d (m : act A) : quietly m calm -> quietly (dispatchCommand d m) calm.
Proof. intros Hm. unfold dispatchCommand. apply quietly_calm_bind; [apply assertDispatchActive_quiet|]. intros _. by apply boundedBy_calm. Qed.

Lemma dispatchableRegistration_quiet w : quietly (dispatchableRegistration w) calm.
Proof.
  unfold dispatchableRegistration. apply quietly_calm_bind; [quiet_run|]. intros [[[raw rdy] gen] gi]. cbv iota beta zeta.
  destruct raw as [raw|]; [|quiet_run]. apply quietly_calm_bind; [apply parseObject_quiet|]. intros r. quiet_run.
Qed.
End quiet_methods.

Create HintDb calmdb.
#[export] Hint Resolve parseObject_quiet assertDispatchActive_quiet boundedBy_calm dispatchCommand_quiet
  dispatchableRegistration_quiet : calmdb.

Ltac calm_run :=
  repeat first
    [ solve [auto with calmdb nocore]
    | apply quietly_try_bind; [|intros ? ?]
    | apply quietly_catch; [|intros ? ?]
    | apply dispatchCommand_quiet
    | apply boundedBy_calm
    | apply does_throwIf; [exact _|intros; calm_done..]
    | apply does_needValue; [exact _|intros; calm_done..]
    | apply does_await; [quiet_events|intros; calm_done..]
    | apply does_now; [exact _|intros; calm_done] | apply does_aborted; [exact _|intros; calm_done]
    | apply does_delay; [exact _|intros; calm_done] | apply does_random; [exact _|intros; calm_done]
    | apply does_done; [exact _|calm_done] | apply does_throw; [exact _|calm_done]
    | apply quietly_calm_bind; [|intros ?]
    | case_match ].

Section quiet_dispatch.
Context `{Platform} `{Runtime} (cfg : storeConfig) (args : dispatchArgs).

Lemma reserveSlot_quiet w inc aid ws capacity t clock ro guard : quietly (reserveSlot w inc aid ws capacity t clock ro guard) calm.
Proof. unfold reserveSlot. calm_run. Qed.

Lemma acquireLock_calm w aid inc ttl reuse guard : quietly (acquireLock w aid inc ttl reuse guard) calm.
Proof. unfold acquireLock. calm_run. Qed.

Lemma releaseLock_calm w aid : quietly (releaseLock w aid) calm.
Proof. unfold releaseLock. calm_run. Qed.

Lemma cancel_calm aid a : quietly (cancel aid a) calm.
Proof. unfold cancel, expiryOf. calm_run. Qed.

#[local] Hint Resolve reserveSlot_quiet acquireLock_calm releaseLock_calm cancel_calm : calmdb.

Lemma cleanup_calm a : quietly (cleanup a) calm.
Proof. unfold cleanup. calm_run. Qed.

Lemma both_calm m1 m2 : quietly m1 calm -> quietly m2 calm -> quietly (both m1 m2) calm.
Proof. intros H1 H2. unfold both. calm_run. Qed.

Lemma retry_calm n m e : quietly m calm -> e <> StoreError WORKSPACE_QUEUE_TIMEOUT -> quietly (retry n m e) calm.
Proof.
  intros Hm. revert e. induction n as [|n IH]; intros e He; cbn [retry]; [by apply does_throw; [exact _|]|]. calm_run.
Qed.

#[local] Hint Resolve cleanup_calm both_calm : calmdb.

Lemma cleanupDispatch_calm w aid a : quietly (cleanupDispatch w aid a) calm.
Proof. unfold cleanupDispatch. apply both_calm; calm_run. Qed.

Lemma cleanupUnassignedSlot_calm w inc aid : quietly (cleanupUnassignedSlot w inc aid) calm.
Proof. unfold cleanupUnassignedSlot. apply both_calm; [apply cleanupDispatch_calm|calm_run]. Qed.

Lemma cleanupWithRetry_calm w aid a : quietly (cleanupWithRetry w aid a) calm.
Proof. apply retry_calm; [apply cleanupDispatch_calm|done]. Qed.

Lemma commitPendingWorkspace_calm a s k : quietly (commitPendingWorkspace a s k) calm.
Proof. unfold commitPendingWorkspace, storeErrorIf. calm_run. Qed.

Lemma quarantine_calm w inc s : quietly (quarantine w inc s) calm.
Proof. unfold quarantine. calm_run. Qed.

#[local] Hint Resolve cleanupDispatch_calm cleanupUnassignedSlot_calm cleanupWithRetry_calm commitPendingWorkspace_calm
  quarantine_calm : calmdb.

Lemma pollSettlement_calm aid d p mp signal : (forall m, signal = Some m -> quietly m calm) ->
  quietly (pollSettlement aid d p mp signal) calm.
Proof.
  intros Hs. unfold pollSettlement. apply does_loop; [exact _|]. intros v.
  assert (quietly (default (Done false) signal) calm) as Hd.
  { destruct signal as [m|]; [by apply Hs|]. by apply does_done; [exact _|]. }
  apply (does_mono _ _ calm); [|intros [e|[x|b]] Ho; [exact Ho|exact I|by apply does_done; [exact _|]]].
  calm_run.
Qed.

Lemma waitForSettlement_calm signal a d : quietly signal calm -> quietly (waitForSettlement signal a d) calm.
Proof.
  intros Hs. unfold waitForSettlement, storeError.
  apply quietly_try_bind; [apply pollSettlement_calm; by intros m [= <-]|]. intros polled Hp.
  assert (forall aid d' p mp, quietly (pollSettlement aid d' p mp None) calm) as Hpoll by (intros; by apply pollSettlement_calm).
  destruct polled as [e|[s|]]; [|by apply does_done; [exact _|]|];
    (apply quietly_calm_bind; [done|]; intros gone;
     apply (quietly_value_bind _ calm); [|intros graced Hg; calm_run]; case_match; [|by apply does_done; [exact _|]];
     apply does_try, (does_mono _ _ calm); [calm_run|done]).
Qed.

(** ** Before the enqueue *)

Lemma does_any {A} (m : act A) (Q : error + A -> Prop) : quietly m Q -> quietly m (fun _ => True).
Proof. intros Hm. by eapply does_mono. Qed.

Lemma quietly_any_bind {A B} (m : act A) (f : A -> act B) :
  quietly m (fun _ => True) -> (forall a, quietly (f a) (fun _ => True)) -> quietly (m ≫= f) (fun _ => True).
Proof. intros Hm Hf. apply does_bind; [exact _|]. eapply does_mono; [exact Hm|]. by intros [e|a] _. Qed.

Lemma preEnqueue_any {A} (m : act A) : quietly m calm -> quietly (preEnqueue args m) (fun _ => True).
Proof.
  intros Hm. apply does_catch; [exact _|]. eapply does_mono; [exact Hm|]. intros [e|a] _; [|done].
  apply quietly_any_bind; [by apply does_aborted; [exact _|]|]. intros g. by apply does_throw; [exact _|].
Qed.

Lemma prepare_any : quietly (prepare cfg args) (fun _ => True).
Proof.
  unfold prepare, storeErrorIf, storeError. apply quietly_any_bind; [by apply does_throwIf; [exact _|..]|]. intros _.
  apply quietly_any_bind; [apply preEnqueue_any; calm_run|]. intros [[r t]|]; [|by apply does_throw; [exact _|]].
  do 4 (apply quietly_any_bind; [by apply does_throwIf; [exact _|..]|intros _]).
  apply quietly_any_bind; [|intros _; by apply does_done; [exact _|]].
  case_match; [|by apply does_done; [exact _|]]. apply quietly_any_bind; [apply preEnqueue_any; calm_run|].
  intros q. by apply does_throwIf; [exact _|..].
Qed.

Section admitted.
Context (registration : record) (readyToken : option jstr) (aid : jstr).

Lemma tryLock_calm : quietly (tryLock args registration aid) calm.
Proof. unfold tryLock. calm_run. Qed.

Lemma pollDelay_calm : quietly (pollDelay args) calm.
Proof. unfold pollDelay. calm_run. Qed.

#[local] Hint Resolve tryLock_calm pollDelay_calm : calmdb.

Lemma lockLoop_calm : quietly (lockLoop args registration aid) calm.
Proof.
  unfold lockLoop. apply does_loop; [exact _|]. intros v.
  apply (does_mono _ _ calm); [|intros [e|[x|b]] Ho; [exact Ho|exact I|by apply does_done; [exact _|]]]. calm_run.
Qed.

Lemma revalidate_calm : quietly (revalidate args registration) calm.
Proof. unfold revalidate, storeErrorIf, storeError. calm_run. Qed.

#[local] Hint Resolve lockLoop_calm revalidate_calm : calmdb.

Lemma admit_calm : quietly (admitRequest args registration aid) calm.
Proof. unfold admitRequest, storeErrorIf, storeError. calm_run. Qed.

Lemma replacement_calm d : quietly (replacement args d) calm.
Proof. unfold replacement, storeErrorIf, storeError. calm_run. Qed.

(** ** After the enqueue *)

Lemma finish_calm a committed : quietly (finish args registration aid a committed) calm.
Proof. unfold finish. calm_run. Qed.

Lemma complete_calm a r d : (forall f, x_finalize args = Some f -> forall s r, quietly (f s r) calm) ->
  quietly (complete args a r d) calm.
Proof.
  intros Hf. unfold complete. apply quietly_calm_bind; [apply waitForSettlement_calm; calm_run|]. intros st.
  apply quietly_catch; [|intros e He; calm_run]. apply quietly_calm_bind; [|intros x; calm_run].
  destruct (x_finalize args) as [f|]; [by apply Hf|]. calm_run.
Qed.

(** ** The enqueue attempts *)

(** A run with its events and outcome related. *)
Definition runs {A} (m : act A) (S : list event -> error + A -> Prop) : Prop :=
  forall tr, awp m tr (fun tr' o => exists new, tr' = tr ++ new /\ S new o).

Lemma runs_does {A} (m : act A) N (Q : error + A -> Prop) (S : list event -> error + A -> Prop) :
  does N m Q -> (forall new o, N new -> Q o -> S new o) -> runs m S.
Proof. intros Hm HS tr. eapply awp_mono; [apply Hm|]. intros tr' o (new & -> & Hn & Ho). exists new. auto. Qed.

Lemma runs_done {A} (a : A) (S : list event -> error + A -> Prop) : S [] (inr a) -> runs (Done a) S.
Proof. intros HS tr. exists []. by rewrite app_nil_r. Qed.

Lemma runs_throw {A} e (S : list event -> error + A -> Prop) : S [] (inl e) -> runs (Throw e) S.
Proof. intros HS tr. exists []. by rewrite app_nil_r. Qed.

Lemma runs_bind {A B} (m : act A) (f : A -> act B) (S1 : list event -> error + A -> Prop) (S : list event -> error + B -> Prop) :
  runs m S1 -> (forall new e, S1 new (inl e) -> S new (inl e)) ->
  (forall new a, S1 new (inr a) -> runs (f a) (fun new' o => S (new ++ new') o)) -> runs (m ≫= f) S.
Proof.
  intros Hm He Hf tr. apply awp_bind. eapply awp_mono; [apply Hm|]. intros tr' [e|a] (new & -> & Ho); [eauto|].
  eapply awp_mono; [by apply (Hf new a Ho)|]. intros tr'' o (new' & -> & HS). exists (new ++ new'). by rewrite app_assoc.
Qed.

Lemma runs_try {A} (m : act A) (S : list event -> error + A -> Prop) :
  runs m S -> runs (try m) (fun new o => match o with inl _ => False | inr r => S new r end).
Proof. intros Hm tr. apply awp_try, Hm. Qed.

Lemma runs_catch {A} (m : act A) h (S1 S : list event -> error + A -> Prop) :
  runs m S1 -> (forall new a, S1 new (inr a) -> S new (inr a)) ->
  (forall new e, S1 new (inl e) -> runs (h e) (fun new' o => S (new ++ new') o)) -> runs (catch m h) S.
Proof.
  intros Hm Ha He. unfold catch. eapply runs_bind; [by apply runs_try|done|]. intros new [e|a] Ho; [by apply He|].
  apply runs_done. rewrite app_nil_r. auto.
Qed.

Lemma does_runs {A} (m : act A) (Q : error + A -> Prop) : quietly m Q -> runs m (fun new o => Forall quiet new /\ Q o).
Proof. intros Hm. by eapply runs_does. Qed.

Lemma enqueueForActive_runs a ttl token guard :
  runs (enqueueForActiveIncarnation a ttl token guard) (fun new o => pushesAtMost 1 new /\ calm o).
Proof.
  assert (forall A (m : act A), quietly m calm -> forall B (f : A -> act B),
    (forall x, runs (f x) (fun new o => pushesAtMost 1 new /\ calm o)) ->
    runs (m ≫= f) (fun new o => pushesAtMost 1 new /\ calm o)) as Hb.
  { intros A m Hm B f Hf. eapply runs_bind; [by apply does_runs| |].
    - intros new e [Hq Hc]. split; [|done]. apply (pam_le 0); [by apply pam_quiets|lia].
    - intros new x [Hq _] tr. eapply awp_mono; [apply Hf|]. intros tr' o (new' & -> & Hp & Hc). exists new'. split; [done|].
      split; [|done]. apply (pam_app 0 1); [by apply pam_quiets|done]. }
  unfold enqueueForActiveIncarnation. apply Hb; [unfold leaseScope; calm_run|]. intros scope.
  apply Hb; [unfold expiryOf; calm_run|]. intros t. apply Hb; [calm_run|]. intros clock. apply Hb; [calm_run|]. intros rt.
  eapply (runs_bind _ _ (fun new o => pushesAtMost 1 new /\ calm o)).
  - intros tr. apply awp_await; [intros r|]; (eexists; split; [reflexivity|]; split; [apply pam_push, pam_nil|done]).
  - done.
  - intros new r [Hp _]. unfold storeError. case_match; [apply runs_throw|apply runs_done]; by rewrite app_nil_r.
Qed.

(** A quiet step adds nothing to the count. *)
Lemma pam_quiet_app n a b : Forall quiet a -> pushesAtMost n b -> pushesAtMost n (a ++ b).
Proof. intros Ha. apply (pam_app 0). by apply pam_quiets. Qed.

Lemma runs_quiet_bind {A B} (m : act A) (f : A -> act B) (S : list event -> error + B -> Prop) :
  quietly m calm -> (forall new e, Forall quiet new -> calm (A := A) (inl e) -> S new (inl e)) ->
  (forall new a, Forall quiet new -> runs (f a) (fun new' o => S (new ++ new') o)) -> runs (m ≫= f) S.
Proof.
  intros Hm He Hf. eapply runs_bind; [by apply does_runs| |].
  - intros new e [Hq Hc]. auto.
  - intros new a [Hq _]. auto.
Qed.

Lemma runs_quiet_try_bind {A B} (m : act A) (f : error + A -> act B) (S : list event -> error + B -> Prop) :
  quietly m calm -> (forall new o, Forall quiet new -> calm o -> runs (f o) (fun new' o' => S (new ++ new') o')) ->
  runs (try m ≫= f) S.
Proof.
  intros Hm Hf. eapply runs_bind; [by apply runs_try, does_runs|done|]. intros new o [Hq Hc]. auto.
Qed.

Lemma boundedBy_runs {A} d (m : act A) n :
  runs m (fun new o => pushesAtMost n new /\ calm o) -> runs (boundedBy d m) (fun new o => pushesAtMost n new /\ calm o).
Proof.
  intros Hm. unfold boundedBy. eapply runs_catch; [exact Hm|done|]. intros new e [Hp Hc].
  apply runs_quiet_bind; [calm_run| |].
  - intros new' e' Hq Hc'. split; [|done]. rewrite <- (Nat.add_0_r n). apply pam_app; [done|by apply pam_quiets].
  - intros new' _ Hq. apply runs_throw. rewrite app_nil_r. split; [|done].
    rewrite <- (Nat.add_0_r n). apply pam_app; [done|by apply pam_quiets].
Qed.

(** What the attempts end with: no push unless one was attempted, and then one, or
    one per attempt for a request without a workspace. *)
Definition attemptsEnd (n : nat) (attempted : bool) (new : list event) (o : error + enqueued) : Prop :=
  exists q, o = inr q /\ calm (q_result q) /\ pushesAtMost (if hasAdmission args then 1 else n) new
    /\ (q_attempted q = false -> attempted = false /\ Forall quiet new).

Lemma attemptsEnd_quiet n attempted new a r e : Forall quiet new -> calm (A := unit) (inl e) ->
  attemptsEnd n attempted new (inr (Enqueued a r attempted (inl e))).
Proof.
  intros Hq Hc. eexists. split; [done|]. split; [done|]. split; [|done].
  apply (pam_le 0); [by apply pam_quiets|lia].
Qed.

Lemma enqueueAttempts_runs n d a r token attempted :
  runs (enqueueAttempts args n d a r token attempted) (attemptsEnd n attempted).
Proof.
  revert a r token attempted. induction n as [|n IH]; intros a r token attempted; cbn [enqueueAttempts].
  { apply runs_done. by apply attemptsEnd_quiet. }
  apply runs_quiet_try_bind; [calm_run|]. intros n1 [e1|[]] Q1 C1.
  { apply runs_done. rewrite app_nil_r. by apply attemptsEnd_quiet. }
  apply runs_quiet_try_bind; [calm_run|]. intros n2 [e2|[]] Q2 C2.
  { apply runs_done. rewrite app_nil_r. apply attemptsEnd_quiet; [by apply Forall_app_2|done]. }
  assert (forall ro x, calm x -> pushesAtMost 1 ro ->
    attemptsEnd (S n) attempted (n1 ++ n2 ++ ro) (inr (Enqueued (retarget a r) r true x))) as Hend.
  { intros ro x Hx Hp. eexists. split; [done|]. split; [done|]. split; [|done].
    do 2 (apply pam_quiet_app; [done|]). apply (pam_le 1); [done|]. destruct (hasAdmission args); lia. }
  eapply runs_bind.
  { apply runs_try, (boundedBy_runs d _ 1). unfold expiryOf.
    apply runs_quiet_bind; [calm_run|intros new e Hq Hc; split; [by apply (pam_le 0); [apply pam_quiets|lia]|done]|].
    intros n3 t Q3. apply runs_quiet_bind; [calm_run| |].
    - intros new e Hq Hc. split; [|done]. apply (pam_le 0); [apply pam_quiets; by apply Forall_app_2|lia].
    - intros n4 clock Q4 tr. eapply awp_mono; [apply enqueueForActive_runs|]. intros tr' o (new & -> & Hp & Hc).
      exists new. split; [done|]. split; [|done]. by do 2 (apply pam_quiet_app; [done|]). }
  { done. }
  intros n3 [e|[]] [Hp Hc].
  - apply runs_done. rewrite app_nil_r. by apply Hend.
  - apply runs_done. rewrite app_nil_r. by apply Hend.
  - destruct (hasAdmission args) eqn:Eh; [apply runs_done; rewrite app_nil_r; by apply Hend|].
    apply runs_quiet_try_bind; [apply replacement_calm|]. intros n4 [e|[r' token']] Q4 C4.
    + apply runs_done. rewrite app_nil_r. apply Hend; [done|].
      apply (pam_app 1 0); [done|by apply pam_quiets].
    + intros tr. eapply awp_mono; [apply IH|]. intros tr' o (new & -> & q & -> & Hx & Hn & Ha). exists new. split; [done|].
      exists q. split; [done|]. split; [done|]. rewrite Eh in *. split; [|by intros [? _]%Ha].
      do 2 (apply pam_quiet_app; [done|]). apply (pam_app 1 n); [done|]. by apply pam_quiet_app.
Qed.

(** ** The whole dispatch *)

(** A queue timeout comes with a quiet trace; pushes are bounded. *)
Definition dispatched (new : list event) (o : error + record) : Prop :=
  pushesAtMost (if hasAdmission args then 1 else 8) new
  /\ (o = inl (StoreError WORKSPACE_QUEUE_TIMEOUT) -> Forall quiet new).

Lemma dispatched_quiet new o : Forall quiet new -> dispatched new o.
Proof. intros Hq. split; [|done]. apply (pam_le 0); [by apply pam_quiets|lia]. Qed.

Lemma dispatched_calm new o : calm o -> pushesAtMost (if hasAdmission args then 1 else 8) new -> dispatched new o.
Proof. intros Hc Hp. split; [done|]. intros ->. by destruct Hc. Qed.

(** Quiet steps at the end keep the bound. *)
Lemma pam_app_quiet n a b : pushesAtMost n a -> Forall quiet b -> pushesAtMost n (a ++ b).
Proof. intros Ha Hb. rewrite <- (Nat.add_0_r n). apply pam_app; [done|by apply pam_quiets]. Qed.

Context (Hfin : forall f, x_finalize args = Some f -> forall s r, quietly (f s r) calm).

Lemma execute_runs token : runs (execute args registration readyToken aid token) dispatched.
Proof.
  unfold execute. apply runs_quiet_try_bind; [apply admit_calm|]. intros n1 [e|[[slot gen] d]] Q1 C1.
  - eapply (runs_does _ (Forall quiet) (fun _ => True)); [|intros new o Hq _; by apply dispatched_quiet, Forall_app_2].
    apply quietly_any_bind; [by apply does_aborted; [exact _|]|]. intros g.
    apply quietly_any_bind; [eapply does_any, finish_calm|]. intros _. by apply does_throw; [exact _|].
  - eapply runs_bind; [apply enqueueAttempts_runs|by intros new e (q & ? & _)|].
    intros n2 q (q' & [= <-] & Hc & Hp & Ha). destruct (q_result q) as [e|u] eqn:Eq.
    + destruct (q_attempted q) eqn:Eat.
      * eapply (runs_does _ (Forall quiet) calm); [|intros new o Hq Ho; apply dispatched_calm; [done|]];
          [|rewrite app_assoc; apply pam_app_quiet; [by apply pam_quiet_app|done]].
        apply quietly_calm_bind; [calm_run|]. intros g. apply quietly_calm_bind; [apply finish_calm|]. intros _.
        by apply does_throw; [exact _|].
      * destruct (Ha eq_refl) as [_ Q2].
        eapply (runs_does _ (Forall quiet) (fun _ => True));
          [|intros new o Hq _; apply dispatched_quiet; by repeat apply Forall_app_2].
        apply quietly_any_bind; [by apply does_aborted; [exact _|]|]. intros g.
        apply quietly_any_bind; [eapply does_any, finish_calm|]. intros _. by apply does_throw; [exact _|].
    + eapply (runs_does _ (Forall quiet) calm); [|intros new o Hq Ho; apply dispatched_calm; [done|]];
        [|rewrite app_assoc; apply pam_app_quiet; [by apply pam_quiet_app|done]].
      apply quietly_try_bind; [by apply complete_calm|]. intros o Ho.
      destruct o as [e|x]; (apply quietly_calm_bind; [apply finish_calm|]); intros _;
        [by apply does_throw; [exact _|]|by apply does_done; [exact _|]].
Qed.
End admitted.

Lemma dispatch_runs : (forall f, x_finalize args = Some f -> forall s r, quietly (f s r) calm) ->
  runs (dispatch cfg args) dispatched.
Proof.
  intros Hfin. unfold dispatch.
  assert (forall A (m : act A) B (f : A -> act B) S, quietly m (fun _ => True) ->
    (forall new e, Forall quiet new -> S new (inl e)) -> (forall a new, Forall quiet new -> runs (f a) (fun new' o => S (new ++ new') o)) ->
    runs (m ≫= f) S) as Hb.
  { intros A m B f S Hm He Hf. eapply runs_bind; [by apply does_runs|intros new e [Hq _]; auto|intros new a [Hq _]; auto]. }
  apply Hb; [apply prepare_any|intros; by apply dispatched_quiet|]. intros ready new Q1.
  apply Hb; [by apply does_random; [exact _|]|intros; by apply dispatched_quiet, Forall_app_2|]. intros aid new2 Q2.
  apply Hb; [by apply does_random; [exact _|]|intros; by apply dispatched_quiet; repeat apply Forall_app_2|]. intros token new3 Q3 tr.
  eapply awp_mono; [by apply execute_runs|]. intros tr' o (new4 & -> & Hp & Ho). exists new4. split; [done|]. split.
  - by repeat (apply pam_quiet_app; [done|]).
  - intros E. repeat apply Forall_app_2; try done. by apply Ho.
Qed.
End quiet_dispatch.

(** ** Workspace tools *)

Section tools.
Context `{Platform} `{Runtime} (cfg : storeConfig).

Lemma checkResult_calm q s r : quietly (checkResult q s r) calm.
Proof. unfold checkResult, storeErrorIf. calm_run. Qed.

Lemma toolRequest_workspace q : isWorkspaceToolRequest (JObj q) = true -> is_Some (strField q "workspaceId").
Proof.
  unfold isWorkspaceToolRequest. cbn [asRecord]. case_match eqn:E; [done|]. intros _.
  rewrite !orb_false_iff in E. destruct E as [[[_ E] _] _]. apply negb_false_iff in E.
  unfold strField, strTest in *. destruct (field q (js "workspaceId")) as [[]|]; try done.
Qed.

Lemma dispatchWorkspaceTool_runs w tenant rtb q d t :
  runs (dispatchWorkspaceTool cfg w tenant rtb q d t) (fun new o =>
    pushesAtMost 1 new /\ (o = inl (StoreError WORKSPACE_QUEUE_TIMEOUT) -> Forall quiet new)).
Proof.
  unfold dispatchWorkspaceTool, storeErrorIf. destruct (isWorkspaceToolRequest (JObj q)) eqn:E; cbn [negb throwIf].
  - set (args := DispatchArgs _ _ _ _ _ _ _ _ _ _ _). pose proof (toolRequest_workspace q E) as [ws Ews].
    assert (hasAdmission args = true) as Ha.
    { unfold hasAdmission, selectedWorkspaceId. cbn [x_workspaceRequest args]. rewrite Ews. by apply bool_decide_eq_true_2. }
    pose proof (dispatch_runs cfg args) as Hr. unfold dispatched in Hr. rewrite Ha in Hr. apply Hr.
    intros f [= <-] s r. apply checkResult_calm.
  - apply (runs_throw (A := record)). split; [constructor|done].
Qed.
End tools.

(** A script that cannot put an assignment on a queue. *)
Definition cannotDeliver (ev : event) : Prop := match ev with Event p _ => addsNothing p end.

Lemma quiet_cannotDeliver tr : Forall quiet tr -> Forall cannotDeliver tr.
Proof. intros Hq. eapply Forall_impl; [exact Hq|]. intros [R p r]. apply quiet_addsNothing. Qed.

Lemma runs_sound {db} `{RedisServer db} (others : db -> db -> Prop) {A} (m : act A) S s tr s' o :
  performs others s m tr s' o -> runs m S -> S tr o.
Proof.
  intros Hp Hm. destruct (awp_sound others m s tr s' o Hp [] _ (Hm [])) as (new & E & HS). cbn [app] in E. by subst new.
Qed.

(** (C37) A queue timeout is a definite non-execution. In every run of a workspace
    tool's dispatch that ends in WORKSPACE_QUEUE_TIMEOUT, whatever the other
    replicas do, whichever replies are lost and whenever the signal aborts, no
    script the dispatch sent can have put anything on a worker's queue. *)
Theorem queue_timeout_not_executed `{Platform} `{Runtime} cfg {db} `{RedisServer db} (others : db -> db -> Prop)
    (s s' : db) tr w tenant rtb q d t :
  performs others s (dispatchWorkspaceTool cfg w tenant rtb q d t) tr s' (inl (StoreError WORKSPACE_QUEUE_TIMEOUT)) ->
  Forall cannotDeliver tr.
Proof.
  intros Hp. destruct (runs_sound others _ _ _ _ _ _ Hp (dispatchWorkspaceTool_runs cfg w tenant rtb q d t)) as [_ Hq].
  by apply quiet_cannotDeliver, Hq.
Qed.

(** A workspace request is enqueued at most once. In every run of its
    dispatch, whatever its outcome, all scripts sent before and after at most one
    of them cannot put anything on a worker's queue: neither a lost reply nor a
    replaced worker leads to a second delivery. *)
Theorem workspace_request_at_most_once `{Platform} `{Runtime} cfg {db} `{RedisServer db} (others : db -> db -> Prop)
    (s s' : db) tr w tenant rtb q d t o :
  performs others s (dispatchWorkspaceTool cfg w tenant rtb q d t) tr s' o ->
  exists before enqueue after, tr = before ++ enqueue ++ after /\ length enqueue <= 1
    /\ Forall cannotDeliver before /\ Forall cannotDeliver after.
Proof.
  intros Hp. destruct (runs_sound others _ _ _ _ _ _ Hp (dispatchWorkspaceTool_runs cfg w tenant rtb q d t)) as [Hn _].
  clear Hp. remember 1 as n eqn:En. induction Hn as [n|n ev tr Hq Hn IH|n ev tr Hn IH].
  - exists [], [], []. split; [done|]. split; [simpl; lia|done].
  - destruct (IH En) as (b & e & a & -> & Hl & Hb & Ha). exists (ev :: b), e, a. split; [done|]. split; [done|].
    split; [|done]. constructor; [|done]. destruct ev as [R p r]. by apply quiet_addsNothing.
  - injection En as ->. exists [], [ev], tr. split; [done|]. split; [simpl; lia|]. split; [done|].
    by apply quiet_cannotDeliver, pam_quiets.
Qed.

(** Worker "w" offers workspace "repo"; a read of one file is dispatched to it. *)
Definition example_registration : record :=
  [(js "protocolVersion", JInt 1); (js "workerId", JStr (js "w")); (js "incarnationId", JStr (js "incarnation-0001"));
   (js "capabilities", JObj
      [(js "workspaceTools", JObj
          [(js "operations", JArr [JStr (js "read_file")]);
           (js "workspaces", JArr [JObj [(js "id", JStr (js "repo"))]])])])].
Definition example_request : record :=
  [(js "protocolVersion", JInt 1); (js "operation", JStr (js "read_file")); (js "workspaceId", JStr (js "repo"));
   (js "path", JStr (js "a.txt"))].
Definition example_config : storeConfig := StoreConfig 60 8 false.
Definition example_server : keyspace :=
  <[workerKey (js "w") := Entry (VStr (stringify (JObj example_registration))) None]>
  (<[workerIncarnationKey (js "w") := Entry (VStr (js "incarnation-0001")) None]> ∅).
Definition example_dispatch : act record :=
  dispatchWorkspaceTool (H := asciiPlatform) example_config (js "w") None false example_request 5000 None.

(** While another assignment holds the worker's lock, the request waits until its
    deadline at 5 s. *)
Definition busy_server : keyspace := <[lockKey (js "w") := Entry (VStr (js "a0")) (Some 9000%Z)]> example_server.

Lemma queue_timeout_not_executed_witness :
  Forall cannotDeliver (playedTrace (play 2000 example_dispatch (World 1000 None 0) busy_server)).
Proof.
  eapply (queue_timeout_not_executed (H := asciiPlatform) example_config (fun _ _ => False) busy_server _ _ (js "w") None false
            example_request 5000 None).
  apply play_performs. vm_compute. reflexivity.
Defined.

(** The worker never answers: one enqueue, then the assignment expires. *)
Lemma workspace_request_at_most_once_witness :
  exists before enqueue after,
    playedTrace (play 2000 example_dispatch (World 1000 None 0) example_server) = before ++ enqueue ++ after
    /\ length enqueue <= 1 /\ Forall cannotDeliver before /\ Forall cannotDeliver after.
Proof.
  eapply (workspace_request_at_most_once (H := asciiPlatform) example_config (fun _ _ => False) example_server _ _ (js "w") None
            false example_request 5000 None (inl (StoreError ASSIGNMENT_EXPIRED))).
  apply play_performs. vm_compute. reflexivity.
Defined.
