(* ===== verification/BridgeTermination.v ===== *)
(** * Every dispatch ends

    [halts] is the termination of a method under every environment in which the
    replica's clock does not run backwards, a timer does not fire early and every
    command settles, which the store's command timeout ensures; [twp] is the
    program logic for it, in which a loop has a decreasing measure.
    [dispatch_terminates] is the result. *)

From stdpp Require Import base list numbers option strings.
From Stdlib Require Import ZArith Lia.
From S2P Require Import Prelude JsString Json Protocol Redis JsonText BridgeKeys BridgeAdmission BridgeSlots BridgeStore Async BridgeRouting BridgeMethods BridgeDispatch.

(** Every run of the method from time [t] is finite and ends in [Q]. *)
Inductive halts {A} (Q : Z -> error + A -> Prop) : Z -> act A -> Prop :=
| h_done t a : Q t (inr a) -> halts Q t (Done a)
| h_throw t e : Q t (inl e) -> halts Q t (Throw e)
| h_command R t (p : prog R) k :
    (forall r t', (t <= t')%Z -> halts Q t' (k r)) -> halts Q t (Do (Command p) k)
| h_now t k : (forall t', (t <= t')%Z -> halts Q t' (k t')) -> halts Q t (Do Now k)
| h_aborted t k : (forall b t', (t <= t')%Z -> halts Q t' (k b)) -> halts Q t (Do Aborted k)
| h_random t n k : (forall x t', (t <= t')%Z -> halts Q t' (k x)) -> halts Q t (Do (RandomBytes n) k)
| h_scan t c x k : (forall r t', (t <= t')%Z -> halts Q t' (k r)) -> halts Q t (Do (Scan c x) k)
| h_delay t n k : (forall t', (t + Z.max 0 n <= t')%Z -> halts Q t' (k tt)) -> halts Q t (Do (Delay n) k)
| h_loop V B t (v : V) (body : V -> act (V + B)) k :
    halts Q t (body v ≫= fun r => match r with inl v' => Loop v' body k | inr b => k b end) ->
    halts Q t (Loop v body k).

(** ** Total correctness *)

Fixpoint twp {A} (m : act A) (t : Z) : (Z -> error + A -> Prop) -> Prop :=
  match m in act A return (Z -> error + A -> Prop) -> Prop with
  | Done a => fun Q => Q t (inr a)
  | Throw e => fun Q => Q t (inl e)
  | Do c k => fun Q =>
      match c in eff R return (R -> Z -> (Z -> error + _ -> Prop) -> Prop) -> Prop with
      | Command p => fun rec => forall r t', (t <= t')%Z -> rec r t' Q
      | Now => fun rec => forall t', (t <= t')%Z -> rec t' t' Q
      | Aborted => fun rec => forall b t', (t <= t')%Z -> rec b t' Q
      | RandomBytes n => fun rec => forall x t', (t <= t')%Z -> rec x t' Q
      | Scan _ _ => fun rec => forall r t', (t <= t')%Z -> rec r t' Q
      | Delay n => fun rec => forall t', (t + Z.max 0 n <= t')%Z -> rec tt t' Q
      end (fun r t' => twp (k r) t')
  | Loop v body k => fun Q =>
      exists (I : nat -> _ -> Z -> Prop) n, I n v t /\
        forall n' v' t', I n' v' t' ->
          twp (body v') t' (fun t'' o =>
            match o with
            | inl e => Q t'' (inl e)
            | inr (inl v'') => exists n'', n'' < n' /\ I n'' v'' t''
            | inr (inr b) => twp (k b) t'' Q
            end)
  end.

Lemma twp_mono {A} (m : act A) t (Q Q' : Z -> error + A -> Prop) :
  twp m t Q -> (forall t' o, Q t' o -> Q' t' o) -> twp m t Q'.
Proof.
  revert t Q Q'. induction m as [A a|A e|A R c k IH|A V B v body IHb k IHk]; intros t Q Q' HW HQ; cbn [twp] in *; [auto..| |].
  - destruct c; intros; eapply IH; eauto.
  - destruct HW as (I & n & Hn & Hb). exists I, n. split; [done|]. intros n' v' t' Hi. eapply IHb; [by apply Hb|].
    intros t'' [e|[v''|b]] Ho; [auto|done|]. eapply IHk; eauto.
Qed.

Lemma twp_bind {A B} (m : act A) (f : A -> act B) t (Q : Z -> error + B -> Prop) :
  twp m t (fun t' o => match o with inl e => Q t' (inl e) | inr a => twp (f a) t' Q end) -> twp (m ≫= f) t Q.
Proof.
  unfold mbind, act_bind. revert t Q. induction m as [A a|A e|A R c k IH|A V B' v body IHb k IHk]; intros t Q HW; cbn [twp abind] in *; try done.
  - destruct c; intros; apply IH; by apply HW.
  - destruct HW as (I & n & Hn & Hb). exists I, n. split; [done|]. intros n' v' t' Hi. eapply twp_mono; [by apply Hb|].
    intros t'' [e|[v''|b]] Ho; [done..|]. by apply IHk.
Qed.

Lemma twp_try {A} (m : act A) t (Q : Z -> error + (error + A) -> Prop) :
  twp m t (fun t' o => Q t' (inr o)) -> twp (try m) t Q.
Proof.
  revert t Q. induction m as [A a|A e|A R c k IH|A V B v body IHb k IHk]; intros t Q HW; cbn [twp try] in *; try done.
  - destruct c; intros; apply IH; by apply HW.
  - destruct HW as (I & n & Hn & Hb). exists I, n. split; [done|]. intros n' v' t' Hi.
    apply (twp_bind (try (body v'))), IHb. cbn [twp]. eapply twp_mono; [by apply Hb|].
    intros t'' [e|[v''|b]] Ho; cbn [twp]; [done..|]. by apply IHk.
Qed.

(** The logic is sound. *)
Lemma twp_then {A} (m : act A) t (Q : Z -> error + A -> Prop) : twp m t Q ->
  forall B (f : A -> act B) (Q' : Z -> error + B -> Prop),
  (forall t' a, Q t' (inr a) -> halts Q' t' (f a)) -> (forall t' e, Q t' (inl e) -> Q' t' (inl e)) -> halts Q' t (m ≫= f).
Proof.
  unfold mbind, act_bind. revert t Q. induction m as [A a|A e|A R c k IH|A V B v body IHb k IHk]; intros t Q HW B' f Q' Hf He; cbn [twp abind] in *.
  - by apply Hf.
  - apply h_throw. by apply He.
  - destruct c; constructor; intros; eapply IH; eauto.
  - destruct HW as (I & n & Hn & Hb). revert v t Hn. induction (lt_wf n) as [n _ IHn]. intros v t Hn.
    apply h_loop. eapply (IHb v t); [by apply (Hb n)| |by intros t' e Ho; apply He].
    intros t' [v'|b] Ho; [|eapply IHk; eauto]. destruct Ho as (n' & Hlt & Hi). by apply (IHn n' Hlt).
Qed.

Lemma twp_halts {A} (m : act A) t (Q : Z -> error + A -> Prop) : twp m t Q -> halts Q t m.
Proof.
  revert t Q. induction m as [A a|A e|A R c k IH|A V B v body IHb k IHk]; intros t Q HW; cbn [twp] in *.
  - by apply h_done.
  - by apply h_throw.
  - destruct c; constructor; intros; eapply IH; eauto.
  - destruct HW as (I & n & Hn & Hb). revert v t Hn. induction (lt_wf n) as [n _ IHn]. intros v t Hn.
    apply h_loop. eapply twp_then; [by apply (Hb n)| |done].
    intros t' [v'|b] Ho; [|by apply IHk]. destruct Ho as (n' & Hlt & Hi). by apply (IHn n' Hlt).
Qed.

(** ** Methods that end *)

(** The method ends, not before it started. *)
Definition total {A} (m : act A) : Prop := forall t, twp m t (fun t' _ => (t <= t')%Z).

Lemma total_done {A} (a : A) : total (Done a).
Proof. intros t. cbn [twp]. lia. Qed.

Lemma total_throw {A} e : total (@Throw A e).
Proof. intros t. cbn [twp]. lia. Qed.

(** Time passes through a sequence. *)
Lemma total_at {A} (m : act A) t t0 : total m -> (t0 <= t)%Z -> twp m t (fun t' _ => (t0 <= t')%Z).
Proof. intros Hm Ht. eapply twp_mono; [apply Hm|]. intros t' o Ht'. cbn beta in Ht'. lia. Qed.

Lemma total_bind {A B} (m : act A) (f : A -> act B) : total m -> (forall a, total (f a)) -> total (m ≫= f).
Proof.
  intros Hm Hf t. apply twp_bind. eapply twp_mono; [apply Hm|]. intros t' [e|a] Ht; [done|]. by apply total_at.
Qed.

Lemma total_try {A} (m : act A) : total m -> total (try m).
Proof. intros Hm t. apply twp_try, Hm. Qed.

Lemma total_catch {A} (m : act A) h : total m -> (forall e, total (h e)) -> total (catch m h).
Proof.
  intros Hm Hh. unfold catch. apply total_bind; [by apply total_try|]. intros [e|a]; [apply Hh|apply total_done].
Qed.

Lemma total_await {R} (p : prog R) : total (await p).
Proof. intros t. unfold await. apply twp_bind. intros r t' Ht. destruct r; exact Ht. Qed.

Lemma total_now : total now_.
Proof. intros t t' Ht. exact Ht. Qed.

Lemma total_aborted : total aborted.
Proof. intros t b t' Ht. exact Ht. Qed.

Lemma total_random n : total (randomBytes n).
Proof. intros t x t' Ht. exact Ht. Qed.

Lemma total_delay n : total (delay n).
Proof. intros t t' Ht. cbn [twp]. lia. Qed.

Lemma total_throwIf b e : total (throwIf b e).
Proof. unfold throwIf. destruct b; [apply total_throw|apply total_done]. Qed.

Lemma total_needValue {A} (v : option A) : total (needValue v).
Proof. destruct v; [apply total_done|apply total_throw]. Qed.

Create HintDb totaldb.
#[export] Hint Resolve total_done total_throw total_await total_now total_aborted total_random total_delay total_throwIf
  total_needValue : totaldb.

Ltac total_run :=
  unfold storeErrorIf, storeError;
  repeat first
    [ solve [auto with totaldb nocore]
    | apply total_try | apply total_catch; [|intros ?] | apply total_bind; [|intros ?] | case_match ].

(** What is known once the dispatch is found active: the deadline was ahead. *)
Lemma assertActive_twp d t : twp (assertDispatchActive d) t (fun t' o => (t <= t')%Z /\ (o = inr tt -> (t < d)%Z)).
Proof.
  unfold assertDispatchActive, storeErrorIf, storeError. apply twp_bind. intros b t1 H1. cbn [twp]. destruct b; [by split|].
  apply twp_bind. intros t2 H2. cbn [twp]. unfold throwIf. destruct (Z.leb_spec d t2); cbn [twp]; [by split; [lia|]|].
  split; [lia|]. intros _. lia.
Qed.

Lemma assertDispatchActive_total d : total (assertDispatchActive d).
Proof. intros t. eapply twp_mono; [apply assertActive_twp|]. by intros t' o [Ht _]. Qed.

#[export] Hint Resolve assertDispatchActive_total : totaldb.

Lemma boundedBy_total {A} d (m : act A) : total m -> total (boundedBy d m).
Proof. intros Hm. unfold boundedBy. total_run. Qed.

Lemma dispatchCommand_total {A} d (m : act A) : total m -> total (dispatchCommand d m).
Proof. intros Hm. unfold dispatchCommand. apply total_bind; [total_run|]. intros _. by apply boundedBy_total. Qed.

(** A command of the dispatch succeeds only before the deadline. *)
Lemma dispatchCommand_twp {A} d (m : act A) t : total m ->
  twp (dispatchCommand d m) t (fun t' o => (t <= t')%Z /\ forall a, o = inr a -> (t < d)%Z).
Proof.
  intros Hm. unfold dispatchCommand. apply twp_bind. eapply twp_mono; [apply assertActive_twp|].
  intros t1 [e|[]] [H1 H2]; [by split|]. specialize (H2 eq_refl).
  eapply twp_mono; [by apply boundedBy_total|]. intros t2 o H3. cbn beta in H3. split; [lia|]. done.
Qed.

#[export] Hint Resolve boundedBy_total dispatchCommand_total : totaldb.

(** A loop whose rounds end and, when they go around, leave less time to [d]. *)
Lemma total_deadline_loop {A V B} d (P : V -> Prop) (v : V) (body : V -> act (V + B)) (k : B -> act A) :
  P v -> (forall b, total (k b)) ->
  (forall v t, P v -> twp (body v) t (fun t' o =>
     (t <= t')%Z /\ forall v', o = inr (inl v') -> P v' /\ (t < d)%Z /\ (t < t' \/ d <= t')%Z)) ->
  total (Loop v body k).
Proof.
  intros Hv Hk Hb t. cbn [twp]. exists (fun n v t' => n = Z.to_nat (d - t') /\ P v /\ (t <= t')%Z), (Z.to_nat (d - t)).
  split; [split; [done|]; split; [done|lia]|]. intros n v' t' (-> & Hv' & Ht). eapply twp_mono; [by apply Hb|].
  intros t'' [e|[v''|b]] [H1 H2].
  - lia.
  - destruct (H2 v'' eq_refl) as (Hv'' & H3 & H4). exists (Z.to_nat (d - t'')). split; [lia|]. split; [done|]. split; [done|lia].
  - apply total_at; [apply Hk|lia].
Qed.

Section methods.
Context `{Platform} `{Runtime} (cfg : storeConfig) (args : dispatchArgs).

Lemma parseObject_total raw : total (parseObject raw).
Proof. unfold parseObject. total_run. Qed.

#[local] Hint Resolve parseObject_total : totaldb.

Lemma dispatchableRegistration_total w : total (dispatchableRegistration w).
Proof. unfold dispatchableRegistration. total_run. Qed.

Lemma reserveSlot_total w inc aid ws capacity t clock ro guard : total (reserveSlot w inc aid ws capacity t clock ro guard).
Proof. unfold reserveSlot. total_run. Qed.

Lemma acquireLock_total w aid inc ttl reuse guard : total (acquireLock w aid inc ttl reuse guard).
Proof. unfold acquireLock. total_run. Qed.

Lemma releaseLock_total w aid : total (releaseLock w aid).
Proof. unfold releaseLock. total_run. Qed.

Lemma cancel_total aid a : total (cancel aid a).
Proof. unfold cancel, expiryOf. total_run. Qed.

#[local] Hint Resolve dispatchableRegistration_total reserveSlot_total acquireLock_total releaseLock_total cancel_total : totaldb.

Lemma cleanup_total a : total (cleanup a).
Proof. unfold cleanup. total_run. Qed.

Lemma both_total m1 m2 : total m1 -> total m2 -> total (both m1 m2).
Proof. intros H1 H2. unfold both. total_run. Qed.

Lemma retry_total n m e : total m -> total (retry n m e).
Proof. intros Hm. revert e. induction n as [|n IH]; intros e; cbn [retry]; total_run. Qed.

#[local] Hint Resolve cleanup_total both_total retry_total : totaldb.

Lemma cleanupDispatch_total w aid a : total (cleanupDispatch w aid a).
Proof. unfold cleanupDispatch. apply both_total; total_run. Qed.

#[local] Hint Resolve cleanupDispatch_total : totaldb.

Lemma cleanupUnassignedSlot_total w inc aid : total (cleanupUnassignedSlot w inc aid).
Proof. unfold cleanupUnassignedSlot. apply both_total; total_run. Qed.

Lemma commitPendingWorkspace_total a s k : total (commitPendingWorkspace a s k).
Proof. unfold commitPendingWorkspace. total_run. Qed.

Lemma quarantine_total w inc s : total (quarantine w inc s).
Proof. unfold quarantine. total_run. Qed.

Lemma enqueueForActiveIncarnation_total a ttl token guard : total (enqueueForActiveIncarnation a ttl token guard).
Proof. unfold enqueueForActiveIncarnation, leaseScope, expiryOf. total_run. Qed.

#[local] Hint Resolve cleanupUnassignedSlot_total commitPendingWorkspace_total quarantine_total
  enqueueForActiveIncarnation_total : totaldb.

(** Polling moves towards its deadline with every timer. *)
Lemma pollSettlement_total aid d p mp signal : (0 < p)%Z -> (0 < mp)%Z -> (forall m, signal = Some m -> total m) ->
  total (pollSettlement aid d p mp signal).
Proof.
  intros Hp Hmp Hs. unfold pollSettlement. apply (total_deadline_loop d (fun v => 0 < v)%Z); [done|intros b; apply total_done|].
  intros v t Hv. assert (total (default (Done false) signal)) as Hd.
  { destruct signal as [m|]; [by apply Hs|apply total_done]. }
  apply twp_bind. eapply twp_mono; [apply Hd|]. intros t1 [e|gone] H1; [by split|]. cbn beta in H1.
  apply twp_bind. intros t2 H2. cbn [twp]. destruct (gone || (d <=? t2)%Z) eqn:Eg; [split; [lia|done]|].
  apply orb_false_iff in Eg as [_ Eg]. apply Z.leb_gt in Eg.
  apply twp_bind. eapply twp_mono; [apply total_await|]. intros t3 [e|[raw|]] H3; cbn beta in H3; [split; [lia|done]| |].
  - apply twp_bind. eapply twp_mono; [apply parseObject_total|]. intros t4 [e|s] H4; cbn beta in H4; cbn [twp]; (split; [lia|done]).
  - apply twp_bind. intros t4 H4. cbn [twp]. apply twp_bind. intros t5 H5. cbn [twp]. split; [lia|].
    intros v' [= <-]. split; [lia|]. split; [lia|]. destruct (bool_decide (is_Some signal)); lia.
Qed.

Lemma waitForSettlement_total signal a d : total signal -> total (waitForSettlement signal a d).
Proof.
  intros Hs. unfold waitForSettlement.
  assert (forall aid d' mp s, (0 < mp)%Z -> (forall m, s = Some m -> total m) -> total (pollSettlement aid d' POLL_INTERVAL_MS mp s)) as Hp
    by (intros; by apply pollSettlement_total).
  assert (total (pollSettlement (assignmentId a) d POLL_INTERVAL_MS POLL_INTERVAL_MS (Some signal))) as Hp1
    by (apply Hp; [done|by intros m [= <-]]).
  assert (forall d', total (pollSettlement (assignmentId a) d' POLL_INTERVAL_MS 500 None)) as Hp2 by (intros; by apply Hp).
  clear Hp. total_run.
Qed.

Section admitted.
Context (registration : record) (readyToken : option jstr) (aid : jstr).

(** One attempt that finds the worker busy ran before the deadline. *)
Lemma tryLock_twp t : twp (tryLock args registration aid) t (fun t' o =>
  (t <= t')%Z /\ forall r, o = inr r -> (t < x_deadlineAtMs args)%Z).
Proof.
  unfold tryLock. apply twp_bind. intros t1 H1. cbn [twp]. destruct (usesSlots args registration); apply twp_bind.
  - eapply twp_mono; [apply dispatchCommand_twp; total_run|]. intros t2 [e|s] [H2 H3]; cbn [twp]; (split; [lia|]); [done|].
    intros r _. specialize (H3 _ eq_refl). lia.
  - eapply twp_mono; [apply dispatchCommand_twp; total_run|]. intros t2 [e|s] [H2 H3]; cbn [twp]; (split; [lia|]); [done|].
    intros r _. specialize (H3 _ eq_refl). lia.
Qed.

(** The wait between two attempts. *)
Lemma pollDelay_twp t : (t < x_deadlineAtMs args)%Z ->
  twp (pollDelay args) t (fun t' o => (t <= t')%Z /\ (t < t' \/ x_deadlineAtMs args <= t')%Z).
Proof.
  intros Ht. unfold pollDelay, POLL_INTERVAL_MS. apply twp_bind. intros t1 H1. cbn [twp]. intros t2 H2. cbn [twp]. lia.
Qed.

Lemma pollDelay_round t0 t : (t0 <= t)%Z -> (t0 < x_deadlineAtMs args)%Z ->
  twp (pollDelay args ;; Done (inl tt : unit + option (option Z))) t (fun t' o =>
    (t0 <= t')%Z /\ forall v', o = inr (inl v') ->
      True /\ (t0 < x_deadlineAtMs args)%Z /\ (t0 < t' \/ x_deadlineAtMs args <= t')%Z).
Proof.
  intros Hle Hd. apply twp_bind. destruct (Z.lt_ge_cases t (x_deadlineAtMs args)) as [Ht|Ht].
  - eapply twp_mono; [by apply pollDelay_twp|]. intros t1 [e|[]] [H1 H2]; cbn [twp]; (split; [lia|]); [done|].
    intros v' _. split; [done|]. split; [done|lia].
  - eapply twp_mono; [unfold pollDelay; total_run|]. 
    intros t1 [e|[]] H1; cbn beta in H1; cbn [twp]; (split; [lia|]); [done|]. intros v' _. split; [done|]. split; [done|lia].
Qed.

Lemma lockLoop_total : total (lockLoop args registration aid).
Proof.
  unfold lockLoop. apply (total_deadline_loop (x_deadlineAtMs args) (fun _ => True)); [done|intros b; apply total_done|].
  intros _ t _. apply twp_bind.
  assert (twp (if hasAdmission args && negb (usesSlots args registration)
     then head ← dispatchCommand (x_deadlineAtMs args) (clock ← now_; await (isHead (x_workerId args) aid clock)); Done (negb head)
     else Done false) t (fun t' o => (t <= t')%Z /\ (o = inr true -> (t < x_deadlineAtMs args)%Z))) as Hh.
  { case_match eqn:Ew; [|by split; [lia|]]. apply twp_bind. eapply twp_mono; [apply dispatchCommand_twp; total_run|].
    intros t1 [e|b] [H1 H2]; cbn [twp]; (split; [lia|]); [done|]. intros _. by eapply H2. }
  eapply twp_mono; [exact Hh|]. clear Hh. intros t1 [e|[]] [H1 H2]; [by split| |].
  - apply pollDelay_round; [done|by apply H2].
  - apply twp_bind. eapply twp_mono; [apply tryLock_twp|]. intros t2 [e|[slot|]] [H3 H4]; [split; [lia|done]|split; [lia|done]|].
    specialize (H4 _ eq_refl). destruct (hasAdmission args); [|cbn [twp]; split; [lia|done]].
    apply pollDelay_round; lia.
Qed.

#[local] Hint Resolve lockLoop_total : totaldb.

Lemma admit_total : total (admitRequest args registration aid).
Proof. unfold admitRequest, revalidate. total_run. Qed.

Lemma enqueueAttempts_total n d a r token attempted : total (enqueueAttempts args n d a r token attempted).
Proof.
  revert a r token attempted. induction n as [|n IH]; intros a r token attempted; cbn [enqueueAttempts]; [total_run|].
  unfold expiryOf, replacement. total_run.
Qed.

Lemma finish_total a committed : total (finish args registration aid a committed).
Proof. unfold finish, cleanupWithRetry. total_run. Qed.

Lemma complete_total a r d : (forall f, x_finalize args = Some f -> forall s r, total (f s r)) -> total (complete args a r d).
Proof.
  intros Hf. unfold complete. apply total_bind; [apply waitForSettlement_total, total_aborted|]. intros st.
  apply total_catch; [|intros e; total_run]. apply total_bind; [|intros x; total_run].
  destruct (x_finalize args) as [f|]; [by apply Hf|total_run].
Qed.

Lemma execute_total token : (forall f, x_finalize args = Some f -> forall s r, total (f s r)) ->
  total (execute args registration readyToken aid token).
Proof.
  intros Hf. unfold execute. apply total_bind; [apply total_try, admit_total|].
  assert (forall a c, total (finish args registration aid a c)) as Hfi by (intros; apply finish_total).
  intros [e|[[slot gen] d]]; [total_run|]. apply total_bind; [apply enqueueAttempts_total|]. intros q.
  destruct (q_result q) as [e|u]; [total_run|]. apply total_bind; [by apply total_try, complete_total|].
  intros [e|x]; total_run.
Qed.
End admitted.

Lemma prepare_total : total (prepare cfg args).
Proof. unfold prepare, preEnqueue. total_run. Qed.

Lemma dispatch_total : (forall f, x_finalize args = Some f -> forall s r, total (f s r)) -> total (dispatch cfg args).
Proof.
  intros Hf. unfold dispatch. apply total_bind; [apply prepare_total|]. intros ready_.
  do 2 (apply total_bind; [total_run|intros ?]). by apply execute_total.
Qed.
End methods.

(** (C38) Every dispatch of a workspace tool ends. Whatever Redis replies, other
    replicas and workers do and whenever the signal aborts, the loops that wait for
    admission, for the lock or slot and for the settlement, the enqueue attempts
    and the retries of the cleanup are finite: there is no infinite run, provided
    that the replica's clock does not run backwards, that timers do not fire early
    and that every command settles. *)
Theorem dispatch_terminates `{Platform} `{Runtime} cfg w tenant requireTenantBinding q deadlineAtMs executionTimeoutMs t :
  halts (fun t' _ => (t <= t')%Z) t
    (dispatchWorkspaceTool cfg w tenant requireTenantBinding q deadlineAtMs executionTimeoutMs).
Proof.
  apply twp_halts. unfold dispatchWorkspaceTool. apply total_bind; [apply total_throwIf|]. intros _.
  apply dispatch_total. intros f [= <-] s r. unfold checkResult. total_run.
Qed.
