(* ===== verification/BridgeMethodsProofs.v ===== *)
(** * What the workers' calls promise

    A lease gives a worker only work that is its own and not expired
    ([lease_delivers]); a settle call that returns has its settlement stored
    ([settle_durable]). Both hold of every run, with lost replies and with any
    steps of other replicas in between. *)

From stdpp Require Import base list numbers option strings gmap relations.
From Stdlib Require Import ZArith Lia.
From S2P Require Import Prelude JsString Json Protocol ProtocolRequests Redis JsonText BridgeKeys BridgeAdmission BridgeSlots BridgeStore Async Logs BridgeRouting BridgeMethods BridgeSlotsProofs BridgeStoreProofs BridgeRegistration BridgeSettlement BridgeLeases.

(** ** Events that have happened *)

Lemma awp_now tr (Q : list event -> error + Z -> Prop) : (forall t, Q tr (inr t)) -> awp now_ tr Q.
Proof. intros HQ t. apply HQ. Qed.

Lemma awp_await_in {R} (p : prog R) tr (Q : list event -> error + R -> Prop) :
  (forall a tr', tr ⊆ tr' -> Event p (Some a) ∈ tr' -> Q tr' (inr a)) ->
  (forall tr', tr ⊆ tr' -> Q tr' (inl CommandFailed)) -> awp (await p) tr Q.
Proof.
  assert (forall x : list event, tr ⊆ tr ++ x) as Hs by (intros x; apply list_subseteq_app_l; done).
  intros H1 H2. apply awp_await; [intros a; apply H1; [done|]|by apply H2].
  apply elem_of_app. right. by apply list_elem_of_singleton.
Qed.

(** A reply the method saw comes from a run of the script on the server. *)
Definition ran_event (db : Type) `{RedisServer db} (ev : event) : Prop :=
  match ev with
  | Event p (Some r) => exists t (s1 s2 : db), run p t s1 = (s2, Some r)
  | Event p None => True
  end.

(** ** Leases *)

Section lease.
Context `{Platform} `{Runtime} (cfg : storeConfig) (w inc : jstr) (identityId : option jstr) (slot : option Z).

(** An assignment of this worker, incarnation, slot and identity. *)
Record ownWork (st : StoredAssignment) : Prop := {
  own_worker : workerId st = w;
  own_incarnation : incarnationId st = inc;
  own_slot : workspaceLeaseSlot st = slot;
  own_identity : workerIdentityId st = identityId;
}.

(** The assignment [aid] as one of the replies described it. *)
Definition readAs (tr : list event) (aid : jstr) (st : StoredAssignment) : Prop :=
  exists text r, Event (rd (GET (assignmentKey aid))) (Some (Some text)) ∈ tr
    /\ parse text = Some (JObj r) /\ readStored r = Some st.

(** A reply named this incarnation as the registered one. *)
Definition stillActive (tr : list event) : Prop :=
  exists text r, Event (rd (GET (workerKey w))) (Some (Some text)) ∈ tr
    /\ parse text = Some (JObj r) /\ incarnationIs (Some r) inc = true.

(** What a delivered assignment rests on. The clock that found it unexpired was read
    after it had been claimed, and the remaining time is measured by the last reading
    of the call. *)
Definition delivered {db} (log : list (mark db)) (a : wireAssignment) : Prop :=
  exists aid st t s1 s2 before after clock expiry clock',
    log = before ++ Sent (claimOrPopLeaseScript w inc slot (default [] identityId)) t s1 s2 (Some (Some aid)) :: after
    /\ readAs (eventsOf after) aid st /\ stillActive (eventsOf after) /\ ownWork st
    /\ ReadClock clock ∈ after /\ isExpired st clock = false
    /\ parseDate (expiresAt st) = Some expiry /\ last after = Some (ReadClock clock') /\ a = toWire st (Z.max 0 (expiry - clock')).

Lemma parseObject_awp raw tr (Q : list event -> error + record -> Prop) :
  (forall r, parse raw = Some (JObj r) -> Q tr (inr r)) -> Q tr (inl OtherError) -> awp (parseObject raw) tr Q.
Proof. intros H1 H2. unfold parseObject. destruct (parse raw) as [[]|]; cbn [awp]; auto. Qed.

Lemma readAssignment_awp aid tr (Q : list event -> error + option StoredAssignment -> Prop) :
  (forall tr', tr ⊆ tr' -> Q tr' (inr None)) -> (forall tr' st, tr ⊆ tr' -> readAs tr' aid st -> Q tr' (inr (Some st))) ->
  (forall tr' e, Q tr' (inl e)) -> awp (readAssignment aid) tr Q.
Proof.
  intros H1 H2 H3. unfold readAssignment. apply awp_bind, awp_await_in; [|auto]. intros [raw|] tr' Hs Hin; [|by apply H1].
  apply awp_bind, parseObject_awp; [|auto]. intros r Hr. apply awp_bind.
  destruct (readStored r) as [st|] eqn:Es; cbn [needValue awp]; [|auto]. apply H2; [done|]. by exists raw, r.
Qed.

Lemma registration_awp tr (Q : list event -> error + option record -> Prop) :
  (forall tr' reg, tr ⊆ tr' -> (incarnationIs reg inc = true -> stillActive tr') -> Q tr' (inr reg)) ->
  (forall tr' e, Q tr' (inl e)) -> awp (registration_ w) tr Q.
Proof.
  intros H1 H2. unfold registration_. apply awp_bind, awp_await_in; [|auto]. intros [raw|] tr' Hs Hin; [|by apply H1].
  apply awp_bind, parseObject_awp; [|auto]. intros r Hr. cbn [awp]. apply H1; [done|]. intros Hi. by exists raw, r.
Qed.

Lemma readAs_mono tr tr' aid st : tr ⊆ tr' -> readAs tr aid st -> readAs tr' aid st.
Proof. intros Hs (text & r & Hin & Hr). exists text, r. split; [by apply Hs|done]. Qed.

(** The same for logs. *)
Section logs.
Context {db : Type} `{RedisServer db}.
Implicit Types log : list (mark db).

Lemma parseObject_lwp raw log (Q : list (mark db) -> error + record -> Prop) :
  (forall r, parse raw = Some (JObj r) -> Q log (inr r)) -> (forall e, Q log (inl e)) -> lwp (parseObject raw) log Q.
Proof. intros Hok Hsome. unfold parseObject. destruct (parse raw) as [[]|]; cbn [lwp]; auto. Qed.

Lemma readAssignment_lwp aid log (Q : list (mark db) -> error + option StoredAssignment -> Prop) :
  (forall mk, Q (log ++ [mk]) (inr None)) -> (forall mk st, readAs (eventsOf [mk]) aid st -> Q (log ++ [mk]) (inr (Some st))) ->
  (forall log' e, Q log' (inl e)) -> lwp (readAssignment aid) log Q.
Proof.
  intros Hok Hsome Herr. unfold readAssignment. apply lwp_bind, lwp_await; [|auto]. intros [raw|] t s1 s2 _; [|by apply Hok].
  apply lwp_bind, parseObject_lwp; [|auto]. intros r Hr. apply lwp_bind.
  destruct (readStored r) as [st|] eqn:Es; cbn [needValue lwp]; [|auto]. apply Hsome. exists raw, r. split; [by left|done].
Qed.

Lemma registration_lwp log (Q : list (mark db) -> error + option record -> Prop) :
  (forall mk reg, (incarnationIs reg inc = true -> stillActive (eventsOf [mk])) -> Q (log ++ [mk]) (inr reg)) ->
  (forall log' e, Q log' (inl e)) -> lwp (registration_ w) log Q.
Proof.
  intros Hok Hsome. unfold registration_. apply lwp_bind, lwp_await; [|auto]. intros [raw|] t s1 s2 _; [|by apply Hok].
  apply lwp_bind, parseObject_lwp; [|auto]. intros r Hr. cbn [lwp]. apply Hok. intros Hi. exists raw, r. split; [by left|done].
Qed.

Lemma deliver_lwp aid log t s1 s2 :
  let claim := Sent (claimOrPopLeaseScript w inc slot (default [] identityId)) t s1 s2 (Some (Some aid)) in
  lwp (deliver w inc identityId slot aid) (log ++ [claim]) (fun log' o => forall a, o = inr (Deliver a) -> delivered log' a).
Proof.
  intros claim. unfold deliver. apply lwp_bind, readAssignment_lwp; [| |done].
  { intros mk. apply lwp_bind, lwp_any. by intros log' [e|[]]. }
  intros m1 st Hr. destruct (_ || _ || _) eqn:Eo; [apply lwp_bind, lwp_any; by intros log' [e|[]]|].
  apply lwp_bind, lwp_aborted. intros gone. destruct gone; [apply lwp_bind, lwp_any; by intros log' [e|[]]|].
  apply lwp_bind, registration_lwp; [|done]. intros m2 reg Hact. unfold storeErrorIf, throwIf.
  destruct (incarnationIs reg inc) eqn:Ei; cbn [negb]; [|done]. specialize (Hact eq_refl).
  unfold mbind at 1, act_bind at 1. cbn [abind]. destruct (optStrIs (workerIdentityId st) identityId) eqn:Eid; cbn [negb].
  2: { apply lwp_bind, lwp_any. by intros log' [e|[]]. }
  apply lwp_bind, lwp_now. intros clock. destruct (isExpired st clock) eqn:Ex.
  { apply lwp_bind, lwp_any. intros l1 [e|ack]; [done|]. apply lwp_bind, lwp_any. intros l2 [e|[]]; [done|].
    apply lwp_bind, lwp_any. by intros l3 [e|[]]. }
  apply lwp_bind, lwp_aborted. intros gone. destruct gone; [apply lwp_bind, lwp_any; by intros log' [e|[]]|].
  apply lwp_bind. unfold expiryOf. destruct (parseDate _) as [x|] eqn:Ep; cbn [needValue lwp]; [|done].
  apply lwp_bind, lwp_now. intros clock2. cbn [lwp]. intros a [= <-].
  rewrite !orb_false_iff in Eo. destruct Eo as [[E1 E2] E3]. unfold optStrIs in Eid. bools.
  exists aid, st, t, s1, s2, log, [m1; m2; ReadClock clock; ReadClock clock2], clock, x, clock2.
  split; [by rewrite <- !app_assoc|]. change (eventsOf [m1; m2; ReadClock clock; ReadClock clock2]) with (eventOf m1 ++ eventOf m2 ++ []).
  change (eventsOf [m1]) with (eventOf m1 ++ []) in Hr. change (eventsOf [m2]) with (eventOf m2 ++ []) in Hact.
  split; [destruct Hr as (text & r & Hin & Hr'); exists text, r; split; [set_solver|done]|].
  split; [destruct Hact as (text & r & Hin & Hr'); exists text, r; split; [set_solver|done]|].
  split; [by split|]. split; [set_solver|]. by split_and!.
Qed.

Lemma leaseRound_lwp deadline log :
  lwp (leaseRound w inc identityId slot deadline) log (fun log' o => forall a, o = inr (Some (Some a)) -> delivered log' a).
Proof.
  unfold leaseRound, claimOrPopLease. apply lwp_bind, lwp_try, lwp_await.
  - intros [aid|] t s1 s2 _.
    + apply lwp_bind, lwp_try. eapply lwp_mono; [apply deliver_lwp|]. intros l2 [e|[| |a]] Hd; cbn [lwp]; try done.
      * apply lwp_bind, lwp_any. intros l3 [e'|[]]; [done|]. apply lwp_bind, lwp_aborted. intros g. by destruct g.
      * intros a' [= <-]. by apply Hd.
    + apply lwp_bind, lwp_now. intros clock. apply lwp_bind, lwp_any. by intros l3 [e|[]].
  - intros mk. apply lwp_bind, lwp_aborted. intros g. by destruct g.
Qed.

Lemma lease_lwp waitMs log :
  lwp (lease cfg w inc waitMs identityId slot) log (fun log' o => forall a, o = inr (Some a) ->
    delivered log' a /\ forall n, slot = Some n -> (0 <= n < maxWorkspaceLeaseSlots cfg)%Z).
Proof.
  unfold lease. apply lwp_bind.
  eapply (lwp_mono _ _ (fun _ o => o = inr tt -> forall n, slot = Some n -> (0 <= n < maxWorkspaceLeaseSlots cfg)%Z)).
  { destruct slot as [n|]; [|done]. apply lwp_bind, registration_lwp; [|done]. intros mk reg _.
    unfold storeErrorIf, throwIf. destruct (slotNegotiated cfg reg inc n) eqn:En; cbn [negb lwp]; [|done].
    intros _ n' [= <-]. unfold slotNegotiated in En. bools. lia. }
  intros l1 [e|[]] Hn; [done|]. specialize (Hn eq_refl).
  apply lwp_bind, lwp_now. intros start. cbn [lwp]. exists (fun _ _ => True). split; [done|]. intros first l2 _.
  apply lwp_bind, lwp_aborted. intros gone. destruct gone; [done|].
  apply lwp_bind. eapply (lwp_mono _ _ (fun _ o => exists b, o = inr b)).
  { destruct first; [by eexists|]. apply lwp_bind, lwp_now. intros clock. by eexists. }
  intros l3 o [inTime ->]. destruct inTime; cbn [negb]; [|done].
  apply lwp_bind. eapply lwp_mono; [apply leaseRound_lwp|]. intros l4 [e|[[a|]|]] Hd; cbn [lwp]; try done.
  intros a' [= <-]. split; [by apply Hd|done].
Qed.
End logs.
End lease.

(** (C39) A lease delivers the worker's own work, while it can still be done. When a
    lease call returns an assignment, then in this run it was claimed for the caller's
    worker, incarnation, slot and identity; after that its record was read and names
    exactly these, the incarnation was still the registered one, and a reading of the
    clock found it unexpired. The remaining time it carries is measured by the last
    reading of the call; a concurrent slot lies below the configured number of slots.
    This holds whatever the store contains and other replicas do. *)
Theorem lease_delivers `{Platform} `{Runtime} cfg {db} `{RedisServer db} (others : db -> db -> Prop) (s s' : db) log
    w inc waitMs identityId slot a :
  logged others s (lease cfg w inc waitMs identityId slot) log s' (inr (Some a)) ->
  delivered w inc identityId slot log a /\ (forall n, slot = Some n -> (0 <= n < maxWorkspaceLeaseSlots cfg)%Z).
Proof.
  intros Hp. exact (lwp_sound others _ _ _ _ _ Hp [] _ (lease_lwp cfg w inc identityId slot waitMs []) a eq_refl).
Qed.

(** An assignment waits for worker "w" until 9 s. *)
Definition example_stored : StoredAssignment :=
  Stored (Ownership (js "a1") (js "w") (js "incarnation-0001") None None 1 (js "hash") None (toISOString 9000) None None)
    (js "token") None None (JObj []).
Definition waiting_server : keyspace :=
  <[assignmentKey (js "a1") := Entry (VStr (stringify (JObj (storedFields example_stored)))) (Some 39000%Z)]>
  (<[queueKey (js "w") (js "incarnation-0001") None := Entry (VList [js "a1"]) (Some 39000%Z)]>
  (<[workerKey (js "w") := Entry (VStr (stringify (JObj [(js "incarnationId", JStr (js "incarnation-0001"))]))) None]> ∅)).

Definition example_lease : act (option wireAssignment) :=
  lease (H := asciiPlatform) (StoreConfig 60 8 false) (js "w") (js "incarnation-0001") 2000 None None.

Lemma lease_delivers_witness : exists log,
  delivered (js "w") (js "incarnation-0001") None None (db := keyspace) log (toWire example_stored 7997)
  /\ (forall n, @None Z = Some n -> (0 <= n < maxWorkspaceLeaseSlots (StoreConfig 60 8 false))%Z).
Proof.
  assert (exists tr s', performs (fun _ _ => False) waiting_server example_lease tr s' (inr (Some (toWire example_stored 7997)))) as (tr & s' & Hp).
  { eexists _, _. apply (play_performs _ 100 _ (World 1000 None 0)). vm_compute. reflexivity. }
  apply performs_logged in Hp as (log & Hl & _). exists log.
  exact (lease_delivers (H := asciiPlatform) (StoreConfig 60 8 false) (fun _ _ => False) waiting_server _ log (js "w")
            (js "incarnation-0001") 2000 None None _ Hl).
Defined.

(** ** Settlements *)

(** The settlement text an accepted call stores. *)
Definition holdsText (ks : keyspace) (aid text : jstr) : Prop :=
  exists x, ks !! settlementKey aid = Some (Entry (VStr text) x).

Lemma settlement_ne_worker aid s : settlementKey aid <> PREFIX ++ js ":worker:" ++ s.
Proof. unfold settlementKey. intros E. apply app_inv_head in E. discriminate. Qed.

Section stored.
Context `{Platform} (now : Z) (w aid inc : jstr) (slot : option Z) (fence : option jstr) (text : jstr) (ttl : Z) (rejected : bool)
  (identityId sinc : jstr) (Hf : forall f, fence = Some f -> exists x, f = workspaceQuarantineKey w x).

Lemma tail_stored (ks : keyspace) :
  wp (rd (SET (settlementKey aid) text (EX ttl) false);;
      claimed ← getIs (leaseClaimKey w inc slot) aid;
      (if (claimed : bool) then rd (DEL [leaseClaimKey w inc slot; leaseAckKey w inc slot]);; Ret tt else Ret tt);;
      match fence with
      | Some f => if rejected && bool_decide (slot = None) then rd (DEL [f]);; Ret 1%Z else Ret 1%Z
      | None => Ret 1%Z
      end) now ks (fun _ ks' => holdsText ks' aid text).
Proof.
  apply wp_bind, wp_set. set (ks1 := <[settlementKey aid := _]> ks).
  match goal with |- wp ?p now ks1 _ => assert (avoids (settlementKey aid) p) as Hav end.
  { unfold getIs, leaseClaimKey, leaseAckKey, incarnationPrefix.
    destruct fence as [f|]; [destruct (Hf f eq_refl) as [x ->]; unfold workspaceQuarantineKey|];
      commands_auto ltac:(cbn [writes]; rewrite ?not_elem_of_cons, <- ?app_assoc;
        repeat split; first [apply not_elem_of_nil | apply settlement_ne_worker]). }
  eapply wp_mono; [by apply (wp_avoids _ _ now ks1 Hav)|]. intros r ks' E. unfold holdsText. rewrite E. unfold ks1.
  rewrite lookup_insert_eq. eauto.
Qed.

(** Accepted now or before, the text is stored. *)
Lemma settle_stored (ks : keyspace) :
  wp (settleScript w aid inc slot fence text ttl rejected identityId sinc) now ks (fun r ks' =>
    (r = Some 1%Z \/ r = Some 2%Z) -> holdsText ks' aid text).
Proof.
  unfold settleScript. apply wp_bind, wp_get; [|intros [|]; done]. intros [v|] Hv.
  { apply wp_ret. destruct (bool_decide_reflect (v = text)) as [->|]; [|intros [|]; done]. intros _. unfold holdsText, find in *.
    destruct (ks !! settlementKey aid) as [[[] x]|]; try (by destruct (alive _ _)); try done.
    destruct (alive _ _); [|done]. injection Hv as ->. eauto. }
  apply wp_bind, wp_exists. destruct (bool_decide _); cbn [negb]; [|by apply wp_ret; intros [|]].
  apply wp_bind.
  eapply (wp_mono _ _ _ (fun _ _ => True)); [apply wp_true|]. intros [[]|] ks1 _; [by apply wp_ret; intros [|]| |by intros [|]].
  apply wp_bind.
  eapply (wp_mono _ _ _ (fun _ _ => True)); [apply wp_true|]. intros [[]|] ks2 _; cbn [negb]; [|by apply wp_ret; intros [|]|by intros [|]].
  apply wp_bind.
  eapply (wp_mono _ _ _ (fun _ _ => True)); [apply wp_true|]. intros [[]|] ks3 _; [by apply wp_ret; intros [|]| |by intros [|]].
  apply wp_bind, wp_get; [|by intros [|]]. intros cur _. destruct (neqStr _ _); [by apply wp_ret; intros [|]|].
  eapply wp_mono; [apply tail_stored|]. auto.
Qed.
End stored.

(** A field is not touched by an update of another. *)
Lemma field_setField_ne (o : record) k v k' : k' <> js k -> field (setField o k v) k' = field o k'.
Proof.
  intros Hk. unfold setField. case_bool_decide as Hin; clear Hin; induction o as [|[k1 v1] o IH].
  - done.
  - cbn [map fst]. destruct (bool_decide_reflect (k1 = js k)) as [->|Hne]; cbn [field]; [by rewrite bool_decide_eq_false_2|].
    by rewrite IH.
  - cbn [app field]. by rewrite bool_decide_eq_false_2.
  - cbn [app field]. by rewrite IH.
Qed.

Lemma withoutLaneGit_field settlement k : k <> js "result" -> field (withoutLaneGit settlement) k = field settlement k.
Proof.
  intros Hk. unfold withoutLaneGit. destruct (negb _); [done|]. destruct (objField _ _); [|done]. by apply field_setField_ne.
Qed.

Section settling.
Context `{Platform} `{Runtime} (cfg : storeConfig) (w aid : jstr) (identityId : option jstr) (settlement : record).

Lemma withoutLaneGit_holds st r : holdsLease st (withoutLaneGit r) = holdsLease st r.
Proof. unfold holdsLease, strField. by rewrite !withoutLaneGit_field. Qed.

(** The settlement as the code may reduce it: without the lane's Git report. *)
Definition reduced (s : record) : Prop :=
  s = settlement \/ s = withoutLaneGit settlement \/ s = withoutLaneGit (withoutLaneGit settlement).

(** What a completed call rests on: the stored settlement was read, or the script
    accepted it from the holder of the assignment's lease. *)
Definition settledBy (tr : list event) (s : record) : Prop :=
  Event (rd (GET (settlementKey aid))) (Some (Some (stringify (JObj s)))) ∈ tr
  \/ exists st ttl rejected code, readAs tr aid st /\ workerId st = w /\ workerIdentityId st = identityId
     /\ holdsLease st settlement = true /\ (code = 1 \/ code = 2)%Z
     /\ Event (settleScript w aid (incarnationId st) (workspaceLeaseSlot st) (fenceKey st) (stringify (JObj s)) ttl rejected
          (default [] identityId) (incarnationId st)) (Some code) ∈ tr.

Lemma settledBy_mono tr tr' s : tr ⊆ tr' -> settledBy tr s -> settledBy tr' s.
Proof.
  intros Hs [Hin|(st & ttl & rej & code & Hr & Hw & Hi & Hl & Hc & Hin)]; [left; by apply Hs|right].
  exists st, ttl, rej, code. split; [by eapply readAs_mono|]. split_and!; try done. by apply Hs.
Qed.

(** The trace only grows. *)
Lemma awp_grows {A} (m : act A) tr : awp m tr (fun tr' _ => tr ⊆ tr').
Proof.
  assert (forall tr0, tr0 ⊆ tr -> awp m tr (fun tr' _ => tr0 ⊆ tr')) as Hg; [|by apply Hg].
  revert tr. induction m as [A a|A e|A R c k IH|A V B v body IHb k IHk]; intros tr tr0 H0'; cbn [awp]; try done.
  - destruct c; intros r; apply IH; try done. etrans; [exact H0'|]. by apply list_subseteq_app_l.
  - exists (fun _ tr' => tr0 ⊆ tr'). split; [done|]. intros v' tr' Hi. eapply awp_mono; [by apply IHb|].
    intros tr'' [e|[v''|b]] Hs; [done..|]. by apply IHk.
Qed.

Lemma commitSettlement_awp s0 (st : StoredAssignment) (reg : option record) tr : reduced s0 -> s0 = settlement \/ s0 = withoutLaneGit settlement ->
  holdsLease st s0 = holdsLease st settlement -> readAs tr aid st -> workerId st = w ->
  awp (commitSettlement cfg w aid s0 identityId st reg) tr (fun tr' o => o = inr tt -> exists s, reduced s /\ settledBy tr' s).
Proof.
  intros Hred Hs0 Hh Hr Hw. unfold commitSettlement, storeErrorIf, throwIf.
  destruct (_ || _ || _) eqn:Eo; [done|]. rewrite !orb_false_iff in Eo. destruct Eo as [[E1 E2] E3].
  unfold optStrIs in E3. bools. unfold mbind at 1, act_bind at 1. cbn [abind].
  apply awp_bind. intros clock. cbn [awp]. destruct (negb (statusIs s0 "rejected") && isExpired st clock); [done|]. unfold mbind at 1, act_bind at 1. cbn [abind].
  apply awp_bind. intros clock2. cbn [awp]. apply awp_bind.
  destruct (assignmentOutcomeTtlSeconds st clock2) as [ttl|]; cbn [needValue awp]; [|done].
  set (s := sanitizeLaneGit cfg s0 st reg).
  assert (reduced s) as Hs.
  { unfold s, sanitizeLaneGit. destruct (_ || _ || _ || _); [done|]. case_match; [|done]. unfold reduced in *.
    destruct Hs0 as [-> | ->]; auto. }
  apply awp_bind, awp_await_in; [|done]. intros code tr1 S1 Hin. apply awp_bind.
  assert (forall Q : list event -> error + unit -> Prop, ((code = 1 \/ code = 2)%Z -> Q tr1 (inr tt)) -> (forall e, Q tr1 (inl e)) ->
    awp (settleCode code) tr1 Q) as Hcode.
  { intros Q H1 H2. unfold settleCode, storeError. repeat (case_match; [by apply H2|]). apply H1. bools. lia. }
  apply Hcode; [|done]. intros Hc.
  assert (settledBy tr1 s) as Hby.
  { right. exists st, ttl, (statusIs s "rejected"), code. split; [by eapply readAs_mono|]. split_and!; try done. by rewrite <- Hh. }
  eapply awp_mono; [apply awp_grows|]. intros tr2 o S2 _. exists s. split; [done|]. exact (settledBy_mono _ _ _ S2 Hby).
Qed.

Lemma recognise_cases existing : recognise settlement existing = settlement \/ recognise settlement existing = withoutLaneGit settlement.
Proof. unfold recognise. destruct existing; [|by left]. case_match; [by right|by left]. Qed.

Lemma settle_awp tr :
  awp (settle cfg w aid settlement identityId false) tr (fun tr' o => o = inr tt -> exists s, reduced s /\ settledBy tr' s).
Proof.
  unfold settle. apply awp_bind, awp_await_in; [|done]. intros existing tr1 S1 Hin. cbv zeta.
  pose proof (recognise_cases existing) as Hs0. revert Hs0. generalize (recognise settlement existing). intros s0 Hs0.
  assert (reduced s0) as Hred by (unfold reduced; tauto).
  assert (forall st : StoredAssignment, holdsLease st s0 = holdsLease st settlement) as Hh.
  { intros st. destruct Hs0 as [-> | ->]; [done|]. apply withoutLaneGit_holds. }
  unfold storeErrorIf, throwIf.
  destruct (bool_decide_reflect (existing = Some (stringify (JObj s0)))) as [->|Hne].
  - assert (settledBy tr1 s0) as Hby by (by left).
    eapply awp_mono; [apply awp_grows|]. intros tr2 o S2 _. exists s0. split; [done|]. exact (settledBy_mono _ _ _ S2 Hby).
  - cbn [negb andb]. destruct existing as [e|]; cbn [andb]; [done|]. rewrite bool_decide_eq_false_2 by (by intros []).
    unfold mbind at 1, act_bind at 1. cbn [abind andb]. apply awp_bind, readAssignment_awp; [done| |done].
    intros tr2 st S2 Hr. destruct (bool_decide_reflect (workerId st = w)) as [Hw|]; cbn [negb]; [|done].
    unfold mbind at 1, act_bind at 1. cbn [abind]. apply awp_bind, (registration_awp w []); [|done].
    intros tr3 reg S3 _. apply commitSettlement_awp; try done. by eapply readAs_mono.
Qed.

(** ** Settlements that quarantine

    The call proves its ownership by the receipt of the workspace's fence. *)

(** The receipt as the call read it, and that it is the caller's. *)
Definition ownReceipt (tr : list event) (receipt : AssignmentOwnership) (metadata : jstr) (epoch : option jstr) : Prop :=
  exists r, Event (receiptScript aid) (Some (Some metadata, epoch)) ∈ tr
    /\ parse metadata = Some (JObj r) /\ readOwnership r = Some receipt
    /\ workerId receipt = w /\ assignmentId receipt = aid /\ workerIdentityId receipt = identityId
    /\ holdsLease receipt settlement = true /\ statusIs settlement "rejected" = true.

Definition quarantinedBy (tr : list event) (receipt : AssignmentOwnership) (metadata : jstr) (epoch : option jstr) (fence : jstr) (ttl : Z) : Prop :=
  ownReceipt tr receipt metadata epoch /\ workspaceFence receipt = Some fence
  /\ Event (receiptCommitScript w aid metadata (incarnationId receipt) (default [] identityId) (default [] epoch)
       (workspaceQuarantineKey w fence) (workspaceLeaseSlot receipt) (stringify (JObj settlement)) ttl true) (Some 1%Z) ∈ tr.

Lemma quarantine_awp tr :
  awp (settle cfg w aid settlement identityId true) tr (fun tr' o => o = inr tt ->
    exists receipt metadata epoch fence ttl, quarantinedBy tr' receipt metadata epoch fence ttl).
Proof.
  unfold settle, quarantineSettledWorkspace. apply awp_bind, awp_await_in; [|done]. intros [[metadata|] epoch] tr1 S1 Hin; [|done]. cbn [fst snd].
  apply awp_bind, parseObject_awp; [|done]. intros r Hr. apply awp_bind. destruct (readOwnership r) as [receipt|] eqn:Eo; cbn [needValue awp]; [|done].
  destruct (workspaceFence receipt) as [fence|] eqn:Ef; [|done]. destruct (workspaceLeaseSlot receipt) as [slot|] eqn:Es; [|done].
  unfold storeErrorIf, throwIf. destruct (_ || _ || _ || _ || _) eqn:Eg; [done|]. rewrite !orb_false_iff in Eg. destruct Eg as [[[[E1 E2] E3] E4] E5].
  unfold optStrIs in E5. bools. unfold mbind at 1, act_bind at 1. cbn [abind]. apply awp_bind, awp_now. intros clock.
  apply awp_bind. destruct (assignmentOutcomeTtlSeconds receipt clock) as [ttl|]; cbn [needValue awp]; [|done].
  apply awp_bind, awp_await_in; [|done]. intros code tr2 S2 Hin2. destruct (negb (code =? 1)%Z) eqn:Ec; [done|]. bools. subst code.
  unfold mbind at 1, act_bind at 1. cbn [abind]. eapply awp_mono; [apply awp_grows|]. intros tr3 o S3 _.
  exists receipt, metadata, epoch, fence, ttl. split; [|split; [done|rewrite Es; by apply S3]]. exists r. split; [by apply S3, S2|]. by split_and!.
Qed.
End settling.

(** A settlement of the assignment is stored, this one or an earlier. *)
Definition holdsSome (ks : keyspace) (aid : jstr) : Prop := is_Some (ks !! settlementKey aid).

(** The receipt says that the result was committed and the workspace cleaned up. *)
Definition receiptClosed (now : Z) (ks : keyspace) (aid : jstr) : Prop :=
  exists h, as_hash (find now ks (workspaceFenceReceiptKey aid)) = Some h
    /\ h !! js "localCleanup" = Some (js "1") /\ h !! js "resultCommitted" = Some (js "1").

Section quarantine.
Context `{Platform} (now : Z).

Lemma hgetIs_rule {A} key f v (k : bool -> prog A) ks (Q : option A -> keyspace -> Prop) :
  (forall b, (b = true -> exists h, as_hash (find now ks key) = Some h /\ h !! f = Some v) -> wp (k b) now ks Q) -> Q None ks ->
  wp (hgetIs key f v ≫= k) now ks Q.
Proof.
  intros Hk Hn. apply wp_bind. unfold hgetIs. apply wp_bind, wp_cmd; [|done]. intros ks' r. cbn [exec].
  destruct (as_hash (find now ks key)) as [h|] eqn:Eh; [|done]. cbn [mbind option_bind]. intros [= <- <-]. apply wp_ret, Hk.
  intros Hb%bool_decide_eq_true. eauto.
Qed.

Lemma receiptCurrent_reads w aid metadata inc identityId epoch fence ks :
  wp (receiptCurrent w aid metadata inc identityId epoch fence) now ks (fun _ ks' => ks' = ks).
Proof.
  unfold receiptCurrent. apply hgetIs_rule; [|done]. intros b _. destruct b; [|by apply wp_ret].
  apply hgetIs_rule; [|done]. intros b _. destruct b; [|by apply wp_ret].
  apply wp_bind, wp_get; [|done]. intros current _. destruct (neqStr _ _); [by apply wp_ret|].
  apply wp_bind, wp_get; [|done]. intros stable _. destruct (negb _); [by apply wp_ret|].
  apply wp_bind, wp_get; [|done]. intros e _. by apply wp_ret.
Qed.

(** The last steps of the script leave the settlement alone. *)
Lemma receiptTail_avoids w inc slot aid :
  avoids (settlementKey aid) (delIfOwned (leaseClaimKey w inc slot) aid;; delIfOwned (leaseAckKey w inc slot) aid;; Ret 1%Z).
Proof.
  unfold delIfOwned, getIs, leaseClaimKey, leaseAckKey, incarnationPrefix.
  commands_auto ltac:(cbn [writes]; rewrite ?not_elem_of_cons, <- ?app_assoc;
    repeat split; first [apply not_elem_of_nil | apply settlement_ne_worker]).
Qed.

Lemma receiptCommit_settles w aid metadata inc identityId epoch fence slot text ttl ks :
  wp (receiptCommitScript w aid metadata inc identityId epoch fence slot text ttl true) now ks (fun r ks' =>
    r = Some 1%Z -> receiptClosed now ks aid \/ holdsSome ks' aid).
Proof.
  unfold receiptCommitScript. apply wp_bind. eapply wp_mono; [apply receiptCurrent_reads|]. intros [[]|] ks1 ->; cbn [negb]; [|by apply wp_ret|done].
  unfold receiptAction. cbv zeta. apply wp_bind, hgetIs_rule; [|done]. intros cleaned Hcl. apply wp_bind.
  apply (wp_mono _ _ _ (fun r ks' => ks' = ks /\ (r = Some true -> receiptClosed now ks aid))).
  { unfold andAlso. destruct cleaned; [|by apply wp_ret]. unfold hgetIs. apply wp_bind, wp_cmd; [|done]. intros ks' r. cbn [exec].
    destruct (as_hash (find now ks _)) as [h|] eqn:Eh; [|done]. cbn [mbind option_bind]. intros [= <- <-]. apply wp_ret. split; [done|].
    intros [= Hb]. apply bool_decide_eq_true in Hb. destruct (Hcl eq_refl) as (h' & Eh' & Hc). injection Eh' as <-. exists h. split; [exact Eh|split; [exact Hc|exact Hb]]. }
  intros [[]|] ks1 [-> Hclosed]; [apply wp_ret, wp_ret; intros _; left; by apply Hclosed| |done].
  apply wp_bind, wp_set. set (ks1 := <[fence := _]> ks). apply wp_bind, wp_cmd; [|done]. intros ks2 r. cbn [exec andb]. intros Es.
  apply wp_ret. eapply wp_mono; [apply (wp_avoids (settlementKey aid) _ now ks2), receiptTail_avoids|]. intros r' ks3 E _. right. unfold holdsSome. rewrite E.
  case_bool_decide as Hl; injection Es as <- <-; [|rewrite lookup_insert_eq; by eexists].
  destruct Hl as [e He]. unfold find in He. by destruct (ks1 !! settlementKey aid).
Qed.
End quarantine.

(** (C40) A settlement that was acknowledged is stored. Let a settle call return. It was
    told so by one of its own commands, which left the server with the settlement the
    worker sent, up to the Git report of its lane, under the assignment's key; either
    that command read the settlement there, or it stored it on proof of the lease: the
    caller's incarnation, generation and token are the assignment's, which names this
    worker and identity. A call that quarantines the workspace rejects the assignment
    on proof of its receipt, and leaves a settlement stored, its own unless there was
    one before; or the receipt says that a result was committed and the workspace
    cleaned up. *)
Theorem settle_durable `{Platform} `{Runtime} cfg {db} `{RedisServer db} (others : db -> db -> Prop) (s s' : db) log
    w aid settlement identityId quarantine :
  logged others s (settle cfg w aid settlement identityId quarantine) log s' (inr tt) ->
  if quarantine then
    exists receipt metadata epoch fence ttl t s1 s2,
      ownReceipt w aid identityId settlement (eventsOf log) receipt metadata epoch
      /\ Sent (receiptCommitScript w aid metadata (incarnationId receipt) (default [] identityId) (default [] epoch)
           (workspaceQuarantineKey w fence) (workspaceLeaseSlot receipt) (stringify (JObj settlement)) ttl true) t s1 s2 (Some 1%Z) ∈ log
      /\ (receiptClosed t (content s1) aid \/ holdsSome (content s2) aid)
  else
    exists x t s1 s2, reduced settlement x /\ holdsText (content s2) aid (stringify (JObj x))
      /\ (Sent (rd (GET (settlementKey aid))) t s1 s2 (Some (Some (stringify (JObj x)))) ∈ log
          \/ exists st ttl rejected code, readAs (eventsOf log) aid st /\ workerId st = w /\ workerIdentityId st = identityId
               /\ holdsLease st settlement = true
               /\ Sent (settleScript w aid (incarnationId st) (workspaceLeaseSlot st) (fenceKey st) (stringify (JObj x)) ttl rejected
                    (default [] identityId) (incarnationId st)) t s1 s2 (Some code) ∈ log).
Proof.
  intros Hl. pose proof (logged_performs others _ _ _ _ _ Hl) as Hp. destruct quarantine.
  - destruct (awp_sound others _ _ _ _ _ Hp [] _ (quarantine_awp cfg w aid identityId settlement []) eq_refl)
      as (receipt & metadata & epoch & fence & ttl & Hown & _ & Hin).
    destruct (event_sent others _ _ _ _ _ _ _ _ Hl Hin) as (t & s1 & s2 & Hsent & E).
    exists receipt, metadata, epoch, fence, ttl, t, s1, s2. split; [done|]. split; [done|].
    exact (run_wp _ _ _ _ _ _ E (receiptCommit_settles t _ _ _ _ _ _ _ _ _ _ _) eq_refl).
  - destruct (awp_sound others _ _ _ _ _ Hp [] _ (settle_awp cfg w aid identityId settlement []) eq_refl) as (x & Hx & Hby). cbn [app] in Hby.
    destruct Hby as [Hin|(st & ttl & rej & code & Hr & Hw & Hi & Hh & Hc & Hin)];
      destruct (event_sent others _ _ _ _ _ _ _ _ Hl Hin) as (t & s1 & s2 & Hsent & E); exists x, t, s1, s2; (split; [done|]).
    + split; [|by left]. refine (run_wp _ _ _ _ _ (fun r ks => r = Some (Some (stringify (JObj x))) -> holdsText ks aid (stringify (JObj x))) E _ eq_refl).
      apply wp_get; [|done]. intros v Hv [= ->]. unfold holdsText, find in *.
      destruct (content s1 !! settlementKey aid) as [[[] y]|]; try (by destruct (alive _ _)); try done.
      destruct (alive _ _); [|done]. injection Hv as ->. eauto.
    + split; [|right; by exists st, ttl, rej, code].
      refine (run_wp _ _ _ _ _ _ E (settle_stored t w aid _ _ _ _ _ _ _ _ _ _) _).
      * intros f Ef. unfold fenceKey in Ef. destruct (assignmentWorkspace st) as [y|]; [|done]. injection Ef as <-. rewrite Hw. by exists y.
      * destruct Hc as [-> | ->]; auto.
Qed.

(** Worker "w" settles the assignment it holds. *)
Definition held_stored : StoredAssignment :=
  Stored (Ownership (js "a1") (js "w") (js "incarnation-0001") None None 1 (tokenHash (H := asciiPlatform) (js "token")) None
            (toISOString 9000) None None) (js "token") None None (JObj []).
Definition held_server : keyspace :=
  <[assignmentKey (js "a1") := Entry (VStr (stringify (JObj (storedFields held_stored)))) (Some 39000%Z)]>
  (<[assignmentDeadlineKey (js "a1") := Entry (VStr (js "1")) (Some 9000%Z)]>
  (<[workerKey (js "w") := Entry (VStr (stringify (JObj [(js "incarnationId", JStr (js "incarnation-0001"))]))) None]>
  (<[workerIncarnationKey (js "w") := Entry (VStr (js "incarnation-0001")) None]> ∅))).
Definition example_settlement : record :=
  [(js "status", JStr (js "fulfilled")); (js "incarnationId", JStr (js "incarnation-0001")); (js "generation", JInt 1);
   (js "leaseToken", JStr (js "token")); (js "result", JObj [])].
Definition example_settle : act unit :=
  settle (H := asciiPlatform) (StoreConfig 60 8 false) (js "w") (js "a1") example_settlement None false.

Lemma settle_durable_witness : exists log t s1 s2 x,
  reduced example_settlement x /\ holdsText (content (s2 : keyspace)) (js "a1") (stringify (JObj x))
  /\ (Sent (rd (GET (settlementKey (js "a1")))) t s1 s2 (Some (Some (stringify (JObj x)))) ∈ log
      \/ exists st ttl rejected code, readAs (eventsOf log) (js "a1") st /\ workerId st = js "w" /\ workerIdentityId st = None
           /\ holdsLease (H := asciiPlatform) st example_settlement = true
           /\ Sent (settleScript (js "w") (js "a1") (incarnationId st) (workspaceLeaseSlot st) (fenceKey (H := asciiPlatform) st)
                (stringify (JObj x)) ttl rejected [] (incarnationId st)) t s1 s2 (Some code) ∈ log).
Proof.
  assert (exists tr s', performs (fun _ _ => False) held_server example_settle tr s' (inr tt)) as (tr & s' & Hp).
  { eexists _, _. apply (play_performs _ 100 _ (World 1000 None 0)). vm_compute. reflexivity. }
  apply performs_logged in Hp as (log & Hl & _).
  destruct (settle_durable (H := asciiPlatform) (StoreConfig 60 8 false) (fun _ _ => False) held_server _ log (js "w") (js "a1")
            example_settlement None false Hl) as (x & t & s1 & s2 & Hx).
  exists log, t, s1, s2, x. exact Hx.
Defined.
