(* ===== verification/WorkspaceRequests.v ===== *)
(** * Durable workspace requests

    Models [RedisWorkspaceRequests] (service/src/workspace-tools/requests.ts): the
    record of a request in Redis, its scripts, and the methods by which API
    replicas submit, read, cancel and advance it. [HGETALL] is the reads of the
    fields the code uses. Log callbacks ([transition]) and the messages of errors
    are left out. An operation that loses the race of [deadline] goes on detached:
    its scripts are then steps of another client. *)

From stdpp Require Import base list numbers option strings gmap sorting.
From Stdlib Require Import ZArith Lia.
From S2P Require Import Prelude JsString Json Protocol Redis JsonText BridgeKeys BridgeAdmission BridgeSlots BridgeStore Async BridgeRouting BridgeMethods BridgeDispatch.

Definition REQUESTS_PREFIX : jstr := js "codeapi:workspace-requests:v1".
Definition RETENTION_MS : Z := (24 * 60 * 60000)%Z.
Definition CLAIM_MS : Z := 10000%Z.

(** [WORKSPACE_REQUEST_ID_PATTERN]. *)
Definition isRequestId (s : jstr) : bool :=
  (16 <=? length s) && (length s <=? 128) && forallb (fun c => isAlnum c || oneOf c "_-") s.

(** ** Canonical text *)

Definition COMMA : Z := 44%Z.

(** [Array.prototype.sort] on property names: by UTF-16 code units. *)
Definition nameLe (a b : jstr * jstr) : Prop := lex (fst b) (fst a) = false.
#[global] Instance nameLe_dec : RelDecision nameLe.
Proof. intros a b. unfold nameLe. apply _. Defined.

Section canonical.
Context `{Runtime}.

Fixpoint canonical (value : json) : jstr :=
  match value with
  | JArr l => js "[" ++ joinWith COMMA (map canonical l) ++ js "]"
  | JObj fields =>
      js "{" ++ joinWith COMMA
        (map (fun kv => stringify (JStr (fst kv)) ++ js ":" ++ snd kv)
           (merge_sort nameLe (map (fun kv => (fst kv, canonical (snd kv))) fields))) ++ js "}"
  | _ => stringify value
  end.
End canonical.

Record WorkspaceRequestOwner := Owner { ow_tenantId : jstr; ow_userId : jstr }.

Definition requestKey `{Platform} `{Runtime} (owner : WorkspaceRequestOwner) (requestId scope : jstr) : jstr :=
  REQUESTS_PREFIX ++ js ":"
    ++ sha256hex (canonical (JArr [JStr scope; JStr (ow_tenantId owner); JStr (ow_userId owner); JStr requestId])).

Definition activeKeyOf (scope : jstr) : jstr :=
  if isEmpty scope then REQUESTS_PREFIX ++ js ":active" else REQUESTS_PREFIX ++ js ":" ++ scope ++ js ":active".

Definition claimKeyOf (key : jstr) : jstr := key ++ js ":claim".

(** ** The record *)

(** [StoredWorkspaceRequest], whole. *)
Record WorkspaceRecord := WRecord {
  d_id : jstr; d_key : jstr; d_fingerprint : jstr; d_workerId : jstr; d_tenantId : jstr;
  d_requireTenantBinding : bool; d_request : record; d_registration : record;
  d_createdAtMs : Z; d_queueDeadlineAtMs : Z; d_executionTimeoutMs : Z;
  d_assignment : option StoredAssignment; d_settlement : option record;
  d_admittedAtMs : option Z; d_finishedAtMs : option Z; d_state : jstr; d_cancelRequested : bool;
  d_result : option json; d_error : option jstr;
}.

Definition QUEUED : jstr := js "queued".
Definition ADMITTED : jstr := js "admitted".

(** [state === 'queued' || state === 'admitted']. *)
Definition isOpen (state : jstr) : bool := bool_decide (state = QUEUED) || bool_decide (state = ADMITTED).

(** The record as [submit] writes it. *)
Definition submittedFields (r : WorkspaceRecord) : record :=
  [(js "id", JStr (d_id r)); (js "key", JStr (d_key r)); (js "fingerprint", JStr (d_fingerprint r));
   (js "workerId", JStr (d_workerId r)); (js "tenantId", JStr (d_tenantId r));
   (js "requireTenantBinding", JBool (d_requireTenantBinding r)); (js "request", JObj (d_request r));
   (js "registration", JObj (d_registration r)); (js "createdAtMs", JInt (d_createdAtMs r));
   (js "queueDeadlineAtMs", JInt (d_queueDeadlineAtMs r)); (js "executionTimeoutMs", JInt (d_executionTimeoutMs r));
   (js "state", JStr (d_state r))].

(** [{ ...r, ...o }]. *)
Definition spread (r o : record) : record := o ++ r.

Definition boolField (o : record) (k : string) : option bool :=
  match field o (js k) with Some (JBool b) => Some b | _ => None end.

(** The object [read] builds from the parsed texts and the fields beside them. *)
Definition readRecord (r : record) (state : option jstr) (assignment : option StoredAssignment) (admittedAtMs : option Z)
    (cancelRequested : bool) : option WorkspaceRecord :=
  id ← strField r "id"; key ← strField r "key"; fp ← strField r "fingerprint"; w ← strField r "workerId";
  t ← strField r "tenantId"; b ← boolField r "requireTenantBinding"; q ← objField r "request";
  reg ← objField r "registration"; c ← intField r "createdAtMs"; d ← intField r "queueDeadlineAtMs";
  x ← intField r "executionTimeoutMs"; st ← state;
  Some (WRecord id key fp w t b q reg c d x assignment (objField r "settlement") admittedAtMs (intField r "finishedAtMs") st
    cancelRequested (field r (js "result")) (e ← objField r "error"; strField e "code")).

(** The outcome of a transition: [{ ...outcome, finishedAtMs }]. *)
Definition stateText (s : durableState) : jstr :=
  match s with Completed => js "completed" | Failed => js "failed" | Cancelled => js "cancelled" end.

(** [error.code]. *)
Definition codeText (c : BridgeStoreErrorCode) : jstr :=
  js match c with
     | WORKER_OFFLINE => "WORKER_OFFLINE"
     | WORKER_UNAUTHORIZED => "WORKER_UNAUTHORIZED"
     | WORKER_BUSY => "WORKER_BUSY"
     | WORKER_QUEUE_FULL => "WORKER_QUEUE_FULL"
     | WORKSPACE_QUEUE_TIMEOUT => "WORKSPACE_QUEUE_TIMEOUT"
     | ASSIGNMENT_EXPIRED => "ASSIGNMENT_EXPIRED"
     | ASSIGNMENT_FENCED => "ASSIGNMENT_FENCED"
     | ASSIGNMENT_NOT_FOUND => "ASSIGNMENT_NOT_FOUND"
     | WORKER_FENCED => "WORKER_FENCED"
     | WORKER_QUARANTINED => "WORKER_QUARANTINED"
     | WORKSPACE_QUARANTINED => "WORKSPACE_QUARANTINED"
     | WORKER_MISMATCH => "WORKER_MISMATCH"
     | ASSIGNMENT_INVALID => "ASSIGNMENT_INVALID"
     | RESULT_INVALID => "RESULT_INVALID"
     end.

Definition errorFields (code : jstr) : json := JObj [(js "code", JStr code)].

Definition outcomeFields (o : DurableWorkspaceOutcome) (finishedAtMs : Z) : record :=
  [(js "state", JStr (stateText (o_state o)))]
  ++ optProp "result" id (o_result o)
  ++ optProp "error" errorFields (o_error o)
  ++ optProp "settlement" JObj (o_settlement o)
  ++ [(js "finishedAtMs", JInt finishedAtMs)].

(** ** Scripts *)

Section scripts.
Context (key claimKey activeKey token : jstr).

(** The fields [read] uses. *)
Definition readFieldsScript : prog (option jstr * option jstr * option jstr * option jstr * option jstr * option jstr) :=
  record_ ← rd (HGET key (js "record"));
  outcome ← rd (HGET key (js "outcome"));
  state ← rd (HGET key (js "state"));
  assignment ← rd (HGET key (js "assignment"));
  admittedAtMs ← rd (HGET key (js "admittedAtMs"));
  cancelRequested ← rd (HGET key (js "cancelRequested"));
  Ret (record_, outcome, state, assignment, admittedAtMs, cancelRequested).

Definition cancelRequestScript (clock : Z) : prog Z :=
  state ← rd (HGET key (js "state"));
  if neqStr state QUEUED && neqStr state ADMITTED then Ret 0%Z else
  rd (HSET key [(js "cancelRequested", js "1")]);;
  rd (ZADD activeKey clock key);;
  Ret 1%Z.

Definition claimScript (claimMs until : Z) : prog Z :=
  taken ← rd (SET claimKey token (PX claimMs) true);
  if negb taken then Ret 0%Z else
  rd (ZADD activeKey until key);;
  Ret 1%Z.

(** The terminal transition. *)
Definition completeScript (outcome state : jstr) : prog Z :=
  claim ← rd (GET claimKey);
  if neqStr claim token then Ret 0%Z else
  current ← rd (HGET key (js "state"));
  if neqStr current QUEUED && neqStr current ADMITTED then Ret 0%Z else
  rd (HSET key [(js "state", state); (js "outcome", outcome)]);;
  Ret 1%Z.

(** The failure of a request that is still queued. *)
Definition failScript (outcome : jstr) : prog Z :=
  claim ← rd (GET claimKey);
  if neqStr claim token then Ret 0%Z else
  current ← rd (HGET key (js "state"));
  if neqStr current QUEUED then Ret 0%Z else
  rd (HSET key [(js "state", js "failed"); (js "outcome", outcome)]);;
  Ret 1%Z.

Definition releaseClaimScript : prog Z :=
  mine ← getIs claimKey token;
  if (mine : bool) then rd (DEL [claimKey]) else Ret 0%Z.
End scripts.

(** ** Methods *)

(** [deadline(operation)]: the timer may win. *)
Definition deadline {A} (m : act A) : act A :=
  late ← aborted;
  if (late : bool) then Throw OtherError else m.

Section methods.
Context `{Platform} `{Runtime} (cfg : storeConfig) (scope : jstr).

Definition activeKey : jstr := activeKeyOf scope.

Definition parseField (text : option jstr) : act (option record) :=
  match text with None => Done None | Some s => r ← parseObject s; Done (Some r) end.

Definition read (key : jstr) : act (option WorkspaceRecord) :=
  fields ← await (readFieldsScript key);
  let '(record_, outcome, state, assignment, admittedAtMs, cancelRequested) := fields in
  match record_ with
  | None => Done None
  | Some text =>
      base ← parseObject text;
      outcome ← parseField outcome;
      assignment ← parseField assignment;
      assignment ← match assignment with
                   | None => Done None
                   | Some a => a ← needValue (readStored a); Done (Some a) end;
      r ← needValue (readRecord (spread base (default [] outcome)) state assignment
            (admittedAtMs ≫= tonumber) (bool_decide (cancelRequested = Some (js "1"))));
      Done (Some r)
  end.

Record WorkspaceRequestStatus := Status {
  s_requestId : jstr; s_state : jstr; s_workerId : jstr; s_workspaceId : option jstr;
  s_workspaceInstanceId : option jstr; s_worktree : option jstr;
  s_queuePosition : option Z; s_queueWaitMs : Z; s_executionDeadlineAt : option jstr;
  s_cancelRequested : bool; s_result : option json; s_error : option jstr;
}.

Definition status (r : WorkspaceRecord) (requestId : jstr) : act WorkspaceRequestStatus :=
  rank ← (if bool_decide (d_state r = QUEUED) then await (position (d_workerId r) (d_id r)) else Done None);
  waitedUntil ← match d_admittedAtMs r, d_finishedAtMs r with
                | Some t, _ => Done t
                | None, Some t => Done (Z.min t (d_queueDeadlineAtMs r))
                | None, None => clock ← now_; Done (Z.min clock (d_queueDeadlineAtMs r))
                end;
  Done (Status requestId (d_state r) (d_workerId r) (strField (d_request r) "workspaceId")
    (strField (d_request r) "workspaceInstanceId") (strField (d_request r) "worktree") rank
    (Z.max 0 (waitedUntil - d_createdAtMs r)) (expiresAt ∘ owned <$> d_assignment r) (d_cancelRequested r)
    (d_result r) (d_error r)).

(** [prepare] derives the request the worker receives; with it may come a
    [release] that undoes the preparation. *)
Record submitArgs := SubmitArgs {
  u_owner : WorkspaceRequestOwner; u_requestId : jstr; u_workerId : jstr; u_requireTenantBinding : bool;
  u_request : record; u_queueWaitMs : Z; u_executionTimeoutMs : Z;
  u_prepare : option (act record); u_release : option (record -> act unit);
}.

Definition fingerprintOf (args : submitArgs) : jstr :=
  sha256hex (canonical (JObj
    [(js "workerId", JStr (u_workerId args)); (js "request", JObj (u_request args));
     (js "queueWaitMs", JInt (u_queueWaitMs args)); (js "executionTimeoutMs", JInt (u_executionTimeoutMs args));
     (js "requireTenantBinding", JBool (u_requireTenantBinding args))])).

(** [await prepared?.release?.().catch(() => undefined)]. *)
Definition releasePrepared (args : submitArgs) (prepared : option record) : act unit :=
  match prepared, u_release args with
  | Some q, Some m => catch (m q) (fun _ => Done tt)
  | _, _ => Done tt
  end.

Definition newRecord (args : submitArgs) (id key : jstr) (q registration : record) (now : Z) : WorkspaceRecord :=
  WRecord id key (fingerprintOf args) (u_workerId args) (ow_tenantId (u_owner args)) (u_requireTenantBinding args) q
    registration now (now + u_queueWaitMs args) (u_executionTimeoutMs args) None None None None QUEUED false None None.

Definition submitRequest (args : submitArgs) : act WorkspaceRequestStatus :=
  storeErrorIf (negb (isRequestId (u_requestId args))) ASSIGNMENT_INVALID;;
  let key := requestKey (u_owner args) (u_requestId args) scope in
  existing ← read key;
  match existing with
  | Some r =>
      throwIf (negb (bool_decide (d_fingerprint r = fingerprintOf args))) RequestConflict;;
      status r (u_requestId args)
  | None =>
      registration ← prepareDurableWorkspaceTool cfg (u_workerId args) (ow_tenantId (u_owner args))
        (u_requireTenantBinding args) (u_request args) (u_executionTimeoutMs args) (u_queueWaitMs args);
      prepared ← match u_prepare args with None => Done None | Some m => p ← m; Done (Some p) end;
      let q := default (u_request args) prepared in
      now ← now_;
      nonce ← randomBytes 18;
      let r := newRecord args (js "durable-" ++ nonce) key q registration now in
      accepted ← try (clock ← now_;
        await (submit (d_workerId r) (d_id r) clock (d_queueDeadlineAtMs r) DEFAULT_CAPACITY
          (Some (workspaceAdmissionId (default [] (strField q "workspaceId")) (strField q "workspaceInstanceId")
                   (strField q "worktree")))
          key activeKey (fingerprintOf args) (stringify (JObj (submittedFields r))) RETENTION_MS));
      match accepted with
      | inl e => releasePrepared args prepared;; Throw e
      | inr accepted =>
          match accepted with Accepted => Done tt | _ => releasePrepared args prepared end;;
          match accepted with
          | Conflict => Throw RequestConflict
          | Full => storeError WORKER_QUEUE_FULL
          | Accepted | Existing =>
              submitted ← read key;
              submitted ← needValue submitted;
              status submitted (u_requestId args)
          end
      end
  end.

Definition get (owner : WorkspaceRequestOwner) (requestId : jstr) : act (option WorkspaceRequestStatus) :=
  if negb (isRequestId requestId) then Done None else
  r ← read (requestKey owner requestId scope);
  match r with
  | None => Done None
  | Some r => s ← status r requestId; Done (Some s)
  end.

Definition cancelRequest (owner : WorkspaceRequestOwner) (requestId : jstr) : act (option WorkspaceRequestStatus) :=
  if negb (isRequestId requestId) then Done None else
  clock ← now_;
  await (cancelRequestScript (requestKey owner requestId scope) activeKey clock);;
  get owner requestId.

(** ** Advancing *)

(** The record as the bridge reads it. *)
Definition asBridge (r : WorkspaceRecord) : StoredWorkspaceRequest :=
  WorkspaceRequest (d_id r) (d_key r) (d_workerId r) (d_tenantId r) (d_requireTenantBinding r) (d_request r)
    (d_registration r) (d_queueDeadlineAtMs r) (d_executionTimeoutMs r) (bool_decide (d_state r = QUEUED))
    (d_cancelRequested r) (d_assignment r) (d_settlement r).

(** [redis.zadd(activeKey, Date.now() + 250, key)]. *)
Definition comeBack (key : jstr) : act unit :=
  clock ← now_; await (rd (ZADD activeKey (clock + 250)%Z key)).

(** The transition of an open request: [false] returns early. *)
Definition transition (key claimKey token : jstr) (r : WorkspaceRecord) : act bool :=
  moved ← try
    (outcome ← deadline (advanceDurableWorkspaceTool cfg (asBridge r) (Guard key claimKey token));
     match outcome with
     | None => Done tt
     | Some o =>
         clock ← now_;
         await (completeScript key claimKey token (stringify (JObj (outcomeFields o clock))) (stateText (o_state o)));;
         Done tt
     end);
  match moved with
  | inr _ => Done true
  | inl (StoreError WORKER_OFFLINE) => comeBack key;; Done false
  | inl (StoreError code) =>
      current ← read key;
      match current with
      | Some c => throwIf (bool_decide (d_state c = ADMITTED)) (StoreError code)
      | None => Done tt
      end;;
      clock ← now_;
      await (failScript key claimKey token
        (stringify (JObj [(js "state", JStr (js "failed")); (js "finishedAtMs", JInt clock);
                          (js "error", errorFields (codeText code))])));;
      Done true
  | inl e => Throw e
  end.

(** The [try] block of [advance]. *)
Definition advanceClaimed (key claimKey token : jstr) : act unit :=
  r ← read key;
  match r with
  | None => await (rd (ZREM activeKey key));; Done tt
  | Some r =>
      next ← (if isOpen (d_state r) then
          go ← transition key claimKey token r;
          if negb go then Done None else
          r ← read key; r ← needValue r; Done (Some r)
        else Done (Some r));
      match (next : option WorkspaceRecord) with
      | None => Done tt
      | Some r =>
          if negb (isOpen (d_state r)) then
            deadline (finishDurableWorkspaceTool (asBridge r));;
            await (rd (ZREM activeKey key));; Done tt
          else comeBack key
      end
  end.

Definition advance (key : jstr) : act unit :=
  let claimKey := claimKeyOf key in
  token ← randomBytes 18;
  clock ← now_;
  claimed ← await (claimScript key claimKey activeKey token CLAIM_MS (clock + CLAIM_MS));
  if negb (claimed =? 1)%Z then Done tt else
  r ← try (advanceClaimed key claimKey token);
  await (releaseClaimScript claimKey token);;
  match r with inl e => Throw e | inr _ => Done tt end.

(** [Promise.allSettled] over the keys; the first failure is thrown. *)
Fixpoint advanceAll (keys : list jstr) : act (option error) :=
  match keys with
  | [] => Done None
  | key :: keys' =>
      r ← try (deadline (advance key));
      rest ← advanceAll keys';
      Done (match r with inl e => Some e | inr _ => rest end)
  end.

Definition reconcile : act unit :=
  clock ← now_;
  keys ← deadline (await (rd (ZRANGEBYSCORE activeKey clock)));
  failure ← advanceAll (take 32 keys);
  match failure with Some e => Throw e | None => Done tt end.
End methods.
