(* ===== verification/WorkspaceRequestsProofs.v ===== *)
(** * A durable request runs once

    The life of a durable request is a state machine in Redis, from [queued] to
    [admitted] to one of the terminal states. Under every interleaving of the
    scripts of API replicas it only moves forward, is admitted at most once, and
    its outcome is final ([durable_request_once]). A retry has the fingerprint of
    the first submission whatever the order of its properties
    ([canonical_order], [retry_fingerprint]). *)

From stdpp Require Import base list numbers option strings gmap relations sorting.
From Stdlib Require Import ZArith Lia.
From S2P Require Import Prelude JsString Json Protocol ProtocolRequests Redis JsonText BridgeKeys BridgeAdmission BridgeSlots BridgeStore Async BridgeRouting BridgeMethods BridgeDispatch BridgeSlotsProofs BridgeStoreProofs BridgeRegistration BridgeSettlement BridgeLeases BridgeEnqueue WorkspaceRequests.

(** ** Keys *)

(** The key of a request's record: the prefix and a hexadecimal digest. *)
Definition isRequestKey (k : jstr) : Prop := exists h, COLON ∉ h /\ k = REQUESTS_PREFIX ++ js ":" ++ h.

(** A key of the bridge. *)
Definition bridgeKey (k : jstr) : Prop := exists s, k = PREFIX ++ s.

Lemma request_not_bridge k k' : isRequestKey k -> bridgeKey k' -> k <> k'.
Proof. intros (h & _ & ->) (s & ->) E. apply (f_equal (take 9)) in E. vm_compute in E. discriminate. Qed.

(** ** The order of a request's states *)

Definition fieldOf (h : gmap jstr jstr) (f : string) : option jstr := h !! js f.

Definition stateRank (h : gmap jstr jstr) : nat :=
  match fieldOf h "state" with
  | Some s => if bool_decide (s = QUEUED) then 0 else if bool_decide (s = ADMITTED) then 1 else 2
  | None => 2
  end.

(** What may become of a record. *)
Record later (h h' : gmap jstr jstr) : Prop := {
  later_rank : stateRank h <= stateRank h';
  later_identity : fieldOf h' "fingerprint" = fieldOf h "fingerprint" /\ fieldOf h' "record" = fieldOf h "record";
  later_final : stateRank h = 2 -> fieldOf h' "state" = fieldOf h "state" /\ fieldOf h' "outcome" = fieldOf h "outcome";
}.

Lemma later_refl h : later h h.
Proof. split; auto. Qed.

Lemma later_trans h1 h2 h3 : later h1 h2 -> later h2 h3 -> later h1 h3.
Proof.
  intros [R1 [F1 C1] T1] [R2 [F2 C2] T2]. split; [lia|split; congruence|]. intros E. destruct (T1 E) as [E1 E2].
  destruct (T2 ltac:(unfold stateRank in *; rewrite E1; exact E)) as [E3 E4]. split; congruence.
Qed.

(** ** One script *)

Section steps.
Context `{Platform} (K : jstr) (HK : isRequestKey K) (now t : Z) (Ht : (now <= t)%Z).

(** The record is [h] and lives until [t]. *)
Definition recorded (h : gmap jstr jstr) (ks : keyspace) : Prop := ks !! K = Some (Entry (VHash h) (Some t)).

Lemma recorded_find h ks : recorded h ks -> find now ks K = Some (Entry (VHash h) (Some t)).
Proof. intros E. unfold find. rewrite E. unfold alive. cbn [e_exp]. by rewrite (proj2 (Z.leb_le _ _)). Qed.

(** A later record of the same life. *)
Definition onward (h : gmap jstr jstr) (ks : keyspace) : Prop := exists h', later h h' /\ recorded h' ks.

Lemma onward_now h ks : recorded h ks -> onward h ks.
Proof. exists h. split; [apply later_refl|done]. Qed.

(** A write to the record keeps its expiry. *)
Lemma hset_recorded h fvs (ks : keyspace) (Q : option unit -> keyspace -> Prop) : fvs <> [] -> recorded h ks ->
  (forall ks', recorded (foldl (fun h fv => <[fst fv := snd fv]> h) h fvs) ks' -> Q (Some tt) ks') ->
  wp (rd (HSET K fvs)) now ks Q.
Proof.
  intros Hf Hr HQ. eapply wp_known; [cbn [exec]; rewrite (recorded_find h ks Hr); reflexivity|]. apply HQ.
  unfold recorded, put_hash. rewrite decide_False.
  - unfold keep. rewrite lookup_insert_eq. by rewrite (recorded_find h ks Hr).
  - destruct fvs as [|fv fvs _] using rev_ind; [done|]. rewrite foldl_app. cbn [foldl]. apply insert_non_empty.
Qed.

Lemma hset_elsewhere h k fvs (ks : keyspace) : k <> K -> recorded h ks ->
  wp (rd (HSET k fvs)) now ks (fun _ ks' => recorded h ks').
Proof.
  intros Hk Hr. eapply wp_mono; [apply (wp_avoids K)|].
  - apply commands_rd. cbn [writes]. by rewrite list_elem_of_singleton.
  - intros r ks' E. unfold recorded in *. by rewrite E.
Qed.

(** A sorted-set command leaves a hash alone: it is an error. *)
Lemma zadd_recorded a score m h (ks : keyspace) : recorded h ks -> wp (rd (ZADD a score m)) now ks (fun _ ks' => recorded h ks').
Proof.
  intros Hr. destruct (decide (a = K)) as [->|Ha].
  - apply wp_cmd; [|done]. intros ks' r E. cbn [exec] in E. by rewrite (recorded_find h ks Hr) in E.
  - eapply wp_mono; [apply (wp_avoids K)|]; [apply commands_rd; cbn [writes]; rewrite list_elem_of_singleton; congruence|].
    intros r ks' E. unfold recorded in *. by rewrite E.
Qed.

Lemma zrem_recorded a m h (ks : keyspace) : recorded h ks -> wp (rd (ZREM a m)) now ks (fun _ ks' => recorded h ks').
Proof.
  intros Hr. destruct (decide (a = K)) as [->|Ha].
  - apply wp_cmd; [|done]. intros ks' r E. cbn [exec] in E. by rewrite (recorded_find h ks Hr) in E.
  - eapply wp_mono; [apply (wp_avoids K)|]; [apply commands_rd; cbn [writes]; rewrite list_elem_of_singleton; congruence|].
    intros r ks' E. unfold recorded in *. by rewrite E.
Qed.

Lemma avoiding_recorded {A} (p : prog A) h (ks : keyspace) : avoids K p -> recorded h ks ->
  wp p now ks (fun _ ks' => recorded h ks').
Proof. intros Hp Hr. eapply wp_mono; [by apply (wp_avoids K)|]. intros r ks' E. unfold recorded in *. by rewrite E. Qed.

(** Writes that move the record on. *)
Lemma later_cancel h : later h (<[js "cancelRequested" := js "1"]> h).
Proof. split; unfold stateRank, fieldOf; rewrite ?lookup_insert_ne by done; auto. Qed.

Lemma later_terminal h s outcome : stateRank h < 2 -> later h (<[js "outcome" := outcome]> (<[js "state" := stateText s]> h)).
Proof.
  intros Hr. assert (stateRank (<[js "outcome" := outcome]> (<[js "state" := stateText s]> h)) = 2) as E.
  { unfold stateRank, fieldOf. rewrite lookup_insert_ne, lookup_insert_eq by done. by destruct s. }
  split; [lia| |lia]. unfold fieldOf. by rewrite !lookup_insert_ne by done.
Qed.

Lemma later_admitted h assignment at_ms : stateRank h = 0 ->
  later h (<[js "admittedAtMs" := at_ms]> (<[js "assignment" := assignment]> (<[js "state" := ADMITTED]> h))).
Proof. intros Hr. split; [lia| |lia]. unfold fieldOf. by rewrite !lookup_insert_ne by done. Qed.

Lemma open_rank h : neqStr (fieldOf h "state") QUEUED && neqStr (fieldOf h "state") ADMITTED = false -> stateRank h < 2.
Proof.
  unfold stateRank, neqStr. destruct (fieldOf h "state") as [s|]; [|by rewrite !bool_decide_eq_false_2].
  rewrite andb_false_iff, !negb_false_iff, !bool_decide_eq_true. intros [[= ->]|[= ->]]; by vm_compute; lia.
Qed.

(** Reading the state of some record: of this one it is [h]'s. *)
Lemma wp_state_read {A} k (p : option jstr -> prog A) h (ks : keyspace) (Q : option A -> keyspace -> Prop) :
  recorded h ks -> (k = K -> wp (p (fieldOf h "state")) now ks Q) -> (k <> K -> forall o, wp (p o) now ks Q) -> Q None ks ->
  wp (rd (HGET k (js "state")) ≫= p) now ks Q.
Proof.
  intros Hr H1 H2 H3. apply wp_hget_known; [|done]. intros h' Hh. destruct (decide (k = K)) as [->|Hk]; [|by apply H2].
  rewrite (recorded_find h ks Hr) in Hh. injection Hh as <-. by apply H1.
Qed.

(** A script that ends in a write to a record and more. *)
Lemma hset_onward {A} k fvs h (q : prog A) (ks : keyspace) : fvs <> [] -> recorded h ks ->
  (k = K -> later h (foldl (fun h fv => <[fst fv := snd fv]> h) h fvs)) ->
  (forall h' ks', recorded h' ks' -> wp q now ks' (fun _ ks'' => recorded h' ks'')) ->
  wp (rd (HSET k fvs);; q) now ks (fun _ ks' => onward h ks').
Proof.
  intros Hf Hr Hl Hq. apply wp_bind. destruct (decide (k = K)) as [->|Hk].
  - eapply hset_recorded; [done..|]. intros ks' Hr'. eapply wp_mono; [by apply Hq|]. intros r ks'' H''. eexists. split; [by apply Hl|done].
  - eapply wp_mono; [by apply hset_elsewhere|]. intros [[]|] ks' Hr'; [|by apply onward_now].
    eapply wp_mono; [by apply Hq|]. intros r ks'' H''. by apply onward_now.
Qed.

Lemma cancelRequest_onward k a clock h (ks : keyspace) : recorded h ks ->
  wp (cancelRequestScript k a clock) now ks (fun _ ks' => onward h ks').
Proof.
  intros Hr. unfold cancelRequestScript.
  assert (wp (rd (HSET k [(js "cancelRequested", js "1")]);; rd (ZADD a clock k);; Ret 1%Z) now ks (fun _ ks' => onward h ks')) as Hw.
  { apply hset_onward; [done..|intros _; apply later_cancel|]. intros h' ks' Hr'. apply wp_bind.
    eapply wp_mono; [by apply zadd_recorded|]. by intros [[]|] ks'' H''; [apply wp_ret|]. }
  apply wp_state_read with h; [done|intros _; case_match; [by apply wp_ret, onward_now|done]|
    intros _ o; case_match; [by apply wp_ret, onward_now|done]|by apply onward_now].
Qed.

Lemma claim_onward k c a token ms until h (ks : keyspace) : recorded h ks ->
  wp (claimScript k c a token ms until) now ks (fun _ ks' => onward h ks').
Proof.
  intros Hr. unfold claimScript. apply wp_bind. eapply (wp_mono _ _ _ (fun _ ks' => recorded h ks')).
  - destruct (decide (c = K)) as [->|Hc].
    + eapply wp_known; [cbn [exec]; rewrite (recorded_find h ks Hr); reflexivity|done].
    + apply avoiding_recorded; [|done]. apply commands_rd. cbn [writes]. rewrite list_elem_of_singleton. congruence.
  - intros [[]|] ks' Hr'; cbn [negb]; [|by apply wp_ret, onward_now|by apply onward_now].
    apply wp_bind. eapply wp_mono; [by apply zadd_recorded|]. intros [[]|] ks'' H''; [apply wp_ret|]; by apply onward_now.
Qed.

Lemma complete_onward k c token outcome s h (ks : keyspace) : recorded h ks ->
  wp (completeScript k c token outcome (stateText s)) now ks (fun _ ks' => onward h ks').
Proof.
  intros Hr. unfold completeScript. apply wp_bind, wp_get; [|by apply onward_now]. intros claim _.
  case_match; [by apply wp_ret, onward_now|]. apply wp_state_read with h; [done| |intros Hk o|by apply onward_now].
  - intros ->. case_match eqn:E; [by apply wp_ret, onward_now|]. apply hset_onward; [done..| |by intros; apply wp_ret].
    intros _. by apply later_terminal, open_rank.
  - case_match; [by apply wp_ret, onward_now|]. apply hset_onward; [done..| |by intros; apply wp_ret]. by intros ->.
Qed.

Lemma fail_onward k c token outcome h (ks : keyspace) : recorded h ks ->
  wp (failScript k c token outcome) now ks (fun _ ks' => onward h ks').
Proof.
  intros Hr. unfold failScript. apply wp_bind, wp_get; [|by apply onward_now]. intros claim _.
  case_match; [by apply wp_ret, onward_now|]. apply wp_state_read with h; [done| |intros Hk o|by apply onward_now].
  - intros ->. case_match eqn:E; [by apply wp_ret, onward_now|]. apply hset_onward; [done..| |by intros; apply wp_ret].
    intros _. apply (later_terminal h Failed), open_rank. by rewrite E.
  - case_match; [by apply wp_ret, onward_now|]. apply hset_onward; [done..| |by intros; apply wp_ret]. by intros ->.
Qed.

Lemma releaseClaim_onward c token h (ks : keyspace) : recorded h ks ->
  wp (releaseClaimScript c token) now ks (fun _ ks' => onward h ks').
Proof.
  intros Hr. unfold releaseClaimScript. apply wp_bind, wp_getIs; [|by apply onward_now]. intros o Ho.
  case_match; [|by apply wp_ret, onward_now]. eapply wp_mono; [apply (avoiding_recorded _ h); [|done]|intros r ks' H'; by apply onward_now].
  apply commands_rd. cbn [writes]. rewrite list_elem_of_singleton. intros <-. by rewrite (recorded_find h ks Hr) in Ho.
Qed.

(** ** The bridge's scripts *)

Lemma bridgeKey_app k s : bridgeKey k -> bridgeKey (k ++ s).
Proof. intros [x ->]. exists (x ++ s). by rewrite app_assoc. Qed.

(** [bridge_key]: the key begins with the bridge's prefix. *)
Ltac bridge_key :=
  first
    [ assumption | apply bridgeKey_app; assumption
    | unfold workspaceLaneFenceIndexKey; apply bridgeKey_app; assumption
    | eexists; unfold workspaceFenceReceiptKey, assignmentKey, assignmentDeadlineKey, queueKey, lockIncarnationKey, incarnationPrefix,
        admissionDeadlinesKey, admissionSequenceKey, admissionWorkspacesKey, admissionKey, workerKey; rewrite <- ?app_assoc; reflexivity ].
Ltac not_request :=
  cbn [writes]; rewrite ?not_elem_of_cons; repeat split;
  first [ apply not_elem_of_nil | apply request_not_bridge; [exact HK | bridge_key] ].

Lemma admission_ne w : K <> admissionKey w /\ K <> admissionDeadlinesKey w /\ K <> admissionSequenceKey w /\ K <> admissionWorkspacesKey w.
Proof. split_and!; (apply request_not_bridge; [exact HK|bridge_key]). Qed.

Lemma append_avoids w id d ws : avoids K (append w id d ws).
Proof.
  destruct (admission_ne w) as (N1 & N2 & N3 & N4). unfold append, avoids, queueKeys. cbn [expireAll].
  commands_auto ltac:(cbn [writes]; rewrite ?not_elem_of_cons; repeat split; first [apply not_elem_of_nil | done]).
Qed.

Lemma submit_onward w id clock d capacity ws key active fp record_ retention h (ks : keyspace) :
  is_Some (fieldOf h "fingerprint") -> recorded h ks ->
  wp (submit w id clock d capacity ws key active fp record_ retention) now ks (fun _ ks' => onward h ks').
Proof.
  intros Hfp Hr. destruct (admission_ne w) as (N1 & N2 & N3 & N4). unfold submit. apply wp_hget_known; [|by apply onward_now]. intros h' Hh.
  destruct (decide (key = K)) as [->|Hk].
  - rewrite (recorded_find h ks Hr) in Hh. injection Hh as <-. destruct Hfp as [v Ev]. unfold fieldOf in Ev. rewrite Ev.
    by apply wp_ret, onward_now.
  - case_match; [by apply wp_ret, onward_now|]. apply wp_bind.
    eapply wp_mono; [apply (avoiding_recorded _ h); [by apply forgetExpired_avoids|done]|]. intros [[]|] ks1 R1; [|by apply onward_now].
    apply wp_read; [done| |by apply onward_now]. intros n. case_match; [by apply wp_ret, onward_now|].
    apply wp_bind. eapply wp_mono; [apply (avoiding_recorded _ h); [apply append_avoids|done]|]. intros [[]|] ks2 R2; [|by apply onward_now].
    apply hset_onward; [done..|]. intros h2 ks3 R3. apply wp_bind.
    eapply wp_mono; [apply (avoiding_recorded _ h2); [|done]|].
    { apply commands_rd. cbn [writes]. rewrite list_elem_of_singleton. congruence. }
    intros [[]|] ks4 R4; [|done]. apply wp_bind. eapply wp_mono; [by apply (zadd_recorded _ _ _ h2)|]. by intros [[]|] ks5 R5; [apply wp_ret|].
Qed.

Section enqueue.
Context (e : enqueueArgs) (Hf : forall f, e_fence e = Some f -> bridgeKey f)
  (Hp : forall n f, e_lease e = Some (n, LaneScope f) -> bridgeKey f).

Lemma anyExists_avoids keys : avoids K (anyExists keys).
Proof. induction keys as [|k keys IH]; cbn [anyExists]; [done|]. split; [apply not_elem_of_nil|]. intros b. by destruct b. Qed.

Lemma sremAll_avoids index members : bridgeKey index -> avoids K (sremAll index members).
Proof.
  intros Hk. induction members as [|m members IH]; cbn [sremAll]; [done|]. apply commands_bind; [|intros _; exact IH].
  apply commands_rd. not_request.
Qed.

Lemma enqueueBody_avoids : avoids K (enqueueBody e).
Proof.
  unfold enqueueBody, workspaceBlocked, enqueueWrites, writeReceipt, andAlso.
  destruct (e_fence e) as [f|]; [pose proof (Hf f eq_refl) as Hf1|];
    (destruct (e_lease e) as [[n [pf|lanes]]|]; [pose proof (Hp n pf eq_refl) as Hp1|..]);
    unfold avoids;
    repeat first [ apply commands_bind; [first [apply anyExists_avoids | apply sremAll_avoids; bridge_key | idtac]|intros ?]
                 | apply commands_ret | solve [apply commands_rd; not_request] | case_match ].
Qed.

Lemma enqueue_onward guard h (ks : keyspace) : recorded h ks -> wp (enqueueScript e guard) now ks (fun _ ks' => onward h ks').
Proof.
  intros Hr. destruct guard as [g|]; cbn [enqueueScript].
  2: { eapply wp_mono; [apply (avoiding_recorded _ h); [apply enqueueBody_avoids|done]|]. intros r ks' R'. by apply onward_now. }
  apply wp_bind. eapply wp_mono; [apply durableAdmissionFence_open|].
  intros [[u|x]|] ks' [-> Ho]; [|by apply wp_ret, onward_now|by apply onward_now]. destruct Ho as [-> Ho].
  apply wp_bind. eapply wp_mono; [apply stillReserved_wp|]. intros [[]|] ks' [-> _]; cbn [negb]; [|by apply wp_ret, onward_now|by apply onward_now].
  apply wp_bind. eapply wp_mono; [apply (avoiding_recorded _ h); [apply enqueueBody_avoids|done]|].
  intros [r|] ks1 R1; [|by apply onward_now]. case_match; [|by apply wp_ret, onward_now].
  apply hset_onward; [done..| |by intros; apply wp_ret]. intros Hg. cbn [foldl fst snd]. apply later_admitted.
  destruct Ho as [_ (h' & d & Hh & Es & _)]. rewrite Hg, (recorded_find h ks Hr) in Hh. injection Hh as <-.
  unfold stateRank, fieldOf. rewrite Es. by vm_compute.
Qed.

(** Once the request has left the queue, no enqueue admits it. *)
Lemma enqueue_refused g h (ks : keyspace) : g_key g = K -> recorded h ks -> 0 < stateRank h ->
  wp (enqueueScript e (Some g)) now ks (fun r ks' => r <> Some 1%Z /\ ks' = ks).
Proof.
  intros Hg Hr Hs. cbn [enqueueScript]. apply wp_bind. eapply wp_mono; [apply durableAdmissionFence_open|].
  intros [[u|x]|] ks' [-> Ho]; [|subst x; by apply wp_ret|done]. exfalso.
  destruct Ho as [_ [_ (h' & d & Hh & Es & _)]]. rewrite Hg, (recorded_find h ks Hr) in Hh. injection Hh as <-.
  unfold stateRank, fieldOf in Hs. rewrite Es in Hs. vm_compute in Hs. lia.
Qed.

(** An enqueue that succeeds admits the request. *)
Lemma enqueue_admits g h (ks : keyspace) : g_key g = K -> recorded h ks ->
  wp (enqueueScript e (Some g)) now ks (fun r ks' => r = Some 1%Z ->
    exists h', later h h' /\ recorded h' ks' /\ fieldOf h' "state" = Some ADMITTED /\ fieldOf h' "assignment" = Some (e_text e)).
Proof.
  intros Hg Hr. cbn [enqueueScript]. apply wp_bind. eapply wp_mono; [apply durableAdmissionFence_open|].
  intros [[u|x]|] ks' [-> Ho]; [|subst x; by apply wp_ret|done]. destruct Ho as [-> [_ (h' & d & Hh & Es & _)]].
  rewrite Hg, (recorded_find h ks Hr) in Hh. injection Hh as <-.
  apply wp_bind. eapply wp_mono; [apply stillReserved_wp|]. intros [[]|] ks' [-> _]; cbn [negb]; [|by apply wp_ret|done].
  apply wp_bind. eapply wp_mono; [apply (avoiding_recorded _ h); [apply enqueueBody_avoids|done]|].
  intros [r|] ks1 R1; [|done]. destruct (Z.eqb_spec r 1) as [->|Hne]; [|apply wp_ret; congruence].
  rewrite Hg. apply wp_bind. eapply hset_recorded; [done..|]. intros ks2 R2. apply wp_ret. intros _. eexists.
  split; [|split; [exact R2|]]; cbn [foldl fst snd].
  - apply later_admitted. unfold stateRank, fieldOf. rewrite Es. by vm_compute.
  - unfold fieldOf. split; [by rewrite !lookup_insert_ne, lookup_insert_eq by done|by rewrite lookup_insert_ne, lookup_insert_eq by done].
Qed.
End enqueue.
End steps.

(** ** Canonical text *)

(** The order of property names. *)
Lemma lex_eq a b : lex a b = false -> lex b a = false -> a = b.
Proof.
  revert b. induction a as [|x a IH]; intros [|y b]; cbn [lex]; try done. rewrite !orb_false_iff, !andb_false_iff. intros [H1 H2] [H3 H4].
  assert (x = y) as -> by lia. f_equal. apply IH; [destruct H2|destruct H4]; lia || done.
Qed.

Lemma lex_trans a b c : lex b a = false -> lex c b = false -> lex c a = false.
Proof.
  revert b c. induction a as [|x a IH]; intros [|y b] [|z c]; cbn [lex]; try done.
  rewrite !orb_false_iff, !andb_false_iff. intros [H1 H2] [H3 H4]. split; [lia|].
  destruct (Z.eqb_spec z x) as [->|]; [right|by left]. assert (y = x) as -> by lia.
  apply (IH b); [destruct H2|destruct H4]; lia || done.
Qed.

Lemma lex_asym a b : lex a b = true -> lex b a = false.
Proof.
  revert b. induction a as [|x a IH]; intros [|y b]; cbn [lex]; try done.
  rewrite orb_true_iff, andb_true_iff, orb_false_iff, andb_false_iff. intros [H|[H1 H2]]; [split; lia|].
  split; [lia|]. right. by apply IH.
Qed.

#[global] Instance nameLe_trans : Transitive nameLe.
Proof. intros a b c H1 H2. unfold nameLe in *. by eapply lex_trans. Qed.
#[global] Instance nameLe_total : Total nameLe.
Proof. intros a b. unfold nameLe. destruct (lex (fst b) (fst a)) eqn:E; [right; by apply lex_asym|by left]. Qed.

(** Sorting forgets the order of distinct names. *)
Lemma sort_names (l l' : list (jstr * jstr)) : NoDup (map fst l) -> Permutation l l' -> merge_sort nameLe l = merge_sort nameLe l'.
Proof.
  intros Hn Hp. apply (StronglySorted_unique_strong nameLe).
  - intros [k v] [k' v'] Hin Hin' H1 H2. rewrite merge_sort_Permutation in Hin, Hin'. rewrite <- Hp in Hin'.
    unfold nameLe in *. cbn [fst] in *. pose proof (lex_eq _ _ H2 H1) as ->.
    apply list_elem_of_lookup in Hin as [i Hi], Hin' as [j Hj].
    assert (i = j) as -> by (eapply NoDup_lookup; [exact Hn|rewrite list_lookup_fmap, Hi|rewrite list_lookup_fmap, Hj]; reflexivity).
    congruence.
  - apply StronglySorted_merge_sort; apply _.
  - apply StronglySorted_merge_sort; apply _.
  - by rewrite !merge_sort_Permutation.
Qed.

(** The same value, but for the order of the properties of its objects. *)
Inductive sameValue : json -> json -> Prop :=
| sv_refl j : sameValue j j
| sv_arr l l' : Forall2 sameValue l l' -> sameValue (JArr l) (JArr l')
| sv_obj fs fs' gs : NoDup (map fst fs) -> Forall2 (fun a b => fst a = fst b /\ sameValue (snd a) (snd b)) fs fs' ->
    Permutation fs' gs -> sameValue (JObj fs) (JObj gs).

Section text.
Context `{Runtime}.

Lemma canonical_order a b : sameValue a b -> canonical a = canonical b.
Proof.
  revert a b. fix IH 3. intros a b [j|l l' Hl|fs fs' gs Hn Hf Hp]; [done| |]; cbn [canonical].
  - do 3 f_equal. induction Hl as [|x y l l' Hxy _ IHl]; [done|]. cbn [map]. f_equal; [by apply IH|done].
  - assert (map (fun kv => (fst kv, canonical (snd kv))) fs = map (fun kv => (fst kv, canonical (snd kv))) fs') as E.
    { clear Hn Hp. induction Hf as [|[k x] [k' y] fs fs' [Hk Hxy] _ IHl]; [done|]. cbn [map]. f_equal; [|done].
      cbn [fst snd] in *. f_equal; [done|]. by apply IH. }
    do 4 f_equal. rewrite E. apply sort_names; [|by rewrite Hp].
    rewrite <- E, map_map. exact Hn.
Qed.

(** A retry whose request lists its properties in another order has the same
    fingerprint. *)
Lemma retry_fingerprint args q : sameValue (JObj (u_request args)) (JObj q) ->
  forall `{Platform}, fingerprintOf args = fingerprintOf (SubmitArgs (u_owner args) (u_requestId args) (u_workerId args)
    (u_requireTenantBinding args) q (u_queueWaitMs args) (u_executionTimeoutMs args) (u_prepare args) (u_release args)).
Proof.
  intros Hq P. unfold fingerprintOf. f_equal. apply canonical_order. eapply sv_obj; [| |reflexivity].
  - apply (bool_decide_unpack _). vm_compute. exact I.
  - repeat constructor. exact Hq.
Qed.
End text.

(** ** Every script that touches a request *)

(** The scripts of the requests and of the bridge. Those of the bridge that the
    requests do not share write keys of the bridge only. *)
Inductive requestScript `{Platform} : forall R, prog R -> Prop :=
| rs_cancel key active clock : requestScript Z (cancelRequestScript key active clock)
| rs_claim key claim active token ms until : requestScript Z (claimScript key claim active token ms until)
| rs_complete key claim token outcome s : requestScript Z (completeScript key claim token outcome (stateText s))
| rs_fail key claim token outcome : requestScript Z (failScript key claim token outcome)
| rs_release_claim claim token : requestScript Z (releaseClaimScript claim token)
| rs_submit w id clock d capacity ws key active fp record_ retention :
    requestScript submitResult (submit w id clock d capacity ws key active fp record_ retention)
| rs_enqueue e guard :
    (forall f, e_fence e = Some f -> bridgeKey f) -> (forall n f, e_lease e = Some (n, LaneScope f) -> bridgeKey f) ->
    requestScript Z (enqueueScript e guard)
| rs_later active score key : requestScript unit (rd (ZADD active score key))
| rs_done active key : requestScript unit (rd (ZREM active key))
| rs_bridge R (p : prog R) : commands (fun _ c => Forall bridgeKey (writes c)) p -> requestScript R p.

Lemma commands_weaken {A} (P Q : forall R, cmd R -> Prop) (p : prog A) :
  (forall R (c : cmd R), P R c -> Q R c) -> commands P p -> commands Q p.
Proof. intros W. induction p as [a|R c k IH|]; cbn [commands]; [done| |done]. intros [Hc Hk]. split; auto. Qed.

Lemma requestScript_onward `{Platform} K now t R (p : prog R) h (ks : keyspace) :
  isRequestKey K -> (now <= t)%Z -> is_Some (fieldOf h "fingerprint") -> requestScript R p -> recorded K t h ks ->
  wp p now ks (fun _ ks' => onward K t h ks').
Proof.
  intros HK Ht Hfp Hp Hr. destruct Hp as [| | | | | |e guard Hf Hl| | |R p Hc].
  - by apply cancelRequest_onward.
  - by apply claim_onward.
  - by apply complete_onward.
  - by apply fail_onward.
  - by apply releaseClaim_onward.
  - by apply submit_onward.
  - by apply enqueue_onward.
  - eapply wp_mono; [by apply zadd_recorded|]. intros r ks'. apply onward_now.
  - eapply wp_mono; [by apply zrem_recorded|]. intros r ks'. apply onward_now.
  - eapply wp_mono; [eapply avoiding_recorded; [|exact Hr]|intros r ks'; apply onward_now].
    revert Hc. apply commands_weaken. intros R' c Hw Hin. rewrite Forall_forall in Hw.
    by apply (request_not_bridge K K HK (Hw K Hin)).
Qed.

Inductive request_step `{Platform} {db} `{RedisServer db} (t : Z) (s s' : db) : Prop :=
| request_steps R (p : prog R) now r :
    requestScript R p -> (now <= t)%Z -> run p now s = (s', r) -> request_step t s s'.

Lemma steps_onward `{Platform} {db} `{RedisServer db} K t h (s s' : db) :
  isRequestKey K -> is_Some (fieldOf h "fingerprint") -> rtc (request_step t) s s' ->
  recorded K t h (content s) -> onward K t h (content s').
Proof.
  intros HK Hfp Hs. revert h Hfp. induction Hs as [s|s1 s2 s3 [R p now r Hp Hnow E] _ IH]; intros h Hfp Hr; [by apply onward_now|].
  destruct (run_wp _ _ _ _ _ _ E (requestScript_onward K now t R p h _ HK Hnow Hfp Hp Hr)) as (h' & Hl & Hr').
  destruct (IH h') as (h'' & Hl' & Hr''); [by rewrite (proj1 (later_identity _ _ Hl))|done|].
  exists h''. split; [by eapply later_trans|done].
Qed.

(** A record that is neither queued nor admitted is final. *)
Lemma onward_final `{Platform} {db} `{RedisServer db} K t h (s : db) :
  isRequestKey K -> is_Some (fieldOf h "fingerprint") -> content s !! K = Some (Entry (VHash h) (Some t)) -> stateRank h <> 0 ->
  forall s', rtc (request_step t) s s' -> exists h', content s' !! K = Some (Entry (VHash h') (Some t)) /\ later h h'
    /\ (fieldOf h "state" <> Some ADMITTED -> fieldOf h' "state" = fieldOf h "state" /\ fieldOf h' "outcome" = fieldOf h "outcome").
Proof.
  intros HK Hf Hr Hq s' Hs. destruct (steps_onward K t h s s' HK Hf Hs Hr) as (h' & L & R). exists h'. split_and!; [done|done|].
  intros Ha. apply (later_final _ _ L). unfold stateRank in *. destruct (fieldOf h "state") as [x|]; [|done].
  repeat case_bool_decide; congruence.
Qed.

(** (C16) A durable request runs once. While its record lives, whatever the replicas
    do after an enqueue has admitted it (submissions, retries, cancellations,
    claims, completions, failures, every script of the bridge, in any order): no
    enqueue admits it again or changes anything, its identity stays, its state
    never goes back, and once it is terminal its state and outcome are final. *)
Theorem durable_request_once `{Platform} {db} `{RedisServer db} K t h e g now e' g' now' (s s1 s2 s3 : db) r :
  isRequestKey K -> content s !! K = Some (Entry (VHash h) (Some t)) -> is_Some (fieldOf h "fingerprint") ->
  (forall f, e_fence e = Some f -> bridgeKey f) -> (forall n f, e_lease e = Some (n, LaneScope f) -> bridgeKey f) ->
  g_key g = K -> (now <= t)%Z -> run (enqueueScript e (Some g)) now s = (s1, Some 1%Z) ->
  rtc (request_step t) s1 s2 ->
  g_key g' = K -> (now' <= t)%Z -> run (enqueueScript e' (Some g')) now' s2 = (s3, r) ->
  (r <> Some 1%Z /\ content s3 = content s2)
  /\ exists h1 h2, content s1 !! K = Some (Entry (VHash h1) (Some t)) /\ content s2 !! K = Some (Entry (VHash h2) (Some t))
     /\ later h h1 /\ later h1 h2 /\ fieldOf h1 "state" = Some ADMITTED /\ fieldOf h1 "assignment" = Some (e_text e)
     /\ forall s4, rtc (request_step t) s2 s4 -> exists h4, content s4 !! K = Some (Entry (VHash h4) (Some t)) /\ later h2 h4
        /\ (fieldOf h2 "state" <> Some ADMITTED -> fieldOf h4 "state" = fieldOf h2 "state" /\ fieldOf h4 "outcome" = fieldOf h2 "outcome").
Proof.
  intros HK Hr Hfp Hf Hl Hg Hnow E1 Hs Hg' Hnow' E2.
  destruct (run_wp _ _ _ _ _ _ E1 (enqueue_admits K HK now t Hnow e Hf Hl g h _ Hg Hr) eq_refl) as (h1 & L1 & R1 & A1 & A2).
  destruct (steps_onward K t h1 s1 s2 HK) as (h2 & L2 & R2); [by rewrite (proj1 (later_identity _ _ L1))|done..|].
  assert (stateRank h1 = 1) as Hk by (unfold stateRank; rewrite A1; by vm_compute). pose proof (later_rank _ _ L2) as Hk2.
  split; [|exists h1, h2; split_and!; try done; apply onward_final; [done|by rewrite (proj1 (later_identity _ _ L2)), (proj1 (later_identity _ _ L1))|done|lia]].
  apply (run_wp _ _ _ _ _ (fun r ks => r <> Some 1%Z /\ ks = content s2) E2). eapply enqueue_refused; [done..|].
  lia.
Qed.

(** A request that was admitted, and then completed by its claimant. *)
Definition once_key : jstr := REQUESTS_PREFIX ++ js ":" ++ js "0a".
Definition once_fields : gmap jstr jstr :=
  {[ js "fingerprint" := js "f"; js "record" := js "{}"; js "state" := QUEUED; js "queueDeadlineAtMs" := js "8000" ]}.
Definition once_example : keyspace :=
  {[ once_key := Entry (VHash once_fields) (Some 9000%Z); claimKeyOf once_key := Entry (VStr (js "t")) None;
     workerIncarnationKey (js "w") := Entry (VStr (js "i")) None;
     lockKey (js "w") := Entry (VStr (js "a1")) None; lockIncarnationKey (js "w") := Entry (VStr (js "i")) None ]}.
Definition once_args : enqueueArgs := EnqueueArgs (js "w") (js "a1") (js "i") (js "{}") (js "{}") 60 90000 [] None None 120.
Definition once_guard : DurableWorkspaceGuard := Guard once_key (claimKeyOf once_key) (js "t").
Definition once_admitted : keyspace := fst (run (enqueueScript once_args (Some once_guard)) 1000 once_example).
Definition once_completed : keyspace :=
  fst (run (completeScript once_key (claimKeyOf once_key) (js "t") (js "{}") (stateText Completed)) 2000 once_admitted).

Lemma durable_request_once_witness :
  Some (-2)%Z <> Some 1%Z
  /\ content (fst (run (enqueueScript once_args (Some once_guard)) 3000 once_completed)) = content once_completed.
Proof.
  eapply (durable_request_once (H := asciiPlatform) once_key 9000 once_fields once_args once_guard 1000 once_args once_guard 3000
    once_example once_admitted once_completed).
  - exists (js "0a"). split; [|reflexivity]. intros Hin. apply list_elem_of_In in Hin. vm_compute in Hin. naive_solver.
  - vm_compute. reflexivity.
  - eexists. vm_compute. reflexivity.
  - by intros f [=].
  - by intros n f [=].
  - reflexivity.
  - lia.
  - apply run_result. vm_compute. reflexivity.
  - apply rtc_once. eapply (request_steps (H := asciiPlatform) _ _ _ Z _ 2000); [apply rs_complete|lia|].
    apply run_result. vm_compute. reflexivity.
  - reflexivity.
  - lia.
  - apply run_result. vm_compute. reflexivity.
Defined.
