(* ===== verification/EgressLedger.v ===== *)
(** * The egress ledger

    Models service/src/egress-ledger-script.ts and egress-ledger.ts: the one-key Lua
    script by which gateways spend and revoke an egress grant, in its two
    representations (a hash, or the JSON text older gateways read), and the functions
    that call it. [cjson] and [JSON] are the parameter [LedgerCodec], with the round
    trips the code relies on; Lua prints a number in JSON with fourteen digits, so
    they hold for the records whose numbers have no more. The part of a grant the
    ledger only carries along ([input_files], [read_sessions], [output_session_id])
    is the type [scope]. *)

From stdpp Require Import base list numbers option strings gmap.
From Stdlib Require Import ZArith Lia.
From S2P Require Import Prelude JsString Json Redis.

(** ** Records *)

Record EgressLedgerRecord {scope : Type} := LedgerRecord {
  grant_id : jstr; exec_id : jstr; status : jstr; exp : Z;
  revoked_at : option Z; revoke_reason : option jstr; carried : scope;
  max_upload_bytes : Z; max_output_files : Z; max_requests : Z;
  request_count : Z; read_count : Z; upload_count : Z; tool_call_count : Z; uploaded_bytes : Z;
  output_file_ids : list jstr;
}.
Arguments EgressLedgerRecord scope : clear implicits.

Definition ACTIVE : jstr := js "active".
Definition REVOKED : jstr := js "revoked".

(** The numbers the script reads by name. *)
Inductive ledgerField :=
| F_exp | F_max_requests | F_max_upload_bytes | F_max_output_files
| F_request_count | F_read_count | F_upload_count | F_tool_call_count | F_uploaded_bytes.

#[global] Instance ledgerField_eq_dec : EqDecision ledgerField.
Proof. solve_decision. Defined.

Definition fieldName (f : ledgerField) : jstr :=
  js match f with
     | F_exp => "exp" | F_max_requests => "max_requests" | F_max_upload_bytes => "max_upload_bytes"
     | F_max_output_files => "max_output_files" | F_request_count => "request_count" | F_read_count => "read_count"
     | F_upload_count => "upload_count" | F_tool_call_count => "tool_call_count" | F_uploaded_bytes => "uploaded_bytes"
     end.

Definition getField {scope} (f : ledgerField) (r : EgressLedgerRecord scope) : Z :=
  match f with
  | F_exp => exp r | F_max_requests => max_requests r | F_max_upload_bytes => max_upload_bytes r
  | F_max_output_files => max_output_files r | F_request_count => request_count r | F_read_count => read_count r
  | F_upload_count => upload_count r | F_tool_call_count => tool_call_count r | F_uploaded_bytes => uploaded_bytes r
  end.

(** [record[field] = record[field] + value]. *)
Definition addField {scope} (f : ledgerField) (n : Z) (r : EgressLedgerRecord scope) : EgressLedgerRecord scope :=
  let plus g v := if decide (f = g) then (v + n)%Z else v in
  LedgerRecord scope (grant_id r) (exec_id r) (status r) (plus F_exp (exp r)) (revoked_at r) (revoke_reason r) (carried r)
    (plus F_max_upload_bytes (max_upload_bytes r)) (plus F_max_output_files (max_output_files r))
    (plus F_max_requests (max_requests r)) (plus F_request_count (request_count r)) (plus F_read_count (read_count r))
    (plus F_upload_count (upload_count r)) (plus F_tool_call_count (tool_call_count r))
    (plus F_uploaded_bytes (uploaded_bytes r)) (output_file_ids r).

Definition withOutputs {scope} (ids : list jstr) (r : EgressLedgerRecord scope) : EgressLedgerRecord scope :=
  LedgerRecord scope (grant_id r) (exec_id r) (status r) (exp r) (revoked_at r) (revoke_reason r) (carried r)
    (max_upload_bytes r) (max_output_files r) (max_requests r) (request_count r) (read_count r) (upload_count r)
    (tool_call_count r) (uploaded_bytes r) ids.

(** The three [put]s of a revocation. *)
Definition asRevoked {scope} (now : Z) (reason : jstr) (r : EgressLedgerRecord scope) : EgressLedgerRecord scope :=
  LedgerRecord scope (grant_id r) (exec_id r) REVOKED (exp r) (Some now) (Some reason) (carried r)
    (max_upload_bytes r) (max_output_files r) (max_requests r) (request_count r) (read_count r) (upload_count r)
    (tool_call_count r) (uploaded_bytes r) (output_file_ids r).

(** The counters a snapshot copies into the policy. *)
Definition withCounts {scope} (requests reads uploads tools bytes : Z) (ids : list jstr) (r : EgressLedgerRecord scope) :
    EgressLedgerRecord scope :=
  LedgerRecord scope (grant_id r) (exec_id r) (status r) (exp r) (revoked_at r) (revoke_reason r) (carried r)
    (max_upload_bytes r) (max_output_files r) (max_requests r) requests reads uploads tools bytes ids.

(** ** Texts *)

(** [string.gsub(s, pattern, text)] for a pattern without special characters; [skip]
    counts the characters of a match that are still to be dropped. *)
Fixpoint gsub (pattern text s : jstr) (skip : nat) : jstr :=
  match s with
  | [] => []
  | c :: s' =>
      match skip with
      | S n => gsub pattern text s' n
      | O => if startsWith s pattern then text ++ gsub pattern text s' (length pattern - 1) else c :: gsub pattern text s' 0
      end
  end.

Definition quoted (s : jstr) : jstr := 34%Z :: s ++ [34%Z].

(** An empty list, which [cjson] prints as an object. *)
Definition fixEmptyList (encoded field : jstr) : jstr :=
  gsub (quoted field ++ js ":{}") (quoted field ++ js ":[]") encoded 0.

Definition fixEmptyLists (encoded : jstr) : jstr :=
  foldl fixEmptyList encoded [js "input_files"; js "read_sessions"; js "output_file_ids"].

(** The numbers [cjson] prints exactly. *)
Definition exact (n : Z) : Prop := (- 10 ^ 14 < n < 10 ^ 14)%Z.
Definition exactRecord {scope} (r : EgressLedgerRecord scope) : Prop :=
  (forall f, exact (getField f r)) /\ (forall t, revoked_at r = Some t -> exact t).

Class LedgerCodec (scope : Type) := {
  json_stringify : EgressLedgerRecord scope -> jstr;
  json_parse : jstr -> option (EgressLedgerRecord scope);
  cjson_decode : jstr -> option (EgressLedgerRecord scope);
  cjson_encode : EgressLedgerRecord scope -> jstr;
  decode_stringify r : exactRecord r -> cjson_decode (json_stringify r) = Some r;
  decode_encode r : exactRecord r -> cjson_decode (fixEmptyLists (cjson_encode r)) = Some r;
  parse_encode r : exactRecord r -> json_parse (fixEmptyLists (cjson_encode r)) = Some r;
}.

(** ** The script *)

(** [ARGV[1]] with its further arguments. *)
Inductive ledgerOp :=
| OpCreate (policy : jstr) (compact : bool) (ttl : Z)
| OpRevoke (reason : jstr)
| OpCheck
| OpSnapshot
| OpReserve (file : jstr) (bytes maxFileBytes : Z)
| OpRelease (file : jstr) (bytes : Z)
| OpRead
| OpTool
| OpUnknown.

Inductive denial :=
| Missing | InvalidRepresentation | Mismatch | Revoked | Expired
| ReleaseMismatch | RequestBudget | FileBytes | FileUsed | FileCount | AggregateBytes | UnknownOperation.

Inductive ledgerReply := Granted (text : option jstr) | Denied (why : denial).

Section script.
Context {scope : Type} `{LedgerCodec scope} (key : jstr).

Abbreviation record := (EgressLedgerRecord scope).

(** [compact], or the decoded record. *)
Inductive representation := Compact | Legacy (r : record).

Definition getText (field : string) (legacy : record -> jstr) (rep : representation) : prog (option jstr) :=
  match rep with
  | Compact => rd (HGET key (js field))
  | Legacy r => Ret (Some (legacy r))
  end.

Definition number (f : ledgerField) (rep : representation) : prog Z :=
  match rep with
  | Compact => v ← rd (HGET key (fieldName f)); need (v ≫= tonumber)
  | Legacy r => Ret (getField f r)
  end.

Definition add (f : ledgerField) (n : Z) (rep : representation) : prog representation :=
  match rep with
  | Compact => rd (HINCRBY key (fieldName f) n);; Ret Compact
  | Legacy r => Ret (Legacy (addField f n r))
  end.

Definition encodeRecord (r : record) : jstr := fixEmptyLists (cjson_encode r).

Definition save (rep : representation) : prog unit :=
  match rep with
  | Compact => Ret tt
  | Legacy r =>
      ttl ← rd (PTTL key);
      rd (SET key (encodeRecord r) NOTTL false);;
      if (0 <=? ttl)%Z then rd (PEXPIREAT key (PX (Z.max 1 ttl))) else Ret tt
  end.

Definition outputField (file : jstr) : jstr := js "output:" ++ file.

(** The position of a file identifier: the loop keeps the last. *)
Fixpoint lastIndexOfFile (ids : list jstr) (file : jstr) (i : nat) (found : option nat) : option nat :=
  match ids with
  | [] => found
  | id :: ids' => lastIndexOfFile ids' file (S i) (if bool_decide (id = file) then Some i else found)
  end.

(** What is known of an output: the bytes the hash holds, or a position. *)
Inductive existing := NoOutput | HeldBytes (text : jstr) | HeldAt (index : nat).

Definition findOutput (rep : representation) (file : jstr) : prog existing :=
  match rep with
  | Compact => v ← rd (HGET key (outputField file)); Ret (match v with Some t => HeldBytes t | None => NoOutput end)
  | Legacy r => Ret (match lastIndexOfFile (output_file_ids r) file 0 None with Some i => HeldAt i | None => NoOutput end)
  end.

Definition insertOutput (file : jstr) (bytes : Z) (rep : representation) : prog representation :=
  match rep with
  | Compact => rd (HSET key [(outputField file, dec bytes)]);; Ret Compact
  | Legacy r => Ret (Legacy (withOutputs (output_file_ids r ++ [file]) r))
  end.

(** [table.remove(ids, index)]. *)
Definition removeAt {A} (l : list A) (i : nat) : list A := take i l ++ drop (S i) l.

Definition removeOutput (file : jstr) (held : existing) (rep : representation) : prog representation :=
  match rep, held with
  | Compact, _ => rd (HDEL key [outputField file]);; Ret Compact
  | Legacy r, HeldAt i => Ret (Legacy (withOutputs (removeAt (output_file_ids r) i) r))
  | Legacy r, _ => Ret (Legacy r)
  end.

Definition createBody (policy : jstr) (compact : bool) (ttl : Z) : prog ledgerReply :=
  p ← need (cjson_decode policy);
  (if compact then
     rd (HSET key [(js "policy", policy); (js "status", ACTIVE); (js "exec_id", exec_id p); (js "exp", dec (exp p));
                   (js "max_requests", dec (max_requests p)); (js "max_upload_bytes", dec (max_upload_bytes p));
                   (js "max_output_files", dec (max_output_files p));
                   (js "request_count", dec 0); (js "read_count", dec 0); (js "upload_count", dec 0);
                   (js "tool_call_count", dec 0); (js "uploaded_bytes", dec 0)])
   else rd (SET key policy NOTTL false);; Ret tt);;
  rd (PEXPIREAT key (EX ttl));;
  Ret (Granted None).

Definition revokeBody (now : Z) (reason : jstr) (rep : representation) : prog ledgerReply :=
  match rep with
  | Compact =>
      rd (HSET key [(js "status", REVOKED)]);; rd (HSET key [(js "revoked_at", dec now)]);;
      rd (HSET key [(js "revoke_reason", reason)]);; Ret (Granted None)
  | Legacy r => save (Legacy (asRevoked now reason r));; Ret (Granted None)
  end.

(** The outputs among the fields of the hash. *)
Definition outputIds (fields : list jstr) : list jstr :=
  map (drop 7) (filter (fun f => bool_decide (take 7 f = js "output:") = true) fields).

Definition snapshotBody (rep : representation) : prog ledgerReply :=
  r ← match rep with
      | Legacy r => Ret r
      | Compact =>
          text ← rd (HGET key (js "policy")); p ← need (text ≫= cjson_decode);
          requests ← number F_request_count Compact; reads ← number F_read_count Compact;
          uploads ← number F_upload_count Compact; tools ← number F_tool_call_count Compact;
          bytes ← number F_uploaded_bytes Compact;
          fields ← rd (HKEYS key);
          Ret (withCounts requests reads uploads tools bytes (outputIds fields) p)
      end;
  Ret (Granted (Some (encodeRecord r))).

Definition releaseBody (file : jstr) (bytes : Z) (held : existing) (rep : representation) : prog ledgerReply :=
  match held with
  | NoOutput => Ret (Granted None)
  | _ =>
      reserved ← match held with HeldBytes t => need (tonumber t) | _ => Ret bytes end;
      if match rep with Compact => negb (reserved =? bytes)%Z | Legacy _ => false end then Ret (Denied ReleaseMismatch) else
      uploaded ← number F_uploaded_bytes rep;
      rep ← add F_uploaded_bytes (- Z.min uploaded reserved) rep;
      rep ← add F_upload_count (-1) rep;
      rep ← add F_request_count (-1) rep;
      rep ← removeOutput file held rep;
      save rep;; Ret (Granted None)
  end.

(** What [reserve], [read] and [tool] have in common. *)
Definition withRequest (rep : representation) (body : prog (representation + denial)) : prog ledgerReply :=
  used ← number F_request_count rep;
  limit ← number F_max_requests rep;
  if (limit <=? used)%Z then Ret (Denied RequestBudget) else
  r ← body;
  match r with
  | inr why => Ret (Denied why)
  | inl rep => rep ← add F_request_count 1 rep; save rep;; Ret (Granted None)
  end.

Definition reserveBody (file : jstr) (bytes maxFileBytes : Z) (held : existing) (rep : representation) : prog (representation + denial) :=
  limit ← number F_max_upload_bytes rep;
  let maxBytes := Z.min limit maxFileBytes in
  if (bytes <? 0)%Z || (maxBytes <? bytes)%Z then Ret (inr FileBytes) else
  if match held with NoOutput => false | _ => true end then Ret (inr FileUsed) else
  uploads ← number F_upload_count rep;
  files ← number F_max_output_files rep;
  if (files <=? uploads)%Z then Ret (inr FileCount) else
  uploaded ← number F_uploaded_bytes rep;
  files ← number F_max_output_files rep;
  if (maxBytes * files <? uploaded + bytes)%Z then Ret (inr AggregateBytes) else
  rep ← add F_uploaded_bytes bytes rep;
  rep ← add F_upload_count 1 rep;
  rep ← insertOutput file bytes rep;
  Ret (inl rep).

Definition counted (f : ledgerField) (rep : representation) : prog (representation + denial) :=
  rep ← add f 1 rep; Ret (inl rep).

(** The guards every use of a grant passes. *)
Definition checked (execId : jstr) (now : Z) (rep : representation) (body : prog ledgerReply) : prog ledgerReply :=
  owner ← getText "exec_id" exec_id rep;
  if neqStr owner execId then Ret (Denied Mismatch) else
  state ← getText "status" status rep;
  if neqStr state ACTIVE then Ret (Denied Revoked) else
  limit ← number F_exp rep;
  if (limit <=? now)%Z then Ret (Denied Expired) else
  body.

(** [ARGV[4]]: the callers of [read] and [tool] send an empty one. *)
Definition fileOf (op : ledgerOp) : jstr :=
  match op with OpReserve file _ _ | OpRelease file _ => file | _ => [] end.

Definition usedBody (op : ledgerOp) (execId : jstr) (now : Z) (rep : representation) : prog ledgerReply :=
  match op with
  | OpRevoke reason => revokeBody now reason rep
  | _ =>
      checked execId now rep
        (match op with
         | OpCheck => Ret (Granted None)
         | OpSnapshot => snapshotBody rep
         | _ =>
             held ← findOutput rep (fileOf op);
             match op with
             | OpRelease file bytes => releaseBody file bytes held rep
             | OpReserve file bytes maxFileBytes => withRequest rep (reserveBody file bytes maxFileBytes held rep)
             | OpRead => withRequest rep (counted F_read_count rep)
             | OpTool => withRequest rep (counted F_tool_call_count rep)
             | _ => Ret (Denied UnknownOperation)
             end
         end)
  end.

Definition ledgerScript (op : ledgerOp) (execId : jstr) (now : Z) : prog ledgerReply :=
  kind ← rd (TYPE key);
  match op with
  | OpCreate policy compact ttl =>
      if negb (bool_decide (kind = js "none")) then Ret (Granted None) else createBody policy compact ttl
  | _ =>
      if bool_decide (kind = js "none")
      then Ret (match op with OpRevoke _ => Granted None | _ => Denied Missing end)
      else if negb (bool_decide (kind = js "hash")) && negb (bool_decide (kind = js "string")) then Ret (Denied InvalidRepresentation)
      else
        rep ← (if bool_decide (kind = js "hash") then Ret Compact
               else text ← rd (GET key); r ← need (text ≫= cjson_decode); Ret (Legacy r));
        usedBody op execId now rep
  end.
End script.
Arguments representation scope : clear implicits.

(** ** The functions that call it *)

Inductive EgressGrantErrorReason := MALFORMED | EXPIRED | SCOPE_MISMATCH.

(** [result[1]] of an error reply. *)
Definition errorReason (why : denial) : EgressGrantErrorReason :=
  match why with Expired => EXPIRED | _ => SCOPE_MISMATCH end.

Record ledgerEnv := LedgerEnv {
  EGRESS_LEDGER_REQUIRED : bool; EGRESS_LEDGER_COMPACT : bool;
  EGRESS_LEDGER_TTL_GRACE_SECONDS : Z; EGRESS_GATEWAY_MAX_FILE_BYTES : Z;
}.

Section calls.
Context {scope : Type} `{LedgerCodec scope} (env : ledgerEnv).

(** The claims of a grant that the ledger uses. *)
Record EgressGrantClaims := Grant {
  c_grant_id : jstr; c_exec_id : jstr; c_exp : Z; c_scope : scope;
  c_max_upload_bytes : Z; c_max_output_files : Z; c_max_requests : Z;
}.

Definition ledgerKey (grantId : jstr) : jstr := js "codeapi:egress:grant:" ++ grantId.

(** [clock] is [Date.now()]. *)
Definition ttlSeconds (exp clock : Z) : Z := Z.max 1 (exp - clock / 1000 + EGRESS_LEDGER_TTL_GRACE_SECONDS env).

Definition recordFromGrant (grant : EgressGrantClaims) : EgressLedgerRecord scope :=
  LedgerRecord scope (c_grant_id grant) (c_exec_id grant) ACTIVE (c_exp grant) None None (c_scope grant)
    (c_max_upload_bytes grant) (c_max_output_files grant) (c_max_requests grant) 0 0 0 0 0 [].

Definition executeLedger (op : ledgerOp) (grantId execId : jstr) (clock : Z) : prog (res EgressGrantErrorReason (option jstr)) :=
  r ← ledgerScript (ledgerKey grantId) op execId (clock / 1000);
  Ret (match r with Granted text => Ok text | Denied why => Err (errorReason why) end).

(** A function whose promise resolves without a value. *)
Definition settled (p : prog (res EgressGrantErrorReason (option jstr))) : prog (res EgressGrantErrorReason unit) :=
  r ← p; Ret (match r with Ok _ => Ok tt | Err e => Err e end).

Definition whenRequired (p : prog (res EgressGrantErrorReason unit)) : prog (res EgressGrantErrorReason unit) :=
  if EGRESS_LEDGER_REQUIRED env then p else Ret (Ok tt).

Definition createEgressLedger (grant : EgressGrantClaims) (clock : Z) : prog (res EgressGrantErrorReason unit) :=
  if length (c_grant_id grant) =? 0 then Ret (Err MALFORMED) else
  whenRequired (settled (executeLedger
    (OpCreate (json_stringify (recordFromGrant grant)) (EGRESS_LEDGER_COMPACT env) (ttlSeconds (c_exp grant) clock))
    (c_grant_id grant) (c_exec_id grant) clock)).

(** Gateways admit a grant again whenever they meet it. *)
Definition ensureEgressLedger : EgressGrantClaims -> Z -> prog (res EgressGrantErrorReason unit) := createEgressLedger.

Definition checkEgressGrantActive (grantId execId : jstr) (clock : Z) : prog (res EgressGrantErrorReason unit) :=
  whenRequired (settled (executeLedger OpCheck grantId execId clock)).

(** [JSON.parse] of the reply; a text that is no record is a failure of the call. *)
Definition assertEgressGrantActive (grant : EgressGrantClaims) (clock : Z) :
    prog (res EgressGrantErrorReason (EgressLedgerRecord scope)) :=
  if negb (EGRESS_LEDGER_REQUIRED env) then Ret (Ok (recordFromGrant grant)) else
  r ← executeLedger OpSnapshot (c_grant_id grant) (c_exec_id grant) clock;
  match r with
  | Err e => Ret (Err e)
  | Ok text => r ← need (text ≫= json_parse); Ret (Ok r)
  end.

Definition recordEgressRead (grant : EgressGrantClaims) (clock : Z) : prog (res EgressGrantErrorReason unit) :=
  whenRequired (settled (executeLedger OpRead (c_grant_id grant) (c_exec_id grant) clock)).

(** [Number.isSafeInteger(bytes) && bytes >= 0]. *)
Definition validBytes (bytes : Z) : bool := ((0 <=? bytes) && (bytes <? 2 ^ 53))%Z.

Definition reserveEgressUpload (grant : EgressGrantClaims) (fileId : jstr) (bytes clock : Z) : prog (res EgressGrantErrorReason unit) :=
  whenRequired (if negb (validBytes bytes) then Ret (Err SCOPE_MISMATCH) else
    settled (executeLedger (OpReserve fileId bytes (EGRESS_GATEWAY_MAX_FILE_BYTES env)) (c_grant_id grant) (c_exec_id grant) clock)).

Definition releaseEgressUpload (grant : EgressGrantClaims) (fileId : jstr) (bytes clock : Z) : prog (res EgressGrantErrorReason unit) :=
  whenRequired (if negb (validBytes bytes) then Ret (Err SCOPE_MISMATCH) else
    settled (executeLedger (OpRelease fileId bytes) (c_grant_id grant) (c_exec_id grant) clock)).

Definition recordEgressToolCall (grantId : option jstr) (executionId : jstr) (clock : Z) : prog (res EgressGrantErrorReason unit) :=
  match grantId with
  | Some (c :: id) => whenRequired (settled (executeLedger OpTool (c :: id) executionId clock))
  | _ => Ret (Ok tt)
  end.

Definition revokeEgressLedger (grantId reason : jstr) (clock : Z) : prog (res EgressGrantErrorReason unit) :=
  whenRequired (settled (executeLedger (OpRevoke reason) grantId [] clock)).
End calls.
Arguments EgressGrantClaims scope : clear implicits.
