(* ===== verification/EgressLedgerProofs.v ===== *)
(** * The egress ledger refines an abstract one

    The abstract ledger is a policy, a revocation mark, the counters and the list of
    reserved outputs with their bytes. [script_rule]: on either representation the
    script answers what the abstract ledger answers, stores its successor and does not
    shorten its life. The representations differ in one answer: only the hash knows the
    bytes of each output and refuses a release that names others ([a_compact]). The
    bodies are proved once, against the rules [holds] gives for the accessors both
    representations implement. *)

From stdpp Require Import base list numbers option strings gmap relations.
From Stdlib Require Import ZArith Lia.
From S2P Require Import Prelude JsString Json Redis EgressLedger.

(** ** The abstract ledger *)

Fixpoint held (file : jstr) (outputs : list (jstr * Z)) : option Z :=
  match outputs with
  | [] => None
  | (f, b) :: outputs' => if bool_decide (f = file) then Some b else held file outputs'
  end.

Fixpoint unheld (file : jstr) (outputs : list (jstr * Z)) : list (jstr * Z) :=
  match outputs with
  | [] => []
  | (f, b) :: outputs' => if bool_decide (f = file) then outputs' else (f, b) :: unheld file outputs'
  end.

Fixpoint sumBytes (outputs : list (jstr * Z)) : Z :=
  match outputs with [] => 0 | (_, b) :: outputs' => b + sumBytes outputs' end.

(** [a_bytes] counts the uploaded bytes; [a_compact] is the representation. *)
Record ledger {scope : Type} := Ledger {
  a_policy : EgressLedgerRecord scope; a_revoked : option (Z * jstr);
  a_reads : Z; a_tools : Z; a_outputs : list (jstr * Z);
  a_bytes : Z; a_compact : bool;
}.
Arguments ledger scope : clear implicits.

Section abstract.
Context {scope : Type}.
Implicit Types a : ledger scope.

Definition a_uploads a : Z := Z.of_nat (length (a_outputs a)).
Definition a_requests a : Z := (a_reads a + a_tools a + a_uploads a)%Z.

(** Spend one request, unless the budget is used up. *)
Definition spend a (next : ledger scope + denial) : ledger scope * option denial :=
  if (max_requests (a_policy a) <=? a_requests a)%Z then (a, Some RequestBudget)
  else match next with inl a' => (a', None) | inr why => (a, Some why) end.

Definition reserved a (file : jstr) (bytes maxFileBytes : Z) : ledger scope + denial :=
  let maxBytes := Z.min (max_upload_bytes (a_policy a)) maxFileBytes in
  let files := max_output_files (a_policy a) in
  if (bytes <? 0)%Z || (maxBytes <? bytes)%Z then inr FileBytes
  else if bool_decide (is_Some (held file (a_outputs a))) then inr FileUsed
  else if (files <=? a_uploads a)%Z then inr FileCount
  else if (maxBytes * files <? a_bytes a + bytes)%Z then inr AggregateBytes
  else inl (Ledger scope (a_policy a) (a_revoked a) (a_reads a) (a_tools a) (a_outputs a ++ [(file, bytes)]) (a_bytes a + bytes) (a_compact a)).

Definition released a (file : jstr) (bytes : Z) : ledger scope * option denial :=
  match held file (a_outputs a) with
  | None => (a, None)
  | Some b =>
      if a_compact a && negb (b =? bytes)%Z then (a, Some ReleaseMismatch)
      else (Ledger scope (a_policy a) (a_revoked a) (a_reads a) (a_tools a) (unheld file (a_outputs a))
              (a_bytes a - Z.min (a_bytes a) bytes) (a_compact a), None)
  end.

(** One operation on the abstract ledger; [None] grants it. *)
Definition aStep a (op : ledgerOp) (execId : jstr) (now : Z) : ledger scope * option denial :=
  match op with
  | OpCreate _ _ _ => (a, None)
  | OpRevoke reason => (Ledger scope (a_policy a) (Some (now, reason)) (a_reads a) (a_tools a) (a_outputs a) (a_bytes a) (a_compact a), None)
  | _ =>
      if negb (bool_decide (exec_id (a_policy a) = execId)) then (a, Some Mismatch)
      else if bool_decide (is_Some (a_revoked a)) then (a, Some Revoked)
      else if (exp (a_policy a) <=? now)%Z then (a, Some Expired)
      else match op with
           | OpCheck | OpSnapshot => (a, None)
           | OpRead => spend a (inl (Ledger scope (a_policy a) (a_revoked a) (a_reads a + 1) (a_tools a) (a_outputs a) (a_bytes a) (a_compact a)))
           | OpTool => spend a (inl (Ledger scope (a_policy a) (a_revoked a) (a_reads a) (a_tools a + 1) (a_outputs a) (a_bytes a) (a_compact a)))
           | OpReserve file bytes maxFileBytes => spend a (reserved a file bytes maxFileBytes)
           | OpRelease file bytes => released a file bytes
           | _ => (a, Some UnknownOperation)
           end
  end.

(** A policy whose limits stay far from the bounds of the number formats. *)
Definition sane (p : EgressLedgerRecord scope) : Prop :=
  (0 <= max_requests p < 10 ^ 14 /\ 0 <= max_output_files p < 10 ^ 14 /\ 0 <= max_upload_bytes p < 10 ^ 14
   /\ max_upload_bytes p * max_output_files p < 10 ^ 14 /\ 0 <= exp p < 10 ^ 14)%Z /\ revoked_at p = None.

(** The invariant: no budget is exceeded. *)
Record budgets a : Prop := {
  b_requests : (a_requests a <= max_requests (a_policy a))%Z;
  b_uploads : (a_uploads a <= max_output_files (a_policy a))%Z;
  b_bytes : (0 <= a_bytes a <= max_upload_bytes (a_policy a) * max_output_files (a_policy a))%Z;
  b_each : Forall (fun o => 0 <= snd o <= max_upload_bytes (a_policy a))%Z (a_outputs a);
  b_counts : (0 <= a_reads a /\ 0 <= a_tools a)%Z;
  b_files : NoDup (map fst (a_outputs a));
  b_spent : a_compact a = true -> a_bytes a = sumBytes (a_outputs a);
}.

(** The callers release no negative number of bytes ([releaseEgressUpload] checks it). *)
Definition admissible (op : ledgerOp) : Prop := match op with OpRelease _ bytes => (0 <= bytes)%Z | _ => True end.

Lemma held_None file outs : held file outs = None <-> file ∉ map fst outs.
Proof.
  induction outs as [|[f b] outs IH]; cbn [held map fst]; [split; [intros _; apply not_elem_of_nil|done]|].
  rewrite not_elem_of_cons. case_bool_decide; [subst; naive_solver|]. rewrite IH. naive_solver.
Qed.

Lemma held_In file outs b : held file outs = Some b -> (file, b) ∈ outs.
Proof.
  induction outs as [|[f b'] outs IH]; cbn [held]; [done|]. case_bool_decide; [intros [= <-]; subst; left|]. intros E. right. by apply IH.
Qed.

Lemma unheld_sum file outs b : held file outs = Some b -> sumBytes (unheld file outs) = (sumBytes outs - b)%Z.
Proof.
  induction outs as [|[f b'] outs IH]; cbn [held unheld sumBytes]; [done|]. case_bool_decide; [intros [= <-]; lia|].
  intros E. cbn [sumBytes]. rewrite IH by done. lia.
Qed.

Lemma unheld_length file outs b : held file outs = Some b -> S (length (unheld file outs)) = length outs.
Proof.
  induction outs as [|[f b'] outs IH]; cbn [held unheld length]; [done|]. case_bool_decide; [done|].
  intros E. cbn [length]. f_equal. by apply IH.
Qed.

Lemma unheld_In file outs x : x ∈ unheld file outs -> x ∈ outs.
Proof.
  induction outs as [|[f b] outs IH]; cbn [unheld]; [done|]. case_bool_decide; rewrite !elem_of_cons; naive_solver.
Qed.

Lemma unheld_NoDup file outs : NoDup (map fst outs) -> NoDup (map fst (unheld file outs)).
Proof.
  induction outs as [|[f b] outs IH]; cbn [unheld map fst]; [done|]. rewrite NoDup_cons. intros [Hf Hn].
  case_bool_decide; [done|]. cbn [map fst]. rewrite NoDup_cons. split; [|by apply IH].
  intros Hin. apply Hf. apply list_elem_of_fmap in Hin as (x & -> & Hx). apply list_elem_of_fmap. exists x. split; [done|]. by eapply unheld_In.
Qed.

Lemma held_unheld file outs g : NoDup (map fst outs) ->
  held g (unheld file outs) = if bool_decide (g = file) then None else held g outs.
Proof.
  induction outs as [|[f b] outs IH]; cbn [unheld held map fst]; [by case_bool_decide|]. rewrite NoDup_cons. intros [Hf Hn].
  destruct (bool_decide_reflect (f = file)) as [->|Hne].
  - case_bool_decide; [subst; by apply held_None|]. by rewrite bool_decide_eq_false_2 by congruence.
  - cbn [held]. rewrite IH by done. repeat case_bool_decide; congruence.
Qed.

Lemma held_app file outs f b : held file (outs ++ [(f, b)]) =
  match held file outs with Some x => Some x | None => if bool_decide (f = file) then Some b else None end.
Proof. induction outs as [|[f' b'] outs IH]; cbn [app held]; [done|]. destruct (bool_decide (f' = file)); [done|exact IH]. Qed.

Lemma sumBytes_app l l' : sumBytes (l ++ l') = (sumBytes l + sumBytes l')%Z.
Proof. induction l as [|[f b] l IH]; cbn [app sumBytes]; [done|]. rewrite IH. lia. Qed.

(** Each operation keeps the budgets. *)
Lemma reserved_budgets a file bytes maxFileBytes a' : budgets a -> sane (a_policy a) ->
  (a_requests a < max_requests (a_policy a))%Z -> reserved a file bytes maxFileBytes = inl a' -> budgets a'.
Proof.
  intros [B1 B2 B3 B4 B5 B6 B7] Hs Hr. unfold reserved. repeat (case_match; [done|]). intros [= <-]. apply orb_false_iff in H as [Hb Hm].
  apply Z.ltb_ge in Hb, Hm. apply Z.leb_gt in H1. apply Z.ltb_ge in H2. apply bool_decide_eq_false in H0.
  unfold a_requests, a_uploads in *. destruct Hs as [(_ & S2 & _) _].
  split; unfold a_requests, a_uploads in *; cbn [a_policy a_reads a_tools a_outputs a_bytes a_compact];
    rewrite ?length_app, ?sumBytes_app, ?map_app; cbn [length sumBytes map fst]; try lia.
  - split; [lia|]. transitivity (Z.min (max_upload_bytes (a_policy a)) maxFileBytes * max_output_files (a_policy a))%Z; [lia|].
    apply Z.mul_le_mono_nonneg_r; lia.
  - apply Forall_app. split; [done|]. constructor; [cbn [snd]; lia|constructor].
  - apply NoDup_app. split; [done|]. split; [|apply NoDup_singleton]. intros x Hx ->%list_elem_of_singleton.
    apply H0. destruct (held file (a_outputs a)) eqn:E; [done|]. by apply held_None in E.
  - intros Hc. rewrite (B7 Hc). lia.
Qed.

Lemma reserved_rest a file bytes maxFileBytes a' : reserved a file bytes maxFileBytes = inl a' ->
  a_policy a' = a_policy a /\ a_revoked a' = a_revoked a /\ a_compact a' = a_compact a.
Proof. unfold reserved. repeat (case_match; [done|]). by intros [= <-]. Qed.

Lemma sumBytes_nonneg outs b : Forall (fun o => 0 <= snd o <= b)%Z outs -> (0 <= sumBytes outs)%Z.
Proof. induction 1 as [|[f x] outs [Hx _] _ IH]; cbn [sumBytes snd] in *; lia. Qed.

(** The outputs held never exceed the limits of size and number together. *)
Lemma held_total a : budgets a -> sane (a_policy a) -> (0 <= sumBytes (a_outputs a) <= max_upload_bytes (a_policy a) * max_output_files (a_policy a))%Z.
Proof.
  intros [_ B2 _ B4 _ _ _] [(_ & S2 & S3 & _) _]. unfold a_uploads in B2. split; [by eapply sumBytes_nonneg|].
  transitivity (max_upload_bytes (a_policy a) * Z.of_nat (length (a_outputs a)))%Z; [|apply Z.mul_le_mono_nonneg_l; lia].
  clear B2. induction B4 as [|[f x] outs [_ Hx] _ IH]; cbn [sumBytes length snd] in *; [lia|]. rewrite Nat2Z.inj_succ. lia.
Qed.

Lemma released_budgets a file bytes : budgets a -> (0 <= bytes)%Z -> budgets (fst (released a file bytes)).
Proof.
  intros B Hbytes. unfold released. destruct (held file (a_outputs a)) as [b|] eqn:E; [|done].
  destruct (a_compact a && negb (b =? bytes)%Z) eqn:Em; [done|].
  destruct B as [B1 B2 B3 B4 B5 B6 B7]. pose proof (unheld_length _ _ _ E) as Hl. pose proof (unheld_sum _ _ _ E) as Hu.
  pose proof (proj1 (Forall_forall _ _) B4 _ (held_In _ _ _ E)) as [Hb _]. cbn [snd] in Hb.
  split; unfold a_requests, a_uploads in *; cbn [fst a_policy a_reads a_tools a_outputs a_bytes a_compact]; try lia.
  - rewrite Forall_forall in *. intros x Hx. by apply B4, (unheld_In file).
  - by apply unheld_NoDup.
  - intros Hc. rewrite Hc in Em. cbn [andb] in Em. apply negb_false_iff, Z.eqb_eq in Em. subst b. rewrite (B7 Hc), Hu.
    assert (0 <= sumBytes (unheld file (a_outputs a)))%Z; [|lia]. eapply sumBytes_nonneg. rewrite Forall_forall in *.
    intros x Hx. by apply B4, (unheld_In file).
Qed.

Lemma aStep_budgets a op execId now : budgets a -> sane (a_policy a) -> admissible op -> budgets (fst (aStep a op execId now)).
Proof.
  intros B Hs Hop. assert (forall reads tools, (a_reads a <= reads)%Z -> (a_tools a <= tools)%Z ->
    (reads + tools + a_uploads a <= max_requests (a_policy a))%Z ->
    budgets (Ledger scope (a_policy a) (a_revoked a) reads tools (a_outputs a) (a_bytes a) (a_compact a))) as Hc.
  { intros reads tools H1 H2 H3. destruct B as [B1 B2 B3 B4 B5 B6 B7]. split; try done; cbn; lia. }
  unfold aStep, spend. destruct op; cbn [fst]; try done; try (destruct B; by split);
    repeat (case_match; cbn [fst]; try done); try (apply Hc; unfold a_requests in *; lia).
  - eapply reserved_budgets; [done..| |done]. lia.
  - by apply released_budgets.
Qed.

Lemma aStep_policy a op execId now : a_policy (fst (aStep a op execId now)) = a_policy a.
Proof. unfold aStep, spend, reserved, released. destruct op; cbn [fst a_policy]; try done; by repeat (case_match; simplify_eq/=). Qed.

Lemma aStep_revoked a op execId now : is_Some (a_revoked a) -> is_Some (a_revoked (fst (aStep a op execId now))).
Proof.
  intros Hr. unfold aStep, spend, reserved, released. destruct op; cbn [fst a_revoked]; try done; by repeat (case_match; simplify_eq/=).
Qed.
End abstract.

(** ** Representations *)

(** A ledger in the middle of a script: its numbers are updated one by one. *)
Record raw {scope : Type} := Raw {
  w_policy : EgressLedgerRecord scope; w_revoked : option (Z * jstr);
  w_num : ledgerField -> Z; w_out : list (jstr * Z); w_compact : bool;
}.
Arguments raw scope : clear implicits.

Definition statusText (revoked : option (Z * jstr)) : jstr := match revoked with Some _ => REVOKED | None => ACTIVE end.

(** The record of the JSON representation. *)
Definition rawRecord {scope} (w : raw scope) : EgressLedgerRecord scope :=
  LedgerRecord scope (grant_id (w_policy w)) (exec_id (w_policy w)) (statusText (w_revoked w)) (w_num w F_exp)
    (fst <$> w_revoked w) (snd <$> w_revoked w) (carried (w_policy w))
    (w_num w F_max_upload_bytes) (w_num w F_max_output_files) (w_num w F_max_requests)
    (w_num w F_request_count) (w_num w F_read_count) (w_num w F_upload_count) (w_num w F_tool_call_count)
    (w_num w F_uploaded_bytes) (map fst (w_out w)).

Definition addNum {scope} (f : ledgerField) (n : Z) (w : raw scope) : raw scope :=
  Raw scope (w_policy w) (w_revoked w) (fun g => if decide (f = g) then (w_num w g + n)%Z else w_num w g) (w_out w) (w_compact w).
Definition setOut {scope} (outs : list (jstr * Z)) (w : raw scope) : raw scope :=
  Raw scope (w_policy w) (w_revoked w) (w_num w) outs (w_compact w).

(** Field names are told apart by their texts. *)
Lemma fieldName_inj f g : fieldName f = fieldName g -> f = g.
Proof. by destruct f, g. Qed.

Lemma fieldName_output f file : fieldName f <> outputField file.
Proof. intros E. apply (f_equal (take 7)) in E. unfold outputField in E. rewrite take_app_le in E by done. by destruct f. Qed.

Lemma outputField_inj f g : outputField f = outputField g -> f = g.
Proof. apply app_inv_head. Qed.

Lemma named_output (s : string) file : take 7 (js s) <> js "output:" -> js s <> outputField file.
Proof. intros Hs E. apply Hs. rewrite E. unfold outputField. by rewrite take_app_le. Qed.

Section rules.
Context {scope : Type} `{LedgerCodec scope} (key : jstr) (now until : Z).
Implicit Types (w : raw scope) (ks : keyspace).

(** The hash of the compact representation. *)
Record compactRep w (h : gmap jstr jstr) : Prop := {
  cr_policy : exists text, h !! js "policy" = Some text /\ cjson_decode text = Some (w_policy w);
  cr_exec : h !! js "exec_id" = Some (exec_id (w_policy w));
  cr_status : h !! js "status" = Some (statusText (w_revoked w));
  cr_number : forall f, h !! fieldName f = Some (dec (w_num w f));
  cr_output : forall file, h !! outputField file = dec <$> held file (w_out w);
}.

(** What is stored under the key, whatever the representation. *)
Definition repr w (v : rvalue) : Prop :=
  match v with
  | VHash h => w_compact w = true /\ compactRep w h
  | VStr text => w_compact w = false /\ cjson_decode text = Some (rawRecord w)
  | _ => False
  end.

(** It does not expire before [until]. *)
Definition lasts (x : option Z) : Prop := match x with Some x => (until <= x)%Z | None => True end.

Definition stored w ks : Prop := exists e, find now ks key = Some e /\ repr w (e_val e) /\ lasts (e_exp e).

(** What a script in progress knows: the hash is updated in place, the record is
    held in a variable until [save]. *)
Definition holds (rep : representation scope) w ks : Prop :=
  match rep with
  | Compact => w_compact w = true /\ exists h x, find now ks key = Some (Entry (VHash h) x) /\ compactRep w h /\ lasts x
  | Legacy r => w_compact w = false /\ r = rawRecord w /\ exists e, find now ks key = Some e /\ lasts (e_exp e)
  end.

(** The rest of the keyspace. *)
Definition elsewhere ks ks' : Prop := forall k, k <> key -> ks' !! k = ks !! k.

Lemma find_keep ks h x h' : find now ks key = Some (Entry (VHash h) x) -> h' <> ∅ ->
  find now (put_hash now ks key h') key = Some (Entry (VHash h') x).
Proof.
  intros Hf Hh. unfold put_hash, keep. rewrite decide_False by done. rewrite Hf. unfold find. rewrite lookup_insert_eq.
  unfold find in Hf. destruct (ks !! key) as [e|]; [|done]. destruct (alive now e) eqn:Ea; [|done]. injection Hf as ->.
  unfold alive in *. cbn [mbind option_bind e_exp] in *. by rewrite Ea.
Qed.

Lemma put_elsewhere ks h' : elsewhere ks (put_hash now ks key h').
Proof. intros k Hk. unfold put_hash, keep. case_decide; [by rewrite lookup_delete_ne|by rewrite lookup_insert_ne]. Qed.

Lemma elsewhere_refl ks : elsewhere ks ks.
Proof. done. Qed.

Lemma elsewhere_trans ks ks1 ks2 : elsewhere ks ks1 -> elsewhere ks1 ks2 -> elsewhere ks ks2.
Proof. intros H1 H2 k Hk. by rewrite H2, H1. Qed.

(** The rules of the accessors; [Q] need not know which representation it is. *)
Lemma wp_hget_in {A} f (k : option jstr -> prog A) ks h x (Q : option A -> keyspace -> Prop) :
  find now ks key = Some (Entry (VHash h) x) -> wp (k (h !! f)) now ks Q -> wp (rd (HGET key f) ≫= k) now ks Q.
Proof.
  intros Hf Hk. apply wp_bind. eapply wp_known; [cbn [exec]; rewrite Hf; reflexivity|]. exact Hk.
Qed.

Lemma number_rule {A} f rep w (k : Z -> prog A) ks (Q : option A -> keyspace -> Prop) :
  holds rep w ks -> wp (k (w_num w f)) now ks Q -> wp (number key f rep ≫= k) now ks Q.
Proof.
  destruct rep as [|r]; cbn [holds number].
  - intros (_ & h & x & Hf & C & _) Hk. apply wp_bind. eapply wp_hget_in; [done|]. rewrite (cr_number _ _ C). cbn [mbind option_bind].
    rewrite tonumber_dec. by apply wp_ret.
  - intros (_ & -> & _) Hk. apply wp_bind, wp_ret. by destruct f.
Qed.

Lemma exec_rule {A} rep w (k : option jstr -> prog A) ks (Q : option A -> keyspace -> Prop) :
  holds rep w ks -> wp (k (Some (exec_id (w_policy w)))) now ks Q -> wp (getText key "exec_id" exec_id rep ≫= k) now ks Q.
Proof.
  destruct rep as [|r]; cbn [holds getText].
  - intros (_ & h & x & Hf & C & _) Hk. eapply wp_hget_in; [done|]. by rewrite (cr_exec _ _ C).
  - intros (_ & -> & _) Hk. by apply wp_bind, wp_ret.
Qed.

Lemma status_rule {A} rep w (k : option jstr -> prog A) ks (Q : option A -> keyspace -> Prop) :
  holds rep w ks -> wp (k (Some (statusText (w_revoked w)))) now ks Q -> wp (getText key "status" status rep ≫= k) now ks Q.
Proof.
  destruct rep as [|r]; cbn [holds getText].
  - intros (_ & h & x & Hf & C & _) Hk. eapply wp_hget_in; [done|]. by rewrite (cr_status _ _ C).
  - intros (_ & -> & _) Hk. by apply wp_bind, wp_ret.
Qed.

(** A write to the hash. *)
Lemma hset_in {A} f v (k : prog A) ks h x (Q : option A -> keyspace -> Prop) :
  find now ks key = Some (Entry (VHash h) x) ->
  (forall ks', find now ks' key = Some (Entry (VHash (<[f := v]> h)) x) -> elsewhere ks ks' -> wp k now ks' Q) ->
  wp (rd (HSET key [(f, v)]);; k) now ks Q.
Proof.
  intros Hf Hk. apply wp_bind. eapply wp_known; [cbn [exec]; rewrite Hf; reflexivity|]. cbn [foldl fst snd].
  apply Hk; [|apply put_elsewhere]. eapply find_keep; [done|]. apply insert_non_empty.
Qed.

Definition roomy (n : Z) : Prop := (- 2 ^ 62 < n < 2 ^ 62)%Z.

Lemma compact_add w h f n : compactRep w h -> compactRep (addNum f n w) (<[fieldName f := dec (w_num w f + n)]> h).
Proof.
  intros [(text & P1 & P2) E S N O]. split.
  - exists text. split; [|done]. rewrite lookup_insert_ne by (by destruct f). done.
  - by rewrite lookup_insert_ne by (by destruct f).
  - by rewrite lookup_insert_ne by (by destruct f).
  - intros g. cbn [addNum w_num]. destruct (decide (f = g)) as [<-|Hne]; [by rewrite lookup_insert_eq|].
    rewrite lookup_insert_ne by (by intros ?%fieldName_inj). apply N.
  - intros file. rewrite lookup_insert_ne by apply fieldName_output. apply O.
Qed.

Lemma add_rule {A} f n rep w (k : representation scope -> prog A) ks (Q : option A -> keyspace -> Prop) :
  holds rep w ks -> roomy (w_num w f) -> roomy n ->
  (forall rep' ks', holds rep' (addNum f n w) ks' -> (rep = Compact <-> rep' = Compact) -> elsewhere ks ks' -> wp (k rep') now ks' Q) ->
  wp (add key f n rep ≫= k) now ks Q.
Proof.
  destruct rep as [|r]; cbn [holds add]; intros Hh R1 R2 Hk.
  - destruct Hh as (Hcomp & h & x & Hf & C & Hx). do 2 apply wp_bind. eapply wp_known.
    + cbn [exec]. rewrite Hf. cbn [mbind option_bind as_hash]. rewrite (cr_number _ _ C), tonumber_dec. cbn [mbind option_bind].
      assert (isInt64 (w_num w f) && isInt64 (w_num w f + n) = true) as -> by (unfold isInt64, roomy in *; lia). reflexivity.
    + apply wp_ret. apply Hk; [|done|apply put_elsewhere]. split; [done|]. eexists _, x. split; [|split; [by apply compact_add|done]].
      eapply find_keep; [done|]. apply insert_non_empty.
  - apply wp_bind, wp_ret. destruct Hh as (Hcomp & -> & Hs). apply Hk; [|done|apply elsewhere_refl]. split; [done|]. split; [|done].
    unfold addField, rawRecord, addNum. cbn [w_policy w_revoked w_num w_out grant_id exec_id status exp revoked_at revoke_reason carried
      max_upload_bytes max_output_files max_requests request_count read_count upload_count tool_call_count uploaded_bytes output_file_ids].
    reflexivity.
Qed.

(** What [findOutput] returns for a reserved file. *)
Definition foundFor (rep : representation scope) w (file : jstr) (b : Z) (found : existing) : Prop :=
  match rep with
  | Compact => found = HeldBytes (dec b)
  | Legacy _ => exists i, found = HeldAt i /\ removeAt (map fst (w_out w)) i = map fst (unheld file (w_out w))
  end.

Lemma lastIndex_skip ids file i found : file ∉ ids -> lastIndexOfFile ids file i found = found.
Proof.
  revert i found. induction ids as [|id ids IH]; intros i found Hn; cbn [lastIndexOfFile]; [done|].
  apply not_elem_of_cons in Hn as [H1 H2]. rewrite IH by done. by rewrite bool_decide_eq_false_2 by congruence.
Qed.

Lemma lastIndex_held outs file b i found : NoDup (map fst outs) -> held file outs = Some b ->
  exists j, lastIndexOfFile (map fst outs) file i found = Some (i + j) /\ removeAt (map fst outs) j = map fst (unheld file outs).
Proof.
  revert i found. induction outs as [|[f b'] outs IH]; intros i found; cbn [held unheld map fst lastIndexOfFile]; [done|].
  rewrite NoDup_cons. intros [Hf Hn]. case_bool_decide.
  - intros _. subst f. exists 0. rewrite lastIndex_skip by done. split; [by rewrite Nat.add_0_r|]. reflexivity.
  - intros E. destruct (IH (S i) found Hn E) as (j & -> & Hr). exists (S j). split; [f_equal; lia|].
    unfold removeAt in *. cbn [take drop app map fst]. f_equal. exact Hr.
Qed.

Lemma findOutput_rule {A} file rep w (k : existing -> prog A) ks (Q : option A -> keyspace -> Prop) :
  holds rep w ks -> NoDup (map fst (w_out w)) ->
  (held file (w_out w) = None -> wp (k NoOutput) now ks Q) ->
  (forall b found, held file (w_out w) = Some b -> foundFor rep w file b found -> wp (k found) now ks Q) ->
  wp (findOutput key rep file ≫= k) now ks Q.
Proof.
  intros Hh Hn H0 H1. destruct rep as [|r]; cbn [holds findOutput] in *.
  - destruct Hh as (_ & h & x & Hf & C & _). apply wp_bind. eapply wp_hget_in; [done|]. rewrite (cr_output _ _ C). apply wp_ret.
    destruct (held file (w_out w)) as [b|] eqn:E; [|by apply H0]. by eapply H1.
  - destruct Hh as (_ & -> & Hs). apply wp_bind, wp_ret. cbn [rawRecord output_file_ids].
    destruct (held file (w_out w)) as [b|] eqn:E.
    + destruct (lastIndex_held _ _ _ 0 None Hn E) as (j & -> & Hr). eapply H1; [done|]. exists j. by split.
    + rewrite lastIndex_skip by (by apply held_None). by apply H0.
Qed.

Lemma insertOutput_rule {A} file bytes rep w (k : representation scope -> prog A) ks (Q : option A -> keyspace -> Prop) :
  holds rep w ks -> held file (w_out w) = None ->
  (forall rep' ks', holds rep' (setOut (w_out w ++ [(file, bytes)]) w) ks' -> elsewhere ks ks' -> wp (k rep') now ks' Q) ->
  wp (insertOutput key file bytes rep ≫= k) now ks Q.
Proof.
  intros Hh Hn Hk. destruct rep as [|r]; cbn [holds insertOutput] in *.
  - destruct Hh as (Hcomp & h & x & Hf & [(text & P1 & P2) E S N O] & Hx). apply wp_bind. eapply hset_in; [done|]. intros ks' Hf' He. apply wp_ret.
    apply Hk; [|done]. split; [done|]. eexists _, x. split; [exact Hf'|]. split; [|done]. split; cbn [setOut w_policy w_revoked w_num w_out].
    + exists text. split; [|done]. by rewrite lookup_insert_ne by (by apply not_eq_sym, named_output).
    + by rewrite lookup_insert_ne by (by apply not_eq_sym, named_output).
    + by rewrite lookup_insert_ne by (by apply not_eq_sym, named_output).
    + intros g. rewrite lookup_insert_ne by (apply not_eq_sym, fieldName_output). apply N.
    + intros g. rewrite held_app. destruct (decide (file = g)) as [<-|Hne].
      * rewrite lookup_insert_eq, Hn. by rewrite bool_decide_eq_true_2.
      * rewrite lookup_insert_ne by (by intros ?%outputField_inj). rewrite O. destruct (held g (w_out w)); [done|].
        by rewrite bool_decide_eq_false_2.
  - destruct Hh as (Hcomp & -> & Hs). apply wp_bind, wp_ret. apply Hk; [|apply elsewhere_refl]. split; [done|]. split; [|done].
    unfold withOutputs, rawRecord, setOut. cbn. by rewrite map_app.
Qed.

Lemma removeOutput_rule {A} file b found rep w (k : representation scope -> prog A) ks (Q : option A -> keyspace -> Prop) :
  holds rep w ks -> NoDup (map fst (w_out w)) -> held file (w_out w) = Some b ->
  (match rep with Compact => True | Legacy _ => foundFor rep w file b found end) ->
  (forall rep' ks', holds rep' (setOut (unheld file (w_out w)) w) ks' -> elsewhere ks ks' -> wp (k rep') now ks' Q) ->
  wp (removeOutput key file found rep ≫= k) now ks Q.
Proof.
  intros Hh Hn Hb Hfound Hk. destruct rep as [|r]; cbn [holds removeOutput foundFor] in *.
  - destruct Hh as (Hcomp & h & x & Hf & [(text & P1 & P2) E S N O] & Hx). do 2 apply wp_bind.
    eapply wp_known; [cbn [exec]; rewrite Hf; reflexivity|]. apply wp_ret. cbn [foldr].
    apply Hk; [|apply put_elsewhere]. split; [done|]. eexists _, x. split; [eapply find_keep; [done|]|split; [|done]].
    + intros E0. assert (delete (outputField file) h !! js "status" = None) as E1 by (by rewrite E0).
      rewrite lookup_delete_ne in E1 by (by apply not_eq_sym, named_output). congruence.
    + split; cbn [setOut w_policy w_revoked w_num w_out].
      * exists text. split; [|done]. by rewrite lookup_delete_ne by (by apply not_eq_sym, named_output).
      * by rewrite lookup_delete_ne by (by apply not_eq_sym, named_output).
      * by rewrite lookup_delete_ne by (by apply not_eq_sym, named_output).
      * intros g. rewrite lookup_delete_ne by (apply not_eq_sym, fieldName_output). apply N.
      * intros g. rewrite held_unheld by done. case_bool_decide; [subst; by rewrite lookup_delete_eq|].
        rewrite lookup_delete_ne by (by intros ?%outputField_inj). apply O.
  - destruct Hh as (Hcomp & -> & Hs). destruct Hfound as (i & -> & Hr). apply wp_bind, wp_ret. apply Hk; [|apply elsewhere_refl]. split; [done|]. split; [|done].
    unfold withOutputs, rawRecord, setOut. cbn. by rewrite Hr.
Qed.

Lemma save_rule {A} rep w (k : prog A) ks (Q : option A -> keyspace -> Prop) :
  holds rep w ks -> exactRecord (rawRecord w) ->
  (forall ks', stored w ks' -> elsewhere ks ks' -> wp k now ks' Q) -> wp (save key rep;; k) now ks Q.
Proof.
  intros Hh He Hk. destruct rep as [|r]; cbn [holds save] in *.
  - apply wp_bind, wp_ret. apply Hk; [|apply elsewhere_refl]. destruct Hh as (Hcomp & h & x & Hf & C & Hx). by eexists.
  - destruct Hh as (Hcomp & -> & e & Hf & Hx). do 2 apply wp_bind. eapply wp_known; [cbn [exec]; rewrite Hf; reflexivity|].
    apply wp_bind. eapply wp_known; [reflexivity|]. cbn [expiry].
    assert (forall x, alive now (Entry (VStr (encodeRecord (rawRecord w))) x) = true -> lasts x ->
      stored w (<[key := Entry (VStr (encodeRecord (rawRecord w))) x]> ks)) as Hs.
    { intros x Ha Hl. eexists. unfold find. rewrite lookup_insert_eq, Ha. split; [done|]. cbn [e_val e_exp repr]. split; [|done]. split; [done|]. by apply decode_encode. }
    assert (forall v, elsewhere ks (<[key := v]> ks)) as Hel by (intros v k' Hk'; by rewrite lookup_insert_ne).
    destruct (0 <=? pttl now (Some e))%Z eqn:Et; [|apply wp_ret; apply Hk; [by apply Hs|done]].
    eapply wp_known; [cbn [exec]; unfold find; rewrite lookup_insert_eq; cbn [alive e_exp expiry e_val]; reflexivity|].
    rewrite (proj2 (Z.leb_gt _ _)) by lia. rewrite insert_insert_eq. apply Hk; [|done]. apply Hs; [unfold alive; cbn [e_exp]; lia|].
    cbn [lasts]. unfold pttl in *. destruct (e_exp e) as [x|]; [|done]. cbn [lasts] in Hx. lia.
Qed.

(** ** The abstract ledger as a stored one *)

Definition aNumber (a : ledger scope) (f : ledgerField) : Z :=
  match f with
  | F_exp => exp (a_policy a) | F_max_requests => max_requests (a_policy a)
  | F_max_upload_bytes => max_upload_bytes (a_policy a) | F_max_output_files => max_output_files (a_policy a)
  | F_request_count => a_requests a | F_read_count => a_reads a | F_upload_count => a_uploads a
  | F_tool_call_count => a_tools a | F_uploaded_bytes => a_bytes a
  end.

Definition rawOf (a : ledger scope) : raw scope := Raw scope (a_policy a) (a_revoked a) (aNumber a) (a_outputs a) (a_compact a).

(** Equal up to the numbers' extension. *)
Record same w w' : Prop := {
  same_policy : w_policy w = w_policy w'; same_revoked : w_revoked w = w_revoked w';
  same_num : forall f, w_num w f = w_num w' f; same_out : w_out w = w_out w'; same_compact : w_compact w = w_compact w';
}.

Lemma same_record w w' : same w w' -> rawRecord w = rawRecord w'.
Proof. intros [P R N O _]. unfold rawRecord. by rewrite P, R, O, !N. Qed.

Lemma stored_same w w' ks : same w w' -> stored w ks -> stored w' ks.
Proof.
  intros Hs (e & Hf & Hr & Hx). exists e. split; [done|]. split; [|done]. destruct (e_val e); cbn [repr] in *; [| |done..];
    rewrite <- (same_compact _ _ Hs); destruct Hr as [Hcomp Hr]; (split; [done|]); [by rewrite <- (same_record w w')|].
  destruct Hs as [P R N O _], Hr as [C1 C2 C3 C4 C5]. split; rewrite <- ?P, <- ?R; try done; intros; rewrite <- ?N, <- ?O; auto.
Qed.

(** The revocation times [cjson] prints exactly. *)
Definition dated (a : ledger scope) : Prop := forall t reason, a_revoked a = Some (t, reason) -> exact t.

Record sound (a : ledger scope) : Prop := {
  s_budgets : budgets a; s_sane : sane (a_policy a); s_dated : dated a;
}.

Lemma sound_numbers a f : sound a -> (0 <= aNumber a f < 10 ^ 14)%Z.
Proof.
  intros [[B1 B2 B3 B4 B5 B6 B7] [(S1 & S2 & S3 & S4 & S5) _] _].
  unfold a_requests, a_uploads in *. destruct f; cbn [aNumber]; unfold a_requests, a_uploads; lia.
Qed.

Lemma sound_roomy a f : sound a -> roomy (aNumber a f).
Proof. intros Hs. pose proof (sound_numbers a f Hs). unfold roomy. lia. Qed.

Lemma sound_exact a : sound a -> exactRecord (rawRecord (rawOf a)).
Proof.
  intros Hs. split.
  - intros f. pose proof (sound_numbers a f Hs). unfold exact. destruct f; cbn [getField rawRecord exp max_requests max_upload_bytes
      max_output_files request_count read_count upload_count tool_call_count uploaded_bytes rawOf w_num]; lia.
  - intros t. cbn [rawRecord revoked_at rawOf w_revoked]. destruct (a_revoked a) as [[t' reason]|] eqn:E; [|done]. intros [= <-].
    by eapply s_dated.
Qed.

Lemma sound_step a op execId clock : sound a -> exact clock -> admissible op -> sound (fst (aStep a op execId clock)).
Proof.
  intros [B S D] Hc Hop. split; [by apply aStep_budgets|by rewrite aStep_policy|]. intros t reason. revert D. unfold dated, aStep, spend, reserved, released.
  destruct op; cbn [fst a_revoked]; try (intros D; apply D); try (by intros _ [= <- _]);
    repeat (case_match; simplify_eq/=); intros D; apply D.
Qed.

(** ** The bodies *)

(** The script's answer is [answer], and the ledger [a] is stored. *)
Definition answers (a : ledger scope) (answer : option denial) ks (r : option ledgerReply) ks' : Prop :=
  match answer with None => r = Some (Granted None) | Some why => r = Some (Denied why) end
  /\ stored (rawOf a) ks' /\ elsewhere ks ks'.

(** What a body of [withRequest] leaves: the successor but for the request counter. *)
Definition bodyAnswers (a : ledger scope) (next : ledger scope + denial) ks (r : option (representation scope + denial)) ks' : Prop :=
  match r, next with
  | Some (inl rep), inl a' =>
      exists w, holds rep w ks' /\ elsewhere ks ks' /\ w_num w F_request_count = a_requests a /\ same (addNum F_request_count 1 w) (rawOf a')
  | Some (inr why), inr why' => why = why' /\ ks' = ks
  | _, _ => False
  end.

(** [same_num f]: the updates of a number, field by field. *)
Ltac same_num f :=
  unfold setOut, addNum, rawOf; cbn [w_num]; destruct f;
  repeat first [rewrite decide_True by done | rewrite decide_False by done];
  cbn [aNumber a_policy]; unfold a_requests, a_uploads; cbn [a_reads a_tools a_outputs a_bytes].

Section body.
Context (a : ledger scope) (Ha : sound a) (ks : keyspace) (Hst : stored (rawOf a) ks) (rep : representation scope)
  (Hh : holds rep (rawOf a) ks).

Lemma withRequest_rule body next :
  ((a_requests a < max_requests (a_policy a))%Z -> forall a', next = inl a' -> sound a') ->
  ((a_requests a < max_requests (a_policy a))%Z -> wp body now ks (bodyAnswers a next ks)) ->
  wp (withRequest key rep body) now ks (fun r ks' => answers (fst (spend a next)) (snd (spend a next)) ks r ks').
Proof.
  intros Hn Hb. unfold withRequest, spend. eapply number_rule; [exact Hh|]. eapply number_rule; [exact Hh|]. cbn [rawOf w_num aNumber].
  destruct (max_requests (a_policy a) <=? a_requests a)%Z eqn:E; [by apply wp_ret|]. apply wp_bind.
  eapply wp_mono; [apply Hb; lia|]. intros [[rep'|why]|] ks1 Hr; unfold bodyAnswers in Hr; destruct next as [a'|why']; try done.
  - destruct Hr as (w & Hw & He & Hc & Hsame). eapply add_rule; [exact Hw| |by unfold roomy|].
    { rewrite Hc. apply (sound_roomy a F_request_count Ha). }
    intros rep2 ks2 H2 _ He2. eapply save_rule; [exact H2| |].
    { rewrite (same_record _ _ Hsame). apply sound_exact, Hn; [lia|done]. }
    intros ks3 H3 He3. apply wp_ret. cbn [fst snd answers]. split; [done|].
    split; [by eapply stored_same|]. eapply elsewhere_trans; [|exact He3]. by eapply elsewhere_trans.
  - destruct Hr as [-> ->]. apply wp_ret. cbn [fst snd answers]. by split.
Qed.

Lemma counted_rule f (Hf : f = F_read_count \/ f = F_tool_call_count) a' :
  same (addNum F_request_count 1 (addNum f 1 (rawOf a))) (rawOf a') ->
  wp (counted key f rep) now ks (bodyAnswers a (inl a') ks).
Proof.
  intros Hs. unfold counted. eapply add_rule; [exact Hh|by apply sound_roomy|by unfold roomy|].
  intros rep' ks' H' _ He. apply wp_ret. cbn [bodyAnswers]. eexists. split; [exact H'|]. split; [done|]. split; [|done].
  by destruct Hf as [-> | ->].
Qed.

Lemma reserve_rule file bytes maxFileBytes found :
  (match held file (a_outputs a) with None => found = NoOutput | Some b => foundFor rep (rawOf a) file b found end) ->
  wp (reserveBody key file bytes maxFileBytes found rep) now ks (bodyAnswers a (reserved a file bytes maxFileBytes) ks).
Proof.
  intros Hfound. unfold reserveBody, reserved. eapply number_rule; [exact Hh|]. cbn [rawOf w_num aNumber]. cbv zeta.
  set (maxBytes := Z.min _ _). destruct (_ || _) eqn:E1; [by apply wp_ret|].
  assert (match found with NoOutput => false | _ => true end = bool_decide (is_Some (held file (a_outputs a)))) as ->.
  { destruct (held file (a_outputs a)) as [b|]; [|by subst]. unfold foundFor in Hfound. rewrite bool_decide_eq_true_2 by done.
    destruct rep; [by subst|]. by destruct Hfound as (i & -> & _). }
  destruct (bool_decide_reflect (is_Some (held file (a_outputs a)))) as [|Hnone]; [by apply wp_ret|].
  do 2 (eapply number_rule; [exact Hh|]; cbn [rawOf w_num aNumber]). destruct (_ <=? _)%Z eqn:E2; [by apply wp_ret|].
  do 2 (eapply number_rule; [exact Hh|]; cbn [rawOf w_num aNumber]). destruct (maxBytes * _ <? _)%Z eqn:E3; [by apply wp_ret|].
  apply orb_false_iff in E1 as [Eb Em]. pose proof (sound_numbers a F_max_upload_bytes Ha) as Hmax. cbn [aNumber] in Hmax.
  eapply add_rule; [exact Hh|by apply sound_roomy|unfold roomy; lia|]. intros r1 k1 H1 _ L1.
  eapply add_rule; [exact H1|apply (sound_roomy a F_upload_count Ha)|by unfold roomy|]. intros r2 k2 H2 _ L2.
  eapply insertOutput_rule; [exact H2| |].
  { cbn [addNum rawOf w_out]. destruct (held file (a_outputs a)); [|done]. exfalso. by apply Hnone. }
  intros r3 k3 H3 L3. apply wp_ret. cbn [bodyAnswers]. eexists. split; [exact H3|].
  split; [eapply elsewhere_trans; [|exact L3]; by eapply elsewhere_trans|]. split; [done|].
  split; try done. intros f. same_num f; rewrite ?length_app, ?sumBytes_app; cbn [length sumBytes]; lia.
Qed.

(** The updates of a release of [bytes], once it is not refused. *)
Lemma release_tail file b bytes found : held file (a_outputs a) = Some b -> foundFor rep (rawOf a) file b found -> (0 <= bytes)%Z ->
  a_compact a && negb (b =? bytes)%Z = false ->
  wp (uploaded ← number key F_uploaded_bytes rep;
      rep ← add key F_uploaded_bytes (- Z.min uploaded bytes) rep;
      rep ← add key F_upload_count (-1) rep;
      rep ← add key F_request_count (-1) rep;
      rep ← removeOutput key file found rep;
      save key rep;; Ret (Granted None)) now ks (fun r ks' => answers (fst (released a file bytes)) None ks r ks').
Proof.
  intros Eh Hfound Hbytes Hm. set (a' := fst (released a file bytes)). assert (sound a') as Ha'.
  { destruct Ha as [B S D]. pose proof (released_budgets a file bytes B Hbytes) as Hb. split; [done|unfold a', released|unfold dated, a', released];
      rewrite Eh, Hm; [apply S|apply D]. }
  pose proof (sound_numbers a F_uploaded_bytes Ha) as Hu. cbn [aNumber] in Hu.
  eapply number_rule; [exact Hh|]. cbn [rawOf w_num aNumber].
  eapply add_rule; [exact Hh|by apply sound_roomy|unfold roomy; lia|]. intros r1 k1 H1 C1 L1.
  eapply add_rule; [exact H1|apply (sound_roomy a F_upload_count Ha)|by unfold roomy|]. intros r2 k2 H2 C2 L2.
  eapply add_rule; [exact H2|apply (sound_roomy a F_request_count Ha)|by unfold roomy|]. intros r3 k3 H3 C3 L3.
  eapply removeOutput_rule; [exact H3|apply (b_files _ (s_budgets _ Ha))|exact Eh| |].
  { destruct r3; [done|]. destruct rep; [|exact Hfound]. assert (r2 = Compact) as -> by tauto. exfalso. naive_solver. }
  intros r4 k4 H4 L4.
  assert (same (setOut (unheld file (a_outputs a)) (addNum F_request_count (-1) (addNum F_upload_count (-1)
    (addNum F_uploaded_bytes (- Z.min (a_bytes a) bytes) (rawOf a))))) (rawOf a')) as Hsame.
  { unfold a', released. rewrite Eh, Hm. split; try done. intros f. pose proof (unheld_length _ _ _ Eh).
    cbn [fst]. same_num f; lia. }
  eapply save_rule; [exact H4| |].
  { change (w_out _) with (a_outputs a). rewrite (same_record _ _ Hsame). by apply sound_exact. }
  intros k5 S5 L5. apply wp_ret. split; [done|]. split; [by eapply stored_same|].
  repeat (eapply elsewhere_trans; [eassumption|]). apply elsewhere_refl.
Qed.

Lemma release_rule file bytes found : (0 <= bytes)%Z ->
  (match held file (a_outputs a) with None => found = NoOutput | Some b => foundFor rep (rawOf a) file b found end) ->
  wp (releaseBody key file bytes found rep) now ks
    (fun r ks' => answers (fst (released a file bytes)) (snd (released a file bytes)) ks r ks').
Proof.
  intros Hbytes Hfound. destruct (held file (a_outputs a)) as [b|] eqn:Eh.
  2: { subst found. unfold releaseBody, released. rewrite Eh. by apply wp_ret. }
  assert (match rep with Compact => negb (b =? bytes)%Z | Legacy _ => false end = a_compact a && negb (b =? bytes)%Z) as Hx.
  { clear Hfound. destruct rep; cbn [holds rawOf w_compact] in Hh; destruct Hh as [-> _]; done. }
  assert (snd (released a file bytes) = if a_compact a && negb (b =? bytes)%Z then Some ReleaseMismatch else None) as ->
    by (unfold released; rewrite Eh; by destruct (a_compact a && _)).
  pose proof (release_tail file b bytes found Eh Hfound Hbytes) as Ht. unfold releaseBody.
  destruct (a_compact a && negb (b =? bytes)%Z) eqn:Em.
  - assert (fst (released a file bytes) = a) as -> by (unfold released; by rewrite Eh, Em). apply andb_true_iff in Em as [Ec _].
    destruct rep; cbn [holds rawOf w_compact foundFor] in Hh, Hfound; [|destruct Hh; congruence]. subst found. rewrite tonumber_dec.
    apply wp_bind, wp_ret. rewrite Hx. by apply wp_ret.
  - destruct rep; cbn [foundFor] in Hfound; [subst found|destruct Hfound as (i & -> & _)]; apply wp_bind;
      [rewrite tonumber_dec|]; apply wp_ret; [rewrite Hx|]; [|by apply Ht]. apply negb_false_iff, Z.eqb_eq in Hx. subst b. by apply Ht.
Qed.

Lemma revoke_rule clock reason : exact clock ->
  let a' := Ledger scope (a_policy a) (Some (clock, reason)) (a_reads a) (a_tools a) (a_outputs a) (a_bytes a) (a_compact a) in
  wp (revokeBody key clock reason rep) now ks (fun r ks' => answers a' None ks r ks').
Proof.
  intros Hc a'. unfold revokeBody. destruct rep as [|r]; cbn [holds] in Hh.
  - destruct Hh as (Hcomp & h & x & Hf & [(text & P1 & P2) E S N O] & Hx).
    eapply hset_in; [exact Hf|]. intros k1 F1 L1. eapply hset_in; [exact F1|]. intros k2 F2 L2.
    eapply hset_in; [exact F2|]. intros k3 F3 L3. apply wp_ret. split; [done|].
    split; [|eapply elsewhere_trans; [|exact L3]; by eapply elsewhere_trans].
    eexists. split; [exact F3|]. cbn [repr e_val e_exp]. split; [|done]. split; [done|]. split; cbn [rawOf a' w_policy w_revoked w_num w_out a_policy a_revoked a_outputs].
    + exists text. split; [by rewrite !lookup_insert_ne by done|done].
    + by rewrite !lookup_insert_ne by done.
    + by rewrite !lookup_insert_ne, lookup_insert_eq by done.
    + intros f. rewrite !lookup_insert_ne by (by destruct f). apply N.
    + intros file. rewrite !lookup_insert_ne by (by apply named_output). apply O.
  - destruct Hh as (Hcomp & -> & Hs). assert (sound a') as Ha'.
    { destruct Ha as [[B1 B2 B3 B4 B5 B6 B7] Sn D]. split; [by split|done|]. by intros t rs [= <- _]. }
    eapply (save_rule (Legacy (asRevoked clock reason (rawRecord (rawOf a)))) (rawOf a')); [by split|by apply sound_exact|].
    intros k' S' L'. apply wp_ret. by split.
Qed.

(** The outputs of a hash, read off its fields. *)
Lemma outputIds_held h w : compactRep w h -> NoDup (map fst (w_out w)) ->
  Permutation (outputIds (fst <$> map_to_list h)) (map fst (w_out w)).
Proof.
  intros C Hn. assert (forall f, take 7 f = js "output:" -> f = outputField (drop 7 f)) as Hp.
  { intros f Hf. rewrite <- (take_drop 7 f) at 1. by rewrite Hf. }
  apply NoDup_Permutation; [|done|].
  - unfold outputIds. assert (NoDup (filter (fun f => bool_decide (take 7 f = js "output:") = true) (fst <$> map_to_list h))) as Hk
      by (apply NoDup_filter, NoDup_fst_map_to_list).
    revert Hk. generalize (filter (fun f => bool_decide (take 7 f = js "output:") = true) (fst <$> map_to_list h))
      (fun f Hf => proj1 (list_elem_of_filter (fun f => bool_decide (take 7 f = js "output:") = true) (fst <$> map_to_list h) f) Hf).
    intros l Hl Hd. induction Hd as [|f l Hf Hd IH]; [constructor|]. cbn [map]. constructor; [|apply IH; intros; apply Hl; by right].
    intros (g & E & Hg)%list_elem_of_fmap. apply Hf.
    destruct (Hl f) as [H1 _]; [left|]. destruct (Hl g) as [H2 _]; [by right|]. apply bool_decide_eq_true in H1, H2.
    by rewrite (Hp f H1), E, <- (Hp g H2).
  - intros file. transitivity (is_Some (h !! outputField file)).
    + unfold outputIds. rewrite list_elem_of_fmap. setoid_rewrite list_elem_of_filter. setoid_rewrite bool_decide_eq_true.
      setoid_rewrite list_elem_of_fmap. split.
      * intros (f & -> & Hf & [k v] & -> & Hkv). cbn [fst] in *. rewrite <- Hp by done. apply elem_of_map_to_list in Hkv. eauto.
      * intros [v Hv]. exists (outputField file). split; [done|]. split; [done|]. exists (outputField file, v).
        split; [done|]. by apply elem_of_map_to_list.
    + rewrite (cr_output _ _ C), fmap_is_Some. destruct (held file (w_out w)) as [b|] eqn:E.
      * split; [|by eauto]. intros _. apply list_elem_of_fmap. exists (file, b). split; [done|by apply held_In].
      * apply held_None in E. split; [by intros [? ?]|done].
Qed.

(** A snapshot tells the state of the ledger. *)
Definition snapshotOf (reply : option ledgerReply) : Prop :=
  exists text r, reply = Some (Granted (Some text)) /\ json_parse text = Some r /\ exec_id r = exec_id (a_policy a)
    /\ (forall f, getField f r = aNumber a f) /\ Permutation (output_file_ids r) (map fst (a_outputs a)).

Lemma snapshot_rule : wp (snapshotBody key rep) now ks (fun r ks' => snapshotOf r /\ ks' = ks).
Proof.
  unfold snapshotBody. apply wp_bind. apply (wp_mono _ _ _ (fun r ks' => ks' = ks /\ exists x, r = Some x /\ exactRecord x
    /\ exec_id x = exec_id (a_policy a) /\ (forall f, getField f x = aNumber a f) /\ Permutation (output_file_ids x) (map fst (a_outputs a)))).
  - destruct rep as [|r]; cbn [holds] in Hh.
    + pose proof Hh as Hc. destruct Hh as (_ & h & x & Hf & C & _). destruct (cr_policy _ _ C) as (text & P1 & P2).
      eapply wp_hget_in; [exact Hf|]. rewrite P1. cbn [mbind option_bind]. rewrite P2. cbn [need].
      apply wp_bind, wp_ret. do 5 (eapply (number_rule _ Compact); [exact Hc|]).
      apply wp_bind. eapply wp_known; [cbn [exec]; rewrite Hf; reflexivity|]. apply wp_ret. split; [done|]. eexists. split; [done|].
      assert (forall f, getField f (withCounts (w_num (rawOf a) F_request_count) (w_num (rawOf a) F_read_count) (w_num (rawOf a) F_upload_count)
        (w_num (rawOf a) F_tool_call_count) (w_num (rawOf a) F_uploaded_bytes) (outputIds (fst <$> map_to_list h)) (w_policy (rawOf a))) = aNumber a f) as Hg
        by (by intros []).
      split; [|split; [done|split; [exact Hg|]]].
      * split; [intros f; rewrite Hg; pose proof (sound_numbers a f Ha); unfold exact; lia|]. cbn [withCounts revoked_at rawOf w_policy].
        by rewrite (proj2 (s_sane _ Ha)).
      * apply (outputIds_held h (rawOf a)); [done|]. apply (b_files _ (s_budgets _ Ha)).
    + destruct Hh as (_ & -> & _). apply wp_ret. split; [done|]. eexists. split; [done|]. split; [by apply sound_exact|].
      split; [done|]. split; [by intros []|done].
  - intros r ks' (-> & x & -> & He & Hx & Hf & Hp). apply wp_ret. split; [|done]. exists (encodeRecord x), x.
    split; [done|]. split; [by apply parse_encode|]. done.
Qed.
End body.

(** ** The script *)

Section whole.
Context (a : ledger scope) (Ha : sound a) (ks : keyspace) (Hst : stored (rawOf a) ks) (execId : jstr) (clock : Z)
  (Hc : exact clock).

(** The reply to an operation, given the step of the abstract ledger, and what it
    leaves. *)
Definition refined (op : ledgerOp) (next : ledger scope * option denial) (r : option ledgerReply) (ks' : keyspace) : Prop :=
  match snd next with
  | Some why => r = Some (Denied why)
  | None => match op with OpSnapshot => snapshotOf a r | _ => r = Some (Granted None) end
  end /\ stored (rawOf (fst next)) ks' /\ elsewhere ks ks'.

Lemma checked_rule op rep body next : holds rep (rawOf a) ks -> (a_revoked a = None -> wp body now ks (refined op next)) ->
  wp (checked key execId clock rep body) now ks
    (refined op (if negb (bool_decide (exec_id (a_policy a) = execId)) then (a, Some Mismatch)
      else if bool_decide (is_Some (a_revoked a)) then (a, Some Revoked)
      else if (exp (a_policy a) <=? clock)%Z then (a, Some Expired) else next)).
Proof.
  intros Hh Hb. unfold checked. eapply exec_rule; [exact Hh|]. cbn [rawOf w_policy]. unfold neqStr at 1.
  rewrite (bool_decide_ext (Some (exec_id (a_policy a)) = Some execId) (exec_id (a_policy a) = execId)) by (split; congruence).
  destruct (negb _); [by apply wp_ret|]. eapply status_rule; [exact Hh|]. cbn [rawOf w_revoked].
  assert (neqStr (Some (statusText (a_revoked a))) ACTIVE = bool_decide (is_Some (a_revoked a))) as ->
    by (by destruct (a_revoked a) as [[]|]).
  case_bool_decide as Hrev; [by apply wp_ret|]. apply eq_None_not_Some in Hrev. specialize (Hb Hrev). eapply number_rule; [exact Hh|]. cbn [rawOf w_num aNumber].
  by destruct (_ <=? clock)%Z; [apply wp_ret|].
Qed.

Lemma answers_refined op next r ks' : op <> OpSnapshot -> answers (fst next) (snd next) ks r ks' -> refined op next r ks'.
Proof. intros Hop [Hr Hrest]. split; [|done]. destruct (snd next); [done|]. by destruct op. Qed.

(** An operation that only spends a request. *)
Lemma spend_rule op rep f a' : op = OpRead /\ f = F_read_count \/ op = OpTool /\ f = F_tool_call_count -> holds rep (rawOf a) ks ->
  a' = Ledger scope (a_policy a) (a_revoked a) (if decide (f = F_read_count) then a_reads a + 1 else a_reads a)%Z
         (if decide (f = F_read_count) then a_tools a else a_tools a + 1)%Z (a_outputs a) (a_bytes a) (a_compact a) ->
  wp (withRequest key rep (counted key f rep)) now ks (refined op (spend a (inl a'))).
Proof.
  intros Hop Hh Ea. eapply wp_mono; [apply (withRequest_rule a Ha ks Hst rep Hh _ (inl a'))|].
  - intros Hm ? [= <-]. subst a'. destruct Ha as [[B1 B2 B3 B4 B5 B6 B7] S D]. split; [|done|done]. unfold a_requests in Hm.
    split; try done; unfold a_requests; cbn [a_reads a_tools a_outputs a_policy]; unfold a_uploads in *; cbn [a_outputs]; case_decide; lia.
  - intros _. apply (counted_rule a Ha); [done|naive_solver|]. subst a'. split; try done. intros g.
    destruct Hop as [[_ ->]|[_ ->]]; [rewrite !decide_True by done|rewrite !decide_False by done]; same_num g; lia.
  - intros r ks'. apply answers_refined. by destruct Hop as [[-> _]|[-> _]].
Qed.

Lemma used_rule op rep : holds rep (rawOf a) ks -> (forall p c t, op <> OpCreate p c t) -> admissible op ->
  wp (usedBody key op execId clock rep) now ks (refined op (aStep a op execId clock)).
Proof.
  intros Hh Hcr Hd. pose proof (b_files _ (s_budgets _ Ha)) as Hn.
  assert (forall file (k : existing -> prog ledgerReply) Q,
    (forall found, (match held file (a_outputs a) with None => found = NoOutput | Some b => foundFor rep (rawOf a) file b found end) ->
       wp (k found) now ks Q) -> wp (findOutput key rep file ≫= k) now ks Q) as Hfind.
  { intros file k Q Hk. eapply findOutput_rule; [exact Hh|exact Hn|intros E|intros b found E Hb]; apply Hk;
      cbn [rawOf w_out] in E; by rewrite E. }
  unfold usedBody, aStep. destruct op as [p c t|reason| | |file bytes m|file bytes| | |]; [by destruct (Hcr p c t)| |..];
    try (apply checked_rule; [exact Hh|]; intros Hna); cbn [fileOf].
  - eapply wp_mono; [by apply revoke_rule|]. intros r ks'. by apply (answers_refined (OpRevoke reason) (_, None)).
  - by apply wp_ret.
  - eapply wp_mono; [by apply snapshot_rule|]. intros r ks' [Hs ->]. by split.
  - apply Hfind. intros found Hf. eapply wp_mono; [apply (withRequest_rule a Ha ks Hst rep Hh); [|intros _; by apply reserve_rule]|].
    + intros Hm a' E. pose proof Ha as [B S D]. pose proof (reserved_budgets a file bytes m a' B S Hm E) as B'.
      apply reserved_rest in E as (E1 & E2 & _). split; [done|by rewrite E1|unfold dated; by rewrite E2].
    + intros r ks'. by apply answers_refined.
  - apply Hfind. intros found Hf. eapply wp_mono; [apply release_rule; [done..]|].
    + intros r ks'. by apply answers_refined.
  - apply Hfind. intros found _. apply (spend_rule OpRead rep F_read_count); [by left|done|by rewrite !decide_True].
  - apply Hfind. intros found _. apply (spend_rule OpTool rep F_tool_call_count); [by right|done|by rewrite !decide_False].
  - apply Hfind. intros found _. by apply wp_ret.
Qed.

(** A stored ledger is read in its representation. *)
Lemma script_rule op : admissible op ->
  wp (ledgerScript key op execId clock) now ks (refined op (aStep a op execId clock)).
Proof.
  intros Hd. unfold ledgerScript. destruct Hst as ([v x] & Hf & Hr & Hx). cbn [e_val e_exp] in Hr, Hx.
  apply wp_bind. eapply wp_known; [reflexivity|]. rewrite Hf.
  assert ((exists p c t, op = OpCreate p c t) \/ forall p c t, op <> OpCreate p c t) as [(p & c & t & ->)|Hcr].
  { destruct op; try (right; congruence). left. eauto. }
  { rewrite bool_decide_eq_false_2 by (by destruct v). by apply wp_ret. }
  assert (wp (rep ← (if bool_decide (typeName (Some (Entry v x)) = js "hash") then Ret Compact
               else text ← rd (GET key); r ← need (text ≫= cjson_decode); Ret (Legacy r));
        usedBody key op execId clock rep) now ks (refined op (aStep a op execId clock))) as Hw.
  { destruct v as [text|h| | |]; cbn [repr] in Hr; try done.
    - rewrite bool_decide_eq_false_2 by done. apply wp_bind, wp_bind. eapply wp_known; [cbn [exec]; rewrite Hf; reflexivity|].
      destruct Hr as [Hcomp Hr]. cbn [mbind option_bind]. rewrite Hr. cbn [need]. apply wp_bind, wp_ret, wp_ret.
      apply used_rule; [|done|done]. split; [done|]. split; [done|]. by exists (Entry (VStr text) x).
    - rewrite bool_decide_eq_true_2 by done. destruct Hr as [Hcomp Hr]. apply wp_bind, wp_ret. apply used_rule; [|done|done]. split; [done|]. by exists h, x. }
  destruct op; try (by edestruct Hcr); rewrite (bool_decide_eq_false_2 (_ = js "none")) by (by destruct v);
    (replace (negb _ && negb _) with false by (by destruct v)); exact Hw.
Qed.
End whole.
End rules.
