(* ===== verification/EgressLedgerHistory.v ===== *)
(** * Histories of an egress ledger

    [ledger_refines] states the refinement of EgressLedgerProofs for every server.
    [ledger_budgets] follows a grant from its creation through any sequence of
    operations of any gateways, creations of the same grant included, and concludes
    that they are answered as the abstract ledger answers them and that no limit of the
    grant is exceeded; [revocation_final], that a revoked grant is never usable again.
    The record of a grant expires, and a creation then begins a new one: that is
    harmless because every clock has by then reached the grant's own expiry. So the
    gateways' clocks are assumed within [lag] of the server's, and twice [lag] within
    the grace period that the record outlives the grant by. *)

From stdpp Require Import base list numbers option strings gmap relations.
From Stdlib Require Import ZArith Lia.
From S2P Require Import Prelude JsString Json Redis EgressLedger EgressLedgerProofs.

(** A wp of a script, read off a run on any server. *)
Lemma run_wp_pair {db} `{RedisServer db} {A} (p : prog A) now s (Q : option A -> keyspace -> Prop) :
  wp p now (content s) Q -> Q (snd (run p now s)) (content (fst (run p now s))).
Proof. intros Hw. destruct (run p now s) as [s' r] eqn:E. by eapply run_wp. Qed.

(** ** Creation *)

Section created.
Context {scope : Type} `{LedgerCodec scope} {db : Type} `{RedisServer db}.
Implicit Types (s : db) (grant : EgressGrantClaims scope).

(** The ledger of a new grant. *)
Definition fresh grant (compact : bool) : ledger scope := Ledger scope (recordFromGrant grant) None 0 0 [] 0 compact.

Lemma fresh_sound grant compact : sane (recordFromGrant grant) -> sound (fresh grant compact).
Proof.
  intros Hs. pose proof Hs as [(S1 & S2 & S3 & S4 & S5) _]. split; [|done|done].
  split; unfold a_requests, a_uploads; cbn [fresh a_policy a_reads a_tools a_outputs a_bytes a_compact length sumBytes map recordFromGrant
    max_upload_bytes max_output_files max_requests] in *; try lia; try constructor; done || lia.
Qed.

Lemma fresh_exact grant : sane (recordFromGrant grant) -> exactRecord (recordFromGrant grant).
Proof. intros Hs. exact (sound_exact _ (fresh_sound _ true Hs)). Qed.

(** The expiry a creation sets. *)
Lemma created_until key ttl now ks v x w : find now ks key = Some (Entry v x) -> repr w v -> (1 <= ttl)%Z ->
  wp (rd (PEXPIREAT key (EX ttl));; Ret (Granted None)) now ks (fun r ks' => r = Some (Granted None) /\ stored key now (now + ttl * 1000) w ks').
Proof.
  intros Hf Hv Ht. apply wp_bind. eapply wp_known; [cbn [exec]; rewrite Hf; cbn [expiry]; reflexivity|]. apply wp_ret.
  rewrite (proj2 (Z.leb_gt _ _)) by lia. split; [done|]. eexists. rewrite find_insert_eq. unfold alive. cbn [e_exp].
  rewrite (proj2 (Z.leb_le _ _)) by lia. split; [done|]. split; [done|]. cbn [e_exp lasts]. lia.
Qed.

Lemma createBody_rule key grant compact ttl now ks : sane (recordFromGrant grant) -> find now ks key = None -> (1 <= ttl)%Z ->
  wp (createBody key (json_stringify (recordFromGrant grant)) compact ttl) now ks
    (fun r ks' => r = Some (Granted None) /\ stored key now (now + ttl * 1000) (rawOf (fresh grant compact)) ks').
Proof.
  intros Hs Hf Ht. pose proof (decode_stringify _ (fresh_exact _ Hs)) as Hd. unfold createBody. rewrite Hd. cbn [need].
  apply wp_bind, wp_ret. apply wp_bind. destruct compact.
  - eapply wp_known; [cbn [exec]; rewrite Hf; reflexivity|]. cbn [foldl fst snd].
    match goal with |- context [put_hash now ks key ?x] => set (h := x) end.
    assert (h <> ∅) as Hh by apply insert_non_empty. unfold put_hash. rewrite decide_False by done.
    eapply created_until; [by rewrite find_keep_eq, Hf| |done]. cbn [repr]. split; [done|].
    split; [eexists; split; [|exact Hd]; by vm_compute|by vm_compute|by vm_compute|by intros []; vm_compute|].
    intros file. unfold h. rewrite !lookup_insert_ne by (by apply named_output). by rewrite lookup_empty.
  - apply wp_bind. eapply wp_known; [cbn [exec andb]; reflexivity|]. apply wp_ret.
    eapply created_until; [by rewrite find_insert_eq| |done]. by split.
Qed.

(** A call of the script, as the functions see it. *)
Lemma settled_rule op grantId execId clock now ks (Q : option (res EgressGrantErrorReason unit) -> keyspace -> Prop) :
  wp (ledgerScript (ledgerKey grantId) op execId (clock / 1000)) now ks (fun r ks' =>
    Q (match r with Some (Granted _) => Some (Ok tt) | Some (Denied why) => Some (Err (errorReason why)) | None => None end) ks') ->
  wp (settled (executeLedger op grantId execId clock)) now ks Q.
Proof.
  intros Hw. unfold settled, executeLedger. do 2 apply wp_bind. eapply wp_mono; [exact Hw|].
  intros [[]|] ks' HQ; [by apply wp_ret, wp_ret..|done].
Qed.

Lemma create_rule env grant clock now ks : sane (recordFromGrant grant) -> find now ks (ledgerKey (c_grant_id grant)) = None ->
  EGRESS_LEDGER_REQUIRED env = true -> c_grant_id grant <> [] ->
  wp (createEgressLedger env grant clock) now ks
    (fun r ks' => r = Some (Ok tt) /\ stored (ledgerKey (c_grant_id grant)) now (now + ttlSeconds env (c_exp grant) clock * 1000)
                                        (rawOf (fresh grant (EGRESS_LEDGER_COMPACT env))) ks').
Proof.
  intros Hs Hf Hr Hid. unfold createEgressLedger, whenRequired. rewrite Hr.
  destruct (length (c_grant_id grant) =? 0) eqn:El; [by apply Nat.eqb_eq, length_zero_iff_nil in El|].
  apply settled_rule. unfold ledgerScript. apply wp_bind. eapply wp_known; [reflexivity|]. rewrite Hf. cbn [typeName].
  rewrite bool_decide_eq_true_2 by done. cbn [negb]. eapply wp_mono; [apply createBody_rule; [done..|unfold ttlSeconds; lia]|].
  by intros r ks' [-> Hst].
Qed.
End created.

(** ** Histories *)

Section history.
Context {scope : Type} `{LedgerCodec scope} {db : Type} `{RedisServer db} (env : ledgerEnv) (grant : EgressGrantClaims scope) (lag : Z).
Implicit Types (s : db) (a : ledger scope).

Abbreviation key := (ledgerKey (c_grant_id grant)).

(** The Redis time of the last operation, the server, and the abstract ledger. *)
Record moment := Moment { m_time : Z; m_db : db; m_ledger : ledger scope }.

(** A gateway's clock, beside the server's. *)
Definition inTime (now clock : Z) : Prop := (now - lag <= clock <= now + lag)%Z /\ exact (clock / 1000).

(** What gateways send: creations are of this grant. *)
Definition permitted (op : ledgerOp) (clock : Z) : Prop :=
  match op with
  | OpCreate policy _ ttl => policy = json_stringify (recordFromGrant grant) /\ ttl = ttlSeconds env (c_exp grant) clock
  | _ => admissible op
  end.

(** One operation, on the server and on the abstract ledger, whatever the server holds;
    scripts that leave the key alone may run in between. *)
Inductive ledgerStep : moment -> moment -> Prop :=
| step_used op execId clock t now s a : (t <= now)%Z -> inTime now clock -> permitted op clock ->
    ledgerStep (Moment t s a)
      (Moment now (fst (run (ledgerScript key op execId (clock / 1000)) now s)) (fst (aStep a op execId (clock / 1000))))
| step_elsewhere t s s' a : content s' !! key = content s !! key -> ledgerStep (Moment t s a) (Moment t s' a).

Definition creates (op : ledgerOp) : Prop := match op with OpCreate _ _ _ => True | _ => False end.
Definition revokes (op : ledgerOp) : Prop := match op with OpRevoke _ => True | _ => False end.

#[local] Instance creates_dec op : Decision (creates op).
Proof. destruct op; first [left; exact I | right; by intros []]. Defined.
#[local] Instance revokes_dec op : Decision (revokes op).
Proof. destruct op; first [left; exact I | right; by intros []]. Defined.

(** From here on every clock has reached the expiry of the grant. *)
Definition deadline : Z := (c_exp grant * 1000 + lag)%Z.

(** The record of the grant is there, live or not; or it is past its time, and any
    record of the grant may be there. *)
Definition recorded s a : Prop := exists e, content s !! key = Some e /\ repr (rawOf a) (e_val e) /\ lasts deadline (e_exp e).
Definition over (t : Z) s : Prop := (deadline <= t)%Z /\
  forall e, content s !! key = Some e -> exists a, sound a /\ a_policy a = recordFromGrant grant /\ repr (rawOf a) (e_val e).

Definition tracks (m : moment) : Prop :=
  sound (m_ledger m) /\ a_policy (m_ledger m) = recordFromGrant grant /\ (recorded (m_db m) (m_ledger m) \/ over (m_time m) (m_db m)).

(** The reply that the abstract ledger [a] calls for. *)
Definition answered a op execId clock (r : option ledgerReply) : Prop :=
  match snd (aStep a op execId (clock / 1000)) with
  | Some _ => exists why, r = Some (Denied why)
  | None => match op with OpSnapshot => snapshotOf a r | _ => r = Some (Granted None) end
  end.

Lemma find_content now (ks : keyspace) e : find now ks key = Some e -> ks !! key = Some e.
Proof. unfold find. destruct (ks !! key) as [e'|]; [|done]. destruct (alive now e'); [|done]. by intros [= ->]. Qed.

Lemma record_found s a now : recorded s a ->
  stored key now deadline (rawOf a) (content s) \/ find now (content s) key = None /\ (deadline <= now)%Z.
Proof.
  intros (e & He & Hr & Hx). unfold stored, find. rewrite He. destruct (alive now e) eqn:Ea; [left; by exists e|right].
  split; [done|]. unfold alive, lasts in *. destruct (e_exp e); [|done]. apply Z.leb_gt in Ea. lia.
Qed.

(** An expired grant is not used, whatever the ledger. *)
Lemma expired_denied a op execId now clock : a_policy a = recordFromGrant grant -> inTime now clock -> (deadline <= now)%Z ->
  ~ creates op -> ~ revokes op -> exists why, aStep a op execId (clock / 1000) = (a, Some why).
Proof.
  intros Hp [[Hl _] _] Hd Hc Hv. unfold aStep, deadline in *. assert (exp (a_policy a) <= clock / 1000)%Z as He.
  { rewrite Hp. cbn [recordFromGrant exp]. apply Z.div_le_lower_bound; lia. }
  rewrite (proj2 (Z.leb_le _ _) He). destruct op; try (by destruct Hc); try (by destruct Hv); by repeat case_match; eexists.
Qed.

(** A key that is gone is not used. *)
Lemma script_gone op execId clock now ks : find now ks key = None -> ~ creates op ->
  wp (ledgerScript key op execId clock) now ks (fun r ks' => ks' = ks /\
    r = Some match op with OpRevoke _ => Granted None | _ => Denied Missing end).
Proof.
  intros Hf Hc. unfold ledgerScript. apply wp_bind. eapply wp_known; [reflexivity|]. rewrite Hf.
  destruct op; try (by apply wp_ret). by destruct Hc.
Qed.

(** An operation past the deadline. *)
Lemma over_step op execId clock now s a : sane (recordFromGrant grant) -> over now s -> sound a -> a_policy a = recordFromGrant grant ->
  inTime now clock -> permitted op clock ->
  wp (ledgerScript key op execId (clock / 1000)) now (content s) (fun r ks' =>
    answered a op execId clock r /\ forall e, ks' !! key = Some e -> exists a', sound a' /\ a_policy a' = recordFromGrant grant /\ repr (rawOf a') (e_val e)).
Proof.
  intros Hsane [Hd Ho] Ha Hp Hin Hop.
  assert (forall r, (creates op \/ revokes op -> r = Some (Granted None)) -> (~ creates op -> ~ revokes op -> exists why, r = Some (Denied why)) ->
    answered a op execId clock r) as Hans.
  { intros r H1 H2. unfold answered. destruct (decide (creates op \/ revokes op)) as [Hcr|Hcr].
    - destruct op; try (by destruct Hcr as [[]|[]]); by apply H1.
    - destruct (expired_denied a op execId now clock Hp Hin Hd) as [why ->]; [tauto..|]. apply H2; tauto. }
  destruct (find now (content s) key) as [e|] eqn:Hf.
  - destruct (Ho e (find_content _ _ _ Hf)) as (a' & Ha' & Hp' & Hr').
    assert (stored key now (default 0%Z (e_exp e)) (rawOf a') (content s)) as Hst by (exists e; split; [done|]; split; [done|]; destruct (e_exp e); [apply Z.le_refl|done]).
    assert (admissible op) as Hadm by (by destruct op).
    eapply wp_mono; [exact (script_rule key now _ a' Ha' (content s) Hst execId _ (proj2 Hin) op Hadm)|].
    intros r ks' (Hr & (e' & He' & Hr2 & _) & _). split.
    + apply Hans; [|intros Hc Hv; destruct (expired_denied a' op execId now clock Hp' Hin Hd Hc Hv) as [why E]; rewrite E in Hr; by exists why].
      intros Hcr. destruct op; try (by destruct Hcr as [[]|[]]); exact Hr.
    + intros e0 He0. rewrite (find_content _ _ _ He') in He0. injection He0 as <-. eexists. split; [by apply sound_step; [|apply Hin|]|].
      by rewrite aStep_policy.
  - destruct (decide (creates op)) as [Hc|Hc].
    + destruct op as [policy compact ttl| | | | | | | |]; try done. destruct Hop as [-> ->]. unfold ledgerScript.
      apply wp_bind. eapply wp_known; [reflexivity|]. rewrite Hf. cbn [typeName]. rewrite bool_decide_eq_true_2 by done. cbn [negb].
      eapply wp_mono; [apply createBody_rule; [done..|unfold ttlSeconds; lia]|]. intros r ks' (-> & e' & He' & Hr' & _). split.
      * by apply Hans.
      * intros e0 He0. rewrite (find_content _ _ _ He') in He0. injection He0 as <-. exists (fresh grant compact). split; [by apply fresh_sound|done].
    + eapply wp_mono; [by apply script_gone|]. intros r ks' [-> ->]. split; [|exact Ho]. apply Hans; [by intros []; [|destruct op]|].
      intros _ Hv. destruct op; try (by destruct Hv); by eexists.
Qed.

(** Every operation is answered as the abstract ledger says, and leaves its successor. *)
Lemma operation op execId clock now m : sane (recordFromGrant grant) -> tracks m -> (m_time m <= now)%Z -> inTime now clock -> permitted op clock ->
  let out := run (ledgerScript key op execId (clock / 1000)) now (m_db m) in
  answered (m_ledger m) op execId clock (snd out) /\ tracks (Moment now (fst out) (fst (aStep (m_ledger m) op execId (clock / 1000)))).
Proof.
  intros Hsane (Ha & Hp & Hm) Ht Hin Hop. destruct m as [t s a]. cbn [m_time m_db m_ledger] in *. assert (admissible op) as Hadm by (by destruct op).
  assert (sound (fst (aStep a op execId (clock / 1000)))) as Ha' by (apply sound_step; [done|apply Hin|done]).
  assert (over now s -> let out := run (ledgerScript key op execId (clock / 1000)) now s in answered a op execId clock (snd out) /\
    tracks (Moment now (fst out) (fst (aStep a op execId (clock / 1000))))) as Hover.
  { intros Ho. destruct (run_wp_pair _ _ s _ (over_step op execId clock now s a Hsane Ho Ha Hp Hin Hop)) as [Hr Hk]. split; [done|].
    split; [done|]. cbn [m_ledger m_db m_time]. split; [by rewrite aStep_policy|]. right. split; [apply Ho|done]. }
  destruct Hm as [Hm|[Hd Ho]]; [|apply Hover; split; [lia|done]].
  destruct (record_found s a now Hm) as [Hst|[Hf Hd]].
  - pose proof (run_wp_pair _ _ s _ (script_rule key now deadline a Ha (content s) Hst execId _ (proj2 Hin) op Hadm)) as (Hr & (e & He & Hre) & _).
    split; [unfold answered; destruct (snd (aStep _ _ _ _)); [eauto|done]|]. split; [done|]. cbn [m_ledger m_db m_time]. split; [by rewrite aStep_policy|]. left.
    exists e. split; [by eapply find_content|done].
  - apply Hover. split; [done|]. intros e He. exists a. destruct Hm as (e' & He' & Hr & _). split; [done|]. split; [done|].
    rewrite He in He'. by injection He' as <-.
Qed.

Lemma history_tracks m m' : sane (recordFromGrant grant) -> rtc ledgerStep m m' -> tracks m -> tracks m' /\ (m_time m <= m_time m')%Z
  /\ (is_Some (a_revoked (m_ledger m)) -> is_Some (a_revoked (m_ledger m'))).
Proof.
  intros Hsane. induction 1 as [m|m m1 m2 H1 _ IH]; [intros; split_and!; [done|lia|done]|]. intros Hm.
  assert (tracks m1 /\ (m_time m <= m_time m1)%Z /\ (is_Some (a_revoked (m_ledger m)) -> is_Some (a_revoked (m_ledger m1)))) as (T & L & Hv).
  { destruct H1 as [op execId clock t now s a Ht Hin Hop|t s s' a Es].
    - split_and!; [by eapply (operation _ _ _ _ (Moment t s a))|done|apply aStep_revoked].
    - split_and!; [|done|done]. unfold tracks, recorded, over in *. cbn [m_time m_db m_ledger] in *. by rewrite Es. }
  destruct (IH T) as (T2 & L2 & Hv2). split_and!; [done|lia|auto].
Qed.

(** ** A grant from its creation on *)

Record begun s (now clock : Z) : Prop := {
  bg_sane : sane (recordFromGrant grant);
  bg_unused : find now (content s) key = None;
  bg_required : EGRESS_LEDGER_REQUIRED env = true;
  bg_named : c_grant_id grant <> [];
  bg_clock : inTime now clock;
  bg_grace : (2 * lag <= EGRESS_LEDGER_TTL_GRACE_SECONDS env * 1000)%Z;
}.

Definition lived s now clock (m : moment) : Prop :=
  rtc ledgerStep (Moment now (fst (run (createEgressLedger env grant clock) now s)) (fresh grant (EGRESS_LEDGER_COMPACT env))) m.

Lemma begun_tracks s now clock : begun s now clock -> snd (run (createEgressLedger env grant clock) now s) = Some (Ok tt)
  /\ tracks (Moment now (fst (run (createEgressLedger env grant clock) now s)) (fresh grant (EGRESS_LEDGER_COMPACT env))).
Proof.
  intros [Hs Hf Hr Hid [[_ Hc] _] Hg]. destruct (run_wp_pair _ _ s _ (create_rule env grant clock now (content s) Hs Hf Hr Hid)) as (Hrep & e & He & Hre & Hx).
  split; [done|]. split; [by apply fresh_sound|]. split; [done|]. left. exists e. split; [by eapply find_content|]. split; [done|].
  unfold lasts in *. destruct (e_exp e) as [x|]; [|done]. unfold deadline, ttlSeconds in *. pose proof (Z.mul_div_le clock 1000 ltac:(lia)). lia.
Qed.

Lemma lived_tracks s now clock m : begun s now clock -> lived s now clock m -> tracks m.
Proof.
  intros Hb Hl. destruct (begun_tracks s now clock Hb) as [_ T]. by destruct (history_tracks _ _ (bg_sane _ _ _ Hb) Hl T) as (T' & _).
Qed.

(** What a client reads. *)
Lemma snapshot_read m now clock x : sane (recordFromGrant grant) -> EGRESS_LEDGER_REQUIRED env = true -> tracks m -> (m_time m <= now)%Z -> inTime now clock ->
  snd (run (assertEgressGrantActive env grant clock) now (m_db m)) = Some (Ok x) ->
  (forall f, getField f x = aNumber (m_ledger m) f) /\ Permutation (output_file_ids x) (map fst (a_outputs (m_ledger m))).
Proof.
  intros Hsane Hr Hm Ht Hin. pose proof (proj1 (operation OpSnapshot (c_exec_id grant) clock now m Hsane Hm Ht Hin I)) as Hans.
  pattern (snd (run (assertEgressGrantActive env grant clock) now (m_db m))),
    (content (fst (run (assertEgressGrantActive env grant clock) now (m_db m)))). apply run_wp_pair.
  unfold assertEgressGrantActive, executeLedger. rewrite Hr. cbn [negb]. do 2 apply wp_bind.
  rewrite (proj2 (run_eval _ _ _)) in Hans. unfold wp at 1. destruct (eval _ now (content (m_db m))) as [ks' r]. cbn [snd] in Hans. unfold answered in Hans.
  destruct (snd (aStep _ _ _ _)); [destruct Hans as [why ->]; by apply wp_ret, wp_ret|].
  destruct Hans as (text & y & -> & Hp & _ & Hy). apply wp_ret. cbn [mbind option_bind]. rewrite Hp. cbn [need].
  apply wp_bind, wp_ret, wp_ret. by intros [= <-].
Qed.
End history.
Arguments moment scope db : clear implicits.

(** ** Theorems *)

Section theorems.
Context {scope : Type} `{LedgerCodec scope} {db : Type} `{RedisServer db}.
Implicit Types (s : db) (a : ledger scope) (grant : EgressGrantClaims scope).

(** The calls by which a gateway uses a grant. *)
Inductive egressUse (env : ledgerEnv) grant (clock : Z) : prog (res EgressGrantErrorReason unit) -> Prop :=
| use_check execId : egressUse env grant clock (checkEgressGrantActive env (c_grant_id grant) execId clock)
| use_read : egressUse env grant clock (recordEgressRead env grant clock)
| use_reserve file bytes : egressUse env grant clock (reserveEgressUpload env grant file bytes clock)
| use_release file bytes : egressUse env grant clock (releaseEgressUpload env grant file bytes clock)
| use_tool execId : egressUse env grant clock (recordEgressToolCall env (Some (c_grant_id grant)) execId clock).

(** A call fails when the script denies what it asks for. *)
Lemma use_denied env grant clock now s call : EGRESS_LEDGER_REQUIRED env = true -> c_grant_id grant <> [] ->
  (forall op execId, ~ creates op -> ~ revokes op -> admissible op ->
     exists why, snd (run (ledgerScript (ledgerKey (c_grant_id grant)) op execId (clock / 1000)) now s) = Some (Denied why)) ->
  egressUse env grant clock call -> exists e, snd (run call now s) = Some (Err e).
Proof.
  intros Hr Hid Hd Hu.
  assert (forall op execId, ~ creates op -> ~ revokes op -> admissible op ->
    exists e, snd (run (settled (executeLedger op (c_grant_id grant) execId clock)) now s) = Some (Err e)) as Hs.
  { intros op execId Hc Hv Hop. destruct (Hd op execId Hc Hv Hop) as [why E]. rewrite (proj2 (run_eval _ _ _)) in E. exists (errorReason why).
    apply (run_wp_pair (settled (executeLedger op (c_grant_id grant) execId clock)) now s (fun r _ => r = Some (Err (errorReason why)))).
    apply settled_rule. unfold wp. destruct (eval _ now (content s)) as [ks' r]. cbn [snd] in E. by subst r. }
  destruct Hu as [execId| |file bytes|file bytes|execId];
    unfold checkEgressGrantActive, recordEgressRead, reserveEgressUpload, releaseEgressUpload, recordEgressToolCall, whenRequired; rewrite ?Hr.
  - apply Hs; [by intros []|by intros []|exact I].
  - apply Hs; [by intros []|by intros []|exact I].
  - destruct (validBytes bytes); cbn [negb]; [apply Hs; [by intros []|by intros []|exact I]|].
    exists SCOPE_MISMATCH. by rewrite (proj2 (run_eval _ _ _)).
  - destruct (validBytes bytes) eqn:Eb; cbn [negb]; [apply Hs; [by intros []|by intros []|]|].
    + unfold validBytes in Eb. apply andb_true_iff in Eb as [Eb _]. by apply Z.leb_le in Eb.
    + exists SCOPE_MISMATCH. by rewrite (proj2 (run_eval _ _ _)).
  - destruct (c_grant_id grant) as [|c id] eqn:Eg; [done|]. apply Hs; [by intros []|by intros []|exact I].
Qed.

(** (C7) The script implements the abstract ledger, on a hash as on a text. Whatever
    the operation, the script ends, replies what the abstract ledger answers (with the
    reason of a denial; a snapshot reports the counters), stores its successor in the
    same place and representation, does not shorten its life, and touches no other key.
    A release names no negative number of bytes, as its caller checks; one that names
    others than were reserved is refused on the hash and granted on the text, on both
    sides. *)
Theorem ledger_refines (key : jstr) s now until a op execId clock :
  sound a -> stored key now until (rawOf a) (content s) -> exact clock -> admissible op ->
  let out := run (ledgerScript key op execId clock) now s in
  match snd (aStep a op execId clock) with
  | Some why => snd out = Some (Denied why)
  | None => match op with OpSnapshot => snapshotOf a (snd out) | _ => snd out = Some (Granted None) end
  end
  /\ stored key now until (rawOf (fst (aStep a op execId clock))) (content (fst out))
  /\ (forall k, k <> key -> content (fst out) !! k = content s !! k).
Proof.
  intros Hs Hst Hc Hd. exact (run_wp_pair _ _ s _ (script_rule key now until a Hs (content s) Hst execId clock Hc op Hd)).
Qed.

(** (C5) No history exceeds a grant. A grant whose limits the number formats hold is
    recorded by its creation. After any sequence of operations by any gateways, in
    either representation and with the same grant created again at any time, also
    after its record has expired: the abstract ledger, which takes every operation and
    which no second creation resets, keeps the policy of the grant and every budget (requests,
    files, bytes per file and in all, no file twice); the next operation is denied
    exactly when the abstract ledger denies it; and a client that reads the ledger sees
    counters within the limits of its grant. The clocks of gateways and server differ
    by at most half the grace period; a release names no negative number of bytes, as
    [releaseEgressUpload] checks. *)
Theorem ledger_budgets (env : ledgerEnv) grant (lag : Z) s now clock m :
  begun env grant lag s now clock ->
  snd (run (createEgressLedger env grant clock) now s) = Some (Ok tt)
  /\ (lived env grant lag s now clock m ->
      a_policy (m_ledger m) = recordFromGrant grant /\ budgets (m_ledger m)
      /\ (0 <= sumBytes (a_outputs (m_ledger m)) <= c_max_upload_bytes grant * c_max_output_files grant)%Z
      /\ forall t clock', (m_time m <= t)%Z -> inTime lag t clock' ->
          (forall op execId, permitted env grant op clock' ->
             answered (m_ledger m) op execId clock' (snd (run (ledgerScript (ledgerKey (c_grant_id grant)) op execId (clock' / 1000)) t (m_db m))))
          /\ forall x, snd (run (assertEgressGrantActive env grant clock') t (m_db m)) = Some (Ok x) ->
             (request_count x <= c_max_requests grant /\ read_count x + tool_call_count x + upload_count x = request_count x
              /\ upload_count x = Z.of_nat (length (output_file_ids x)) /\ upload_count x <= c_max_output_files grant
              /\ 0 <= uploaded_bytes x <= c_max_upload_bytes grant * c_max_output_files grant)%Z).
Proof.
  intros Hb. split; [by apply (begun_tracks env grant lag)|]. intros Hl. pose proof (lived_tracks _ _ _ _ _ _ _ Hb Hl) as T.
  pose proof (bg_sane _ _ _ _ _ _ Hb) as Hsane. pose proof T as ([B S D] & P & _). pose proof (held_total _ B S) as Htot.
  rewrite P in Htot. split_and!; [done|done|apply Htot..|]. intros t clock' Ht Hin. split; [intros op execId Hop; by eapply operation|].
  intros x Hx. destruct (snapshot_read env grant lag m t clock' x Hsane (bg_required _ _ _ _ _ _ Hb) T Ht Hin Hx) as [Hn Hp].
  change (request_count x) with (getField F_request_count x). change (read_count x) with (getField F_read_count x).
  change (tool_call_count x) with (getField F_tool_call_count x). change (upload_count x) with (getField F_upload_count x).
  change (uploaded_bytes x) with (getField F_uploaded_bytes x). rewrite !Hn, (Permutation_length Hp), length_map. cbn [aNumber].
  destruct B as [B1 B2 B3 B4 B5 B6 B7]. rewrite P in *. cbn [recordFromGrant max_requests max_output_files max_upload_bytes] in *.
  unfold a_requests, a_uploads in *. lia.
Qed.

(** (C14) A revocation is final. Once a grant has been revoked, then whatever any
    gateways do after that, creating the same grant again at any time included, no
    check, snapshot, read, reservation, release or tool call on it is granted again, and
    every call of a gateway that asks for one fails:
    the record outlives every clock's idea of the grant's expiry, and a revocation
    leaves it there. The clocks of gateways and server differ by at most half the grace
    period. *)
Theorem revocation_final (env : ledgerEnv) grant (lag : Z) s now clock m1 reason t1 clock1 m2 :
  begun env grant lag s now clock -> lived env grant lag s now clock m1 ->
  (m_time m1 <= t1)%Z -> inTime lag t1 clock1 ->
  let revocation := run (revokeEgressLedger env (c_grant_id grant) reason clock1) t1 (m_db m1) in
  snd revocation = Some (Ok tt)
  /\ (rtc (ledgerStep env grant lag) (Moment t1 (fst revocation) (fst (aStep (m_ledger m1) (OpRevoke reason) [] (clock1 / 1000)))) m2 ->
      forall t2 clock2, (m_time m2 <= t2)%Z -> inTime lag t2 clock2 ->
        (forall op execId, ~ creates op -> ~ revokes op -> admissible op ->
           exists why, snd (run (ledgerScript (ledgerKey (c_grant_id grant)) op execId (clock2 / 1000)) t2 (m_db m2)) = Some (Denied why))
        /\ (forall call, egressUse env grant clock2 call -> exists e, snd (run call t2 (m_db m2)) = Some (Err e))).
Proof.
  intros Hb Hl Ht1 Hin1 revocation. pose proof (lived_tracks _ _ _ _ _ _ _ Hb Hl) as T1. pose proof (bg_sane _ _ _ _ _ _ Hb) as Hsane.
  destruct (operation env grant lag (OpRevoke reason) [] clock1 t1 m1 Hsane T1 Ht1 Hin1 I) as [Hans T]. cbv zeta in T.
  set (a' := fst (aStep (m_ledger m1) (OpRevoke reason) [] (clock1 / 1000))) in *.
  assert (snd revocation = Some (Ok tt) /\ content (fst revocation) = content (fst (run (ledgerScript (ledgerKey (c_grant_id grant)) (OpRevoke reason) [] (clock1 / 1000)) t1 (m_db m1)))) as [Hrep Hcont].
  { apply (run_wp_pair (revokeEgressLedger env (c_grant_id grant) reason clock1) t1 (m_db m1) (fun r ks' => r = Some (Ok tt) /\ ks' = _)).
    unfold revokeEgressLedger, whenRequired. rewrite (bg_required _ _ _ _ _ _ Hb). apply settled_rule. unfold answered in Hans.
    rewrite (proj2 (run_eval _ _ _)) in Hans. rewrite (proj1 (run_eval _ _ _)). unfold wp.
    destruct (eval _ t1 (content (m_db m1))) as [ks' r]. cbn [fst snd] in *. by rewrite Hans. }
  split; [done|]. intros Hh t2 clock2 Ht2 Hin2. match goal with |- ?A /\ _ => enough A as Hd end.
  { split; [exact Hd|]. intros call. exact (use_denied env grant clock2 t2 (m_db m2) call (bg_required _ _ _ _ _ _ Hb) (bg_named _ _ _ _ _ _ Hb) Hd). }
  intros op execId Hc Hv Hop.
  assert (tracks grant lag (Moment t1 (fst revocation) a')) as T'.
  { unfold tracks, recorded, over in *. cbn [m_time m_db m_ledger] in *. by rewrite Hcont. }
  destruct (history_tracks env grant lag _ _ Hsane Hh T') as (T2 & _ & R2). specialize (R2 (ex_intro _ _ eq_refl)).
  pose proof (proj1 (operation env grant lag op execId clock2 t2 m2 Hsane T2 Ht2 Hin2 ltac:(by destruct op))) as H2. unfold answered in H2.
  enough (exists why, snd (aStep (m_ledger m2) op execId (clock2 / 1000)) = Some why) as [why E] by (by rewrite E in H2).
  unfold aStep. rewrite (bool_decide_eq_true_2 (is_Some (a_revoked (m_ledger m2)))) by done.
  destruct op; try (by destruct Hv); try (by destruct Hc); destruct (negb _); by eexists.
Qed.
End theorems.

(** ** A codec, for the witnesses

    A record is written as length-prefixed blocks of odd numbers, in which the
    substitutions of [fixEmptyLists] find no quote. *)

Fixpoint blocks (l : list (list Z)) : list Z :=
  match l with [] => [] | b :: l' => Z.of_nat (length b) :: b ++ blocks l' end.

Fixpoint unblocks (fuel : nat) (t : list Z) : list (list Z) :=
  match fuel, t with
  | S n, k :: t' => take (Z.to_nat k) t' :: unblocks n (drop (Z.to_nat k) t')
  | _, _ => []
  end.

Lemma unblocks_blocks l fuel : length (blocks l) <= fuel -> unblocks fuel (blocks l) = l.
Proof.
  revert fuel. induction l as [|b l IH]; intros [|n]; cbn [blocks unblocks length]; try (done || lia).
  rewrite Nat2Z.id, length_app. intros Hn. rewrite take_app_length, drop_app_length. f_equal. apply IH. lia.
Qed.

Definition recordBlocks (r : EgressLedgerRecord unit) : list (list Z) :=
  grant_id r :: exec_id r :: status r ::
  [exp r; max_upload_bytes r; max_output_files r; max_requests r; request_count r; read_count r; upload_count r; tool_call_count r; uploaded_bytes r] ::
  match revoked_at r with Some t => [t] | None => [] end ::
  match revoke_reason r with Some s => 0%Z :: s | None => [] end :: output_file_ids r.

Definition ofBlocks (l : list (list Z)) : option (EgressLedgerRecord unit) :=
  match l with
  | g :: x :: st :: [e; b; f; q; c1; c2; c3; c4; c5] :: at_ :: why :: ids =>
      Some (LedgerRecord unit g x st e (head at_) (match why with [] => None | _ :: s => Some s end) tt b f q c1 c2 c3 c4 c5 ids)
  | _ => None
  end.

Definition blockText (r : EgressLedgerRecord unit) : jstr := map (fun z => 2 * z + 1)%Z (blocks (recordBlocks r)).
Definition blockRecord (t : jstr) : option (EgressLedgerRecord unit) :=
  let t := map (fun z => z / 2)%Z t in ofBlocks (unblocks (length t) t).

Lemma blockRecord_text r : blockRecord (blockText r) = Some r.
Proof.
  unfold blockRecord, blockText. rewrite map_map. rewrite (map_ext _ id), map_id.
  2: { intros z. unfold id. rewrite (Z.mul_comm 2), Z.div_add_l by done. by rewrite Z.add_0_r. }
  rewrite unblocks_blocks by done. destruct r as [? ? ? ? [] [] [] ? ? ? ? ? ? ? ? ?]; reflexivity.
Qed.

Lemma gsub_odd pattern text l : gsub (34%Z :: pattern) text (map (fun z => 2 * z + 1)%Z l) 0 = map (fun z => 2 * z + 1)%Z l.
Proof.
  induction l as [|z l IH]; cbn [map gsub]; [done|].
  assert (startsWith ((2 * z + 1)%Z :: map (fun z => 2 * z + 1)%Z l) (34%Z :: pattern) = false) as ->; [|by rewrite IH].
  apply bool_decide_eq_false. intros [= E _]. lia.
Qed.

Lemma fix_blockText r : fixEmptyLists (blockText r) = blockText r.
Proof. unfold fixEmptyLists, blockText. cbn [foldl]. unfold fixEmptyList, quoted. cbn [app]. by rewrite !gsub_odd. Qed.

#[global] Instance blockCodec : LedgerCodec unit := {|
  json_stringify := blockText; json_parse := blockRecord; cjson_decode := blockRecord; cjson_encode := blockText;
  decode_stringify r _ := blockRecord_text r;
  decode_encode r _ := eq_trans (f_equal blockRecord (fix_blockText r)) (blockRecord_text r);
  parse_encode r _ := eq_trans (f_equal blockRecord (fix_blockText r)) (blockRecord_text r);
|}.

Definition grant_example : EgressGrantClaims unit := Grant (js "g1") (js "x1") 2000 tt 100 2 3.
Definition env_example (compact : bool) : ledgerEnv := LedgerEnv true compact 60 1000.
Definition created_example (compact : bool) : keyspace :=
  fst (run (createEgressLedger (env_example compact) grant_example 1000000) 1000000 (∅ : keyspace)).

Lemma grant_sane : sane (recordFromGrant grant_example).
Proof. vm_compute. intuition congruence. Qed.

Lemma nothing_stored now k : find now ∅ k = None.
Proof. unfold find. by rewrite lookup_empty. Qed.

Lemma near now clock : (now - 1000 <=? clock)%Z && (clock <=? now + 1000)%Z && (0 <=? clock)%Z && (clock <? 10 ^ 14)%Z = true -> inTime 1000 now clock.
Proof.
  rewrite !andb_true_iff, !Z.leb_le, Z.ltb_lt. intros [[[H1 H2] H3] H4]. split; [lia|]. unfold exact.
  pose proof (Z.div_pos clock 1000 H3 ltac:(lia)). pose proof (Z.div_le_upper_bound clock 1000 clock ltac:(lia) ltac:(lia)). lia.
Qed.

Lemma example_begun compact : begun (env_example compact) grant_example 1000 (∅ : keyspace) 1000000 1000000.
Proof. split; [exact grant_sane|apply nothing_stored|done|done|by apply near|done]. Qed.

(** The ledger of the example is found where it was created. *)
Lemma created_stored compact : stored (ledgerKey (js "g1")) 1000000 2060000 (rawOf (fresh grant_example compact)) (created_example compact).
Proof.
  destruct (run_wp_pair _ 1000000 (∅ : keyspace) _ (create_rule (env_example compact) grant_example 1000000 1000000 ∅
    grant_sane (nothing_stored _ _) eq_refl ltac:(done))) as [_ Hst]. exact Hst.
Qed.

Lemma ledger_refines_witness :
  snd (run (ledgerScript (ledgerKey (js "g1")) (OpReserve (js "f") 40 1000) (js "x1") 1000) 1000000 (created_example true)) = Some (Granted None)
  /\ snd (run (ledgerScript (ledgerKey (js "g1")) (OpReserve (js "f") 140 1000) (js "x1") 1000) 1000000 (created_example false)) = Some (Denied FileBytes).
Proof.
  split.
  - apply (ledger_refines (ledgerKey (js "g1")) (created_example true) 1000000 2060000 (fresh grant_example true) (OpReserve (js "f") 40 1000) (js "x1") 1000);
      [apply fresh_sound, grant_sane|apply created_stored|by vm_compute|exact I].
  - apply (ledger_refines (ledgerKey (js "g1")) (created_example false) 1000000 2060000 (fresh grant_example false) (OpReserve (js "f") 140 1000) (js "x1") 1000);
      [apply fresh_sound, grant_sane|apply created_stored|by vm_compute|exact I].
Defined.

(** One reservation after the creation. *)
Definition used_example : moment unit keyspace :=
  Moment 1000000 (fst (run (ledgerScript (ledgerKey (js "g1")) (OpReserve (js "f") 40 1000) (js "x1") (1000500 / 1000)) 1000000 (created_example true)))
   (fst (aStep (fresh grant_example true) (OpReserve (js "f") 40 1000) (js "x1") (1000500 / 1000))).

Lemma used_lived : lived (env_example true) grant_example 1000 (∅ : keyspace) 1000000 1000000 used_example.
Proof. apply rtc_once. apply step_used; [lia|by apply near|exact I]. Qed.

Lemma ledger_budgets_witness :
  snd (run (createEgressLedger (env_example true) grant_example 1000000) 1000000 (∅ : keyspace)) = Some (Ok tt)
  /\ a_bytes (m_ledger used_example) = 40%Z /\ budgets (m_ledger used_example).
Proof.
  destruct (ledger_budgets (env_example true) grant_example 1000 (∅ : keyspace) 1000000 1000000 used_example (example_begun true)) as [H1 H2].
  split; [exact H1|]. split; [reflexivity|]. apply H2. exact used_lived.
Defined.

(** The grant is revoked, its record expires, and the grant is created again: a read
    is still denied. *)
Definition revoked_example : keyspace := fst (run (revokeEgressLedger (env_example true) (js "g1") (js "stop") 1001000) 1001000 (m_db used_example)).
Definition recreate : ledgerOp := OpCreate (json_stringify (recordFromGrant grant_example)) false (ttlSeconds (env_example true) 2000 2100000).
Definition recreated_example : moment unit keyspace :=
  Moment 2100000 (fst (run (ledgerScript (ledgerKey (js "g1")) recreate (js "x1") (2100000 / 1000)) 2100000 revoked_example))
    (fst (aStep (fst (aStep (m_ledger used_example) (OpRevoke (js "stop")) [] (1001000 / 1000))) recreate (js "x1") (2100000 / 1000))).

Lemma recreated_step :
  ledgerStep (env_example true) grant_example 1000
    (Moment 1001000 revoked_example (fst (aStep (m_ledger used_example) (OpRevoke (js "stop")) [] (1001000 / 1000)))) recreated_example.
Proof.
  refine (step_used (env_example true) grant_example 1000 recreate (js "x1") 2100000 1001000 2100000 revoked_example _ _ _ _);
    [by vm_compute|by apply near|by split].
Qed.

Lemma revocation_final_witness :
  bool_decide (is_Some (find 2100000 (m_db recreated_example) (ledgerKey (js "g1")))) = true
  /\ exists e, snd (run (recordEgressRead (env_example true) grant_example 2100000) 2100000 (m_db recreated_example)) = Some (Err e).
Proof.
  split; [vm_compute; reflexivity|].
  refine (proj2 (proj2 (revocation_final (env_example true) grant_example 1000 (∅ : keyspace) 1000000 1000000 used_example
    (js "stop") 1001000 1001000 recreated_example (example_begun true) used_lived _ _) (rtc_once _ _ recreated_step) 2100000%Z 2100000%Z _ _)
    _ (use_read _ _ _));
    [by vm_compute|by apply near|by vm_compute|by apply near].
Defined.
