(* ===== verification/EnrollmentProtocol.v ===== *)
(** * Machine identity and browser enrollment

    Models packages/code/src/identity.ts and browser-enrollment-protocol.ts: the
    validators of the enrollment messages and the texts a machine signs. The
    cryptographic library is the parameter [Crypto] and the URL parser the parameter
    [UrlParser]; base64url is modelled. A function that throws returns [None]. *)

From stdpp Require Import base list numbers option strings.
From Stdlib Require Import ZArith Lia.
From S2P Require Import Prelude JsString Json Protocol JsonText.

(** [createPublicKey(k).asymmetricKeyType], its SPKI text, [verify] (false where it
    throws), [sign], and the upper case of a method. *)
Class Crypto := {
  asymmetricKeyType : jstr -> option jstr;
  exportSpki : jstr -> jstr;
  verify : list Z -> jstr -> list Z -> bool;   (* message, public key, signature *)
  sign : list Z -> jstr -> list Z;
  toUpperCase : jstr -> jstr;
}.

(** What [new URL(s)] gives. *)
Record Url := URL {
  protocol : jstr; username : jstr; password : jstr; hostname : jstr;
  pathname : jstr; search : jstr; hash : jstr; origin : jstr;
}.

Class UrlParser := { parseUrl : jstr -> option Url }.

(** ** base64url *)

Definition b64val (c : Z) : option Z :=
  if isUpper c then Some (c - 65)%Z
  else if isLowerAZ c then Some (c - 71)%Z
  else if isDigit c then Some (c + 4)%Z
  else if (c =? 45)%Z then Some 62%Z
  else if (c =? 95)%Z then Some 63%Z
  else None.

Definition b64char (n : Z) : Z :=
  if (n <? 26)%Z then (n + 65)%Z else if (n <? 52)%Z then (n + 71)%Z else if (n <? 62)%Z then (n - 4)%Z
  else if (n =? 62)%Z then 45%Z else 95%Z.

Definition bitsOf (width : nat) (n : Z) : list bool := map (fun i => Z.testbit n (Z.of_nat i)) (rev (seq 0 width)).
Definition ofBits (l : list bool) : Z := foldl (fun n b => 2 * n + Z.b2z b)%Z 0%Z l.

(** The full groups of [size] bits. *)
Fixpoint groups (size fuel : nat) (l : list bool) : list (list bool) :=
  match fuel with
  | O => []
  | S n => if length l <? size then [] else take size l :: groups size n (drop size l)
  end.

(** [Buffer.from(s, 'base64url')]: other characters are skipped, a last partial byte
    is dropped. *)
Definition fromBase64url (s : jstr) : list Z :=
  let bits := concat (map (bitsOf 6) (omap b64val s)) in map ofBits (groups 8 (length bits) bits).

(** [bytes.toString('base64url')]. *)
Definition toBase64url (bytes : list Z) : jstr :=
  let bits := concat (map (bitsOf 8) bytes) in
  let bits := bits ++ repeat false (Nat.modulo (6 - Nat.modulo (length bits) 6) 6) in
  map (fun g => b64char (ofBits g)) (groups 6 (length bits) bits).

Definition isBase64urlChar (c : Z) : bool := isAlnum c || oneOf c "_-".

(** [/^[A-Za-z0-9_-]{n}$/] and the canonical encoding. *)
Definition canonicalBase64url (n : nat) (s : jstr) : bool :=
  (length s =? n) && forallb isBase64urlChar s && bool_decide (toBase64url (fromBase64url s) = s).

(** ** Shapes *)

Definition isRecord (v : json) : option Json.record := match v with JObj r => Some r | _ => None end.

(** Exactly these own properties. *)
Definition hasExactly (o : Json.record) (names : list string) : bool :=
  (length (Json.keys o) =? length names) && forallb (fun n => bool_decide (js n ∈ Json.keys o)) names.

Definition NEWLINE : Z := 10%Z.

(** [/^[A-Za-z0-9][A-Za-z0-9._:-]{0,127}$/]. *)
Definition isName (s : jstr) : bool := headTail (fun c => isAlnum c || oneOf c "._:-") 127 s.

Definition BROWSER_ENROLLMENT_MAX_TTL_MS : Z := (10 * 60000)%Z.
Definition BROWSER_SETUP_PROOF_DOMAIN : jstr := js "librechat-code:browser-setup:v1".
Definition BROWSER_ENROLLMENT_REDEMPTION_DOMAIN : jstr := js "librechat-code:browser-enrollment-redeem:v1".

(** ['-----BEGIN PUBLIC KEY-----\n']. *)
Definition PEM_HEAD : jstr := js "-----BEGIN PUBLIC KEY-----" ++ [NEWLINE].

Definition isBrowserEnrollmentToken (v : option json) : bool := strTest v (canonicalBase64url 43).
Definition isBrowserEnrollmentSignature (v : option json) : bool := strTest v (canonicalBase64url 86).

(** [pathname.replace(/\/+$/, '')]. *)
Fixpoint dropSlashes (s : jstr) : jstr :=
  match s with c :: s' => if (c =? SLASH)%Z then dropSlashes s' else s | [] => [] end.
Definition stripTrailingSlashes (s : jstr) : jstr := rev (dropSlashes (rev s)).

Definition requestHash (v : option json) : bool := strTest v isHex64.

Definition CONTRACT_KEYS : list string := ["operation"; "serverId"; "instance"; "attemptId"; "requestHash"; "workerId"; "expiresAt"].

Section validators.
Context `{Runtime} `{Platform} `{Crypto} `{UrlParser}.

Definition isBrowserEnrollmentTimestamp (v : option json) : bool :=
  strTest v (fun s => (length s =? 24) && match parseDate s with Some t => bool_decide (toISOString t = s) | None => false end).

Definition isBrowserEnrollmentPublicKey (v : option json) : bool :=
  strTest v (fun s => (length s <=? 4096) && startsWith s PEM_HEAD
    && bool_decide (asymmetricKeyType s = Some (js "ed25519")) && bool_decide (exportSpki s = s)).

Definition normalizeBrowserEnrollmentInstance (value : jstr) : option jstr :=
  if (2048 <? length value) || negb (bool_decide (value = trim value)) then None else
  url ← parseUrl value;
  if (negb (bool_decide (protocol url = js "https:"))
      && negb (bool_decide (protocol url = js "http:") && bool_decide (hostname url ∈ [js "localhost"; js "127.0.0.1"; js "[::1]"])))
     || negb (isEmpty (username url)) || negb (isEmpty (password url)) || negb (isEmpty (search url)) || negb (isEmpty (hash url))
  then None else Some (origin url ++ stripTrailingSlashes (pathname url)).

Definition instance (v : option json) : bool :=
  strTest v (fun s => bool_decide (normalizeBrowserEnrollmentInstance s = Some s)).

Definition serverOrigin (v : option json) : bool :=
  strTest v (fun s => (length s <=? 256) && match parseUrl s with
    | Some url => bool_decide (protocol url = js "https:") && bool_decide (origin url = s) && instance v
    | None => false end).

Definition isBrowserEnrollmentRequest (v : json) : bool :=
  match isRecord v with
  | None => false
  | Some r =>
      hasExactly r ["version"; "instance"; "attemptId"; "createdAt"; "publicKey"; "machineName"; "workspace";
                    "allowWorkspaceWrites"; "allowWorkspaceCommands"]
      && eqInt (field r (js "version")) 1 && instance (field r (js "instance"))
      && isBrowserEnrollmentToken (field r (js "attemptId")) && isBrowserEnrollmentTimestamp (field r (js "createdAt"))
      && isBrowserEnrollmentPublicKey (field r (js "publicKey"))
      && strTest (field r (js "machineName")) (fun s => headTail (fun c => isAlnum c || oneOf c " ._()-") 79 s && bool_decide (s = trim s))
      && match field r (js "workspace") with
         | Some (JObj w) => hasExactly w ["type"] && (eqStr (field w (js "type")) (js "private") || eqStr (field w (js "type")) (js "directory"))
         | _ => false end
      && isBool (field r (js "allowWorkspaceWrites")) && isBool (field r (js "allowWorkspaceCommands"))
  end.

(** The properties of a request in a fixed order. *)
Definition canonicalRequestFields (r : Json.record) : Json.record :=
  omap (fun n => pair (js n) <$>
         (if bool_decide (n = "workspace"%string)
          then match field r (js n) with Some (JObj w) => (fun t => JObj [(js "type", t)]) <$> field w (js "type") | _ => None end
          else field r (js n)))
    ["version"; "instance"; "attemptId"; "createdAt"; "publicKey"; "machineName"; "workspace"; "allowWorkspaceWrites"; "allowWorkspaceCommands"]%string.

Definition canonicalBrowserEnrollmentRequest (v : json) : option jstr :=
  if isBrowserEnrollmentRequest v then (fun r => stringify (JObj (canonicalRequestFields r))) <$> isRecord v else None.

Definition hashBrowserEnrollmentRequest (v : json) : option jstr := sha256hex <$> canonicalBrowserEnrollmentRequest v.

Definition isBrowserSetupProof (v : json) : bool :=
  match isRecord v with
  | None => false
  | Some r =>
      hasExactly r ["operation"; "instance"; "attemptId"; "requestHash"; "timestamp"; "nonce"]
      && strTest (field r (js "operation")) (fun s => bool_decide (s ∈ map js ["setup.start"; "setup.poll"; "setup.cancel"; "setup.complete"]))
      && instance (field r (js "instance")) && isBrowserEnrollmentToken (field r (js "attemptId")) && requestHash (field r (js "requestHash"))
      && isBrowserEnrollmentTimestamp (field r (js "timestamp")) && isBrowserEnrollmentToken (field r (js "nonce"))
  end.

Definition isBrowserEnrollmentRedemptionContract (v : json) : bool :=
  match isRecord v with
  | None => false
  | Some r =>
      eqStr (field r (js "operation")) (js "enrollment.redeem") && serverOrigin (field r (js "serverId"))
      && instance (field r (js "instance")) && isBrowserEnrollmentToken (field r (js "attemptId"))
      && requestHash (field r (js "requestHash")) && strTest (field r (js "workerId")) isName
      && isBrowserEnrollmentTimestamp (field r (js "expiresAt"))
  end.

Definition isBrowserEnrollmentBinding (v : option json) : bool :=
  match v with
  | Some (JObj r) =>
      hasExactly r ["tenantId"; "principal"] && strTest (field r (js "tenantId")) isName
      && match field r (js "principal") with
         | Some (JObj p) =>
             hasExactly p ["type"; "id"]
             && strTest (field p (js "type")) (fun s => bool_decide (s ∈ map js ["deployment"; "tenant"; "user"; "role"; "group"]))
             && strTest (field p (js "id")) isName
         | _ => false end
  | _ => false
  end.

(** A contract with exactly the given further properties, at protocol version 1. *)
Definition contractWith (extra : list string) (v : json) : bool :=
  isBrowserEnrollmentRedemptionContract v
  && match isRecord v with
     | Some r => hasExactly r (CONTRACT_KEYS ++ extra) && eqInt (field r (js "protocolVersion")) 1
     | None => false end.

(** A property of a record. *)
Definition prop (v : json) (k : string) : option json := isRecord v ≫= fun r => field r (js k).

Definition isBrowserEnrollmentApproval (v : json) : bool :=
  contractWith ["protocolVersion"; "publicKey"; "binding"] v
  && isBrowserEnrollmentPublicKey (prop v "publicKey") && isBrowserEnrollmentBinding (prop v "binding").

Definition isBrowserEnrollmentStatusRequest (v : json) : bool := contractWith ["protocolVersion"] v.

Definition isBrowserEnrollmentRedemption (v : json) : bool :=
  contractWith ["protocolVersion"; "signature"] v && isBrowserEnrollmentSignature (prop v "signature").

(** ** The texts that are signed *)

(** The texts of the named properties. *)
Definition texts (v : json) (names : list string) : option (list jstr) :=
  mapM (fun n => match prop v n with Some (JStr s) => Some s | _ => None end) names.

Definition canonicalBrowserSetupProof (v : json) : option jstr :=
  if isBrowserSetupProof v
  then l ← texts v ["operation"; "instance"; "attemptId"; "requestHash"; "timestamp"; "nonce"];
       Some (joinWith NEWLINE (BROWSER_SETUP_PROOF_DOMAIN :: l))
  else None.

Definition canonicalBrowserEnrollmentRedemption (v : json) : option jstr :=
  if isBrowserEnrollmentRedemptionContract v
  then l ← texts v CONTRACT_KEYS; Some (joinWith NEWLINE (BROWSER_ENROLLMENT_REDEMPTION_DOMAIN :: l))
  else None.

Definition signBrowserSetupProof (privateKey : jstr) (v : json) : option jstr :=
  text ← canonicalBrowserSetupProof v; Some (toBase64url (sign (utf8 text) privateKey)).

Definition verifyBrowserSetupProof (publicKey : jstr) (v : json) (signature : jstr) : bool :=
  isBrowserEnrollmentPublicKey (Some (JStr publicKey)) && isBrowserEnrollmentSignature (Some (JStr signature))
  && match canonicalBrowserSetupProof v with Some text => verify (utf8 text) publicKey (fromBase64url signature) | None => false end.

Definition signBrowserEnrollmentRedemption (privateKey : jstr) (v : json) : option jstr :=
  text ← canonicalBrowserEnrollmentRedemption v; Some (toBase64url (sign (utf8 text) privateKey)).

Definition verifyBrowserEnrollmentRedemption (publicKey : jstr) (v : json) (signature : jstr) : bool :=
  isBrowserEnrollmentPublicKey (Some (JStr publicKey)) && isBrowserEnrollmentSignature (Some (JStr signature))
  && match canonicalBrowserEnrollmentRedemption v with
     | Some text => verify (utf8 text) publicKey (fromBase64url signature) | None => false end.
End validators.

(** ** Machine proofs *)

Record BridgeRequestProofInput := RequestProof {
  q_credential : jstr; q_method : jstr; q_path : jstr; q_timestamp : jstr; q_nonce : jstr; q_body : jstr }.

(** The operation of each is a constant the handlers check. *)
Record BridgeRecoveryStartProofInput := RecoveryStart {
  s_operation : jstr; s_serverId : jstr; s_workerId : jstr; s_timestamp : jstr; s_nonce : jstr }.

Record BridgeRecoveryProofInput := RecoveryProof {
  r_operation : jstr; r_serverId : jstr; r_workerId : jstr; r_enrollmentGeneration : jstr; r_challenge : jstr; r_expiresAt : jstr }.

Section proofs.
Context `{Platform} `{Crypto}.

Definition canonicalBridgeRequest (i : BridgeRequestProofInput) : jstr :=
  joinWith NEWLINE [toUpperCase (q_method i); q_path i; q_timestamp i; q_nonce i; sha256hex (q_body i); q_credential i].

Definition canonicalBridgeRecoveryStart (i : BridgeRecoveryStartProofInput) : jstr :=
  joinWith NEWLINE [js "librechat-code:bridge-recovery-start:v1"; s_operation i; s_serverId i; s_workerId i; s_timestamp i; s_nonce i].

Definition canonicalBridgeRecovery (i : BridgeRecoveryProofInput) : jstr :=
  joinWith NEWLINE [js "librechat-code:bridge-recovery:v1"; r_operation i; r_serverId i; r_workerId i; r_enrollmentGeneration i;
                    r_challenge i; r_expiresAt i].

Definition signText (privateKey text : jstr) : jstr := toBase64url (sign (utf8 text) privateKey).
Definition verifyText (publicKey text signature : jstr) : bool := verify (utf8 text) publicKey (fromBase64url signature).

Definition signBridgeRequest (privateKey : jstr) (i : BridgeRequestProofInput) : jstr := signText privateKey (canonicalBridgeRequest i).
Definition verifyBridgeRequest (publicKey : jstr) (i : BridgeRequestProofInput) (signature : jstr) : bool :=
  verifyText publicKey (canonicalBridgeRequest i) signature.
Definition signBridgeRecoveryStart (privateKey : jstr) (i : BridgeRecoveryStartProofInput) : jstr :=
  signText privateKey (canonicalBridgeRecoveryStart i).
Definition verifyBridgeRecoveryStart (publicKey : jstr) (i : BridgeRecoveryStartProofInput) (signature : jstr) : bool :=
  verifyText publicKey (canonicalBridgeRecoveryStart i) signature.
Definition signBridgeRecovery (privateKey : jstr) (i : BridgeRecoveryProofInput) : jstr := signText privateKey (canonicalBridgeRecovery i).
Definition verifyBridgeRecovery (publicKey : jstr) (i : BridgeRecoveryProofInput) (signature : jstr) : bool :=
  verifyText publicKey (canonicalBridgeRecovery i) signature.
End proofs.
