(* ===== verification/EnrollmentProtocolProofs.v ===== *)
(** * Machine identity: signed texts

    The text a machine signs to redeem a browser enrollment determines every field of
    the contract and is no text of another proof ([redemption_text_injective]); so do
    the texts of request and recovery proofs ([proof_texts_injective]). base64url
    decodes what it encoded. *)

From stdpp Require Import base list numbers option strings.
From Stdlib Require Import ZArith Lia.
From S2P Require Import Prelude JsString Json Protocol ProtocolKeys ProtocolRequests JsonText EnrollmentProtocol.

(** ** base64url decodes what it encoded *)

Definition isByte (n : Z) : Prop := (0 <= n < 256)%Z.

Lemma b64val_char n : (0 <= n < 64)%Z -> b64val (b64char n) = Some n.
Proof.
  intros Hn. assert (forallb (fun i => bool_decide (b64val (b64char (Z.of_nat i)) = Some (Z.of_nat i))) (seq 0 64) = true) as Hall by by vm_compute.
  rewrite forallb_forall in Hall. specialize (Hall (Z.to_nat n)). rewrite Z2Nat.id, bool_decide_eq_true in Hall by lia.
  apply Hall, in_seq. lia.
Qed.

Lemma ofBits_byte n : isByte n -> ofBits (bitsOf 8 n) = n.
Proof.
  intros Hn. assert (forallb (fun i => Z.eqb (ofBits (bitsOf 8 (Z.of_nat i))) (Z.of_nat i)) (seq 0 256) = true) as Hall by by vm_compute.
  rewrite forallb_forall in Hall. specialize (Hall (Z.to_nat n)). rewrite Z2Nat.id, Z.eqb_eq in Hall by (unfold isByte in Hn; lia).
  apply Hall, in_seq. unfold isByte in Hn. lia.
Qed.

Lemma bits_of_six g : length g = 6 -> bitsOf 6 (ofBits g) = g /\ (0 <= ofBits g < 64)%Z.
Proof.
  intros Hg. do 7 (destruct g as [|[] g]; try discriminate Hg); by vm_compute.
Qed.

Lemma groups_six fuel l k : length l = 6 * k -> k <= fuel -> concat (groups 6 fuel l) = l /\ Forall (fun g => length g = 6) (groups 6 fuel l).
Proof.
  revert l k. induction fuel as [|fuel IH]; intros l k Hl Hk; cbn [groups].
  - destruct l; [done|]. cbn [length] in Hl. lia.
  - destruct (Nat.ltb_spec (length l) 6) as [Hs|Hs].
    + destruct l; [done|]. cbn [length] in *. lia.
    + destruct (IH (drop 6 l) (k - 1)) as [E HF]; [rewrite length_drop; lia|lia|]. cbn [concat]. rewrite E, take_drop.
      split; [done|]. constructor; [|done]. rewrite length_take. lia.
Qed.

Lemma groups_eight fuel (bytes : list Z) pad : length pad < 8 -> length bytes <= fuel ->
  groups 8 fuel (concat (map (bitsOf 8) bytes) ++ pad) = map (bitsOf 8) bytes.
Proof.
  intros Hp. revert bytes. induction fuel as [|fuel IH]; intros [|b bytes] Hl; cbn [length] in Hl; try done; try lia; cbn [map concat].
  - cbn [app groups]. destruct (Nat.ltb_spec (length pad) 8); [done|lia].
  - rewrite <- app_assoc. assert (length (bitsOf 8 b) = 8) as H8 by reflexivity. cbn [groups].
    rewrite take_app_length' by done. rewrite drop_app_length' by done. rewrite IH by lia.
    destruct (Nat.ltb_spec (length (bitsOf 8 b ++ concat (map (bitsOf 8) bytes) ++ pad)) 8) as [Hs|_]; [|done].
    rewrite length_app, H8 in Hs. lia.
Qed.

Lemma length_bits bytes : length (concat (map (bitsOf 8) bytes)) = 8 * length bytes.
Proof. induction bytes as [|b bytes IH]; [done|]. cbn [map concat length]. rewrite length_app, IH. change (length (bitsOf 8 b)) with 8. lia. Qed.

Lemma base64url_decodes bytes : Forall isByte bytes -> fromBase64url (toBase64url bytes) = bytes.
Proof.
  intros Hb. unfold toBase64url, fromBase64url. set (bits := concat (map (bitsOf 8) bytes)).
  set (pad := repeat false _). assert (length pad < 6 /\ exists k, length (bits ++ pad) = 6 * k) as [Hpad [k Hk]].
  { unfold pad. rewrite length_app, repeat_length. pose proof (Nat.mod_upper_bound (length bits) 6).
    pose proof (Nat.mod_upper_bound (6 - length bits mod 6) 6). pose proof (Nat.div_mod_eq (length bits) 6). split; [lia|].
    destruct (decide (length bits mod 6 = 0)) as [E|E].
    - rewrite E. exists (length bits / 6). change ((6 - 0) mod 6) with 0. lia.
    - rewrite Nat.mod_small by lia. exists (length bits / 6 + 1). lia. }
  destruct (groups_six (length (bits ++ pad)) (bits ++ pad) k Hk ltac:(lia)) as [E HF].
  assert (concat (map (bitsOf 6) (omap b64val (map (fun g => b64char (ofBits g)) (groups 6 (length (bits ++ pad)) (bits ++ pad))))) = bits ++ pad) as ->.
  { rewrite <- E at 3. clear E. induction HF as [|g gs Hg HF IH]; [done|]. destruct (bits_of_six g Hg) as [Eg Hr].
    cbn [map omap list_omap concat]. rewrite b64val_char by done. cbn [map concat]. rewrite Eg. f_equal. exact IH. }
  unfold bits. rewrite groups_eight; [|lia|fold bits; rewrite length_app; unfold bits; rewrite length_bits; lia].
  rewrite map_map. rewrite <- (map_id bytes) at 2. apply map_ext_in. intros n Hn. apply ofBits_byte.
  rewrite Forall_forall in Hb. apply Hb. by apply list_elem_of_In.
Qed.

Lemma b64char_ok n : (0 <= n < 64)%Z -> isBase64urlChar (b64char n) = true.
Proof.
  intros Hn. assert (forallb (fun i => isBase64urlChar (b64char (Z.of_nat i))) (seq 0 64) = true) as Hall by by vm_compute.
  rewrite forallb_forall in Hall. specialize (Hall (Z.to_nat n)). rewrite Z2Nat.id in Hall by lia. apply Hall, in_seq. lia.
Qed.

Lemma base64url_chars l : Forall isByte l -> forallb isBase64urlChar (toBase64url l) = true.
Proof.
  intros Hb. unfold toBase64url. set (bits := concat (map (bitsOf 8) l)). set (pad := repeat false _).
  assert (exists k, length (bits ++ pad) = 6 * k) as [k Hk].
  { unfold pad. rewrite length_app, repeat_length. pose proof (Nat.mod_upper_bound (length bits) 6).
    pose proof (Nat.div_mod_eq (length bits) 6). destruct (decide (length bits mod 6 = 0)) as [E|E].
    - rewrite E. exists (length bits / 6). change ((6 - 0) mod 6) with 0. lia.
    - rewrite Nat.mod_small by lia. exists (length bits / 6 + 1). lia. }
  destruct (groups_six (length (bits ++ pad)) (bits ++ pad) k Hk ltac:(lia)) as [_ HF].
  apply forallb_forall. intros c (g & <- & Hg)%in_map_iff. rewrite Forall_forall in HF.
  apply b64char_ok, bits_of_six, HF. by apply list_elem_of_In.
Qed.

(** ** Lines *)

Lemma join_cons sep a b l : joinWith sep (a :: b :: l) = a ++ sep :: joinWith sep (b :: l).
Proof. reflexivity. Qed.

Lemma line_inj (sep : Z) a b s t : sep ∉ a -> sep ∉ b -> a ++ sep :: s = b ++ sep :: t -> a = b /\ s = t.
Proof.
  revert b. induction a as [|x a IH]; intros [|y b] Ha Hb E; cbn [app] in E; simplify_eq; try done.
  - destruct Hb. left.
  - destruct Ha. left.
  - rewrite not_elem_of_cons in Ha, Hb. destruct (IH b) as [-> ->]; [tauto|tauto|done|done].
Qed.

(** Lines of which only the last may hold a separator. *)
Lemma join_inj sep (l l' : list jstr) : length l = length l' ->
  Forall (fun a => sep ∉ a) (removelast l) -> Forall (fun a => sep ∉ a) (removelast l') -> joinWith sep l = joinWith sep l' -> l = l'.
Proof.
  revert l'. induction l as [|a l IH]; intros [|b l'] Hlen Ha Hb E; try done. destruct l as [|a2 l], l' as [|b2 l']; try discriminate Hlen.
  - cbn in E. by subst.
  - rewrite !join_cons in E. change (removelast (a :: a2 :: l)) with (a :: removelast (a2 :: l)) in Ha.
    change (removelast (b :: b2 :: l')) with (b :: removelast (b2 :: l')) in Hb. apply Forall_cons in Ha as [Ha1 Ha], Hb as [Hb1 Hb].
    apply line_inj in E as [-> E]; [|done|done]. f_equal. apply IH; [cbn [length] in Hlen |- *; lia|done..].
Qed.

(** ** Contracts *)

(** What is relied on of [toUpperCase] and of the hex digest. *)
Definition upperCased `{Crypto} : Prop := forall s c, c ∈ toUpperCase s -> isLowerAZ c = false.
Definition oneLine `{Platform} : Prop := forall s, NEWLINE ∉ sha256hex s.

(** The text of a request proof starts with its method in upper case, the texts of the
    other proofs with their domain in lower case. *)
Lemma request_text_start `{Platform} `{Crypto} i s : upperCased -> canonicalBridgeRequest i <> js "l" ++ s.
Proof.
  intros Hu E. unfold canonicalBridgeRequest in E. rewrite join_cons in E. pose proof (Hu (q_method i)) as Hm.
  destruct (toUpperCase (q_method i)) as [|c m]; [discriminate E|]. injection E as E _. specialize (Hm c ltac:(by left)). by rewrite E in Hm.
Qed.

Section contracts.
Context `{Runtime} `{Platform} `{Crypto} `{UrlParser}.

(** A parsed URL holds no line feed (the parser strips them). *)
Hypothesis upper_case : upperCased.
Hypothesis url_no_newline : forall s u, parseUrl s = Some u -> NEWLINE ∉ origin u /\ NEWLINE ∉ pathname u.

Lemma dropSlashes_sub s c : c ∈ dropSlashes s -> c ∈ s.
Proof. induction s as [|x s IH]; [done|]. cbn [dropSlashes]. case_match; [|done]. intros Hc. right. by apply IH. Qed.

Lemma instance_lines s : instance (Some (JStr s)) = true -> NEWLINE ∉ s.
Proof.
  cbn [instance strTest]. intros Hi%bool_decide_eq_true. unfold normalizeBrowserEnrollmentInstance in Hi.
  case_match; [done|]. destruct (parseUrl s) as [u|] eqn:Eu; [|done]. cbn [mbind option_bind] in Hi. case_match; [done|].
  injection Hi as E. destruct (url_no_newline s u Eu) as [Ho Hp]. rewrite <- E, elem_of_app. intros [Hc|Hc]; [done|].
  apply Hp. unfold stripTrailingSlashes in Hc. apply list_elem_of_In, in_rev, list_elem_of_In, dropSlashes_sub, list_elem_of_In, in_rev in Hc.
  by apply list_elem_of_In.
Qed.

Lemma chars_no_newline f (s : jstr) : f NEWLINE = false -> forallb f s = true -> NEWLINE ∉ s.
Proof. intros Hf Hs Hin. rewrite forallb_forall in Hs. specialize (Hs NEWLINE (proj1 (list_elem_of_In _ _) Hin)). congruence. Qed.

Lemma name_no_newline s : isName s = true -> NEWLINE ∉ s.
Proof.
  intros Hs. apply (chars_no_newline (fun c => isAlnum c || oneOf c "._:-")); [by vm_compute|]. destruct s as [|c t]; [done|].
  cbn [isName headTail] in Hs. apply andb_true_iff in Hs as [Hs Ht]. apply andb_true_iff in Hs as [Hc _]. cbn [forallb]. by rewrite Hc, Ht.
Qed.

Lemma strTest_text o f : strTest o f = true -> exists s, o = Some (JStr s) /\ f s = true.
Proof. destruct o as [[]|]; cbn [strTest]; try done. eauto. Qed.

Lemma contract_fields v : isBrowserEnrollmentRedemptionContract v = true ->
  exists server inst attempt hash worker expires, texts v CONTRACT_KEYS = Some [js "enrollment.redeem"; server; inst; attempt; hash; worker; expires]
    /\ Forall (fun a => NEWLINE ∉ a) [server; inst; attempt; hash; worker].
Proof.
  unfold isBrowserEnrollmentRedemptionContract, isBrowserEnrollmentToken, requestHash, isBrowserEnrollmentTimestamp.
  destruct v as [| | | | | |r]; cbn [isRecord]; try done. rewrite !andb_true_iff. intros [[[[[[Hop Hsv] Hin] Hat] Hha] Hwo] Hex].
  apply strTest_text in Hsv as (server & Es & Hsv), Hat as (attempt & Ea & Hat), Hha as (hash & Eh & Hha), Hwo as (worker & Ew & Hwo), Hex as (expires & Ee & _).
  pose proof Hin as Hin'. apply strTest_text in Hin' as (inst & Ei & _). rewrite Ei in Hin.
  assert (field r (js "operation") = Some (JStr (js "enrollment.redeem"))) as Eo.
  { unfold eqStr in Hop. destruct (field r (js "operation")) as [[]|]; try done. apply bool_decide_eq_true in Hop. by subst. }
  exists server, inst, attempt, hash, worker, expires. split.
  - unfold texts, CONTRACT_KEYS, prop. cbn [mapM isRecord mbind option_bind]. rewrite Eo, Es, Ei, Ea, Eh, Ew, Ee. reflexivity.
  - repeat apply Forall_cons_2; [..|apply Forall_nil_2].
    + apply andb_true_iff in Hsv as [_ Hsv]. case_match; [|done]. apply andb_true_iff in Hsv as [_ Hsv]. rewrite Es in Hsv. by apply instance_lines.
    + by apply instance_lines.
    + apply andb_true_iff in Hat as [Hat _]. apply andb_true_iff in Hat as [_ Hat]. by apply (chars_no_newline isBase64urlChar).
    + apply andb_true_iff in Hha as [_ Hha]. by apply (chars_no_newline isHexLower).
    + by apply name_no_newline.
Qed.

(** (C15) The text a machine signs to redeem a browser enrollment determines the whole
    contract (server, instance, attempt, request, worker and expiry), and is no text of
    a setup proof, of either recovery proof or of the proof of a request: a signature
    made for one is none for another. That [toUpperCase] leaves no lower-case letter
    and that the origin and path of a parsed address have no line break is assumed. *)
Theorem redemption_text_injective v v' text :
  canonicalBrowserEnrollmentRedemption v = Some text -> canonicalBrowserEnrollmentRedemption v' = Some text ->
  texts v CONTRACT_KEYS = texts v' CONTRACT_KEYS
  /\ (forall u, canonicalBrowserSetupProof u <> Some text)
  /\ (forall i, canonicalBridgeRecoveryStart i <> text) /\ (forall i, canonicalBridgeRecovery i <> text)
  /\ (forall i, canonicalBridgeRequest i <> text).
Proof.
  unfold canonicalBrowserEnrollmentRedemption.
  destruct (isBrowserEnrollmentRedemptionContract v) eqn:Ev; [|done]. destruct (isBrowserEnrollmentRedemptionContract v') eqn:Ev'; [|done].
  destruct (contract_fields v Ev) as (s1 & i1 & a1 & h1 & w1 & e1 & -> & HF1). destruct (contract_fields v' Ev') as (s2 & i2 & a2 & h2 & w2 & e2 & -> & HF2).
  cbn [mbind option_bind]. intros E1%(inj Some) E2%(inj Some).
  split_and!.
  - f_equal. cut (BROWSER_ENROLLMENT_REDEMPTION_DOMAIN :: [js "enrollment.redeem"; s1; i1; a1; h1; w1; e1]
      = BROWSER_ENROLLMENT_REDEMPTION_DOMAIN :: [js "enrollment.redeem"; s2; i2; a2; h2; w2; e2]); [congruence|].
    apply (join_inj NEWLINE); [done| | |congruence].
    + cbn [removelast]. do 2 (apply Forall_cons_2; [apply (bool_decide_unpack _); by vm_compute|]). done.
    + cbn [removelast]. do 2 (apply Forall_cons_2; [apply (bool_decide_unpack _); by vm_compute|]). done.
  - intros u. unfold canonicalBrowserSetupProof. case_match; [|done]. destruct (texts u _) as [[|x l]|]; cbn [mbind option_bind]; try done.
    + intros E%(inj Some). rewrite <- E1 in E. by vm_compute in E.
    + intros E%(inj Some). rewrite <- E1 in E. by vm_compute in E.
  - intros i E. rewrite <- E1 in E. by vm_compute in E.
  - intros i E. rewrite <- E1 in E. by vm_compute in E.
  - intros i E. rewrite <- E1 in E. by apply request_text_start in E.
Qed.
End contracts.

(** ** The other proofs *)

Section texts.
Context `{Platform} `{Crypto}.
Hypothesis upper_case : upperCased.
Hypothesis digest_line : oneLine.

(** The fields that are not last have no line break: they are a path and the values of
    headers. *)
Definition requestLines (i : BridgeRequestProofInput) : Prop :=
  NEWLINE ∉ toUpperCase (q_method i) /\ NEWLINE ∉ q_path i /\ NEWLINE ∉ q_timestamp i /\ NEWLINE ∉ q_nonce i.
Definition startLines (i : BridgeRecoveryStartProofInput) : Prop :=
  NEWLINE ∉ s_operation i /\ NEWLINE ∉ s_serverId i /\ NEWLINE ∉ s_workerId i /\ NEWLINE ∉ s_timestamp i.
Definition recoveryLines (i : BridgeRecoveryProofInput) : Prop :=
  NEWLINE ∉ r_operation i /\ NEWLINE ∉ r_serverId i /\ NEWLINE ∉ r_workerId i /\ NEWLINE ∉ r_enrollmentGeneration i /\ NEWLINE ∉ r_challenge i.

Ltac lines := cbn [removelast]; repeat (apply Forall_cons_2; [first [done|apply digest_line|apply (bool_decide_unpack _); by vm_compute]|]); apply Forall_nil_2.

(** (C34) The text a machine signs for a request or for a recovery determines what it
    is a proof of: the method, path, time, nonce and credential of a request and the
    digest of its body, and every field of a recovery; and no text of one of these
    proofs is a text of another. Fields other than the last are taken without line
    breaks, as the values of headers and paths are. *)
Theorem proof_texts_injective :
  (forall i j, requestLines i -> requestLines j -> canonicalBridgeRequest i = canonicalBridgeRequest j ->
     toUpperCase (q_method i) = toUpperCase (q_method j) /\ q_path i = q_path j /\ q_timestamp i = q_timestamp j
     /\ q_nonce i = q_nonce j /\ sha256hex (q_body i) = sha256hex (q_body j) /\ q_credential i = q_credential j)
  /\ (forall i j, startLines i -> startLines j -> canonicalBridgeRecoveryStart i = canonicalBridgeRecoveryStart j -> i = j)
  /\ (forall i j, recoveryLines i -> recoveryLines j -> canonicalBridgeRecovery i = canonicalBridgeRecovery j -> i = j)
  /\ (forall i j k, canonicalBridgeRequest i <> canonicalBridgeRecoveryStart j /\ canonicalBridgeRequest i <> canonicalBridgeRecovery k
        /\ canonicalBridgeRecoveryStart j <> canonicalBridgeRecovery k).
Proof.
  split_and!.
  - intros i j (I1 & I2 & I3 & I4) (J1 & J2 & J3 & J4) E. apply join_inj in E; [by injection E|done|lines|lines].
  - intros [] [] (I1 & I2 & I3 & I4) (J1 & J2 & J3 & J4) E. apply join_inj in E; [by injection E as -> -> -> -> ->|done|lines|lines].
  - intros [] [] (I1 & I2 & I3 & I4 & I5) (J1 & J2 & J3 & J4 & J5) E. apply join_inj in E; [by injection E as -> -> -> -> -> ->|done|lines|lines].
  - intros i j k. split_and!; [intros E; by apply request_text_start in E..|]. intros E. by vm_compute in E.
Qed.
End texts.

(** ** Examples *)

(** Signatures of 64 bytes that depend on the message. *)
Definition exampleSign (m : list Z) : list Z := map (fun i => (nth i m 0 mod 256)%Z) (seq 0 64).

Definition exampleCrypto : Crypto := {|
  asymmetricKeyType _ := Some (js "ed25519"); exportSpki k := k;
  verify m _ signature := bool_decide (signature = exampleSign m); sign m _ := exampleSign m;
  toUpperCase := map (fun c => if isLowerAZ c then c - 32 else c)%Z |}.

Lemma exampleCrypto_upper : upperCased (H := exampleCrypto).
Proof.
  intros s c Hc. apply list_elem_of_In, in_map_iff in Hc as (x & <- & _). unfold isLowerAZ. destruct ((97 <=? x) && (x <=? 122))%Z eqn:E; [|done].
  apply andb_false_iff. left. bools. apply Z.leb_gt. lia.
Qed.

(** Parses one origin. *)
Definition EXAMPLE_ORIGIN : jstr := js "https://a.example".
Definition exampleUrls : UrlParser := {|
  parseUrl s := if bool_decide (s = EXAMPLE_ORIGIN) then Some (URL (js "https:") [] [] (js "a.example") (js "/") [] [] EXAMPLE_ORIGIN) else None |}.

Definition exampleKey : jstr := PEM_HEAD ++ js "AAAA".

Lemma proof_texts_injective_witness :
  canonicalBridgeRequest (H := asciiPlatform) (H0 := exampleCrypto) (RequestProof (js "c") (js "post") (js "/v1") (js "0") (js "n") (js "{}"))
  <> canonicalBridgeRecoveryStart (RecoveryStart (js "credential.challenge") (js "s") (js "w") (js "0") (js "n")).
Proof.
  refine (proj1 (proj2 (proj2 (proj2 (proof_texts_injective (H := asciiPlatform) (H0 := exampleCrypto) exampleCrypto_upper _))) _ _
    (RecoveryProof [] [] [] [] [] []))).
  intros s Hs. vm_compute in Hs. repeat (apply elem_of_cons in Hs as [Hs|Hs]; [discriminate Hs|]). by apply not_elem_of_nil in Hs.
Defined.

Definition exampleToken : jstr := repeat 65%Z 43.
Definition exampleHash : jstr := repeat 48%Z 64.
(** A timestamp in the format of [plain_runtime]: 24 digits. *)
Definition exampleTime : jstr := js "100000000000000000000000".
Definition exampleContract : json := JObj
  [(js "operation", JStr (js "enrollment.redeem")); (js "serverId", JStr EXAMPLE_ORIGIN); (js "instance", JStr EXAMPLE_ORIGIN);
   (js "attemptId", JStr exampleToken); (js "requestHash", JStr exampleHash); (js "workerId", JStr (js "w")); (js "expiresAt", JStr exampleTime)].

Lemma redemption_text_injective_witness :
  let text := canonicalBrowserEnrollmentRedemption (H2 := exampleUrls) exampleContract in
  text <> None /\ forall u, canonicalBrowserSetupProof (H2 := exampleUrls) u <> text.
Proof.
  assert (exists t, canonicalBrowserEnrollmentRedemption (H2 := exampleUrls) exampleContract = Some t) as [t Ht].
  { eexists. vm_compute. reflexivity. }
  cbv zeta. rewrite Ht. split; [done|].
  refine (proj1 (proj2 (redemption_text_injective (H0 := asciiPlatform) (H1 := exampleCrypto) (H2 := exampleUrls) exampleCrypto_upper _ exampleContract exampleContract t Ht Ht))).
  intros s u. cbn [parseUrl exampleUrls]. case_bool_decide; [|done]. intros [= <-]. split; apply (bool_decide_unpack _); vm_compute; reflexivity.
Defined.
