(* ===== verification/Pairing.v ===== *)
(** * Pairing: keys and scripts

    The Redis keys and Lua scripts of service/src/bridge/pairing.ts: pairing codes,
    worker credentials, machine enrollment and its recovery, browser enrollment, and
    the claims of the legacy scan. The methods that call them are in PairingMethods. *)

From stdpp Require Import base list numbers option strings gmap.
From Stdlib Require Import ZArith Lia.
From S2P Require Import Prelude JsString Json Protocol Redis JsonText BridgeKeys BridgeAdmission BridgeSlots BridgeStore.

Definition DEFAULT_PAIRING_TTL_SECONDS : Z := (10 * 60)%Z.
Definition DEFAULT_CREDENTIAL_TTL_SECONDS : Z := (15 * 60)%Z.
Definition PROOF_NONCE_TTL_SECONDS : Z := (2 * 60)%Z.
Definition PROOF_CLOCK_SKEW_MS : Z := 60000%Z.
Definition DEFAULT_CHALLENGE_TTL_SECONDS : Z := 60%Z.
Definition DEFAULT_CHALLENGES_PER_MINUTE : Z := 12%Z.
Definition DEFAULT_RECOVERY_ATTEMPTS_PER_MINUTE : Z := 30%Z.
Definition DEFAULT_UNTRUSTED_RECOVERY_REQUESTS_PER_MINUTE : Z := 240%Z.
Definition RECOVERY_START_NONCE_TTL_SECONDS : Z := (3 * 60)%Z.
Definition LEGACY_SCAN_CLAIM_TTL_MS : Z := 5000%Z.
Definition LEGACY_SCAN_POLL_INTERVAL_MS : Z := 25%Z.
Definition LEGACY_SCAN_PENDING : jstr := js "pending".
Definition LEGACY_SCAN_COMPLETE : jstr := js "done".

(** ** Keys *)

Section keys.
Context `{Platform} `{Runtime}.

Definition pairingKey (code : jstr) : jstr := PREFIX ++ js ":pairing:" ++ sha256hex code.
Definition browserEnrollmentKey (instance attemptId : jstr) : jstr :=
  PREFIX ++ js ":browser-enrollment:" ++ sha256hex (stringify (JArr [JStr instance; JStr attemptId])).
Definition browserPeerKey (peer : jstr) : jstr := PREFIX ++ js ":browser-enrollment:peer:" ++ sha256hex peer.
Definition credentialDigestKey (credentialDigest : jstr) : jstr := PREFIX ++ js ":credential:" ++ credentialDigest.
Definition workerEnrollmentKey (workerId : jstr) : jstr := PREFIX ++ js ":enrollment:" ++ workerId.
Definition workerEnrollmentRequiredKey (workerId : jstr) : jstr := PREFIX ++ js ":enrollment-required:" ++ workerId.
Definition recoveryChallengeKey (challenge : jstr) : jstr := PREFIX ++ js ":recovery:challenge:" ++ sha256hex challenge.
Definition recoveryStartNonceKey (workerId nonce : jstr) : jstr :=
  PREFIX ++ js ":recovery:nonce:" ++ workerId ++ js ":" ++ sha256hex nonce.
Definition recoveryChallengeAttemptKey (challenge : jstr) : jstr := PREFIX ++ js ":recovery:attempt:" ++ sha256hex challenge.
Definition untrustedRecoveryRateKey (peer operation : jstr) : jstr :=
  PREFIX ++ js ":recovery:untrusted:" ++ operation ++ js ":" ++ sha256hex peer.
Definition recoveryRateKey (workerId enrollmentGeneration operation : jstr) : jstr :=
  PREFIX ++ js ":recovery:rate:" ++ operation ++ js ":" ++ workerId ++ js ":" ++ enrollmentGeneration.
Definition workerPairingIndexKey (workerId : jstr) : jstr := PREFIX ++ js ":pairing-index:" ++ workerId.
Definition legacyPairingScanDeadlineKey : jstr := PREFIX ++ js ":migration:legacy-pairing-scan-until".
Definition legacyPairingWorkerScanKey (workerId rollbackEpoch : jstr) : jstr :=
  let epoch := trim rollbackEpoch in
  PREFIX ++ js ":migration:legacy-pairing-scanned:" ++ workerId ++ (if isEmpty epoch then [] else js ":" ++ sha256hex epoch).
Definition proofNonceKey (credential nonce : jstr) : jstr :=
  PREFIX ++ js ":proof:" ++ sha256hex credential ++ js ":" ++ sha256hex nonce.
End keys.

(** The keys beside a browser enrollment's own. *)
Definition plannedKey (key : jstr) : jstr := key ++ js ":enrollment".
Definition fenceOf (key : jstr) : jstr := key ++ js ":fence".
Definition tombstoneKey (key : jstr) : jstr := key ++ js ":tombstone".
Definition resultKey (key : jstr) : jstr := key ++ js ":result".
Definition attemptsKey (key : jstr) : jstr := key ++ js ":attempts".

(** ** Scripts *)

Definition BROWSER_ENROLLMENT : jstr := js "browser-enrollment".

(** [redis.call('GET', k) or '0']. *)
Definition getOrZero (k : jstr) : prog jstr := v ← rd (GET k); Ret (default (js "0") v).

(** [SET] with an expiry when the seconds are positive. *)
Definition setFor (k v : jstr) (seconds : Z) : prog bool :=
  if (0 <? seconds)%Z then rd (SET k v (EX seconds) false) else rd (SET k v NOTTL false).

(** [INCR] in a window of a minute. *)
Definition countInMinute (k : jstr) : prog Z :=
  count ← rd (INCR k);
  (if (count =? 1)%Z then rd (PEXPIREAT k (EX 60)) else Ret tt);;
  Ret count.

(** Milliseconds left until [at], on the server's clock. *)
Definition remainingUntil (until : Z) : prog Z :=
  t ← rd TIME; Ret (until - (fst t * 1000 + snd t / 1000))%Z.

Definition issuePairingScript (w codeKey pairing : jstr) (ttl : Z) : prog Z :=
  previous ← rd (GET (workerPairingIndexKey w));
  match previous with Some p => rd (DEL [p]);; Ret tt | None => Ret tt end;;
  rd (SET (workerPairingIndexKey w) codeKey (EX ttl) false);;
  rd (SET codeKey pairing (EX ttl) false);;
  Ret 1%Z.

(** The arguments of a redemption, as texts. *)
Record Redemption := RedemptionArgs {
  x_raw : jstr; x_generation : jstr; x_stored : jstr; x_ttl : Z; x_digest : jstr; x_identityId : jstr;
  x_enrollment : jstr; x_enrollmentTtl : Z; x_pairingGeneration : jstr; x_enrollmentGeneration : jstr;
}.

Definition redeemPairingScript (w codeKey : jstr) (x : Redemption) : prog Z :=
  pairing ← rd (GET codeKey);
  if neqStr pairing (x_raw x) then Ret 0%Z else
  generation ← rd (GET (pairingGenerationKey w));
  refused ← (if isEmpty (x_generation x) then
               match generation with
               | Some _ => index ← rd (GET (workerPairingIndexKey w)); Ret (neqStr index codeKey)
               | None => Ret false
               end
             else Ret (negb (bool_decide (default (js "0") generation = x_generation x))));
  if (refused : bool) then rd (DEL [codeKey]);; Ret 0%Z else
  if negb (isEmpty (x_enrollment x)) && negb (bool_decide (default (js "0") generation = x_pairingGeneration x)) then Ret 0%Z else
  rd (DEL [codeKey]);;
  index ← rd (GET (workerPairingIndexKey w));
  (if bool_decide (index = Some codeKey) then rd (DEL [workerPairingIndexKey w]);; Ret tt else Ret tt);;
  rd (SET (credentialDigestKey (x_digest x)) (x_stored x) (EX (x_ttl x)) false);;
  rd (SET (identityKey w) (x_digest x) (EX (x_ttl x)) false);;
  rd (SET (workerStableIdentityKey w) (x_identityId x) (EX (x_ttl x)) false);;
  (if negb (isEmpty (x_enrollment x)) then
     setFor (workerEnrollmentKey w) (x_enrollment x) (x_enrollmentTtl x);;
     rd (SET (workerEnrollmentRequiredKey w) (x_enrollmentGeneration x) NOTTL false);; Ret tt
   else rd (DEL [workerEnrollmentKey w; workerEnrollmentRequiredKey w]);; Ret tt);;
  Ret 1%Z.

(** What a worker registered for: its bridge registration. *)
Definition registrationKeys (w : jstr) : list jstr := [workerKey w; workerIncarnationKey w; workerRegistrationGenerationKey w].

Definition issueBrowserEnrollmentScript (key w approval enrollment : jstr) (until maxTtl : Z) (mark : jstr) : prog Z :=
  remaining ← remainingUntil until;
  if (remaining <=? 0)%Z || (maxTtl <? remaining)%Z then Ret 0%Z else
  generation ← getOrZero (pairingGenerationKey w);
  if negb (bool_decide (generation = js "0")) then Ret 0%Z else
  saved ← rd (GET key);
  tombstone ← rd (GET (tombstoneKey key));
  if match tombstone with Some t => bool_decide (saved = None) || negb (bool_decide (t = mark)) | None => false end then Ret 0%Z else
  match saved with
  | Some s =>
      current ← andAlso (bool_decide (s = approval))
        (index ← rd (GET (workerPairingIndexKey w)); fence ← rd (GET (fenceOf key));
         Ret (bool_decide (index = Some (fenceOf key)) && bool_decide (fence = Some BROWSER_ENROLLMENT)));
      if negb current then Ret 0%Z else
      enrolled ← rd (GET (workerEnrollmentKey w));
      clash ← match enrolled with
              | Some e => planned ← rd (GET (plannedKey key)); Ret (negb (bool_decide (planned = Some e)))
              | None => anyExists ([identityKey w; workerStableIdentityKey w; workerEnrollmentRequiredKey w] ++ registrationKeys w)
              end;
      if (clash : bool) then Ret 0%Z else
      rd (SET (pairingGenerationKey w) (js "0") NOTTL true);;
      Ret 1%Z
  | None =>
      clash ← anyExists ([workerPairingIndexKey w; identityKey w; workerStableIdentityKey w; workerEnrollmentKey w;
                          workerEnrollmentRequiredKey w] ++ registrationKeys w);
      if (clash : bool) then Ret 0%Z else
      rd (SET (pairingGenerationKey w) (js "0") NOTTL true);;
      rd (SET (tombstoneKey key) mark NOTTL false);;
      rd (SET key approval (PX remaining) false);;
      rd (SET (plannedKey key) enrollment (PX remaining) false);;
      rd (SET (fenceOf key) BROWSER_ENROLLMENT (PX remaining) false);;
      rd (SET (workerPairingIndexKey w) (fenceOf key) (PX remaining) false);;
      Ret 1%Z
  end.

Record BrowserRedemption := BrowserRedemptionArgs {
  y_approval : jstr; y_enrollment : jstr; y_until : Z; y_stored : jstr; y_ttl : Z; y_digest : jstr; y_identityId : jstr;
  y_enrollmentTtl : Z; y_enrollmentGeneration : jstr; y_result : jstr; y_fresh : bool;
}.

Definition redeemBrowserEnrollmentScript (key w : jstr) (y : BrowserRedemption) : prog (option jstr) :=
  remaining ← remainingUntil (y_until y);
  approval ← rd (GET key);
  enrollment ← rd (GET (plannedKey key));
  fence ← rd (GET (fenceOf key));
  index ← rd (GET (workerPairingIndexKey w));
  generation ← getOrZero (pairingGenerationKey w);
  if neqStr approval (y_approval y) || neqStr enrollment (y_enrollment y) || neqStr fence BROWSER_ENROLLMENT
     || neqStr index (fenceOf key) || negb (bool_decide (generation = js "0")) then Ret None else
  replay ← rd (GET (resultKey key));
  match replay with
  | Some result =>
      enrolled ← rd (GET (workerEnrollmentKey w));
      required ← rd (GET (workerEnrollmentRequiredKey w));
      Ret (if neqStr enrolled (y_enrollment y) || neqStr required (y_enrollmentGeneration y) then None else Some result)
  | None =>
      if (remaining <=? 0)%Z || negb (y_fresh y) then Ret None else
      clash ← anyExists ([identityKey w; workerStableIdentityKey w; workerEnrollmentKey w; workerEnrollmentRequiredKey w] ++ registrationKeys w);
      if (clash : bool) then Ret None else
      rd (SET (credentialDigestKey (y_digest y)) (y_stored y) (EX (y_ttl y)) false);;
      rd (SET (identityKey w) (y_digest y) (EX (y_ttl y)) false);;
      rd (SET (workerStableIdentityKey w) (y_identityId y) (EX (y_ttl y)) false);;
      setFor (workerEnrollmentKey w) (y_enrollment y) (y_enrollmentTtl y);;
      rd (SET (workerEnrollmentRequiredKey w) (y_enrollmentGeneration y) NOTTL false);;
      rd (SET (resultKey key) (y_result y) (EX (y_ttl y)) false);;
      rd (PEXPIREAT key (EX (y_ttl y)));;
      rd (PEXPIREAT (plannedKey key) (EX (y_ttl y)));;
      rd (PEXPIREAT (fenceOf key) (EX (y_ttl y)));;
      rd (PEXPIREAT (workerPairingIndexKey w) (EX (y_ttl y)));;
      Ret (Some (y_result y))
  end.

Record Rotation := RotationArgs {
  z_previous : jstr; z_digest : jstr; z_stored : jstr; z_ttl : Z; z_identityId : jstr;
  z_enrollment : jstr; z_pairingGeneration : jstr; z_enrollmentGeneration : jstr;
}.

Definition rotateCredentialScript (w : jstr) (z : Rotation) : prog Z :=
  blocked ← (if negb (isEmpty (z_enrollment z)) then
               enrollment ← rd (GET (workerEnrollmentKey w));
               generation ← getOrZero (pairingGenerationKey w);
               required ← rd (GET (workerEnrollmentRequiredKey w));
               Ret (neqStr enrollment (z_enrollment z) || negb (bool_decide (generation = z_pairingGeneration z))
                    || neqStr required (z_enrollmentGeneration z))
             else rd (EXISTS (workerEnrollmentRequiredKey w)));
  if (blocked : bool) then Ret 0%Z else
  activeDigest ← rd (GET (identityKey w));
  previous ← rd (GET (credentialDigestKey (z_previous z)));
  match activeDigest, previous with
  | Some active, Some _ =>
      lost ← (if bool_decide (active = z_previous z) then Ret false
              else if isEmpty (z_identityId z) then Ret true
              else stable ← rd (GET (workerStableIdentityKey w)); Ret (neqStr stable (z_identityId z)));
      if (lost : bool) then Ret 0%Z else
      rd (SET (credentialDigestKey (z_digest z)) (z_stored z) (EX (z_ttl z)) false);;
      rd (SET (identityKey w) (z_digest z) (EX (z_ttl z)) false);;
      (if negb (isEmpty (z_identityId z))
       then rd (SET (workerStableIdentityKey w) (z_identityId z) (EX (z_ttl z)) false);; Ret tt
       else rd (DEL [workerStableIdentityKey w]);; Ret tt);;
      Ret 1%Z
  | _, _ => Ret 0%Z
  end.

Definition revokePairingScript (w : jstr) : prog Z :=
  indexed ← rd (GET (workerPairingIndexKey w));
  credential ← rd (GET (identityKey w));
  activeIncarnation ← rd (GET (workerIncarnationKey w));
  rd (INCR (pairingGenerationKey w));;
  match indexed with Some k => rd (DEL [k]);; Ret tt | None => Ret tt end;;
  match credential with
  | Some c => rd (DEL [identityKey w]);; rd (DEL [credentialDigestKey c]);; Ret tt
  | None => Ret tt
  end;;
  rd (DEL [workerPairingIndexKey w; identityKey w; workerStableIdentityKey w; workerKey w; workerIncarnationKey w;
           workerReadyKey w; workerEnrollmentKey w]);;
  match activeIncarnation with
  | Some i => rd (SET (incarnationFenceKey w i) (js "1") NOTTL false);; Ret tt
  | None => Ret tt
  end;;
  Ret 1%Z.

(** What both recovery scripts compare the enrollment with. *)
Definition enrollmentIs (w enrollment pairingGeneration enrollmentGeneration : jstr) : prog bool :=
  e ← rd (GET (workerEnrollmentKey w));
  generation ← getOrZero (pairingGenerationKey w);
  required ← rd (GET (workerEnrollmentRequiredKey w));
  Ret (negb (neqStr e enrollment) && bool_decide (generation = pairingGeneration) && negb (neqStr required enrollmentGeneration)).

Section recovery.
Context `{Platform}.

Definition createRecoveryChallengeScript (w nonce challenge enrollment : jstr) (perMinute : Z) (challengeText pairingGeneration : jstr)
    (challengeTtl : Z) (enrollmentGeneration : jstr) (nonceTtl : Z) : prog Z :=
  mine ← enrollmentIs w enrollment pairingGeneration enrollmentGeneration;
  if negb mine then Ret 0%Z else
  used ← rd (EXISTS (recoveryStartNonceKey w nonce));
  if (used : bool) then Ret (-2)%Z else
  count ← countInMinute (recoveryRateKey w enrollmentGeneration (js "start"));
  if (perMinute <? count)%Z then Ret (-1)%Z else
  created ← rd (SET (recoveryChallengeKey challenge) challengeText (EX challengeTtl) true);
  if negb created then Ret 0%Z else
  rd (SET (recoveryStartNonceKey w nonce) (js "1") (EX nonceTtl) false);;
  Ret 1%Z.

Record Completion := CompletionArgs {
  k_enrollment : jstr; k_challenge : jstr; k_pairingGeneration : jstr; k_identityId : jstr; k_stored : jstr; k_ttl : Z;
  k_digest : jstr; k_enrollmentGeneration : jstr; k_perMinute : Z;
}.

Definition completeRecoveryChallengeScript (w challenge : jstr) (k : Completion) : prog Z :=
  mine ← enrollmentIs w (k_enrollment k) (k_pairingGeneration k) (k_enrollmentGeneration k);
  saved ← rd (GET (recoveryChallengeKey challenge));
  if negb mine || neqStr saved (k_challenge k) then Ret 0%Z else
  stable ← rd (GET (workerStableIdentityKey w));
  if match stable with Some i => negb (bool_decide (i = k_identityId k)) | None => false end then Ret 0%Z else
  count ← countInMinute (recoveryRateKey w (k_enrollmentGeneration k) (js "complete"));
  if (k_perMinute k <? count)%Z then Ret (-1)%Z else
  rd (DEL [recoveryChallengeKey challenge]);;
  rd (SET (credentialDigestKey (k_digest k)) (k_stored k) (EX (k_ttl k)) false);;
  rd (SET (identityKey w) (k_digest k) (EX (k_ttl k)) false);;
  rd (SET (workerStableIdentityKey w) (k_identityId k) (EX (k_ttl k)) false);;
  Ret 1%Z.
End recovery.

Definition limitRecoveryAttemptsScript (key : jstr) (limit : Z) : prog Z :=
  count ← countInMinute key;
  Ret (if (limit <? count)%Z then 0%Z else 1%Z).

Definition releaseLegacyScanClaimScript (key token : jstr) : prog Z :=
  mine ← getIs key token; if (mine : bool) then rd (DEL [key]) else Ret 0%Z.

Definition normalizeLegacyScanStateScript (key state : jstr) : prog Z :=
  same ← getIs key state;
  if (same : bool) then rd (SET key LEGACY_SCAN_PENDING NOTTL false);; Ret 1%Z else Ret 0%Z.

Definition renewLegacyScanClaimScript (key token : jstr) (ttlMs : Z) : prog Z :=
  mine ← getIs key token;
  if (mine : bool) then rd (PEXPIREAT key (PX ttlMs));; Ret 1%Z else Ret 0%Z.

Definition completeLegacyScanClaimScript (stateKey claimKey token : jstr) (remaining : Z) (durable : bool) : prog Z :=
  mine ← getIs claimKey token;
  if negb mine then Ret 0%Z else
  (if durable then rd (SET stateKey LEGACY_SCAN_COMPLETE NOTTL false);; Ret tt
   else if (0 <? remaining)%Z then rd (SET stateKey LEGACY_SCAN_COMPLETE (PX remaining) false);; Ret tt
   else rd (DEL [stateKey]);; Ret tt);;
  rd (DEL [claimKey]);;
  Ret 1%Z.
