(* ===== verification/PairingMethods.v ===== *)
(** * Pairing: methods

    Models [RedisBridgePairingStore] (service/src/bridge/pairing.ts): what each
    method reads, decides, sends and throws. Stored pairings, credentials and
    enrollments are the JSON objects the code handles. AES-GCM is the parameter
    [ReplayCipher]. [MGET] is its reads in one script. The timer that renews the claim
    of a legacy scan is another client of the server, whose failure the checks of
    [renewalError] may see. *)

From stdpp Require Import base list numbers option strings gmap.
From Stdlib Require Import ZArith Lia.
From S2P Require Import Prelude JsString Json Protocol Redis JsonText BridgeKeys BridgeAdmission BridgeSlots BridgeStore Async BridgeRouting BridgeMethods EnrollmentProtocol Pairing.

(** Encryption under a key, an initialisation vector and associated data. *)
Class ReplayCipher := {
  encryptText : jstr -> jstr -> jstr -> jstr -> jstr;   (* key, iv, associated data, text *)
  decryptText : jstr -> jstr -> jstr -> option jstr;    (* key, associated data, ciphertext *)
  decrypt_encrypt key iv aad text : decryptText key aad (encryptText key iv aad text) = Some text;
}.

Record BridgeRecoveryOptions := RecoveryOptions {
  serverId : jstr; enrollmentTtlSeconds : option Z; challengeTtlSeconds : option Z; maxChallengesPerMinute : option Z;
  maxAttemptsPerMinute : option Z; maxUntrustedRequestsPerMinute : option Z;
}.

Record pairingConfig := PairingConfig {
  pairingTtlSeconds : Z; credentialTtlSeconds : Z; legacyScanClaimTtlMs : Z; rollbackEpoch : jstr;
  recovery : option BridgeRecoveryOptions;
}.

Definition challengeTtl (o : BridgeRecoveryOptions) : Z := default DEFAULT_CHALLENGE_TTL_SECONDS (challengeTtlSeconds o).
Definition challengesPerMinute (o : BridgeRecoveryOptions) : Z := default DEFAULT_CHALLENGES_PER_MINUTE (maxChallengesPerMinute o).
Definition attemptsPerMinute (o : BridgeRecoveryOptions) : Z := default DEFAULT_RECOVERY_ATTEMPTS_PER_MINUTE (maxAttemptsPerMinute o).
Definition untrustedPerMinute (o : BridgeRecoveryOptions) : Z :=
  default DEFAULT_UNTRUSTED_RECOVERY_REQUESTS_PER_MINUTE (maxUntrustedRequestsPerMinute o).
Definition enrollmentTtl (o : option BridgeRecoveryOptions) : Z := default 0%Z (o ≫= enrollmentTtlSeconds).

(** The constructor's checks. *)
Definition validRecovery `{UrlParser} (o : BridgeRecoveryOptions) : bool :=
  match parseUrl (serverId o) with
  | None => false
  | Some u =>
      bool_decide (protocol u = js "https:") && isEmpty (username u) && isEmpty (password u)
      && bool_decide (pathname u = js "/") && isEmpty (search u) && isEmpty (hash u) && bool_decide (origin u = serverId o)
  end
  && forallb (fun vm => safeIntIn (Some (JInt (fst vm))) 0 (snd vm))
       [(enrollmentTtl (Some o), 10 * 365 * 24 * 3600); (challengeTtl o, 300); (challengesPerMinute o, 120);
        (attemptsPerMinute o, 120); (untrustedPerMinute o, 1200)]%Z
  && negb (challengeTtl o =? 0)%Z && negb (challengesPerMinute o =? 0)%Z && negb (attemptsPerMinute o =? 0)%Z
  && negb (untrustedPerMinute o =? 0)%Z.

Definition pairingError {A} (c : BridgePairingErrorCode) : act A := Throw (PairingError c).
Definition pairingErrorIf (bad : bool) (c : BridgePairingErrorCode) : act unit := throwIf bad (PairingError c).

(** ** Values *)

(** [v == null]. *)
Definition nullish (v : option json) : bool := match v with None | Some JNull => true | _ => false end.

(** [a === b]; two objects are never the same one. *)
Definition strictEq (a b : option json) : bool :=
  match a, b with
  | None, None | Some JNull, Some JNull => true
  | Some (JBool x), Some (JBool y) => Bool.eqb x y
  | Some (JInt x), Some (JInt y) => (x =? y)%Z
  | Some (JStr x), Some (JStr y) => bool_decide (x = y)
  | _, _ => false
  end.

(** The named properties that are present, in this order. *)
Definition pick (r : Json.record) (names : list string) : Json.record :=
  omap (fun n => pair (js n) <$> field r (js n)) names.

(** [/^[A-Za-z0-9_-]{n}$/]. *)
Definition isBase64urlText (n : nat) (s : jstr) : bool := (length s =? n) && forallb isBase64urlChar s.

Record BridgeWorkerCredential := WorkerCredential { wc_workerId : jstr; wc_credential : jstr; wc_expiresAt : jstr }.

Definition credentialFields (c : BridgeWorkerCredential) : Json.record :=
  [(js "workerId", JStr (wc_workerId c)); (js "credential", JStr (wc_credential c)); (js "expiresAt", JStr (wc_expiresAt c))].

Record BridgePairing := NewPairing { np_workerId : jstr; np_code : jstr; np_expiresAt : jstr }.

(** The reads of an [MGET]. *)
Fixpoint mget (keys : list jstr) : prog (list (option jstr)) :=
  match keys with
  | [] => Ret []
  | k :: keys' => v ← rd (GET k); vs ← mget keys'; Ret (v :: vs)
  end.

Section methods.
Context `{Platform} `{Runtime} `{Crypto} `{UrlParser} `{ReplayCipher} (cfg : pairingConfig).

(** [JSON.parse(raw)] whose properties are read: [null] has none. *)
Definition parseProps (raw : jstr) : act Json.record :=
  match parse raw with
  | None | Some JNull => Throw OtherError
  | Some v => Done (default [] (asRecord v))
  end.

(** A stored object, or [{}]. *)
Definition storedObject (raw : option jstr) : Json.record :=
  match raw ≫= parse with Some (JObj r) => r | _ => [] end.

(** [String(v)] of the number or text a generation is. *)
Definition textOf (v : json) : jstr := match v with JInt n => dec n | JStr s => s | _ => stringify v end.

(** [Number(text ?? '0')] of a counter. *)
Definition counterOf (text : option jstr) : act Z := needValue (tonumber (default (js "0") text)).

Definition validEd25519PublicKey (publicKey : jstr) : bool := bool_decide (asymmetricKeyType publicKey = Some (js "ed25519")).

Definition isoAfter (seconds : Z) : act jstr := clock ← now_; Done (toISOString (clock + seconds * 1000)%Z).

Definition recoveryOr (c : BridgePairingErrorCode) : act BridgeRecoveryOptions :=
  match recovery cfg with Some o => Done o | None => pairingError c end.

(** One attempt within the limit of a minute. *)
Definition limited (key : jstr) (limit : Z) : act unit :=
  allowed ← await (limitRecoveryAttemptsScript key limit);
  pairingErrorIf (negb (allowed =? 1)%Z) RECOVERY_RATE_LIMITED.

Definition limitBrowserEnrollmentPeer (peer : jstr) : act unit :=
  o ← recoveryOr ENROLLMENT_INVALID; limited (browserPeerKey peer) (untrustedPerMinute o).

Definition limitUntrustedRecovery (peer operation : jstr) : act unit :=
  o ← recoveryOr ENROLLMENT_INVALID; limited (untrustedRecoveryRateKey peer operation) (untrustedPerMinute o).

(** ** Enrollment checks *)

(** [None] throws [ENROLLMENT_INVALID]. *)
Definition checkedEnrollment (w : jstr) (raw pairingGeneration requiredGeneration : option jstr) : option Json.record :=
  let e := storedObject raw in
  match recovery cfg with
  | None => None
  | Some o =>
      if eqStr (field e (js "workerId")) w && eqStr (field e (js "serverId")) (serverId o)
         && strTest (field e (js "identityId")) (isBase64urlText 24)
         && strTest (field e (js "generation")) (isBase64urlText 24)
         && strTest (field e (js "generation")) (fun g => bool_decide (requiredGeneration = Some g))
         && strTest (field e (js "publicKey")) validEd25519PublicKey
         && isSafeInteger (field e (js "pairingGeneration"))
         && match field e (js "pairingGeneration") with
            | Some v => bool_decide (textOf v = default (js "0") pairingGeneration) | None => false end
      then Some e else None
  end.

Definition orInvalid {A} (v : option A) : act A := match v with Some a => Done a | None => pairingError ENROLLMENT_INVALID end.

(** [JSON.stringify(r.binding ?? null)]. *)
Definition bindingText (r : Json.record) : jstr :=
  stringify (match field r (js "binding") with Some v => v | None => JNull end).

Definition checkEnrolledCredential (credential enrollment : Json.record) : bool :=
  strictEq (field credential (js "workerId")) (field enrollment (js "workerId"))
  && strictEq (field credential (js "identityId")) (field enrollment (js "identityId"))
  && strictEq (field credential (js "publicKey")) (field enrollment (js "publicKey"))
  && strictEq (field credential (js "enrollmentGeneration")) (field enrollment (js "generation"))
  && bool_decide (bindingText credential = bindingText enrollment).

(** The check of a credential that may be backed by an enrollment; the enrollment. *)
Definition enrolledAs (w : jstr) (credential : Json.record) (raw pairingGeneration requiredGeneration : option jstr) :
    act (option Json.record) :=
  if negb (nullish (field credential (js "enrollmentGeneration"))) || bool_decide (is_Some requiredGeneration) || bool_decide (is_Some raw) then
    e ← orInvalid (checkedEnrollment w raw pairingGeneration requiredGeneration);
    pairingErrorIf (negb (checkEnrolledCredential credential e)) CREDENTIAL_INVALID;;
    Done (Some e)
  else Done None.

(** A property of an enrollment that was checked to be a text. *)
Definition textField (r : Json.record) (k : string) : jstr := default [] (strField r k).

(** ** Stored records *)

Definition optField (k : string) (v : option json) : Json.record := match v with Some x => [(js k, x)] | None => [] end.

Definition pairingFields (w expiresAt : jstr) (generation : Z) (binding : option json) : Json.record :=
  [(js "workerId", JStr w); (js "expiresAt", JStr expiresAt); (js "generation", JInt generation)] ++ optField "binding" binding.

Definition storedCredential (w : jstr) (identityId publicKey : option json) (expiresAt : jstr)
    (binding enrollmentGeneration : option json) : Json.record :=
  [(js "workerId", JStr w)] ++ optField "identityId" identityId ++ optField "publicKey" publicKey
  ++ [(js "expiresAt", JStr expiresAt)] ++ optField "binding" binding ++ optField "enrollmentGeneration" enrollmentGeneration.

Definition storedEnrollment (w server identityId generation : jstr) (pairingGeneration : json)
    (browserEnrollment : option json) (publicKey : jstr) (binding : option json) : Json.record :=
  [(js "workerId", JStr w); (js "serverId", JStr server); (js "identityId", JStr identityId); (js "generation", JStr generation);
   (js "pairingGeneration", pairingGeneration)] ++ optField "browserEnrollment" browserEnrollment
  ++ [(js "publicKey", JStr publicKey)] ++ optField "binding" binding.

(** ** The legacy scan *)

(** The keys of a batch whose records belong to the worker and carry no generation. *)
Definition legacyMatches (w : jstr) (keys : list jstr) (values : list (option jstr)) : list jstr :=
  omap (fun kv => match snd kv ≫= parse with
                  | Some v => let r := default [] (asRecord v) in
                      if negb (nullish (Some v)) && eqStr (field r (js "workerId")) w && nullish (field r (js "generation"))
                      then Some (fst kv) else None
                  | None => None end) (zip keys values).

(** The indexed record was written by a build without generations. *)
Definition lacksGeneration (raw : option jstr) : bool :=
  match raw ≫= parse with Some JNull | None => false | Some v => nullish (field (default [] (asRecord v)) (js "generation")) end.

(** [if (renewalError != null) throw renewalError]. *)
Definition checkRenewal : act unit := lost ← aborted; throwIf lost OtherError.

Definition renewClaim (claimKey token : jstr) : act unit :=
  renewed ← await (renewLegacyScanClaimScript claimKey token (Z.max 1 (legacyScanClaimTtlMs cfg)));
  throwIf (negb (renewed =? 1)%Z) OtherError.

Definition scanDeadline : act (option Z) :=
  now ← now_;
  raw ← await (rd (GET legacyPairingScanDeadlineKey));
  let proposed := (now + pairingTtlSeconds cfg * 1000)%Z in
  match raw with
  | None =>
      initialized ← await (rd (SET legacyPairingScanDeadlineKey (dec proposed) NOTTL true));
      if (initialized : bool) then Done (Some proposed) else
      raw ← await (rd (GET legacyPairingScanDeadlineKey));
      Done (match raw with None => Some 0%Z | Some t => tonumber t end)
  | Some t =>
      left ← await (rd (PTTL legacyPairingScanDeadlineKey));
      (if (0 <? left)%Z then await (rd (PERSIST legacyPairingScanDeadlineKey)) else Done tt);;
      Done (tonumber t)
  end.

(** Is a scan needed? *)
Definition scanPending (stateKey : jstr) (rollbackDetected rollbackEpochDetected : bool) (deadline : option Z) : act bool :=
  Loop tt (fun _ =>
    state ← await (rd (GET stateKey));
    if bool_decide (state = Some LEGACY_SCAN_COMPLETE) && negb rollbackDetected then Done (inr false)
    else if bool_decide (state = Some LEGACY_SCAN_PENDING) then Done (inr true)
    else match state with
         | None =>
             over ← (if rollbackDetected || rollbackEpochDetected then Done false
                     else match deadline with None => Done true | Some d => clock ← now_; Done (d <? clock)%Z end);
             if (over : bool) then Done (inr false) else
             initialized ← await (rd (SET stateKey LEGACY_SCAN_PENDING NOTTL true));
             Done (if (initialized : bool) then inr true else inl tt)
         | Some s =>
             normalized ← await (normalizeLegacyScanStateScript stateKey s);
             Done (if (normalized =? 1)%Z then inr true else inl tt)
         end) Done.

(** The token of the scan's claim, unless the scan is over. *)
Definition claimScan (stateKey claimKey : jstr) : act (option jstr) :=
  Loop tt (fun _ =>
    state ← await (rd (GET stateKey));
    if bool_decide (state = Some LEGACY_SCAN_COMPLETE) || bool_decide (state = None) then Done (inr None) else
    nonce ← randomBytes 24;
    let token := js "claim:" ++ nonce in
    claimed ← await (rd (SET claimKey token (PX (Z.max 1 (legacyScanClaimTtlMs cfg))) true));
    if (claimed : bool) then Done (inr (Some token)) else
    delay LEGACY_SCAN_POLL_INTERVAL_MS;; Done (inl tt)) Done.

Definition scanBatches (w : jstr) : act unit :=
  Loop (js "0") (fun cursor =>
    batch ← scan cursor (PREFIX ++ js ":pairing:");
    checkRenewal;;
    match snd batch with
    | [] => Done tt
    | keys =>
        values ← await (mget keys);
        match legacyMatches w keys values with [] => Done tt | matching => await (rd (DEL matching));; Done tt end
    end;;
    Done (if bool_decide (fst batch = js "0") then inr tt else inl (fst batch))) Done.

(** The claims of the calls that wait for this one are released when it throws. *)
Fixpoint releaseAll {A} (claimKey : jstr) (tokens : list jstr) (e : error) : act A :=
  match tokens with
  | [] => Throw e
  | t :: tokens' =>
      r ← try (await (releaseLegacyScanClaimScript claimKey t));
      releaseAll claimKey tokens' (match r with inl e' => e' | inr _ => e end)
  end.

(** Up to the claim: the deadline and the token, or nothing when no scan is needed. *)
Definition prepareScan (w stateKey claimKey : jstr) (rollbackEpochDetected : bool) : act (option (option Z * jstr)) :=
  deadline ← scanDeadline;
  indexedKey ← await (rd (GET (workerPairingIndexKey w)));
  indexedRaw ← match indexedKey with None => Done None | Some k => await (rd (GET k)) end;
  pending ← scanPending stateKey (lacksGeneration indexedRaw) rollbackEpochDetected deadline;
  if negb pending then Done None else
  token ← claimScan stateKey claimKey;
  Done (match token with Some t => Some (deadline, t) | None => None end).

(** The [try] block under the claim. *)
Definition scanClaimed (w stateKey claimKey token : jstr) (deadline : option Z) (rollbackEpochDetected : bool) : act Z :=
  scanBatches w;;
  checkRenewal;;
  renewClaim claimKey token;;
  clock ← now_;
  await (completeLegacyScanClaimScript stateKey claimKey token
           (match deadline with Some d => (d - clock)%Z | None => 0%Z end) rollbackEpochDetected).

Definition removeLegacyPairings (w : jstr) : act unit :=
  let stateKey := legacyPairingWorkerScanKey w (rollbackEpoch cfg) in
  let claimKey := stateKey ++ js ":claim" in
  let rollbackEpochDetected := negb (isEmpty (trim (rollbackEpoch cfg))) in
  Loop ([] : list jstr) (fun outer =>
    prepared ← try (prepareScan w stateKey claimKey rollbackEpochDetected);
    match prepared with
    | inl e => releaseAll claimKey outer e
    | inr None => Done (inr tt)
    | inr (Some (deadline, token)) =>
        completed ← try (scanClaimed w stateKey claimKey token deadline rollbackEpochDetected);
        match completed with
        | inl e => releaseAll claimKey (token :: outer) e
        | inr n => Done (if (n =? 1)%Z then inr tt else inl (token :: outer))
        end
    end) Done.

(** ** Pairing codes *)

Definition issue (w : jstr) (binding : option json) : act BridgePairing :=
  removeLegacyPairings w;;
  code ← randomBytes 24;
  expiresAt ← isoAfter (pairingTtlSeconds cfg);
  generation ← await (rd (GET (pairingGenerationKey w)));
  generation ← counterOf generation;
  await (issuePairingScript w (pairingKey code) (stringify (JObj (pairingFields w expiresAt generation binding))) (pairingTtlSeconds cfg));;
  Done (NewPairing w code expiresAt).

Definition redeem (w code publicKey : jstr) : act BridgeWorkerCredential :=
  let codeKey := pairingKey code in
  raw ← await (rd (GET codeKey));
  raw ← match raw with Some t => Done t | None => pairingError PAIRING_INVALID end;
  pairing ← parseProps raw;
  (if negb (eqStr (field pairing (js "workerId")) w) then await (rd (DEL [codeKey]));; pairingError PAIRING_INVALID else Done tt);;
  pairingErrorIf (negb (validEd25519PublicKey publicKey)) PUBLIC_KEY_INVALID;;
  let generation := field pairing (js "generation") in
  (if nullish generation && negb (isEmpty (trim (rollbackEpoch cfg)))
   then removeLegacyPairings w;; pairingError PAIRING_INVALID else Done tt);;
  credential ← randomBytes 32;
  expiresAt ← isoAfter (credentialTtlSeconds cfg);
  identityId ← randomBytes 18;
  pairingGeneration ← (if nullish generation
                       then text ← await (rd (GET (pairingGenerationKey w))); n ← counterOf text; Done (JInt n)
                       else Done (default JNull generation));
  enrollmentGeneration ← match recovery cfg with None => Done None | Some _ => g ← randomBytes 18; Done (Some g) end;
  let binding := field pairing (js "binding") in
  let enrollment := match recovery cfg, enrollmentGeneration with
                    | Some o, Some g => stringify (JObj (storedEnrollment w (serverId o) identityId g pairingGeneration None publicKey binding))
                    | _, _ => [] end in
  let stored := storedCredential w (Some (JStr identityId)) (Some (JStr publicKey)) expiresAt binding (JStr <$> enrollmentGeneration) in
  accepted ← await (redeemPairingScript w codeKey
    (RedemptionArgs raw (if nullish generation then [] else textOf (default JNull generation)) (stringify (JObj stored))
       (credentialTtlSeconds cfg) (sha256hex credential) identityId enrollment (enrollmentTtl (recovery cfg)) (textOf pairingGeneration)
       (default [] enrollmentGeneration)));
  pairingErrorIf (negb (accepted =? 1)%Z) PAIRING_INVALID;;
  Done (WorkerCredential w credential expiresAt).

Definition revoke (w : jstr) : act unit :=
  removeLegacyPairings w;; await (revokePairingScript w);; Done tt.

(** ** Credentials *)

Record Authorization := Authorized {
  au_workerId : jstr; au_credentialId : jstr; au_activeCredentialId : jstr; au_identityId : option json;
  au_pairingGeneration : Z; au_binding : option json;
}.

(** A value that is not falsy. *)
Definition truthy (v : json) : bool :=
  match v with JNull | JBool false | JInt 0 | JStr [] => false | _ => true end.

(** The identities of the two credentials agree. *)
Definition sameIdentity (stored active : Json.record) : bool :=
  negb (nullish (field stored (js "identityId"))) && negb (nullish (field active (js "identityId")))
  && strictEq (field stored (js "identityId")) (field active (js "identityId")).

Definition readCredential (w credentialDigest : jstr) : prog (option jstr * option jstr * option jstr * option jstr * option jstr) :=
  raw ← rd (GET (credentialDigestKey credentialDigest));
  activeDigest ← rd (GET (identityKey w));
  pairingGeneration ← rd (GET (pairingGenerationKey w));
  enrollmentRaw ← rd (GET (workerEnrollmentKey w));
  requiredGeneration ← rd (GET (workerEnrollmentRequiredKey w));
  Ret (raw, activeDigest, pairingGeneration, enrollmentRaw, requiredGeneration).

Definition inClockWindow (timestamp : jstr) : act bool :=
  match parseDate timestamp with
  | None => Done false
  | Some t => clock ← now_; Done (Z.abs (clock - t) <=? PROOF_CLOCK_SKEW_MS)%Z
  end.

Definition authorize (w : jstr) (args : BridgeRequestProofInput) (signature : jstr) : act Authorization :=
  timely ← inClockWindow (q_timestamp args);
  pairingErrorIf (negb timely) PROOF_INVALID;;
  let credentialDigest := sha256hex (q_credential args) in
  reads ← await (readCredential w credentialDigest);
  match reads with
  | (Some raw, Some activeDigest, pairingGeneration, enrollmentRaw, requiredGeneration) =>
      stored ← parseProps raw;
      enrolledAs w stored enrollmentRaw pairingGeneration requiredGeneration;;
      (if bool_decide (activeDigest = credentialDigest) then Done tt else
         activeRaw ← await (rd (GET (credentialDigestKey activeDigest)));
         active ← match activeRaw with
                  | None => Done []
                  | Some t => match parse t with None => Throw OtherError | Some v => Done (default [] (asRecord v)) end end;
         pairingErrorIf (negb (sameIdentity stored active)) CREDENTIAL_INVALID);;
      pairingErrorIf (negb (eqStr (field stored (js "workerId")) w)) CREDENTIAL_INVALID;;
      pairingErrorIf (negb (strTest (field stored (js "publicKey")) (fun k => verifyBridgeRequest k args signature))) PROOF_INVALID;;
      accepted ← await (rd (SET (proofNonceKey (q_credential args) (q_nonce args)) (js "1") (EX PROOF_NONCE_TTL_SECONDS) true));
      pairingErrorIf (negb accepted) PROOF_REPLAYED;;
      generation ← counterOf pairingGeneration;
      Done (Authorized w credentialDigest activeDigest
        (if nullish (field stored (js "identityId")) then None else field stored (js "identityId")) generation
        (match field stored (js "binding") with Some b => if truthy b then Some b else None | None => None end))
  | _ => pairingError CREDENTIAL_INVALID
  end.

(** [issueCredential] as [rotate] calls it. *)
Definition issueCredential (w : jstr) (publicKey : option json) (previousDigest : jstr) (binding identityId : option json)
    (enrollment : option Json.record) (enrollmentRaw : option jstr) : act BridgeWorkerCredential :=
  credential ← randomBytes 32;
  expiresAt ← isoAfter (credentialTtlSeconds cfg);
  let stored := storedCredential w identityId publicKey expiresAt binding (enrollment ≫= fun e => field e (js "generation")) in
  rotated ← await (rotateCredentialScript w
    (RotationArgs previousDigest (sha256hex credential) (stringify (JObj stored)) (credentialTtlSeconds cfg)
       (match identityId with Some v => textOf v | None => [] end) (default [] enrollmentRaw)
       (match enrollment ≫= fun e => field e (js "pairingGeneration") with Some v => textOf v | None => [] end)
       (match enrollment with Some e => textField e "generation" | None => [] end)));
  pairingErrorIf (negb (rotated =? 1)%Z) CREDENTIAL_INVALID;;
  Done (WorkerCredential w credential expiresAt).

Definition rotate (w : jstr) (expectedCredentialId : option jstr) : act BridgeWorkerCredential :=
  previousDigest ← match expectedCredentialId with Some d => Done (Some d) | None => await (rd (GET (identityKey w))) end;
  previousRaw ← match previousDigest with None => Done None | Some d => await (rd (GET (credentialDigestKey d))) end;
  match previousDigest, previousRaw with
  | Some digest, Some raw =>
      previous ← parseProps raw;
      reads ← await (mget [workerEnrollmentKey w; pairingGenerationKey w; workerEnrollmentRequiredKey w]);
      match reads with
      | [enrollmentRaw; generation; requiredGeneration] =>
          enrollment ← enrolledAs w previous enrollmentRaw generation requiredGeneration;
          issueCredential w (field previous (js "publicKey")) digest (field previous (js "binding"))
            (if nullish (field previous (js "identityId")) then None else field previous (js "identityId"))
            enrollment (match enrollment with Some _ => enrollmentRaw | None => None end)
      | _ => Throw OtherError
      end
  | _, _ => pairingError CREDENTIAL_INVALID
  end.

(** ** Recovery *)

Definition challengeFields (c : BridgeRecoveryProofInput) : Json.record :=
  [(js "operation", JStr (r_operation c)); (js "serverId", JStr (r_serverId c)); (js "workerId", JStr (r_workerId c));
   (js "enrollmentGeneration", JStr (r_enrollmentGeneration c)); (js "challenge", JStr (r_challenge c)); (js "expiresAt", JStr (r_expiresAt c))].

Definition createRecoveryChallenge (w : jstr) (request : BridgeRecoveryStartProofInput) (signature : jstr) : act BridgeRecoveryProofInput :=
  o ← recoveryOr ENROLLMENT_INVALID;
  reads ← await (mget [workerEnrollmentKey w; pairingGenerationKey w; workerEnrollmentRequiredKey w]);
  match reads with
  | [raw; pairingGeneration; requiredGeneration] =>
      enrollment ← orInvalid (checkedEnrollment w raw pairingGeneration requiredGeneration);
      let generation := textField enrollment "generation" in
      shaped ← (if bool_decide (s_operation request = js "credential.challenge")
                   && bool_decide (s_serverId request = textField enrollment "serverId")
                   && bool_decide (s_workerId request = w) && isBase64urlText 43 (s_nonce request)
                then inClockWindow (s_timestamp request) else Done false);
      pairingErrorIf (negb (shaped && verifyBridgeRecoveryStart (textField enrollment "publicKey") request signature)) PROOF_INVALID;;
      nonce ← randomBytes 32;
      expiresAt ← isoAfter (challengeTtl o);
      let challenge := RecoveryProof (js "credential.recover") (textField enrollment "serverId") w generation nonce expiresAt in
      created ← await (createRecoveryChallengeScript w (s_nonce request) nonce (default [] raw) (challengesPerMinute o)
        (stringify (JObj (challengeFields challenge))) (match field enrollment (js "pairingGeneration") with Some v => textOf v | None => [] end)
        (challengeTtl o) generation RECOVERY_START_NONCE_TTL_SECONDS);
      pairingErrorIf (created =? -2)%Z PROOF_REPLAYED;;
      pairingErrorIf (created =? -1)%Z RECOVERY_RATE_LIMITED;;
      pairingErrorIf (negb (created =? 1)%Z) ENROLLMENT_INVALID;;
      Done challenge
  | _ => Throw OtherError
  end.

(** The saved challenge is the one that is answered, and not expired; its [Date.parse]
    is read only when the rest holds. *)
Definition challengeMatches (w : jstr) (saved enrollment : Json.record) (proof : BridgeRecoveryProofInput) : bool :=
  eqStr (field saved (js "operation")) (js "credential.recover")
  && strictEq (field saved (js "serverId")) (field enrollment (js "serverId"))
  && eqStr (field saved (js "workerId")) w
  && strictEq (field saved (js "enrollmentGeneration")) (field enrollment (js "generation"))
  && eqStr (field saved (js "challenge")) (r_challenge proof) && eqStr (field saved (js "expiresAt")) (r_expiresAt proof)
  && eqStr (field saved (js "operation")) (r_operation proof) && eqStr (field saved (js "serverId")) (r_serverId proof)
  && eqStr (field saved (js "workerId")) (r_workerId proof)
  && eqStr (field saved (js "enrollmentGeneration")) (r_enrollmentGeneration proof).

Definition notExpired (text : jstr) : act bool :=
  match parseDate text with None => Done false | Some t => clock ← now_; Done (clock <? t)%Z end.

Definition recoverCredential (w : jstr) (proof : BridgeRecoveryProofInput) (signature : jstr) : act BridgeWorkerCredential :=
  o ← recoveryOr ENROLLMENT_INVALID;
  reads ← await (mget [workerEnrollmentKey w; recoveryChallengeKey (r_challenge proof); pairingGenerationKey w; workerEnrollmentRequiredKey w]);
  match reads with
  | [enrollmentRaw; challengeRaw; pairingGeneration; requiredGeneration] =>
      enrollment ← orInvalid (checkedEnrollment w enrollmentRaw pairingGeneration requiredGeneration);
      let saved := storedObject challengeRaw in
      valid ← (if challengeMatches w saved enrollment proof then notExpired (r_expiresAt proof) else Done false);
      pairingErrorIf (negb valid) CHALLENGE_INVALID;;
      limited (recoveryChallengeAttemptKey (r_challenge proof)) (attemptsPerMinute o);;
      pairingErrorIf (negb (verifyBridgeRecovery (textField enrollment "publicKey") proof signature)) PROOF_INVALID;;
      credential ← randomBytes 32;
      expiresAt ← isoAfter (credentialTtlSeconds cfg);
      let generation := textField enrollment "generation" in
      let identityId := textField enrollment "identityId" in
      let stored := storedCredential w (Some (JStr identityId)) (Some (JStr (textField enrollment "publicKey"))) expiresAt
        (field enrollment (js "binding")) (Some (JStr generation)) in
      issued ← await (completeRecoveryChallengeScript w (r_challenge proof)
        (CompletionArgs (default [] enrollmentRaw) (default [] challengeRaw)
           (match field enrollment (js "pairingGeneration") with Some v => textOf v | None => [] end) identityId
           (stringify (JObj stored)) (credentialTtlSeconds cfg) (sha256hex credential) generation (attemptsPerMinute o)));
      pairingErrorIf (issued =? -1)%Z RECOVERY_RATE_LIMITED;;
      pairingErrorIf (negb (issued =? 1)%Z) CHALLENGE_INVALID;;
      Done (WorkerCredential w credential expiresAt)
  | _ => Throw OtherError
  end.

(** ** Browser enrollment *)

(** [JSON.stringify] of an approval in a fixed order. *)
Definition canonicalApproval (approval : Json.record) : jstr :=
  let binding := default [] (objField approval "binding") in
  stringify (JObj ([(js "protocolVersion", JInt 1)]
    ++ pick approval ["operation"; "serverId"; "instance"; "attemptId"; "requestHash"; "workerId"; "expiresAt"; "publicKey"]
    ++ [(js "binding", JObj (pick binding ["tenantId"]
          ++ [(js "principal", JObj (pick (default [] (objField binding "principal")) ["type"; "id"]))]))])).

Definition enrollmentReplayKey (adminToken server : jstr) : option jstr :=
  if isEmpty adminToken then None
  else Some (sha256hex (js "librechat-code:browser-enrollment-replay:v1" ++ [0%Z] ++ server ++ [0%Z] ++ adminToken)).

Definition encryptEnrollmentReplay (credential : BridgeWorkerCredential) (approval key : jstr) : act jstr :=
  iv ← randomBytes 12; Done (encryptText key iv approval (stringify (JObj (credentialFields credential)))).

Definition decryptEnrollmentReplay (ciphertext approval key : jstr) : act json :=
  orInvalid (decryptText key approval ciphertext ≫= parse).

(** The contract part of an approval, as an enrollment keeps it. *)
Definition contractOf (approval : Json.record) : json := JObj (pick approval CONTRACT_KEYS).

(** Whether the approval's expiry is ahead, by no more than the limit. *)
Definition approvalTimely (expires : Z) : act bool :=
  c1 ← now_;
  if (expires <=? c1)%Z then Done false else
  c2 ← now_; Done (expires - c2 <=? BROWSER_ENROLLMENT_MAX_TTL_MS)%Z.

Definition issueBrowserEnrollment (approval : json) : act json :=
  let r := default [] (isRecord approval) in
  let w := textField r "workerId" in
  timely ← match recovery cfg, parseDate (textField r "expiresAt") with
           | Some o, Some t =>
               if isBrowserEnrollmentApproval approval && bool_decide (textField r "serverId" = serverId o)
               then approvalTimely t else Done false
           | _, _ => Done false
           end;
  pairingErrorIf (negb timely) ENROLLMENT_INVALID;;
  removeLegacyPairings w;;
  let approvalRaw := canonicalApproval r in
  normalized ← needValue (parse approvalRaw);
  identityId ← randomBytes 18;
  generation ← randomBytes 18;
  let enrollment := storedEnrollment w (textField r "serverId") identityId generation (JInt 0) (Some (contractOf r))
    (textField r "publicKey") (EnrollmentProtocol.prop normalized "binding") in
  let key := browserEnrollmentKey (textField r "instance") (textField r "attemptId") in
  accepted ← await (issueBrowserEnrollmentScript key w approvalRaw (stringify (JObj enrollment))
    (default 0%Z (parseDate (textField r "expiresAt"))) BROWSER_ENROLLMENT_MAX_TTL_MS
    (sha256hex approvalRaw ++ js ":" ++ sha256hex (default [] (canonicalBrowserEnrollmentRedemption approval))));
  pairingErrorIf (negb (accepted =? 1)%Z) ENROLLMENT_INVALID;;
  Done normalized.

Inductive enrollmentStatus := EPending | ECompleted | ERevoked.

(** The approval of a pending enrollment. *)
Definition pendingApproval (contract key : jstr) (raw generation requiredGeneration approvalRaw fence indexed planned : option jstr) : act bool :=
  match parse (default (js "null") approvalRaw) with
  | Some approval =>
      if bool_decide (default (js "0") generation = js "0") && bool_decide (raw = None) && bool_decide (requiredGeneration = None)
         && bool_decide (is_Some planned) && isBrowserEnrollmentApproval approval
         && bool_decide (canonicalBrowserEnrollmentRedemption approval = Some contract)
      then timely ← notExpired (match EnrollmentProtocol.prop approval "expiresAt" with Some (JStr t) => t | _ => [] end);
           Done (timely && bool_decide (fence = Some BROWSER_ENROLLMENT) && bool_decide (indexed = Some (fenceOf key)))
      else Done false
  | None => Done false
  end.

Definition browserEnrollmentStatus (proof : json) : act enrollmentStatus :=
  let r := default [] (isRecord proof) in
  let w := textField r "workerId" in
  pairingErrorIf (negb (isBrowserEnrollmentStatusRequest proof
    && match recovery cfg with Some o => bool_decide (textField r "serverId" = serverId o) | None => false end)) ENROLLMENT_INVALID;;
  let key := browserEnrollmentKey (textField r "instance") (textField r "attemptId") in
  reads ← await (mget [workerEnrollmentKey w; pairingGenerationKey w; workerEnrollmentRequiredKey w; key; tombstoneKey key;
                       fenceOf key; workerPairingIndexKey w; plannedKey key]);
  match reads with
  | [raw; generation; requiredGeneration; approvalRaw; tombstone; fence; indexed; planned] =>
      contract ← needValue (canonicalBrowserEnrollmentRedemption proof);
      let completed := match checkedEnrollment w raw generation requiredGeneration with
                       | Some e => match field e (js "browserEnrollment") with
                                   | Some b => bool_decide (canonicalBrowserEnrollmentRedemption b = Some contract)
                                   | None => false end
                       | None => false end in
      if completed then Done ECompleted else
      pairingErrorIf (negb (bool_decide ((tombstone ≫= fun t => splitOn COLON t !! 1) = Some (sha256hex contract)))) ENROLLMENT_INVALID;;
      pending ← pendingApproval contract key raw generation requiredGeneration approvalRaw fence indexed planned;
      Done (if (pending : bool) then EPending else ERevoked)
  | _ => Throw OtherError
  end.

(** The stored approval and enrollment are those of the proof. *)
Definition redemptionMatches (approval enrollment proof : json) : bool :=
  let a := default [] (isRecord approval) in
  let e := default [] (isRecord enrollment) in
  let contract := canonicalBrowserEnrollmentRedemption proof in
  isBrowserEnrollmentApproval approval && bool_decide (canonicalBrowserEnrollmentRedemption approval = contract)
  && strictEq (field e (js "workerId")) (field a (js "workerId")) && strictEq (field e (js "serverId")) (field a (js "serverId"))
  && strictEq (field e (js "publicKey")) (field a (js "publicKey")) && eqInt (field e (js "pairingGeneration")) 0
  && match field e (js "browserEnrollment") with
     | Some b => bool_decide (canonicalBrowserEnrollmentRedemption b = contract) | None => false end
  && bool_decide (stringify <$> field e (js "binding") = stringify <$> field a (js "binding"))
  && strTest (field e (js "identityId")) (isBase64urlText 24) && strTest (field e (js "generation")) (isBase64urlText 24).

Definition redeemBrowserEnrollment (proof : json) (adminToken : jstr) : act json :=
  let p := default [] (isRecord proof) in
  o ← match recovery cfg with
      | Some o => if isBrowserEnrollmentRedemption proof && bool_decide (textField p "serverId" = serverId o)
                  then Done o else pairingError PROOF_INVALID
      | None => pairingError PROOF_INVALID end;
  replayKey ← orInvalid (enrollmentReplayKey adminToken (textField p "serverId"));
  let key := browserEnrollmentKey (textField p "instance") (textField p "attemptId") in
  limited (attemptsKey key) (attemptsPerMinute o);;
  reads ← await (mget [key; plannedKey key]);
  match reads with
  | [raw; enrollmentRaw] =>
      found ← orInvalid (approval ← parse (default (js "null") raw); enrollment ← parse (default (js "null") enrollmentRaw);
                         if redemptionMatches approval enrollment proof then Some (approval, enrollment) else None);
      let a := default [] (isRecord (fst found)) in
      let e := default [] (isRecord (snd found)) in
      let w := textField a "workerId" in
      pairingErrorIf (negb (verifyBrowserEnrollmentRedemption (textField a "publicKey") proof (textField p "signature"))) PROOF_INVALID;;
      credential ← randomBytes 32;
      expiresAt ← isoAfter (credentialTtlSeconds cfg);
      let stored := storedCredential w (field e (js "identityId")) (field a (js "publicKey")) expiresAt (field a (js "binding"))
        (field e (js "generation")) in
      result ← encryptEnrollmentReplay (WorkerCredential w credential expiresAt) (default [] raw) replayKey;
      fresh ← notExpired (textField p "expiresAt");
      encrypted ← await (redeemBrowserEnrollmentScript key w
        (BrowserRedemptionArgs (default [] raw) (default [] enrollmentRaw) (default 0%Z (parseDate (textField a "expiresAt")))
           (stringify (JObj stored)) (credentialTtlSeconds cfg) (sha256hex credential) (textField e "identityId")
           (enrollmentTtl (Some o)) (textField e "generation") result fresh));
      encrypted ← orInvalid encrypted;
      decryptEnrollmentReplay encrypted (default [] raw) replayKey
  | _ => Throw OtherError
  end.
End methods.
