(* ===== verification/PairingScripts.v ===== *)
(** * Pairing: what its scripts write

    The scripts of the pairing store and of the bridge store, by the families of keys
    they write (the word after the prefix). [bridgeStep] is one script of any replica;
    the theorems of PairingProofs hold under every sequence of them. *)

From stdpp Require Import base list numbers option strings gmap relations.
From Stdlib Require Import ZArith Lia.
From S2P Require Import Prelude JsString Json Protocol ProtocolKeys ProtocolPaths Redis JsonText BridgeKeys BridgeAdmission BridgeSlots BridgeSlotsProofs BridgeStore BridgeStoreProofs Async BridgeRouting BridgeMethods BridgeRuns EnrollmentProtocol Pairing PairingMethods.

(** ** Families of keys *)

Fixpoint untilColon (s : jstr) : jstr :=
  match s with [] => [] | c :: s' => if (c =? COLON)%Z then [] else c :: untilColon s' end.

Definition family (k : jstr) : jstr := untilColon (drop 18 k).

(** Keys of different families differ. *)
Lemma family_ne k k' : family k <> family k' -> k <> k'.
Proof. congruence. Qed.

(** The keys the bridge store writes. *)
Definition storeKey (k : jstr) : Prop := family k ∈ [js "assignment"; js "worker"; js "stable-identity"] \/ foreign k.

Definition writesIn (P : jstr -> Prop) {A} (p : prog A) : Prop := commands (fun R c => Forall P (writes c)) p.

Lemma writesIn_avoids P {A} (p : prog A) k : writesIn P p -> ~ P k -> avoids k p.
Proof. intros Hp Hk. eapply commands_mono; [|exact Hp]. intros R c HF Hin. rewrite Forall_forall in HF. by apply Hk, HF. Qed.

(** [commands_auto] with each written key closed by [tac]. *)
Ltac writes_auto tac :=
  commands_auto ltac:(cbn [writes]; repeat first [apply Forall_nil_2 | apply Forall_cons_2; [tac|]]).

Section store.
Context `{Platform}.

(** The calls of the store's key functions, but those of the pairing store. *)
Definition storeCall (c : keyCall) : bool := match c with CPairingGeneration _ | CIdentity _ => false | _ => true end.

Lemma fenceLike_store k : fenceLike k -> storeKey k.
Proof. intros (w & f & s & _ & ->). left. unfold workspaceQuarantineKey. rewrite <- app_assoc. set_solver. Qed.

Lemma fenceLike_storeKey k s : fenceLike k -> storeKey (k ++ s).
Proof. intros (w & f & s' & Hw & ->). apply fenceLike_store. exists w, f, (s' ++ s). by rewrite app_assoc. Qed.

Lemma ordinary_store k : ordinaryKey storeCall k -> storeKey k.
Proof.
  intros [(c & _ & Hc & ->)|[Hf|Hf]]; [left|by apply fenceLike_store|by right].
  destruct c; try discriminate Hc; cbn [keyOf];
    unfold workspaceFenceReceiptKey, noWorkspaceKey, assignmentKey, incarnationFenceKey, quarantineKey, queueKey, leaseClaimKey,
      leaseAckKey, incarnationPrefix, admissionDeadlinesKey, admissionSequenceKey, admissionWorkspacesKey, admissionKey,
      workspaceSlotsKey, workspaceSlotCapacityKey, workerKey; rewrite <- ?app_assoc; set_solver.
Qed.

Lemma storeCall_ordinary c : isGate c = false -> ordinary c = true -> storeCall c = true.
Proof. by destruct c. Qed.

(** A key whose family is that of a store key. *)
Ltac store_key :=
  first [assumption | by apply fenceLike_store | by apply fenceLike_storeKey
        | left; unfold incarnationFenceKey, quarantineKey, leaseClaimKey, leaseAckKey, incarnationPrefix, workerKey, assignmentKey,
            workspaceFenceReceiptKey; rewrite <- ?app_assoc; set_solver].

Lemma tame_store {R} (p : prog R) : tame storeCall p -> writesIn storeKey p.
Proof. apply commands_mono. intros R' c HF. eapply Forall_impl; [exact HF|]. exact ordinary_store. Qed.

Lemma storeScript_writes R (p : prog R) : storeScript R p -> writesIn storeKey p.
Proof.
  revert R p. pose proof storeCall_ordinary as Hord. apply (storeScript_cases storeCall (fun R p => writesIn storeKey p)).
  - exact Hord.
  - intros R p. apply tame_store.
  - intros. apply tame_store. by apply close_tame.
  - intros. apply tame_store. by apply enqueue_tame.
  - intros. apply tame_store. by apply acquireLock_tame.
  - intros. apply tame_store. by apply releaseLock_tame.
  - intros. apply tame_store. by apply reserve_tame.
  - intros. apply tame_store. by apply release_tame.
  - intros. unfold registerScript, pairingChanged, identityChanged, credentialRevoked, registerRefused, nextGeneration, andAlso, writesIn.
    writes_auto store_key.
  - intros w aid inc slot fence text ttl rejected identity sinc Hw Hi Ha Hf. unfold settleScript, otherIdentity, getIs, writesIn.
    destruct fence as [f|]; [specialize (Hf f eq_refl)|]; writes_auto store_key.
  - intros w inc fence Hw Hi Hf. unfold quarantineScript, writesIn. destruct fence as [f|]; [specialize (Hf f eq_refl)|]; writes_auto store_key.
  - intros w aid metadata inc identity epoch fence slot text ttl q Hw Hi Ha Hf.
    unfold receiptCommitScript, receiptCurrent, receiptAction, delIfOwned, hgetIs, getIs, andAlso, writesIn. writes_auto store_key.
Qed.
End store.

(** ** The scripts of the pairing store *)

Definition PAIRING : jstr := js "pairing".
Definition BROWSER : jstr := js "browser-enrollment".

Section scripts.
Context `{Platform} `{Runtime}.

(** The counters of attempts. *)
Definition limitKey (k : jstr) : Prop :=
  (exists c, k = recoveryChallengeAttemptKey c) \/ (exists p op, k = untrustedRecoveryRateKey p op)
  \/ (exists i a, k = attemptsKey (browserEnrollmentKey i a)) \/ (exists p, k = browserPeerKey p).

(** The scripts, with the codes they may issue and redeem and the challenges they may
    create. *)
Context (mayIssue : jstr -> jstr -> jstr -> Prop) (mayRedeem : jstr -> jstr -> Redemption -> Prop) (mayChallenge : jstr -> Prop).

Inductive pairingScript : forall R, prog R -> Prop :=
| ps_issue w code text ttl : mayIssue w code text -> pairingScript Z (issuePairingScript w (pairingKey code) text ttl)
| ps_redeem w code x : mayRedeem w code x -> pairingScript Z (redeemPairingScript w (pairingKey code) x)
| ps_browser_issue i a w approval enrollment until maxTtl mark :
    pairingScript Z (issueBrowserEnrollmentScript (browserEnrollmentKey i a) w approval enrollment until maxTtl mark)
| ps_browser_redeem i a w y : pairingScript (option jstr) (redeemBrowserEnrollmentScript (browserEnrollmentKey i a) w y)
| ps_rotate w z : pairingScript Z (rotateCredentialScript w z)
| ps_revoke w : isValidBridgeWorkerId w = true -> pairingScript Z (revokePairingScript w)
| ps_create w nonce challenge enrollment perMinute text pg ttl eg nonceTtl :
    mayChallenge challenge -> pairingScript Z (createRecoveryChallengeScript w nonce challenge enrollment perMinute text pg ttl eg nonceTtl)
| ps_complete w challenge k : pairingScript Z (completeRecoveryChallengeScript w challenge k)
| ps_nonce c n : pairingScript bool (rd (SET (proofNonceKey c n) (js "1") (EX PROOF_NONCE_TTL_SECONDS) true))
| ps_limit k limit : limitKey k -> pairingScript Z (limitRecoveryAttemptsScript k limit)
| ps_forget ks : Forall (fun k => family k = PAIRING) ks -> pairingScript Z (rd (DEL ks))
| ps_scan R (p : prog R) : writesIn (fun k => family k = js "migration") p -> pairingScript R p.

(** A script of any replica. *)
Inductive bridgeScript : forall R, prog R -> Prop :=
| bs_store R p : storeScript R p -> bridgeScript R p
| bs_pairing R p : pairingScript R p -> bridgeScript R p.

Context {db : Type} `{RedisServer db} (until : option Z).

(** One script, no later than [until]. *)
Inductive bridgeStep (s s' : db) : Prop :=
| bridge_step R (p : prog R) now r :
    bridgeScript R p -> (forall t, until = Some t -> (now <= t)%Z) -> run p now s = (s', r) -> bridgeStep s s'.

(** An invariant of every script holds after any sequence of steps. *)
Lemma bridgeSteps_keep (I : keyspace -> Prop) s s' :
  (forall R (p : prog R), bridgeScript R p -> forall now ks, (forall t, until = Some t -> (now <= t)%Z) -> I ks ->
     wp p now ks (fun _ ks' => I ks')) ->
  rtc bridgeStep s s' -> I (content s) -> I (content s').
Proof.
  intros HI. induction 1 as [s|s s1 s2 [R p now r Hp Ht E] _ IH]; [done|]. intros Hs. apply IH.
  exact (run_wp _ _ _ _ _ _ E (HI R p Hp now (content s) Ht Hs)).
Qed.
End scripts.

(** ** Keys that stay absent *)

(** A command that cannot bring a key into being. *)
Definition keepsAbsent (k : jstr) (R : Type) (c : cmd R) : Prop :=
  match c with DEL _ => True | _ => k ∉ writes c end.

Lemma eval_absent {A} k (p : prog A) now (ks : keyspace) :
  commands (keepsAbsent k) p -> ks !! k = None -> wp p now ks (fun _ ks' => ks' !! k = None).
Proof.
  unfold wp. revert ks. induction p as [a|R c f IH|]; intros ks; cbn [commands eval]; try done.
  intros [Hc Hf] Hk. destruct (exec c now ks) as [[ks' r]|] eqn:E; [|done]. apply IH; [done|].
  destruct (decide (k ∈ writes c)) as [Hin|Hn]; [|by rewrite (exec_frame c now ks ks' r k E Hn)].
  destruct c; try done. cbn [exec] in E. injection E as <- _. by apply delete_in.
Qed.

(** Two keys of known families. *)
Ltac family_ne :=
  let E := fresh in
  first [ solve [intros E; apply (f_equal family) in E; vm_compute in E; discriminate E]
        | solve [intros E; subst; match goal with HK : family _ = _ |- _ => vm_compute in HK; discriminate HK end]
        | solve [intros E; apply (f_equal (fun k => take 10 (drop 18 k))) in E; vm_compute in E; discriminate E] ].

(** The written keys are of another family, or deleted. *)
Ltac absent_key :=
  cbn [keepsAbsent writes]; first [exact I | rewrite ?not_elem_of_cons; repeat split; first [apply not_elem_of_nil | assumption | family_ne]].

Lemma anyExists_commands (P : forall R, cmd R -> Prop) keys : (forall k, P bool (EXISTS k)) -> commands P (anyExists keys).
Proof. intros HP. induction keys as [|k keys IH]; cbn [anyExists]; [done|]. apply commands_bind; [by apply commands_rd|]. intros []; done. Qed.

Ltac absent_auto :=
  repeat first
    [ apply commands_ret | apply commands_need
    | apply anyExists_commands; intros ?; absent_key
    | solve [apply commands_rd; absent_key]
    | apply commands_bind; [|intros ?]
    | case_match ].

(** Walk every script of the pairing store, with [tac] for its commands. *)
Ltac each_script tac :=
  match goal with
  | HL : limitKey _ |- _ =>
      unfold limitRecoveryAttemptsScript, countInMinute; destruct HL as [[? ->]|[(? & ? & ->)|[(? & ? & ->)|[? ->]]]]; tac
  | _ => unfold issuePairingScript, redeemPairingScript, issueBrowserEnrollmentScript, redeemBrowserEnrollmentScript,
           rotateCredentialScript, revokePairingScript, createRecoveryChallengeScript, completeRecoveryChallengeScript,
           enrollmentIs, countInMinute, remainingUntil, getOrZero, setFor, andAlso; tac
  end.

Section absent.
Context `{Platform} `{Runtime} (mayIssue : jstr -> jstr -> jstr -> Prop) (mayRedeem : jstr -> jstr -> Redemption -> Prop)
  (mayChallenge : jstr -> Prop).

Lemma scan_absent f K R (p : prog R) : family K = f -> f <> js "migration" ->
  writesIn (fun k => family k = js "migration") p -> commands (keepsAbsent K) p.
Proof.
  intros HK Hf. apply commands_mono. intros R' c HF. destruct c; try done; cbn [keepsAbsent writes] in *;
    rewrite Forall_forall in HF; intros Hin; specialize (HF _ Hin); cbv beta in HF; congruence.
Qed.

(** Only [issue] writes a pairing code. *)
Lemma code_absent K R (p : prog R) : family K = PAIRING ->
  (forall w code text, mayIssue w code text -> K <> pairingKey code) ->
  pairingScript mayIssue mayRedeem mayChallenge R p -> commands (keepsAbsent K) p.
Proof.
  intros HK Hi. destruct 1; [specialize (Hi _ _ _ H1); each_script ltac:(absent_auto)| | | | | | | | | | |apply (scan_absent PAIRING); [exact HK|vm_compute; discriminate|exact H1]];
    each_script ltac:(absent_auto).
Qed.

(** Only its creation writes a challenge. *)
Lemma challenge_absent challenge R (p : prog R) :
  (forall c, mayChallenge c -> recoveryChallengeKey challenge <> recoveryChallengeKey c) ->
  pairingScript mayIssue mayRedeem mayChallenge R p -> commands (keepsAbsent (recoveryChallengeKey challenge)) p.
Proof.
  intros Hi. destruct 1; [| | | | | |specialize (Hi _ H1); each_script ltac:(absent_auto)| | | | |apply (scan_absent (js "recovery"));
    [reflexivity|vm_compute; discriminate|exact H1]]; each_script ltac:(absent_auto).
Qed.
End absent.

(** The bridge store leaves the pairing store's keys alone. *)
Lemma store_absent `{Platform} K R (p : prog R) : ~ storeKey K -> storeScript R p -> commands (keepsAbsent K) p.
Proof.
  intros HK Hp. eapply commands_mono; [|exact (writesIn_avoids _ _ _ (storeScript_writes R p Hp) HK)]. by intros R' [].
Qed.

(** A key of a family the bridge store does not write. *)
Lemma not_storeKey f k : family k = f -> startsWith k PREFIX = true -> f ∉ [js "assignment"; js "worker"; js "stable-identity"] -> ~ storeKey k.
Proof. intros <- Hs Hf [Hk|Hk]; [done|]. unfold foreign in Hk. congruence. Qed.

Ltac not_store :=
  eapply not_storeKey; [reflexivity|apply startsWith_app|rewrite !not_elem_of_cons; split_and!; [by vm_compute..|apply not_elem_of_nil]].

(** ** What the pairing index points at *)

Definition indexFamily (k : jstr) : Prop := family k = PAIRING \/ family k = BROWSER.

Definition indexOk (ks : keyspace) : Prop :=
  forall w e, ks !! workerPairingIndexKey w = Some e -> exists k, e_val e = VStr k /\ indexFamily k.

(** A command that keeps it so. *)
Definition goodIndex (R : Type) (c : cmd R) : Prop :=
  match c with
  | SET k v _ _ => forall w, workerPairingIndexKey w = k -> indexFamily v
  | DEL _ | PEXPIREAT _ _ => True
  | _ => forall w, workerPairingIndexKey w ∉ writes c
  end.

Lemma exec_index R (c : cmd R) now (ks ks' : keyspace) r :
  goodIndex R c -> exec c now ks = Some (ks', r) -> indexOk ks -> indexOk ks'.
Proof.
  intros Hc E Hi w e He. destruct (decide (workerPairingIndexKey w ∈ writes c)) as [Hin|Hn].
  2: { rewrite (exec_frame c now ks ks' r _ E Hn) in He. by apply (Hi w). }
  destruct c; cbn [goodIndex writes] in *; try (by destruct (Hc w)).
  - apply list_elem_of_singleton in Hin. subst k. cbn [exec] in E. destruct (nx && _); injection E as <- _; [by apply (Hi w)|].
    rewrite lookup_insert_eq in He. injection He as <-. exists v. split; [done|]. by apply (Hc w).
  - cbn [exec] in E. injection E as <- _. by rewrite delete_in in He.
  - apply list_elem_of_singleton in Hin. subst k. cbn [exec] in E. unfold find in E.
    destruct (ks !! workerPairingIndexKey w) as [e0|] eqn:E0; [|injection E as <- _; by rewrite E0 in He].
    destruct (alive now e0), (expiry now t); try (injection E as <- _; rewrite E0 in He; injection He as <-; by apply (Hi w)).
    injection E as <- _. destruct (z <=? now)%Z; [by rewrite lookup_delete_eq in He|]. rewrite lookup_insert_eq in He. injection He as <-.
    apply (Hi w _ E0).
Qed.

(** Every command of the script keeps [I]. *)
Lemma eval_keeps (P : forall R, cmd R -> Prop) (I : keyspace -> Prop) now {A} (p : prog A) ks :
  (forall R (c : cmd R) ks ks' r, P R c -> exec c now ks = Some (ks', r) -> I ks -> I ks') ->
  commands P p -> I ks -> wp p now ks (fun _ ks' => I ks').
Proof.
  intros HP. unfold wp. revert ks. induction p as [a|R c f IH|]; intros ks; cbn [commands eval]; try done.
  intros [Hc Hf] Hi. destruct (exec c now ks) as [[ks' r]|] eqn:E; [|done]. apply IH; [done|]. by eapply HP.
Qed.

(** What a script reads from an index. *)
Lemma wp_index w {A} (f : option jstr -> prog A) now (ks : keyspace) (Q : option A -> keyspace -> Prop) : indexOk ks ->
  (forall v, (forall k, v = Some k -> indexFamily k) -> wp (f v) now ks Q) -> Q None ks ->
  wp (rd (GET (workerPairingIndexKey w)) ≫= f) now ks Q.
Proof.
  intros Hi Hf Hn. apply wp_bind, wp_cmd; cbn [exec]; unfold find; destruct (ks !! workerPairingIndexKey w) as [e|] eqn:E; try done.
  - destruct (Hi w e E) as (k & Ek & Hk). destruct (alive now e); [|intros ks' r [= <- <-]; by apply Hf].
    destruct e as [v x]. cbn [e_val] in Ek. subst v. intros ks' r [= <- <-]. apply Hf. by intros k' [= <-].
  - intros ks' r [= <- <-]. by apply Hf.
Qed.

Ltac index_key :=
  cbn [goodIndex writes]; first
    [ exact I
    | intros ? ?; first [by left | by right | exfalso; revert select (workerPairingIndexKey _ = _); family_ne]
    | intros ?; rewrite ?not_elem_of_cons; repeat split; first [apply not_elem_of_nil | family_ne] ].

Ltac index_auto :=
  repeat first
    [ apply commands_ret | apply commands_need
    | apply anyExists_commands; intros ?; index_key
    | solve [apply commands_rd; index_key]
    | apply commands_bind; [|intros ?]
    | case_match ].

Section indexes.
Context `{Platform} `{Runtime} (mayIssue : jstr -> jstr -> jstr -> Prop) (mayRedeem : jstr -> jstr -> Redemption -> Prop)
  (mayChallenge : jstr -> Prop).

Lemma bridge_goodIndex R (p : prog R) : bridgeScript mayIssue mayRedeem mayChallenge R p -> commands goodIndex p.
Proof.
  assert (forall R (c : cmd R), (forall w, workerPairingIndexKey w ∉ writes c) -> goodIndex R c) as Havoid.
  { intros R' c Hc. destruct c; try done; cbn [goodIndex writes] in *; try done. intros w <-. destruct (Hc w). left. }
  destruct 1 as [R p Hp|R p Hp].
  - eapply commands_mono; [|exact (storeScript_writes R p Hp)]. intros R' c HF. apply Havoid. intros w Hin.
    rewrite Forall_forall in HF. specialize (HF _ Hin). revert HF. change (~ storeKey (workerPairingIndexKey w)). not_store.
  - destruct Hp; [..|eapply commands_mono; [|exact H1]; intros R' c HF; apply Havoid; intros w Hin; rewrite Forall_forall in HF;
      specialize (HF _ Hin); by vm_compute in HF]; each_script ltac:(index_auto).
Qed.

Lemma bridge_indexOk R (p : prog R) now ks : bridgeScript mayIssue mayRedeem mayChallenge R p -> indexOk ks ->
  wp p now ks (fun _ ks' => indexOk ks').
Proof. intros Hp. apply (eval_keeps goodIndex); [|by eapply bridge_goodIndex]. intros. by eapply exec_index. Qed.
End indexes.
