(* ===== verification/PairingProofs.v ===== *)
(** * Pairing: codes and challenges are single use

    Under every sequence of scripts of the pairing store and of the bridge store, by
    any replicas ([bridgeStep]): a pairing code is redeemed once, a recovery challenge
    is answered once, the mark of a used request proof is kept for its time to live
    ([marked_again]), and a counter of attempts admits no more than its limit in a
    minute. *)

From stdpp Require Import base list numbers option strings gmap relations.
From Stdlib Require Import ZArith Lia.
From S2P Require Import Prelude JsString Json Protocol ProtocolKeys Redis JsonText BridgeKeys BridgeAdmission BridgeSlots BridgeStore BridgeStoreProofs Async BridgeRouting BridgeMethods BridgeRuns ProtocolRequests EnrollmentProtocol EnrollmentProtocolProofs Pairing PairingMethods PairingScripts.

(** ** Rules *)

Lemma wp_getText {A} k (f : option jstr -> prog A) now (ks : keyspace) (Q : option A -> keyspace -> Prop) :
  (forall v, as_str (find now ks k) = Some v -> wp (f v) now ks Q) -> Q None ks -> wp (rd (GET k) ≫= f) now ks Q.
Proof.
  intros Hf Hn. apply wp_bind, wp_cmd; cbn [exec]; destruct (as_str (find now ks k)) as [v|]; try done.
  intros ks' r [= <- <-]. by apply Hf.
Qed.

Lemma find_absent now (ks : keyspace) k : ks !! k = None -> find now ks k = None.
Proof. unfold find. by intros ->. Qed.

(** A script that cannot bring back an absent key, after one that deleted it. *)
Lemma wp_deleted {A} k (p : prog A) now (ks : keyspace) :
  commands (keepsAbsent k) p -> wp (rd (DEL [k]);; p) now ks (fun _ ks' => ks' !! k = None).
Proof.
  intros Hp. apply wp_bind. eapply wp_known; [reflexivity|]. apply eval_absent; [done|]. cbn [foldr]. apply lookup_delete_eq.
Qed.

(** ** Redemption *)

Section redemption.
Context `{Platform} `{Runtime}.

(** A redemption of an absent code is refused and changes nothing. *)
Lemma redeem_absent w K x now (ks : keyspace) : ks !! K = None ->
  wp (redeemPairingScript w K x) now ks (fun r ks' => r = Some 0%Z /\ ks' = ks).
Proof.
  intros Hk. unfold redeemPairingScript. apply wp_bind. eapply wp_known; [cbn [exec]; rewrite find_absent by done; reflexivity|].
  unfold neqStr. rewrite bool_decide_eq_false_2 by done. by apply wp_ret.
Qed.

(** An accepted redemption found the code, and consumes it. *)
Lemma redeem_consumes w code x now (ks : keyspace) :
  wp (redeemPairingScript w (pairingKey code) x) now ks (fun r ks' => r = Some 1%Z ->
    ks' !! pairingKey code = None /\ exists t, find now ks (pairingKey code) = Some (Entry (VStr (x_raw x)) t)).
Proof.
  unfold redeemPairingScript. apply wp_getText; [|done]. intros v Hv.
  destruct (neqStr v (x_raw x)) eqn:Ev; [by apply wp_ret|]. unfold neqStr in Ev. apply negb_false_iff, bool_decide_eq_true in Ev. subst v.
  assert (exists t, find now ks (pairingKey code) = Some (Entry (VStr (x_raw x)) t)) as Hf.
  { destruct (find now ks (pairingKey code)) as [[[] t]|]; cbn [as_str] in Hv; simplify_eq. by exists t. }
  apply wp_getText; [|done]. intros g Hg. apply wp_bind.
  apply (wp_mono _ _ _ (fun r ks' => ks' = ks)); [|intros [[]|] ks' ->; [|clear Hv|done]].
  { destruct (isEmpty (x_generation x)); [destruct g; [apply wp_getText; [|done]; intros; by apply wp_ret|by apply wp_ret]|by apply wp_ret]. }
  { apply wp_bind. eapply wp_known; [reflexivity|]. by apply wp_ret. }
  case_match; [by apply wp_ret|]. eapply wp_mono; [apply wp_deleted|intros r ks' Hk _; split; [exact Hk|exact Hf]].
  pose proof (eq_refl : family (pairingKey code) = PAIRING) as HK. unfold setFor. absent_auto.
Qed.
End redemption.

(** ** Codes *)

Section single_use.
Context `{Platform} `{Runtime} `{Crypto} `{UrlParser} `{ReplayCipher} {db : Type} `{RedisServer db}.

(** No replica issues the code again (codes are fresh random texts). *)
Definition otherCodes (code : jstr) : jstr -> jstr -> jstr -> Prop := fun _ code' _ => pairingKey code <> pairingKey code'.

Definition whileCodeFresh (code : jstr) : db -> db -> Prop := bridgeStep (otherCodes code) (fun _ _ _ => True) (fun _ => True) None.

Lemma code_stays_absent code (s s' : db) : rtc (whileCodeFresh code) s s' ->
  content s !! pairingKey code = None -> content s' !! pairingKey code = None.
Proof.
  apply (bridgeSteps_keep _ _ _ _ (fun ks => ks !! pairingKey code = None)). intros R p Hp now ks _. apply eval_absent.
  destruct Hp as [R p Hp|R p Hp].
  - apply store_absent; [not_store|done].
  - eapply code_absent; [reflexivity| |exact Hp]. intros w c text Hne. exact Hne.
Qed.

(** Reading a key that stays absent. *)
Lemma iwp_get_absent {A} k (f : option jstr -> act A) (Q : error + A -> Prop) :
  iwp (fun ks => ks !! k = None) (f None) Q -> Q (inl CommandFailed) ->
  iwp (fun ks => ks !! k = None) (await (rd (GET k)) ≫= f) Q.
Proof.
  intros Hf Hn. apply iwp_bind, iwp_await; [| |done].
  - intros t ks Hk. apply eval_absent; [|done]. apply commands_rd. apply not_elem_of_nil.
  - intros t ks a Hk. cbn [rd eval exec]. rewrite find_absent by done. cbn. by intros [= <-].
Qed.

(** (C8) A pairing code is redeemed once. An accepted redemption found the code live
    with the text it read and consumes it; after any scripts of any replicas (none
    issuing the same fresh code) every further redemption is refused and changes
    nothing, and a machine that presents the code again gets [PAIRING_INVALID]. *)
Theorem code_redeemed_once (cfg : pairingConfig) (s s1 s2 : db) w code x now :
  run (redeemPairingScript w (pairingKey code) x) now s = (s1, Some 1%Z) ->
  rtc (whileCodeFresh code) s1 s2 ->
  (exists t, find now (content s) (pairingKey code) = Some (Entry (VStr (x_raw x)) t))
  /\ (forall w' x' now', let out := run (redeemPairingScript w' (pairingKey code) x') now' s2 in
        snd out = Some 0%Z /\ content (fst out) = content s2)
  /\ (forall w' publicKey tr s3 o, performs (whileCodeFresh code) s2 (redeem cfg w' code publicKey) tr s3 o ->
        o = inl (PairingError PAIRING_INVALID) \/ o = inl CommandFailed).
Proof.
  intros E Hr. destruct (run_wp _ _ _ _ _ _ E (redeem_consumes w code x now (content s)) eq_refl) as [Hk Hf].
  pose proof (code_stays_absent code s1 s2 Hr Hk) as Hk2. split; [done|]. split.
  - intros w' x' now' out. destruct out as [s3 r] eqn:Eo. exact (run_wp _ _ _ _ _ _ Eo (redeem_absent w' _ x' now' _ Hk2)).
  - intros w' publicKey tr s3 o Hp.
    apply (iwp_sound (fun ks => ks !! pairingKey code = None) (whileCodeFresh code) _ _ _ _ _ ltac:(intros s4 s5 Hs; apply code_stays_absent; by apply rtc_once) Hp
      (fun o => o = inl (PairingError PAIRING_INVALID) \/ o = inl CommandFailed) Hk2).
    unfold redeem. apply iwp_get_absent; [|by right]. apply iwp_bind. by left.
Qed.

(** ** Challenges *)

Definition whileChallengeFresh (challenge : jstr) : db -> db -> Prop :=
  bridgeStep (fun _ _ _ => True) (fun _ _ _ => True) (fun c => recoveryChallengeKey challenge <> recoveryChallengeKey c) None.

Lemma challenge_stays_absent challenge (s s' : db) : rtc (whileChallengeFresh challenge) s s' ->
  content s !! recoveryChallengeKey challenge = None -> content s' !! recoveryChallengeKey challenge = None.
Proof.
  apply (bridgeSteps_keep _ _ _ _ (fun ks => ks !! recoveryChallengeKey challenge = None)). intros R p Hp now ks _. apply eval_absent.
  destruct Hp as [R p Hp|R p Hp].
  - apply store_absent; [not_store|done].
  - eapply challenge_absent; [|exact Hp]. intros c Hne. exact Hne.
Qed.

(** What an accepted completion found, and what it leaves. *)
Lemma complete_consumes w challenge k now (ks : keyspace) :
  wp (completeRecoveryChallengeScript w challenge k) now ks (fun r ks' =>
    (r = Some 1%Z -> ks' !! recoveryChallengeKey challenge = None
       /\ (exists t, find now ks (workerEnrollmentKey w) = Some (Entry (VStr (k_enrollment k)) t))
       /\ exists t, find now ks (recoveryChallengeKey challenge) = Some (Entry (VStr (k_challenge k)) t))
    /\ (find now ks (recoveryChallengeKey challenge) = None -> r = Some 0%Z \/ r = None)).
Proof.
  assert (forall key v text, as_str (find now ks key) = Some v -> neqStr v text = false -> exists t, find now ks key = Some (Entry (VStr text) t)) as Hs.
  { intros key v text Hv Hn. unfold neqStr in Hn. apply negb_false_iff, bool_decide_eq_true in Hn. subst v.
    destruct (find now ks key) as [[[] t]|]; cbn [as_str] in Hv; simplify_eq. by exists t. }
  unfold completeRecoveryChallengeScript. apply wp_bind.
  apply (wp_mono _ _ _ (fun r ks' => ks' = ks /\ (r = Some true -> exists t, find now ks (workerEnrollmentKey w) = Some (Entry (VStr (k_enrollment k)) t)))).
  { unfold enrollmentIs, getOrZero. apply wp_getText; [|done]. intros e He. apply wp_bind, wp_getText; [|done]. intros g Hg. apply wp_ret.
    apply wp_getText; [|done]. intros q Hq. apply wp_ret. split; [done|]. intros [= E]. apply andb_true_iff in E as [E _].
    apply andb_true_iff in E as [E _]. apply negb_true_iff in E. by eapply Hs. }
  intros [mine|] ks' [-> Hm]; [|split; [done|by right]]. apply wp_getText; [|split; [done|by right]]. intros saved Hsv.
  destruct (negb mine || neqStr saved (k_challenge k)) eqn:Ec; [apply wp_ret; split; [done|by left]|].
  apply orb_false_iff in Ec as [Em Ec]. destruct mine; [|done].
  apply (wp_mono _ _ _ (fun r ks' => r = Some 1%Z -> ks' !! recoveryChallengeKey challenge = None)).
  2: { intros r ks' Hk. split; [intros Hr; split; [by apply Hk|split; [by apply Hm|by eapply Hs]]|].
       intros Hf. rewrite Hf in Hsv. cbn [as_str] in Hsv. simplify_eq. }
  apply wp_getText; [|done]. intros stable Hst. case_match; [by apply wp_ret|].
  apply wp_bind. eapply wp_mono; [apply wp_true|]. intros [count|] ks1 _; [|done].
  destruct (k_perMinute k <? count)%Z; [by apply wp_ret|].
  eapply wp_mono; [apply wp_deleted; absent_auto|]. intros r ks' Hk _. exact Hk.
Qed.

(** A recovery challenge is answered once. An accepted completion found the
    enrollment and the challenge it was made for and consumes the challenge; after any
    scripts of any replicas (none creating the same fresh challenge) no completion of
    it is accepted. *)
Theorem challenge_answered_once (s s1 s2 : db) w challenge k now :
  run (completeRecoveryChallengeScript w challenge k) now s = (s1, Some 1%Z) ->
  rtc (whileChallengeFresh challenge) s1 s2 ->
  (exists t, find now (content s) (workerEnrollmentKey w) = Some (Entry (VStr (k_enrollment k)) t))
  /\ (exists t, find now (content s) (recoveryChallengeKey challenge) = Some (Entry (VStr (k_challenge k)) t))
  /\ forall w' k' now', let r := snd (run (completeRecoveryChallengeScript w' challenge k') now' s2) in r = Some 0%Z \/ r = None.
Proof.
  intros E Hr. destruct (run_wp _ _ _ _ _ _ E (complete_consumes w challenge k now (content s))) as [Hc _].
  destruct (Hc eq_refl) as (Hk & He & Hf). split; [done|]. split; [done|]. intros w' k' now' r.
  destruct (run (completeRecoveryChallengeScript w' challenge k') now' s2) as [s3 r'] eqn:Eo.
  apply (run_wp _ _ _ _ _ _ Eo (complete_consumes w' challenge k' now' (content s2))). apply find_absent. by eapply challenge_stays_absent.
Qed.
End single_use.

(** ** Proofs of requests *)

Section nonces.
Context `{Platform} `{Runtime} {db : Type} `{RedisServer db}.

(** Marks a proof as used. *)
Definition markProof (credential nonce : jstr) : prog bool :=
  rd (SET (proofNonceKey credential nonce) (js "1") (EX PROOF_NONCE_TTL_SECONDS) true).

Ltac live_key :=
  cbn [keepsLive writes]; first
    [ exact I
    | rewrite ?not_elem_of_cons; repeat split; first
        [ apply not_elem_of_nil | family_ne
        | match goal with Hx : indexFamily ?k |- _ <> ?k => intros E; rewrite <- E in Hx; destruct Hx as [Hx|Hx]; vm_compute in Hx; discriminate Hx end ] ].

Ltac live_auto :=
  repeat first
    [ apply commands_ret | apply commands_need
    | apply anyExists_commands; intros ?; live_key
    | solve [apply commands_rd; live_key]
    | apply commands_bind; [|intros ?]
    | case_match; try match goal with Hv : forall k, Some _ = Some k -> indexFamily k |- _ => specialize (Hv _ eq_refl) end ].

(** A live mark stays: no script deletes or replaces it. *)
Lemma mark_stays mayIssue mayRedeem mayChallenge credential nonce R (p : prog R) now ks e :
  bridgeScript mayIssue mayRedeem mayChallenge R p -> indexOk ks -> ks !! proofNonceKey credential nonce = Some e -> alive now e = true ->
  wp p now ks (fun _ ks' => ks' !! proofNonceKey credential nonce = Some e).
Proof.
  intros Hp Hi He Ha. set (K := proofNonceKey credential nonce) in *.
  assert (forall A (q : prog A), commands (keepsLive K) q -> wp q now ks (fun _ ks' => ks' !! K = Some e)) as Hw.
  { intros A q Hq. apply (eval_keeps (keepsLive K)); [|done|done]. intros R' c ks1 ks2 r Hc E Hk. by eapply exec_live. }
  subst K. destruct Hp as [R p Hp|R p Hp].
  { apply Hw. eapply commands_mono; [intros R' c; apply keepsLive_avoids|].
    apply (writesIn_avoids storeKey); [by apply storeScript_writes|not_store]. }
  destruct Hp as [w code text ttl Hm| | | | |w Hw'| | | | |keys Hk|R p Hp].
  - apply wp_index; [done| |done]. intros v Hv. apply Hw. live_auto.
  - apply Hw. each_script ltac:(live_auto).
  - apply Hw. each_script ltac:(live_auto).
  - apply Hw. each_script ltac:(live_auto).
  - apply Hw. each_script ltac:(live_auto).
  - apply wp_index; [done| |done]. intros v Hv. apply Hw. live_auto.
  - apply Hw. each_script ltac:(live_auto).
  - apply Hw. each_script ltac:(live_auto).
  - apply Hw. live_auto.
  - apply Hw. each_script ltac:(live_auto).
  - apply Hw. apply commands_rd. cbn [keepsLive writes]. intros Hin. rewrite Forall_forall in Hk. specialize (Hk _ Hin). by vm_compute in Hk.
  - apply Hw. eapply commands_mono; [|exact Hp]. intros R' c HF. apply keepsLive_avoids. intros Hin. rewrite Forall_forall in HF.
    specialize (HF _ Hin). by vm_compute in HF.
Qed.

(** The mark of a used proof is kept for its time to live: whatever scripts run
    meanwhile, it is made a second time only after that. *)
Lemma marked_again mayIssue mayRedeem mayChallenge (s s1 s2 s3 : db) credential nonce t1 t2 :
  indexOk (content s) -> run (markProof credential nonce) t1 s = (s1, Some true) ->
  rtc (bridgeStep mayIssue mayRedeem mayChallenge (Some t2)) s1 s2 ->
  run (markProof credential nonce) t2 s2 = (s3, Some true) -> (t1 + PROOF_NONCE_TTL_SECONDS * 1000 < t2)%Z.
Proof.
  intros Hi E Hr E2. apply Z.nle_gt. intros Hle. set (K := proofNonceKey credential nonce).
  set (e := Entry (VStr (js "1")) (Some (t1 + PROOF_NONCE_TTL_SECONDS * 1000)%Z)).
  assert (forall t, (t <= t2)%Z -> alive t e = true) as Ha by (intros t Ht; unfold alive, e; cbn [e_exp]; apply Z.leb_le; lia).
  assert (indexOk (content s1) /\ content s1 !! K = Some e) as Hs1.
  { split; [apply (run_wp _ _ _ _ _ _ E (bridge_indexOk mayIssue mayRedeem mayChallenge _ _ t1 (content s) (bs_pairing _ _ _ _ _ (ps_nonce _ _ _ credential nonce)) Hi))|].
    apply run_eval_eq in E. unfold markProof, rd in E. cbn [eval exec] in E. destruct (true && _); [done|].
    injection E as <-. apply lookup_insert_eq. }
  assert (indexOk (content s2) /\ content s2 !! K = Some e) as [_ Hk].
  { apply (bridgeSteps_keep mayIssue mayRedeem mayChallenge (Some t2) (fun ks => indexOk ks /\ ks !! K = Some e) s1 s2); [|done|done].
    intros R p Hp now ks Ht [Hj He]. apply wp_and; [by eapply bridge_indexOk|]. eapply mark_stays; [done..|]. by apply Ha, Ht. }
  apply run_eval_eq in E2. unfold markProof, rd in E2. cbn [eval exec] in E2. unfold find in E2. fold K in E2. rewrite Hk, Ha in E2 by done.
  by rewrite bool_decide_eq_true_2 in E2 by done.
Qed.
End nonces.

(** ** Limits *)

Section limits.
Context {db : Type} `{RedisServer db} (key : jstr) (limit : Z).

(** A history of attempts: between two of them other scripts leave the counter alone. *)
Inductive attempts : db -> list (Z * option Z) -> Prop :=
| no_attempts s : attempts s []
| attempt s s1 s2 t r rs :
    content s1 !! key = content s !! key -> run (limitRecoveryAttemptsScript key limit) t s1 = (s2, r) ->
    attempts s2 rs -> attempts s ((t, r) :: rs).

(** The counter after [n] attempts in the window that opened at [t0]. *)
Definition counterAt (t0 n : Z) : entry := Entry (VStr (dec n)) (Some (t0 + 60000)%Z).

Definition reply (i : nat) : option Z := Some (if (Z.of_nat i <? limit)%Z then 1 else 0)%Z.

Lemma first_attempt t0 ks : find t0 ks key = None ->
  wp (limitRecoveryAttemptsScript key limit) t0 ks (fun r ks' => r = reply 0 /\ ks' !! key = Some (counterAt t0 1)).
Proof.
  intros Hf. unfold limitRecoveryAttemptsScript, countInMinute. do 2 apply wp_bind.
  eapply wp_known; [cbn [exec]; rewrite Hf; reflexivity|]. cbn [Z.add Z.eqb Pos.eqb]. apply wp_bind.
  eapply wp_known; [cbn [exec]; rewrite find_keep_eq, Hf; cbn [mbind option_bind expiry e_val]; reflexivity|].
  rewrite (proj2 (Z.leb_gt _ _)) by lia. apply wp_ret, wp_ret. split; [|apply lookup_insert_eq].
  unfold reply. cbn [Z.of_nat]. repeat case_match; try done; exfalso; bools; lia.
Qed.

Lemma next_attempt t0 t i ks : (Z.of_nat (S i) < 2 ^ 63 - 1)%Z -> (t0 <= t <= t0 + 60000)%Z -> ks !! key = Some (counterAt t0 (Z.of_nat (S i))) ->
  wp (limitRecoveryAttemptsScript key limit) t ks (fun r ks' => r = reply (S i) /\ ks' !! key = Some (counterAt t0 (Z.of_nat (S (S i))))).
Proof.
  intros Hi Ht Hk. assert (find t ks key = Some (counterAt t0 (Z.of_nat (S i)))) as Hf.
  { unfold find. rewrite Hk. unfold alive, counterAt. cbn [e_exp]. by rewrite (proj2 (Z.leb_le _ _)) by lia. }
  assert (isInt64 (Z.of_nat (S i)) && isInt64 (Z.of_nat (S i) + 1) = true) as Hint by (apply int64_next; lia).
  unfold limitRecoveryAttemptsScript, countInMinute. do 2 apply wp_bind.
  eapply wp_known; [cbn [exec]; rewrite Hf; cbn [counterAt as_str mbind option_bind]; rewrite tonumber_dec; cbn [mbind option_bind]; rewrite Hint; reflexivity|].
  rewrite (proj2 (Z.eqb_neq _ _)) by lia. apply wp_bind, wp_ret, wp_ret, wp_ret. split.
  - unfold reply. repeat case_match; try done; exfalso; bools; lia.
  - unfold keep. rewrite lookup_insert_eq, Hf. cbn [mbind option_bind counterAt e_exp]. unfold counterAt. do 4 f_equal. lia.
Qed.

Lemma more_attempts t0 rs : forall s i, content s !! key = Some (counterAt t0 (Z.of_nat (S i))) -> attempts s rs ->
  Forall (fun tr => t0 <= fst tr <= t0 + 60000)%Z rs -> (Z.of_nat (S i + length rs) < 2 ^ 63)%Z -> map snd rs = map reply (seq (S i) (length rs)).
Proof.
  induction rs as [|[t r] rs IH]; intros s i Hk Ha Hf Hlen; [done|]. cbn [length] in Hlen. inversion Ha as [|? s1 s2 ? ? ? Es E Hrs]; subst.
  inversion Hf as [|? ? Ht Hrest]; subst. rewrite <- Es in Hk.
  destruct (run_wp _ _ _ _ _ _ E (next_attempt t0 t i (content s1) ltac:(lia) Ht Hk)) as [-> Hk2].
  cbn [map length seq snd]. f_equal. apply (IH s2); [done..|lia].
Qed.

(** A limit holds. From the first attempt of a window on, exactly the first
    [limit] attempts of the minute are allowed and every other one is refused; scripts
    that leave the counter alone may run between them, and [INCR] does not overflow. *)
Theorem attempts_limited s t0 r rs :
  find t0 (content s) key = None -> attempts s ((t0, r) :: rs) ->
  Forall (fun tr => t0 <= fst tr <= t0 + 60000)%Z rs -> (Z.of_nat (S (length rs)) < 2 ^ 63)%Z ->
  r :: map snd rs = map reply (seq 0 (S (length rs))).
Proof.
  intros Hf Ha Ht Hlen. inversion Ha as [|? s1 s2 ? ? ? Es E Hrs]; subst.
  assert (find t0 (content s1) key = None) as Hf1 by (unfold find in *; by rewrite Es).
  destruct (run_wp _ _ _ _ _ _ E (first_attempt t0 (content s1) Hf1)) as [-> Hk].
  cbn [seq map]. f_equal. by apply (more_attempts t0 rs s2 0).
Qed.
End limits.

(** ** Examples *)

#[local] Instance example_platform : Platform := asciiPlatform.
#[local] Instance example_crypto : Crypto := exampleCrypto.
#[local] Instance example_urls : UrlParser := exampleUrls.
#[local, refine] Instance example_cipher : ReplayCipher := {| encryptText _ _ _ text := text; decryptText _ _ c := Some c |}.
Proof. done. Defined.

Definition example_pairing : pairingConfig := PairingConfig 600 900 5000 [] None.

(** A code of worker "w", issued and redeemed. *)
Definition example_redemption : Redemption :=
  RedemptionArgs (js "pairing") (js "0") (js "stored") 900 (js "digest") (js "identity") [] 0 (js "0") [].
Definition example_redeem : prog Z := redeemPairingScript (js "w") (pairingKey (js "code")) example_redemption.
Definition example_issued : keyspace := fst (run (issuePairingScript (js "w") (pairingKey (js "code")) (js "pairing") 600) 1000 ∅).
Definition example_redeemed : keyspace := fst (run example_redeem 2000 example_issued).

Lemma code_redeemed_once_witness : snd (run example_redeem 3000 example_redeemed) = Some 0%Z.
Proof.
  refine (proj1 (proj1 (proj2 (code_redeemed_once example_pairing example_issued example_redeemed example_redeemed (js "w") (js "code")
    example_redemption 2000 _ (rtc_refl _ _))) (js "w") example_redemption 3000%Z)).
  apply run_result. vm_compute. reflexivity.
Defined.

(** An enrolled worker answers its challenge. *)
Definition example_completion : Completion :=
  CompletionArgs (js "enrollment") (js "challenge") (js "0") (js "identity") (js "stored") 900 (js "digest") (js "generation") 30.
Definition example_complete : prog Z := completeRecoveryChallengeScript (js "w") (js "nonce") example_completion.
Definition example_challenged : keyspace :=
  fst (run (createRecoveryChallengeScript (js "w") (js "start") (js "nonce") (js "enrollment") 12 (js "challenge") (js "0") 60 (js "generation") 180) 1000
    {[ workerEnrollmentKey (js "w") := Entry (VStr (js "enrollment")) None;
       workerEnrollmentRequiredKey (js "w") := Entry (VStr (js "generation")) None ]}).
Definition example_recovered : keyspace := fst (run example_complete 2000 example_challenged).

Lemma challenge_answered_once_witness :
  snd (run example_complete 2000 example_challenged) = Some 1%Z
  /\ (snd (run example_complete 3000 example_recovered) = Some 0%Z \/ snd (run example_complete 3000 example_recovered) = None).
Proof.
  assert (snd (run example_complete 2000 example_challenged) = Some 1%Z) as E by (vm_compute; reflexivity). split; [exact E|].
  refine (proj2 (proj2 (challenge_answered_once example_challenged example_recovered example_recovered (js "w") (js "nonce") example_completion 2000
    (run_result _ _ _ _ E) (rtc_refl _ _))) (js "w") example_completion 3000%Z).
Defined.

(** Two attempts a minute: the third is refused. *)
Definition example_attempt (t : Z) (s : keyspace) : keyspace * option Z := run (limitRecoveryAttemptsScript (js "k") 2) t s.

Lemma attempts_limited_witness : exists r1 r2 r3,
  attempts (js "k") 2 (∅ : keyspace) [(1000, r1); (2000, r2); (61000, r3)]%Z /\ [r1; r2; r3] = [Some 1; Some 1; Some 0]%Z.
Proof.
  set (s1 := fst (example_attempt 1000 ∅)). set (s2 := fst (example_attempt 2000 s1)).
  assert (attempts (js "k") 2 (∅ : keyspace) [(1000, snd (example_attempt 1000 ∅)); (2000, snd (example_attempt 2000 s1)); (61000, snd (example_attempt 61000 s2))]%Z) as Ha.
  { repeat (eapply attempt; [reflexivity|apply surjective_pairing|]). apply no_attempts. }
  do 3 eexists. split; [exact Ha|].
  refine (attempts_limited (js "k") 2 ∅ 1000 _ [(2000%Z, _); (61000%Z, _)] _ Ha _ _); [reflexivity| |vm_compute; reflexivity].
  repeat apply Forall_cons_2; [vm_compute; split; discriminate..|apply Forall_nil_2].
Defined.
