(* ===== verification/PairingRevocation.v ===== *)
(** * Pairing: a revocation cuts a worker off

    After a revocation, and whatever scripts the replicas run next, the worker has no
    credential and no enrollment, its requests are not authorized, and no code,
    rotation, recovery or registration that dates from before succeeds
    ([revocation_cuts_off]); the incarnation that was active never registers again
    ([revoked_incarnation_fenced]). *)

From stdpp Require Import base list numbers option strings gmap relations.
From Stdlib Require Import ZArith Lia.
From S2P Require Import Prelude JsString Json Protocol ProtocolKeys Redis JsonText BridgeKeys BridgeAdmission BridgeSlots BridgeStore BridgeStoreProofs BridgeRegistration Async BridgeRouting BridgeMethods BridgeRuns ProtocolRequests EnrollmentProtocol EnrollmentProtocolProofs Pairing PairingMethods PairingScripts PairingProofs.

(** A key an index points at. *)
Ltac index_differs :=
  match goal with Hx : indexFamily ?k |- _ =>
    let E := fresh in intros E; (rewrite <- E in Hx || rewrite E in Hx); destruct Hx as [Hx|Hx]; vm_compute in Hx; discriminate Hx end.

(** Keys of another family or of another worker. *)
Ltac key_differs :=
  first [ family_ne
        | match goal with Hne : ?w' <> ?w |- _ =>
            let E := fresh in intros E; unfold identityKey, workerEnrollmentKey, workerPairingIndexKey, pairingGenerationKey in E;
              do 2 apply app_inv_head in E; congruence end
        | index_differs ].

Section cut.
Context `{Platform} `{Runtime} (w : jstr) (n : Z) (Hn : (1 <= n)%Z).

Definition isCode (k : jstr) : Prop := exists code, k = pairingKey code.

(** The state a revocation leaves, [n] being the generation it began. *)
Record cut (ks : keyspace) : Prop := {
  cut_index : indexOk ks;
  cut_generation : exists g, (n <= g)%Z /\ ks !! pairingGenerationKey w = Some (Entry (VStr (dec g)) None);
  cut_identity : ks !! identityKey w = None;
  cut_enrollment : ks !! workerEnrollmentKey w = None;
  cut_codes : forall e k e', ks !! workerPairingIndexKey w = Some e -> e_val e = VStr k -> isCode k -> ks !! k = Some e' ->
    exists t, e_val e' = VStr t /\ lacksGeneration (Some t) = false;
}.

(** The codes issued from now on carry a generation; those redeemed for the worker
    date from before. *)
Definition issuedNow : jstr -> jstr -> jstr -> Prop := fun _ _ text => lacksGeneration (Some text) = false.
Definition issuedBefore : jstr -> jstr -> Redemption -> Prop := fun w' _ x =>
  w' = w -> (x_generation x = [] /\ lacksGeneration (Some (x_raw x)) = true) \/ exists m, x_generation x = dec m /\ (m < n)%Z.

(** A command that keeps the state. *)
Definition cutCmd (R : Type) (c : cmd R) : Prop :=
  goodIndex R c /\
  match c with
  | SET k v _ nx => (k = pairingGenerationKey w -> nx = true) /\ k <> identityKey w /\ k <> workerEnrollmentKey w
      /\ (k = workerPairingIndexKey w -> ~ isCode v) /\ (isCode k -> lacksGeneration (Some v) = false)
  | INCR k => ~ isCode k /\ k <> identityKey w /\ k <> workerEnrollmentKey w /\ k <> workerPairingIndexKey w
  | DEL ks => pairingGenerationKey w ∉ ks
  | PEXPIREAT k _ => k <> pairingGenerationKey w
  | _ => Forall (fun k => ~ isCode k /\ k <> pairingGenerationKey w /\ k <> identityKey w /\ k <> workerEnrollmentKey w
                          /\ k <> workerPairingIndexKey w) (writes c)
  end.

(** The value of a key after a command that may only delete it or keep its value. *)
Lemma exec_value R (c : cmd R) now (ks ks' : keyspace) r k e' :
  exec c now ks = Some (ks', r) -> ks' !! k = Some e' ->
  match c with SET _ _ _ _ => k ∉ writes c | DEL _ | PEXPIREAT _ _ => True | _ => k ∉ writes c end ->
  exists e, ks !! k = Some e /\ e_val e' = e_val e.
Proof.
  intros E He Hc. destruct (decide (k ∈ writes c)) as [Hin|Hout]; [|rewrite (exec_frame c now ks ks' r k E Hout) in He; eauto].
  destruct c; try (by destruct Hc); cbn [exec writes] in *.
  - injection E as <- _. by rewrite delete_in in He.
  - apply list_elem_of_singleton in Hin. subst k0. unfold find in E. destruct (ks !! k) as [e|] eqn:Ek; [|injection E as <- _; congruence].
    destruct (alive now e), (expiry now t); try (injection E as <- _; rewrite Ek in He; injection He as <-; by eauto).
    injection E as <- _. destruct (z <=? now)%Z; [by rewrite lookup_delete_eq in He|]. rewrite lookup_insert_eq in He. injection He as <-. eauto.
Qed.

Lemma exec_gone R (c : cmd R) now (ks ks' : keyspace) r k :
  exec c now ks = Some (ks', r) -> match c with DEL _ | PEXPIREAT _ _ => True | _ => k ∉ writes c end -> ks !! k = None -> ks' !! k = None.
Proof.
  intros E Hc Hk. destruct (ks' !! k) as [e'|] eqn:He; [|done].
  destruct (exec_value R c now ks ks' r k e' E He) as (e & Hek & _); [by destruct c|congruence].
Qed.

(** The keys such a command does not write. *)
Lemma cutCmd_avoids R (c : cmd R) k : cutCmd R c -> k = identityKey w \/ k = workerEnrollmentKey w ->
  match c with DEL _ | PEXPIREAT _ _ => True | _ => k ∉ writes c end.
Proof.
  intros [_ Hc] Hk.
  destruct c; try done; cbn [writes] in *;
    first [ rewrite Forall_forall in Hc; intros Hin; destruct (Hc _ Hin) as (_ & _ & Ha & Hb & _); destruct Hk; congruence
          | rewrite list_elem_of_singleton; intros <-; destruct Hk; naive_solver ].
Qed.

Lemma cutCmd_codes R (c : cmd R) k : cutCmd R c -> isCode k -> k ∈ writes c ->
  match c with SET _ v _ _ => lacksGeneration (Some v) = false | DEL _ | PEXPIREAT _ _ => True | _ => False end.
Proof.
  intros [_ Hc] Hk Hin. destruct c; try done; cbn [writes] in *;
    first [ rewrite Forall_forall in Hc; by destruct (Hc _ Hin) as (? & _)
          | apply list_elem_of_singleton in Hin; subst; naive_solver ].
Qed.

(** An index entry of the worker that names a code was there before. *)
Lemma cutCmd_index R (c : cmd R) now (ks ks' : keyspace) r e k : cutCmd R c -> exec c now ks = Some (ks', r) ->
  ks' !! workerPairingIndexKey w = Some e -> e_val e = VStr k -> isCode k ->
  exists e0, ks !! workerPairingIndexKey w = Some e0 /\ e_val e0 = VStr k.
Proof.
  intros [_ Hc] E He Hv Hk. destruct (decide (workerPairingIndexKey w ∈ writes c)) as [Hin|Hout];
    [|rewrite (exec_frame c now ks ks' r _ E Hout) in He; eauto].
  destruct c; cbn [writes] in Hin;
    first [ rewrite Forall_forall in Hc; destruct (Hc _ Hin) as (_ & _ & _ & _ & ?); done | apply list_elem_of_singleton in Hin; subst | idtac ].
  - destruct Hc as (_ & _ & _ & Hi & _). cbn [exec] in E. destruct (nx && _); injection E as <- _; [eauto|].
    rewrite lookup_insert_eq in He. injection He as <-. injection Hv as ->. by destruct (Hi eq_refl).
  - destruct (exec_value _ _ _ _ _ _ _ _ E He I) as (e0 & He0 & Ev). exists e0. split; [done|congruence].
  - by destruct Hc as (_ & _ & _ & ?).
  - destruct (exec_value _ _ _ _ _ _ _ _ E He I) as (e0 & He0 & Ev). exists e0. split; [done|congruence].
Qed.

Lemma cutCmd_generation R (c : cmd R) now (ks ks' : keyspace) r g : cutCmd R c -> exec c now ks = Some (ks', r) ->
  ks !! pairingGenerationKey w = Some (Entry (VStr (dec g)) None) ->
  exists g', (g <= g')%Z /\ ks' !! pairingGenerationKey w = Some (Entry (VStr (dec g')) None).
Proof.
  intros [_ Hc] E Cg. destruct (decide (pairingGenerationKey w ∈ writes c)) as [Hin|Hout];
    [|exists g; split; [lia|]; by rewrite (exec_frame c now ks ks' r _ E Hout)].
  assert (find now ks (pairingGenerationKey w) = Some (Entry (VStr (dec g)) None)) as Hf by (unfold find; by rewrite Cg).
  destruct c; cbn [writes] in Hin, Hc;
    first [ rewrite Forall_forall in Hc; destruct (Hc _ Hin) as (_ & ? & _); done | apply list_elem_of_singleton in Hin; subst | idtac ];
    try done; cbn [exec] in E.
  - destruct Hc as [Hnx _]. rewrite (Hnx eq_refl), Hf in E. injection E as <- _. exists g. split; [lia|done].
  - rewrite Hf in E. cbn [as_str mbind option_bind] in E. rewrite tonumber_dec in E. cbn [mbind option_bind] in E.
    destruct (isInt64 g && _); [|done]. injection E as <- _. exists (g + 1)%Z.
    split; [lia|]. unfold keep. by rewrite lookup_insert_eq, Hf.
Qed.

Lemma exec_cut R (c : cmd R) now (ks ks' : keyspace) r : cutCmd R c -> exec c now ks = Some (ks', r) -> cut ks -> cut ks'.
Proof.
  intros Hc E [Ci (g & Hgn & Cg) Cd Ce Cc]. split.
  - eapply exec_index; [apply Hc|done|done].
  - destruct (cutCmd_generation R c now ks ks' r g Hc E Cg) as (g' & Hg' & Eg'). exists g'. split; [lia|done].
  - eapply exec_gone; [exact E| |exact Cd]. apply cutCmd_avoids; [done|by left].
  - eapply exec_gone; [exact E| |exact Ce]. apply cutCmd_avoids; [done|by right].
  - intros e k e' He Hv Hk He'. destruct (cutCmd_index R c now ks ks' r e k Hc E He Hv Hk) as (e0 & He0 & Hv0).
    destruct (decide (k ∈ writes c)) as [Hin|Hout]; [|rewrite (exec_frame c now ks ks' r k E Hout) in He'; by eapply Cc].
    pose proof (cutCmd_codes R c k Hc Hk Hin) as Hcode. destruct c; try done.
    + cbn [writes] in Hin. apply list_elem_of_singleton in Hin. subst k0. cbn [exec] in E.
      destruct (nx && _); injection E as <- _; [by eapply Cc|]. rewrite lookup_insert_eq in He'. injection He' as <-. eauto.
    + destruct (exec_value _ _ _ _ _ _ _ _ E He' I) as (e1 & He1 & ->). by eapply Cc.
    + destruct (exec_value _ _ _ _ _ _ _ _ E He' I) as (e1 & He1 & ->). by eapply Cc.
Qed.

Lemma cut_wp {A} (p : prog A) now ks : commands cutCmd p -> cut ks -> wp p now ks (fun _ ks' => cut ks').
Proof. apply eval_keeps. intros. by eapply exec_cut. Qed.

(** ** Every script keeps it *)

Ltac cut_side :=
  first [ reflexivity
        | key_differs
        | intros _; reflexivity
        | let E := fresh in intros E; exfalso; revert E; key_differs
        | let E := fresh in intros [? E]; revert E; key_differs
        | let E := fresh in intros [? E]; exfalso; revert E; key_differs
        | intros _; assumption
        | let E := fresh in intros _ [? E]; revert E; key_differs
        | rewrite ?not_elem_of_cons; repeat split; first [apply not_elem_of_nil | key_differs] ].

Ltac cut_key :=
  split; [index_key|]; cbn [writes];
  first [ apply Forall_nil_2 | solve [repeat split; cut_side] | cut_side ].

Ltac cut_auto :=
  repeat first
    [ apply commands_ret | apply commands_need
    | apply anyExists_commands; intros ?; cut_key
    | solve [apply commands_rd; cut_key]
    | apply commands_bind; [|intros ?]
    | case_match; try match goal with Hv : forall k, Some _ = Some k -> indexFamily k |- _ => specialize (Hv _ eq_refl) end ].

Lemma issue_other w' code text ttl now ks : w' <> w -> issuedNow w' code text -> cut ks ->
  wp (issuePairingScript w' (pairingKey code) text ttl) now ks (fun _ ks' => cut ks').
Proof.
  intros Hne Hi Hc. apply wp_index; [apply Hc| |done]. intros v Hv. apply cut_wp; [|done]. unfold issuedNow in Hi. cut_auto.
Qed.

Lemma redeem_other w' code x now ks : w' <> w -> cut ks -> wp (redeemPairingScript w' (pairingKey code) x) now ks (fun _ ks' => cut ks').
Proof. intros Hne. apply cut_wp. unfold redeemPairingScript, setFor. cut_auto. Qed.

Lemma browser_issue_cut i a w' approval enrollment until maxTtl mark now ks : cut ks ->
  wp (issueBrowserEnrollmentScript (browserEnrollmentKey i a) w' approval enrollment until maxTtl mark) now ks (fun _ ks' => cut ks').
Proof. apply cut_wp. unfold issueBrowserEnrollmentScript, remainingUntil, getOrZero, andAlso. cut_auto. Qed.

Lemma browser_redeem_other i a w' y now ks : w' <> w -> cut ks ->
  wp (redeemBrowserEnrollmentScript (browserEnrollmentKey i a) w' y) now ks (fun _ ks' => cut ks').
Proof. intros Hne. apply cut_wp. unfold redeemBrowserEnrollmentScript, remainingUntil, getOrZero, setFor. cut_auto. Qed.

Lemma rotate_other w' z now ks : w' <> w -> cut ks -> wp (rotateCredentialScript w' z) now ks (fun _ ks' => cut ks').
Proof. intros Hne. apply cut_wp. unfold rotateCredentialScript, getOrZero. cut_auto. Qed.

Lemma revoke_cut w' now ks : cut ks -> wp (revokePairingScript w') now ks (fun _ ks' => cut ks').
Proof. intros Hc. apply wp_index; [apply Hc| |done]. intros v Hv. apply cut_wp; [|done]. cut_auto. Qed.

Lemma create_cut w' nonce challenge enrollment perMinute text pg ttl eg nonceTtl now ks : cut ks ->
  wp (createRecoveryChallengeScript w' nonce challenge enrollment perMinute text pg ttl eg nonceTtl) now ks (fun _ ks' => cut ks').
Proof. apply cut_wp. unfold createRecoveryChallengeScript, enrollmentIs, getOrZero, countInMinute. cut_auto. Qed.

Lemma complete_other w' challenge k now ks : w' <> w -> cut ks ->
  wp (completeRecoveryChallengeScript w' challenge k) now ks (fun _ ks' => cut ks').
Proof. intros Hne. apply cut_wp. unfold completeRecoveryChallengeScript, enrollmentIs, getOrZero, countInMinute. cut_auto. Qed.

(** ** The worker's own scripts *)

Lemma dec_nonempty m : isEmpty (dec m) = false.
Proof.
  apply bool_decide_eq_false_2. intros E. pose proof (tonumber_dec m) as Ht. rewrite E in Ht. by vm_compute in Ht.
Qed.

Lemma as_str_found now (ks : keyspace) k t : as_str (find now ks k) = Some (Some t) ->
  exists e, ks !! k = Some e /\ e_val e = VStr t.
Proof.
  unfold find. destruct (ks !! k) as [e|]; [|done]. destruct (alive now e); [|done]. destruct e as [[] x]; cbn [as_str]; intros; simplify_eq. eauto.
Qed.

(** The generation a script reads. *)
Lemma wp_cut_generation {A} (f : option jstr -> prog A) now ks (Q : option A -> keyspace -> Prop) : cut ks ->
  (forall g, (n <= g)%Z -> wp (f (Some (dec g))) now ks Q) -> wp (rd (GET (pairingGenerationKey w)) ≫= f) now ks Q.
Proof.
  intros [_ (g & Hg & Cg) _ _ _] Hf. apply wp_bind. eapply wp_known; [cbn [exec]; unfold find; rewrite Cg; reflexivity|]. by apply Hf.
Qed.

Lemma issue_own code text ttl now ks : issuedNow w code text -> cut ks ->
  wp (issuePairingScript w (pairingKey code) text ttl) now ks (fun _ ks' => cut ks').
Proof.
  intros Hi Hc. unfold issuedNow in Hi. apply wp_index; [apply Hc| |done]. intros v Hv. apply wp_bind.
  eapply wp_mono; [apply cut_wp; [cut_auto|exact Hc]|]. clear ks Hc. intros [[]|] ks Hc; [|done].
  apply wp_bind. eapply wp_known; [reflexivity|]. apply wp_bind. eapply wp_known; [reflexivity|]. apply wp_ret. cbn [andb expiry].
  destruct Hc as [Ci (g & Hgn & Cg) Cd Ce Cc]. assert (forall k, family k <> PAIRING -> family k <> js "pairing-index" ->
    forall v1 v2 : entry, <[pairingKey code := v1]> (<[workerPairingIndexKey w := v2]> ks) !! k = ks !! k) as Hk.
  { intros k H1 H2 v1 v2. rewrite !lookup_insert_ne; [done|by intros <-..]. }
  split.
  - intros w' e He. rewrite lookup_insert_ne in He by family_ne. destruct (decide (w' = w)) as [->|Hne].
    + rewrite lookup_insert_eq in He. injection He as <-. exists (pairingKey code). split; [done|by left].
    + rewrite lookup_insert_ne in He by (apply not_eq_sym; key_differs). by apply (Ci w').
  - exists g. by rewrite Hk.
  - by rewrite Hk.
  - by rewrite Hk.
  - intros e k e' He Hvk _ He'. rewrite lookup_insert_ne, lookup_insert_eq in He by family_ne. injection He as <-. injection Hvk as <-.
    rewrite lookup_insert_eq in He'. injection He' as <-. eauto.
Qed.

Lemma redeem_own code x now ks : issuedBefore w code x -> cut ks ->
  wp (redeemPairingScript w (pairingKey code) x) now ks (fun r ks' => cut ks' /\ r <> Some 1%Z).
Proof.
  intros Hx Hc. specialize (Hx eq_refl). unfold redeemPairingScript. apply wp_getText; [|done]. intros v Hv.
  destruct (neqStr v (x_raw x)) eqn:Ev; [by apply wp_ret|]. unfold neqStr in Ev. apply negb_false_iff, bool_decide_eq_true in Ev. subst v.
  apply wp_cut_generation; [done|]. intros g Hg. apply wp_bind.
  assert (wp (rd (DEL [pairingKey code]);; Ret 0%Z) now ks (fun r ks' => cut ks' /\ r <> Some 1%Z)) as Hdel.
  { apply wp_and; [apply cut_wp; [cut_auto|done]|]. apply wp_bind. eapply wp_known; [reflexivity|]. by apply wp_ret. }
  destruct Hx as [[-> Hl]|(m & -> & Hm)].
  - change (isEmpty []) with true. cbv iota. apply wp_getText; [|done]. intros index Hindex. apply wp_ret.
    assert (neqStr index (pairingKey code) = true) as ->; [|exact Hdel].
    unfold neqStr. apply negb_true_iff, bool_decide_eq_false. intros ->.
    destruct (as_str_found _ _ _ _ Hindex) as (e & He & Eve). destruct (as_str_found _ _ _ _ Hv) as (e' & He' & Eve').
    destruct (cut_codes _ Hc e (pairingKey code) e' He Eve ltac:(by exists code) He') as (t & Et & Hlt). congruence.
  - rewrite dec_nonempty. apply wp_ret. cbn [default]. rewrite bool_decide_eq_false_2; [exact Hdel|]. intros E%dec_inj. lia.
Qed.

Lemma browser_redeem_own key y now ks : cut ks ->
  wp (redeemBrowserEnrollmentScript key w y) now ks (fun r ks' => ks' = ks /\ forall t, r <> Some (Some t)).
Proof.
  intros Hc. unfold redeemBrowserEnrollmentScript, remainingUntil, getOrZero. apply wp_bind. apply wp_read; [done| |by split].
  intros t. apply wp_ret. do 4 (apply wp_read; [done| |by split]; intros ?). apply wp_bind, wp_cut_generation; [done|]. intros g Hg. apply wp_ret.
  cbn [default]. rewrite (bool_decide_eq_false_2 (dec g = js "0")), orb_true_r by (change (js "0") with (dec 0); intros E%dec_inj; lia).
  by apply wp_ret.
Qed.

Lemma rotate_own z now ks : cut ks -> wp (rotateCredentialScript w z) now ks (fun r ks' => ks' = ks /\ r <> Some 1%Z).
Proof.
  intros Hc. unfold rotateCredentialScript, getOrZero. apply wp_bind.
  apply (wp_mono _ _ _ (fun _ ks' => ks' = ks)).
  { destruct (negb (isEmpty (z_enrollment z))); [|by apply wp_cmd; [intros ks' r [= <- <-]|]].
    apply wp_read; [done| |done]. intros e. apply wp_bind, wp_read; [done| |done]. intros g. apply wp_ret.
    apply wp_read; [done| |done]. intros q. by apply wp_ret. }
  intros [[]|] ks' ->; [by apply wp_ret| |done]. apply wp_bind.
  eapply wp_known; [cbn [exec]; rewrite find_absent by apply Hc; reflexivity|]. apply wp_read; [done| |done]. intros p. by apply wp_ret.
Qed.

Lemma complete_own challenge k now ks : cut ks ->
  wp (completeRecoveryChallengeScript w challenge k) now ks (fun r ks' => ks' = ks /\ r <> Some 1%Z).
Proof.
  intros Hc. unfold completeRecoveryChallengeScript, enrollmentIs, getOrZero. do 2 apply wp_bind.
  eapply wp_known; [cbn [exec]; rewrite find_absent by apply Hc; reflexivity|].
  apply wp_bind, wp_read; [done| |by split]. intros g. apply wp_ret. apply wp_read; [done| |by split]. intros q. apply wp_ret.
  apply wp_read; [done| |by split]. intros saved. by apply wp_ret.
Qed.

Lemma storeKey_other k : storeKey k -> ~ isCode k /\ k <> pairingGenerationKey w /\ k <> identityKey w /\ k <> workerEnrollmentKey w
  /\ forall w', k <> workerPairingIndexKey w'.
Proof.
  intros Hk. split_and!; [intros [code ->]| | | |intros w']; try intros ->; revert Hk;
    match goal with |- storeKey ?k -> False => change (~ storeKey k) end; not_store.
Qed.

(** A command that writes none of the worker's keys. *)
Lemma cutCmd_frame R (c : cmd R) : Forall (fun k => ~ isCode k /\ k <> pairingGenerationKey w /\ k <> identityKey w
  /\ k <> workerEnrollmentKey w /\ forall w', k <> workerPairingIndexKey w') (writes c) -> cutCmd R c.
Proof.
  intros HF. rewrite Forall_forall in HF. split.
  - destruct c; try done; cbn [goodIndex writes] in *; try (intros w' Hin; destruct (HF _ Hin) as (_ & _ & _ & _ & Hx); by apply (Hx w')).
    intros w' <-. destruct (HF (workerPairingIndexKey w') ltac:(left)) as (_ & _ & _ & _ & Hx). by destruct (Hx w').
  - destruct c; cbn [writes] in *;
      try (apply Forall_forall; intros k' Hin; destruct (HF k' Hin) as (? & ? & ? & ? & Hx); split_and!; [done..|apply Hx]);
      try (destruct (HF _ (list_elem_of_here _ _)) as (? & ? & ? & ? & Hx); split_and!; try done; intros E; first [by destruct (Hx w) | done]).
    + intros Hin. by destruct (HF _ Hin) as (_ & ? & _).
    + by destruct (HF _ (list_elem_of_here _ _)) as (_ & ? & _).
Qed.

Lemma migration_other k : family k = js "migration" -> ~ isCode k /\ k <> pairingGenerationKey w /\ k <> identityKey w
  /\ k <> workerEnrollmentKey w /\ forall w', k <> workerPairingIndexKey w'.
Proof. intros Hk. split_and!; [intros [code ->]| | | |intros w']; try intros ->; by vm_compute in Hk. Qed.

(** Every script of every replica keeps the worker cut off. *)
Lemma bridge_cut mayChallenge R (p : prog R) now ks : bridgeScript issuedNow issuedBefore mayChallenge R p -> cut ks ->
  wp p now ks (fun _ ks' => cut ks').
Proof.
  intros [R' p' Hp|R' p' Hp] Hc.
  { apply cut_wp; [|done]. eapply commands_mono; [|exact (storeScript_writes _ _ Hp)]. intros R0 c HF. apply cutCmd_frame.
    eapply Forall_impl; [exact HF|exact storeKey_other]. }
  destruct Hp as [w' code text ttl Hi|w' code x Hx|i a w' approval enrollment until maxTtl mark|i a w' y|w' z|w' Hw|
    w' nonce challenge enrollment perMinute text pg ttl eg nonceTtl Hm|w' challenge k|c m|k limit Hk|keys Hk|R1 p1 Hp].
  - destruct (decide (w' = w)) as [->|]; [by apply issue_own|by apply issue_other].
  - destruct (decide (w' = w)) as [->|]; [|by apply redeem_other]. eapply wp_mono; [by apply redeem_own|]. by intros r ks' [? _].
  - by apply browser_issue_cut.
  - destruct (decide (w' = w)) as [->|]; [|by apply browser_redeem_other]. eapply wp_mono; [by apply browser_redeem_own|]. by intros r ks' [-> _].
  - destruct (decide (w' = w)) as [->|]; [|by apply rotate_other]. eapply wp_mono; [by apply rotate_own|]. by intros r ks' [-> _].
  - by apply revoke_cut.
  - by apply create_cut.
  - destruct (decide (w' = w)) as [->|]; [|by apply complete_other]. eapply wp_mono; [by apply complete_own|]. by intros r ks' [-> _].
  - apply cut_wp; [|done]. cut_auto.
  - apply cut_wp; [|done]. unfold limitRecoveryAttemptsScript, countInMinute.
    destruct Hk as [[? ->]|[(? & ? & ->)|[(? & ? & ->)|[? ->]]]]; cut_auto.
  - apply cut_wp; [|done]. apply commands_rd. split; [done|]. cbn. intros Hin. rewrite Forall_forall in Hk. specialize (Hk _ Hin). by vm_compute in Hk.
  - apply cut_wp; [|done]. eapply commands_mono; [|exact Hp]. intros R0 c HF. apply cutCmd_frame.
    eapply Forall_impl; [exact HF|exact migration_other].
Qed.
End cut.

(** ** The revocation *)

Section revocation.
Context `{Platform} `{Runtime}.

(** The pairing generation a worker is at; it never expires. *)
Definition generationIs (ks : keyspace) (w : jstr) (g : Z) : Prop :=
  (g = 0%Z /\ ks !! pairingGenerationKey w = None) \/ ks !! pairingGenerationKey w = Some (Entry (VStr (dec g)) None).

Lemma incr_generation ks w g now : generationIs ks w g ->
  exec (INCR (pairingGenerationKey w)) now ks =
    if isInt64 g && isInt64 (g + 1) then Some (<[pairingGenerationKey w := Entry (VStr (dec (g + 1))) None]> ks, (g + 1)%Z) else None.
Proof.
  unfold generationIs. cbn [exec]. unfold find, keep. intros [[-> Hg]|Hg]; unfold find; rewrite Hg; cbn [alive e_exp as_str mbind option_bind].
  - done.
  - by rewrite tonumber_dec.
Qed.

(** A step whose effect does not matter. *)
Lemma wp_any {A B} (p : prog A) (f : A -> prog B) now ks (Q : option B -> keyspace -> Prop) :
  (forall a ks', wp (f a) now ks' Q) -> (forall ks', Q None ks') -> wp (p ≫= f) now ks Q.
Proof. intros Hf Hn. apply wp_bind. eapply wp_mono; [apply wp_true|]. intros [a|] ks' _; [apply Hf|apply Hn]. Qed.

(** The keys it clears. *)
Lemma revoke_clears w k now ks : k ∈ [workerPairingIndexKey w; identityKey w; workerEnrollmentKey w] ->
  wp (revokePairingScript w) now ks (fun r ks' => r = Some 1%Z -> ks' !! k = None).
Proof.
  intros Hk. unfold revokePairingScript. do 6 (apply wp_any; [|done]; intros ? ?).
  apply wp_bind. eapply wp_known; [reflexivity|]. eapply wp_mono; [apply (eval_absent k)|by intros ? ? ? _].
  - rewrite !elem_of_cons in Hk. destruct Hk as [-> |[-> |[-> |Hk]]]; [..|by apply not_elem_of_nil in Hk]; absent_auto.
  - apply delete_in. set_solver.
Qed.

(** The generation it begins. *)
Lemma revoke_generation w g now ks : indexOk ks -> generationIs ks w g ->
  wp (revokePairingScript w) now ks (fun r ks' => r = Some 1%Z -> ks' !! pairingGenerationKey w = Some (Entry (VStr (dec (g + 1))) None)).
Proof.
  intros Hi Hg. apply wp_index; [done| |done]. intros v Hv. do 2 (apply wp_getText; [|done]; intros ? _).
  apply wp_bind. pose proof (incr_generation ks w g now Hg) as Hincr.
  destruct (isInt64 g && isInt64 (g + 1)); [|by apply wp_cmd; [intros ks' r; rewrite Hincr|]].
  eapply wp_known; [exact Hincr|]. cbv beta.
  eapply wp_mono; [apply (wp_avoids (pairingGenerationKey w))|intros r ks' -> _; apply lookup_insert_eq].
  repeat first
    [ apply commands_ret
    | solve [apply commands_rd; cbn [writes]; rewrite ?not_elem_of_cons; repeat split; first [apply not_elem_of_nil | key_differs]]
    | apply commands_bind; [|intros ?]
    | case_match; try match goal with Hv : forall k, Some _ = Some k -> indexFamily k |- _ => specialize (Hv _ eq_refl) end ].
Qed.

Lemma revoke_cuts w g now ks : isValidBridgeWorkerId w = true -> indexOk ks -> generationIs ks w g ->
  wp (revokePairingScript w) now ks (fun r ks' => r = Some 1%Z -> cut w (g + 1) ks').
Proof.
  intros Hw Hi Hg. pose proof (fun k Hk => revoke_clears w k now ks Hk) as Hc.
  pose proof (wp_and _ _ _ _ _ (Hc (workerPairingIndexKey w) ltac:(set_solver)) (wp_and _ _ _ _ _ (Hc (identityKey w) ltac:(set_solver))
    (wp_and _ _ _ _ _ (Hc (workerEnrollmentKey w) ltac:(set_solver)) (wp_and _ _ _ _ _ (revoke_generation w g now ks Hi Hg)
      (bridge_indexOk (fun _ _ _ => True) (fun _ _ _ => True) (fun _ => True) _ _ now ks (bs_pairing _ _ _ _ _ (ps_revoke _ _ _ w Hw)) Hi))))) as Hall.
  eapply wp_mono; [exact Hall|]. intros r ks' (Hx & Hd & He & Hn & Hi') Hr. split; [done| |by apply Hd|by apply He|].
  - exists (g + 1)%Z. split; [lia|by apply Hn].
  - intros e k e' E. rewrite Hx in E by done. done.
Qed.
(** ** What a worker that was cut off is refused *)

Lemma read_refused w n digest now ks : cut w n ks ->
  wp (readCredential w digest) now ks (fun r ks' => ks' = ks /\ forall raw active pg er rg, r = Some (raw, active, pg, er, rg) -> active = None).
Proof.
  intros Hc. unfold readCredential. apply wp_read; [done| |done]. intros raw. apply wp_bind.
  eapply wp_known; [cbn [exec]; rewrite find_absent by apply Hc; reflexivity|]. do 3 (apply wp_read; [done| |done]; intros ?).
  apply wp_ret. split; [done|]. by intros ????? [= _ <- _ _ _].
Qed.

Lemma register_refused w n inc text ttl m ei ac ii rr slots now ks : cut w n ks -> (m < n)%Z ->
  wp (registerScript w inc text ttl (dec m) ei ac ii rr slots) now ks (fun r ks' => r = Some (-5)%Z /\ ks' = ks).
Proof.
  intros Hc Hm. unfold registerScript, pairingChanged. rewrite dec_nonempty. apply wp_bind, wp_cut_generation with n; [done|].
  intros g Hg. cbn [default]. rewrite bool_decide_eq_false_2 by (intros E%dec_inj; lia). by repeat apply wp_ret.
Qed.

Context `{Crypto} `{UrlParser}.

Lemma authorize_refused cfg w n args signature :
  iwp (cut w n) (authorize cfg w args signature) (fun o => exists e, o = inl e).
Proof.
  unfold authorize. apply iwp_bind.
  apply (iwp_mono _ _ (fun o => True)); [unfold inClockWindow; case_match; done|].
  intros [e|timely] _; [by exists e|]. apply iwp_bind. unfold pairingErrorIf, throwIf. destruct (negb timely); [by eexists|]. cbn [iwp].
  apply iwp_bind, iwp_await; [|intros t ks reads Hc Er|by eexists].
  - intros t ks Hc. eapply wp_mono; [by eapply read_refused|]. by intros r ks' [-> _].
  - destruct (read_refused w n (sha256hex (q_credential args)) t ks Hc) as [_ Hn].
    destruct reads as [[[[raw active] pg] er] rg]. rewrite (Hn _ _ _ _ _ Er). destruct raw; by eexists.
Qed.

Context {db : Type} `{RedisServer db}.

(** The scripts that run after a revocation at generation [g]: any, as long as no code
    issued later is redeemed for the worker. *)
Definition afterRevocation (w : jstr) (g : Z) : db -> db -> Prop :=
  bridgeStep issuedNow (issuedBefore w (g + 1)) (fun _ => True) None.

Lemma steps_cut w g (s s' : db) : (0 <= g)%Z -> rtc (afterRevocation w g) s s' -> cut w (g + 1) (content s) -> cut w (g + 1) (content s').
Proof.
  intros Hg. apply bridgeSteps_keep. intros R p Hp now ks _ Hc. eapply bridge_cut; [lia|exact Hp|done].
Qed.

(** (C11) A revocation cuts a worker off. Once a worker's pairing is revoked, then after
    any scripts of any replicas (none redeeming a code issued later) it has no
    credential and no enrollment; no request of it is authorized, whatever else happens
    meanwhile; and no code issued before, no credential to rotate, no recovery challenge
    and no browser approval yields a credential. A registration that names the
    generation it was paired at is refused as changed. *)
Theorem revocation_cuts_off cfg (s s1 s2 : db) w g now :
  isValidBridgeWorkerId w = true -> (0 <= g)%Z -> indexOk (content s) -> generationIs (content s) w g ->
  run (revokePairingScript w) now s = (s1, Some 1%Z) -> rtc (afterRevocation w g) s1 s2 ->
  (content s2 !! identityKey w = None /\ content s2 !! workerEnrollmentKey w = None)
  /\ (forall args signature tr s3 o, performs (afterRevocation w g) s2 (authorize cfg w args signature) tr s3 o -> exists e, o = inl e)
  /\ (forall code x t, issuedBefore w (g + 1) w code x -> snd (run (redeemPairingScript w (pairingKey code) x) t s2) <> Some 1%Z)
  /\ (forall z t, snd (run (rotateCredentialScript w z) t s2) <> Some 1%Z)
  /\ (forall challenge k t, snd (run (completeRecoveryChallengeScript w challenge k) t s2) <> Some 1%Z)
  /\ (forall key y t result, snd (run (redeemBrowserEnrollmentScript key w y) t s2) <> Some (Some result))
  /\ (forall inc text ttl m ei ac ii rr slots t, (m <= g)%Z ->
        snd (run (registerScript w inc text ttl (dec m) ei ac ii rr slots) t s2) = Some (-5)%Z).
Proof.
  intros Hw Hg Hi Hgen E Hr.
  pose proof (steps_cut w g s1 s2 Hg Hr (run_wp _ _ _ _ _ _ E (revoke_cuts w g now (content s) Hw Hi Hgen) eq_refl)) as Hc.
  assert (1 <= g + 1)%Z as Hn by lia.
  assert (forall R (p : prog R) t (P : option R -> Prop), wp p t (content s2) (fun r _ => P r) -> P (snd (run p t s2))) as Hrun.
  { intros R p t P Hp. destruct (run p t s2) as [s3 r] eqn:Ep. exact (run_wp _ _ _ _ _ _ Ep Hp). }
  split; [split; apply Hc|]. split_and!.
  - intros args signature tr s3 o Hp. refine (proj2 (iwp_sound (cut w (g + 1)) (afterRevocation w g) _ _ _ _ _ _ Hp _ Hc (authorize_refused cfg w (g + 1) args signature))).
    intros s4 s5 Hs. apply steps_cut; [done|]. by apply rtc_once.
  - intros code x t Hx. apply (Hrun _ _ t (fun r => r <> Some 1%Z)). eapply wp_mono; [by eapply redeem_own|]. by intros r ks' [_ ?].
  - intros z t. apply (Hrun _ _ t (fun r => r <> Some 1%Z)). eapply wp_mono; [by eapply rotate_own|]. by intros r ks' [_ ?].
  - intros challenge k t. apply (Hrun _ _ t (fun r => r <> Some 1%Z)). eapply wp_mono; [by eapply complete_own|]. by intros r ks' [_ ?].
  - intros key y t result. apply (Hrun _ _ t (fun r => r <> Some (Some result))). eapply wp_mono; [by eapply browser_redeem_own|]. by intros r ks' [_ ?].
  - intros inc text ttl m ei ac ii rr slots t Hm. apply (Hrun _ _ t (fun r => r = Some (-5)%Z)).
    eapply wp_mono; [eapply register_refused; [exact Hc|lia]|]. by intros r ks' [? _].
Qed.
End revocation.

(** ** The fenced incarnation *)

Section fenced.
Context `{Platform} `{Runtime} (w inc : jstr) (Hw : isValidBridgeWorkerId w = true) (Hinc : idText inc = true).

Ltac mark_key :=
  cbn [keepsMark writes]; first
    [ exact I
    | rewrite ?not_elem_of_cons; repeat split; first [apply not_elem_of_nil | key_ne | index_differs | family_ne] ].

Ltac mark_auto :=
  repeat first
    [ apply commands_ret | apply commands_need
    | apply anyExists_commands; intros ?; mark_key
    | solve [apply commands_rd; mark_key]
    | apply commands_bind; [|intros ?]
    | case_match; try match goal with Hv : forall k, Some _ = Some k -> indexFamily k |- _ => specialize (Hv _ eq_refl) end ].

(** No script of a replica clears the fence of an incarnation. *)
Lemma fence_kept mayIssue mayRedeem mayChallenge R (p : prog R) now ks :
  bridgeScript mayIssue mayRedeem mayChallenge R p -> indexOk ks -> marked ks (incarnationFenceKey w inc) ->
  wp p now ks (fun _ ks' => marked ks' (incarnationFenceKey w inc)).
Proof.
  intros Hp Hi Hm.
  assert (forall A (q : prog A), commands (keepsMark (incarnationFenceKey w inc)) q -> wp q now ks (fun _ ks' => marked ks' (incarnationFenceKey w inc))) as Hk.
  { intros A q Hq. by apply eval_marked. }
  destruct Hp as [R p Hp|R p Hp]; [by apply (mark_kept (CFenced w inc)); [call_ok|..]|].
  destruct Hp as [w' code text ttl Hc| | | | |w' Hw'| | | |k limit Hl|keys Hf|R1 p1 Hs].
  - apply wp_index; [done| |done]. intros v Hv. apply Hk. mark_auto.
  - apply Hk. each_script ltac:(mark_auto).
  - apply Hk. each_script ltac:(mark_auto).
  - apply Hk. each_script ltac:(mark_auto).
  - apply Hk. each_script ltac:(mark_auto).
  - apply wp_index; [done| |done]. intros v Hv. apply Hk. mark_auto.
  - apply Hk. each_script ltac:(mark_auto).
  - apply Hk. each_script ltac:(mark_auto).
  - apply Hk. mark_auto.
  - apply Hk. each_script ltac:(mark_auto).
  - apply Hk, commands_rd. cbn [keepsMark writes]. intros Hin. rewrite Forall_forall in Hf. specialize (Hf _ Hin). by vm_compute in Hf.
  - apply Hk. eapply commands_mono; [|exact Hs]. intros R' c HF. apply keepsMark_avoids. intros Hin. rewrite Forall_forall in HF.
    specialize (HF _ Hin). by vm_compute in HF.
Qed.
(** A revocation marks the incarnation that was active. *)
Lemma revoke_marks now ks t : find now ks (workerIncarnationKey w) = Some (Entry (VStr inc) t) ->
  wp (revokePairingScript w) now ks (fun r ks' => r = Some 1%Z -> marked ks' (incarnationFenceKey w inc)).
Proof.
  intros Hf. unfold revokePairingScript. do 2 (apply wp_read; [done| |done]; intros ?).
  apply wp_bind. eapply wp_known; [cbn [exec]; rewrite Hf; reflexivity|]. do 4 (apply wp_any; [|done]; intros ? ?).
  apply wp_bind, wp_bind. eapply wp_known; [reflexivity|]. apply wp_ret, wp_ret. intros _. eexists. apply lookup_insert_eq.
Qed.

Context {db : Type} `{RedisServer db}.

(** A revoked machine stays out. The revocation fences the incarnation that was
    registered: after any scripts of any replicas, new pairings included, its
    registration is refused and leaves the active incarnation, its generation and its
    readiness as they are. *)
Theorem revoked_incarnation_fenced mayIssue mayRedeem mayChallenge (s s1 s2 s3 : db) now t
    text ttl pg ei ac ii rr slots now' r :
  indexOk (content s) -> find now (content s) (workerIncarnationKey w) = Some (Entry (VStr inc) t) ->
  run (revokePairingScript w) now s = (s1, Some 1%Z) ->
  rtc (bridgeStep mayIssue mayRedeem mayChallenge None) s1 s2 ->
  run (registerScript w inc text ttl pg ei ac ii rr slots) now' s2 = (s3, r) ->
  (forall k, k <> workerStableIdentityKey w -> content s3 !! k = content s2 !! k) /\ (forall g, r = Some g -> (g < 0)%Z).
Proof.
  intros Hi Hf E Hr E'.
  assert (indexOk (content s2) /\ marked (content s2) (incarnationFenceKey w inc)) as [_ Hm].
  { apply (bridgeSteps_keep mayIssue mayRedeem mayChallenge None (fun ks => indexOk ks /\ marked ks (incarnationFenceKey w inc)) s1 s2); [|done|].
    - intros R p Hp u ks _ [Hi' Hm]. apply wp_and; [by eapply bridge_indexOk|by eapply fence_kept].
    - split; [|exact (run_wp _ _ _ _ _ _ E (revoke_marks now (content s) t Hf) eq_refl)].
      exact (run_wp _ _ _ _ _ _ E (bridge_indexOk mayIssue mayRedeem mayChallenge _ _ now (content s) (bs_pairing _ _ _ _ _ (ps_revoke _ _ _ w Hw)) Hi)). }
  exact (run_wp _ _ _ _ _ _ E' (register_marked (CFenced w inc) w inc text ttl pg ei ac ii rr slots now' _ Hw Hinc (or_introl eq_refl) Hm)).
Qed.
End fenced.

(** ** Examples *)

#[local] Instance example_platform : Platform := asciiPlatform.
#[local] Instance example_crypto : Crypto := exampleCrypto.
#[local] Instance example_urls : UrlParser := exampleUrls.

(** Worker "w" with a credential, revoked. *)
Definition example_paired : keyspace := {[ identityKey (js "w") := Entry (VStr (js "digest")) None ]}.
Definition example_revoked : keyspace := fst (run (revokePairingScript (js "w")) 1000 example_paired).
Definition example_register : prog Z :=
  registerScript (js "w") (js "incarnation-0001") (js "{}") 60 (dec 0) [] [] [] true (js "2").

Lemma revocation_cuts_off_witness :
  example_paired !! identityKey (js "w") <> None /\ example_revoked !! identityKey (js "w") = None
  /\ snd (run example_register 2000 example_revoked) = Some (-5)%Z.
Proof.
  assert (snd (run (revokePairingScript (js "w")) 1000 example_paired) = Some 1%Z) as E by (vm_compute; reflexivity).
  destruct (revocation_cuts_off (PairingConfig 600 900 5000 [] None) example_paired example_revoked example_revoked (js "w") 0 1000)
    as ((Hi & _) & _ & _ & _ & _ & _ & Hr).
  - reflexivity.
  - lia.
  - intros w e Hw. change (example_paired !! workerPairingIndexKey w = Some e) in Hw. unfold example_paired in Hw. apply lookup_singleton_Some in Hw as [Hk _]. exfalso. revert Hk. family_ne.
  - left. split; reflexivity.
  - exact (run_result _ _ _ _ E).
  - apply rtc_refl.
  - split; [vm_compute; discriminate|]. split; [exact Hi|]. apply Hr. lia.
Defined.
