(* ===== verification/PairingRuns.v ===== *)
(** * Pairing: what the methods send

    Every script a method of the pairing store sends is one of [pairingScript]
    ([pairing_methods_send]): the sequences of scripts the other theorems range over
    are those of the code. A request is authorized on a live credential, a proof
    within its window and a fresh nonce ([authorize_sound]); the same proof is accepted
    a second time only by a run that is slow at the end of its window
    ([proof_accepted_once]). *)

From stdpp Require Import base list numbers option strings gmap relations.
From Stdlib Require Import ZArith Lia.
From S2P Require Import Prelude JsString Json Protocol ProtocolKeys Redis JsonText BridgeKeys BridgeAdmission BridgeSlots BridgeStore BridgeStoreProofs Async Logs BridgeRouting BridgeMethods BridgeRuns ProtocolRequests EnrollmentProtocol EnrollmentProtocolProofs Pairing PairingMethods PairingScripts PairingProofs.

Section sends.
Context `{Platform} `{Runtime} `{Crypto} `{UrlParser} `{ReplayCipher} (cfg : pairingConfig).

(** The codes [issue] writes, and how [redeem] derives its arguments from the text it
    read. *)
Definition issuedText (w code text : jstr) : Prop :=
  exists expiresAt generation binding, text = stringify (JObj (pairingFields w expiresAt generation binding)).

Definition redeemedText (w code : jstr) (x : Redemption) : Prop :=
  exists v, parse (x_raw x) = Some v /\ v <> JNull /\
    let g := field (default [] (asRecord v)) (js "generation") in
    x_generation x = if nullish g then [] else textOf (default JNull g).

Definition sent (ev : event) : Prop :=
  match ev with @Event R p _ => pairingScript issuedText redeemedText (fun _ => True) R p end.

(** A script of reads, or of writes to the keys of the legacy scan. *)
Lemma sent_scan {R} (p : prog R) r : writesIn (fun k => family k = js "migration") p -> Forall sent [Event p r].
Proof. intros Hp. apply Forall_singleton. by apply ps_scan. Qed.

Lemma mget_reads P keys : writesIn P (mget keys).
Proof.
  induction keys as [|k keys IH]; [done|]. cbn [mget]. apply commands_bind; [apply commands_rd, Forall_nil_2|].
  intros v. apply commands_bind; [exact IH|done].
Qed.

Ltac scan_key := cbn [writes]; repeat first [apply Forall_nil_2 | apply Forall_cons; split; [first [reflexivity | assumption]|]].

Ltac scan_script :=
  apply sent_scan; unfold readCredential, normalizeLegacyScanStateScript, releaseLegacyScanClaimScript, renewLegacyScanClaimScript,
    completeLegacyScanClaimScript, getIs, writesIn;
  repeat first
    [ apply commands_ret | apply mget_reads | solve [apply commands_rd; scan_key]
    | apply commands_bind; [|intros ?] | case_match ].

Ltac sent_event :=
  intros; first
    [ solve [scan_script]
    | solve [apply Forall_singleton; apply ps_issue; by eexists _, _, _]
    | solve [apply Forall_singleton; unfold sent; constructor; unfold limitKey; eauto 8] ].

Create HintDb sentdb.

(** What every method does: it sends such scripts, whatever its outcome. *)
Abbreviation does_sent m := (does (Forall sent) m (fun _ => True)).

Lemma does_sent_bind {A B} (m : act A) (f : A -> act B) : does_sent m -> (forall a, does_sent (f a)) -> does_sent (m ≫= f).
Proof. intros Hm Hf. apply does_bind; [exact _|]. eapply does_mono; [exact Hm|]. by intros [e|a] _. Qed.

Lemma does_sent_try {A} (m : act A) : does_sent m -> does_sent (try m).
Proof. intros Hm. by apply does_try. Qed.

Lemma does_sent_loop {V B A} (v : V) (body : V -> act (V + B)) (k : B -> act A) :
  (forall v, does_sent (body v)) -> (forall b, does_sent (k b)) -> does_sent (Loop v body k).
Proof. intros Hb Hk. apply does_loop; [exact _|]. intros v'. eapply does_mono; [apply Hb|]. by intros [e|[v''|b]] _. Qed.

Lemma does_scan cursor prefix (Q : error + (jstr * list jstr) -> Prop) :
  (forall next l, Forall (fun k => startsWith k prefix = true) l -> Q (inr (next, l))) -> Q (inl CommandFailed) ->
  does (Forall sent) (scan cursor prefix) Q.
Proof.
  intros HQ Hn tr [[next l]|]; cbn; [apply does_done|apply does_throw]; try exact _; [|done]. apply HQ.
  apply Forall_forall. intros k Hk%list_elem_of_In%filter_In. tauto.
Qed.

Ltac sent_auto :=
  repeat first
    [ progress intros
    | apply does_throwIf; [exact _|done|done]
    | apply does_needValue; [exact _|done|done]
    | apply does_await; [sent_event|done|done]
    | apply does_now; [exact _|done] | apply does_aborted; [exact _|done]
    | apply does_delay; [exact _|done] | apply does_random; [exact _|done]
    | apply does_done; [exact _|done] | apply does_throw; [exact _|done]
    | solve [auto with sentdb nocore]
    | apply does_sent_bind | apply does_sent_try | apply does_sent_loop
    | case_match ].

(** ** The legacy scan *)

Lemma matches_subset w keys values k : k ∈ legacyMatches w keys values -> k ∈ keys.
Proof.
  unfold legacyMatches. rewrite list_elem_of_omap. intros ([k' v] & Hin & E). cbn [fst snd] in E. repeat case_match; simplify_eq.
  by apply elem_of_zip_l in Hin.
Qed.

Lemma scanBatches_sent w : does_sent (scanBatches w).
Proof.
  unfold scanBatches. apply does_sent_loop; [|sent_auto]. intros cursor. apply does_bind; [exact _|].
  apply does_scan; [|done]. intros next l Hl. cbn [fst snd]. unfold checkRenewal.
  assert (forall values, Forall (fun k => family k = PAIRING) (legacyMatches w l values)) as Hm.
  { intros values. apply Forall_forall. intros k Hk%matches_subset. rewrite Forall_forall in Hl.
    destruct (proj1 (startsWith_spec _ _) (Hl k Hk)) as [rest ->]. reflexivity. }
  apply does_sent_bind; [sent_auto|]. intros _. apply does_sent_bind; [|sent_auto].
  destruct l as [|k0 l0]; [sent_auto|]. apply does_sent_bind; [sent_auto|]. intros values. specialize (Hm values).
  destruct (legacyMatches w (k0 :: l0) values); sent_auto.
Qed.

Lemma releaseAll_sent {A} claimKey tokens e : family claimKey = js "migration" -> does_sent (@releaseAll A claimKey tokens e).
Proof.
  intros Hk. revert e. induction tokens as [|t tokens IH]; intros e; cbn [releaseAll]; [sent_auto|].
  apply does_sent_bind; [sent_auto|]. intros r. apply IH.
Qed.

Lemma prepare_sent w stateKey claimKey rollback : family stateKey = js "migration" -> family claimKey = js "migration" ->
  does_sent (prepareScan cfg w stateKey claimKey rollback).
Proof. intros Hs Hc. unfold prepareScan, scanDeadline, scanPending, claimScan. sent_auto. Qed.

Lemma claimed_sent w stateKey claimKey token deadline rollback : family stateKey = js "migration" -> family claimKey = js "migration" ->
  does_sent (scanClaimed cfg w stateKey claimKey token deadline rollback).
Proof.
  intros Hs Hc. unfold scanClaimed, checkRenewal, renewClaim. apply does_sent_bind; [apply scanBatches_sent|]. sent_auto.
Qed.

Lemma removeLegacy_sent w : does_sent (removeLegacyPairings cfg w).
Proof.
  unfold removeLegacyPairings. set (stateKey := legacyPairingWorkerScanKey w (rollbackEpoch cfg)).
  assert (family stateKey = js "migration") as Hs by reflexivity.
  assert (family (stateKey ++ js ":claim") = js "migration") as Hc by reflexivity. clearbody stateKey.
  apply does_sent_loop; [|sent_auto]. intros outer. apply does_sent_bind; [apply does_sent_try; by apply prepare_sent|].
  intros [e|[[deadline token]|]]; [by apply releaseAll_sent| |sent_auto].
  apply does_sent_bind; [apply does_sent_try; by apply claimed_sent|]. intros [e|n]; [by apply releaseAll_sent|sent_auto].
Qed.

(** ** The methods *)

#[local] Hint Resolve removeLegacy_sent : sentdb.

Lemma issue_sent w binding : does_sent (issue cfg w binding).
Proof. unfold issue, isoAfter, counterOf. apply does_sent_bind; [auto with sentdb|]. sent_auto. Qed.

Lemma parseProps_does {Q} raw (N : list event -> Prop) `{!TraceProp N} :
  (forall v, parse raw = Some v -> v <> JNull -> Q (inr (default [] (asRecord v)))) -> Q (inl OtherError) -> does N (parseProps raw) Q.
Proof. intros HQ Hn. unfold parseProps. destruct (parse raw) as [[]|] eqn:E; try (apply does_throw; [exact _|done]); (apply does_done; [exact _|]; by apply HQ). Qed.

Lemma redeem_sent w code publicKey : does_sent (redeem cfg w code publicKey).
Proof.
  unfold redeem, isoAfter, counterOf, pairingError, pairingErrorIf.
  apply does_sent_bind; [sent_auto|]. intros raw. apply does_sent_bind; [sent_auto|]. clear raw. intros raw.
  apply does_bind; [exact _|]. apply parseProps_does; [exact _| |done]. intros v Ev Hv.
  apply does_sent_bind; [sent_auto|intros _]. apply does_sent_bind; [sent_auto|intros _].
  apply does_sent_bind; [case_match; [apply does_sent_bind; [auto with sentdb|sent_auto]|sent_auto]|intros _].
  apply does_sent_bind; [sent_auto|intros credential]. apply does_sent_bind; [sent_auto|intros expiresAt].
  apply does_sent_bind; [sent_auto|intros identityId]. apply does_sent_bind; [sent_auto|intros pg].
  apply does_sent_bind; [sent_auto|intros eg]. apply does_sent_bind; [|sent_auto].
  apply does_await; [|done|done]. intros r. apply Forall_singleton. apply ps_redeem. by exists v.
Qed.

Lemma revoke_sent w : isValidBridgeWorkerId w = true -> does_sent (revoke cfg w).
Proof. intros Hw. unfold revoke. apply does_sent_bind; [auto with sentdb|]. sent_auto. Qed.

Lemma enrolledAs_sent w c raw pg rg : does_sent (enrolledAs cfg w c raw pg rg).
Proof. unfold enrolledAs, orInvalid, pairingErrorIf, pairingError. sent_auto. Qed.

#[local] Hint Resolve enrolledAs_sent : sentdb.

Lemma authorize_sent w args signature : does_sent (authorize cfg w args signature).
Proof.
  unfold authorize, inClockWindow, parseProps, counterOf, pairingErrorIf, pairingError.
  sent_auto.
Qed.

Lemma rotate_sent w expected : does_sent (rotate cfg w expected).
Proof.
  unfold rotate, issueCredential, isoAfter, parseProps, pairingErrorIf, pairingError. sent_auto.
Qed.

Lemma challenge_sent w request signature : does_sent (createRecoveryChallenge cfg w request signature).
Proof.
  unfold createRecoveryChallenge, recoveryOr, orInvalid, inClockWindow, isoAfter, pairingErrorIf, pairingError. sent_auto.
Qed.

Lemma recover_sent w proof signature : does_sent (recoverCredential cfg w proof signature).
Proof.
  unfold recoverCredential, recoveryOr, orInvalid, notExpired, isoAfter, limited, pairingErrorIf, pairingError. sent_auto.
Qed.

Lemma browser_issue_sent approval : does_sent (issueBrowserEnrollment cfg approval).
Proof.
  unfold issueBrowserEnrollment, approvalTimely, pairingErrorIf, pairingError. sent_auto.
Qed.

Lemma browser_status_sent proof : does_sent (browserEnrollmentStatus cfg proof).
Proof. unfold browserEnrollmentStatus, pendingApproval, notExpired, pairingErrorIf, pairingError. sent_auto. Qed.

Lemma browser_redeem_sent proof adminToken : does_sent (redeemBrowserEnrollment cfg proof adminToken).
Proof.
  unfold redeemBrowserEnrollment, limited, isoAfter, encryptEnrollmentReplay, decryptEnrollmentReplay, orInvalid, notExpired, pairingErrorIf, pairingError.
  sent_auto.
Qed.

(** The public methods of the store. *)
Inductive pairingMethod : forall A, act A -> Prop :=
| pm_peer peer : pairingMethod unit (limitBrowserEnrollmentPeer cfg peer)
| pm_untrusted peer operation : pairingMethod unit (limitUntrustedRecovery cfg peer operation)
| pm_issue w binding : pairingMethod BridgePairing (issue cfg w binding)
| pm_redeem w code publicKey : pairingMethod BridgeWorkerCredential (redeem cfg w code publicKey)
| pm_revoke w : isValidBridgeWorkerId w = true -> pairingMethod unit (revoke cfg w)
| pm_authorize w args signature : pairingMethod Authorization (authorize cfg w args signature)
| pm_rotate w expected : pairingMethod BridgeWorkerCredential (rotate cfg w expected)
| pm_challenge w request signature : pairingMethod BridgeRecoveryProofInput (createRecoveryChallenge cfg w request signature)
| pm_recover w proof signature : pairingMethod BridgeWorkerCredential (recoverCredential cfg w proof signature)
| pm_browser_issue approval : pairingMethod json (issueBrowserEnrollment cfg approval)
| pm_browser_status proof : pairingMethod enrollmentStatus (browserEnrollmentStatus cfg proof)
| pm_browser_redeem proof adminToken : pairingMethod json (redeemBrowserEnrollment cfg proof adminToken).

(** Every public method of the pairing store, in every run, sends only scripts of
    [pairingScript]: a code is written with its worker's generation, and redeemed with
    the generation of the text that was read. *)
Theorem pairing_methods_send {db} `{RedisServer db} (others : db -> db -> Prop) A (m : act A) s tr s' o :
  pairingMethod A m -> performs others s m tr s' o -> Forall sent tr.
Proof.
  intros Hm Hp. refine (proj1 (does_sound others (Forall sent) m (fun _ => True) s tr s' o Hp _)).
  destruct Hm; eauto using issue_sent, redeem_sent, revoke_sent, authorize_sent, rotate_sent, challenge_sent, recover_sent,
    browser_issue_sent, browser_status_sent, browser_redeem_sent.
  all: unfold limitBrowserEnrollmentPeer, limitUntrustedRecovery, recoveryOr, limited, pairingErrorIf, pairingError; sent_auto.
Qed.
End sends.

(** ** Authorization *)

Section authorization.
Context `{Platform} `{Runtime} `{Crypto} `{UrlParser} (cfg : pairingConfig) (w : jstr) (args : BridgeRequestProofInput) (signature : jstr).

Abbreviation digest := (sha256hex (q_credential args)).

(** The credential belongs to the worker and its key signed the request; it is the
    active one or has its identity; an enrollment, where there is one, agrees. *)
Record authorized (raw activeDigest : jstr) (pg er rg : option jstr) (tr : list event) (a : Authorization) : Prop := {
  auth_read : Event (readCredential w digest) (Some (Some raw, Some activeDigest, pg, er, rg)) ∈ tr;
  auth_stored : exists v publicKey, parse raw = Some v /\ field (default [] (asRecord v)) (js "workerId") = Some (JStr w)
    /\ field (default [] (asRecord v)) (js "publicKey") = Some (JStr publicKey) /\ verifyBridgeRequest publicKey args signature = true;
  auth_active : activeDigest = digest \/ exists v activeRaw, parse raw = Some v
    /\ Event (rd (GET (credentialDigestKey activeDigest))) (Some activeRaw) ∈ tr
    /\ sameIdentity (default [] (asRecord v)) (default [] ((activeRaw ≫= parse) ≫= asRecord)) = true;
  auth_enrolled : is_Some er \/ is_Some rg -> exists v e, parse raw = Some v /\ checkedEnrollment cfg w er pg rg = Some e
    /\ checkEnrolledCredential (default [] (asRecord v)) e = true;
  auth_nonce : last tr = Some (Event (markProof (q_credential args) (q_nonce args)) (Some true));
  auth_result : au_workerId a = w /\ au_credentialId a = digest /\ au_activeCredentialId a = activeDigest
    /\ Some (au_pairingGeneration a) = tonumber (default (js "0") pg);
}.

(** The credential is the active one, or has its identity. *)
Definition activeChecked (v : json) (active : jstr) (first : event) (tr : list event) (o : error + unit) : Prop :=
  match o with
  | inl _ => True
  | inr _ => first ∈ tr /\
      (active = digest \/ exists activeRaw, Event (rd (GET (credentialDigestKey active))) (Some activeRaw) ∈ tr
         /\ sameIdentity (default [] (asRecord v)) (default [] ((activeRaw ≫= parse) ≫= asRecord)) = true)
  end.

Lemma awp_pairingErrorIf b c tr (Q : list event -> error + unit -> Prop) :
  (b = true -> Q tr (inl (PairingError c))) -> (b = false -> Q tr (inr tt)) -> awp (pairingErrorIf b c) tr Q.
Proof. intros Ht Hf. unfold pairingErrorIf, throwIf. destruct b; cbn [awp]; auto. Qed.

Lemma awp_parseProps raw tr (Q : list event -> error + Json.record -> Prop) :
  (forall e, Q tr (inl e)) -> (forall v, parse raw = Some v -> Q tr (inr (default [] (asRecord v)))) -> awp (parseProps raw) tr Q.
Proof. intros He Hr. unfold parseProps. destruct (parse raw) as [v|]; [|apply He]. destruct v; try apply He; by apply Hr. Qed.

Lemma awp_inClockWindow timestamp tr (Q : list event -> error + bool -> Prop) :
  (forall b, (b = true -> is_Some (parseDate timestamp)) -> Q tr (inr b)) -> awp (inClockWindow timestamp) tr Q.
Proof. intros HQ. unfold inClockWindow. destruct (parseDate timestamp); [intros clock|]; apply HQ; [by eexists|done]. Qed.

(** The checks of an enrollment send nothing. *)
Lemma awp_enrolledAs stored er pg rg tr (Q : list event -> error + option Json.record -> Prop) :
  (forall e, Q tr (inl e)) ->
  (forall r, (is_Some er \/ is_Some rg -> exists e, checkedEnrollment cfg w er pg rg = Some e /\ checkEnrolledCredential stored e = true) -> Q tr (inr r)) ->
  awp (enrolledAs cfg w stored er pg rg) tr Q.
Proof.
  intros He Hr. unfold enrolledAs. case_match eqn:Ec.
  - destruct (checkedEnrollment cfg w er pg rg) as [e|] eqn:E; cbn [orInvalid]; [|apply He].
    cbn [mbind act_bind abind]. unfold pairingErrorIf, throwIf. destruct (checkEnrolledCredential stored e) eqn:Ek; cbn; [|apply He].
    apply Hr. intros _. by exists e.
  - cbn [awp]. apply Hr. intros Hs. apply orb_false_iff in Ec as [Ec E2]. apply orb_false_iff in Ec as [_ E1].
    apply bool_decide_eq_false in E1, E2. tauto.
Qed.

(** (C12) A request is authorized only on a live credential of the worker (the active
    one, or one of the same identity), with a proof that its key signed and whose
    timestamp could be read, and after its nonce was accepted as fresh; a worker with an
    enrollment, or one that requires it, must match it. *)
Theorem authorize_sound {db} `{RedisServer db} (others : db -> db -> Prop) s tr s' a :
  performs others s (authorize cfg w args signature) tr s' (inr a) ->
  is_Some (parseDate (q_timestamp args)) /\ exists raw activeDigest pg er rg, authorized raw activeDigest pg er rg tr a.
Proof.
  intros Hp.
  set (P := fun tr (o : error + Authorization) => match o with inl _ => True | inr a =>
    is_Some (parseDate (q_timestamp args)) /\ exists raw activeDigest pg er rg, authorized raw activeDigest pg er rg tr a end).
  enough (awp (authorize cfg w args signature) [] P) as HW by exact (awp_sound others _ _ _ _ _ Hp [] _ HW). clear Hp.
  unfold authorize. apply awp_bind, awp_inClockWindow. intros timely Hts. apply awp_bind, awp_pairingErrorIf; [done|].
  intros ->%negb_false_iff. specialize (Hts eq_refl).
  apply awp_bind, awp_await; [|done]. cbn [app]. intros [[[[[raw|] [active|]] pg] er] rg]; try done.
  apply awp_bind, awp_parseProps; [done|]. intros v Ev. apply awp_bind, awp_enrolledAs; [done|]. intros en Hen.
  set (first := Event (readCredential w digest) _). apply awp_bind.
  apply (awp_mono _ _ (activeChecked v active first)).
  - case_bool_decide as Ed; [split; [set_solver|by left]|]. apply awp_bind, awp_await; [|done]. intros activeRaw. apply awp_bind.
    assert (forall r, r = default [] ((activeRaw ≫= parse) ≫= asRecord) ->
      awp (pairingErrorIf (negb (sameIdentity (default [] (asRecord v)) r)) CREDENTIAL_INVALID)
        ([first] ++ [Event (rd (GET (credentialDigestKey active))) (Some activeRaw)]) (activeChecked v active first)) as Hsame.
    { intros r ->. apply awp_pairingErrorIf; [done|]. intros E%negb_false_iff. split; [set_solver|]. right. exists activeRaw. split; [set_solver|done]. }
    destruct activeRaw as [text|]; [destruct (parse text) eqn:Et|]; cbn [awp]; [|done|]; apply Hsame; cbn [mbind option_bind]; by rewrite ?Et.
  - intros tr1 [e|[]]; [done|]. intros [Hfirst Hact]. apply awp_bind, awp_pairingErrorIf; [done|]. intros Ew%negb_false_iff.
    apply awp_bind, awp_pairingErrorIf; [done|]. intros Ek%negb_false_iff. apply awp_bind, awp_await; [|done].
    intros accepted. apply awp_bind, awp_pairingErrorIf; [done|]. intros ->%negb_false_iff.
    unfold counterOf. destruct (tonumber (default (js "0") pg)) as [g|] eqn:Eg; [|done].
    split; [done|]. exists raw, active, pg, er, rg. split; [set_solver| | | | |].
    + unfold eqStr, strTest in *. repeat case_match; simplify_eq. apply bool_decide_eq_true in Ew. subst. eexists v, _. by split_and!.
    + destruct Hact as [->|(activeRaw & Hin & Hsame)]; [by left|]. right. exists v, activeRaw. split_and!; [done|set_solver|done].
    + intros Hs. destruct (Hen Hs) as (e & He & Hk). by exists v, e.
    + apply last_snoc.
    + done.
Qed.
End authorization.

(** ** Replays *)

Section replays.
Context `{Platform} `{Runtime} `{Crypto} `{UrlParser} {db : Type} `{RedisServer db} (others : db -> db -> Prop).

(** The run read its clock [c] within the window of the timestamp before anything
    else, and marked the proof as used, at Redis time [t], last. *)
Definition acceptedAt (args : BridgeRequestProofInput) (log : list (mark db)) (c t : Z) (m m' : db) : Prop :=
  exists between timestamp,
    log = ReadClock c :: between ++ [Sent (markProof (q_credential args) (q_nonce args)) t m m' (Some true)]
    /\ parseDate (q_timestamp args) = Some timestamp /\ (Z.abs (c - timestamp) <= PROOF_CLOCK_SKEW_MS)%Z
    /\ run (markProof (q_credential args) (q_nonce args)) t m = (m', Some true).

Lemma lwp_pass {A B} (p : act A) (f : A -> act B) log0 log (Q : list (mark db) -> error + B -> Prop) :
  (forall log' e, Q log' (inl e)) -> (forall l a, lwp (f a) (log0 ++ l) Q) -> (exists l, log = log0 ++ l) -> lwp (p ≫= f) log Q.
Proof.
  intros He Hf [l ->]. apply lwp_bind. eapply lwp_mono; [apply lwp_grows|]. intros log' [e|a] [l' ->]; [apply He|].
  rewrite <- app_assoc. apply Hf.
Qed.

Lemma authorize_log cfg w args signature s log s' a : logged others s (authorize cfg w args signature) log s' (inr a) ->
  exists c t m m', acceptedAt args log c t m m'.
Proof.
  intros Hl. set (P := fun log (o : error + Authorization) => match o with inl _ => True | inr _ => exists c t m m', acceptedAt args log c t m m' end).
  enough (lwp (authorize cfg w args signature) [] P) as HW by exact (lwp_sound others _ _ _ _ _ Hl [] _ HW). clear Hl.
  assert (forall log e, P log (inl e)) as He by done.
  unfold authorize, inClockWindow. destruct (parseDate (q_timestamp args)) as [timestamp|] eqn:Ets; [|exact I]. apply lwp_bind, lwp_bind, lwp_now.
  intros c. cbn [app lwp]. destruct (Z.leb_spec (Z.abs (c - timestamp)) PROOF_CLOCK_SKEW_MS) as [Hc|]; [|exact I]. cbn [negb].
  do 2 (apply (lwp_pass _ _ [ReadClock c]); [done| |eexists; reflexivity]; intros ? ?).
  match goal with |- context [match ?x with _ => _ end] => destruct x as [[[[[raw|] [active|]] pg] er] rg] end; try exact I.
  do 5 (apply (lwp_pass _ _ [ReadClock c]); [done| |eexists; reflexivity]; intros ? ?).
  apply lwp_bind, lwp_await; [|done]. intros accepted t m m' E. apply lwp_bind.
  unfold pairingErrorIf, throwIf. destruct accepted; [|exact I]. cbn [negb lwp]. unfold counterOf.
  destruct (tonumber _); [|exact I]. cbn. exists c, t, m, m'. eexists _, timestamp. split; [reflexivity|done].
Qed.

(** (C9) A request proof is accepted once, but for a delay. Suppose two runs of
    [authorize] accept the same proof, and only scripts of the bridge run between the
    two marks. Then the second mark was made after the first had expired, although both
    runs had found the proof's timestamp within the clock window: so from its reading of
    the clock to its mark the second run took longer than the first. A replay that does
    not is refused. (Times may be of different clocks: a delay includes the difference
    of the replica's clock and the server's.) *)
Theorem proof_accepted_once mayIssue mayRedeem mayChallenge cfg w args signature s log s' a cfg2 w2 args2 signature2 u log2 u' a2 :
  q_credential args2 = q_credential args -> q_nonce args2 = q_nonce args -> q_timestamp args2 = q_timestamp args ->
  logged others s (authorize cfg w args signature) log s' (inr a) ->
  logged others u (authorize cfg2 w2 args2 signature2) log2 u' (inr a2) ->
  exists c t m m' c2 t2 m2 m2', acceptedAt args log c t m m' /\ acceptedAt args2 log2 c2 t2 m2 m2'
    /\ (indexOk (content m) -> rtc (bridgeStep mayIssue mayRedeem mayChallenge (Some t2)) m' m2 ->
        (t + PROOF_NONCE_TTL_SECONDS * 1000 < t2)%Z /\ (t - c < t2 - c2)%Z).
Proof.
  intros Ec En Et (c & t & m & m' & L1)%authorize_log (c2 & t2 & m2 & m2' & L2)%authorize_log.
  exists c, t, m, m', c2, t2, m2, m2'. split; [done|]. split; [done|]. intros Hi Hr.
  destruct L1 as (_ & ts & _ & E1 & Hc1 & R1), L2 as (_ & ts2 & _ & E2 & Hc2 & R2). rewrite Et, E1 in E2. injection E2 as <-. rewrite Ec, En in R2.
  pose proof (marked_again _ _ _ _ _ _ _ _ _ _ _ Hi R1 Hr R2) as Hlt. split; [done|].
  unfold PROOF_NONCE_TTL_SECONDS, PROOF_CLOCK_SKEW_MS in *. lia.
Qed.
End replays.

(** ** An example *)

#[local] Instance example_platform : Platform := asciiPlatform.
#[local] Instance example_crypto : Crypto := exampleCrypto.
#[local] Instance example_urls : UrlParser := exampleUrls.

(** A worker with a credential sends a signed request. *)
Definition example_credentials : keyspace :=
  {[ credentialDigestKey (sha256hex (js "c")) :=
       Entry (VStr (stringify (JObj [(js "workerId", JStr (js "w")); (js "publicKey", JStr exampleKey)]))) None;
     identityKey (js "w") := Entry (VStr (sha256hex (js "c"))) None ]}.
Definition example_args : BridgeRequestProofInput := RequestProof (js "c") (js "POST") (js "/v1") (js "1000") (js "n") (js "{}").
Definition example_authorize : act Authorization :=
  authorize (PairingConfig 600 900 5000 [] None) (js "w") example_args (signBridgeRequest (js "private") example_args).
Definition example_authorization : Authorization := Authorized (js "w") (sha256hex (js "c")) (sha256hex (js "c")) None 0 None.

Lemma authorize_sound_witness :
  is_Some (parseDate (js "1000")) /\ exists raw active pg er rg,
    authorized (PairingConfig 600 900 5000 [] None) (js "w") example_args (signBridgeRequest (js "private") example_args) raw active pg er rg
      (playedTrace (play 100 example_authorize (World 2000 None 0) example_credentials)) example_authorization.
Proof.
  eapply (authorize_sound (PairingConfig 600 900 5000 [] None) (js "w") example_args (signBridgeRequest (js "private") example_args)
    (fun _ _ => False) example_credentials).
  apply play_performs. vm_compute. reflexivity.
Defined.

(** The proof of [late_args] is accepted when its window opens, and once more when it
    closes: the second run reads the clock in time, and marks the proof ten
    milliseconds later. *)
Definition late_args : BridgeRequestProofInput := RequestProof (js "c") (js "POST") (js "/v1") (js "100000") (js "n") (js "{}").
Definition late_authorize : act Authorization :=
  authorize (PairingConfig 600 900 5000 [] None) (js "w") late_args (signBridgeRequest (js "private") late_args).
Definition late_first : option (list (mark keyspace) * keyspace * (error + Authorization)) := playLog late_authorize [40000; 40000; 40000]%Z example_credentials.
Definition late_between : keyspace := match late_first with Some (_, ks, _) => ks | None => ∅ end.
Definition late_second : option (list (mark keyspace) * keyspace * (error + Authorization)) := playLog late_authorize [160000; 160005; 160010]%Z late_between.
Definition logOf (x : option (list (mark keyspace) * keyspace * (error + Authorization))) : list (mark keyspace) :=
  match x with Some (log, _, _) => log | None => [] end.

Lemma late_logged x times ks : x = playLog late_authorize times ks -> (match x with Some (_, _, inr a) => bool_decide (au_workerId a = js "w") | _ => false end) = true ->
  exists ks' a, logged (fun _ _ : keyspace => False) ks late_authorize (logOf x) ks' (inr a).
Proof.
  intros Ex. destruct x as [[[log ks'] [e|a]]|]; [done| |done]. intros _. exists ks', a. by eapply playLog_logged.
Qed.

Lemma proof_accepted_once_witness : exists c t m m' c2 t2 m2 m2',
  acceptedAt late_args (logOf late_first) c t m m' /\ acceptedAt late_args (logOf late_second) c2 t2 m2 m2'
  /\ (indexOk m -> rtc (bridgeStep (fun _ _ _ => True) (fun _ _ _ => True) (fun _ => True) (Some t2)) m' m2 ->
      (t + PROOF_NONCE_TTL_SECONDS * 1000 < t2)%Z /\ (t - c < t2 - c2)%Z).
Proof.
  destruct (late_logged late_first [40000; 40000; 40000]%Z example_credentials eq_refl ltac:(vm_compute; reflexivity)) as (ks1 & a1 & L1).
  destruct (late_logged late_second [160000; 160005; 160010]%Z late_between eq_refl ltac:(vm_compute; reflexivity)) as (ks2 & a2 & L2).
  exact (proof_accepted_once (fun _ _ : keyspace => False) (fun _ _ _ => True) (fun _ _ _ => True) (fun _ => True)
    _ _ late_args _ _ _ _ _ _ _ late_args _ _ _ _ _ eq_refl eq_refl eq_refl L1 L2).
Defined.
