(* ===== verification/JobCancellation.v ===== *)
(** * Durable job cancellation

    Models the decisions of service/src/job-cancellation.ts (a job is cancelled or its
    result committed, and executed once) and the request tombstones of
    service/src/programmatic-cancellation.ts. A script is a [prog]; [PUBLISH] notifies
    subscribers and leaves the keyspace as it is. The Lua array of a decision is its
    first number and, where there is one, its second element. *)

From stdpp Require Import base list numbers option strings gmap.
From Stdlib Require Import ZArith Lia.
From S2P Require Import Prelude JsString Json Protocol Redis JsonText BridgeKeys BridgeAdmission BridgeSlots BridgeStore Async BridgeRouting BridgeMethods.

(** ** Jobs *)

Definition JOB_CANCELLATION_PREFIX : jstr := js "codeapi:job-cancellation:v1".
Definition JOB_CANCELLED_MESSAGE : string := "Job cancelled after client disconnected".

Record JobTarget := Target { queueName : jstr; jobId : jstr }.

Definition cancellationKey (target : JobTarget) : jstr :=
  JOB_CANCELLATION_PREFIX ++ js ":" ++ encodeURIComponent (queueName target) ++ js ":" ++ encodeURIComponent (jobId target).
Definition resultKey (key : jstr) : jstr := key ++ js ":result".
Definition executionKey (key : jstr) : jstr := key ++ js ":execution".

Definition COMPLETED : jstr := js "completed".
Definition CANCELLED : jstr := js "1".

Definition parseTarget `{Runtime} (raw : jstr) : option JobTarget :=
  match parse raw with
  | Some (JObj r) =>
      match field r (js "queueName"), field r (js "jobId") with
      | Some (JStr q), Some (JStr j) =>
          if ((length q =? 0) || (256 <? length q) || (length j =? 0) || (256 <? length j))%nat then None else Some (Target q j)
      | _, _ => None
      end
  | _ => None
  end.

(** A reply [{code}] or [{code, value}]. *)
Record decision := Decision { d_code : Z; d_value : option jstr }.

Section job.
Context (key : jstr).

(** [if redis.call('PTTL', k) < ms then redis.call('PEXPIRE', k, ms) end]. *)
Definition extendTo (k : jstr) (ms : Z) : prog unit :=
  left ← rd (PTTL k);
  if (left <? ms)%Z then rd (PEXPIREAT k (PX ms)) else Ret tt.

Definition cancelJobScript (ttlSeconds : Z) (includeResult : bool) : prog decision :=
  state ← rd (GET key);
  if bool_decide (state = Some COMPLETED) then
    extendTo key (ttlSeconds * 1000);;
    extendTo (resultKey key) (ttlSeconds * 1000);;
    if includeResult then value ← rd (GET (resultKey key)); Ret (Decision 0 value) else Ret (Decision 0 None)
  else if bool_decide (is_Some state) && neqStr state CANCELLED then Ret (Decision (-1) None)
  else rd (SET key CANCELLED (EX ttlSeconds) false);; Ret (Decision 1 None).

Definition commitJobScript (serialized : jstr) (ttlSeconds deadlineAtMs : Z) : prog Z :=
  state ← rd (GET key);
  match state with
  | Some s => Ret (if bool_decide (s = CANCELLED) then 0 else if bool_decide (s = COMPLETED) then 2 else -2)%Z
  | None =>
      t ← rd TIME;
      if (deadlineAtMs <=? fst t * 1000 + snd t / 1000)%Z then Ret (-1)%Z else
      rd (SET key COMPLETED NOTTL false);;
      rd (SET (resultKey key) serialized NOTTL false);;
      rd (PEXPIREAT key (EX ttlSeconds));;
      rd (PEXPIREAT (resultKey key) (EX ttlSeconds));;
      Ret 1%Z
  end.

Definition claimJobScript (ttlSeconds : Z) : prog decision :=
  state ← rd (GET key);
  match state with
  | Some s =>
      if bool_decide (s = COMPLETED) then value ← rd (GET (resultKey key)); Ret (Decision 0 value)
      else Ret (Decision (if bool_decide (s = CANCELLED) then -1 else -3) None)
  | None =>
      claimed ← rd (SET (executionKey key) (js "1") (EX ttlSeconds) true);
      Ret (Decision (if (claimed : bool) then 1 else -2) None)
  end.
End job.

(** ** The calls *)

Section calls.
Context `{Runtime}.

Definition throwError {A} (message : string) : act A := Throw (Thrown message).

Definition decodeCommittedResult (value : option jstr) : act json :=
  match value with
  | None => throwError "Committed programmatic result expired; refusing re-execution"
  | Some text =>
      match parse text with
      | None => Throw OtherError
      | Some (JObj r) =>
          match field r (js "result") with
          | Some v => Done v
          | None => throwError "Invalid committed programmatic result; refusing re-execution"
          end
      | Some _ => throwError "Invalid committed programmatic result; refusing re-execution"
      end
  end.

Definition jobCancellationRetentionSeconds (localTimeoutMs : Z) (producerTtlSeconds : option Z) : Z :=
  Z.max (- ((- localTimeoutMs) / 1000) * 2 + 180) (default 0%Z producerTtlSeconds).

Definition requestJobCancellation (target : JobTarget) (ttlSeconds : Z) : act bool :=
  d ← await (cancelJobScript (cancellationKey target) (Z.max 1 ttlSeconds) false);
  if (d_code d =? 0)%Z || (d_code d =? 1)%Z then Done (d_code d =? 1)%Z else throwError "Invalid durable cancellation decision".

Inductive commitOutcome := Committed | CommitCancelled | AlreadyCompleted.

Definition MAX_RESULT_BYTES : Z := (16 * 1024 * 1024)%Z.
Definition MAX_SAFE_INTEGER : Z := (2 ^ 53 - 1)%Z.

Definition commitJobResult (target : JobTarget) (result : json) (ttlSeconds : Z) (deadlineAtMs : option Z) : act commitOutcome :=
  let serialized := stringify (JObj [(js "result", result)]) in
  if (MAX_RESULT_BYTES <? byteLength serialized)%Z then throwError "Programmatic completion exceeds the 16 MiB result limit" else
  d ← await (commitJobScript (cancellationKey target) serialized (Z.max 1 ttlSeconds) (default MAX_SAFE_INTEGER deadlineAtMs));
  if (d =? -1)%Z then throwError "Job result commitment exceeded its deadline"
  else if (d =? 1)%Z then Done Committed
  else if (d =? 0)%Z then Done CommitCancelled
  else if (d =? 2)%Z then Done AlreadyCompleted
  else throwError "Invalid durable result commitment".

Inductive claimOutcome := Claimed | ClaimCompleted (result : json).

Definition claimJobExecution (target : JobTarget) (ttlSeconds : Z) : act claimOutcome :=
  d ← await (claimJobScript (cancellationKey target) (Z.max 1 ttlSeconds));
  if (d_code d =? 1)%Z then Done Claimed
  else if (d_code d =? 0)%Z then v ← decodeCommittedResult (d_value d); Done (ClaimCompleted v)
  else if (d_code d =? -1)%Z then throwError JOB_CANCELLED_MESSAGE
  else if (d_code d =? -2)%Z then throwError "Programmatic job already claimed; refusing duplicate execution"
  else throwError "Invalid durable execution claim".

Definition readCommittedJobResult (target : JobTarget) : act (option json) :=
  let key := cancellationKey target in
  reads ← await (state ← rd (GET key); value ← rd (GET (resultKey key)); Ret (state, value));
  if neqStr (fst reads) COMPLETED then Done None else v ← decodeCommittedResult (snd reads); Done (Some v).

Inductive fenceOutcome := FenceCancelled | FenceExpired | FenceCompleted (result : json).

(** What a decision means for the fence. *)
Definition fenceDecision (d : decision) : act fenceOutcome :=
  if (d_code d =? 1)%Z then Done FenceCancelled
  else if (d_code d =? 0)%Z then v ← decodeCommittedResult (d_value d); Done (FenceCompleted v)
  else throwError "Invalid durable cancellation decision".

(** The command races a timer: [inl tt] when the timer wins, and a rejection
    otherwise ends in [inr None]. *)
Definition raced {R} (p : prog R) : act (unit + option R) :=
  r ← try (await p);
  match r with
  | inr d => Done (inr (Some d))
  | inl _ => late ← aborted; Done (if (late : bool) then inl tt else inr None)
  end.

Definition fenceJobCancellation (target : JobTarget) (ttlSeconds deadlineAtMs : Z) : act fenceOutcome :=
  Loop (25, true)%Z (fun st : Z * bool =>
    let '(retryMs, firstAttempt) := st in
    clock ← (if firstAttempt then Done deadlineAtMs else now_);
    if negb firstAttempt && (deadlineAtMs <=? clock)%Z then Done (inr FenceExpired) else
    reply ← raced (cancelJobScript (cancellationKey target) (Z.max 1 ttlSeconds) true);
    match reply with
    | inl _ => Done (inr FenceExpired)
    | inr (Some d) => o ← fenceDecision d; Done (inr o)
    | inr None =>
        clock ← now_;
        delay (Z.min retryMs (Z.max 0 (deadlineAtMs - clock)));;
        Done (inl (Z.min 1000 (retryMs * 2), false))%Z
    end) Done.
End calls.

(** ** Requests

    A request is named by its client; its hash keeps the owner, the cancelled mark and
    the job it became. *)

Definition REQUEST_PREFIX : jstr := js "codeapi:programmatic-cancellation:v1".
Definition requestKey (requestId : jstr) : jstr := REQUEST_PREFIX ++ js ":" ++ requestId.

(** [/^[A-Za-z0-9_-]{16,128}$/] of the trimmed text. *)
Definition normalizeProgrammaticRequestId (value : option json) : option jstr :=
  match value with
  | Some (JStr s) =>
      let t := trim s in
      if ((16 <=? length t) && (length t <=? 128))%nat && forallb (fun c => isAlnum c || oneOf c "_-") t then Some t else None
  | _ => None
  end.

(** [tonumber(redis.call('HGET', key, 'cancelled') or '0')]; a nil reply is [0] for [Number]. *)
Definition cancelledFlag (key : jstr) : prog Z :=
  c ← rd (HGET key (js "cancelled")); Ret (default 0%Z (tonumber (default (js "0") c))).

Definition reserveScript (key owner : jstr) (ttl : Z) : prog Z :=
  existing ← rd (HGET key (js "owner"));
  if bool_decide (is_Some existing) && neqStr existing owner then Ret (-1)%Z else
  reserved ← rd (HGET key (js "reserved"));
  if bool_decide (reserved = Some (js "1")) then Ret (-2)%Z else
  match existing with None => rd (HSET key [(js "owner", owner); (js "cancelled", js "0")]) | Some _ => Ret tt end;;
  rd (HSET key [(js "reserved", js "1")]);;
  rd (PEXPIREAT key (EX ttl));;
  cancelledFlag key.

Definition attachScript (key owner : jstr) (target : JobTarget) (ttl : Z) : prog Z :=
  existing ← rd (HGET key (js "owner"));
  if neqStr existing owner then Ret (-1)%Z else
  rd (HSET key [(js "queueName", queueName target); (js "jobId", jobId target)]);;
  rd (PEXPIREAT key (EX ttl));;
  cancelledFlag key.

(** [{-1}], [{1}] or [{1, queueName, jobId}]. *)
Definition cancelRequestScript (key owner : jstr) (ttl : Z) : prog (option (option JobTarget)) :=
  existing ← rd (HGET key (js "owner"));
  if bool_decide (is_Some existing) && neqStr existing owner then Ret None else
  match existing with None => rd (HSET key [(js "owner", owner)]) | Some _ => Ret tt end;;
  rd (HSET key [(js "cancelled", js "1")]);;
  q ← rd (HGET key (js "queueName"));
  j ← rd (HGET key (js "jobId"));
  match q, j with
  | Some q, Some j => Ret (Some (Some (Target q j)))
  | _, _ => rd (PEXPIREAT key (EX ttl));; Ret (Some None)
  end.

Definition releaseScript (key owner : jstr) : prog Z :=
  existing ← rd (HGET key (js "owner"));
  if neqStr existing owner then Ret 0%Z else
  known ← rd (HGET key (js "finished"));
  rd (HSET key [(js "finished", js "1")]);;
  Ret (if bool_decide (is_Some known) then 0 else 1)%Z.

Inductive reservation := Active | Cancelled | Duplicate | Forbidden.

Definition reserveProgrammaticCancellation (requestId owner : jstr) (ttlSeconds : Z) : act reservation :=
  r ← await (reserveScript (requestKey requestId) owner (Z.max 1 ttlSeconds));
  Done (if (r =? -1)%Z then Forbidden else if (r =? -2)%Z then Duplicate else if (r =? 1)%Z then Cancelled else Active).

Definition attachProgrammaticCancellationTarget (requestId owner : jstr) (target : JobTarget) (ttlSeconds : Z) : act reservation :=
  r ← await (attachScript (requestKey requestId) owner target (Z.max 1 ttlSeconds));
  Done (if (r <? 0)%Z then Forbidden else if (r =? 1)%Z then Cancelled else Active).

(** [None] is forbidden; otherwise accepted, with the target where there is one. *)
Definition cancelProgrammaticRequest (requestId owner : jstr) (ttlSeconds : Z) : act (option (option JobTarget)) :=
  await (cancelRequestScript (requestKey requestId) owner (Z.max 1 ttlSeconds)).

Definition releaseProgrammaticCancellation (requestId owner : jstr) : act unit :=
  await (releaseScript (requestKey requestId) owner);; Done tt.
