(* ===== verification/JobCancellationProofs.v ===== *)
(** * Durable job cancellation: one winner

    Under every sequence of the module's scripts, by any replicas: the first durable
    decision on a job, its cancellation or its result, stands while it is retained
    ([job_decision_final]); a job is claimed once ([job_claimed_once]); a cancelled
    request reaches its job in whichever order the two arrive
    ([request_cancellation_meets_job]). The fence that a caller waits on ends
    ([fence_settles]) and reports what Redis decided ([fence_reports]). *)

From stdpp Require Import base list numbers option strings gmap relations.
From Stdlib Require Import ZArith Lia.
From S2P Require Import Prelude JsString Json Protocol ProtocolPaths ProtocolKeys Redis JsonText BridgeKeys BridgeAdmission BridgeSlots BridgeStore Async BridgeRouting BridgeMethods BridgeStoreProofs BridgeRuns BridgeTermination PairingScripts JobCancellation.

(** ** Keys *)

Lemma encodeURIComponent_colon s : COLON ∉ encodeURIComponent s.
Proof.
  unfold encodeURIComponent. rewrite list_elem_of_bind. intros (b & Hc & _). destruct (isUnreserved b) eqn:Eb.
  - apply list_elem_of_singleton in Hc. subst b. by vm_compute in Eb.
  - assert (forall n, hexDigit n <> COLON) as Hx by (intros n; unfold hexDigit, COLON; case_match; bools; lia).
    rewrite !elem_of_cons, elem_of_nil in Hc. destruct Hc as [Hc|[Hc|[Hc|[]]]]; [done|by apply (Hx (b / 16)%Z)|by apply (Hx (b mod 16)%Z)].
Qed.

(** The parts of a job's keys. *)
Lemma job_parts target : exists q j,
  splitOn COLON (cancellationKey target) = map js ["codeapi"; "job-cancellation"; "v1"] ++ [q; j]
  /\ splitOn COLON (resultKey (cancellationKey target)) = map js ["codeapi"; "job-cancellation"; "v1"] ++ [q; j; js "result"]
  /\ splitOn COLON (executionKey (cancellationKey target)) = map js ["codeapi"; "job-cancellation"; "v1"] ++ [q; j; js "execution"].
Proof.
  exists (encodeURIComponent (queueName target)), (encodeURIComponent (jobId target)).
  pose proof (encodeURIComponent_colon (queueName target)) as Hq. pose proof (encodeURIComponent_colon (jobId target)) as Hj.
  assert (Forall (fun a => COLON ∉ a) (map js ["codeapi"; "job-cancellation"; "v1"]%string)) as Hp.
  { apply (bool_decide_unpack _). by vm_compute. }
  assert (forall l, Forall (fun a => COLON ∉ a) l -> splitOn COLON (joinWith COLON (map js ["codeapi"; "job-cancellation"; "v1"]%string ++ l))
    = map js ["codeapi"; "job-cancellation"; "v1"]%string ++ l) as Hsplit.
  { intros l Hl. apply splitOn_joinWith; [done|]. by apply Forall_app_2. }
  assert (COLON ∉ js "result" /\ COLON ∉ js "execution") as [Hr He] by (split; apply (bool_decide_unpack _); by vm_compute).
  split_and!; [rewrite <- Hsplit by (by repeat constructor)|rewrite <- Hsplit by (by repeat constructor)|rewrite <- Hsplit by (by repeat constructor)];
    f_equal; cbn [map app joinWith]; unfold resultKey, executionKey, cancellationKey; rewrite <- ?app_assoc; reflexivity.
Qed.

Definition jobKeys (key : jstr) : list jstr := [key; resultKey key; executionKey key].

(** Keys of two jobs differ, and so do those of one. *)
Lemma job_keys_distinct t t' : cancellationKey t <> cancellationKey t' ->
  forall k, k ∈ jobKeys (cancellationKey t) -> k ∉ jobKeys (cancellationKey t').
Proof.
  intros Hne k Hk Hk'. destruct (job_parts t) as (q & j & E1 & E2 & E3). destruct (job_parts t') as (q' & j' & E1' & E2' & E3').
  unfold jobKeys in *. rewrite !elem_of_cons, elem_of_nil in Hk, Hk'. revert Hk Hk'.
  intros [-> |[-> |[-> |[]]]] [E|[E|[E|[]]]];
    first [ exact (Hne E) | apply Hne; by apply app_inv_tail in E
          | apply (f_equal (splitOn COLON)) in E; rewrite ?E1, ?E2, ?E3, ?E1', ?E2', ?E3' in E; discriminate E ].
Qed.

Lemma job_keys_own t : let k := cancellationKey t in k <> resultKey k /\ k <> executionKey k /\ resultKey k <> executionKey k.
Proof.
  intros k. destruct (job_parts t) as (q & j & E1 & E2 & E3). fold k in E1, E2, E3.
  split_and!; intros E; apply (f_equal (splitOn COLON)) in E; rewrite ?E1, ?E2, ?E3 in E; discriminate E.
Qed.

Lemma job_key_prefix t k : k ∈ jobKeys (cancellationKey t) -> startsWith k JOB_CANCELLATION_PREFIX = true.
Proof.
  unfold jobKeys, resultKey, executionKey, cancellationKey. rewrite !elem_of_cons, elem_of_nil.
  intros [-> |[-> |[-> |[]]]]; rewrite <- ?app_assoc; apply startsWith_app.
Qed.

(** ** Texts that are retained *)

(** [k] holds the text [v] at least until [x]. *)
Definition kept (ks : keyspace) (k v : jstr) (x : Z) : Prop := exists x', ks !! k = Some (Entry (VStr v) (Some x')) /\ (x <= x')%Z.

Lemma kept_find ks k v x now : kept ks k v x -> (now <= x)%Z -> exists x', find now ks k = Some (Entry (VStr v) (Some x')) /\ (x <= x')%Z.
Proof.
  intros (x' & E & Hx) Hn. exists x'. split; [|done]. unfold find. rewrite E. unfold alive. cbn [e_exp]. by rewrite (proj2 (Z.leb_le _ _)) by lia.
Qed.

Lemma kept_frame {A} (p : prog A) ks k v x now : avoids k p -> kept ks k v x -> wp p now ks (fun _ ks' => kept ks' k v x).
Proof. intros Hp (x' & E & Hx). eapply wp_mono; [by apply wp_avoids|]. intros r ks' E'. exists x'. by rewrite E', E. Qed.

(** A script that reads a retained text. *)
Lemma wp_kept {A} (f : option jstr -> prog A) ks k v x now Q : kept ks k v x -> (now <= x)%Z ->
  wp (f (Some v)) now ks Q -> wp (rd (GET k) ≫= f) now ks Q.
Proof.
  intros Hk Hn Hf. destruct (kept_find _ _ _ _ _ Hk Hn) as (x' & E & _). apply wp_bind.
  eapply wp_known; [cbn [exec]; rewrite E; reflexivity|done].
Qed.

Section scripts.

(** The scripts of the module; a cancellation asks for at least [retention] seconds. *)
Inductive jobScript (retention : Z) : forall R, prog R -> Prop :=
| job_cancel t ttl includeResult : (retention <= ttl)%Z -> jobScript retention decision (cancelJobScript (cancellationKey t) ttl includeResult)
| job_commit t text ttl deadline : jobScript retention Z (commitJobScript (cancellationKey t) text ttl deadline)
| job_claim t ttl : jobScript retention decision (claimJobScript (cancellationKey t) ttl)
| job_other R (p : prog R) : writesIn (fun k => startsWith k JOB_CANCELLATION_PREFIX = false) p -> jobScript retention R p.

Context {db : Type} `{RedisServer db}.

(** A script between the times [since] and [until]. *)
Inductive jobStep (retention since until : Z) (s s' : db) : Prop :=
| job_step R (p : prog R) now r :
    jobScript retention R p -> (since <= now <= until)%Z -> run p now s = (s', r) -> jobStep retention since until s s'.

Lemma jobSteps_keep retention since until (I : keyspace -> Prop) s s' :
  (forall R (p : prog R), jobScript retention R p -> forall now ks, (since <= now <= until)%Z -> I ks -> wp p now ks (fun _ ks' => I ks')) ->
  rtc (jobStep retention since until) s s' -> I (content s) -> I (content s').
Proof.
  intros HI. induction 1 as [s|s s1 s2 [R p now r Hp Ht E] _ IH]; [done|]. intros Hs. apply IH.
  exact (run_wp _ _ _ _ _ _ E (HI R p Hp now (content s) Ht Hs)).
Qed.
End scripts.

(** A script on another job, or of another module, leaves the keys of a job alone. *)
Ltac other_job :=
  unfold cancelJobScript, commitJobScript, claimJobScript, extendTo;
  repeat first
    [ apply commands_ret
    | solve [apply commands_rd; cbn [writes]; rewrite ?not_elem_of_cons; repeat split; first [apply not_elem_of_nil | assumption | apply not_eq_sym; assumption]]
    | apply commands_bind; [|intros ?] | case_match ].

Lemma jobScript_cases t retention (P : forall R, prog R -> Prop) :
  (forall R (p : prog R), (forall k, k ∈ jobKeys (cancellationKey t) -> avoids k p) -> P R p) ->
  (forall ttl includeResult, (retention <= ttl)%Z -> P decision (cancelJobScript (cancellationKey t) ttl includeResult)) ->
  (forall text ttl deadline, P Z (commitJobScript (cancellationKey t) text ttl deadline)) ->
  (forall ttl, P decision (claimJobScript (cancellationKey t) ttl)) ->
  forall R (p : prog R), jobScript retention R p -> P R p.
Proof.
  intros Hother Hcancel Hcommit Hclaim R p Hp.
  assert (forall t', cancellationKey t <> cancellationKey t' -> forall k, k ∈ jobKeys (cancellationKey t) ->
    k <> cancellationKey t' /\ k <> resultKey (cancellationKey t') /\ k <> executionKey (cancellationKey t')) as Hd.
  { intros t' Hne k Hk. pose proof (job_keys_distinct t t' Hne k Hk) as Hn. unfold jobKeys in Hn. set_solver. }
  destruct Hp as [t' ttl inc Httl|t' text ttl deadline|t' ttl|R p Hp].
  - destruct (decide (cancellationKey t = cancellationKey t')) as [<-|Hne]; [by apply Hcancel|].
    apply Hother. intros k Hk. destruct (Hd t' Hne k Hk) as (? & ? & ?). other_job.
  - destruct (decide (cancellationKey t = cancellationKey t')) as [<-|Hne]; [by apply Hcommit|].
    apply Hother. intros k Hk. destruct (Hd t' Hne k Hk) as (? & ? & ?). other_job.
  - destruct (decide (cancellationKey t = cancellationKey t')) as [<-|Hne]; [by apply Hclaim|].
    apply Hother. intros k Hk. destruct (Hd t' Hne k Hk) as (? & ? & ?). other_job.
  - apply Hother. intros k Hk. apply (writesIn_avoids (fun k => startsWith k JOB_CANCELLATION_PREFIX = false)); [done|].
    intros E. by rewrite (job_key_prefix t k Hk) in E.
Qed.

(** ** The decision *)

Section decided.
Context (t : JobTarget).
Abbreviation K := (cancellationKey t).

(** The expiry of a retained text only moves later. *)
Lemma extend_own k v x ms now ks : kept ks k v x -> (now <= x)%Z ->
  wp (extendTo k ms) now ks (fun r ks' => r = Some tt /\ kept ks' k v x /\ forall k', k' <> k -> ks' !! k' = ks !! k').
Proof.
  intros Hk Hn. destruct (kept_find _ _ _ _ _ Hk Hn) as (x' & E & Hx). unfold extendTo. apply wp_bind.
  eapply wp_known; [cbn [exec]; rewrite E; reflexivity|]. cbn [pttl e_exp]. case_match; [|by apply wp_ret].
  eapply wp_known; [cbn [exec]; rewrite E; cbn [expiry e_val]; reflexivity|]. bools.
  rewrite (proj2 (Z.leb_gt _ _)) by lia. split_and!; [done| |intros k' Hne; by rewrite lookup_insert_ne].
  exists (now + ms)%Z. rewrite lookup_insert_eq. split; [done|lia].
Qed.

Definition completed (text : jstr) (x : Z) (ks : keyspace) : Prop := kept ks K COMPLETED x /\ kept ks (resultKey K) text x.

Lemma cancel_completed text x ttl includeResult now ks : completed text x ks -> (now <= x)%Z ->
  wp (cancelJobScript K ttl includeResult) now ks (fun r ks' =>
    completed text x ks' /\ r = Some (Decision 0 (if includeResult then Some text else None))).
Proof.
  intros [Hs Hr] Hn. destruct (job_keys_own t) as (Hne & _ & _). unfold cancelJobScript. eapply wp_kept; [done|done|].
  rewrite bool_decide_eq_true_2 by done. apply wp_bind. eapply wp_mono; [by apply (extend_own K)|].
  intros r1 ks1 (-> & Hs1 & Hf1). assert (kept ks1 (resultKey K) text x) as Hr1 by (destruct Hr as (x' & E & Hx); exists x'; by rewrite Hf1).
  apply wp_bind. eapply wp_mono; [by apply (extend_own (resultKey K))|]. intros r2 ks2 (-> & Hr2 & Hf2).
  assert (kept ks2 K COMPLETED x) as Hs2 by (destruct Hs1 as (x' & E & Hx); exists x'; by rewrite Hf2).
  destruct includeResult; [eapply wp_kept; [done|done|]|]; by apply wp_ret.
Qed.

Lemma commit_completed text x text' ttl deadline now ks : completed text x ks -> (now <= x)%Z ->
  wp (commitJobScript K text' ttl deadline) now ks (fun r ks' => ks' = ks /\ r = Some 2%Z).
Proof. intros [Hs _] Hn. unfold commitJobScript. eapply wp_kept; [done|done|]. by apply wp_ret. Qed.

Lemma claim_completed text x ttl now ks : completed text x ks -> (now <= x)%Z ->
  wp (claimJobScript K ttl) now ks (fun r ks' => ks' = ks /\ r = Some (Decision 0 (Some text))).
Proof.
  intros [Hs Hr] Hn. unfold claimJobScript. eapply wp_kept; [done|done|]. rewrite bool_decide_eq_true_2 by done.
  eapply wp_kept; [done|done|]. by apply wp_ret.
Qed.

(** A commit that wins. *)
Lemma commit_wins text ttl deadline now ks : (1 <= ttl)%Z ->
  wp (commitJobScript K text ttl deadline) now ks (fun r ks' => r = Some 1%Z -> completed text (now + ttl * 1000) ks' /\ (now < deadline)%Z).
Proof.
  intros Httl. destruct (job_keys_own t) as (Hne & _ & _). unfold commitJobScript. apply wp_read; [done| |done]. intros [s|].
  { apply wp_ret. repeat case_match; done. }
  apply wp_bind. eapply wp_known; [reflexivity|]. cbn [fst snd]. case_match; [by apply wp_ret|].
  assert (now < deadline)%Z as Hd by (bools; Z.to_euclidean_division_equations; lia).
  do 2 (apply wp_bind; eapply wp_known; [reflexivity|]). cbn [andb].
  apply wp_bind. eapply wp_known.
  { cbn [exec]. unfold find. rewrite lookup_insert_ne, lookup_insert_eq by done. cbn [alive e_exp expiry e_val]. reflexivity. }
  rewrite (proj2 (Z.leb_gt _ _)) by lia. apply wp_bind. eapply wp_known.
  { cbn [exec]. unfold find. rewrite lookup_insert_ne, lookup_insert_eq by done. cbn [alive e_exp expiry e_val]. reflexivity. }
  rewrite (proj2 (Z.leb_gt _ _)) by lia. apply wp_ret. intros _. split; [|done]. split; exists (now + ttl * 1000)%Z.
  - rewrite lookup_insert_ne, lookup_insert_eq by done. split; [done|lia].
  - rewrite lookup_insert_eq. split; [done|lia].
Qed.

(** A cancellation that wins, again and again. *)
Lemma cancel_wins ttl includeResult now ks :
  wp (cancelJobScript K ttl includeResult) now ks (fun r ks' => r = Some (Decision 1 None) -> kept ks' K CANCELLED (now + ttl * 1000)).
Proof.
  unfold cancelJobScript. apply wp_read; [done| |done]. intros s. case_match.
  { apply wp_bind. eapply wp_mono; [apply wp_true|]. intros [[]|] ks1 _; [|done]. apply wp_bind. eapply wp_mono; [apply wp_true|].
    intros [[]|] ks2 _; [|done]. destruct includeResult; [apply wp_read; [done| |done]; intros v|]; by apply wp_ret. }
  case_match; [by apply wp_ret|]. apply wp_bind. eapply wp_known; [reflexivity|]. apply wp_ret. intros _. exists (now + ttl * 1000)%Z.
  cbn [andb expiry]. by rewrite lookup_insert_eq.
Qed.

Lemma cancel_cancelled x ttl includeResult now ks : kept ks K CANCELLED x -> (now <= x <= now + ttl * 1000)%Z ->
  wp (cancelJobScript K ttl includeResult) now ks (fun r ks' => kept ks' K CANCELLED x /\ r = Some (Decision 1 None)).
Proof.
  intros Hs Hn. unfold cancelJobScript. eapply wp_kept; [done|lia|]. rewrite bool_decide_eq_false_2 by done.
  change (bool_decide (is_Some (Some CANCELLED)) && neqStr (Some CANCELLED) CANCELLED) with false. cbv iota. apply wp_bind.
  eapply wp_known; [reflexivity|]. apply wp_ret. split; [|done]. exists (now + ttl * 1000)%Z. cbn [andb expiry]. rewrite lookup_insert_eq.
  split; [done|lia].
Qed.

Lemma refused_cancelled x now ks : kept ks K CANCELLED x -> (now <= x)%Z ->
  (forall text ttl deadline, wp (commitJobScript K text ttl deadline) now ks (fun r ks' => ks' = ks /\ r = Some 0%Z))
  /\ (forall ttl, wp (claimJobScript K ttl) now ks (fun r ks' => ks' = ks /\ r = Some (Decision (-1) None))).
Proof.
  intros Hs Hn. split; intros; [unfold commitJobScript|unfold claimJobScript]; (eapply wp_kept; [done|done|]); by apply wp_ret.
Qed.
End decided.

(** ** One winner *)

Section winner.
Context {db : Type} `{RedisServer db} (t : JobTarget).
Abbreviation K := (cancellationKey t).

Lemma completed_stays text retention since x s s' :
  rtc (jobStep retention since x) s s' -> completed t text x (content s) -> completed t text x (content s').
Proof.
  apply jobSteps_keep. apply (jobScript_cases t retention (fun R p => forall now ks, (since <= now <= x)%Z -> completed t text x ks ->
    wp p now ks (fun _ ks' => completed t text x ks'))).
  - intros R p Hp now ks Hn [Hs Hr]. apply wp_and; apply kept_frame; try done; apply Hp; unfold jobKeys; set_solver.
  - intros ttl inc _ now ks Hn Hc. eapply wp_mono; [apply (cancel_completed t text x); [done|lia]|]. by intros r ks' [? _].
  - intros text' ttl deadline now ks Hn Hc. eapply wp_mono; [apply (commit_completed t text x); [done|lia]|]. by intros r ks' [-> _].
  - intros ttl now ks Hn Hc. eapply wp_mono; [apply (claim_completed t text x); [done|lia]|]. by intros r ks' [-> _].
Qed.

Lemma cancelled_stays retention since s s' :
  rtc (jobStep retention since (since + retention * 1000)) s s' ->
  kept (content s) K CANCELLED (since + retention * 1000) -> kept (content s') K CANCELLED (since + retention * 1000).
Proof.
  set (x := (since + retention * 1000)%Z).
  apply (jobSteps_keep retention since x (fun ks => kept ks K CANCELLED x)). apply (jobScript_cases t retention (fun R p => forall now ks, (since <= now <= x)%Z -> kept ks K CANCELLED x ->
    wp p now ks (fun _ ks' => kept ks' K CANCELLED x))).
  - intros R p Hp now ks Hn Hs. apply kept_frame; [|done]. apply Hp. unfold jobKeys. set_solver.
  - intros ttl inc Httl now ks Hn Hc. eapply wp_mono; [apply (cancel_cancelled t x); [done|unfold x in *; lia]|]. by intros r ks' [? _].
  - intros text ttl deadline now ks Hn Hc. destruct (refused_cancelled t x now ks Hc) as [Hr _]; [lia|].
    eapply wp_mono; [apply Hr|]. by intros r ks' [-> _].
  - intros ttl now ks Hn Hc. destruct (refused_cancelled t x now ks Hc) as [_ Hr]; [lia|].
    eapply wp_mono; [apply Hr|]. by intros r ks' [-> _].
Qed.

Lemma run_reply {R} (p : prog R) now (s : db) (P : option R -> Prop) (Q : keyspace -> Prop) :
  wp p now (content s) (fun r ks' => Q ks' /\ P r) -> P (snd (run p now s)).
Proof. intros Hp. destruct (run p now s) as [s' r] eqn:E. exact (proj2 (run_wp _ _ _ _ _ _ E Hp)). Qed.

(** (C22) A job has one durable winner. When a result is committed, then through any
    scripts of any replicas and for as long as the commit retains it, every
    cancellation and every claim gets that result and no other commit takes effect.
    When a cancellation wins, then for as long as it is retained (by cancellations that
    ask for no less) every commit is refused as cancelled and no claim starts. *)
Theorem job_decision_final (s s1 s2 : db) since retention :
  (1 <= retention)%Z ->
  (forall text deadline, run (commitJobScript K text retention deadline) since s = (s1, Some 1%Z) ->
     rtc (jobStep 1 since (since + retention * 1000)) s1 s2 ->
     forall now, (now <= since + retention * 1000)%Z ->
       (forall ttl includeResult, snd (run (cancelJobScript K ttl includeResult) now s2)
          = Some (Decision 0 (if includeResult then Some text else None)))
       /\ (forall ttl, snd (run (claimJobScript K ttl) now s2) = Some (Decision 0 (Some text)))
       /\ (forall text' ttl deadline', snd (run (commitJobScript K text' ttl deadline') now s2) = Some 2%Z))
  /\ (forall includeResult, run (cancelJobScript K retention includeResult) since s = (s1, Some (Decision 1 None)) ->
     rtc (jobStep retention since (since + retention * 1000)) s1 s2 ->
     forall now, (now <= since + retention * 1000)%Z ->
       (forall text ttl deadline, snd (run (commitJobScript K text ttl deadline) now s2) = Some 0%Z)
       /\ (forall ttl, snd (run (claimJobScript K ttl) now s2) = Some (Decision (-1) None))).
Proof.
  intros Hret. split.
  - intros text deadline E Hr now Hn.
    pose proof (completed_stays text 1 since _ s1 s2 Hr (proj1 (run_wp _ _ _ _ _ _ E (commit_wins t text retention deadline since (content s) Hret) eq_refl))) as Hc.
    split_and!; intros; eapply (run_reply _ _ _ (fun r => r = _)).
    + by eapply cancel_completed.
    + by eapply claim_completed.
    + by eapply commit_completed.
  - intros inc E Hr now Hn.
    pose proof (cancelled_stays retention since s1 s2 Hr (run_wp _ _ _ _ _ _ E (cancel_wins t retention inc since (content s)) eq_refl)) as Hc.
    destruct (refused_cancelled t _ now (content s2) Hc Hn) as [Hcommit Hclaim].
    split; intros; eapply (run_reply _ _ _ (fun r => r = _)); [apply Hcommit|apply Hclaim].
Qed.

(** ** Claims *)

Lemma claim_first ttl now ks :
  wp (claimJobScript K ttl) now ks (fun r ks' => r = Some (Decision 1 None) ->
    kept ks' (executionKey K) (js "1") (now + ttl * 1000) /\ find now ks K = None).
Proof.
  unfold claimJobScript. apply wp_bind, wp_cmd; [|done]. intros ks' s. cbn [exec]. intros E.
  destruct (find now ks K) as [[[] x]|] eqn:Ef; cbn [as_str mbind option_bind] in E; simplify_eq.
  - case_bool_decide; [apply wp_read; [done| |done]; intros v|]; apply wp_ret; [done|]. by case_bool_decide.
  - apply wp_bind, wp_cmd; [|done]. intros ks1 r. cbn [exec]. destruct (true && _) eqn:Ex; intros [= <- <-]; apply wp_ret; [done|].
    intros _. split; [|done]. exists (now + ttl * 1000)%Z. cbn [expiry]. by rewrite lookup_insert_eq.
Qed.

Lemma claim_again x ttl now ks : kept ks (executionKey K) (js "1") x -> (now <= x)%Z ->
  wp (claimJobScript K ttl) now ks (fun r ks' => kept ks' (executionKey K) (js "1") x /\ r <> Some (Decision 1 None)).
Proof.
  intros Hk Hn. unfold claimJobScript. apply wp_read; [done| |done]. intros [s|].
  - case_bool_decide; [apply wp_read; [done| |done]; intros v|]; apply wp_ret; (split; [done|]); [done|]. by case_bool_decide.
  - destruct (kept_find _ _ _ _ _ Hk Hn) as (x' & E & Hx). apply wp_bind. eapply wp_known.
    { cbn [exec]. rewrite E, bool_decide_eq_true_2 by done. reflexivity. }
    by apply wp_ret.
Qed.

(** (C23) A job is executed once. A claim succeeds only where no decision is stored, and
    through any scripts of any replicas no other claim of the job succeeds while the
    first is retained: a redelivered job is never run beside or after itself. *)
Theorem job_claimed_once (s s1 s2 : db) since ttl :
  run (claimJobScript K ttl) since s = (s1, Some (Decision 1 None)) ->
  rtc (jobStep 1 since (since + ttl * 1000)) s1 s2 ->
  find since (content s) K = None
  /\ forall now ttl', (now <= since + ttl * 1000)%Z -> snd (run (claimJobScript K ttl') now s2) <> Some (Decision 1 None).
Proof.
  intros E Hr. destruct (run_wp _ _ _ _ _ _ E (claim_first ttl since (content s)) eq_refl) as [Hk Hf]. split; [done|].
  intros now ttl' Hn. eapply (run_reply _ _ _ (fun r => r <> _)). apply claim_again with (x := (since + ttl * 1000)%Z); [|done].
  revert Hr Hk. apply (jobSteps_keep 1 since (since + ttl * 1000) (fun ks => kept ks (executionKey K) (js "1") (since + ttl * 1000))).
  apply (jobScript_cases t 1 (fun R p => forall now ks, (since <= now <= since + ttl * 1000)%Z ->
    kept ks (executionKey K) (js "1") (since + ttl * 1000) -> wp p now ks (fun _ ks' => kept ks' (executionKey K) (js "1") (since + ttl * 1000)))).
  - intros R p Hp u ks Hu Hk. apply kept_frame; [|done]. apply Hp. unfold jobKeys. set_solver.
  - intros ttl0 inc _ u ks Hu Hk. destruct (job_keys_own t) as (_ & H1 & H2). apply kept_frame; [other_job|done].
  - intros text ttl0 deadline u ks Hu Hk. destruct (job_keys_own t) as (_ & H1 & H2). apply kept_frame; [other_job|done].
  - intros ttl0 u ks Hu Hk. eapply wp_mono; [apply claim_again; [exact Hk|lia]|]. by intros r ks' [? _].
Qed.
End winner.

(** ** The fence *)

Section fence.
Context `{Runtime} (t : JobTarget) (ttlSeconds deadlineAtMs : Z).
Abbreviation cancelScript := (cancelJobScript (cancellationKey t) (Z.max 1 ttlSeconds) true).

Lemma raced_total {R} (p : prog R) : total (raced p).
Proof. unfold raced. total_run. Qed.

Lemma fenceDecision_total d : total (fenceDecision d).
Proof. unfold fenceDecision, decodeCommittedResult, throwError. total_run. Qed.

(** (C24) The fence always settles: under every environment whose clock does not run
    backwards, whose timers do not fire early and where the raced command or its timer
    settles, each call of [fenceJobCancellation] ends, with a decision, an error or the
    expiry of the deadline. *)
Theorem fence_settles now : halts (fun now' _ => (now <= now')%Z) now (fenceJobCancellation t ttlSeconds deadlineAtMs).
Proof.
  apply twp_halts. unfold fenceJobCancellation. cbn [twp].
  exists (fun (n : nat) (v : Z * bool) now' => n = Z.to_nat (deadlineAtMs - now') + (if snd v then 1 else 0) /\ (25 <= fst v)%Z /\ (now <= now')%Z).
  eexists. split; [split_and!; [reflexivity|cbn; lia|lia]|]. intros n [retryMs first] now1 (-> & Hr & H1). cbn [fst snd] in *.
  apply twp_bind. apply (twp_mono _ _ (fun now2 o => (now1 <= now2)%Z /\ exists c, o = inr c /\ (first = false -> c = now2))).
  { destruct first; [cbn [twp]; split; [lia|]; by eexists|]. intros now2 H2. split; [done|]. by eexists. }
  intros now2 o (H2 & clock & -> & Hc). destruct (negb first && (deadlineAtMs <=? clock)%Z) eqn:Ex; [cbn [twp]; lia|].
  assert (first = false -> (now2 < deadlineAtMs)%Z) as Hlt.
  { intros ->. specialize (Hc eq_refl). subst clock. cbn [negb andb] in Ex. bools. lia. }
  apply twp_bind. eapply twp_mono; [apply raced_total|]. intros now3 [e|[[]|[d|]]] H3; cbn beta in H3; [lia|cbn [twp]; lia| |].
  { apply twp_bind. eapply twp_mono; [apply fenceDecision_total|]. intros now4 [e|o] H4; cbn [twp]; lia. }
  apply twp_bind. intros now4 H4. cbn [twp]. apply twp_bind. intros now5 H5. cbn [twp].
  exists (Z.to_nat (deadlineAtMs - now5) + 0). split; [|split_and!; [reflexivity|cbn; lia|lia]].
  destruct first; [|specialize (Hlt eq_refl)]; lia.
Qed.

(** The events of a run so far: attempts of the one script. *)
Definition attempted (ev : event) : Prop := exists r, ev = Event cancelScript r.

(** What an outcome says of the events. *)
Definition reported (tr : list event) (o : error + fenceOutcome) : Prop :=
  match o with
  | inr FenceCancelled => exists v, Event cancelScript (Some (Decision 1 v)) ∈ tr
  | inr (FenceCompleted result) => exists text r, Event cancelScript (Some (Decision 0 (Some text))) ∈ tr
      /\ parse text = Some (JObj r) /\ field r (js "result") = Some result
  | _ => True
  end.

(** The fence reports what Redis decided: it sends nothing but attempts of the
    cancellation, it reports a cancellation only when one of them won, and a completed
    result only as the committed text that one of them got. *)
Theorem fence_reports {db} `{RedisServer db} (others : db -> db -> Prop) s tr s' o :
  performs others s (fenceJobCancellation t ttlSeconds deadlineAtMs) tr s' o ->
  Forall attempted tr /\ reported tr o.
Proof.
  intros Hp. apply (awp_sound others _ _ _ _ _ Hp [] (fun tr o => Forall attempted tr /\ reported tr o)). clear Hp.
  unfold fenceJobCancellation. apply (awp_loop (fun _ tr => Forall attempted tr)); [apply Forall_nil_2|].
  intros [retryMs first] tr1 Htr. apply awp_bind. apply (awp_mono _ _ (fun tr2 o => tr2 = tr1 /\ exists c, o = inr c)).
  { destruct first; [split; [done|by eexists]|]. intros c. split; [done|by eexists]. }
  intros tr2 o1 [-> [clock ->]]. case_match; [by split|].
  assert (forall r, Forall attempted (tr1 ++ [Event cancelScript r])) as Hev.
  { intros r. apply Forall_app_2; [done|]. apply Forall_singleton. by exists r. }
  apply awp_bind. unfold raced. apply awp_bind, awp_try, awp_await.
  - intros d. cbn [awp]. apply awp_bind. unfold fenceDecision. specialize (Hev (Some d)). destruct d as [code value]. cbn [d_code d_value].
    destruct (Z.eqb_spec code 1) as [->|_]; [split; [done|]; exists value; set_solver|].
    destruct (Z.eqb_spec code 0) as [->|_]; [|by split]. apply awp_bind. unfold decodeCommittedResult, throwError.
    destruct value as [text|]; [|by split]. destruct (parse text) as [[]|] eqn:Ep; cbn [awp]; try by split.
    destruct (field _ _) eqn:Ef; cbn [awp]; [|by split]. split; [done|]. eexists text, _. split_and!; [set_solver|done|done].
  - intros late. cbn [awp]. destruct late; [by split|]. intros clock2. cbn [awp]. intros []. cbn [awp]. apply Hev.
Qed.
End fence.

(** ** Requests *)

(** A hash that holds the fields [fs] at least until [x]. *)
Definition fieldsKept (ks : keyspace) (k : jstr) (fs : gmap jstr jstr) (x : Z) : Prop :=
  exists h x', ks !! k = Some (Entry (VHash h) (Some x')) /\ (x <= x')%Z /\ fs ⊆ h.

Section fields.
Context (k : jstr) (fs : gmap jstr jstr) (x since retention : Z).

(** A command that keeps them. *)
Definition keepsFields (R : Type) (c : cmd R) : Prop :=
  match c with
  | HSET k' fvs => k' = k -> Forall (fun fv => forall v, fs !! fst fv = Some v -> v = snd fv) fvs
  | PEXPIREAT k' (EX ttl) => k' = k -> (retention <= ttl)%Z
  | _ => k ∉ writes c
  end.

Lemma sets_keep (fvs : list (jstr * jstr)) (h : gmap jstr jstr) : Forall (fun fv => forall v, fs !! fst fv = Some v -> v = snd fv) fvs -> fs ⊆ h ->
  fs ⊆ foldl (fun h fv => <[fst fv := snd fv]> h) h fvs.
Proof.
  intros HF. revert h. induction HF as [|[f v] fvs Hv HF IH]; intros h Hh; [done|]. cbn [foldl fst snd] in *. apply IH.
  apply map_subseteq_spec. intros f' v' E. destruct (decide (f' = f)) as [->|Hne].
  - rewrite (Hv _ E). apply lookup_insert_eq.
  - rewrite lookup_insert_ne by done. by eapply lookup_weaken.
Qed.

Lemma exec_fields R (c : cmd R) now (ks ks' : keyspace) r : fs <> ∅ -> (1 <= retention)%Z -> (x <= since + retention * 1000)%Z -> (since <= now <= x)%Z ->
  keepsFields R c -> exec c now ks = Some (ks', r) -> fieldsKept ks k fs x -> fieldsKept ks' k fs x.
Proof.
  intros Hfs Hret Hx Hn Hc E (h & x' & Ek & Hx' & Hf).
  destruct (decide (k ∈ writes c)) as [Hin|Hout]; [|exists h, x'; by rewrite (exec_frame c now ks ks' r k E Hout)].
  assert (find now ks k = Some (Entry (VHash h) (Some x'))) as Efind.
  { unfold find. rewrite Ek. unfold alive. cbn [e_exp]. by rewrite (proj2 (Z.leb_le _ _)) by lia. }
  destruct c; try (by destruct Hc); cbn [writes keepsFields] in *; apply list_elem_of_singleton in Hin; subst k0; cbn [exec] in E; rewrite Efind in E.
  - destruct t as [|ttl|ms|at_ms]; try (by destruct Hc; left). specialize (Hc eq_refl). cbn [expiry e_val] in E. rewrite (proj2 (Z.leb_gt _ _)) in E by lia.
    injection E as <- _. exists h, (now + ttl * 1000)%Z. rewrite lookup_insert_eq. split_and!; [done|lia|done].
  - cbn [as_hash mbind option_bind] in E. injection E as <- _. specialize (sets_keep fvs h (Hc eq_refl) Hf) as Hs. unfold put_hash.
    rewrite decide_False; [|intros E; rewrite E in Hs; apply Hfs, map_empty; intros i; destruct (fs !! i) eqn:Ei; [|done];
      pose proof (lookup_weaken _ _ _ _ Ei Hs) as E'; by rewrite lookup_empty in E'].
    eexists _, x'. unfold keep. rewrite lookup_insert_eq, Efind. split_and!; [done|done|exact Hs].
Qed.
End fields.

(** The scripts on requests, retained for at least [retention] seconds. *)
Inductive requestScript (mayAttach : jstr -> JobTarget -> Prop) (retention : Z) : forall R, prog R -> Prop :=
| req_reserve i owner ttl : (retention <= ttl)%Z -> requestScript mayAttach retention Z (reserveScript (requestKey i) owner ttl)
| req_attach i owner target ttl : mayAttach i target -> (retention <= ttl)%Z ->
    requestScript mayAttach retention Z (attachScript (requestKey i) owner target ttl)
| req_cancel i owner ttl : (retention <= ttl)%Z -> requestScript mayAttach retention _ (cancelRequestScript (requestKey i) owner ttl)
| req_release i owner : requestScript mayAttach retention Z (releaseScript (requestKey i) owner)
| req_other R (p : prog R) : writesIn (fun k => startsWith k REQUEST_PREFIX = false) p -> requestScript mayAttach retention R p.

Ltac other_request :=
  unfold cancelledFlag;
  repeat first
    [ apply commands_ret
    | solve [apply commands_rd; cbn [writes]; rewrite ?not_elem_of_cons; repeat split; first [apply not_elem_of_nil | assumption]]
    | apply commands_bind; [|intros ?] | case_match ].

Section requests.
Context (i owner : jstr) (target : JobTarget) (since retention : Z) (Hret : (1 <= retention)%Z).
Abbreviation x := (since + retention * 1000)%Z.
Abbreviation k := (requestKey i).

Definition ownedBy (fs : gmap jstr jstr) : Prop := fs !! js "owner" = Some owner /\
  forall f v, fs !! f = Some v -> (f, v) ∈ [(js "owner", owner); (js "cancelled", js "1"); (js "queueName", queueName target); (js "jobId", jobId target)].

(** What is stored of a cancelled request, and of one that became a job. *)
Definition cancelledFields : gmap jstr jstr := <[js "owner" := owner]> {[js "cancelled" := js "1"]}.
Definition attachedFields : gmap jstr jstr := <[js "owner" := owner]> (<[js "queueName" := queueName target]> {[js "jobId" := jobId target]}).

Lemma fields_owned fs : fs = cancelledFields \/ fs = attachedFields -> ownedBy fs.
Proof.
  intros [-> | ->]; (split; [apply lookup_insert_eq|]); intros f v; unfold cancelledFields, attachedFields;
    rewrite ?lookup_insert_Some, ?lookup_singleton_Some; intros; destruct_and?; destruct_or?; destruct_and?; subst; set_solver.
Qed.

Context (fs : gmap jstr jstr) (Hfs : ownedBy fs).

Lemma fs_nonempty : fs <> ∅.
Proof. intros E. destruct Hfs as [Ho _]. by rewrite E, lookup_empty in Ho. Qed.

(** Reading a stored field. *)
Lemma wp_field {A} f v (g : option jstr -> prog A) now ks Q : fieldsKept ks k fs x -> fs !! f = Some v -> (now <= x)%Z ->
  wp (g (Some v)) now ks Q -> wp (rd (HGET k f) ≫= g) now ks Q.
Proof.
  intros (h & x' & E & Hx & Hf) Hv Hn Hg. apply wp_bind. eapply wp_known; [|exact Hg]. cbn [exec]. unfold find. rewrite E. unfold alive.
  cbn [e_exp]. rewrite (proj2 (Z.leb_le _ _)) by lia. cbn [as_hash mbind option_bind]. by rewrite (lookup_weaken _ _ _ _ Hv Hf).
Qed.

Lemma wp_fields {A} (p : prog A) now ks : (since <= now <= x)%Z -> commands (keepsFields k fs retention) p -> fieldsKept ks k fs x ->
  wp p now ks (fun _ ks' => fieldsKept ks' k fs x).
Proof.
  intros Hn. apply (eval_keeps (keepsFields k fs retention) (fun ks => fieldsKept ks k fs x)). intros R c ks1 ks2 r Hc E Hk.
  eapply (exec_fields k fs x since retention R c now ks1 ks2 r fs_nonempty Hret); [lia|done|done|done|done].
Qed.

(** A field that the scripts write agrees with what is kept. *)
Lemma field_agrees f v : (forall v', (f, v') ∈ [(js "owner", owner); (js "cancelled", js "1"); (js "queueName", queueName target); (js "jobId", jobId target)] -> v' = v) ->
  forall v', fs !! f = Some v' -> v' = v.
Proof. intros Hv v' E. by apply Hv, Hfs. Qed.

Ltac kept_field :=
  intros _; repeat apply Forall_cons_2; try apply Forall_nil_2; cbn [fst snd]; apply field_agrees; intros v';
  rewrite !elem_of_cons, elem_of_nil; intros; destruct_or?; simplify_eq; reflexivity.

Ltac fields_auto :=
  unfold cancelledFlag;
  repeat first
    [ apply commands_ret | apply commands_need
    | solve [apply commands_rd; cbn [keepsFields writes]; first [apply not_elem_of_nil | kept_field | intros _; assumption]]
    | apply commands_bind; [|intros ?] | case_match ].

(** Only the owner gets past the first guard. *)
Lemma neq_owner owner' : neqStr (Some owner) owner' = negb (bool_decide (owner' = owner)).
Proof. unfold neqStr. f_equal. apply bool_decide_ext. split; congruence. Qed.

Ltac owner_guard owner' :=
  eapply wp_field; [done|apply Hfs|lia|];
  rewrite ?(bool_decide_eq_true_2 (is_Some (Some owner))) by done; cbn [andb]; rewrite neq_owner;
  destruct (bool_decide_reflect (owner' = owner)) as [->|Hne]; cbn [negb]; [|by apply wp_ret].

Lemma reserve_keeps owner' ttl now ks : (since <= now <= x)%Z -> (retention <= ttl)%Z -> fieldsKept ks k fs x ->
  wp (reserveScript k owner' ttl) now ks (fun r ks' => fieldsKept ks' k fs x /\ (owner' <> owner -> r = Some (-1)%Z)).
Proof.
  intros Hn Httl Hk. unfold reserveScript. owner_guard owner'.
  eapply wp_mono; [apply wp_fields; [done|fields_auto|done]|]. by intros r ks' ?.
Qed.

(** Writing the hash succeeds, and keeps the fields. *)
Lemma wp_write {A} (c : cmd unit) (g : unit -> prog A) now ks Q : (since <= now <= x)%Z -> fieldsKept ks k fs x ->
  keepsFields k fs retention unit c -> (match c with HSET k' _ | PEXPIREAT k' (EX _) => k' = k | _ => False end) ->
  (forall ks', fieldsKept ks' k fs x -> wp (g tt) now ks' Q) -> wp (rd c ≫= g) now ks Q.
Proof.
  intros Hn Hk Hc Hshape Hg. apply wp_bind. apply wp_cmd.
  - intros ks' [] E. apply Hg. eapply (exec_fields k fs x since retention unit c now ks ks' tt fs_nonempty Hret); [lia|done|done|done|done].
  - intros E. exfalso. destruct Hk as (h & x' & Ek & Hx & Hf).
    assert (find now ks k = Some (Entry (VHash h) (Some x'))) as Efind.
    { unfold find. rewrite Ek. unfold alive. cbn [e_exp]. by rewrite (proj2 (Z.leb_le _ _)) by lia. }
    destruct c; try done; [destruct t; try done|]; cbn [exec] in E; rewrite Hshape, Efind in E; by cbn in E.
Qed.

Ltac write_field := eapply wp_write; [done|done|cbn [keepsFields]; first [kept_field|intros _; assumption]|done|intros ? ?].

Lemma attach_keeps owner' ttl now ks : (since <= now <= x)%Z -> (retention <= ttl)%Z -> fieldsKept ks k fs x ->
  wp (attachScript k owner' target ttl) now ks (fun r ks' => fieldsKept ks' k fs x
    /\ (owner' <> owner -> r = Some (-1)%Z)
    /\ (fs !! js "cancelled" = Some (js "1") -> owner' = owner -> r = Some 1%Z)).
Proof.
  intros Hn Httl Hk. unfold attachScript. owner_guard owner'. do 2 write_field. unfold cancelledFlag.
  destruct (fs !! js "cancelled") as [c|] eqn:Ec.
  - eapply wp_field; [done|done|lia|]. apply wp_ret. split_and!; [done|done|]. by intros [= ->] _.
  - eapply wp_mono; [apply wp_fields; [done|fields_auto|done]|]. by intros r ks3 ?.
Qed.

Lemma cancel_keeps owner' ttl now ks : (since <= now <= x)%Z -> (retention <= ttl)%Z -> fieldsKept ks k fs x ->
  wp (cancelRequestScript k owner' ttl) now ks (fun r ks' => fieldsKept ks' k fs x
    /\ (owner' <> owner -> r = Some None)
    /\ (fs !! js "queueName" = Some (queueName target) -> fs !! js "jobId" = Some (jobId target) -> owner' = owner -> r = Some (Some (Some target)))).
Proof.
  intros Hn Httl Hk. unfold cancelRequestScript. owner_guard owner'.
  destruct (decide (fs !! js "queueName" = Some (queueName target) /\ fs !! js "jobId" = Some (jobId target))) as [[Eq Ej]|Hno].
  - apply wp_bind, wp_ret. write_field. do 2 (eapply wp_field; [done|done|lia|]). apply wp_ret. split_and!; [done|done|]. intros _ _ _. by destruct target.
  - eapply wp_mono; [apply wp_fields; [done|fields_auto|done]|]. intros r ks' ?. split_and!; [done|done|]. intros E1 E2. by destruct Hno.
Qed.

Lemma release_keeps owner' now ks : (since <= now <= x)%Z -> fieldsKept ks k fs x ->
  wp (releaseScript k owner') now ks (fun _ ks' => fieldsKept ks' k fs x).
Proof. intros Hn Hk. apply wp_fields; [done| |done]. unfold releaseScript. fields_auto. Qed.

(** Scripts on other requests, or of other modules, leave this one alone. *)
Lemma request_keeps (mayAttach : jstr -> JobTarget -> Prop) R (p : prog R) now ks :
  (forall tg, mayAttach i tg -> tg = target) -> requestScript mayAttach retention R p -> (since <= now <= x)%Z ->
  fieldsKept ks k fs x -> wp p now ks (fun _ ks' => fieldsKept ks' k fs x).
Proof.
  intros Hatt Hp Hn Hk.
  assert (forall A (p : prog A), avoids k p -> wp p now ks (fun _ ks' => fieldsKept ks' k fs x)) as Hother.
  { intros A q Hq. eapply wp_mono; [by apply (wp_avoids k)|]. intros r ks' E. destruct Hk as (h & x' & Ek & Hkx). exists h, x'. by rewrite E. }
  assert (forall j, j <> i -> k <> requestKey j) as Hne by (intros j Hj E; apply Hj; unfold requestKey in E; by apply app_inv_head, app_inv_head in E).
  destruct Hp as [j o ttl Httl|j o tg ttl Ha Httl|j o ttl Httl|j o|R p Hp]; try (destruct (decide (j = i)) as [->|Hj]; [|apply Hne in Hj]).
  - eapply wp_mono; [by apply reserve_keeps|]. by intros r ks' [? _].
  - apply Hother. unfold reserveScript. other_request.
  - rewrite (Hatt tg Ha). eapply wp_mono; [by apply attach_keeps|]. by intros r ks' [? _].
  - apply Hother. unfold attachScript. other_request.
  - eapply wp_mono; [by apply cancel_keeps|]. by intros r ks' [? _].
  - apply Hother. unfold cancelRequestScript. other_request.
  - by apply release_keeps.
  - apply Hother. unfold releaseScript. other_request.
  - apply Hother. apply (writesIn_avoids (fun k => startsWith k REQUEST_PREFIX = false)); [done|]. intros E.
    unfold requestKey in E. by rewrite startsWith_app in E.
Qed.
End requests.

(** The live hash of a key holds [fs]. *)
Definition holds (now : Z) (ks : keyspace) (k : jstr) (fs : gmap jstr jstr) : Prop := exists h, as_hash (find now ks k) = Some h /\ fs ⊆ h.

Lemma wp_hash_get {A} now ks k f (g : option jstr -> prog A) Q :
  (forall h, as_hash (find now ks k) = Some h -> wp (g (h !! f)) now ks Q) -> Q None ks -> wp (rd (HGET k f) ≫= g) now ks Q.
Proof.
  intros Hg Hn. apply wp_bind, wp_cmd; [|done]. intros ks' r. cbn [exec]. destruct (as_hash (find now ks k)) as [h|] eqn:E; [|done].
  cbn [mbind option_bind]. intros [= <- <-]. by apply Hg.
Qed.

Lemma wp_hset {A} now ks k fs fvs (g : unit -> prog A) Q : holds now ks k fs ->
  (forall ks', holds now ks' k (foldl (fun h fv => <[fst fv := snd fv]> h) fs fvs) -> wp (g tt) now ks' Q) ->
  wp (rd (HSET k fvs) ≫= g) now ks Q.
Proof.
  intros (h & E & Hs) Hg. apply wp_bind. eapply wp_known; [cbn [exec]; rewrite E; reflexivity|]. apply Hg. eexists. split; [apply hash_put_eq|].
  clear - Hs. revert fs h Hs. induction fvs as [|[f v] fvs IH]; intros fs h Hs; [done|]. cbn [foldl fst snd]. by apply IH, insert_mono.
Qed.

Lemma wp_expire {A} now ks k fs ttl (g : unit -> prog A) Q : holds now ks k fs -> fs <> ∅ -> (1 <= ttl)%Z ->
  (forall ks', fieldsKept ks' k fs (now + ttl * 1000) -> wp (g tt) now ks' Q) -> wp (rd (PEXPIREAT k (EX ttl)) ≫= g) now ks Q.
Proof.
  intros (h & E & Hs) Hne Httl Hg. apply wp_bind. destruct (find now ks k) as [[v e]|] eqn:Ef.
  - destruct v as [| |h'| |]; cbn [as_hash] in E; simplify_eq. eapply wp_known; [cbn [exec]; rewrite Ef; reflexivity|]. apply Hg. cbn [expiry e_val].
    rewrite (proj2 (Z.leb_gt _ _)) by lia. exists h, (now + ttl * 1000)%Z. rewrite lookup_insert_eq. split_and!; [done|lia|done].
  - cbn [as_hash] in E. simplify_eq. exfalso. apply Hne. apply (anti_symm (⊆)); [done|apply map_empty_subseteq].
Qed.

(** A cancellation that finds no job, and an attachment, store what a later call reads. *)
Lemma cancel_stores i owner ttl now ks : (1 <= ttl)%Z ->
  wp (cancelRequestScript (requestKey i) owner ttl) now ks (fun r ks' => r = Some (Some None) ->
    fieldsKept ks' (requestKey i) (cancelledFields owner) (now + ttl * 1000)).
Proof.
  intros Httl. unfold cancelRequestScript. apply wp_hash_get; [|done]. intros h E.
  assert (forall (ks : keyspace), holds now ks (requestKey i) {[js "owner" := owner]} ->
    wp (rd (HSET (requestKey i) [(js "cancelled", js "1")]);;
        q ← rd (HGET (requestKey i) (js "queueName")); j ← rd (HGET (requestKey i) (js "jobId"));
        match q, j with Some q, Some j => Ret (Some (Some (Target q j))) | _, _ => rd (PEXPIREAT (requestKey i) (EX ttl));; Ret (Some None) end) now ks
    (fun r ks' => r = Some (Some None) -> fieldsKept ks' (requestKey i) (cancelledFields owner) (now + ttl * 1000))) as Hrest.
  { intros ks1 Hh. eapply wp_hset; [done|]. intros ks2 Hh2. cbn [foldl fst snd] in Hh2.
    assert (<[js "cancelled" := js "1"]> {[js "owner" := owner]} = cancelledFields owner) as Ec by (unfold cancelledFields; apply map_eq; intros f; rewrite !lookup_insert, !lookup_singleton; repeat case_decide; by simplify_eq).
    rewrite Ec in Hh2. do 2 (apply wp_read; [done| |done]; intros ?).
    assert (wp (rd (PEXPIREAT (requestKey i) (EX ttl));; Ret (Some None)) now ks2 (fun r ks' => r = Some (Some (@None JobTarget)) ->
      fieldsKept ks' (requestKey i) (cancelledFields owner) (now + ttl * 1000))) as Hx.
    { eapply wp_expire; [done| |done|]; [by apply insert_non_empty|]. intros ks3 Hk. by apply wp_ret. }
    repeat case_match; done. }
  destruct (h !! js "owner") as [o|] eqn:Eo.
  - rewrite bool_decide_eq_true_2 by done. cbn [andb]. unfold neqStr. destruct (bool_decide_reflect (Some o = Some owner)) as [[= ->]|_]; cbn [negb]; [|by apply wp_ret].
    apply wp_bind, wp_ret, Hrest. exists h. split; [done|]. by apply map_singleton_subseteq_l.
  - rewrite bool_decide_eq_false_2 by (by intros [? [=]]). cbn [andb].
    eapply (wp_hset now ks _ ∅); [exists h; split; [done|apply map_empty_subseteq]|]. intros ks1 Hh. by apply Hrest.
Qed.

Lemma attach_stores i owner target ttl now ks : (1 <= ttl)%Z ->
  wp (attachScript (requestKey i) owner target ttl) now ks (fun r ks' => r <> Some (-1)%Z -> r <> None ->
    fieldsKept ks' (requestKey i) (attachedFields owner target) (now + ttl * 1000)).
Proof.
  intros Httl. unfold attachScript. apply wp_hash_get; [|done]. intros h E. unfold neqStr.
  destruct (bool_decide_reflect (h !! js "owner" = Some owner)) as [Eo|_]; cbn [negb]; [|by apply wp_ret].
  eapply (wp_hset now ks _ {[js "owner" := owner]}); [exists h; split; [done|by apply map_singleton_subseteq_l]|]. intros ks1 Hh. cbn [foldl fst snd] in Hh.
  assert (<[js "jobId" := jobId target]> (<[js "queueName" := queueName target]> {[js "owner" := owner]}) = attachedFields owner target) as Ea.
  { unfold attachedFields. apply map_eq. intros f. rewrite !lookup_insert, !lookup_singleton. repeat case_decide; by simplify_eq. }
  rewrite Ea in Hh. eapply wp_expire; [done|by apply insert_non_empty|done|]. intros ks2 Hk. unfold cancelledFlag.
  apply wp_read; [done| |done]. intros c. by apply wp_ret.
Qed.

(** The scripts of all modules between two times. *)
Inductive requestStep {db} `{RedisServer db} (mayAttach : jstr -> JobTarget -> Prop) (retention since until : Z) (s s' : db) : Prop :=
| request_step R (p : prog R) now r :
    requestScript mayAttach retention R p -> (since <= now <= until)%Z -> run p now s = (s', r) -> requestStep mayAttach retention since until s s'.

Lemma requestSteps_keep {db} `{RedisServer db} mayAttach i owner target retention since fs (s s' : db) :
  (1 <= retention)%Z -> (forall tg, mayAttach i tg -> tg = target) -> ownedBy owner target fs ->
  rtc (requestStep mayAttach retention since (since + retention * 1000)) s s' ->
  fieldsKept (content s) (requestKey i) fs (since + retention * 1000) -> fieldsKept (content s') (requestKey i) fs (since + retention * 1000).
Proof.
  intros Hret Hatt Hfs. induction 1 as [s|s s1 s2 [R p now r Hp Ht E] _ IH]; [done|]. intros Hs. apply IH.
  refine (run_wp _ _ _ _ _ (fun _ ks => fieldsKept ks (requestKey i) fs (since + retention * 1000)) E _).
  by apply (request_keeps i owner target since retention Hret fs Hfs mayAttach).
Qed.

(** (C25) A Stop reaches its job in whichever order the two arrive. Where the owner
    cancels a request that has no job yet, then through any scripts of any replicas,
    while the mark is retained, attaching the job answers "cancelled" and anybody
    else's attempt is forbidden. Where the job was attached first, every cancellation
    of the owner is given that job, and anybody else's is forbidden. *)
Theorem request_cancellation_meets_job {db} `{RedisServer db} mayAttach i owner target since retention (s s1 s2 : db) now ttl :
  (1 <= retention)%Z -> (forall tg, mayAttach i tg -> tg = target) ->
  rtc (requestStep mayAttach retention since (since + retention * 1000)) s1 s2 ->
  (since <= now <= since + retention * 1000)%Z -> (retention <= ttl)%Z ->
  (run (cancelRequestScript (requestKey i) owner retention) since s = (s1, Some (Some None)) ->
     forall owner', snd (run (attachScript (requestKey i) owner' target ttl) now s2) = Some (if bool_decide (owner' = owner) then 1 else -1)%Z)
  /\ (forall flag, run (attachScript (requestKey i) owner target retention) since s = (s1, Some flag) -> flag <> (-1)%Z ->
     forall owner', snd (run (cancelRequestScript (requestKey i) owner' ttl) now s2) = Some (if bool_decide (owner' = owner) then Some (Some target) else None)).
Proof.
  intros Hret Hatt Hr Hn Httl. split.
  - intros E owner'. pose proof (fields_owned owner target retention Hret _ (or_introl eq_refl)) as Hfs.
    pose proof (requestSteps_keep _ _ _ _ _ _ _ _ _ Hret Hatt Hfs Hr (run_wp _ _ _ _ _ _ E (cancel_stores i owner retention since (content s) Hret) eq_refl)) as Hk.
    apply (run_reply _ _ _ (fun r => r = _) (fun _ => True)). eapply wp_mono; [by apply (attach_keeps i owner target since retention Hret _ Hfs)|].
    intros r ks' (? & Hother & Hown). split; [done|]. case_bool_decide; [apply Hown|apply Hother]; by first [assumption|rewrite ?lookup_insert, ?lookup_singleton].
  - intros flag E Hflag owner'. pose proof (fields_owned owner target retention Hret _ (or_intror eq_refl)) as Hfs.
    pose proof (requestSteps_keep _ _ _ _ _ _ _ _ _ Hret Hatt Hfs Hr
      (run_wp _ _ _ _ _ _ E (attach_stores i owner target retention since (content s) Hret) ltac:(congruence) ltac:(done))) as Hk.
    apply (run_reply _ _ _ (fun r => r = _) (fun _ => True)). eapply wp_mono; [by apply (cancel_keeps i owner target since retention Hret _ Hfs)|].
    intros r ks' (? & Hother & Hown). split; [done|]. case_bool_decide; [apply Hown|apply Hother]; by first [assumption|rewrite ?lookup_insert, ?lookup_singleton].
Qed.

(** ** Witnesses: one job, from an empty server *)

Definition example_target : JobTarget := Target (js "python") (js "7").
Definition example_key : jstr := cancellationKey example_target.
Definition example_commit : prog Z := commitJobScript example_key (js "{}") 60 9000.
Definition example_committed : keyspace := fst (run example_commit 1000 (∅ : keyspace)).

Lemma job_decision_final_witness :
  snd (run (cancelJobScript example_key 30 true) 5000 example_committed) = Some (Decision 0 (Some (js "{}"))).
Proof.
  refine (proj1 (proj1 (job_decision_final example_target (∅ : keyspace) example_committed example_committed 1000 60 _) (js "{}") 9000%Z _ (rtc_refl _ _) 5000%Z _) 30%Z true).
  - vm_compute. discriminate.
  - apply run_result. vm_compute. reflexivity.
  - vm_compute. discriminate.
Defined.

Lemma job_claimed_once_witness :
  snd (run (claimJobScript example_key 60) 5000 (fst (run (claimJobScript example_key 60) 1000 (∅ : keyspace)))) <> Some (Decision 1 None).
Proof.
  refine (proj2 (job_claimed_once example_target (∅ : keyspace) _ _ 1000 60 _ (rtc_refl _ _)) 5000%Z 60%Z _).
  - apply run_result. vm_compute. reflexivity.
  - vm_compute. discriminate.
Defined.

(** The fence of a job that nobody finished cancels it. *)
Definition example_fence : act fenceOutcome := fenceJobCancellation example_target 60 5000.

Lemma fence_reports_witness :
  Forall (attempted example_target 60) (playedTrace (play 100 example_fence (World 1000 None 0) ∅))
  /\ reported example_target 60 (playedTrace (play 100 example_fence (World 1000 None 0) ∅)) (inr FenceCancelled).
Proof.
  eapply (fence_reports example_target 60 5000 (fun _ _ => False) (∅ : keyspace)). apply play_performs. vm_compute. reflexivity.
Defined.

(** A Stop that comes before its job. *)
Definition example_stopped : keyspace := fst (run (cancelRequestScript (requestKey (js "r")) (js "me") 60) 1000 (∅ : keyspace)).

Lemma request_cancellation_meets_job_witness :
  snd (run (attachScript (requestKey (js "r")) (js "me") example_target 90) 5000 example_stopped) = Some 1%Z.
Proof.
  refine (proj1 (request_cancellation_meets_job (fun _ tg => tg = example_target) (js "r") (js "me") example_target 1000 60
    (∅ : keyspace) example_stopped example_stopped 5000 90 _ (fun _ E => E) (rtc_refl _ _) _ _) _ (js "me")).
  - vm_compute. discriminate.
  - vm_compute. split; discriminate.
  - vm_compute. discriminate.
  - apply run_result. vm_compute. reflexivity.
Defined.
