(* ===== verification/Decimals.v ===== *)
(** * Decimal texts in numeric order

    A counter is kept as its decimal text. Scripts that compare such texts by length
    and then character by character compare the numbers ([dec_order]). *)

From stdpp Require Import base list numbers option strings.
From Stdlib Require Import ZArith Lia Decimal DecimalString DecimalN DecimalFacts.
From S2P Require Import Prelude JsString Json ProtocolPaths Redis.

(** The number a text of digits denotes, after the digits [a]. *)
Definition digitStep (a c : Z) : Z := (10 * a + (c - 48))%Z.
Definition digitsFrom (a : Z) (l : jstr) : Z := foldl digitStep a l.
Definition isDigit (c : Z) : Prop := (48 <= c <= 57)%Z.

Lemma digitsFrom_app a l : digitsFrom a l = (a * 10 ^ Z.of_nat (length l) + digitsFrom 0 l)%Z.
Proof.
  revert a. induction l as [|c l IH]; intros a; cbn [length digitsFrom foldl]; [cbn; lia|].
  fold (digitsFrom (digitStep a c) l) (digitsFrom (digitStep 0 c) l). rewrite (IH (digitStep a c)), (IH (digitStep 0 c)).
  rewrite Nat2Z.inj_succ, Z.pow_succ_r by lia. unfold digitStep. lia.
Qed.

Lemma digitsFrom_bound l : Forall isDigit l -> (0 <= digitsFrom 0 l < 10 ^ Z.of_nat (length l))%Z.
Proof.
  induction 1 as [|c l Hc Hl IH]; [cbn; lia|]. cbn [length digitsFrom foldl]. fold (digitsFrom (digitStep 0 c) l).
  rewrite digitsFrom_app, Nat2Z.inj_succ, Z.pow_succ_r by lia. unfold isDigit in Hc. unfold digitStep. nia.
Qed.

(** Texts of one length. *)
Lemma lex_digits a b : Forall isDigit a -> Forall isDigit b -> length a = length b -> lex a b = (digitsFrom 0 a <? digitsFrom 0 b)%Z.
Proof.
  intros Ha. revert b. induction Ha as [|c a Hc Ha IH]; intros [|d b] Hb Hl; cbn [length] in Hl; try lia; [done|].
  apply Forall_cons in Hb as [Hd Hb]. injection Hl as Hl. cbn [lex digitsFrom foldl].
  fold (digitsFrom (digitStep 0 c) a) (digitsFrom (digitStep 0 d) b). rewrite (digitsFrom_app (digitStep 0 c)), (digitsFrom_app (digitStep 0 d)).
  rewrite (IH b Hb Hl), Hl. pose proof (digitsFrom_bound a Ha) as Ba. pose proof (digitsFrom_bound b Hb) as Bb. rewrite Hl in Ba. unfold digitStep.
  destruct (Z.ltb_spec c d), (Z.eqb_spec c d), (Z.ltb_spec (digitsFrom 0 a) (digitsFrom 0 b)); cbn [orb andb]; symmetry;
    rewrite ?Z.ltb_lt, ?Z.ltb_ge; nia.
Qed.

(** A text without a leading zero, or the text of zero. *)
Definition canonical (l : jstr) : Prop := Forall isDigit l /\ (l = [48]%Z \/ exists c l', l = c :: l' /\ (49 <= c)%Z).

Lemma canonical_length a b : canonical a -> canonical b -> length a < length b -> (digitsFrom 0 a < digitsFrom 0 b)%Z.
Proof.
  intros [Ha Hn] [Hb Hm] Hl. pose proof (digitsFrom_bound a Ha) as Ba.
  assert (1 <= length a)%nat as Ha1 by (destruct Hn as [->|(c & l & -> & _)]; cbn; lia).
  destruct Hm as [->|(d & b' & -> & Hd)]; [cbn in Hl; lia|]. apply Forall_cons in Hb as [_ Hb]. cbn [digitsFrom foldl].
  fold (digitsFrom (digitStep 0 d) b'). rewrite (digitsFrom_app (digitStep 0 d)). pose proof (digitsFrom_bound b' Hb) as Bb. cbn [length] in Hl.
  assert (10 ^ Z.of_nat (length a) <= 10 ^ Z.of_nat (length b'))%Z as Hp by (apply Z.pow_le_mono_r; lia).
  assert (1 * 10 ^ Z.of_nat (length b') <= digitStep 0 d * 10 ^ Z.of_nat (length b'))%Z as Hq by (apply Z.mul_le_mono_nonneg_r; unfold digitStep; lia).
  lia.
Qed.

(** ** The texts of numbers *)

Definition uintText (d : uint) : jstr := js (NilEmpty.string_of_uint d).

Lemma uintText_digits d : Forall isDigit (uintText d).
Proof. unfold uintText, isDigit. induction d; cbn; constructor; try done; lia. Qed.

Lemma of_uint_acc_text d acc : Z.pos (Pos.of_uint_acc d acc) = digitsFrom (Z.pos acc) (uintText d).
Proof.
  revert acc. induction d as [|d IH|d IH|d IH|d IH|d IH|d IH|d IH|d IH|d IH|d IH]; intros acc; [done|..];
    cbn [Pos.of_uint_acc]; rewrite IH; cbn [uintText NilEmpty.string_of_uint js digitsFrom foldl]; f_equal; unfold digitStep; cbn; lia.
Qed.

Lemma of_uint_text d : Z.of_N (Pos.of_uint d) = digitsFrom 0 (uintText d).
Proof.
  induction d as [|d IH|d IH|d IH|d IH|d IH|d IH|d IH|d IH|d IH|d IH]; [done|..]; cbn [Pos.of_uint Z.of_N];
    [rewrite IH|rewrite of_uint_acc_text..]; reflexivity.
Qed.

Lemma dec_text n : (0 <= n)%Z -> canonical (dec n) /\ digitsFrom 0 (dec n) = n.
Proof.
  intros Hn. assert (exists m : N, n = Z.of_N m) as [m ->] by (exists (Z.to_N n); lia).
  assert (dec (Z.of_N m) = uintText (N.to_uint m)) as ->.
  { unfold dec, uintText. destruct m as [|p]; [done|]. cbn [Z.of_N Z.to_int NilZero.string_of_int N.to_uint].
    unfold NilZero.string_of_uint. destruct (Pos.to_uint p) eqn:E; try done. by destruct (DecimalPos.Unsigned.to_uint_nonnil p). }
  split; [|rewrite <- of_uint_text; f_equal; exact (DecimalN.Unsigned.of_to m)].
  split; [apply uintText_digits|]. rewrite <- (DecimalN.Unsigned.of_to m), DecimalN.Unsigned.to_of. unfold unorm.
  destruct (nzhead (N.to_uint m)) as [|d|d|d|d|d|d|d|d|d|d] eqn:E; [by left|by destruct (nzhead_nonzero _ _ E)|..];
    right; eexists _, _; (split; [reflexivity|cbn; lia]).
Qed.

(** Shorter texts first, then in the order of their characters: the numeric order. *)
Lemma dec_order n m : (0 <= n)%Z -> (0 <= m)%Z ->
  (length (dec n) <? length (dec m))%nat || ((length (dec n) =? length (dec m))%nat && lex (dec n) (dec m)) = (n <? m)%Z.
Proof.
  intros Hn Hm. destruct (dec_text n Hn) as [Cn En]. destruct (dec_text m Hm) as [Cm Em].
  destruct (Nat.ltb_spec (length (dec n)) (length (dec m))) as [Hl|Hl]; cbn [orb].
  - pose proof (canonical_length _ _ Cn Cm Hl) as Hlt. rewrite En, Em in Hlt. symmetry. by apply Z.ltb_lt.
  - destruct (Nat.eqb_spec (length (dec n)) (length (dec m))) as [He|He]; cbn [andb].
    + destruct Cn as [Dn _], Cm as [Dm _]. by rewrite (lex_digits _ _ Dn Dm He), En, Em.
    + pose proof (canonical_length _ _ Cm Cn ltac:(lia)) as Hlt. rewrite En, Em in Hlt. symmetry. apply Z.ltb_ge. lia.
Qed.

(** ** Numbers of Lua

    A number of a script is a double: integers are exact up to [2^53], and [tostring]
    prints fourteen significant digits ("%.14g"). *)

(** [n] rounded to a multiple of [u], ties to even. *)
Definition roundTo (u n : Z) : Z :=
  let q := (n / u)%Z in let r := (n mod u)%Z in
  ((if (u <? 2 * r) || ((2 * r =? u) && Z.odd q) then q + 1 else q) * u)%Z.

(** The double nearest to an integer. *)
Definition double (n : Z) : Z :=
  (if Z.abs n <=? 2 ^ 53 then n else Z.sgn n * roundTo (2 ^ (Z.log2 (Z.abs n) - 52)) (Z.abs n))%Z.

Fixpoint stripZeros (fuel : nat) (m : Z) : Z :=
  match fuel with O => m | S fuel => if (m mod 10 =? 0)%Z then stripZeros fuel (m / 10) else m end.

(** The decimal point after the first digit. *)
Definition pointed (digits : jstr) : jstr :=
  match digits with c :: ((_ :: _) as fraction) => c :: 46%Z :: fraction | _ => digits end.

(** The text of a number of fifteen digits or more. *)
Definition scientific (n : Z) : jstr :=
  let m := roundTo (10 ^ (Z.of_nat (length (dec n)) - 14)) n in
  pointed (dec (stripZeros (length (dec m)) m)) ++ js "e+" ++ dec (Z.of_nat (length (dec m)) - 1).

Definition tostring (n : Z) : jstr :=
  if (Z.abs n <? 10 ^ 14)%Z then dec n else if (n <? 0)%Z then 45%Z :: scientific (- n) else scientific n.

(** [tonumber] of the decimal texts that a script meets: digits, or what [tostring]
    prints of a large number. *)
Definition luaNumber (s : jstr) : option Z :=
  match splitOn 101 s with
  | [mantissa; 43%Z :: exponent] =>
      x ← tonumber exponent;
      match splitOn 46 mantissa with
      | [i] => m ← tonumber i; Some (double (m * 10 ^ x))
      | [i; f] => m ← tonumber (i ++ f); Some (double (m * 10 ^ (x - Z.of_nat (length f))))
      | _ => None
      end
  | _ => n ← tonumber s; Some (double n)
  end.

Lemma roundTo_above u a n : (0 < u)%Z -> (u | a)%Z -> (a <= n)%Z -> (a <= roundTo u n)%Z.
Proof.
  intros Hu [k ->] Hn. unfold roundTo. assert (k <= n / u)%Z by (apply Z.div_le_lower_bound; lia).
  destruct (_ || _); nia.
Qed.

Lemma double_exact n : (Z.abs n <= 2 ^ 53)%Z -> double n = n.
Proof. intros Hn. unfold double. by rewrite (proj2 (Z.leb_le _ _)). Qed.

Lemma double_large n : (2 ^ 53 < n)%Z -> (2 ^ 53 <= double n)%Z.
Proof.
  intros Hn. unfold double. rewrite Z.abs_eq, (proj2 (Z.leb_gt _ _)), Z.sgn_pos by lia.
  pose proof (Z.log2_spec n ltac:(lia)) as [Hl _]. assert (53 <= Z.log2 n)%Z as H53.
  { change 53%Z with (Z.log2 (2 ^ 53)). apply Z.log2_le_mono. lia. }
  assert (2 ^ Z.log2 n <= roundTo (2 ^ (Z.log2 n - 52)) n)%Z as Hr.
  { apply roundTo_above; [apply Z.pow_pos_nonneg; lia| |lia]. exists (2 ^ 52)%Z. rewrite <- Z.pow_add_r by lia. f_equal. lia. }
  assert (2 ^ 53 <= 2 ^ Z.log2 n)%Z by (apply Z.pow_le_mono_r; lia). lia.
Qed.

Lemma double_above a n : (a <= 2 ^ 53)%Z -> (a <= n)%Z -> (0 <= n)%Z -> (a <= double n)%Z.
Proof.
  intros Ha Hn H0. destruct (Z.le_gt_cases n (2 ^ 53)) as [Hl|Hl]; [rewrite double_exact; lia|]. pose proof (double_large n Hl). lia.
Qed.

Lemma dec_bounds n : (0 < n)%Z -> exists l, length (dec n) = S l /\ (10 ^ Z.of_nat l <= n < 10 ^ Z.of_nat (S l))%Z.
Proof.
  intros Hn. destruct (dec_text n ltac:(lia)) as [[Hd Hc] En]. pose proof (digitsFrom_bound _ Hd) as Hb. rewrite En in Hb.
  destruct Hc as [E|(c & l & E & Hc)]; [rewrite E in En; change (0 = n)%Z in En; lia|]. exists (length l). rewrite E in *. split; [done|]. cbn [length] in Hb.
  split; [|lia]. cbn [digitsFrom foldl] in En. fold (digitsFrom (digitStep 0 c) l) in En. rewrite digitsFrom_app in En.
  apply Forall_cons in Hd as [_ Hd]. pose proof (digitsFrom_bound l Hd). unfold digitStep in En. nia.
Qed.

Lemma stripZeros_le fuel m : (0 < m)%Z -> (0 < stripZeros fuel m <= m)%Z.
Proof.
  revert m. induction fuel as [|fuel IH]; intros m Hm; cbn [stripZeros]; [lia|]. destruct (Z.eqb_spec (m mod 10) 0) as [E|]; [|lia].
  pose proof (Z.div_mod m 10 ltac:(lia)). specialize (IH (m / 10)%Z ltac:(lia)). lia.
Qed.

Lemma digits_without l c : Forall isDigit l -> (c < 48 \/ 57 < c)%Z -> c ∉ l.
Proof. intros Hl Hc Hin. rewrite Forall_forall in Hl. specialize (Hl c Hin). unfold isDigit in Hl. lia. Qed.

(** What [tostring] prints is read back exactly below [10^14], and never as less than
    that from there on. *)
Lemma lua_exact n : (0 <= n < 10 ^ 14)%Z -> luaNumber (tostring n) = Some n.
Proof.
  intros Hn. unfold tostring, luaNumber. rewrite (proj2 (Z.ltb_lt _ _)) by lia.
  destruct (dec_text n ltac:(lia)) as [[Hd _] _]. rewrite splitOn_no by (apply digits_without; [done|lia]). rewrite tonumber_dec. cbn [mbind option_bind].
  by rewrite double_exact by lia.
Qed.

Lemma lua_large n : (10 ^ 14 <= n)%Z -> exists v, luaNumber (tostring n) = Some v /\ (10 ^ 14 <= v)%Z.
Proof.
  intros Hn. unfold tostring. rewrite (proj2 (Z.ltb_ge _ _)), (proj2 (Z.ltb_ge _ _)) by lia. unfold scientific.
  destruct (dec_bounds n ltac:(lia)) as (d & Ed & Bd). rewrite Ed.
  assert (14 <= d)%nat as H14 by (enough (10 ^ 14 < 10 ^ Z.of_nat (S d))%Z as Hx%Z.pow_lt_mono_r_iff by lia; lia).
  set (m := roundTo _ n). assert (10 ^ Z.of_nat d <= m)%Z as Hm.
  { apply roundTo_above; [apply Z.pow_pos_nonneg; lia| |lia]. exists (10 ^ 13)%Z. rewrite <- Z.pow_add_r by lia. f_equal. lia. }
  assert (0 < 10 ^ Z.of_nat d)%Z by (apply Z.pow_pos_nonneg; lia).
  destruct (dec_bounds m ltac:(lia)) as (e & Ee & Be). assert (d <= e)%nat as Hde.
  { enough (10 ^ Z.of_nat d < 10 ^ Z.of_nat (S e))%Z as Hx%Z.pow_lt_mono_r_iff by lia; lia. }
  rewrite Ee. pose proof (stripZeros_le (S e) m ltac:(lia)) as Hk. set (k := stripZeros (S e) m) in *.
  destruct (dec_bounds k ltac:(lia)) as (f & Ef & Bf). assert (f <= e)%nat as Hfe.
  { enough (10 ^ Z.of_nat f < 10 ^ Z.of_nat (S e))%Z as Hx%Z.pow_lt_mono_r_iff by lia; lia. }
  destruct (dec_text k ltac:(lia)) as [[Dk _] _]. destruct (dec_text (Z.of_nat (S e) - 1) ltac:(lia)) as [[Dx _] _].
  assert (forall v, (10 ^ 14 <= v)%Z -> (10 ^ 14 <= double v)%Z) as Hdbl by (intros v Hv; apply double_above; lia).
  assert (10 ^ 14 <= k * 10 ^ (Z.of_nat e - Z.of_nat f))%Z as Hv.
  { transitivity (10 ^ Z.of_nat f * 10 ^ (Z.of_nat e - Z.of_nat f))%Z; [rewrite <- Z.pow_add_r by lia; apply Z.pow_le_mono_r; lia|].
    apply Z.mul_le_mono_nonneg_r; [apply Z.pow_nonneg; lia|lia]. }
  unfold luaNumber.
  assert (splitOn 101 (pointed (dec k) ++ js "e+" ++ dec (Z.of_nat (S e) - 1)) = [pointed (dec k); 43%Z :: dec (Z.of_nat (S e) - 1)]) as ->.
  { change (pointed (dec k) ++ js "e+" ++ dec (Z.of_nat (S e) - 1)) with (joinWith 101 [pointed (dec k); 43%Z :: dec (Z.of_nat (S e) - 1)]).
    apply splitOn_joinWith; [done|]. repeat constructor; [|rewrite not_elem_of_cons; split; [lia|apply digits_without; [done|lia]]].
    destruct (dec k) as [|c [|c' l]] eqn:E; cbn [pointed]; [by apply not_elem_of_nil|apply digits_without; [done|lia]|].
    pose proof (digits_without (c :: c' :: l) 101 Dk ltac:(lia)) as Hno. rewrite !not_elem_of_cons in *. split_and!; [tauto|lia|tauto|tauto]. }
  rewrite tonumber_dec. cbn [mbind option_bind].
  destruct (dec k) as [|c [|c' l]] eqn:E; cbn [pointed length app] in *; [lia| |].
  - rewrite splitOn_no by (apply digits_without; [done|lia]). rewrite <- E, tonumber_dec. cbn [mbind option_bind]. eexists. split; [done|].
    apply Hdbl. replace (Z.of_nat (S e) - 1)%Z with (Z.of_nat e - Z.of_nat f)%Z by lia. done.
  - assert (splitOn 46 (c :: 46%Z :: c' :: l) = [[c]; c' :: l]) as ->.
    { change (c :: 46%Z :: c' :: l) with (joinWith 46 [[c]; c' :: l]). apply splitOn_joinWith; [done|]. apply Forall_cons in Dk as [D1 D2].
      apply Forall_cons_2; [apply digits_without; [by apply Forall_cons_2|lia]|]. apply Forall_cons_2; [apply digits_without; [done|lia]|by apply Forall_nil_2]. }
    change ([c] ++ c' :: l) with (c :: c' :: l). rewrite <- E, tonumber_dec. cbn [mbind option_bind]. eexists. split; [done|]. apply Hdbl.
    cbn [length]. replace (Z.of_nat (S e) - 1 - Z.of_nat (S (length l)))%Z with (Z.of_nat e - Z.of_nat f)%Z by lia. done.
Qed.
