(* ===== verification/RuntimeSession.v ===== *)
(** * Runtime sessions: the registry, its lock and the heartbeat

    Models service/src/runtime-session/registry.ts (the per-session mutex, the fenced
    record, the generation and checkpoint counters), lock-heartbeat.ts (the timers that
    keep a lease or fence its holder) and job-policy.ts (what a worker may do with the
    session of a queued job). A late reply that a caller no longer waits for, and the
    release of a token that nobody was given, are steps of other clients. *)

From stdpp Require Import base list numbers option strings gmap.
From Stdlib Require Import ZArith Lia.
From S2P Require Import Prelude JsString Json Protocol Redis JsonText BridgeStore Async BridgeRouting BridgeMethods JobCancellation Decimals.

(** ** Keys *)

Definition SESS_PREFIX : jstr := js "rtsx:sess:".
Definition LOCK_PREFIX : jstr := js "rtsx:lock:".
Definition GEN_PREFIX : jstr := js "rtsx:gen:".
Definition CKPT_SEQ_PREFIX : jstr := js "rtsx:ckptseq:".

Definition sessKey (id : jstr) : jstr := SESS_PREFIX ++ id.
Definition sessionLockKey (id : jstr) : jstr := LOCK_PREFIX ++ id.
Definition genKey (id : jstr) : jstr := GEN_PREFIX ++ id.
Definition ckptSeqKey (id : jstr) : jstr := CKPT_SEQ_PREFIX ++ id.

Definition MAX_MICROVM_DURATION_SECONDS : Z := 28800.
Definition RUNTIME_SESSION_RECORD_TTL_SECONDS : Z := (MAX_MICROVM_DURATION_SECONDS + 600)%Z.
Definition RUNTIME_SESSION_REDIS_COMMAND_TIMEOUT_MS : Z := 5000.
Definition RUNTIME_SESSION_REDIS_CLEANUP_TIMEOUT_MS : Z := 2000.

(** ** Scripts *)

Section scripts.
Context (id : jstr).

Definition acquireScript (token : jstr) (ttlMs : Z) : prog bool := rd (SET (sessionLockKey id) token (PX ttlMs) true).

Definition releaseSessionLockScript (token : jstr) : prog Z :=
  holder ← rd (GET (sessionLockKey id));
  if bool_decide (holder = Some token) then rd (DEL [sessionLockKey id]) else Ret 0%Z.

Definition renewSessionLockScript (token : jstr) (ttlMs : Z) : prog Z :=
  holder ← rd (GET (sessionLockKey id));
  if bool_decide (holder = Some token) then rd (PEXPIREAT (sessionLockKey id) (PX ttlMs));; Ret 1%Z else Ret 0%Z.

Definition writeRecordScript (token recordJson : jstr) (ttlSeconds : Z) : prog Z :=
  holder ← rd (GET (sessionLockKey id));
  if bool_decide (holder = Some token) then rd (SET (sessKey id) recordJson (EX ttlSeconds) false);; Ret 1%Z else Ret 0%Z.

Definition removeSessionScript (token : jstr) : prog Z :=
  holder ← rd (GET (sessionLockKey id));
  if bool_decide (holder = Some token) then rd (DEL [sessKey id]);; Ret 1%Z else Ret 0%Z.

(** The counter is a Lua number: a double, stored as [tostring] prints it. *)
Definition allocateCheckpointSequenceScript (retainedMax ttlSeconds : Z) : prog Z :=
  stored ← rd (GET (ckptSeqKey id));
  current ← need (luaNumber (default (js "0") stored));
  let sequence := double (Z.max retainedMax current + 1) in
  rd (SET (ckptSeqKey id) (tostring sequence) (EX ttlSeconds) false);;
  Ret sequence.

(** Texts of decimal counters are compared by length, then by their characters, since
    a Lua number could not hold every 64-bit counter. *)
Definition belowInitial (current initial : jstr) : bool :=
  (length current <? length initial)%nat || ((length current =? length initial)%nat && lex current initial).

Definition allocateGenerationScript (initial : jstr) (ttlSeconds : Z) : prog (option jstr) :=
  stored ← rd (GET (genKey id));
  if belowInitial (default (js "0") stored) initial then
    rd (SET (genKey id) initial (EX ttlSeconds) false);; Ret (Some initial)
  else
    rd (INCR (genKey id));;
    rd (PEXPIREAT (genKey id) (EX ttlSeconds));;
    rd (GET (genKey id)).
End scripts.

(** ** Calls *)

Section calls.
Context `{Runtime}.

Definition COMMAND_TIMED_OUT : error := Thrown "RuntimeSessionRedisTimeoutError".
Definition COMMAND_ABORTED : error := Thrown "Runtime session registry command aborted".

(** [RuntimeSessionRedisCommandOptions]: whether the caller has a signal, and the time
    a command may take. *)
Record commandOptions := Options { hasSignal : bool; timeoutMs : Z }.
Definition signalAborted (o : commandOptions) : act bool := if hasSignal o then aborted else Done false.

(** An aborted caller sends nothing. A command that does not answer in time, or whose
    caller aborts, is rejected although it may run; other rejections are its own. *)
Definition runRegistryCommand {R} (o : commandOptions) (p : prog R) : act R :=
  throwIf (timeoutMs o <=? 0)%Z (Thrown "Runtime session Redis command timeout must be positive");;
  stop ← signalAborted o; throwIf stop COMMAND_ABORTED;;
  started ← now_;
  r ← try (await p);
  match r with
  | inr v => Done v
  | inl e =>
      stop ← signalAborted o;
      clock ← now_;
      Throw (if (stop : bool) then COMMAND_ABORTED else if (started + timeoutMs o <=? clock)%Z then COMMAND_TIMED_OUT else e)
  end.

(** [nanoid()]. *)
Definition nanoid : act jstr := randomBytes 21.

Definition acquireRuntimeSessionLock (id : jstr) (ttlMs : Z) (o : commandOptions) : act (option jstr) :=
  token ← nanoid;
  ok ← runRegistryCommand o (acquireScript id token ttlMs);
  Done (if (ok : bool) then Some token else None).

(** The release has its own budget, whatever became of the caller: at most three
    attempts, which give up in silence. *)
Fixpoint releaseAttempts (id token : jstr) (signal : bool) (deadlineAtMs : Z) (retryDelaysMs : list Z) : act unit :=
  clock ← now_;
  let o := Options signal (deadlineAtMs - clock) in
  stop ← (if (timeoutMs o <=? 0)%Z then Done true else signalAborted o);
  if (stop : bool) then Done tt else
  r ← try (runRegistryCommand o (releaseSessionLockScript id token));
  match r, retryDelaysMs with
  | inr _, _ => Done tt
  | inl _, [] => Done tt
  | inl _, retryDelay :: rest =>
      clock ← now_;
      let ms := Z.min retryDelay (Z.max 0 (deadlineAtMs - clock)) in
      (if (0 <? ms)%Z then delay ms else Done tt);;
      releaseAttempts id token signal deadlineAtMs rest
  end.

Definition releaseRuntimeSessionLock (id token : jstr) (o : commandOptions) : act unit :=
  clock ← now_; releaseAttempts id token (hasSignal o) (clock + timeoutMs o) [50; 200]%Z.

Definition WAIT_ABORTED : error := Thrown "AbortError".

Definition waitForRuntimeSessionLock (id : jstr) (waitMs pollMs ttlMs : Z) (signal : bool) : act (option jstr) :=
  clock ← now_;
  let deadline := (clock + waitMs)%Z in
  Loop true (fun firstAttempt : bool =>
    stop ← signalAborted (Options signal 0); throwIf stop WAIT_ABORTED;;
    clock ← now_;
    if negb firstAttempt && (deadline - clock <=? 0)%Z then Done (inr None) else
    let commandTimeoutMs := if (0 <? waitMs)%Z then Z.max 1 (deadline - clock) else RUNTIME_SESSION_REDIS_COMMAND_TIMEOUT_MS in
    r ← try (acquireRuntimeSessionLock id ttlMs (Options signal commandTimeoutMs));
    match r with
    | inl e => if bool_decide (e = COMMAND_TIMED_OUT) then Done (inr None) else Throw e
    | inr token =>
        stop ← signalAborted (Options signal 0);
        if (stop : bool) then
          match token with Some t => releaseRuntimeSessionLock id t (Options false RUNTIME_SESSION_REDIS_CLEANUP_TIMEOUT_MS) | None => Done tt end;;
          Throw WAIT_ABORTED
        else
          match token with
          | Some t => Done (inr (Some t))
          | None =>
              if (waitMs <=? 0)%Z then Done (inr None) else
              clock ← now_;
              if (deadline <? clock + pollMs)%Z then Done (inr None) else
              delay pollMs;; Done (inl false)
          end
    end) Done.

Inductive LockRenewal := Held | Lost | RenewalError.

Definition renewRuntimeSessionLock (id token : jstr) (ttlMs : Z) (o : commandOptions) : act LockRenewal :=
  r ← try (runRegistryCommand o (renewSessionLockScript id token ttlMs));
  Done (match r with inr n => if (n =? 1)%Z then Held else Lost | inl _ => RenewalError end).

(** A record is its session and the other fields, none of which is the session's. *)
Record RuntimeSessionRecord := SessionRecord { runtime_session_id : jstr; sessionFields : list (jstr * json) }.
Definition recordJson (r : RuntimeSessionRecord) : json := JObj ((js "runtime_session_id", JStr (runtime_session_id r)) :: sessionFields r).

Definition readRuntimeSessionRecord (id : jstr) (o : commandOptions) : act (option json) :=
  data ← runRegistryCommand o (rd (GET (sessKey id)));
  Done (data ≫= parse).

Definition writeRuntimeSessionRecord (r : RuntimeSessionRecord) (lockToken : jstr) (ttlSeconds : Z) (o : commandOptions) : act bool :=
  r' ← try (runRegistryCommand o (writeRecordScript (runtime_session_id r) lockToken (stringify (recordJson r)) ttlSeconds));
  Done (match r' with inr n => (n =? 1)%Z | inl _ => false end).

Definition isSafeInteger (n : Z) : bool := (Z.abs n <=? MAX_SAFE_INTEGER)%Z.

Definition allocateRuntimeSessionGeneration (id : jstr) (initialGeneration : Z) (o : commandOptions) : act Z :=
  throwIf (negb (isSafeInteger initialGeneration) || (initialGeneration <? 1)%Z) (Thrown "Runtime session generation must be a positive safe integer");;
  raw ← runRegistryCommand o (allocateGenerationScript id (dec initialGeneration) RUNTIME_SESSION_RECORD_TTL_SECONDS);
  match raw ≫= tonumber with
  | Some generation =>
      if isSafeInteger generation && (1 <=? generation)%Z then Done generation
      else Throw (Thrown "Runtime session generation exceeded the safe integer range")
  | None => Throw (Thrown "Runtime session generation exceeded the safe integer range")
  end.

Definition allocateCheckpointSequence (id : jstr) (retainedMax : Z) (o : commandOptions) : act Z :=
  runRegistryCommand o (allocateCheckpointSequenceScript id retainedMax RUNTIME_SESSION_RECORD_TTL_SECONDS).

Definition removeRuntimeSession (id lockToken : jstr) (o : commandOptions) : act bool :=
  n ← runRegistryCommand o (removeSessionScript id lockToken); Done (n =? 1)%Z.
End calls.

(** ** The heartbeat

    [expiryAt] is when the watchdog's timer is due, [inFlight] the start of the
    renewal that is awaited. *)

Record heartbeat := Heartbeat { stopped : bool; fenced : bool; inFlight : option Z; expiryAt : option Z }.

Section heartbeat.
Context (ttlMs : Z).

Definition armExpiry (h : heartbeat) (clock remainingMs : Z) : heartbeat :=
  Heartbeat (stopped h) (fenced h) (inFlight h) (Some (clock + Z.max 0 remainingMs)%Z).
Definition abortFence (h : heartbeat) : heartbeat := Heartbeat (stopped h) true (inFlight h) (expiryAt h).

Definition startHeartbeat (clock : Z) : heartbeat := armExpiry (Heartbeat false false None None) clock ttlMs.

Definition tick (h : heartbeat) (clock : Z) : heartbeat :=
  if stopped h || bool_decide (is_Some (inFlight h)) || fenced h then h
  else Heartbeat (stopped h) (fenced h) (Some clock) (expiryAt h).

(** A renewal that began at [startedAt] settles; [RenewalError] covers a rejection. *)
Definition settled (h : heartbeat) (startedAt clock : Z) (renewal : LockRenewal) : heartbeat :=
  let h' :=
    if stopped h || fenced h then h else
    match renewal with
    | Lost => abortFence h
    | Held => armExpiry h clock (ttlMs - (clock - startedAt))
    | RenewalError => h
    end in
  Heartbeat (stopped h') (fenced h') None (expiryAt h').

(** The timer, when it is due. *)
Definition expire (h : heartbeat) (clock : Z) : heartbeat :=
  match expiryAt h with
  | Some e => if (e <=? clock)%Z then Heartbeat (stopped h) true (inFlight h) None else h
  | None => h
  end.

Definition stop (h : heartbeat) : heartbeat := Heartbeat true (fenced h) (inFlight h) None.
End heartbeat.

(** ** The session of a queued job *)

Inductive RuntimeSessionMode := Stateless | Affinity | Strict.
Inductive SandboxBackendName := HttpBackend | LambdaMicrovm | RemoteBridge.

Definition runtimeSessionModeOf (v : json) : option RuntimeSessionMode :=
  match v with
  | JStr s =>
      if bool_decide (s = js "stateless") then Some Stateless
      else if bool_decide (s = js "affinity") then Some Affinity
      else if bool_decide (s = js "strict") then Some Strict else None
  | _ => None
  end.

Record sessionJob := SessionJob {
  workerMode : RuntimeSessionMode; workerBackend : SandboxBackendName;
  queuedMode : option json; queuedId : option json; programmaticExemption : bool; isSynthetic : bool }.

Inductive sessionDecisionError := BadSessionId | BadSessionMode | StatelessWithId | StatefulWithoutId | WorkerCannotHonor.

Definition resolveRuntimeSessionForJob (a : sessionJob) : res sessionDecisionError (option jstr * RuntimeSessionMode) :=
  if isSynthetic a || programmaticExemption a then Ok (None, Stateless) else
  id ← match queuedId a with
       | None => Ok None
       | Some (JStr s) => if bool_decide (s = []) then Err BadSessionId else Ok (Some s)
       | Some _ => Err BadSessionId
       end;
  mode ← match queuedMode a with
         | None => Ok (match id with None => Stateless | Some _ => Affinity end)
         | Some v => match runtimeSessionModeOf v with Some m => Ok m | None => Err BadSessionMode end
         end;
  match mode, id with
  | Stateless, Some _ => Err StatelessWithId
  | Stateless, None => Ok (None, Stateless)
  | _, None => Err StatefulWithoutId
  | _, Some s =>
      match workerMode a, workerBackend a with
      | Stateless, _ | _, HttpBackend => Err WorkerCannotHonor
      | _, _ => Ok (Some s, mode)
      end
  end.
