(* ===== verification/RuntimeSessionProofs.v ===== *)
(** * Runtime sessions: fencing, counters, leases

    While a token holds a session's lock, nobody else changes the lock or the record,
    under every sequence of scripts of any workers ([session_fenced]), and the holder
    reads back what it wrote ([record_read_back]). Generations and checkpoint sequences
    only grow ([counters_grow]). A heartbeat that has not fenced its holder means that
    the lock is still held ([heartbeat_sound]). Waiting for a lock ends
    ([lock_wait_settles]), and a queued job's session is honoured or refused, never
    dropped ([session_decision]). *)

From stdpp Require Import base list numbers option strings gmap relations.
From Stdlib Require Import ZArith Lia.
From S2P Require Import Prelude JsString Json Protocol ProtocolPaths Redis JsonText BridgeStore Async BridgeRouting BridgeMethods BridgeStoreProofs BridgeRuns BridgeTermination PairingScripts JobCancellation JobCancellationProofs Decimals RuntimeSession.

(** ** Keys *)

Definition REGISTRY_PREFIX : jstr := js "rtsx:".

Lemma lock_key_inj i j : sessionLockKey i = sessionLockKey j -> i = j.
Proof. apply app_inv_head. Qed.
Lemma sess_key_inj i j : sessKey i = sessKey j -> i = j.
Proof. apply app_inv_head. Qed.

Lemma registry_prefix k i : k ∈ [sessKey i; sessionLockKey i; genKey i; ckptSeqKey i] -> startsWith k REGISTRY_PREFIX = true.
Proof.
  rewrite !elem_of_cons, elem_of_nil. intros [-> |[-> |[-> |[-> |[]]]]];
    [change (sessKey i) with (REGISTRY_PREFIX ++ js "sess:" ++ i)|change (sessionLockKey i) with (REGISTRY_PREFIX ++ js "lock:" ++ i)
    |change (genKey i) with (REGISTRY_PREFIX ++ js "gen:" ++ i)|change (ckptSeqKey i) with (REGISTRY_PREFIX ++ js "ckptseq:" ++ i)]; apply startsWith_app.
Qed.

(** ** The scripts of all workers, but for what the holder of [id]'s lock does itself *)

Section scripts.
Context (id token : jstr) (ttlMs : Z).

Inductive registryScript : forall R, prog R -> Prop :=
| rs_acquire j tok t : registryScript bool (acquireScript j tok t)
| rs_release j tok : j <> id \/ tok <> token -> registryScript Z (releaseSessionLockScript j tok)
| rs_renew j tok t : j <> id \/ tok <> token \/ (ttlMs <= t)%Z -> registryScript Z (renewSessionLockScript j tok t)
| rs_write j tok text t : j <> id \/ tok <> token -> registryScript Z (writeRecordScript j tok text t)
| rs_remove j tok : j <> id \/ tok <> token -> registryScript Z (removeSessionScript j tok)
| rs_checkpoint j retained : registryScript Z (allocateCheckpointSequenceScript j retained RUNTIME_SESSION_RECORD_TTL_SECONDS)
| rs_generation j initial : (1 <= initial)%Z -> registryScript (option jstr) (allocateGenerationScript j (dec initial) RUNTIME_SESSION_RECORD_TTL_SECONDS)
| rs_other R (p : prog R) : writesIn (fun k => startsWith k REGISTRY_PREFIX = false) p -> registryScript R p.

Context {db : Type} `{RedisServer db}.

Inductive registryStep (since until : Z) (s s' : db) : Prop :=
| registry_step R (p : prog R) now r : registryScript R p -> (since <= now <= until)%Z -> run p now s = (s', r) -> registryStep since until s s'.

Lemma registrySteps_keep since until (I : keyspace -> Prop) s s' :
  (forall R (p : prog R), registryScript R p -> forall now ks, (since <= now <= until)%Z -> I ks -> wp p now ks (fun _ ks' => I ks')) ->
  rtc (registryStep since until) s s' -> I (content s) -> I (content s').
Proof.
  intros HI. induction 1 as [s|s s1 s2 [R p now r Hp Ht E] _ IH]; [done|]. intros Hs. apply IH.
  exact (run_wp _ _ _ _ _ _ E (HI R p Hp now (content s) Ht Hs)).
Qed.
End scripts.

(** The keys that a script leaves alone. *)
Ltac registry_avoids :=
  unfold acquireScript, releaseSessionLockScript, renewSessionLockScript, writeRecordScript, removeSessionScript, allocateCheckpointSequenceScript, allocateGenerationScript;
  repeat first
    [ apply commands_ret | apply commands_need
    | solve [apply commands_rd; cbn [writes]; rewrite ?not_elem_of_cons; repeat split; first [apply not_elem_of_nil | assumption | apply not_eq_sym; assumption | discriminate]]
    | apply commands_bind; [|intros ?] | case_match ].

(** ** Fencing *)

Section fencing.
Context (id token : jstr).
Abbreviation LK := (sessionLockKey id).
Abbreviation SK := (sessKey id).

(** A guarded script of another token does nothing. *)
Lemma wp_fenced {A} (p q : prog A) tok x now ks Q : kept ks LK token x -> (now <= x)%Z -> tok <> token ->
  wp q now ks Q -> wp (holder ← rd (GET LK); if bool_decide (holder = Some tok) then p else q) now ks Q.
Proof. intros Hk Hn Hne Hq. eapply wp_kept; [done|done|]. by rewrite bool_decide_eq_false_2 by congruence. Qed.

Lemma wp_holder {A} (p q : prog A) x now ks Q : kept ks LK token x -> (now <= x)%Z ->
  wp p now ks Q -> wp (holder ← rd (GET LK); if bool_decide (holder = Some token) then p else q) now ks Q.
Proof. intros Hk Hn Hq. eapply wp_kept; [done|done|]. by rewrite bool_decide_eq_true_2 by done. Qed.

Lemma acquire_refused tok t x now ks : kept ks LK token x -> (now <= x)%Z ->
  wp (acquireScript id tok t) now ks (fun r ks' => ks' = ks /\ r = Some false).
Proof.
  intros Hk Hn. destruct (kept_find _ _ _ _ _ Hk Hn) as (x' & E & _). unfold acquireScript.
  eapply wp_known; [cbn [exec]; rewrite E; cbn; reflexivity|]. done.
Qed.

Lemma renew_holder t x now ks : kept ks LK token x -> (now <= x)%Z -> (x <= now + t)%Z -> (1 <= t)%Z ->
  wp (renewSessionLockScript id token t) now ks (fun r ks' => (kept ks' LK token (now + t) /\ ks' !! SK = ks !! SK) /\ r = Some 1%Z).
Proof.
  intros Hk Hn Hx Ht. unfold renewSessionLockScript. eapply wp_holder; [done|done|]. destruct (kept_find _ _ _ _ _ Hk Hn) as (x' & E & _). apply wp_bind.
  eapply wp_known; [cbn [exec]; rewrite E; cbn [expiry e_val]; reflexivity|]. rewrite (proj2 (Z.leb_gt _ _)) by lia. apply wp_ret.
  split; [split|done]; [exists (now + t)%Z; rewrite lookup_insert_eq; split; [done|lia]|]. by rewrite lookup_insert_ne.
Qed.

(** The lock stays with its token, and the record as it is. *)
Definition guarded (x : Z) (e : option entry) (ks : keyspace) : Prop := kept ks LK token x /\ ks !! SK = e.

Lemma guarded_frame {A} (p : prog A) x e now ks : avoids LK p -> avoids SK p -> guarded x e ks -> wp p now ks (fun _ ks' => guarded x e ks').
Proof. intros HL HS [Hk He]. apply wp_and; [by apply kept_frame|]. eapply wp_mono; [by apply (wp_avoids SK)|]. by intros r ks' ->. Qed.

Lemma guarded_step ttlMs since x e R (p : prog R) now ks : registryScript id token ttlMs R p -> (1 <= ttlMs)%Z -> (x <= since + ttlMs)%Z ->
  (since <= now <= x)%Z -> guarded x e ks -> wp p now ks (fun _ ks' => guarded x e ks').
Proof.
  intros Hp Ht Hx Hn Hg. pose proof Hg as [Hk He].
  assert (forall j, j <> id -> LK <> sessionLockKey j /\ SK <> sessKey j) as Hne by (intros j Hj; split; intros E; [apply lock_key_inj in E|apply sess_key_inj in E]; by subst).
  assert (forall j, LK <> sessKey j /\ SK <> sessionLockKey j) as Hls by (intros j; split; discriminate).
  assert (forall tok (p q : prog Z), tok <> token -> q = Ret 0%Z ->
    wp (holder ← rd (GET LK); if bool_decide (holder = Some tok) then p else q) now ks (fun _ ks' => guarded x e ks')) as Hout.
  { intros tok p1 q Hne1 ->. eapply wp_fenced; [done|lia|done|]. by apply wp_ret. }
  destruct Hp as [j tok t|j tok Hj|j tok t Hj|j tok text t Hj|j tok Hj|j m|j m Hm|R p Hp]; try (destruct (decide (j = id)) as [->|Hd];
    [|specialize (Hne j Hd) as [? ?]; specialize (Hls j) as [? ?]; apply guarded_frame; [registry_avoids|registry_avoids|done]]).
  - eapply wp_mono; [apply (acquire_refused tok t x); [done|lia]|]. by intros r ks' [-> _].
  - apply Hout; [naive_solver|done].
  - destruct (decide (tok = token)) as [->|Hd]; [|by apply Hout]. eapply wp_mono; [apply (renew_holder t x); [done|lia|naive_solver lia|naive_solver lia]|].
    intros r ks' [[(x' & E & Hx') Es] _]. split; [exists x'; split; [done|naive_solver lia]|by rewrite Es].
  - apply Hout; [naive_solver|done].
  - apply Hout; [naive_solver|done].
  - apply guarded_frame; [registry_avoids|registry_avoids|done].
  - apply guarded_frame; [registry_avoids|registry_avoids|done].
  - apply guarded_frame; [..|done]; apply (writesIn_avoids _ _ _ Hp); intros E; rewrite (registry_prefix _ id) in E by (rewrite !elem_of_cons; tauto); discriminate E.
Qed.
End fencing.

Section holder.
Context {db : Type} `{RedisServer db} (id token : jstr).
Abbreviation LK := (sessionLockKey id).
Abbreviation SK := (sessKey id).

Lemma guarded_steps (s s' : db) ttlMs since x e : (1 <= ttlMs)%Z -> (x <= since + ttlMs)%Z ->
  rtc (registryStep id token ttlMs since x) s s' -> guarded id token x e (content s) -> guarded id token x e (content s').
Proof.
  intros Ht Hx. apply (registrySteps_keep id token ttlMs since x (guarded id token x e)). intros R p Hp now ks Hn Hg. by eapply guarded_step.
Qed.

Lemma acquired ttlMs now ks :
  wp (acquireScript id token ttlMs) now ks (fun r ks' => r = Some true -> guarded id token (now + ttlMs) (ks !! SK) ks').
Proof.
  unfold acquireScript. apply wp_cmd; [|done]. intros ks' r. cbn [exec]. destruct (true && _); intros [= <- <-]; [done|]. intros _.
  split; [exists (now + ttlMs)%Z; by rewrite lookup_insert_eq|by rewrite lookup_insert_ne].
Qed.

(** What each token is answered while [token] holds the lock. *)
Lemma answers x now ks tok : kept ks LK token x -> (now <= x)%Z ->
  let mine := if bool_decide (tok = token) then 1%Z else 0%Z in
  (forall text t, wp (writeRecordScript id tok text t) now ks (fun r _ => r = Some mine))
  /\ wp (removeSessionScript id tok) now ks (fun r _ => r = Some mine)
  /\ (forall t, wp (renewSessionLockScript id tok t) now ks (fun r _ => r = Some mine))
  /\ wp (releaseSessionLockScript id tok) now ks (fun r _ => r = Some mine).
Proof.
  intros Hk Hn mine. unfold mine. destruct (bool_decide_reflect (tok = token)) as [->|Hne].
  - destruct (kept_find _ _ _ _ _ Hk Hn) as (x' & E & _).
    split_and!; intros; unfold writeRecordScript, removeSessionScript, renewSessionLockScript, releaseSessionLockScript; (eapply wp_holder; [done|done|]).
    + apply wp_bind. by eapply wp_known.
    + apply wp_bind. by eapply wp_known.
    + apply wp_bind. eapply wp_known; [cbn [exec]; rewrite E; reflexivity|]. by apply wp_ret.
    + eapply wp_known; [reflexivity|]. unfold count_live. cbn [List.filter]. by rewrite E.
  - split_and!; intros; (eapply wp_fenced; [done|done|done|]); by apply wp_ret.
Qed.

(** (C29) The session lock fences. From the acquisition of a session's lock until its
    lease ends, through any scripts of any workers other than the holder's own writes
    (and its renewals), the record of the session is as it was, no other acquisition
    succeeds, and a write, removal, renewal or release takes effect for the holder's
    token and is refused to every other. *)
Theorem session_fenced (s s1 s2 : db) since ttlMs now :
  (1 <= ttlMs)%Z -> run (acquireScript id token ttlMs) since s = (s1, Some true) ->
  rtc (registryStep id token ttlMs since (since + ttlMs)) s1 s2 -> (now <= since + ttlMs)%Z ->
  content s2 !! SK = content s !! SK
  /\ (forall tok t, snd (run (acquireScript id tok t) now s2) = Some false)
  /\ forall tok, let mine := if bool_decide (tok = token) then 1%Z else 0%Z in
     (forall text t, snd (run (writeRecordScript id tok text t) now s2) = Some mine)
     /\ snd (run (removeSessionScript id tok) now s2) = Some mine
     /\ (forall t, snd (run (renewSessionLockScript id tok t) now s2) = Some mine)
     /\ snd (run (releaseSessionLockScript id tok) now s2) = Some mine.
Proof.
  intros Ht E Hr Hn. pose proof (run_wp _ _ _ _ _ _ E (acquired ttlMs since (content s)) eq_refl) as Hg.
  apply (guarded_steps s1 s2 ttlMs since _ _ Ht (Z.le_refl _) Hr) in Hg as [Hk He]. split; [done|].
  assert (forall R (p : prog R) (v : R), wp p now (content s2) (fun r _ => r = Some v) -> snd (run p now s2) = Some v) as Hrun.
  { intros R p v Hp. destruct (run p now s2) as [s3 r] eqn:E3. exact (run_wp _ _ _ _ _ _ E3 Hp). }
  split; [intros tok t; apply Hrun; eapply wp_mono; [by eapply (acquire_refused id token)|]; by intros r ks' [_ ->]|].
  intros tok mine. destruct (answers _ now (content s2) tok Hk Hn) as (H1 & H2 & H3 & H4).
  split_and!; intros; apply Hrun; [apply H1|apply H2|apply H3|apply H4].
Qed.

(** The holder reads back what it wrote. A record whose fenced write succeeded is
    read as it was until the lease or the record's retention ends, through any scripts
    of any workers but the holder's own next write or removal. *)
Theorem record_read_back `{Runtime} (r : RuntimeSessionRecord) (s s1 s2 : db) ttlMs since x now :
  plainJson (recordJson r) = true -> (1 <= ttlMs)%Z ->
  (since <= x <= since + ttlMs)%Z -> (x <= since + RUNTIME_SESSION_RECORD_TTL_SECONDS * 1000)%Z -> kept (content s) LK token x ->
  run (writeRecordScript id token (stringify (recordJson r)) RUNTIME_SESSION_RECORD_TTL_SECONDS) since s = (s1, Some 1%Z) ->
  rtc (registryStep id token ttlMs since x) s1 s2 -> (now <= x)%Z ->
  exists text, snd (run (rd (GET SK)) now s2) = Some (Some text) /\ parse text = Some (recordJson r).
Proof.
  intros Hplain Ht [Hs Hx] Hx' Hk E Hr Hn. exists (stringify (recordJson r)). split; [|by apply parse_stringify].
  set (e := Entry (VStr (stringify (recordJson r))) (Some (since + RUNTIME_SESSION_RECORD_TTL_SECONDS * 1000)%Z)).
  assert (guarded id token x (Some e) (content s1)) as Hg.
  { refine (run_wp _ _ _ _ _ (fun r ks => r = Some 1%Z -> guarded id token x (Some e) ks) E _ eq_refl). unfold writeRecordScript.
    eapply wp_holder; [done|done|]. apply wp_bind. eapply wp_known; [reflexivity|]. apply wp_ret. intros _. cbn [andb expiry].
    split; [destruct Hk as (x' & Ek & ?); exists x'; by rewrite lookup_insert_ne|by rewrite lookup_insert_eq]. }
  apply (guarded_steps s1 s2 ttlMs since _ _ Ht Hx Hr) in Hg as [_ He].
  destruct (run (rd (GET SK)) now s2) as [s3 r3] eqn:E3. refine (run_wp _ _ _ _ _ (fun r _ => r = _) E3 _).
  eapply wp_known; [|done]. cbn [exec]. unfold find. rewrite He. unfold alive, e. cbn [e_exp]. by rewrite (proj2 (Z.leb_le _ _)) by lia.
Qed.
End holder.

(** ** Counters *)

Section counters.
Context (id : jstr).
Abbreviation retentionMs := (RUNTIME_SESSION_RECORD_TTL_SECONDS * 1000)%Z.

(** The counter at [k] denotes, as [read] reads its text, a number not below [g], and is
    retained until [x]. *)
Definition counterAt (read : jstr -> option Z) (ks : keyspace) (k : jstr) (g x : Z) : Prop :=
  exists text v x', ks !! k = Some (Entry (VStr text) (Some x')) /\ read text = Some v /\ (g <= v)%Z /\ (x <= x')%Z.

(** A generation is the text of an integer; a sequence is a Lua number. *)
Definition decimal (text : jstr) : option Z := v ← tonumber text; if bool_decide (text = dec v) then Some v else None.

Lemma decimal_dec v : decimal (dec v) = Some v.
Proof. unfold decimal. rewrite tonumber_dec. cbn [mbind option_bind]. by rewrite bool_decide_eq_true_2. Qed.

Lemma decimal_text text v : decimal text = Some v -> text = dec v.
Proof. unfold decimal. destruct (tonumber text) as [n|]; [|done]. cbn [mbind option_bind]. case_bool_decide; [by intros [= <-]|done]. Qed.

Lemma counter_find read ks k g x now : counterAt read ks k g x -> (now <= x)%Z ->
  exists text v x', find now ks k = Some (Entry (VStr text) (Some x')) /\ read text = Some v /\ (g <= v)%Z.
Proof.
  intros (text & v & x' & E & Hv & Hg & Hx) Hn. exists text, v, x'. split; [|done]. unfold find. rewrite E. unfold alive. cbn [e_exp].
  by rewrite (proj2 (Z.leb_le _ _)) by lia.
Qed.

Lemma counter_set read ks k text v x : read text = Some v -> counterAt read (<[k := Entry (VStr text) (Some x)]> ks) k v x.
Proof. intros Hv. exists text, v, x. rewrite lookup_insert_eq. split_and!; [done|done|lia|lia]. Qed.

Lemma counter_frame {A} read (p : prog A) ks k g x now : avoids k p -> counterAt read ks k g x -> wp p now ks (fun _ ks' => counterAt read ks' k g x).
Proof. intros Hp (text & v & x' & E & Hg). eapply wp_mono; [by apply wp_avoids|]. intros r ks' E'. exists text, v, x'. by rewrite E', E. Qed.

Lemma counter_weaken read ks k g g' x x' : (g <= g')%Z -> (x <= x')%Z -> counterAt read ks k g' x' -> counterAt read ks k g x.
Proof. intros Hg Hx (text & v & x1 & E & ? & ? & ?). exists text, v, x1. split_and!; [done|done|lia|lia]. Qed.

Lemma belowInitial_dec n m : (0 <= n)%Z -> (0 <= m)%Z -> belowInitial (dec n) (dec m) = (n <? m)%Z.
Proof. apply dec_order. Qed.

Lemma retention_pos : (0 < retentionMs)%Z.
Proof. done. Qed.

(** The rest of an allocation that increments: it fails at the end of the 64-bit range. *)
Lemma increment v n now ks : as_str (find now ks (genKey id)) = Some v -> match v with None => Some 0%Z | Some s => tonumber s end = Some n ->
  wp (rd (INCR (genKey id));; rd (PEXPIREAT (genKey id) (EX RUNTIME_SESSION_RECORD_TTL_SECONDS));; rd (GET (genKey id))) now ks
    (fun r ks' => if isInt64 n && isInt64 (n + 1) then r = Some (Some (dec (n + 1))) /\ counterAt decimal ks' (genKey id) (n + 1) (now + retentionMs)
                  else r = None /\ ks' = ks).
Proof.
  intros Ev En. pose proof retention_pos as HT. destruct (isInt64 n && isInt64 (n + 1)) eqn:Hint.
  2: { apply wp_bind, wp_cmd; [|done]. intros ks' r. cbn [exec]. rewrite Ev. cbn [mbind option_bind]. rewrite En. cbn [mbind option_bind]. by rewrite Hint. }
  apply wp_bind. eapply wp_known; [cbn [exec]; rewrite Ev; cbn [mbind option_bind]; rewrite En; cbn [mbind option_bind]; rewrite Hint; reflexivity|].
  apply wp_bind. eapply wp_known; [cbn [exec]; rewrite find_keep_eq; cbn [expiry e_val]; reflexivity|]. rewrite (proj2 (Z.leb_gt _ _)) by lia.
  eapply wp_known; [cbn [exec]; unfold find; rewrite lookup_insert_eq; unfold alive; cbn [e_exp]; rewrite (proj2 (Z.leb_le _ _)) by lia; reflexivity|].
  split; [done|]. apply counter_set, decimal_dec.
Qed.

(** What an allocation of a generation above the floor [initial] answers when the counter is at [v]. *)
Definition generationReply (v initial : Z) (r : option (option jstr)) : Prop :=
  if (v <? Z.max initial (2 ^ 63 - 1))%Z then exists g', r = Some (Some (dec g')) /\ (v < g')%Z /\ (initial <= g')%Z else r = None.

Lemma generation_next g x initial now ks : counterAt decimal ks (genKey id) g x -> (0 <= g)%Z -> (now <= x)%Z -> (1 <= initial)%Z ->
  wp (allocateGenerationScript id (dec initial) RUNTIME_SESSION_RECORD_TTL_SECONDS) now ks (fun r ks' =>
    (exists v, as_str (find now ks (genKey id)) = Some (Some (dec v)) /\ (g <= v)%Z /\ generationReply v initial r)
    /\ (counterAt decimal ks' (genKey id) g (now + retentionMs) \/ ks' = ks)).
Proof.
  intros Hc Hg Hn Hi. destruct (counter_find _ _ _ _ _ _ Hc Hn) as (text & v & x1 & E & ->%decimal_text & Hv). unfold allocateGenerationScript. apply wp_bind.
  assert (as_str (find now ks (genKey id)) = Some (Some (dec v))) as Es by (by rewrite E).
  eapply wp_known; [cbn [exec]; rewrite E; reflexivity|]. change (default (js "0") (Some (dec v))) with (dec v).
  rewrite belowInitial_dec by lia. unfold generationReply. destruct (Z.ltb_spec v initial).
  - apply wp_bind. eapply wp_known; [reflexivity|]. apply wp_ret. split.
    + exists v. rewrite (proj2 (Z.ltb_lt _ _)) by lia. split_and!; [done|done|]. exists initial. split_and!; [done|lia|lia].
    + left. cbn [andb expiry]. eapply counter_weaken; [|reflexivity|apply counter_set, decimal_dec]. lia.
  - eapply wp_mono; [apply (increment (Some (dec v)) v); [done|apply tonumber_dec]|]. intros r ks' Hr.
    destruct (Z.ltb_spec v (Z.max initial (2 ^ 63 - 1))) as [Hlt|Hge].
    + rewrite int64_next in Hr by lia. destruct Hr as [-> Hk]. split; [|left; eapply counter_weaken; [| |exact Hk]; lia].
      exists v. rewrite (proj2 (Z.ltb_lt _ _)) by done. split_and!; [done|done|]. exists (v + 1)%Z. split_and!; [done|lia|lia].
    + rewrite int64_full in Hr by lia. destruct Hr as [-> ->]. split; [|by right]. exists v. by rewrite (proj2 (Z.ltb_ge _ _)) by done.
Qed.

(** The first allocation of a run of them. *)
Lemma generation_first initial now ks :
  wp (allocateGenerationScript id (dec initial) RUNTIME_SESSION_RECORD_TTL_SECONDS) now ks (fun r ks' =>
    forall g, r = Some (Some (dec g)) -> counterAt decimal ks' (genKey id) g (now + retentionMs)).
Proof.
  unfold allocateGenerationScript. apply wp_bind, wp_cmd; [|done]. intros ks' v. cbn [exec]. intros Ev.
  destruct (belowInitial _ _).
  - assert (ks' = ks) as -> by (destruct (as_str _); [by injection Ev|done]). apply wp_bind. eapply wp_known; [reflexivity|]. apply wp_ret.
    intros g [= E%dec_inj]. subst g. apply counter_set, decimal_dec.
  - destruct (as_str (find now ks (genKey id))) as [v0|] eqn:Es; [|done]. injection Ev as <- ->.
    destruct (match v with None => Some 0%Z | Some s => tonumber s end) as [n|] eqn:En.
    + eapply wp_mono; [by eapply increment|]. intros r ks'. destruct (isInt64 n && isInt64 (n + 1)); [|by intros [-> _]]. by intros [-> Hk] g [= <-%dec_inj].
    + apply wp_bind, wp_cmd; [|done]. intros ks1 r. cbn [exec]. rewrite Es. cbn [mbind option_bind]. by rewrite En.
Qed.

(** A sequence reads back as itself below [10^14], and as no less than that from there on. *)
Lemma stored_sequence q n : (0 <= n < 10 ^ 14)%Z -> (n <= q)%Z -> exists v, luaNumber (tostring q) = Some v /\ (n <= v)%Z.
Proof.
  intros Hn Hq. destruct (Z.lt_ge_cases q (10 ^ 14)) as [Hs|Hl]; [exists q; split; [apply lua_exact|]; lia|].
  destruct (lua_large q Hl) as (v & E & Hv). exists v. split; [done|lia].
Qed.

(** The sequence that an allocation above [m] answers. *)
Lemma sequence_above m a : (0 <= m)%Z -> (a <= m)%Z -> (a < 2 ^ 53)%Z -> (a < double (m + 1))%Z.
Proof. intros Hm Ha Hb. enough (a + 1 <= double (m + 1))%Z by lia. apply double_above; lia. Qed.

Lemma sequence_next n x retained now ks : counterAt luaNumber ks (ckptSeqKey id) n x -> (0 <= n < 10 ^ 14)%Z -> (now <= x)%Z ->
  wp (allocateCheckpointSequenceScript id retained RUNTIME_SESSION_RECORD_TTL_SECONDS) now ks (fun r ks' =>
    exists n', r = Some n' /\ (n < n')%Z /\ ((retained < 2 ^ 53)%Z -> (retained < n')%Z) /\ counterAt luaNumber ks' (ckptSeqKey id) n (now + retentionMs)).
Proof.
  intros Hc Hb Hn. destruct (counter_find _ _ _ _ _ _ Hc Hn) as (text & v & x1 & E & Hr & Hv). unfold allocateCheckpointSequenceScript. apply wp_bind.
  eapply wp_known; [cbn [exec]; rewrite E; reflexivity|]. change (default (js "0") (Some text)) with text. apply wp_bind. rewrite Hr. apply wp_ret.
  apply wp_bind. eapply wp_known; [reflexivity|]. apply wp_ret. exists (double (Z.max retained v + 1)).
  assert (n < double (Z.max retained v + 1))%Z as Hlt by (apply sequence_above; lia).
  split_and!; [done|done|intros; apply sequence_above; lia|]. cbn [andb expiry].
  destruct (stored_sequence (double (Z.max retained v + 1)) n Hb ltac:(lia)) as (u & Eu & Hu).
  eapply counter_weaken; [exact Hu|reflexivity|by apply counter_set].
Qed.

Lemma sequence_first retained now ks : (0 <= retained)%Z ->
  wp (allocateCheckpointSequenceScript id retained RUNTIME_SESSION_RECORD_TTL_SECONDS) now ks (fun r ks' =>
    forall n, r = Some n -> (n < 10 ^ 14)%Z -> (retained < n)%Z /\ counterAt luaNumber ks' (ckptSeqKey id) n (now + retentionMs)).
Proof.
  intros H0. unfold allocateCheckpointSequenceScript. apply wp_read; [done| |done]. intros text. apply wp_bind. destruct (luaNumber _) as [v|]; [|done]. apply wp_ret.
  apply wp_bind. eapply wp_known; [reflexivity|]. apply wp_ret. intros n [= <-] Hn.
  assert (Z.max retained v + 1 <= 2 ^ 53)%Z as Hs by (apply Z.nlt_ge; intros Hl%double_large; lia).
  rewrite double_exact in * by lia. split; [lia|]. apply counter_set, lua_exact. lia.
Qed.

(** Every script keeps both counters of a session. *)
Lemma counters_kept j token ttlMs R (p : prog R) since now ks g h : registryScript j token ttlMs R p -> (0 <= g)%Z -> (0 <= h < 10 ^ 14)%Z ->
  let x := (since + retentionMs)%Z in (since <= now <= x)%Z ->
  (counterAt decimal ks (genKey id) g x -> wp p now ks (fun _ ks' => counterAt decimal ks' (genKey id) g x))
  /\ (counterAt luaNumber ks (ckptSeqKey id) h x -> wp p now ks (fun _ ks' => counterAt luaNumber ks' (ckptSeqKey id) h x)).
Proof.
  intros Hp Hg Hh x Hn.
  assert (forall i, i <> id -> genKey id <> genKey i /\ ckptSeqKey id <> ckptSeqKey i) as Hne by (intros i Hi; split; intros E; apply Hi; by apply app_inv_head in E).
  destruct Hp as [i tok t|i tok Hj|i tok t Hj|i tok text t Hj|i tok Hj|i m|i m Hm|R p Hp];
    try (split; intros Hc; (apply counter_frame; [|done]); registry_avoids; fail).
  - destruct (decide (i = id)) as [->|Hi]; [|destruct (Hne i Hi); split; intros Hc; (apply counter_frame; [registry_avoids|done])].
    split; intros Hc; [apply counter_frame; [registry_avoids|done]|]. eapply wp_mono; [eapply sequence_next; [exact Hc|done|lia]|].
    intros r ks' (n' & _ & _ & _ & Hk). unfold x in *; eapply counter_weaken; [..|exact Hk]; lia.
  - destruct (decide (i = id)) as [->|Hi]; [|destruct (Hne i Hi); split; intros Hc; (apply counter_frame; [registry_avoids|done])].
    split; intros Hc; [|apply counter_frame; [registry_avoids|done]]. eapply wp_mono; [eapply generation_next; [done|done|lia|done]|].
    intros r ks' [_ [Hk| ->]]; [|done]. unfold x in *; eapply counter_weaken; [..|exact Hk]; lia.
  - split; intros Hc; (apply counter_frame; [|done]); apply (writesIn_avoids _ _ _ Hp); intros E;
      rewrite (registry_prefix _ id) in E by (rewrite !elem_of_cons; tauto); discriminate E.
Qed.

(** The scripts of every worker: whatever the exempted token. *)
Definition anyStep {db} `{RedisServer db} (since until : Z) (s s' : db) : Prop := exists j token ttlMs, registryStep j token ttlMs since until s s'.

Lemma anySteps_keep {db} `{RedisServer db} since until (I : keyspace -> Prop) (s s' : db) :
  (forall j token ttlMs R (p : prog R), registryScript j token ttlMs R p -> forall now ks, (since <= now <= until)%Z -> I ks -> wp p now ks (fun _ ks' => I ks')) ->
  rtc (anyStep since until) s s' -> I (content s) -> I (content s').
Proof.
  intros HI. induction 1 as [s|s s1 s2 (j & token & ttlMs & [R p now r Hp Ht E]) _ IH]; [done|]. intros Hs. apply IH.
  exact (run_wp _ _ _ _ _ _ E (HI j token ttlMs R p Hp now (content s) Ht Hs)).
Qed.

(** (C31) Generations and checkpoint sequences only grow. While a counter is retained,
    and whatever scripts any workers run, a later allocation is greater than an earlier
    one. The counter of generations is compared as a text and incremented by Redis: an
    allocation answers a generation above everything allocated before and not below the
    caller's floor, or fails because the counter is at the end of the 64-bit range. The
    counter of sequences is a Lua number: once [10^14] is reached it is stored rounded, so
    the earlier sequence is assumed below that; a sequence exceeds the greatest retained
    one the caller knows of, if that one is below [2^53]. *)
Theorem counters_grow {db} `{RedisServer db} (s s1 s2 : db) since now :
  rtc (anyStep since (since + retentionMs)) s1 s2 -> (now <= since + retentionMs)%Z ->
  (forall initial g initial', (0 <= g)%Z -> (1 <= initial')%Z ->
     run (allocateGenerationScript id (dec initial) RUNTIME_SESSION_RECORD_TTL_SECONDS) since s = (s1, Some (Some (dec g))) ->
     exists v, as_str (find now (content s2) (genKey id)) = Some (Some (dec v)) /\ (g <= v)%Z
       /\ generationReply v initial' (snd (run (allocateGenerationScript id (dec initial') RUNTIME_SESSION_RECORD_TTL_SECONDS) now s2)))
  /\ (forall retained n retained', (0 <= retained)%Z -> (n < 10 ^ 14)%Z ->
     run (allocateCheckpointSequenceScript id retained RUNTIME_SESSION_RECORD_TTL_SECONDS) since s = (s1, Some n) ->
     exists n', snd (run (allocateCheckpointSequenceScript id retained' RUNTIME_SESSION_RECORD_TTL_SECONDS) now s2) = Some n'
       /\ (n < n')%Z /\ (retained < n)%Z /\ ((retained' < 2 ^ 53)%Z -> (retained' < n')%Z)).
Proof.
  intros Hr Hn. split.
  - intros initial g initial' Hg Hi E. pose proof (run_wp _ _ _ _ _ _ E (generation_first initial since (content s)) g eq_refl) as Hc.
    apply (anySteps_keep _ _ (fun ks => counterAt decimal ks (genKey id) g (since + retentionMs)) _ _ ltac:(intros; eapply (counters_kept _ _ _ _ _ _ _ _ g 0); [done|done|lia|done|done]) Hr) in Hc.
    destruct (run _ now s2) as [s3 r] eqn:E3. exact (proj1 (run_wp _ _ _ _ _ _ E3 (generation_next g _ initial' now _ Hc Hg Hn Hi))).
  - intros retained n retained' H0 Hb E. destruct (run_wp _ _ _ _ _ _ E (sequence_first retained since (content s) H0) n eq_refl Hb) as [Hlt Hc].
    apply (anySteps_keep _ _ (fun ks => counterAt luaNumber ks (ckptSeqKey id) n (since + retentionMs)) _ _ ltac:(intros; eapply (counters_kept _ _ _ _ _ _ _ _ 0 n); [done|lia|lia|done|done]) Hr) in Hc.
    destruct (run _ now s2) as [s3 r] eqn:E3. destruct (run_wp _ _ _ _ _ _ E3 (sequence_next n _ retained' now _ Hc ltac:(lia) Hn)) as (n' & -> & ? & ? & _). by exists n'.
Qed.

(** From [10^14] on the bound is needed: the text of the next sequence reads back as the
    same number, and the one after it is the same sequence again. *)
Lemma sequence_repeats : luaNumber (tostring (10 ^ 14 + 1)) = Some (10 ^ 14)%Z.
Proof. vm_compute. reflexivity. Qed.
End counters.

(** ** The heartbeat and its lease *)

Section lease.
Context {db : Type} `{RedisServer db} (id token : jstr) (ttlMs : Z).
Abbreviation LK := (sessionLockKey id).

(** A holder: the time, its heartbeat, the reply to the renewal in flight, the server. *)
Record leased := Leased { l_clock : Z; l_beat : heartbeat; l_answer : option Z; l_db : db }.

Inductive leaseStep : leased -> leased -> Prop :=
| ls_other clock h a s s' t R (p : prog R) r : registryScript id token ttlMs R p -> (clock <= t)%Z -> run p t s = (s', r) ->
    leaseStep (Leased clock h a s) (Leased t h a s')
| ls_tick clock h a s t : (clock <= t)%Z ->
    leaseStep (Leased clock h a s) (Leased t (tick h t) (match inFlight h with Some _ => a | None => None end) s)
| ls_renew clock h a s s' t start r : inFlight h = Some start -> (clock <= t)%Z -> run (renewSessionLockScript id token ttlMs) t s = (s', r) ->
    leaseStep (Leased clock h a s) (Leased t h r s')
| ls_settled clock h a s t start renewal : inFlight h = Some start -> (clock <= t)%Z -> (renewal = Held -> a = Some 1%Z) ->
    leaseStep (Leased clock h a s) (Leased t (settled ttlMs h start t renewal) None s)
| ls_expire clock h a s t : (clock <= t)%Z -> leaseStep (Leased clock h a s) (Leased t (expire h t) a s)
| ls_stop clock h a s t : (clock <= t)%Z -> leaseStep (Leased clock h a s) (Leased t (stop h) a s).

(** The lock is held until [y], or [y] is past. *)
Definition covers (y : Z) (clock : Z) (s : db) : Prop := (y <= clock)%Z \/ kept (content s) LK token y.

Lemma covers_run y clock t s s' R (p : prog R) r : registryScript id token ttlMs R p -> (1 <= ttlMs)%Z -> (clock <= t)%Z -> (y <= clock + ttlMs)%Z ->
  run p t s = (s', r) -> covers y clock s -> covers y t s'.
Proof.
  intros Hp Ht Hc Hy E [Hpast|Hk]; [left; lia|]. destruct (decide (y <= t)%Z) as [|Hlt]; [by left|]. right.
  refine (proj1 (run_wp _ _ _ _ _ (fun _ ks => guarded id token y (content s !! sessKey id) ks) E _)).
  apply (guarded_step id token ttlMs t y); [done|done|lia|lia|by split].
Qed.

Lemma covers_time y clock t s : (clock <= t)%Z -> covers y clock s -> covers y t s.
Proof. intros Hc [?|?]; [left; lia|by right]. Qed.

Lemma renewed t s s' r : (1 <= ttlMs)%Z -> run (renewSessionLockScript id token ttlMs) t s = (s', r) -> r = Some 1%Z -> kept (content s') LK token (t + ttlMs).
Proof.
  intros Ht E. refine (run_wp _ _ _ _ _ (fun r ks => r = Some 1%Z -> kept ks LK token (t + ttlMs)) E _). unfold renewSessionLockScript.
  apply wp_bind, wp_cmd; [|done]. intros ks' v. cbn [exec]. destruct (find t (content s) LK) as [[[u| | | |] e]|] eqn:Ef; cbn [as_str mbind option_bind];
    try done; intros [= <- <-]; [|by apply wp_ret]. case_bool_decide as Hv; [|by apply wp_ret]. injection Hv as ->. apply wp_bind.
  eapply wp_known; [cbn [exec]; rewrite Ef; cbn [expiry e_val]; reflexivity|]. rewrite (proj2 (Z.leb_gt _ _)) by lia. apply wp_ret. intros _.
  exists (t + ttlMs)%Z. rewrite lookup_insert_eq. split; [done|lia].
Qed.

(** [lag]: how long after the acquisition the heartbeat began. *)
Definition leaseInv (lag : Z) (st : leased) : Prop :=
  let '(Leased clock h a s) := st in
  (forall start, inFlight h = Some start -> (start <= clock)%Z /\ (a = Some 1%Z -> covers (start + ttlMs) clock s))
  /\ (stopped h = false -> fenced h = false -> exists e, expiryAt h = Some e /\ (e <= clock + ttlMs)%Z /\ covers (e - lag) clock s).

Lemma leaseInv_step lag st st' : (1 <= ttlMs)%Z -> (0 <= lag)%Z -> leaseStep st st' -> leaseInv lag st -> leaseInv lag st'.
Proof.
  intros Ht Hlag Hstep. destruct Hstep as [clock h a s s' t R p r Hp Hc E|clock h a s t Hc|clock h a s s' t start r Hf Hc E
    |clock h a s t start renewal Hf Hc Ha|clock h a s t Hc|clock h a s t Hc]; intros [Hfl He]; unfold leaseInv.
  - split; [intros start Hs; destruct (Hfl start Hs) as [Hst Hcov]; split; [lia|]; intros Ea; eapply covers_run; [done|done|done|lia|done|by apply Hcov]|].
    intros Hst Hfe. destruct (He Hst Hfe) as (e & Ee & Hle & Hcov). exists e. split_and!; [done|lia|]. eapply covers_run; [done|done|done|lia|done|done].
  - assert (stopped (tick h t) = stopped h /\ fenced (tick h t) = fenced h /\ expiryAt (tick h t) = expiryAt h) as (-> & -> & ->) by (unfold tick; by case_match).
    split; [|intros Hst Hfe; destruct (He Hst Hfe) as (e & Ee & Hle & Hcov); exists e; split_and!; [done|lia|by eapply covers_time]].
    unfold tick. destruct (inFlight h) as [st0|] eqn:Ei.
    + rewrite (bool_decide_eq_true_2 (is_Some (Some st0))), orb_true_r by done. cbn [orb]. rewrite Ei. intros start [= <-]. destruct (Hfl st0 eq_refl) as [Hst Hcov].
      split; [lia|]. intros Ea. eapply covers_time; [done|]. by apply Hcov.
    + case_match; cbn [inFlight]; [by rewrite Ei|]. intros start [= <-]. split; [lia|done].
  - split.
    + intros start' Hs. rewrite Hf in Hs. injection Hs as <-. destruct (Hfl start Hf) as [Hst _]. split; [lia|]. intros ->. right.
      destruct (renewed t s s' _ Ht E eq_refl) as (x' & Ek & Hx'). exists x'. split; [done|lia].
    + intros Hst Hfe. destruct (He Hst Hfe) as (e & Ee & Hle & Hcov). exists e. split_and!; [done|lia|].
      eapply (covers_run _ clock t s s' _ _ r); [by apply rs_renew; right; right|done|done|lia|done|done].
  - split; [done|]. unfold settled. destruct (stopped h) eqn:Es; cbn [orb]; [by rewrite Es|]. destruct (fenced h) eqn:Ef; cbn [stopped fenced]; [by rewrite Ef|].
    destruct (He eq_refl eq_refl) as (e & Ee & Hle & Hcov). destruct renewal; cbn [armExpiry abortFence stopped fenced expiryAt]; intros _ Hfe; [|done|].
    + specialize (Ha eq_refl). destruct (Hfl start Hf) as [Hst Hlease]. specialize (Hlease Ha). eexists. split_and!; [done|lia|].
      destruct (decide (t + Z.max 0 (ttlMs - (t - start)) - lag <= t)%Z); [by left|]. destruct Hlease as [?|(x' & Ek & Hx')]; [lia|]. right. exists x'. split; [done|lia].
    + exists e. split_and!; [done|lia|by eapply covers_time].
  - assert (inFlight (expire h t) = inFlight h /\ stopped (expire h t) = stopped h) as (Ei & Es) by (unfold expire; by repeat case_match).
    split; [rewrite Ei; intros start Hs; destruct (Hfl start Hs) as [Hst Hcov]; split; [lia|]; intros Ea; eapply covers_time; [done|by apply Hcov]|].
    rewrite Es. intros Hst Hfe. assert (expire h t = h) as Eh by (unfold expire in *; by repeat case_match). rewrite Eh in Hfe |- *.
    destruct (He Hst Hfe) as (e & Ee & Hle & Hcov). exists e. split_and!; [done|lia|by eapply covers_time].
  - split; [cbn; intros start Hs; destruct (Hfl start Hs) as [Hst Hcov]; split; [lia|]; intros Ea; eapply covers_time; [done|by apply Hcov]|done].
Qed.

(** (C30) A heartbeat that has not fenced its holder means the lock is held. From an
    acquisition at [t0] and a heartbeat begun at [t1], through any renewals, replies
    late or lost, timers, and scripts of any workers: at every moment at which the
    holder is neither stopped nor fenced its watchdog is armed, and while the watchdog
    is not due within [t1 - t0] the lock in Redis is live and the holder's. *)
Theorem heartbeat_sound (s0 s1 : db) t0 t1 st :
  (1 <= ttlMs)%Z -> (t0 <= t1)%Z -> run (acquireScript id token ttlMs) t0 s0 = (s1, Some true) ->
  rtc leaseStep (Leased t1 (startHeartbeat ttlMs t1) None s1) st ->
  stopped (l_beat st) = false -> fenced (l_beat st) = false ->
  exists e, expiryAt (l_beat st) = Some e /\
    ((l_clock st + (t1 - t0) < e)%Z -> exists x, find (l_clock st) (content (l_db st)) LK = Some (Entry (VStr token) x)).
Proof.
  intros Ht H01 E Hr Hst Hfe. assert (leaseInv (t1 - t0) st) as Hi.
  { assert (leaseInv (t1 - t0) (Leased t1 (startHeartbeat ttlMs t1) None s1)) as H0.
    { split; [done|]. intros _ _. unfold startHeartbeat. cbn [armExpiry expiryAt]. eexists. split_and!; [done|lia|]. right.
      pose proof (proj1 (run_wp _ _ _ _ _ _ E (acquired id token ttlMs t0 (content s0)) eq_refl)) as (x' & Ek & Hx'). exists x'. split; [done|lia]. }
    revert H0. clear -Ht H01 Hr. induction Hr as [st|st st1 st2 Hs _ IH]; [done|]. intros Hi. apply IH, (leaseInv_step (t1 - t0) _ _ Ht ltac:(lia) Hs Hi). }
  destruct st as [clock h a s]. destruct Hi as [_ He]. destruct (He Hst Hfe) as (e & Ee & _ & Hcov). exists e. split; [done|]. cbn [l_clock l_db]. intros Hlt.
  destruct Hcov as [Hpast|Hk]; [lia|]. destruct (kept_find _ _ _ _ clock Hk ltac:(lia)) as (x' & Ef & _). by exists (Some x').
Qed.
End lease.

(** ** Calls *)

Lemma signalAborted_total o : total (signalAborted o).
Proof. unfold signalAborted. total_run. Qed.
#[local] Hint Resolve signalAborted_total : totaldb.

Lemma runRegistryCommand_total {R} o (p : prog R) : total (runRegistryCommand o p).
Proof. unfold runRegistryCommand. total_run. Qed.
#[local] Hint Resolve runRegistryCommand_total : totaldb.

Lemma acquire_total id ttlMs o : total (acquireRuntimeSessionLock id ttlMs o).
Proof. unfold acquireRuntimeSessionLock, nanoid. total_run. Qed.

Lemma releaseAttempts_total id token signal d delays : total (releaseAttempts id token signal d delays).
Proof. induction delays as [|ms delays IH]; cbn [releaseAttempts]; total_run. Qed.

Lemma release_total id token o : total (releaseRuntimeSessionLock id token o).
Proof. unfold releaseRuntimeSessionLock. apply total_bind; [total_run|]. intros clock. apply releaseAttempts_total. Qed.

(** One turn of the wait goes around only before the deadline, and takes time. *)
Lemma wait_turn id (waitMs pollMs ttlMs : Z) signal deadline t : (1 <= pollMs)%Z ->
  twp (token ← try (acquireRuntimeSessionLock id ttlMs (Options signal (if (0 <? waitMs)%Z then Z.max 1 (deadline - t) else RUNTIME_SESSION_REDIS_COMMAND_TIMEOUT_MS)));
       match token with
       | inl e => if bool_decide (e = COMMAND_TIMED_OUT) then Done (inr None) else Throw e
       | inr token =>
           stop ← signalAborted (Options signal 0);
           if (stop : bool) then
             match token with Some t => releaseRuntimeSessionLock id t (Options false RUNTIME_SESSION_REDIS_CLEANUP_TIMEOUT_MS) | None => Done tt end;;
             Throw WAIT_ABORTED
           else match token with
                | Some t => Done (inr (Some t))
                | None =>
                    if (waitMs <=? 0)%Z then Done (inr None) else
                    clock ← now_;
                    if (deadline <? clock + pollMs)%Z then Done (inr None) else
                    delay pollMs;; Done (inl false)
                end
       end) t (fun t' o => (t <= t')%Z /\ forall v : bool, o = inr (inl v) -> (t < deadline)%Z /\ (t < t')%Z).
Proof.
  intros Hp. apply twp_bind, twp_try. eapply twp_mono; [apply acquire_total|]. intros t1 o Ht1. cbn beta in Ht1. destruct o as [e|token].
  { case_bool_decide; cbn [twp]; (split; [lia|done]). }
  apply twp_bind. eapply twp_mono; [apply signalAborted_total|]. intros t2 [e|b] Ht2; cbn beta in Ht2; [split; [lia|done]|]. destruct b.
  { apply twp_bind. apply (twp_mono _ _ (fun t3 _ => (t2 <= t3)%Z)); [destruct token; [apply release_total|cbn [twp]; lia]|].
    intros t3 [e|u] Ht3; cbn [twp]; (split; [lia|done]). }
  destruct token as [tok|]; [cbn [twp]; split; [lia|done]|]. case_match; [cbn [twp]; split; [lia|done]|].
  apply twp_bind. intros t3 Ht3. cbn [twp]. destruct (Z.ltb_spec deadline (t3 + pollMs)); [cbn [twp]; split; [lia|done]|].
  apply twp_bind. intros t4 Ht4. cbn [twp]. split; [lia|]. intros v _. lia.
Qed.

(** Waiting for a session ends. Under every environment whose clock does not run
    backwards, whose timers do not fire early and where each command settles, every
    call of [waitForRuntimeSessionLock] with a positive polling interval ends, with the
    lock, without it, or with an error. *)
Theorem lock_wait_settles id waitMs pollMs ttlMs signal now : (1 <= pollMs)%Z ->
  halts (fun now' _ => (now <= now')%Z) now (waitForRuntimeSessionLock id waitMs pollMs ttlMs signal).
Proof.
  intros Hp. apply twp_halts. revert now. change (total (waitForRuntimeSessionLock id waitMs pollMs ttlMs signal)).
  apply total_bind; [apply total_now|]. intros start. apply (total_deadline_loop (start + waitMs) (fun _ => True)); [done|apply total_done|].
  intros first t _. apply twp_bind. eapply twp_mono; [apply signalAborted_total|]. intros t1 [e|b] Ht1; cbn beta in Ht1; [split; [lia|done]|].
  destruct b; cbn [throwIf]; [cbn [twp]; split; [lia|done]|]. apply twp_bind. cbn [twp]. apply twp_bind. unfold now_ at 1. cbn [twp]. intros t2 Ht2.
  destruct (negb first && (start + waitMs - t2 <=? 0)%Z); [cbn [twp]; split; [lia|done]|].
  eapply twp_mono; [by apply (wait_turn id waitMs pollMs ttlMs signal (start + waitMs) t2)|]. intros t3 o [Ht3 Ho]. split; [lia|].
  intros v E. destruct (Ho v E). split_and!; [done|lia|lia].
Qed.

(** ** What a caller is told *)

Lemma awp_signal o tr (Q : list event -> error + bool -> Prop) : (forall b, Q tr (inr b)) -> awp (signalAborted o) tr Q.
Proof. intros HQ. unfold signalAborted. destruct (hasSignal o); [intros b|]; apply HQ. Qed.

(** A value is the reply of Redis. *)
Lemma awp_registry {R} o (p : prog R) tr (Q : list event -> error + R -> Prop) :
  (forall v, Q (tr ++ [Event p (Some v)]) (inr v)) -> (forall tr' e, Q tr' (inl e)) -> awp (runRegistryCommand o p) tr Q.
Proof.
  intros Hv He. unfold runRegistryCommand. apply awp_bind. unfold throwIf at 1. case_match; [apply He|]. cbn [awp]. apply awp_bind, awp_signal. intros b.
  apply awp_bind. unfold throwIf. case_match; [apply He|]. cbn [awp]. apply awp_bind. intros t. cbn [awp]. apply awp_bind, awp_try, awp_await.
  - intros v. cbn [awp]. apply Hv.
  - apply awp_bind, awp_signal. intros b'. apply awp_bind. intros t'. cbn [awp]. apply He.
Qed.

Section told.
Context `{Runtime} {db : Type} `{RedisServer db} (others : db -> db -> Prop).

Lemma release_any id token o tr (Q : list event -> error + unit -> Prop) : (forall tr' r, Q tr' r) -> awp (releaseRuntimeSessionLock id token o) tr Q.
Proof.
  intros HQ. unfold releaseRuntimeSessionLock. apply awp_bind. intros t. cbn [awp].
  assert (forall delays d tr, awp (releaseAttempts id token (hasSignal o) d delays) tr Q) as Hall; [|apply Hall].
  intros delays. induction delays as [|ms delays IH]; intros d tr1; cbn [releaseAttempts]; apply awp_bind; intros c; cbn [awp]; cbv zeta; apply awp_bind;
    (destruct (timeoutMs (Options (hasSignal o) (d - c)) <=? 0)%Z; [cbn [awp]; apply HQ|]); apply awp_signal; intros b; (destruct b; [apply HQ|]); apply awp_bind, awp_try, awp_registry; intros; cbn [awp]; try apply HQ.
  apply awp_bind. intros c'. cbn [awp]. cbv zeta. apply awp_bind.
  destruct (0 <? Z.min ms (Z.max 0 (d - c')))%Z; [intros []|]; cbn [awp]; apply IH.
Qed.

(** (C32) A caller holds only what Redis granted, and fails closed. A wait returns a
    token only when an acquisition with that token was answered OK; a write reports
    success, and a renewal "held", only on the script's own [1]; neither throws, and
    every lost reply, timeout or abort is reported as not written, or as an error. *)
Theorem registry_fails_closed s tr s' :
  (forall id waitMs pollMs ttlMs signal token,
     performs others s (waitForRuntimeSessionLock id waitMs pollMs ttlMs signal) tr s' (inr (Some token)) ->
     Event (acquireScript id token ttlMs) (Some true) ∈ tr)
  /\ (forall r token ttlSeconds o out, performs others s (writeRuntimeSessionRecord r token ttlSeconds o) tr s' out ->
     exists b, out = inr b /\ (b = true -> Event (writeRecordScript (runtime_session_id r) token (stringify (recordJson r)) ttlSeconds) (Some 1%Z) ∈ tr))
  /\ (forall id token ttlMs o out, performs others s (renewRuntimeSessionLock id token ttlMs o) tr s' out ->
     exists l, out = inr l /\ (l = Held -> Event (renewSessionLockScript id token ttlMs) (Some 1%Z) ∈ tr)
       /\ (l = Lost -> exists n, n <> 1%Z /\ Event (renewSessionLockScript id token ttlMs) (Some n) ∈ tr)).
Proof.
  split_and!.
  - intros id waitMs pollMs ttlMs signal token Hp.
    refine (awp_sound others _ _ _ _ _ Hp [] (fun tr o => forall tok, o = inr (Some tok) -> Event (acquireScript id tok ttlMs) (Some true) ∈ tr) _ token eq_refl).
    unfold waitForRuntimeSessionLock. apply awp_bind. intros start. cbn [awp]. exists (fun _ _ => True). split; [done|]. intros first tr1 _.
    apply awp_bind, awp_signal. intros b. apply awp_bind. unfold throwIf. destruct b; [by intros tok [=]|]. cbn [awp].
    apply awp_bind. intros clock. cbn [awp]. destruct (negb first && _); [by intros tok [=]|]. apply awp_bind, awp_try. unfold acquireRuntimeSessionLock, nanoid. apply awp_bind.
    intros tok. cbn [awp]. apply awp_bind, awp_registry; [|intros tr' e; cbn [awp]; destruct (bool_decide _); by intros tok' [=]]. intros ok. cbn [awp].
    apply awp_bind, awp_signal. intros stop. destruct stop.
    { apply awp_bind. destruct ok; [apply release_any|]; [intros tr2 [e|u]|]; by intros tok' [=]. }
    destruct ok; cbn [awp]; [intros tok' [= <-]; set_solver|].
    case_match; [by intros tok' [=]|]. apply awp_bind. intros c. cbn [awp]. case_match; [by intros tok' [=]|]. by intros [].
  - intros r token ttlSeconds o out Hp. refine (awp_sound others _ _ _ _ _ Hp [] (fun tr out => exists b, out = inr b /\ (b = true -> _ ∈ tr)) _).
    unfold writeRuntimeSessionRecord. apply awp_bind, awp_try, awp_registry; cbn [awp]; [|intros tr' e; by exists false].
    intros v. eexists. split; [done|]. intros Hv%Z.eqb_eq. subst v. set_solver.
  - intros id token ttlMs o out Hp. refine (awp_sound others _ _ _ _ _ Hp [] (fun tr out => exists l, out = inr l /\ (l = Held -> _ ∈ tr) /\ (l = Lost -> exists n, n <> 1%Z /\ Event _ (Some n) ∈ tr)) _).
    unfold renewRuntimeSessionLock. apply awp_bind, awp_try, awp_registry; cbn [awp]; [|intros tr' e; by exists RenewalError].
    intros v. destruct (Z.eqb_spec v 1) as [->|Hv]; eexists; (split; [done|]); (split; [|]); try done; intros _; [set_solver|]. exists v. split; [done|]. set_solver.
Qed.
End told.

(** ** The session of a queued job *)

Definition modeName (m : RuntimeSessionMode) : jstr := js match m with Stateless => "stateless" | Affinity => "affinity" | Strict => "strict" end.

Lemma modeOf_name v m : runtimeSessionModeOf v = Some m <-> v = JStr (modeName m).
Proof.
  split.
  - destruct v; cbn [runtimeSessionModeOf]; try done. intros E. repeat case_bool_decide; simplify_eq; try done; by destruct m.
  - intros ->. by destruct m.
Qed.

(** The decisions that are allowed. *)
Inductive sessionDecision (a : sessionJob) : option jstr -> RuntimeSessionMode -> Prop :=
| sd_exempt : isSynthetic a || programmaticExemption a = true -> sessionDecision a None Stateless
| sd_stateless : isSynthetic a || programmaticExemption a = false -> queuedId a = None ->
    (queuedMode a = None \/ queuedMode a = Some (JStr (modeName Stateless))) -> sessionDecision a None Stateless
| sd_session s m : isSynthetic a || programmaticExemption a = false -> queuedId a = Some (JStr s) -> s <> [] -> m <> Stateless ->
    ((queuedMode a = None /\ m = Affinity) \/ queuedMode a = Some (JStr (modeName m))) ->
    workerMode a <> Stateless -> workerBackend a <> HttpBackend -> sessionDecision a (Some s) m.

(** A queued session is honoured or refused, never dropped or invented. The
    worker's decision is exactly: no session for exempt jobs and for jobs that queued
    none; otherwise the queued session, under the queued mode, on a worker whose mode
    and backend can keep it. Everything else is an error. *)
Theorem session_decision a id mode : resolveRuntimeSessionForJob a = Ok (id, mode) <-> sessionDecision a id mode.
Proof.
  unfold resolveRuntimeSessionForJob. destruct (isSynthetic a || programmaticExemption a) eqn:Ex.
  { split; [intros [= <- <-]; by apply sd_exempt|]. intros Hd. inversion Hd; [reflexivity|congruence..]. }
  assert (forall m, m <> Stateless -> forall s : jstr,
    (match workerMode a, workerBackend a with Stateless, _ | _, HttpBackend => Err WorkerCannotHonor | _, _ => Ok (Some s, m) end : res sessionDecisionError _) = Ok (id, mode)
    <-> id = Some s /\ mode = m /\ workerMode a <> Stateless /\ workerBackend a <> HttpBackend) as Hw.
  { intros m Hm s. destruct (workerMode a), (workerBackend a); (split; [intros [=]; split_and!; congruence|]); intros (-> & -> & Hwm & Hwb); congruence. }
  split.
  - destruct (queuedId a) as [[| | | |s| |]|] eqn:Ei; cbn; try done.
    + destruct (bool_decide_reflect (s = [])) as [|Hs]; cbn; [done|]. destruct (queuedMode a) as [v|] eqn:Em; cbn.
      * destruct (runtimeSessionModeOf v) as [m|] eqn:Ev; cbn; [|done]. apply modeOf_name in Ev as ->.
        destruct m; [done|..]; intros (-> & -> & ? & ?)%Hw; try done; (apply (sd_session a s); try done; by right).
      * intros (-> & -> & ? & ?)%Hw; [|done]. apply (sd_session a s); try done. by left.
    + destruct (queuedMode a) as [v|] eqn:Em; cbn.
      * destruct (runtimeSessionModeOf v) as [m|] eqn:Ev; cbn; [|done]. apply modeOf_name in Ev as ->. destruct m; try done. intros [= <- <-].
        apply sd_stateless; [done|done|by right].
      * intros [= <- <-]. apply sd_stateless; [done|done|by left].
  - intros Hd. inversion Hd as [Hx|_ Hi Hq|s m _ Hi Hs Hm Hq Hwm Hwb]; subst; [congruence|..]; rewrite Hi; cbn.
    + destruct Hq as [->|Hq]; cbn; [done|]. by rewrite Hq.
    + rewrite bool_decide_eq_false_2 by done. cbn. destruct Hq as [[Hq ->]|Hq]; rewrite Hq; [cbn; by apply Hw|].
      rewrite (proj2 (modeOf_name _ mode) eq_refl). destruct mode; [done|..]; by apply Hw.
Qed.

(** ** Witnesses: one session, from an empty server *)

Definition sess0 : jstr := js "s".
Definition locked0 : keyspace := fst (run (acquireScript sess0 (js "a") 3000) 1000 (∅ : keyspace)).

Lemma locked0_run : run (acquireScript sess0 (js "a") 3000) 1000 (∅ : keyspace) = (locked0, Some true).
Proof. apply run_result. vm_compute. reflexivity. Defined.

Lemma session_fenced_witness : snd (run (writeRecordScript sess0 (js "b") (js "{}") 60) 2000 locked0) = Some 0%Z.
Proof.
  refine (proj1 (proj2 (proj2 (session_fenced sess0 (js "a") (∅ : keyspace) locked0 locked0 1000 3000 2000 _ locked0_run (rtc_refl _ _) _)) (js "b")) (js "{}") 60%Z);
    vm_compute; discriminate.
Defined.

Definition record0 : RuntimeSessionRecord := SessionRecord sess0 [(js "state", JStr (js "RUNNING"))].
Definition write0 : prog Z := writeRecordScript sess0 (js "a") (stringify (recordJson record0)) RUNTIME_SESSION_RECORD_TTL_SECONDS.

Lemma record_read_back_witness :
  exists text, snd (run (rd (GET (sessKey sess0))) 3000 (fst (run write0 2000 locked0))) = Some (Some text) /\ parse text = Some (recordJson record0).
Proof.
  refine (record_read_back sess0 (js "a") record0 locked0 _ _ 3000 2000 4000 3000 _ _ _ _ _ (run_result _ _ _ _ _) (rtc_refl _ _) _).
  - vm_compute. reflexivity.
  - vm_compute. discriminate.
  - vm_compute. split; discriminate.
  - vm_compute. discriminate.
  - exists 4000%Z. split; [vm_compute; reflexivity|vm_compute; discriminate].
  - vm_compute. reflexivity.
  - vm_compute. discriminate.
Defined.

(** The second launch of a session has the greater generation. *)
Definition generation0 (initial : Z) : prog (option jstr) := allocateGenerationScript sess0 (dec initial) RUNTIME_SESSION_RECORD_TTL_SECONDS.

Lemma counters_grow_witness : exists v, as_str (find 2000 (fst (run (generation0 9) 1000 (∅ : keyspace))) (genKey sess0)) = Some (Some (dec v)) /\ (9 <= v)%Z
  /\ generationReply v 3 (snd (run (generation0 3) 2000 (fst (run (generation0 9) 1000 (∅ : keyspace))))).
Proof.
  refine (proj1 (counters_grow sess0 (∅ : keyspace) _ _ 1000 2000 (rtc_refl _ _) _) 9%Z 9%Z 3%Z _ _ (run_result _ _ _ _ _)).
  - vm_compute. discriminate.
  - vm_compute. discriminate.
  - vm_compute. discriminate.
  - vm_compute. reflexivity.
Defined.

(** A renewal begun at 2000 and answered at 2100 re-arms the watchdog. *)
Definition ticked0 : heartbeat := tick (startHeartbeat 3000 1500) 2000.
Definition renewed0 : keyspace := fst (run (renewSessionLockScript sess0 (js "a") 3000) 2050 locked0).
Definition lease0 : leased := Leased 2100 (settled 3000 ticked0 2000 2100 Held) None renewed0.

Lemma heartbeat_sound_witness : exists e, expiryAt (l_beat lease0) = Some e /\
  ((l_clock lease0 + (1500 - 1000) < e)%Z -> exists x, find (l_clock lease0) (content (l_db lease0)) (sessionLockKey sess0) = Some (Entry (VStr (js "a")) x)).
Proof.
  refine (heartbeat_sound sess0 (js "a") 3000 (∅ : keyspace) locked0 1000 1500 lease0 _ _ locked0_run _ _ _); [vm_compute; discriminate|vm_compute; discriminate| |vm_compute; reflexivity..].
  eapply rtc_l; [apply (ls_tick _ _ _ _ _ _ _ 2000%Z); vm_compute; discriminate|].
  eapply rtc_l; [eapply (ls_renew _ _ _ _ _ _ _ _ 2050%Z); [vm_compute; reflexivity|vm_compute; discriminate|apply run_result; vm_compute; reflexivity]|].
  eapply rtc_l; [eapply (ls_settled _ _ _ _ _ _ _ 2100%Z 2000%Z Held); [vm_compute; reflexivity|vm_compute; discriminate|reflexivity]|]. apply rtc_refl.
Defined.

Lemma lock_wait_settles_witness : halts (fun now' _ => (7 <= now')%Z) 7 (waitForRuntimeSessionLock sess0 1000 250 3000 true).
Proof. refine (lock_wait_settles sess0 1000 250 3000 true 7 _). vm_compute. discriminate. Defined.

Definition wait0 : act (option jstr) := waitForRuntimeSessionLock sess0 1000 250 3000 true.

Lemma registry_fails_closed_witness :
  exists token, Event (acquireScript sess0 token 3000) (Some true) ∈ playedTrace (play 100 wait0 (World 1000 None 0) ∅).
Proof.
  eexists. eapply (proj1 (registry_fails_closed (fun _ _ => False) (∅ : keyspace) _ _) sess0 1000%Z 250%Z 3000%Z true).
  apply play_performs. vm_compute. reflexivity.
Defined.

(** The watchdog's first deadline counts from the start of the heartbeat and not from
    the acquisition: without a renewal it is still armed, and the holder not fenced,
    when the lease has ended and another worker has the lock. *)
Lemma first_lease_gap : exists st,
  rtc (leaseStep sess0 (js "a") 3000) (Leased 2000 (startHeartbeat 3000 2000) None locked0) st
  /\ fenced (l_beat st) = false /\ expiryAt (l_beat st) = Some 5000%Z /\ l_clock st = 4500%Z
  /\ as_str (find 4500 (content (l_db st)) (sessionLockKey sess0)) = Some (Some (js "b")).
Proof.
  exists (Leased 4500 (startHeartbeat 3000 2000) None (fst (run (acquireScript sess0 (js "b") 3000) 4500 locked0))). split.
  - apply rtc_once. eapply (ls_other _ _ _ _ _ _ _ _ 4500%Z bool (acquireScript sess0 (js "b") 3000) (Some true)); [apply rs_acquire|vm_compute; discriminate|].
    apply run_result. vm_compute. reflexivity.
  - split_and!; vm_compute; reflexivity.
Qed.
