(* ===== verification/ReplayState.v ===== *)
(** * Replay state of programmatic executions

    Models service/src/service/replay-state.ts and the continuation handler of
    service/src/service/programmatic-router.ts from its validation to its commit. An
    [ExecutionState] is the untyped object that [JSON.parse] returns; a number the
    program keeps in it is read as an integer. A transaction is a script. *)

From stdpp Require Import base list numbers option strings gmap.
From Stdlib Require Import ZArith Lia.
From S2P Require Import Prelude JsString Json Protocol Redis JsonText BridgeKeys BridgeAdmission BridgeSlots BridgeStore Async BridgeRouting BridgeMethods PairingMethods JobCancellation RuntimeSession.

(** ** Constants *)

Definition EXECUTION_STATE_TTL : Z := 600.
Definition MAX_REPLAY_CALLS : Z := 200.
Definition MAX_EXECUTION_STATE_BYTES : Z := 10000000.
Definition SCAN_KEYS_DEFAULT_LIMIT : Z := 10000.
Definition CLEANUP_BATCH_SIZE : nat := 200.

(** The part of the service's configuration that is used here. *)
Record replayEnv := ReplayEnv { JOB_TIMEOUT : Z; PTC_MAX_TOOL_RESULT_BYTES : Z; PTC_MAX_TOOL_HISTORY_TOTAL_BYTES : Z }.

Definition REPLAY_LOCK_TTL_MS (env : replayEnv) : Z := Z.max (10 * 60 * 1000) (JOB_TIMEOUT env * 2 + 30000).

(** [/^call_\d{3,6}$/]. *)
Definition isCallId (s : jstr) : bool :=
  startsWith s (js "call_") && (3 <=? length s - 5)%nat && (length s - 5 <=? 6)%nat
  && forallb (fun c => (48 <=? c) && (c <=? 57))%Z (drop 5 s).

(** ** Keys *)

Definition EXEC_STATE : jstr := js "exec_state:".
Definition execStateKey (id : jstr) : jstr := EXEC_STATE ++ id.
Definition execLockKey (id : jstr) : jstr := js "exec_lock:" ++ id.
Definition blockingResultKey (id : jstr) : jstr := js "exec_result:" ++ id.
Definition historyKey (id : jstr) : jstr := js "tool_history:" ++ id.

(** ** Scripts *)

Definition acquireExecutionLockScript (id token : jstr) (ttlMs : Z) : prog bool := rd (SET (execLockKey id) token (PX ttlMs) true).

Definition releaseExecutionLockScript (id token : jstr) : prog Z :=
  holder ← rd (GET (execLockKey id));
  if bool_decide (holder = Some token) then rd (DEL [execLockKey id]) else Ret 0%Z.

Definition setExecutionResultScript (id stateJson resultJson : jstr) : prog Z :=
  live ← rd (EXISTS (execStateKey id));
  if (live : bool) then
    rd (SET (execStateKey id) stateJson (EX EXECUTION_STATE_TTL) false);;
    rd (SET (blockingResultKey id) resultJson (EX EXECUTION_STATE_TTL) false);;
    Ret 1%Z
  else Ret 0%Z.

Definition setExecutionErrorScript (id stateJson : jstr) : prog Z :=
  live ← rd (EXISTS (execStateKey id));
  if (live : bool) then rd (SET (execStateKey id) stateJson (EX EXECUTION_STATE_TTL) false);; Ret 1%Z else Ret 0%Z.

(** The [MULTI] of a commit. *)
Definition commitScript (id : jstr) (kvs : list (jstr * jstr)) (stateJson : jstr) : prog unit :=
  (match kvs with [] => Ret tt | _ => rd (HSET (historyKey id) kvs) end);;
  rd (PEXPIREAT (historyKey id) (EX EXECUTION_STATE_TTL));;
  rd (SET (execStateKey id) stateJson (EX EXECUTION_STATE_TTL) false);;
  Ret tt.

(** [HMGET] and [HGETALL]. *)
Fixpoint hmget (key : jstr) (fs : list jstr) : prog (list (option jstr)) :=
  match fs with
  | [] => Ret []
  | f :: fs => v ← rd (HGET key f); vs ← hmget key fs; Ret (v :: vs)
  end.
Definition hgetall (key : jstr) : prog (list (jstr * option jstr)) :=
  fs ← rd (HKEYS key); vs ← hmget key fs; Ret (zip fs vs).

(** ** Results and their history *)

Record toolResult := ToolResult {
  call_id : jstr; result : json; is_error : option bool; error_message : option jstr;
  tool_name : option json; input_hash : option json; call_site : option json }.

Inductive replayError :=
| TooManyEntries (n : Z) | NotAnObject | BadCallId | NoResult (id : jstr) | BadIsError (id : jstr) | BadErrorMessage (id : jstr)
| ResultTooLarge (id : jstr) (bytes : Z) | DuplicateCallId (id : jstr)
| EntryTooLarge (id : jstr) (bytes : Z) | HistoryImmutable (id : jstr)
| ModeMismatch | NotOwner | NotIssued (id : jstr) | TooManyCalls | HistoryTooLarge (bytes : Z)
| LockHeld | NotFound | RequestCancelled | StateTooLarge | CommitFailed.

(** An HTTP status and its reason; [TypeFailure] is a [TypeError] thrown on a stored [null]. *)
Inductive refusal := Refusal (status : Z) (e : replayError) (cleanupOnReject : bool) | TypeFailure.

Definition optStr (k : string) (v : option jstr) : record := optField k (JStr <$> v).

Section history.
Context `{Runtime} (env : replayEnv).

(** The entry of a result; [undefined] properties are not serialised. *)
Definition historyEntry (r : toolResult) (now : Z) : json :=
  JObj ([(js "result", result r); (js "is_error", JBool (default false (is_error r)))] ++ optStr "error_message" (error_message r)
        ++ [(js "received_at", JInt now)] ++ optField "tool_name" (tool_name r) ++ optField "input_hash" (input_hash r) ++ optField "call_site" (call_site r)).

Definition isNullish (v : option json) : bool := match v with None | Some JNull => true | _ => false end.

Definition canonicalEntryBody (res isError errorMessage : option json) : jstr :=
  stringify (JObj (optField "result" res ++ [(js "is_error", if isNullish isError then JBool false else default JNull isError)] ++ optField "error_message" errorMessage)).

Definition incomingBody (r : toolResult) : jstr :=
  canonicalEntryBody (Some (result r)) (JBool <$> is_error r) (JStr <$> error_message r).

(** A property of a stored entry that is not [null]. *)
Definition storedProp (v : json) (k : string) : option json := match v with JObj o => field o (js k) | _ => None end.
Definition storedBody (v : json) : jstr := canonicalEntryBody (storedProp v "result") (storedProp v "is_error") (storedProp v "error_message").

Record ToolHistoryDelta := Delta { serializedByCallId : list (jstr * jstr); newCallIds : list jstr; bytesDelta : Z }.

(** [Map.prototype.set]. *)
Definition mapSet (m : list (jstr * jstr)) (k v : jstr) : list (jstr * jstr) :=
  if bool_decide (k ∈ map fst m) then map (fun kv => if bool_decide (fst kv = k) then (k, v) else kv) m else m ++ [(k, v)].

(** The loop over the results; [old] is what is stored for a call, when it parses. *)
Fixpoint deltaLoop (old : jstr -> option json) (now : Z) (results : list toolResult) (d : ToolHistoryDelta) : res refusal ToolHistoryDelta :=
  match results with
  | [] => Ok d
  | r :: results =>
      let serialized := stringify (historyEntry r now) in
      let newBytes := byteLength serialized in
      if (PTC_MAX_TOOL_RESULT_BYTES env <? newBytes)%Z then Err (Refusal 400 (EntryTooLarge (call_id r) newBytes) false) else
      match old (call_id r) with
      | Some JNull => Err TypeFailure
      | Some existing =>
          if bool_decide (incomingBody r = storedBody existing) then deltaLoop old now results d
          else Err (Refusal 409 (HistoryImmutable (call_id r)) false)
      | None =>
          deltaLoop old now results
            (Delta (mapSet (serializedByCallId d) (call_id r) serialized) (newCallIds d ++ [call_id r]) (bytesDelta d + newBytes))
      end
  end.

(** What is stored for the calls of a batch. *)
Definition storedEntries (ids : list jstr) (raw : list (option jstr)) (id : jstr) : option json :=
  match List.find (fun p => bool_decide (fst p = id)) (zip ids raw) with Some (_, Some text) => parse text | _ => None end.

Definition computeToolHistoryDelta (execution_id : jstr) (results : list toolResult) : act (res refusal ToolHistoryDelta) :=
  match results with
  | [] => Done (Ok (Delta [] [] 0))
  | _ =>
      let callIds := map call_id results in
      existingRaw ← await (hmget (historyKey execution_id) callIds);
      now ← now_;
      Done (deltaLoop (storedEntries callIds existingRaw) now results (Delta [] [] 0))
  end.

(** ** Execution state *)

Definition stateId (s : record) : jstr := match field s (js "execution_id") with Some (JStr i) => i | _ => [] end.
Definition numOf (s : record) (k : string) : Z := match field s (js k) with Some (JInt n) => n | _ => 0%Z end.
Definition strOf (s : record) (k : string) : option jstr := match field s (js k) with Some (JStr v) => Some v | _ => None end.
Definition emittedCallIds (s : record) : list jstr :=
  match field s (js "emittedCallIds") with Some (JArr l) => omap (fun v => match v with JStr i => Some i | _ => None end) l | _ => [] end.

Definition STATE_TOO_LARGE : error := Thrown "ExecutionStateTooLargeError".

(** [JSON.stringify(state)], within its cap. *)
Definition serializedState (s : record) : act jstr :=
  let text := stringify (JObj s) in
  if (MAX_EXECUTION_STATE_BYTES <? byteLength text)%Z then Throw STATE_TOO_LARGE else Done text.

Definition normalizeExecutionState (s : record) : record :=
  if isNullish (field s (js "externalUserId")) then
    match field s (js "chcUserId") with Some (JStr legacy) => setField s "externalUserId" (JStr legacy) | _ => s end
  else s.

(** A stored text that is not an object is a broken store. *)
Definition parseState (text : jstr) : act record :=
  match parse text with Some (JObj s) => Done s | _ => Throw OtherError end.

Definition getExecutionState (id : jstr) : act (option record) :=
  data ← await (rd (GET (execStateKey id)));
  match data with
  | None => Done None
  | Some text => s ← parseState text; Done (Some (normalizeExecutionState s))
  end.

Definition setExecutionState (s : record) : act unit :=
  text ← serializedState s;
  await (rd (SET (execStateKey (stateId s)) text (EX EXECUTION_STATE_TTL) false));; Done tt.

Definition deleteExecutionState (id : jstr) : act unit := await (rd (DEL [execStateKey id]));; Done tt.
Definition deleteToolHistory (id : jstr) : act unit := await (rd (DEL [historyKey id]));; Done tt.
Definition deleteBlockingResult (id : jstr) : act unit := await (rd (DEL [blockingResultKey id]));; Done tt.

Definition acquireExecutionLock (id : jstr) : act (option jstr) :=
  token ← nanoid;
  ok ← await (acquireExecutionLockScript id token (REPLAY_LOCK_TTL_MS env));
  Done (if (ok : bool) then Some token else None).

Definition releaseExecutionLock (id token : jstr) : act unit := try (await (releaseExecutionLockScript id token));; Done tt.

Definition setBlockingResult (id : jstr) (result : json) : act unit :=
  await (rd (SET (blockingResultKey id) (stringify result) (EX EXECUTION_STATE_TTL) false));; Done tt.

Definition getBlockingResult (id : jstr) : act (option json) :=
  data ← await (rd (GET (blockingResultKey id)));
  match data with
  | None => Done None
  | Some text => match parse text with Some v => Done (Some v) | None => Throw OtherError end
  end.

Definition setExecutionResult (id : jstr) (result : json) : act unit :=
  existing ← getExecutionState id;
  match existing with
  | None => Done tt
  | Some s =>
      text ← serializedState (withoutKey (js "jobResult") (setField s "jobCompleted" (JBool true)));
      await (setExecutionResultScript id text (stringify result));; Done tt
  end.

Definition setExecutionError (id message : jstr) : act unit :=
  existing ← getExecutionState id;
  match existing with
  | None => Done tt
  | Some s =>
      text ← serializedState (setField (setField s "jobCompleted" (JBool true)) "jobError" (JStr message));
      await (setExecutionErrorScript id text);; Done tt
  end.

Definition commitToolHistoryAndState (s : record) (d : ToolHistoryDelta) : act unit :=
  text ← serializedState s;
  await (commitScript (stateId s) (serializedByCallId d) text).

Definition refreshExecutionTtl (id : jstr) : act unit :=
  await (rd (PEXPIREAT (execStateKey id) (EX EXECUTION_STATE_TTL)));;
  await (rd (PEXPIREAT (historyKey id) (EX EXECUTION_STATE_TTL))).

(** Entries that do not parse are dropped. *)
Definition parsedEntry (kv : jstr * option jstr) : option (jstr * json) :=
  match snd kv with Some text => match parse text with Some v => Some (fst kv, v) | None => None end | None => None end.
Definition loadToolHistory (id : jstr) : act (list (jstr * json)) :=
  raw ← await (hgetall (historyKey id)); Done (omap parsedEntry (raw : list (jstr * option jstr))).

(** ** Cleanup

    The deletion of a session on the tool-call server, whose failure is ignored, is
    left out; deletions sent together are sent in turn. *)

Definition deleteAll (stateKey id : jstr) : act unit :=
  r1 ← try (await (rd (DEL [stateKey])));
  r2 ← try (deleteToolHistory id);
  r3 ← try (deleteBlockingResult id);
  match r1, r2, r3 with inr _, inr _, inr _ => Done tt | _, _, _ => Throw CommandFailed end.

(** The sweep of a stale execution deletes its state last. *)
Definition deleteStale (stateKey id : jstr) : act unit :=
  r1 ← try (deleteToolHistory id);
  r2 ← try (deleteBlockingResult id);
  r3 ← try (await (rd (DEL [stateKey])));
  match r1, r2, r3 with inr _, inr _, inr _ => Done tt | _, _, _ => Throw CommandFailed end.

Definition cleanupExecution (id : jstr) : act unit := try (deleteAll (execStateKey id) id);; Done tt.

Definition scanKeys (prefix : jstr) (limit : Z) : act (list jstr) :=
  Loop (js "0", [] : list jstr) (fun st =>
    batch ← scan (fst st) prefix;
    let out := take (Z.to_nat limit) (snd st ++ snd batch) in
    if (limit <=? Z.of_nat (length out))%Z || bool_decide (fst batch = js "0") then Done (inr out) else Done (inl (fst batch, out))) Done.

Fixpoint mgetKeys (keys : list jstr) : prog (list (option jstr)) :=
  match keys with
  | [] => Ret []
  | k :: keys => v ← rd (GET k); vs ← mgetKeys keys; Ret (v :: vs)
  end.

Definition isTrue (v : option json) : bool := match v with Some (JBool b) => b | _ => false end.

(** One key of a sweep at [now]: whether it was cleaned. *)
Definition sweepKey (now : Z) (key : jstr) (data : option jstr) : act bool :=
  match data with
  | None => Done false
  | Some text =>
      match parse text with
      | None => try (deleteAll key (drop (length EXEC_STATE) key));; Done true
      | Some (JObj s) =>
          let lastActivity := if isNullish (field s (js "lastActivity")) then field s (js "startTime") else field s (js "lastActivity") in
          match lastActivity with
          | Some (JInt t) =>
              if (EXECUTION_STATE_TTL * 1000 <? now - t)%Z && negb (isTrue (field s (js "jobCompleted")))
              then deleteStale key (stateId s);; Done true else Done false
          | _ => Done false
          end
      | Some JNull => Throw OtherError
      | Some _ => Done false
      end
  end.

Fixpoint sweepKeys (now : Z) (batch : list (jstr * option jstr)) (cleaned : Z) : act Z :=
  match batch with
  | [] => Done cleaned
  | (key, data) :: batch => c ← sweepKey now key data; sweepKeys now batch (cleaned + if (c : bool) then 1 else 0)
  end.

Fixpoint sweepBatches (fuel : nat) (now : Z) (keys : list jstr) (cleaned : Z) : act Z :=
  match fuel, keys with
  | O, _ | _, [] => Done cleaned
  | S fuel, _ =>
      let batchKeys := take CLEANUP_BATCH_SIZE keys in
      values ← await (mgetKeys batchKeys);
      cleaned ← sweepKeys now (zip batchKeys values) cleaned;
      sweepBatches fuel now (drop CLEANUP_BATCH_SIZE keys) cleaned
  end.

Definition cleanupStaleExecutions : act Z :=
  catch (keys ← scanKeys EXEC_STATE SCAN_KEYS_DEFAULT_LIMIT;
         match keys with
         | [] => Done 0%Z
         | _ => now ← now_; sweepBatches (length keys) now keys 0
         end) (fun _ => Done 0%Z).

(** ** Validation *)

Definition optBool (v : option json) : option bool := match v with Some (JBool b) => Some b | _ => None end.
Definition optText (v : option json) : option jstr := match v with Some (JStr s) => Some s | _ => None end.

Definition validateToolResult (v : json) : res refusal toolResult :=
  match v with
  | JObj obj =>
      match field obj (js "call_id") with
      | Some (JStr callId) =>
          if negb (isCallId callId) then Err (Refusal 400 BadCallId false) else
          match field obj (js "result") with
          | None => Err (Refusal 400 (NoResult callId) false)
          | Some result =>
              if negb (isUndefined (field obj (js "is_error")) || isBool (field obj (js "is_error"))) then Err (Refusal 400 (BadIsError callId) false)
              else if negb (isUndefined (field obj (js "error_message")) || isStr (field obj (js "error_message"))) then Err (Refusal 400 (BadErrorMessage callId) false)
              else
                let resultBytes := byteLength (stringify result) in
                if (PTC_MAX_TOOL_RESULT_BYTES env <? resultBytes)%Z then Err (Refusal 400 (ResultTooLarge callId resultBytes) false)
                else Ok (ToolResult callId result (optBool (field obj (js "is_error"))) (optText (field obj (js "error_message"))) None None None)
          end
      | _ => Err (Refusal 400 BadCallId false)
      end
  | _ => Err (Refusal 400 NotAnObject false)
  end.

Fixpoint validateLoop (tool_results : list json) (seen : list jstr) (results : list toolResult) : res refusal (list toolResult) :=
  match tool_results with
  | [] => Ok results
  | raw :: rest =>
      v ← validateToolResult raw;
      if bool_decide (call_id v ∈ seen) then Err (Refusal 400 (DuplicateCallId (call_id v)) false)
      else validateLoop rest (call_id v :: seen) (results ++ [v])
  end.

Definition validateContinuationBatch (tool_results : list json) : res refusal (list toolResult) :=
  if (MAX_REPLAY_CALLS <? Z.of_nat (length tool_results))%Z then Err (Refusal 400 (TooManyEntries (Z.of_nat (length tool_results))) false)
  else validateLoop tool_results [] [].

(** Who continues. *)
Record continuationIdentity := Identity { c_userId : jstr; c_apiKeyId : option jstr; c_tenantId : option jstr; c_authContextHash : option jstr }.

(** [stored != null && stored !== given]. *)
Definition differs (stored : option json) (given : option jstr) : bool :=
  negb (isNullish stored) && negb (match given with Some g => eqStr stored g | None => false end).

Definition checkContinuationPreconditions (s : record) (results : list toolResult) (who : continuationIdentity) (d : ToolHistoryDelta) : res refusal unit :=
  if negb (eqStr (field s (js "mode")) (js "replay")) then Err (Refusal 400 ModeMismatch false) else
  if negb (eqStr (field s (js "userId")) (c_userId who)) || differs (field s (js "apiKeyId")) (c_apiKeyId who)
     || differs (field s (js "tenantId")) (c_tenantId who) || differs (field s (js "authContextHash")) (c_authContextHash who)
  then Err (Refusal 403 NotOwner false) else
  match List.find (fun r => negb (bool_decide (call_id r ∈ emittedCallIds s))) results with
  | Some r => Err (Refusal 400 (NotIssued (call_id r)) false)
  | None =>
      if (MAX_REPLAY_CALLS <? numOf s "callCount" + Z.of_nat (length (newCallIds d)))%Z then Err (Refusal 400 TooManyCalls true)
      else
        let projected := (numOf s "historyBytes" + bytesDelta d)%Z in
        if (PTC_MAX_TOOL_HISTORY_TOTAL_BYTES env <? projected)%Z then Err (Refusal 400 (HistoryTooLarge projected) false) else Ok tt
  end.

(** ** The continuation *)

(** The name and signature of the call that the sandbox emitted; the last of equal ids. *)
Definition emittedCall (s : record) (id : jstr) : option record :=
  match field s (js "emittedToolCalls") with
  | Some (JArr l) => last (omap (fun v => match v with JObj c => if eqStr (field c (js "id")) id then Some c else None | _ => None end) l)
  | _ => None
  end.

Definition enrich (s : record) (r : toolResult) : toolResult :=
  match emittedCall s (call_id r) with
  | None => r
  | Some c => ToolResult (call_id r) (result r) (is_error r) (error_message r) (field c (js "name")) (field c (js "input_hash")) (field c (js "call_site"))
  end.

(** The state that a commit stores. *)
Definition projectedState (s : record) (d : ToolHistoryDelta) (now : Z) : record :=
  setField (setField (setField s "callCount" (JInt (numOf s "callCount" + Z.of_nat (length (newCallIds d)))))
                     "historyBytes" (JInt (Z.max 0 (numOf s "historyBytes" + bytesDelta d))))
           "lastActivity" (JInt now).

Inductive continuation := Answered (status : Z) (e : replayError) | Proceeds (s : record).

(** From the loaded state to the commit; [cancelled] is the signal or a Stop that came first. *)
Definition continueLoaded (s : record) (results : list toolResult) (who : continuationIdentity) (cancelled : bool) : act continuation :=
  if cancelled then cleanupExecution (stateId s);; Done (Answered 200 RequestCancelled) else
  let enriched := map (enrich s) results in
  delta ← computeToolHistoryDelta (stateId s) enriched;
  match delta with
  | Err TypeFailure => Throw OtherError
  | Err (Refusal status e _) => Done (Answered status e)
  | Ok d =>
      match checkContinuationPreconditions s enriched who d with
      | Err TypeFailure => Throw OtherError
      | Err (Refusal status e cleanup) =>
          (if cleanup then cleanupExecution (stateId s) else Done tt);; Done (Answered status e)
      | Ok _ =>
          now ← now_;
          let projected := projectedState s d now in
          r ← try (commitToolHistoryAndState projected d);
          match r with
          | inr _ => Done (Proceeds projected)
          | inl e =>
              if bool_decide (e = STATE_TOO_LARGE) then cleanupExecution (stateId s);; Done (Answered 413 StateTooLarge)
              else Done (Answered 503 CommitFailed)
          end
      end
  end.

(** [handleReplayContinuation] up to its commit; the iteration that follows it,
    [runAndRespond], is the argument [next]. *)
Definition handleReplayContinuation {A} (next : continuation -> act A) (id : jstr) (tool_results : list json) (who : continuationIdentity) (cancelledBeforeStart : bool) : act A :=
  match validateContinuationBatch tool_results with
  | Err TypeFailure => Throw OtherError
  | Err (Refusal status e _) => next (Answered status e)
  | Ok results =>
      token ← acquireExecutionLock id;
      match token with
      | None => next (Answered 409 LockHeld)
      | Some token =>
          r ← try (state ← getExecutionState id;
                   match state with
                   | None => next (Answered 404 NotFound)
                   | Some s =>
                       stop ← aborted;
                       c ← continueLoaded s results who (stop || cancelledBeforeStart);
                       next c
                   end);
          releaseExecutionLock id token;;
          match r with inl e => Throw e | inr a => Done a end
      end
  end.
End history.
