(* ===== verification/ReplayStateProofs.v ===== *)
(** * Replay state: what a continuation may store

    A batch is accepted exactly when each entry is and no call repeats
    ([batch_accepted]). A continuation proceeds only after one read of the history, all
    checks and one successful commit of what they allow ([continuation_commits]). Such a
    commit keeps every readable entry of the history, and counters that cover what is
    stored, within the caps ([history_accounted]); a retry of it is a no-op
    ([history_immutable]). A finished execution is not resurrected by a late result
    ([result_not_resurrected]). *)

From stdpp Require Import base list numbers option strings gmap relations.
From Stdlib Require Import ZArith Lia.
From S2P Require Import Prelude JsString Json Protocol ProtocolPaths Redis JsonText BridgeStore Async BridgeRouting BridgeMethods BridgeMethodsProofs BridgeStoreProofs BridgeRuns PairingMethods PairingScripts JobCancellation JobCancellationProofs RuntimeSession ReplayState.

Section replay.
Context `{Runtime} (env : replayEnv).

(** ** Validation *)

Lemma validateLoop_spec l seen acc rs : validateLoop env l seen acc = Ok rs <->
  exists rs', rs = acc ++ rs' /\ Forall2 (fun v r => validateToolResult env v = Ok r) l rs' /\ NoDup (map call_id rs') /\ Forall (fun r => call_id r ∉ seen) rs'.
Proof.
  revert seen acc. induction l as [|v l IH]; intros seen acc; cbn [validateLoop].
  - split; [intros [= <-]; exists []; rewrite app_nil_r; by split_and!; try constructor|]. intros (rs' & -> & HF & _). inversion HF. by rewrite app_nil_r.
  - destruct (validateToolResult env v) as [r|e] eqn:Ev; cbn; [|split; [done|]; intros (rs' & _ & HF & _); inversion HF; congruence].
    case_bool_decide as Hs.
    + split; [done|]. intros (rs' & _ & HF & _ & Hn). inversion HF as [|? r' ? rs1 Hr]; subst. apply Forall_cons in Hn as [Hn _]. assert (r' = r) as -> by congruence. done.
    + rewrite IH. split.
      * intros (rs' & -> & HF & Hd & Hn). exists (r :: rs'). rewrite <- app_assoc. split_and!; [done|by constructor| |].
        -- cbn. constructor; [|done]. intros Hin. apply list_elem_of_fmap in Hin as (r' & E & Hin). rewrite Forall_forall in Hn. apply (Hn r' Hin). rewrite <- E. by left.
        -- constructor; [done|]. eapply Forall_impl; [exact Hn|]. intros r' Hr' Hin. apply Hr'. by right.
      * intros (rs' & -> & HF & Hd & Hn). inversion HF as [|? r' ? rs1 Hr HF1]; subst. assert (r' = r) as -> by congruence. exists rs1.
        rewrite <- app_assoc. cbn in Hd. apply NoDup_cons in Hd as [Hnin Hd]. apply Forall_cons in Hn as [_ Hn]. split_and!; [done|done|done|].
        apply Forall_forall. intros r1 Hr1 [E|Hin]%elem_of_cons; [|by rewrite Forall_forall in Hn; apply (Hn r1)]. apply Hnin. rewrite <- E. by apply list_elem_of_fmap_2.
Qed.

(** A batch of tool results is accepted exactly when it has at most
    [MAX_REPLAY_CALLS] entries, each entry is valid, and no call is answered twice; the
    results are then those of the entries, in order. *)
Theorem batch_accepted l rs : validateContinuationBatch env l = Ok rs <->
  (Z.of_nat (length l) <= MAX_REPLAY_CALLS)%Z /\ Forall2 (fun v r => validateToolResult env v = Ok r) l rs /\ NoDup (map call_id rs).
Proof.
  unfold validateContinuationBatch. destruct (Z.ltb_spec MAX_REPLAY_CALLS (Z.of_nat (length l))); [split; [done|lia]|]. rewrite validateLoop_spec. split.
  - intros (rs' & -> & HF & Hd & _). by split_and!.
  - intros (_ & HF & Hd). exists rs. split_and!; [done|done|done|]. apply Forall_forall. intros r _. apply not_elem_of_nil.
Qed.

(** ** The accounts of a history *)

Definition histBytes (h : gmap jstr jstr) : Z := map_fold (fun _ text acc => byteLength text + acc)%Z 0%Z h.

Lemma histBytes_insert h k text : h !! k = None -> histBytes (<[k := text]> h) = (byteLength text + histBytes h)%Z.
Proof. intros Hk. unfold histBytes. apply (map_fold_insert_L (fun _ text acc => byteLength text + acc)%Z); [|done]. intros. lia. Qed.

Definition putAll (h : gmap jstr jstr) (kvs : list (jstr * jstr)) : gmap jstr jstr := foldl (fun h fv => <[fst fv := snd fv]> h) h kvs.
Definition textBytes (kvs : list (jstr * jstr)) : Z := foldr (fun kv acc => byteLength (snd kv) + acc)%Z 0%Z kvs.

Lemma putAll_new kvs h : NoDup (map fst kvs) -> (forall k, k ∈ map fst kvs -> h !! k = None) ->
  Z.of_nat (size (putAll h kvs)) = (Z.of_nat (size h) + Z.of_nat (length kvs))%Z /\ histBytes (putAll h kvs) = (histBytes h + textBytes kvs)%Z
  /\ h ⊆ putAll h kvs /\ (forall k text, (k, text) ∈ kvs -> putAll h kvs !! k = Some text)
  /\ (forall k text, putAll h kvs !! k = Some text -> (k, text) ∈ kvs \/ h !! k = Some text).
Proof.
  revert h. induction kvs as [|[k text] kvs IH]; intros h Hd Hn; cbn [putAll foldl fst snd length map] in *.
  { split_and!; [lia|cbn; lia|done|by intros ? ? ?%not_elem_of_nil|by right]. }
  change (textBytes ((k, text) :: kvs)) with (byteLength text + textBytes kvs)%Z.
  apply NoDup_cons in Hd as [Hk Hd]. assert (h !! k = None) as Hnone by (apply Hn; by left).
  destruct (IH (<[k := text]> h) Hd) as (I1 & I2 & I3 & I4 & I5).
  { intros k' Hk'. rewrite lookup_insert_ne; [apply Hn; by right|]. intros ->. done. }
  unfold putAll in *. rewrite I1, I2, map_size_insert_None, histBytes_insert by done. split_and!.
  - lia.
  - lia.
  - etrans; [|exact I3]. by apply insert_subseteq.
  - intros k' t' [[= -> ->]|Hin]%elem_of_cons; [|by apply I4]. eapply lookup_weaken; [apply lookup_insert_eq|exact I3].
  - intros k' t' E. destruct (I5 k' t' E) as [Hin|E']; [left; by right|]. apply lookup_insert_Some in E' as [[<- <-]|[_ E']]; [left; by left|by right].
Qed.

(** Keys that may be there already. *)
Lemma putAll_spec kvs h : NoDup (map fst kvs) ->
  (size (putAll h kvs) <= size h + length kvs)%nat /\ (histBytes (putAll h kvs) <= histBytes h + textBytes kvs)%Z
  /\ (forall k text, (k, text) ∈ kvs -> putAll h kvs !! k = Some text) /\ (forall k, k ∉ map fst kvs -> putAll h kvs !! k = h !! k).
Proof.
  revert h. induction kvs as [|[k text] kvs IH]; intros h Hd; cbn [putAll foldl fst snd length map] in *.
  { split_and!; [lia|cbn; lia|by intros ? ? ?%not_elem_of_nil|done]. }
  change (textBytes ((k, text) :: kvs)) with (byteLength text + textBytes kvs)%Z. apply NoDup_cons in Hd as [Hk Hd].
  destruct (IH (<[k := text]> h) Hd) as (I1 & I2 & I3 & I4). unfold putAll in *. cbn [fst snd] in *. clear IH.
  assert ((size (<[k := text]> h) <= S (size h))%nat /\ (histBytes (<[k := text]> h) <= byteLength text + histBytes h)%Z) as [Hs Hb].
  { destruct (h !! k) as [old|] eqn:E.
    - rewrite map_size_insert_Some by (by eexists). split; [lia|]. rewrite <- (insert_delete_id h k old E) at 2. rewrite <- insert_delete_eq.
      rewrite !histBytes_insert by apply lookup_delete_eq. assert (0 <= byteLength old)%Z by (unfold byteLength; lia). lia.
    - rewrite map_size_insert_None, histBytes_insert by done. lia. }
  split_and!; [lia|lia| |].
  - intros k' t' [[= -> ->]|Hin]%elem_of_cons; [|by apply I3]. rewrite I4 by done. apply lookup_insert_eq.
  - intros k' [Hne Hin]%not_elem_of_cons. rewrite I4 by done. by apply lookup_insert_ne.
Qed.

(** ** The delta of a batch *)

Definition entryOf (now : Z) (r : toolResult) : jstr * jstr := (call_id r, stringify (historyEntry r now)).
Definition readable (h : gmap jstr jstr) (id : jstr) : option json := h !! id ≫= parse.
Definition fresh (h : gmap jstr jstr) (rs : list toolResult) : list toolResult := filter (fun r => readable h (call_id r) = None) rs.

(** A stored result has the body of this one. *)
Definition recorded (h : gmap jstr jstr) (r : toolResult) : Prop :=
  exists text v, h !! call_id r = Some text /\ parse text = Some v /\ v <> JNull /\ storedBody v = incomingBody r.

Lemma deltaLoop_spec old h now rs d d' : (forall r, r ∈ rs -> old (call_id r) = readable h (call_id r)) ->
  NoDup (map call_id rs) -> (forall r, r ∈ rs -> call_id r ∉ map fst (serializedByCallId d)) ->
  deltaLoop env old now rs d = Ok d' ->
  d' = Delta (serializedByCallId d ++ map (entryOf now) (fresh h rs)) (newCallIds d ++ map call_id (fresh h rs)) (bytesDelta d + textBytes (map (entryOf now) (fresh h rs)))
  /\ Forall (fun r => readable h (call_id r) = None \/ recorded h r) rs
  /\ Forall (fun r => byteLength (stringify (historyEntry r now)) <= PTC_MAX_TOOL_RESULT_BYTES env)%Z rs.
Proof.
  revert d. induction rs as [|r rs IH]; intros d Hold Hd Hnew; cbn [deltaLoop].
  { intros [= <-]. destruct d. cbn. rewrite !app_nil_r, Z.add_0_r. by split_and!; constructor. }
  destruct (_ <? _)%Z eqn:Eb; [done|]. apply Z.ltb_ge in Eb. rewrite (Hold r) by (by left). cbn in Hd. apply NoDup_cons in Hd as [Hr Hd].
  assert (forall r', r' ∈ rs -> old (call_id r') = readable h (call_id r')) as Hold' by (intros r' Hr'; apply Hold; by right).
  unfold fresh. rewrite filter_cons. destruct (readable h (call_id r)) as [v|] eqn:Eh.
  - rewrite decide_False by done. destruct (h !! call_id r) as [text|] eqn:Et; unfold readable in Eh; rewrite Et in Eh; [|done]. cbn [mbind option_bind] in Eh.
    intros E. assert (v <> JNull /\ incomingBody r = storedBody v /\ deltaLoop env old now rs d = Ok d') as (Hv & Hb & E') by (destruct v; try done; case_bool_decide; done).
    destruct (IH d Hold' Hd ltac:(intros r' Hr'; apply Hnew; by right) E') as (-> & HF & HB). split_and!; [done| |by constructor]. constructor; [|done]. right. exists text, v. by split_and!.
  - rewrite decide_True by done. intros E. assert (call_id r ∉ map fst (serializedByCallId d)) as Hnr by (apply Hnew; by left).
    unfold mapSet in E. rewrite bool_decide_eq_false_2 in E by done. apply IH in E as (-> & HF & HB); [|done|done|].
    + cbn [serializedByCallId newCallIds bytesDelta map]. rewrite <- !app_assoc. cbn [app]. split_and!; [|by constructor; [left|]|by constructor].
      f_equal. change (textBytes (entryOf now r :: map (entryOf now) (filter (fun r => readable h (call_id r) = None) rs)))
        with (byteLength (stringify (historyEntry r now)) + textBytes (map (entryOf now) (filter (fun r => readable h (call_id r) = None) rs)))%Z. unfold fresh. lia.
    + cbn [serializedByCallId]. intros r' Hr'. rewrite map_app, not_elem_of_app. split; [apply Hnew; by right|]. cbn. rewrite list_elem_of_singleton.
      intros E'. apply Hr. rewrite <- E'. by apply list_elem_of_fmap_2.
Qed.

Lemma hmget_spec key h fs t ks : as_hash (find t ks key) = Some h -> wp (hmget key fs) t ks (fun r ks' => ks' = ks /\ r = Some (map (fun f => h !! f) fs)).
Proof.
  intros Hh. induction fs as [|f fs IH]; cbn [hmget]; [by apply wp_ret|]. apply wp_bind. eapply wp_known; [cbn [exec]; rewrite Hh; reflexivity|].
  apply wp_bind. eapply wp_mono; [exact IH|]. intros r ks' [-> ->]. by apply wp_ret.
Qed.

Lemma storedEntries_spec (h : gmap jstr jstr) ids id : id ∈ ids -> storedEntries ids (map (fun f => h !! f) ids) id = readable h id.
Proof.
  unfold storedEntries. induction ids as [|i ids IH]; [by intros ?%not_elem_of_nil|]. intros Hin. cbn [map zip zip_with List.find fst].
  case_bool_decide as E; [subst i; unfold readable; by destruct (h !! id)|]. apply IH. set_solver.
Qed.

(** The delta of a batch against the stored history. *)
Lemma delta_of_history (h : gmap jstr jstr) now rs d : NoDup (map call_id rs) ->
  deltaLoop env (storedEntries (map call_id rs) (map (fun f => h !! f) (map call_id rs))) now rs (Delta [] [] 0) = Ok d ->
  d = Delta (map (entryOf now) (fresh h rs)) (map call_id (fresh h rs)) (textBytes (map (entryOf now) (fresh h rs)))
  /\ Forall (fun r => readable h (call_id r) = None \/ recorded h r) rs.
Proof.
  intros Hd E. apply (deltaLoop_spec _ h) in E as (-> & HF & _); [by split| |done|by intros ? ? ?%not_elem_of_nil].
  intros r Hr. apply storedEntries_spec. by apply list_elem_of_fmap_2.
Qed.

(** ** The commit *)

Lemma expire_hash key ttl t ks h : (1 <= ttl)%Z -> as_hash (find t ks key) = Some h ->
  wp (rd (PEXPIREAT key (EX ttl))) t ks (fun r ks' => r = Some tt /\ as_hash (find t ks' key) = Some h).
Proof.
  intros Ht Hh. destruct (find t ks key) as [e|] eqn:E.
  - eapply wp_known; [cbn [exec]; rewrite E; cbn [expiry]; reflexivity|]. rewrite (proj2 (Z.leb_gt _ _)) by lia. split; [done|].
    unfold find. rewrite lookup_insert_eq. unfold alive. cbn [e_exp]. rewrite (proj2 (Z.leb_le _ _)) by lia. destruct e as [[] ?]; done.
  - eapply wp_known; [cbn [exec]; rewrite E; reflexivity|]. split; [done|]. by rewrite E.
Qed.

Lemma commit_spec id kvs text t ks h : as_hash (find t ks (historyKey id)) = Some h ->
  wp (commitScript id kvs text) t ks (fun r ks' => r = Some tt /\ as_hash (find t ks' (historyKey id)) = Some (putAll h kvs)
    /\ as_str (find t ks' (execStateKey id)) = Some (Some text)).
Proof.
  intros Hh. unfold commitScript. apply wp_bind.
  apply (wp_mono _ _ _ (fun r ks' => r = Some tt /\ as_hash (find t ks' (historyKey id)) = Some (putAll h kvs))).
  { destruct kvs as [|kv kvs]; [by apply wp_ret|]. eapply wp_known; [cbn [exec]; rewrite Hh; reflexivity|]. split; [done|]. apply hash_put_eq. }
  intros r ks1 [-> Hh1]. apply wp_bind. eapply wp_mono; [by apply expire_hash|]. intros r ks2 [-> Hh2]. apply wp_bind. eapply wp_known; [reflexivity|].
  apply wp_ret. cbn [andb expiry]. split_and!; [done| |].
  - rewrite find_insert_ne; [done|]. discriminate.
  - unfold find. rewrite lookup_insert_eq. unfold alive. cbn [e_exp]. by rewrite (proj2 (Z.leb_le _ _)) by (unfold EXECUTION_STATE_TTL; lia).
Qed.

(** ** Accounts of a state *)

(** The counters of a state cover what is stored, all of it issued by the sandbox. *)
Definition covered (s : record) (h : gmap jstr jstr) : Prop :=
  (Z.of_nat (size h) <= numOf s "callCount")%Z /\ (histBytes h <= numOf s "historyBytes")%Z
  /\ forall id, is_Some (h !! id) -> id ∈ emittedCallIds s.

(** They are the number and the bytes of what is stored. *)
Definition exactly (s : record) (h : gmap jstr jstr) : Prop :=
  numOf s "callCount" = Z.of_nat (size h) /\ numOf s "historyBytes" = histBytes h.

Definition allReadable (h : gmap jstr jstr) : Prop := forall id, is_Some (h !! id) -> is_Some (readable h id).

Lemma field_setField_eq (o : record) k v : field (setField o k v) (js k) = Some v.
Proof.
  unfold setField. case_bool_decide as Hin.
  - induction o as [|[k1 v1] o IH]; [by apply not_elem_of_nil in Hin|]. cbn [map fst snd]. destruct (bool_decide_reflect (k1 = js k)) as [->|Hne]; cbn [field].
    + by rewrite bool_decide_eq_true_2.
    + rewrite bool_decide_eq_false_2 by congruence. apply IH. cbn in Hin. apply elem_of_cons in Hin as [E|Hin]; [congruence|done].
  - induction o as [|[k1 v1] o IH]; cbn [app field]; [by rewrite bool_decide_eq_true_2|]. cbn in Hin. apply not_elem_of_cons in Hin as [Hne Hin].
    rewrite bool_decide_eq_false_2 by done. by apply IH.
Qed.

Lemma projected_fields s d now :
  numOf (projectedState s d now) "callCount" = (numOf s "callCount" + Z.of_nat (length (newCallIds d)))%Z
  /\ numOf (projectedState s d now) "historyBytes" = Z.max 0 (numOf s "historyBytes" + bytesDelta d)
  /\ emittedCallIds (projectedState s d now) = emittedCallIds s /\ stateId (projectedState s d now) = stateId s.
Proof.
  unfold projectedState. split_and!.
  - unfold numOf at 1. rewrite !field_setField_ne by (by vm_compute). by rewrite field_setField_eq.
  - unfold numOf at 1. rewrite field_setField_ne by (by vm_compute). by rewrite field_setField_eq.
  - unfold emittedCallIds. by rewrite !field_setField_ne by (by vm_compute).
  - unfold stateId. by rewrite !field_setField_ne by (by vm_compute).
Qed.

Lemma textBytes_nonneg kvs : (0 <= textBytes kvs)%Z.
Proof. induction kvs as [|kv kvs IH]; [done|]. change (textBytes (kv :: kvs)) with (byteLength (snd kv) + textBytes kvs)%Z. assert (0 <= byteLength (snd kv))%Z by (unfold byteLength; lia). lia. Qed.
Lemma histBytes_nonneg h : (0 <= histBytes h)%Z.
Proof. induction h as [|k text h Hk IH] using map_ind; [done|]. rewrite histBytes_insert by done. assert (0 <= byteLength text)%Z by (unfold byteLength; lia). lia. Qed.

(** What is stored of a new result is recognised as that result. *)
Lemma storedBody_entry r now : storedBody (historyEntry r now) = incomingBody r.
Proof. destruct r as [i v [b|] [m|] [tn|] [ih|] [cs|]]; reflexivity. Qed.

Definition plainResult (r : toolResult) : Prop := forall now, plainJson (historyEntry r now) = true.

Lemma preconditions_ok s rs who d : checkContinuationPreconditions env s rs who d = Ok tt ->
  (forall r, r ∈ rs -> call_id r ∈ emittedCallIds s) /\ (numOf s "callCount" + Z.of_nat (length (newCallIds d)) <= MAX_REPLAY_CALLS)%Z
  /\ (numOf s "historyBytes" + bytesDelta d <= PTC_MAX_TOOL_HISTORY_TOTAL_BYTES env)%Z.
Proof.
  unfold checkContinuationPreconditions. case_match; [done|]. case_match; [done|]. destruct (List.find _ rs) eqn:Ef; [done|].
  destruct (_ <? _)%Z eqn:E1; [done|]. destruct (PTC_MAX_TOOL_HISTORY_TOTAL_BYTES env <? _)%Z eqn:E2; [done|]. intros _. apply Z.ltb_ge in E1, E2. split_and!; [|done|done].
  intros r Hr. apply list_elem_of_In in Hr. pose proof (find_none _ _ Ef r Hr) as Hb. cbn beta in Hb. bools. done.
Qed.

(** What a delta of fresh results does to a history. *)
Lemma putAll_covered s h rs d now now' : covered s h -> Forall plainResult rs -> NoDup (map call_id rs) -> (forall r, r ∈ rs -> call_id r ∈ emittedCallIds s) ->
  Forall (fun r => readable h (call_id r) = None \/ recorded h r) rs ->
  d = Delta (map (entryOf now) (fresh h rs)) (map call_id (fresh h rs)) (textBytes (map (entryOf now) (fresh h rs))) ->
  let h' := putAll h (serializedByCallId d) in
  (forall id text, h !! id = Some text -> h' !! id = Some text \/ parse text = None /\ id ∈ map call_id rs)
  /\ Forall (recorded h') rs /\ covered (projectedState s d now') h'
  /\ (Z.of_nat (size h') <= numOf s "callCount" + Z.of_nat (length (newCallIds d)))%Z /\ (histBytes h' <= numOf s "historyBytes" + bytesDelta d)%Z
  /\ (allReadable h -> exactly s h -> allReadable h' /\ exactly (projectedState s d now') h').
Proof.
  intros (Ec & Eb & Hem) Hplain Hd Hiss HF -> h'. cbn [serializedByCallId newCallIds bytesDelta] in *. set (rs' := fresh h rs) in *.
  assert (forall r, r ∈ rs' <-> readable h (call_id r) = None /\ r ∈ rs) as Hin by (intros r; unfold rs', fresh; rewrite list_elem_of_filter; done).
  assert (map fst (map (entryOf now) rs') = map call_id rs') as Emap by (rewrite map_map; done).
  assert (NoDup (map fst (map (entryOf now) rs'))) as Hnd.
  { rewrite Emap. unfold rs', fresh. revert Hd. clear. induction rs as [|r rs IH]; [done|]. cbn [map]. intros [Hr Hd]%NoDup_cons. rewrite filter_cons.
    case_decide; [|by apply IH]. cbn [map]. constructor; [|by apply IH]. intros Hin. apply Hr. apply list_elem_of_fmap in Hin as (r' & -> & Hin).
    apply list_elem_of_filter in Hin as [_ Hin]. by apply list_elem_of_fmap_2. }
  destruct (putAll_spec (map (entryOf now) rs') h Hnd) as (P1 & P2 & P3 & P4). fold h' in P1, P2, P3, P4. rewrite length_map in P1.
  assert (forall r, r ∈ rs' -> h' !! call_id r = Some (stringify (historyEntry r now))) as Hnew.
  { intros r Hr. apply P3. change (entryOf now r ∈ map (entryOf now) rs'). by apply list_elem_of_fmap_2. }
  rewrite Forall_forall in Hplain, HF.
  assert (forall r, r ∈ rs' -> parse (stringify (historyEntry r now)) = Some (historyEntry r now)) as Hparse.
  { intros r Hr. apply parse_stringify, Hplain. by apply Hin. }
  assert (forall id, id ∈ map call_id rs' \/ h' !! id = h !! id) as Hold.
  { intros id. destruct (decide (id ∈ map call_id rs')) as [Hi|Hi]; [by left|right; apply P4; by rewrite Emap]. }
  destruct (projected_fields s (Delta (map (entryOf now) rs') (map call_id rs') (textBytes (map (entryOf now) rs'))) now') as (F1 & F2 & F3 & _).
  cbn [newCallIds bytesDelta] in *. rewrite length_map in *. pose proof (textBytes_nonneg (map (entryOf now) rs')). pose proof (histBytes_nonneg h).
  split_and!; [| | |lia|lia|].
  - intros id text Et. destruct (Hold id) as [Hi|Hi]; [|left; congruence]. apply list_elem_of_fmap in Hi as (r & -> & Hr). right.
    apply Hin in Hr as [Hr Hrs]. unfold readable in Hr. rewrite Et in Hr. split; [done|by apply list_elem_of_fmap_2].
  - apply Forall_forall. intros r Hr. destruct (HF r Hr) as [Hnone|(text & v & Et & Ev & Hv)].
    + exists (stringify (historyEntry r now)), (historyEntry r now). split_and!; [by apply Hnew, Hin|by apply Hparse, Hin|done|apply storedBody_entry].
    + exists text, v. split; [|done]. destruct (Hold (call_id r)) as [Hi|Hi]; [|congruence]. apply list_elem_of_fmap in Hi as (r' & E & Hr').
      apply Hin in Hr' as [Hr' _]. unfold readable in Hr'. rewrite <- E, Et in Hr'. cbn in Hr'. congruence.
  - split_and!; [lia|lia|]. intros id [text Et]. rewrite F3. destruct (Hold id) as [Hi|Hi]; [|apply Hem; exists text; congruence].
    apply list_elem_of_fmap in Hi as (r & -> & Hr). apply Hiss. by apply Hin.
  - intros Hread [X1 X2]. destruct (putAll_new (map (entryOf now) rs') h Hnd) as (N1 & N2 & _).
    { rewrite Emap. intros k Hk. apply list_elem_of_fmap in Hk as (r & -> & Hr). apply Hin in Hr as [Hr _].
      destruct (h !! call_id r) eqn:E; [|done]. destruct (Hread (call_id r)) as [v Hv]; [by eexists|congruence]. }
    fold h' in N1, N2. rewrite length_map in N1. split; [|split; lia]. intros id [text Et]. unfold readable. rewrite Et. cbn [mbind option_bind].
    destruct (Hold id) as [Hi|Hi].
    + apply list_elem_of_fmap in Hi as (r & -> & Hr). rewrite (Hnew r Hr) in Et. injection Et as <-. rewrite Hparse by done. by eexists.
    + destruct (Hread id) as [v Hv]; [exists text; congruence|]. exists v. unfold readable in Hv. rewrite <- Hi, Et in Hv. done.
Qed.

(** (C26) A continuation extends the history and keeps its accounts. Let the counters of
    a state cover the number and the bytes of its stored entries, all of them issued by
    the sandbox. When a valid batch passes the checks on the delta computed from the
    stored history, its commit, on that history, succeeds; every stored entry stays as
    it is, but for entries of the batch's calls that are no JSON, which the code takes
    as absent and replaces; every result of the batch is recorded; the counters cover
    what is stored again, which is within the caps. Where all stored entries are JSON
    and the counters were exact, they still are. *)
Theorem history_accounted {db} `{RedisServer db} (s0 s1 : db) t0 t1 s rs who raw d now now' h text :
  let id := stateId s in
  covered s h -> Forall plainResult rs -> NoDup (map call_id rs) ->
  as_hash (find t0 (content s0) (historyKey id)) = Some h -> as_hash (find t1 (content s1) (historyKey id)) = Some h ->
  snd (run (hmget (historyKey id) (map call_id rs)) t0 s0) = Some raw ->
  deltaLoop env (storedEntries (map call_id rs) raw) now rs (Delta [] [] 0) = Ok d -> checkContinuationPreconditions env s rs who d = Ok tt ->
  exists s2 h', run (commitScript id (serializedByCallId d) text) t1 s1 = (s2, Some tt)
    /\ as_hash (find t1 (content s2) (historyKey id)) = Some h' /\ as_str (find t1 (content s2) (execStateKey id)) = Some (Some text)
    /\ (forall i x, h !! i = Some x -> h' !! i = Some x \/ parse x = None /\ i ∈ map call_id rs)
    /\ Forall (recorded h') rs /\ covered (projectedState s d now') h'
    /\ (Z.of_nat (size h') <= MAX_REPLAY_CALLS)%Z /\ (histBytes h' <= PTC_MAX_TOOL_HISTORY_TOTAL_BYTES env)%Z
    /\ (allReadable h -> exactly s h -> allReadable h' /\ exactly (projectedState s d now') h').
Proof.
  intros id Ha Hplain Hd Hh0 Hh1 Eraw Ed Epre.
  assert (raw = map (fun f => h !! f) (map call_id rs)) as ->.
  { destruct (run (hmget _ _) t0 s0) as [s0' r] eqn:E0. cbn [snd] in Eraw. subst r. destruct (run_wp _ _ _ _ _ _ E0 (hmget_spec _ h _ t0 _ Hh0)) as [_ [= ->]]. done. }
  destruct (delta_of_history h now rs d Hd Ed) as (Edelta & HF). destruct (preconditions_ok _ _ _ _ Epre) as (Hiss & Hcalls & Hbytes).
  destruct (putAll_covered s h rs d now now' Ha Hplain Hd Hiss HF Edelta) as (Hold & Hrec & Hcov & Hsize & Hb & Hex).
  destruct (run (commitScript id (serializedByCallId d) text) t1 s1) as [s2 r] eqn:E2.
  destruct (run_wp _ _ _ _ _ _ E2 (commit_spec id (serializedByCallId d) text t1 _ h Hh1)) as (-> & Hh2 & Hs2).
  exists s2, (putAll h (serializedByCallId d)). split_and!; try done; lia.
Qed.

(** The stored history is immutable. A batch all of whose results are stored with
    the same bodies gives an empty delta, so a retry of a committed continuation is a
    no-op; a batch that would change the body of any stored result is refused. *)
Theorem history_immutable h rs now : NoDup (map call_id rs) ->
  let outcome := deltaLoop env (storedEntries (map call_id rs) (map (fun f => h !! f) (map call_id rs))) now rs (Delta [] [] 0) in
  (Forall (recorded h) rs -> Forall (fun r => byteLength (stringify (historyEntry r now)) <= PTC_MAX_TOOL_RESULT_BYTES env)%Z rs -> outcome = Ok (Delta [] [] 0))
  /\ (forall r text v, r ∈ rs -> h !! call_id r = Some text -> parse text = Some v -> storedBody v <> incomingBody r -> exists e, outcome = Err e).
Proof.
  intros Hd outcome. split.
  - intros Hrec Hb. unfold outcome. clear outcome Hd.
    assert (forall l, (forall r, r ∈ l -> r ∈ rs) -> deltaLoop env (storedEntries (map call_id rs) (map (fun f => h !! f) (map call_id rs))) now l (Delta [] [] 0) = Ok (Delta [] [] 0)) as Hl; [|by apply Hl].
    intros l. induction l as [|r l IH]; intros Hin; [done|]. assert (r ∈ rs) as Hr by (apply Hin; by left). cbn [deltaLoop]. rewrite Forall_forall in Hrec, Hb.
    rewrite (proj2 (Z.ltb_ge _ _)) by (by apply Hb). rewrite storedEntries_spec by (by apply list_elem_of_fmap_2).
    destruct (Hrec r Hr) as (text & v & Et & Ev & Hv & Hbody). unfold readable at 1. rewrite Et. cbn [mbind option_bind]. rewrite Ev.
    assert (deltaLoop env (storedEntries (map call_id rs) (map (fun f => h !! f) (map call_id rs))) now l (Delta [] [] 0) = Ok (Delta [] [] 0)) as IH' by (apply IH; intros r' Hr'; apply Hin; by right).
    destruct v; try done; by rewrite bool_decide_eq_true_2.
  - intros r text v Hr Et Ev Hne. destruct outcome as [d|e] eqn:Eo; [|by exists e]. exfalso. unfold outcome in Eo.
    destruct (delta_of_history h now rs d Hd Eo) as (_ & HF).
    rewrite Forall_forall in HF. destruct (HF r Hr) as [Hnone|(text' & v' & Et' & Ev' & _ & Hb)]; [unfold readable in Hnone; rewrite Et in Hnone; cbn in Hnone; congruence|]. apply Hne. congruence.
Qed.

(** ** The continuation *)

(** A script that stores nothing, or whose reply was not seen. *)
Definition storesNothing (ev : event) : Prop :=
  match ev with Event p r => r = None \/ commands (fun _ c => match c with SET _ _ _ _ | HSET _ _ => False | _ => True end) p end.

Lemma hmget_stores key fs r : storesNothing (Event (hmget key fs) r).
Proof. right. induction fs as [|f fs IH]; cbn [hmget]; [done|]. apply commands_bind; [by apply commands_rd|]. intros v. by apply commands_bind. Qed.

Lemma awp_cleanup id tr (Q : list event -> error + unit -> Prop) : Forall storesNothing tr ->
  (forall tr', Forall storesNothing tr' -> Q tr' (inr tt)) -> awp (cleanupExecution id) tr Q.
Proof.
  intros Htr HQ. assert (forall k tr (Q : list event -> error + (error + Z) -> Prop), Forall storesNothing tr ->
    (forall tr' o, Forall storesNothing tr' -> Q tr' (inr o)) -> awp (try (await (rd (DEL k)))) tr Q) as Hdel.
  { intros k tr1 Q1 H1 HQ1. apply awp_try, awp_await; [intros a|]; apply HQ1; (apply Forall_app_2; [done|]); apply Forall_singleton; [right; by split|by left]. }
  assert (forall k tr (Q : list event -> error + (error + unit) -> Prop), Forall storesNothing tr ->
    (forall tr' o, Forall storesNothing tr' -> Q tr' (inr o)) -> awp (try (await (rd (DEL k));; Done tt)) tr Q) as Hdel'.
  { intros k tr1 Q1 H1 HQ1. apply awp_try, awp_bind, awp_await; [intros a; cbn [awp]|]; apply HQ1; (apply Forall_app_2; [done|]); apply Forall_singleton; [right; by split|by left]. }
  unfold cleanupExecution. apply awp_bind, awp_try. unfold deleteAll, deleteToolHistory, deleteBlockingResult.
  apply awp_bind, Hdel; [done|]. intros tr1 o1 H1. apply awp_bind, Hdel'; [done|]. intros tr2 o2 H2. apply awp_bind, Hdel'; [done|]. intros tr3 o3 H3.
  destruct o1, o2, o3; by apply HQ.
Qed.

(** A continuation that proceeds: one read, the checks, one commit. *)
Definition committed (s : record) (results : list toolResult) (who : continuationIdentity) (tr : list event) (st : record) : Prop :=
  let rs := map (enrich s) results in let ids := map call_id rs in
  exists raw now now' d,
    tr = (match results with [] => [] | _ => [Event (hmget (historyKey (stateId s)) ids) (Some raw)] end)
         ++ [Event (commitScript (stateId s) (serializedByCallId d) (stringify (JObj st))) (Some tt)]
    /\ deltaLoop env (storedEntries ids raw) now rs (Delta [] [] 0) = Ok d
    /\ checkContinuationPreconditions env s rs who d = Ok tt /\ st = projectedState s d now'
    /\ (byteLength (stringify (JObj st)) <= MAX_EXECUTION_STATE_BYTES)%Z.

(** (C27) A continuation proceeds only on a commit that its checks allow. It sends one
    read of the history, and proceeds exactly with the state it committed, in one
    transaction with the delta that the read and the batch determine, after the
    ownership, issuance and cap checks on them passed. Every other outcome, an answer
    or an error, stored nothing that it saw confirmed: its other scripts read or delete. *)
Theorem continuation_commits {db} `{RedisServer db} (others : db -> db -> Prop) (s0 s' : db) s results who cancelled tr out :
  performs others s0 (continueLoaded env s results who cancelled) tr s' out ->
  match out with
  | inr (Proceeds st) => cancelled = false /\ committed s results who tr st
  | _ => Forall storesNothing tr
  end.
Proof.
  intros Hp. apply (awp_sound others _ _ _ _ _ Hp [] (fun tr out => match out with
    | inr (Proceeds st) => cancelled = false /\ committed s results who tr st | _ => Forall storesNothing tr end)). clear Hp.
  unfold continueLoaded. destruct cancelled; [apply awp_bind, awp_cleanup; [by constructor|]; by intros tr' H'|].
  set (rs := map (enrich s) results). apply awp_bind.
  apply (awp_mono _ _ (fun tr o => exists raw now, tr = match results with [] => [] | _ => [Event (hmget (historyKey (stateId s)) (map call_id rs)) raw] end
    /\ match raw with
       | Some raw => o = inr (deltaLoop env (storedEntries (map call_id rs) raw) now rs (Delta [] [] 0))
       | None => exists e, o = inl e end)).
  { unfold computeToolHistoryDelta. destruct results as [|r results]; [exists (Some []), 0%Z; by split|]. cbn [map] in *. apply awp_bind, awp_await.
    - intros raw. apply awp_bind. intros now. cbn [awp]. by exists (Some raw), now.
    - exists None, 0%Z. split; [done|]. by exists CommandFailed. }
  intros tr1 o (raw & now & -> & Ho).
  assert (Forall storesNothing (match results with [] => [] | _ => [Event (hmget (historyKey (stateId s)) (map call_id rs)) raw] end)) as Hread
    by (destruct results; [by constructor|]; apply Forall_singleton, hmget_stores).
  destruct raw as [raw|]; [subst o|destruct Ho as [e ->]; done]. destruct (deltaLoop _ _ _ _ _) as [d|[status e c|]] eqn:Ed; [|done|done].
  destruct (checkContinuationPreconditions env s rs who d) as [[]|[status e cleanup|]] eqn:Epre; [| |done].
  2: { apply awp_bind. destruct cleanup; [apply awp_cleanup; [done|]; by intros tr' H'|done]. }
  apply awp_bind. intros now'. cbn [awp]. set (st := projectedState s d now'). apply awp_bind, awp_try. unfold commitToolHistoryAndState, serializedState.
  destruct (projected_fields s d now') as (_ & _ & _ & Eid). fold st in Eid. apply awp_bind.
  destruct (MAX_EXECUTION_STATE_BYTES <? byteLength (stringify (JObj st)))%Z eqn:Eb; cbn [awp].
  { rewrite bool_decide_eq_true_2 by done. apply awp_bind, awp_cleanup; [done|]. by intros tr' H'. }
  apply Z.ltb_ge in Eb. rewrite Eid. apply awp_await; cbn [awp].
  - intros []. split; [done|]. by exists raw, now, now', d.
  - rewrite bool_decide_eq_false_2 by done. cbn [awp]. apply Forall_app_2; [done|]. apply Forall_singleton. by left.
Qed.
End replay.

(** ** After the cleanup *)

Section torn_down.
Context (id : jstr).

Definition tornDown (ks : keyspace) : Prop := ks !! execStateKey id = None /\ ks !! blockingResultKey id = None.

(** The scripts that may still come for an execution, and those that do not write its keys. *)
Inductive lateScript : forall R, prog R -> Prop :=
| late_result j stateJson resultJson : lateScript Z (setExecutionResultScript j stateJson resultJson)
| late_error j stateJson : lateScript Z (setExecutionErrorScript j stateJson)
| late_refresh j ttl : lateScript unit (rd (PEXPIREAT (execStateKey j) ttl))
| late_cleanup keys : lateScript Z (rd (DEL keys))
| late_other R (p : prog R) : avoids (execStateKey id) p -> avoids (blockingResultKey id) p -> lateScript R p.

Lemma tornDown_frame {A} (p : prog A) now ks : avoids (execStateKey id) p -> avoids (blockingResultKey id) p -> tornDown ks -> wp p now ks (fun _ ks' => tornDown ks').
Proof.
  intros H1 H2 [E1 E2]. apply wp_and; [eapply wp_mono; [by apply (wp_avoids (execStateKey id))|]|eapply wp_mono; [by apply (wp_avoids (blockingResultKey id))|]]; intros r ks' ->; done.
Qed.

Lemma tornDown_dead now ks : tornDown ks -> find now ks (execStateKey id) = None.
Proof. intros [E _]. unfold find. by rewrite E. Qed.

Ltac late_avoids := unfold setExecutionResultScript, setExecutionErrorScript; repeat first
  [ apply commands_ret
  | solve [apply commands_rd; cbn [writes]; rewrite ?not_elem_of_cons; repeat split; first [apply not_elem_of_nil | assumption | discriminate]]
  | apply commands_bind; [|intros ?] | case_match ].

(** What a late script replies, and that it leaves the execution torn down. *)
Lemma late_step R (p : prog R) now ks : lateScript R p -> tornDown ks -> wp p now ks (fun _ ks' => tornDown ks').
Proof.
  intros Hp Ht. assert (forall j, j <> id -> execStateKey id <> execStateKey j /\ blockingResultKey id <> blockingResultKey j) as Hne
    by (intros j Hj; split; intros E; apply Hj; by apply app_inv_head in E).
  destruct Hp as [j a b|j a|j ttl|keys|R p H1 H2]; try (destruct (decide (j = id)) as [->|Hj]; [|destruct (Hne j Hj); apply tornDown_frame; [late_avoids|late_avoids|done]]).
  - unfold setExecutionResultScript. apply wp_bind. eapply wp_known; [cbn [exec]; rewrite tornDown_dead by done; reflexivity|]. by apply wp_ret.
  - unfold setExecutionErrorScript. apply wp_bind. eapply wp_known; [cbn [exec]; rewrite tornDown_dead by done; reflexivity|]. by apply wp_ret.
  - eapply wp_known; [cbn [exec]; rewrite tornDown_dead by done; reflexivity|]. done.
  - eapply wp_known; [reflexivity|]. destruct Ht as [E1 E2]. split; (induction keys as [|k keys IH]; cbn [foldr]; [done|]; rewrite lookup_delete_None; by right).
  - by apply tornDown_frame.
Qed.

Inductive lateStep {db} `{RedisServer db} (s s' : db) : Prop :=
| late_run R (p : prog R) now r : lateScript R p -> run p now s = (s', r) -> lateStep s s'.

(** Between the two deletions of a cleanup. *)
Lemma stateless_step R (p : prog R) now ks : lateScript R p -> ks !! execStateKey id = None -> wp p now ks (fun _ ks' => ks' !! execStateKey id = None).
Proof.
  intros Hp Hk. assert (find now ks (execStateKey id) = None) as Hf by (unfold find; by rewrite Hk).
  assert (forall j, j <> id -> execStateKey id <> execStateKey j) as Hne by (intros j Hj E; apply Hj; by apply app_inv_head in E).
  assert (forall A (q : prog A), avoids (execStateKey id) q -> wp q now ks (fun _ ks' => ks' !! execStateKey id = None)) as Hav
    by (intros A q Hq; eapply wp_mono; [by apply (wp_avoids (execStateKey id))|]; by intros r ks' ->).
  destruct Hp as [j a b|j a|j ttl|keys|R p H1 H2]; try (destruct (decide (j = id)) as [->|Hj]; [|pose proof (Hne j Hj); apply Hav; late_avoids]); [..|by apply Hav].
  - apply wp_bind. eapply wp_known; [cbn [exec]; rewrite Hf; reflexivity|]. by apply wp_ret.
  - apply wp_bind. eapply wp_known; [cbn [exec]; rewrite Hf; reflexivity|]. by apply wp_ret.
  - eapply wp_known; [cbn [exec]; rewrite Hf; reflexivity|]. done.
  - eapply wp_known; [reflexivity|]. induction keys as [|k keys IH]; cbn [foldr]; [done|]. rewrite lookup_delete_None. by right.
Qed.

Lemma lateSteps_keep {db} `{RedisServer db} (I : keyspace -> Prop) (s s' : db) :
  (forall R (p : prog R), lateScript R p -> forall now ks, I ks -> wp p now ks (fun _ ks' => I ks')) -> rtc lateStep s s' -> I (content s) -> I (content s').
Proof.
  intros HI. induction 1 as [s|s s1 s2 [R p now r Hp E] _ IH]; [done|]. intros Hs. apply IH. exact (run_wp _ _ _ _ _ _ E (HI R p Hp now _ Hs)).
Qed.

(** (C28) A cleaned-up execution is not resurrected. Once a cleanup has deleted the state
    of an execution and then its result, with any late results, errors, refreshes and
    cleanups of any executions by any replicas before, between and after, neither
    exists again, and each late result or error is answered as ignored. *)
Theorem result_not_resurrected {db} `{RedisServer db} (s0 s1 s2 s3 s4 : db) t0 t1 now r r' :
  run (rd (DEL [execStateKey id])) t0 s0 = (s1, r) -> rtc lateStep s1 s2 -> run (rd (DEL [blockingResultKey id])) t1 s2 = (s3, r') -> rtc lateStep s3 s4 ->
  find now (content s4) (execStateKey id) = None /\ find now (content s4) (blockingResultKey id) = None
  /\ (forall a b, snd (run (setExecutionResultScript id a b) now s4) = Some 0%Z) /\ (forall a, snd (run (setExecutionErrorScript id a) now s4) = Some 0%Z).
Proof.
  intros E1 Hr1 E2 Hr2. assert (tornDown (content s4)) as Ht.
  { apply (lateSteps_keep tornDown s3 s4); [intros; by apply late_step|done|].
    assert (content s2 !! execStateKey id = None) as Hs.
    { apply (lateSteps_keep (fun ks => ks !! execStateKey id = None) s1 s2); [intros; by apply stateless_step|done|].
      refine (run_wp _ _ _ _ _ (fun _ ks => ks !! _ = None) E1 _). eapply wp_known; [reflexivity|]. apply lookup_delete_eq. }
    refine (run_wp _ _ _ _ _ (fun _ ks => tornDown ks) E2 _). eapply wp_known; [reflexivity|]. split; cbn [foldr]; [rewrite lookup_delete_None; by right|apply lookup_delete_eq]. }
  split_and!; [by apply tornDown_dead|by destruct Ht as [_ E3]; unfold find; rewrite E3|..]; intros;
    match goal with |- snd (run ?p now s4) = _ => destruct (run p now s4) as [s5 r3] eqn:E3; refine (run_wp _ _ _ _ _ (fun r _ => r = _) E3 _) end;
    unfold setExecutionResultScript, setExecutionErrorScript; apply wp_bind; (eapply wp_known; [cbn [exec]; rewrite tornDown_dead by done; reflexivity|]); by apply wp_ret.
Qed.
End torn_down.

(** ** Witnesses: the first result of an execution *)

Definition env0 : replayEnv := ReplayEnv 300000 5000000 40000000.
Definition state0 : record :=
  [(js "execution_id", JStr (js "e")); (js "mode", JStr (js "replay")); (js "userId", JStr (js "u")); (js "emittedCallIds", JArr [JStr (js "call_001")])].
Definition result0 : toolResult := ToolResult (js "call_001") (JInt 7) None None None None None.
Definition who0 : continuationIdentity := Identity (js "u") None None None.
Definition delta0 : ToolHistoryDelta := Delta [entryOf 1000 result0] [js "call_001"] (byteLength (stringify (historyEntry result0 1000))).

Lemma history_accounted_witness : exists s2 h',
  run (commitScript (js "e") (serializedByCallId delta0) (js "{}")) 1000 (∅ : keyspace) = (s2, Some tt)
  /\ as_hash (find 1000 (content s2) (historyKey (js "e"))) = Some h' /\ as_str (find 1000 (content s2) (execStateKey (js "e"))) = Some (Some (js "{}"))
  /\ (forall i x, (∅ : gmap jstr jstr) !! i = Some x -> h' !! i = Some x \/ parse x = None /\ i ∈ map call_id [result0])
  /\ Forall (recorded h') [result0] /\ covered (projectedState state0 delta0 1000) h'
  /\ (Z.of_nat (size h') <= MAX_REPLAY_CALLS)%Z /\ (histBytes h' <= PTC_MAX_TOOL_HISTORY_TOTAL_BYTES env0)%Z
  /\ (allReadable ∅ -> exactly state0 ∅ -> allReadable h' /\ exactly (projectedState state0 delta0 1000) h').
Proof.
  refine (history_accounted env0 (∅ : keyspace) (∅ : keyspace) 1000 1000 state0 [result0] who0 [None] delta0 1000 1000 ∅ (js "{}") _ _ _ _ _ _ _ _).
  - split_and!; [vm_compute; discriminate|vm_compute; discriminate|intros i [text E]; by rewrite lookup_empty in E].
  - apply Forall_singleton. intros now. vm_compute. reflexivity.
  - apply NoDup_singleton.
  - reflexivity.
  - reflexivity.
  - vm_compute. reflexivity.
  - vm_compute. reflexivity.
  - vm_compute. reflexivity.
Defined.

(** The stored result, sent again. *)
Definition history0 : gmap jstr jstr := {[ js "call_001" := stringify (historyEntry result0 1000) ]}.

Lemma history_immutable_witness :
  deltaLoop env0 (storedEntries [js "call_001"] [history0 !! js "call_001"]) 9000 [result0] (Delta [] [] 0) = Ok (Delta [] [] 0).
Proof.
  refine (proj1 (history_immutable env0 history0 [result0] 9000 _) _ _).
  - apply NoDup_singleton.
  - apply Forall_singleton. exists (stringify (historyEntry result0 1000)), (historyEntry result0 1000). split_and!; [apply lookup_singleton_eq|by apply parse_stringify|discriminate|apply storedBody_entry].
  - apply Forall_singleton. vm_compute. discriminate.
Defined.

Definition continued0 : act continuation := continueLoaded env0 state0 [result0] who0 false.

Lemma continuation_commits_witness : exists st, committed env0 state0 [result0] who0 (playedTrace (play 100 continued0 (World 1000 None 0) ∅)) st.
Proof.
  eexists. refine (proj2 (continuation_commits env0 (fun _ _ => False) (∅ : keyspace) _ state0 [result0] who0 false _ (inr (Proceeds _))
    (play_performs (fun _ _ => False) 100 continued0 (World 1000 None 0) ∅ _ _))). vm_compute. reflexivity.
Defined.

Lemma result_not_resurrected_witness :
  let s1 := fst (run (rd (DEL [execStateKey (js "e")])) 1000 (∅ : keyspace)) in let s3 := fst (run (rd (DEL [blockingResultKey (js "e")])) 1001 s1) in
  snd (run (setExecutionResultScript (js "e") (js "{}") (js "{}")) 2000 s3) = Some 0%Z.
Proof.
  refine (proj1 (proj2 (proj2 (result_not_resurrected (js "e") (∅ : keyspace) _ _ _ _ 1000 1001 2000 (Some 0%Z) (Some 0%Z) _ (rtc_refl _ _) _ (rtc_refl _ _)))) (js "{}") (js "{}"));
    apply run_result; vm_compute; reflexivity.
Defined.
