(* ===== verification/Effects.v ===== *)
(** * Programs over a signature of calls

    [tree] is a program that calls services: replies, exceptions and unbounded loops
    over any signature [E] of calls. A service is a relation [step] between a world, a
    call, its reply and the next world. [visits] are the worlds a run passes through,
    also when it is cut short by a crash; [runs] are the runs that end. [ensures] is
    the program logic for both. No definition of this file is mapped to a source line. *)

From stdpp Require Import base list numbers option.
From S2P Require Import Prelude.

Inductive tree (E : Type -> Type) (X : Type) : Type -> Type :=
| Pure {A} (a : A) : tree E X A
| Raise {A} (e : X) : tree E X A
| Call {A R} (c : E R) (k : R -> tree E X A) : tree E X A
| Repeat {A V B} (v : V) (body : V -> tree E X (V + B)) (k : B -> tree E X A) : tree E X A.
Arguments Pure {E X A} a.
Arguments Raise {E X A} e.
Arguments Call {E X A R} c k.
Arguments Repeat {E X A V B} v body k.

Fixpoint tbind {E X A B} (m : tree E X A) : (A -> tree E X B) -> tree E X B :=
  match m in tree _ _ A return (A -> tree E X B) -> tree E X B with
  | Pure a => fun f => f a
  | Raise e => fun _ => Raise e
  | Call c k => fun f => Call c (fun r => tbind (k r) f)
  | Repeat v body k => fun f => Repeat v body (fun b => tbind (k b) f)
  end.

#[global] Instance tree_ret E X : MRet (tree E X) := fun _ a => Pure a.
#[global] Instance tree_bind E X : MBind (tree E X) := fun _ _ f m => tbind m f.

(** The outcome of [m] as a value. *)
Fixpoint outcome {E X A} (m : tree E X A) : tree E X (X + A) :=
  match m with
  | Pure a => Pure (inr a)
  | Raise e => Pure (inl e)
  | Call c k => Call c (fun r => outcome (k r))
  | Repeat v body k =>
      Repeat v
        (fun v => tbind (outcome (body v)) (fun r =>
           Pure (match r with
                 | inl e => inr (inl e)
                 | inr (inl v') => inl v'
                 | inr (inr b) => inr (inr b)
                 end)))
        (fun x => match x with inl e => Pure (inl e) | inr b => outcome (k b) end)
  end.

(** [try { m } catch (e) { h e }]. *)
Definition recover {E X A} (m : tree E X A) (h : X -> tree E X A) : tree E X A :=
  r ← outcome m; match r with inl e => h e | inr a => Pure a end.

(** [try { m } finally { f }]. *)
Definition finally {E X A} (m : tree E X A) (f : tree E X unit) : tree E X A :=
  r ← outcome m; f;; match r with inl e => Raise e | inr a => Pure a end.

Definition call {E X R} (c : E R) : tree E X R := Call c Pure.

(** A call whose promise may reject. *)
Definition awaited {E X R} (c : E (X + R)%type) : tree E X R :=
  r ← call c; match r with inl e => Raise e | inr a => Pure a end.

Definition raiseIf {E X} (bad : bool) (e : X) : tree E X unit := if bad then Raise e else Pure tt.

Section runs.
Context {E : Type -> Type} {X W : Type} (step : forall R, W -> E R -> R -> W -> Prop).

Inductive runs : forall {A}, W -> tree E X A -> W -> X + A -> Prop :=
| r_pure A w (a : A) : runs w (Pure a) w (inr a)
| r_raise A w e : runs w (@Raise _ _ A e) w (inl e)
| r_call A R w w1 w' (c : E R) r (k : R -> tree E X A) o :
    step R w c r w1 -> runs w1 (k r) w' o -> runs w (Call c k) w' o
| r_raised A V B w w' (v : V) (body : V -> tree E X (V + B)) (k : B -> tree E X A) e :
    runs w (body v) w' (inl e) -> runs w (Repeat v body k) w' (inl e)
| r_again A V B w w1 w' (v v' : V) (body : V -> tree E X (V + B)) (k : B -> tree E X A) o :
    runs w (body v) w1 (inr (inl v')) -> runs w1 (Repeat v' body k) w' o -> runs w (Repeat v body k) w' o
| r_exit A V B w w1 w' (v : V) b (body : V -> tree E X (V + B)) (k : B -> tree E X A) o :
    runs w (body v) w1 (inr (inr b)) -> runs w1 (k b) w' o -> runs w (Repeat v body k) w' o.

Inductive visits : forall {A}, W -> tree E X A -> W -> Prop :=
| v_here A w (m : tree E X A) : visits w m w
| v_call A R w w1 w' (c : E R) r (k : R -> tree E X A) :
    step R w c r w1 -> visits w1 (k r) w' -> visits w (Call c k) w'
| v_body A V B w w' (v : V) (body : V -> tree E X (V + B)) (k : B -> tree E X A) :
    visits w (body v) w' -> visits w (Repeat v body k) w'
| v_again A V B w w1 w' (v v' : V) (body : V -> tree E X (V + B)) (k : B -> tree E X A) :
    runs w (body v) w1 (inr (inl v')) -> visits w1 (Repeat v' body k) w' -> visits w (Repeat v body k) w'
| v_exit A V B w w1 w' (v : V) b (body : V -> tree E X (V + B)) (k : B -> tree E X A) :
    runs w (body v) w1 (inr (inr b)) -> visits w1 (k b) w' -> visits w (Repeat v body k) w'.

Lemma runs_visits {A} (m : tree E X A) w w' o : runs w m w' o -> visits w m w'.
Proof.
  induction 1; [constructor..| | | |].
  - by econstructor.
  - by apply v_body.
  - by eapply v_again.
  - by eapply v_exit.
Qed.

(** [ensures Inv m w Q]: every world that [m] passes through after [w] satisfies [Inv],
    and every outcome satisfies [Q]. A loop has an invariant. *)
Fixpoint ensures (Inv : W -> Prop) {A} (m : tree E X A) (w : W) : (W -> X + A -> Prop) -> Prop :=
  match m in tree _ _ A return (W -> X + A -> Prop) -> Prop with
  | Pure a => fun Q => Q w (inr a)
  | Raise e => fun Q => Q w (inl e)
  | Call c k => fun Q => forall r w', step _ w c r w' -> Inv w' /\ ensures Inv (k r) w' Q
  | Repeat v body k => fun Q =>
      exists J : _ -> W -> Prop, J v w /\ forall v' w', J v' w' ->
        ensures Inv (body v') w' (fun w'' o =>
          match o with
          | inl e => Q w'' (inl e)
          | inr (inl v'') => J v'' w''
          | inr (inr b) => ensures Inv (k b) w'' Q
          end)
  end.

Context (Inv : W -> Prop).

Lemma ensures_mono {A} (m : tree E X A) w (Q Q' : W -> X + A -> Prop) :
  ensures Inv m w Q -> (forall w' o, Q w' o -> Q' w' o) -> ensures Inv m w Q'.
Proof.
  revert w Q Q'. induction m as [A a|A e|A R c k IH|A V B v body IHb k IHk]; intros w Q Q' HW HQ; cbn [ensures] in *; [auto..| |].
  - intros r w' Hs. destruct (HW r w' Hs) as [Hi Hk]. split; [done|]. eapply IH; eauto.
  - destruct HW as (J & Hv & Hb). exists J. split; [done|]. intros v' w' Hj.
    eapply IHb; [by apply Hb|]. intros w'' [e|[v''|b]] Ho; [auto|done|]. eapply IHk; eauto.
Qed.

Lemma ensures_bind {A B} (m : tree E X A) (f : A -> tree E X B) w (Q : W -> X + B -> Prop) :
  ensures Inv m w (fun w' o => match o with inl e => Q w' (inl e) | inr a => ensures Inv (f a) w' Q end) ->
  ensures Inv (m ≫= f) w Q.
Proof.
  unfold mbind, tree_bind. revert w Q.
  induction m as [A a|A e|A R c k IH|A V B' v body IHb k IHk]; intros w Q HW; cbn [ensures tbind] in *; try done.
  - intros r w' Hs. destruct (HW r w' Hs) as [Hi Hk]. split; [done|by apply IH].
  - destruct HW as (J & Hv & Hb). exists J. split; [done|]. intros v' w' Hj.
    eapply ensures_mono; [by apply Hb|]. intros w'' [e|[v''|b]] Ho; [done..|]. by apply IHk.
Qed.

Lemma ensures_outcome {A} (m : tree E X A) w (Q : W -> X + (X + A) -> Prop) :
  ensures Inv m w (fun w' o => Q w' (inr o)) -> ensures Inv (outcome m) w Q.
Proof.
  revert w Q. induction m as [A a|A e|A R c k IH|A V B v body IHb k IHk]; intros w Q HW; cbn [ensures outcome] in *; try done.
  - intros r w' Hs. destruct (HW r w' Hs) as [Hi Hk]. split; [done|by apply IH].
  - destruct HW as (J & Hv & Hb). exists J. split; [done|]. intros v' w' Hj.
    apply (ensures_bind (outcome (body v'))), IHb. cbn [ensures]. eapply ensures_mono; [by apply Hb|].
    intros w'' [e|[v''|b]] Ho; cbn [ensures]; [done..|]. by apply IHk.
Qed.

Lemma ensures_recover {A} (m : tree E X A) h w (Q : W -> X + A -> Prop) :
  ensures Inv m w (fun w' o => match o with inl e => ensures Inv (h e) w' Q | inr a => Q w' (inr a) end) ->
  ensures Inv (recover m h) w Q.
Proof. intros HW. unfold recover. apply ensures_bind, ensures_outcome. eapply ensures_mono; [exact HW|]. by intros w' [e|a] Ho. Qed.

Lemma ensures_call {R} (c : E R) w (Q : W -> X + R -> Prop) :
  (forall r w', step R w c r w' -> Inv w' /\ Q w' (inr r)) -> ensures Inv (call c) w Q.
Proof. intros HW. cbn [ensures call]. apply HW. Qed.

Lemma ensures_awaited {R} (c : E (X + R)%type) w (Q : W -> X + R -> Prop) :
  (forall r w', step _ w c r w' -> Inv w' /\ Q w' r) -> ensures Inv (awaited c) w Q.
Proof.
  intros HW. unfold awaited. apply ensures_bind, ensures_call. intros r w' Hs. destruct (HW r w' Hs) as [Hi Hq].
  split; [done|]. by destruct r.
Qed.

(** The logic is sound for the runs that end and for the worlds of those that do not. *)
Lemma ensures_runs {A} (m : tree E X A) w w' o :
  runs w m w' o -> forall Q : W -> X + A -> Prop, Inv w -> ensures Inv m w Q -> Inv w' /\ Q w' o.
Proof.
  induction 1; intros Q Hi HW; cbn [ensures] in HW.
  - done.
  - done.
  - destruct (HW r w1) as [Hi1 Hk]; [done|]. by apply IHruns.
  - destruct HW as (J & Hv & Hb). by apply (IHruns _ Hi (Hb _ _ Hv)).
  - destruct HW as (J & Hv & Hb). destruct (IHruns1 _ Hi (Hb _ _ Hv)) as [Hi1 Hj]. apply IHruns2; [done|]. cbn [ensures]. by exists J.
  - destruct HW as (J & Hv & Hb). destruct (IHruns1 _ Hi (Hb _ _ Hv)) as [Hi1 Hj]. by apply IHruns2.
Qed.

Lemma ensures_visits {A} (m : tree E X A) w w' :
  visits w m w' -> forall Q : W -> X + A -> Prop, Inv w -> ensures Inv m w Q -> Inv w'.
Proof.
  induction 1; intros Q Hi HW; cbn [ensures] in HW.
  - done.
  - destruct (HW r w1) as [Hi1 Hk]; [done|]. by eapply IHvisits.
  - destruct HW as (J & Hv & Hb). by apply (IHvisits _ Hi (Hb _ _ Hv)).
  - destruct HW as (J & Hv & Hb). destruct (ensures_runs _ _ _ _ H _ Hi (Hb _ _ Hv)) as [Hi1 Hj].
    apply (IHvisits Q Hi1). cbn [ensures]. by exists J.
  - destruct HW as (J & Hv & Hb). destruct (ensures_runs _ _ _ _ H _ Hi (Hb _ _ Hv)) as [Hi1 Hj]. by apply (IHvisits Q).
Qed.
End runs.
