(* ===== verification/Sealing.v ===== *)
(** * Sealed credentials

    Models service/src/hosted-app/credential.ts: the token with which the preview of an
    application authenticates to its MicroVM is stored encrypted, bound to the
    application. AES-256-GCM is the parameter [Aead] and the decoding of UTF-8 the
    parameter [Utf8]; [plain_aead] and [ascii_utf8] are instances. *)

From stdpp Require Import base list numbers option strings countable.
From Stdlib Require Import ZArith Lia.
From S2P Require Import Prelude JsString Json Protocol Redis JsonText EnrollmentProtocol EnrollmentProtocolProofs ProtocolPaths.



(** [createCipheriv('aes-256-gcm', key, iv)] with its associated data: the ciphertext
    and the tag; [None] where [final] throws. *)
Class Aead := {
  gcmEncrypt : list Z -> list Z -> list Z -> list Z -> list Z * list Z;            (* key, iv, data, text *)
  gcmDecrypt : list Z -> list Z -> list Z -> list Z -> list Z -> option (list Z);  (* key, iv, data, ciphertext, tag *)
  gcm_decrypt key iv aad text : let '(ciphertext, tag) := gcmEncrypt key iv aad text in gcmDecrypt key iv aad ciphertext tag = Some text;
  gcm_sizes key iv aad text : let '(ciphertext, tag) := gcmEncrypt key iv aad text in length ciphertext = length text /\ length tag = 16%nat;
  gcm_bytes key iv aad text : Forall isByte text -> let '(ciphertext, tag) := gcmEncrypt key iv aad text in Forall isByte ciphertext /\ Forall isByte tag;
}.

(** [Buffer.toString('utf8')]: it reads back the text that [JSON.stringify] wrote,
    which has no lone surrogate and is not empty. *)
Class Utf8 `{Runtime} := {
  fromUtf8 : list Z -> jstr;
  fromUtf8_json v : fromUtf8 (utf8 (stringify v)) = stringify v;
  json_bytes v : Forall isByte (utf8 (stringify v));
  json_nonempty v : utf8 (stringify v) <> [];
}.

(** ** Tokens *)

Definition DOT : Z := 46.
Definition isBase64urlText (s : jstr) : bool := negb (isEmpty s) && forallb isBase64urlChar s.

Record MicrovmAuthToken := AuthToken { headerName : jstr; token : jstr; expiresAtMs : Z }.

Definition TOKEN_FORMAT : jstr := js "v1".
Definition IV_BYTES : nat := 12.
Definition TAG_BYTES : nat := 16.

Inductive HostedAppCredentialError := CredentialKeySize | CredentialMalformed | CredentialNotAuthenticated.

Section credentials.
Context `{Runtime} `{!Utf8} `{Aead}.

Definition authTokenJson (c : MicrovmAuthToken) : json :=
  JObj [(js "headerName", JStr (headerName c)); (js "token", JStr (token c)); (js "expiresAtMs", JInt (expiresAtMs c))].

Definition sealHostedAppCredential (hostedAppRuntimeId : jstr) (credential : MicrovmAuthToken) (key iv : list Z) : res HostedAppCredentialError jstr :=
  if negb (length key =? 32)%nat then Err CredentialKeySize else
  let '(ciphertext, tag) := gcmEncrypt key iv (utf8 hostedAppRuntimeId) (utf8 (stringify (authTokenJson credential))) in
  Ok (joinWith DOT [TOKEN_FORMAT; toBase64url iv; toBase64url tag; toBase64url ciphertext]).

(** The inner [decode]: only the canonical encoding, of the expected size. *)
Definition decodePart (raw : jstr) (expectedBytes : option nat) : option (list Z) :=
  if negb (isBase64urlText raw) then None else
  let decoded := fromBase64url raw in
  if negb (bool_decide (toBase64url decoded = raw))
     || match expectedBytes with Some n => negb (length decoded =? n)%nat | None => false end
  then None else Some decoded.

Definition credentialOf (v : json) : option MicrovmAuthToken :=
  match v with
  | JObj fields =>
      match field fields (js "headerName"), field fields (js "token"), field fields (js "expiresAtMs") with
      | Some (JStr ((_ :: _) as name)), Some (JStr ((_ :: _) as text)), Some (JInt t) =>
          if ((Z.abs t <=? MAX_SAFE_INTEGER) && (0 <? t))%Z then Some (AuthToken name text t) else None
      | _, _, _ => None
      end
  | _ => None
  end.

Definition openHostedAppCredential (hostedAppRuntimeId sealed : jstr) (key : list Z) : res HostedAppCredentialError MicrovmAuthToken :=
  if negb (length key =? 32)%nat then Err CredentialKeySize else
  match splitOn DOT sealed with
  | [version; ivRaw; tagRaw; ciphertextRaw] =>
      if negb (bool_decide (version = TOKEN_FORMAT)) || isEmpty ivRaw || isEmpty tagRaw || isEmpty ciphertextRaw
      then Err CredentialMalformed else
      match decodePart ivRaw (Some IV_BYTES), decodePart tagRaw (Some TAG_BYTES), decodePart ciphertextRaw None with
      | Some iv, Some tag, Some ciphertext =>
          match gcmDecrypt key iv (utf8 hostedAppRuntimeId) ciphertext tag with
          | Some plaintext =>
              match parse (fromUtf8 plaintext) ≫= credentialOf with
              | Some c => Ok c
              | None => Err CredentialNotAuthenticated
              end
          | None => Err CredentialNotAuthenticated
          end
      | _, _, _ => Err CredentialNotAuthenticated
      end
  | _ => Err CredentialMalformed
  end.
End credentials.

(** ** Round trip *)

Lemma base64url_text l : Forall isByte l -> l <> [] -> isBase64urlText (toBase64url l) = true.
Proof.
  intros Hb Hl. unfold isBase64urlText. rewrite base64url_chars, andb_true_r by done. apply negb_true_iff.
  unfold isEmpty. apply bool_decide_eq_false_2. intros E. apply Hl. rewrite <- (base64url_decodes l), E by done. done.
Qed.

Lemma decodePart_encoded l n : Forall isByte l -> l <> [] -> match n with Some k => length l = k | None => True end ->
  decodePart (toBase64url l) n = Some l.
Proof.
  intros Hb Hl Hn. unfold decodePart. rewrite base64url_text, base64url_decodes by done. cbn [negb].
  rewrite bool_decide_eq_true_2 by done. destruct n as [k|]; [rewrite Hn, Nat.eqb_refl|]; done.
Qed.

Lemma base64url_no_dot l : Forall isByte l -> DOT ∉ toBase64url l.
Proof.
  intros Hb Hin. pose proof (base64url_chars l Hb) as Hc. rewrite forallb_forall in Hc.
  apply list_elem_of_In, Hc in Hin. by vm_compute in Hin.
Qed.

Section roundtrip.
Context `{Runtime} `{!Utf8} `{Aead}.

(** The tokens that the provider's client hands out. *)
Definition usableToken (c : MicrovmAuthToken) : Prop :=
  headerName c <> [] /\ token c <> [] /\ (0 < expiresAtMs c <= MAX_SAFE_INTEGER)%Z.

Lemma credentialOf_json c : usableToken c -> credentialOf (authTokenJson c) = Some c.
Proof.
  destruct c as [[|h hs] [|t ts] e]; intros (Hh & Ht & He); cbn [headerName token expiresAtMs] in *; try done.
  unfold authTokenJson, credentialOf. cbn [headerName token expiresAtMs].
  set (o := [(js "headerName", JStr (h :: hs)); (js "token", JStr (t :: ts)); (js "expiresAtMs", JInt e)]).
  assert (field o (js "headerName") = Some (JStr (h :: hs)) /\ field o (js "token") = Some (JStr (t :: ts))
    /\ field o (js "expiresAtMs") = Some (JInt e)) as (-> & -> & ->) by by vm_compute.
  replace (Z.abs e <=? MAX_SAFE_INTEGER)%Z with true by (symmetry; apply Z.leb_le; lia).
  replace (0 <? e)%Z with true by (symmetry; apply Z.ltb_lt; lia). done.
Qed.

Lemma authToken_plain c : plainJson (authTokenJson c) = true.
Proof. reflexivity. Qed.

Lemma credential_read_back id c key iv :
  length key = 32%nat -> length iv = 12%nat -> Forall isByte iv -> usableToken c ->
  exists sealed, sealHostedAppCredential id c key iv = Ok sealed /\ openHostedAppCredential id sealed key = Ok c.
Proof.
  intros Hk Hi Hb Hc. unfold sealHostedAppCredential, openHostedAppCredential. rewrite Hk. cbn [Nat.eqb negb].
  set (text := utf8 (stringify (authTokenJson c))).
  pose proof (gcm_decrypt key iv (utf8 id) text) as Hd. pose proof (gcm_sizes key iv (utf8 id) text) as Hs.
  pose proof (gcm_bytes key iv (utf8 id) text (json_bytes _)) as Hy.
  destruct (gcmEncrypt key iv (utf8 id) text) as [ct tag]. destruct Hs as [Hl Ht]. destruct Hy as [Hct Htag].
  assert (ct <> [] /\ tag <> [] /\ iv <> []) as (Nc & Nt & Ni).
  { repeat split; intros ->; try done. apply (json_nonempty (authTokenJson c)). fold text. by apply nil_length_inv. }
  eexists. split; [reflexivity|]. rewrite splitOn_joinWith; [|done|].
  2: { repeat constructor; try (by apply base64url_no_dot). by apply (bool_decide_unpack _). }
  rewrite bool_decide_eq_true_2 by done. cbn [negb orb].
  assert (forall l, Forall isByte l -> l <> [] -> isEmpty (toBase64url l) = false) as Hne.
  { intros l Hf Hn. pose proof (base64url_text l Hf Hn) as Hx. unfold isBase64urlText in Hx. bools. done. }
  rewrite !Hne by done. cbn [orb]. rewrite !decodePart_encoded by done. rewrite Hd. unfold text.
  rewrite fromUtf8_json, parse_stringify by apply authToken_plain. cbn [mbind option_bind]. by rewrite credentialOf_json.
Qed.
End roundtrip.

(** ** Instances *)

#[global, refine] Instance plain_aead : Aead := {|
  gcmEncrypt key iv aad text := (text, repeat 0%Z 16);
  gcmDecrypt key iv aad ciphertext tag := if bool_decide (tag = repeat 0%Z 16) then Some ciphertext else None;
|}.
Proof.
  - done.
  - done.
  - intros key iv aad text Ht. split; [done|]. repeat constructor; unfold isByte; lia.
Defined.

(** A runtime whose texts are decimal. *)
#[global, refine] Instance text_runtime : Runtime | 100 := {|
  stringify v := dec (Zpos (encode (json_tree v)));
  parse s := match tonumber s with Some (Zpos p) => tree_json <$> decode p | _ => None end;
  toISOString := dec;
  parseDate := tonumber;
|}.
Proof.
  - intros v _. rewrite tonumber_dec, decode_encode. cbn. by rewrite tree_json_tree.
  - intros t _. apply tonumber_dec.
Defined.
