(* ===== verification/HostedRuntime.v ===== *)
(** * Hosted applications: the services and the MicroVM runtime

    Models service/src/runtime-session/lambda-client-aws.ts (the client of the MicroVM
    provider) and service/src/hosted-app/microvm-runtime.ts (the launch of the MicroVM
    of an application, its health and the resident process). A method is a [tree] over
    the calls [svc] it awaits. [AbortSignal]s are read by the call [Signals], which
    gives the caller's signal and the deadline of the launch at one instant; a request
    that a signal cuts short is rejected. *)

From stdpp Require Import base list numbers option strings sorting.
From Stdlib Require Import ZArith.
From S2P Require Import Prelude JsString Json Protocol Redis JsonText EnrollmentProtocol Sealing Effects.

(** ** Data *)

Inductive MicrovmLifecycleState := PENDING | RUNNING | SUSPENDING | SUSPENDED | TERMINATING | TERMINATED.
#[global] Instance lifecycle_dec : EqDecision MicrovmLifecycleState.
Proof. solve_decision. Defined.

Definition stateName (s : MicrovmLifecycleState) : jstr :=
  match s with
  | PENDING => js "PENDING" | RUNNING => js "RUNNING" | SUSPENDING => js "SUSPENDING"
  | SUSPENDED => js "SUSPENDED" | TERMINATING => js "TERMINATING" | TERMINATED => js "TERMINATED"
  end.

(** [startedAtMs] is [None] when it is absent or not finite. *)
Record MicrovmDescription := Microvm {
  microvmId : jstr; vmState : MicrovmLifecycleState; vmEndpoint : option jstr;
  imageArn : option jstr; imageVersion : option jstr; startedAtMs : option Z }.

Inductive LambdaMicrovmErrorKind := Throttling | NotFound | Conflict | QuotaExceeded | Validation | OtherKind.
#[global] Instance kind_dec : EqDecision LambdaMicrovmErrorKind.
Proof. solve_decision. Defined.

(** What a method throws: the classes of errors the code tells apart. *)
Inductive failure :=
| ControlPlaneError (code : string) (message : jstr) (status : Z) (transient : bool)
| MicrovmError (code : string) (message : jstr) (transient : bool) (httpStatus : Z)
| LambdaMicrovmApiError (kind : LambdaMicrovmErrorKind) (message : jstr)
| MicrovmOpThrottledError (message : jstr)
| AbortReason
| PlainError (message : jstr).

(** [error.message]. *)
Definition messageOf (e : failure) : jstr :=
  match e with
  | ControlPlaneError _ m _ _ | MicrovmError _ m _ _ | LambdaMicrovmApiError _ m | MicrovmOpThrottledError m | PlainError m => m
  | AbortReason => js "This operation was aborted"
  end.

(** [error instanceof HostedAppMicrovmError && error.code === code]. *)
Definition hasCode (e : failure) (code : string) : bool :=
  match e with MicrovmError c _ _ _ => bool_decide (c = code) | _ => false end.
Definition hasKind (e : failure) (kind : LambdaMicrovmErrorKind) : bool :=
  match e with LambdaMicrovmApiError k _ => bool_decide (k = kind) | _ => false end.

Inductive ThrottledOp := RunOp | ResumeOp | SuspendOp | TokenOp.

Record ResidentHostedAppSpec := ResidentSpec {
  app_id : jstr; revision : jstr; language : jstr; version : jstr; entrypoint : jstr; cwd : jstr;
  args : list jstr; env : list (jstr * jstr) }.

Definition specFields (s : ResidentHostedAppSpec) (env : list (jstr * jstr)) : Json.record :=
  [(js "adapter", JStr (js "resident")); (js "app_id", JStr (app_id s)); (js "revision", JStr (revision s));
   (js "language", JStr (language s)); (js "version", JStr (version s)); (js "entrypoint", JStr (entrypoint s));
   (js "cwd", JStr (cwd s)); (js "args", JArr (map JStr (args s))); (js "env", JObj (map (fun kv => (fst kv, JStr (snd kv))) env))].

Record HostedAppMicrovmConfig := MicrovmConfig {
  c_imageArn : jstr; c_imageVersion : jstr; executionRoleArn : option jstr; logGroup : option jstr;
  ingressConnectorArns : option (list jstr); controlPort : Z; previewPort : Z; maximumDurationSeconds : Z;
  idleSeconds : Z; suspendedSeconds : Z; authTokenTtlSeconds : Z; launchTimeoutMs : Z; healthTimeoutMs : Z;
  appStartTimeoutMs : Z; launchTps : Z; tokenTps : Z }.

(** ** Durable records *)

Record HostedAppRecordDetails := Details {
  source_runtime_session_id : jstr; d_app_id : jstr; d_revision : jstr; spec_fingerprint : jstr;
  d_spec : ResidentHostedAppSpec; checkpoint_key : jstr; preview_credential : option jstr;
  preview_credential_expires_at : option Z }.

(** [RuntimeSessionRecord], without the checkpoint of a session, which an application
    has not. *)
Record RuntimeRecord := RRecord {
  runtime_session_id : jstr; tenant_id : jstr; canonical_user_id : jstr; microvm_id : option jstr;
  endpoint : option jstr; port : option Z; image_arn : option jstr; image_version : option jstr;
  launch_fingerprint : option jstr; launch_client_token : option jstr; launch_request_fingerprint : option jstr;
  state : MicrovmLifecycleState; generation : Z; launched_at : option Z; last_seen_at : Z;
  hard_deadline_at : option Z; last_error : option jstr; hosted_app : option HostedAppRecordDetails }.

Record HostedAppRevision := AppRevision {
  rv_tenantId : jstr; rv_canonicalUserId : jstr; rv_sourceRuntimeSessionId : jstr; rv_revision : jstr;
  rv_specFingerprint : jstr; rv_checkpointKey : jstr }.

Record HostedAppOwner := AppOwner { tenantId : jstr; canonicalUserId : jstr }.

Inductive RestoreOutcome := Restored | Absent | FetchFailed | PushFailed.

(** ** Calls *)

Record sdkError := SdkError { sdkName : jstr; sdkMessage : jstr }.
Record sdkResponse := SdkResponse {
  r_microvmId : option jstr; r_state : option MicrovmLifecycleState; r_endpoint : option jstr;
  r_imageArn : option jstr; r_imageVersion : option jstr; r_startedAt : option Z }.

Record request := Request { url : jstr; headers : list (jstr * jstr); postBody : option jstr; requestTimeoutMs : Z }.

(** The provider, the fleet's budgets, HTTP, timers, and the registry and stores that
    the control plane is given. *)
Inductive svc : Type -> Type :=
| Clock : svc Z
| Signals : svc (bool * bool)
| Sleep (ms : Z) : svc (failure + unit)
| SdkRun (clientToken : jstr) : svc (sdkError + sdkResponse)
| SdkGet (id : jstr) : svc (sdkError + sdkResponse)
| SdkResume (id : jstr) : svc (sdkError + unit)
| SdkTerminate (id : jstr) : svc (sdkError + unit)
| SdkToken (id : jstr) (expirationInMinutes port : Z) : svc (sdkError + option jstr)
| ReserveOp (op : ThrottledOp) (limitPerSecond deadlineAtMs : Z) : svc (failure + unit)
| PoisonOp (op : ThrottledOp) (deadlineAtMs : Z) : svc (failure + unit)
| Fetch (r : request) : svc (failure + Z)
| CancelBody : svc (failure + unit)
| BodyText : svc (failure + jstr)
| BodyJson : svc (failure + json)
| WaitForLock (id : jstr) (waitMs ttlMs : Z) : svc (failure + option jstr)
| ReleaseLock (id lockToken : jstr) : svc (failure + unit)
| ReadRecord (id : jstr) : svc (failure + option RuntimeRecord)
| WriteRecord (r : RuntimeRecord) (lockToken : jstr) : svc (failure + bool)
| AllocateGeneration (id : jstr) (seed : Z) : svc (failure + Z)
| ReadRevision (id revision : jstr) : svc (failure + option HostedAppRevision)
| RetainRevision (id : jstr) (r : HostedAppRevision) : svc (failure + HostedAppRevision)
| CaptureCheckpoint (id : jstr) (owner : HostedAppOwner) : svc (failure + jstr)
| RestoreCheckpoint (id checkpointKey : jstr) (vm : MicrovmDescription) : svc (failure + RestoreOutcome)
| RandomIv : svc (list Z).

Definition hosted := tree svc failure.

Definition nonEmpty (s : option jstr) : bool := match s with Some (_ :: _) => true | _ => false end.

(** ** The client of the provider *)

Definition classifyError (e : sdkError) : LambdaMicrovmErrorKind :=
  let named n := bool_decide (sdkName e = js n) in
  if named "ThrottlingException"%string || named "TooManyRequestsException"%string then Throttling
  else if named "ResourceNotFoundException"%string then NotFound
  else if named "ConflictException"%string || named "ResourceConflictException"%string then Conflict
  else if named "ServiceQuotaExceededException"%string then QuotaExceeded
  else if named "ValidationException"%string || named "InvalidParameterValueException"%string then Validation
  else OtherKind.

Definition toDescription (r : sdkResponse) : hosted MicrovmDescription :=
  match r_microvmId r with
  | Some ((_ :: _) as id) =>
      Pure (Microvm id (default PENDING (r_state r)) (r_endpoint r) (r_imageArn r) (r_imageVersion r) (r_startedAt r))
  | _ => Raise (PlainError (js "Lambda MicroVM response omitted microvmId"))
  end.

Definition send {R} (c : svc (sdkError + R)) : hosted R :=
  r ← call c;
  match r with
  | inl e => Raise (LambdaMicrovmApiError (classifyError e) (sdkMessage e))
  | inr a => Pure a
  end.

(** A rejection that does not tell whether the provider accepted the request. *)
Definition ambiguous (e : failure) : bool :=
  match e with LambdaMicrovmApiError k _ => bool_decide (k = OtherKind) | _ => true end.

Definition runMicrovm (clientToken : jstr) : hosted MicrovmDescription :=
  recover (send (SdkRun clientToken) ≫= toDescription) (fun firstError =>
    if isEmpty clientToken || negb (ambiguous firstError) then Raise firstError
    else recover (send (SdkRun clientToken) ≫= toDescription) (fun _ => Raise firstError)).

Definition getMicrovm (id : jstr) : hosted MicrovmDescription := send (SdkGet id) ≫= toDescription.
Definition resumeMicrovm (id : jstr) : hosted MicrovmDescription := send (SdkResume id);; getMicrovm id.
Definition terminateMicrovm (id : jstr) : hosted unit := send (SdkTerminate id).

Definition MICROVM_AUTH_HEADER : jstr := js "X-aws-proxy-auth".

(** [Math.ceil(ttlSeconds / 60)], between 1 and 60. *)
Definition expirationInMinutes (ttlSeconds : Z) : Z := Z.min (Z.max (- ((- ttlSeconds) / 60)) 1) 60.

Definition createMicrovmAuthToken (id : jstr) (port ttlSeconds : Z) : hosted MicrovmAuthToken :=
  let minutes := expirationInMinutes ttlSeconds in
  r ← send (SdkToken id minutes port);
  match r with
  | Some ((_ :: _) as text) => now ← call Clock; Pure (AuthToken MICROVM_AUTH_HEADER text (now + minutes * 60000)%Z)
  | _ => Raise (LambdaMicrovmApiError OtherKind (js "CreateMicrovmAuthToken response missing X-aws-proxy-auth entry"))
  end.

(** ** Identities of a launch *)

(** [String.prototype.localeCompare]: the collation of the runtime's locale. *)
Class Collation := { localeLe : jstr -> jstr -> bool }.

Section identities.
Context `{Platform} `{Runtime} `{Collation}.

Definition envLe (a b : jstr * jstr) : Prop := localeLe (fst a) (fst b) = true.
#[local] Instance envLe_dec : RelDecision envLe.
Proof. intros a b. unfold envLe. apply _. Defined.

Definition hostedAppSpecFingerprint (s : ResidentHostedAppSpec) : jstr :=
  sha256hex (stringify (JObj (specFields s (merge_sort envLe (env s))))).

Definition textLe (a b : jstr) : Prop := lex b a = false.
#[local] Instance textLe_dec : RelDecision textLe.
Proof. intros a b. unfold textLe. apply _. Defined.

Definition idlePolicy (c : HostedAppMicrovmConfig) : json :=
  JObj [(js "maxIdleSeconds", JInt (idleSeconds c)); (js "suspendedSeconds", JInt (suspendedSeconds c)); (js "autoResume", JBool true)].

Definition hostedAppLaunchFingerprint (c : HostedAppMicrovmConfig) : jstr :=
  stringify (JObj
    [(js "imageArn", JStr (c_imageArn c)); (js "imageVersion", JStr (c_imageVersion c));
     (js "executionRoleArn", JStr (default [] (executionRoleArn c))); (js "logGroup", JStr (default [] (logGroup c)));
     (js "ingressConnectorArns", JArr (map JStr (merge_sort textLe (default [] (ingressConnectorArns c)))));
     (js "controlPort", JInt (controlPort c)); (js "previewPort", JInt (previewPort c));
     (js "maximumDurationSeconds", JInt (maximumDurationSeconds c)); (js "idlePolicy", idlePolicy c)]).

(** [JSON.stringify] leaves out a property that is [undefined]. *)
Definition given (k : string) (v : option json) : Json.record := match v with Some x => [(js k, x)] | None => [] end.

Definition hostedAppLaunchRequestFingerprint (c : HostedAppMicrovmConfig) : jstr :=
  stringify (JObj
    [(js "launchFingerprint", JStr (hostedAppLaunchFingerprint c));
     (js "runMicrovm", JObj
       ([(js "imageIdentifier", JStr (c_imageArn c)); (js "imageVersion", JStr (c_imageVersion c))]
        ++ given "executionRoleArn" (JStr <$> executionRoleArn c) ++ given "logGroup" (JStr <$> logGroup c)
        ++ given "ingressConnectorArns" ((fun l => JArr (map JStr l)) <$> ingressConnectorArns c)
        ++ [(js "maximumDurationSeconds", JInt (maximumDurationSeconds c)); (js "idlePolicy", idlePolicy c)]))]).

(** [Number.parseInt(hex, 16)] of hexadecimal digits. *)
Definition hexDigit (c : Z) : Z := if (c <=? 57)%Z then (c - 48)%Z else (c - 87)%Z.
Definition parseHex (s : jstr) : Z := foldl (fun acc c => acc * 16 + hexDigit c)%Z 0%Z s.

Definition hostedAppLaunchGenerationSeed (c : HostedAppMicrovmConfig) : Z :=
  (1000000000000000 + parseHex (take 13 (sha256hex (hostedAppLaunchRequestFingerprint c))))%Z.
End identities.

Definition hostedAppLaunchClientToken (runtimeId : jstr) (generation : Z) : hosted jstr :=
  raiseIf (negb (Z.abs generation <=? MAX_SAFE_INTEGER)%Z || (generation <? 1)%Z)
    (PlainError (js "Hosted app generation must be a positive safe integer"));;
  let token := js "happ-" ++ runtimeId ++ js "-" ++ dec generation in
  raiseIf (125 <? length token)%nat (PlainError (js "Hosted app clientToken exceeds the AWS length limit"));;
  Pure token.

(** ** The runtime of an application's MicroVM *)

Definition BOOT_FAILED : string := "hosted_app_boot_failed".
Definition LAUNCH_TIMEOUT : string := "hosted_app_launch_timeout".
Definition LAUNCH_FAILED : string := "hosted_app_launch_failed".
Definition LAUNCH_THROTTLED : string := "hosted_app_launch_throttled".

Definition launchFailure (e : failure) : failure :=
  match e with
  | MicrovmError _ _ _ _ => e
  | LambdaMicrovmApiError k m => MicrovmError (if bool_decide (k = Throttling) then LAUNCH_THROTTLED else LAUNCH_FAILED) m true 503
  | _ => MicrovmError LAUNCH_FAILED (messageOf e) true 503
  end.

Definition normalizeHostedAppMicrovmEndpoint (e : jstr) : jstr :=
  let base := stripTrailingSlashes e in
  if startsWith e (js "http://") || startsWith e (js "https://") then base else js "https://" ++ base.

(** [String(value)]: the elements of an array are joined, [null] as nothing. *)
Fixpoint textOfJson (v : json) : jstr :=
  match v with
  | JNull => js "null"
  | JBool b => if b then js "true" else js "false"
  | JInt n => dec n
  | JNonInt _ => js "NaN"
  | JStr s => s
  | JArr l => joinWith 44 (map (fun x => match x with JNull => [] | _ => textOfJson x end) l)
  | JObj _ => js "[object Object]"
  end.

Definition DEFAULT_MICROVM_PORT : Z := 8080.
Definition microvmPortHeaders (port : Z) : list (jstr * jstr) :=
  if (port =? DEFAULT_MICROVM_PORT)%Z then [] else [(js "X-aws-proxy-port", dec port)].

(** [response.ok]. *)
Definition isOk (status : Z) : bool := ((200 <=? status) && (status <? 300))%Z.

Section runtime.
Context (cfg : HostedAppMicrovmConfig).

Definition poisonIfThrottled (op : ThrottledOp) (deadlineAtMs : Z) (e : failure) : hosted unit :=
  if hasKind e Throttling then call (PoisonOp op deadlineAtMs);; Pure tt else Pure tt.

(** One turn of the wait for [RUNNING]: a timer, then the state of the known MicroVM. *)
Definition pollMicrovm (deadlineAtMs : Z) (id : jstr) : hosted MicrovmDescription :=
  now ← call Clock;
  awaited (Sleep (Z.min 250 (Z.max 1 (deadlineAtMs - now))));;
  getMicrovm id.

Definition awaitRunning (deadlineAtMs : Z) (vm : MicrovmDescription) : hosted MicrovmDescription :=
  Repeat (vm, false) (fun '(current, resumeRequested) =>
    now ← call Clock;
    if (deadlineAtMs <=? now)%Z then Raise (MicrovmError LAUNCH_TIMEOUT (js "Hosted app MicroVM launch timed out") true 503) else
    if bool_decide (vmState current = RUNNING) && nonEmpty (vmEndpoint current) then Pure (inr current) else
    if bool_decide (vmState current = TERMINATING) || bool_decide (vmState current = TERMINATED) then
      Raise (MicrovmError BOOT_FAILED
        (js "Hosted app MicroVM entered " ++ stateName (vmState current) ++ js " before becoming ready") true 503)
    else if bool_decide (vmState current = SUSPENDED) && negb resumeRequested then
      r ← outcome (awaited (ReserveOp ResumeOp 5 deadlineAtMs);; resumeMicrovm (microvmId current));
      match r with
      | inr resumed => Pure (inl (resumed, true))
      | inl e =>
          poisonIfThrottled ResumeOp deadlineAtMs e;;
          if hasKind e NotFound then Raise (MicrovmError BOOT_FAILED (js "Recovered hosted app MicroVM no longer exists") true 503)
          else if negb (hasKind e Conflict) then Raise e
          else vm ← pollMicrovm deadlineAtMs (microvmId current); Pure (inl (vm, true))
      end
    else vm ← pollMicrovm deadlineAtMs (microvmId current); Pure (inl (vm, resumeRequested))) Pure.

Definition launchOnce (clientToken : jstr) (deadlineAtMs : Z) : hosted MicrovmDescription :=
  recover (awaited (ReserveOp RunOp (launchTps cfg) deadlineAtMs)) (fun e =>
    match e with
    | MicrovmOpThrottledError m => Raise (MicrovmError LAUNCH_THROTTLED m true 503)
    | _ => Raise e
    end);;
  vm ← recover (runMicrovm clientToken) (fun e => poisonIfThrottled RunOp deadlineAtMs e;; Raise e);
  awaitRunning deadlineAtMs vm.

Definition retryTokenOf (clientToken : jstr) : jstr := clientToken ++ js "-r1".

Definition launch (clientToken : jstr) : hosted (MicrovmDescription * jstr) :=
  now ← call Clock;
  let deadlineAtMs := (now + launchTimeoutMs cfg)%Z in
  r ← outcome (launchOnce clientToken deadlineAtMs);
  match r with
  | inr vm => Pure (vm, clientToken)
  | inl error =>
      signals ← call Signals;
      let failure :=
        if fst signals || snd signals then
          MicrovmError LAUNCH_TIMEOUT
            (js "Hosted app MicroVM did not reach RUNNING within " ++ dec (launchTimeoutMs cfg) ++ js "ms") true 503
        else launchFailure error in
      if negb (hasCode failure BOOT_FAILED) || fst signals then Raise failure else
      r ← outcome (launchOnce (retryTokenOf clientToken) deadlineAtMs);
      match r with
      | inr vm => Pure (vm, retryTokenOf clientToken)
      | inl second =>
          signals ← call Signals;
          Raise (if fst signals || snd signals
                 then MicrovmError LAUNCH_TIMEOUT (js "Hosted app launch interrupted; replay the persisted intent") true 503
                 else launchFailure second)
      end
  end.

Definition AUTH_FAILED : string := "hosted_app_auth_failed".

Definition mintToken (id : jstr) (port : Z) : hosted MicrovmAuthToken :=
  now ← call Clock;
  let deadlineAtMs := (now + launchTimeoutMs cfg)%Z in
  recover (awaited (ReserveOp TokenOp (tokenTps cfg) deadlineAtMs);; createMicrovmAuthToken id port (authTokenTtlSeconds cfg))
    (fun e => poisonIfThrottled TokenOp deadlineAtMs e;; Raise (MicrovmError AUTH_FAILED (messageOf e) true 503)).

Definition throwIfAborted : hosted unit := signals ← call Signals; raiseIf (fst signals) AbortReason.

Definition endpointOf (vm : MicrovmDescription) : jstr := normalizeHostedAppMicrovmEndpoint (default [] (vmEndpoint vm)).

Definition waitForControlReady (vm : MicrovmDescription) : hosted unit :=
  now ← call Clock;
  let deadlineAtMs := (now + launchTimeoutMs cfg)%Z in
  Repeat (@None failure, @None MicrovmAuthToken) (fun '(lastError, held) =>
    now ← call Clock;
    if negb (now <? deadlineAtMs)%Z then
      Raise (MicrovmError "hosted_app_unhealthy"
        (js "Hosted app control listener did not become ready: "
           ++ match lastError with Some e => messageOf e | None => js "unknown error" end) true 503)
    else
    throwIfAborted;;
    minted ← outcome (
      match held with
      | None => mintToken (microvmId vm) (controlPort cfg)
      | Some t =>
          now ← call Clock;
          if (expiresAtMs t <=? now + healthTimeoutMs cfg)%Z then mintToken (microvmId vm) (controlPort cfg) else Pure t
      end);
    r ← match minted with
        | inl e => Pure (inl e)
        | inr t => outcome (
            status ← awaited (Fetch (Request (endpointOf vm ++ js "/api/v2/health")
              ((headerName t, token t) :: microvmPortHeaders (controlPort cfg)) None (healthTimeoutMs cfg)));
            awaited CancelBody;;
            Pure status)
        end;
    let held := match minted with inr t => Some t | inl _ => held end in
    match r with
    | inr status =>
        if isOk status then Pure (inr tt)
        else awaited (Sleep 250);; Pure (inl (Some (PlainError (js "health returned " ++ dec status)), held))
    | inl e =>
        if hasCode e AUTH_FAILED then Raise e else awaited (Sleep 250);; Pure (inl (Some e, held))
    end) Pure.

Context `{Runtime}.

Definition startResidentApp (vm : MicrovmDescription) (runtimeSessionId : jstr) (spec : ResidentHostedAppSpec) : hosted unit :=
  t ← mintToken (microvmId vm) (controlPort cfg);
  status ← recover
    (awaited (Fetch (Request (endpointOf vm ++ js "/api/v2/hosted-app/start")
       ((headerName t, token t) :: microvmPortHeaders (controlPort cfg)
          ++ [(js "X-Runtime-Session-Id", runtimeSessionId); (js "Content-Type", js "application/json")])
       (Some (stringify (JObj (specFields spec (env spec))))) (appStartTimeoutMs cfg))))
    (fun _ =>
       throwIfAborted;;
       Raise (MicrovmError "hosted_app_start_unavailable" (js "Hosted app runner transport failed") true 503));
  if negb (isOk status) then
    body ← recover (awaited BodyText) (fun _ => Pure []);
    Raise (MicrovmError "hosted_app_start_failed"
      (js "Hosted app runner rejected start (" ++ dec status ++ js "): " ++ take 1024 body) (500 <=? status)%Z status)
  else awaited CancelBody.

Definition APP_STATES : list jstr := [js "starting"; js "running"; js "stopping"; js "stopped"; js "failed"].

Definition residentAppState (vm : MicrovmDescription) (runtimeSessionId : jstr) (spec : ResidentHostedAppSpec) : hosted json :=
  t ← mintToken (microvmId vm) (controlPort cfg);
  status ← awaited (Fetch (Request (endpointOf vm ++ js "/api/v2/hosted-app/status")
    ((headerName t, token t) :: microvmPortHeaders (controlPort cfg) ++ [(js "X-Runtime-Session-Id", runtimeSessionId)])
    None (healthTimeoutMs cfg)));
  if negb (isOk status) then
    awaited CancelBody;;
    if (status =? 404)%Z then Pure (JStr (js "failed"))
    else Raise (MicrovmError "hosted_app_status_unavailable" (js "Hosted app runner status is unavailable") true 503)
  else
  body ← awaited BodyJson;
  fields ← match body with
           | JNull => Raise (PlainError (js "Cannot read properties of null"))
           | JObj fields => Pure fields
           | _ => Pure []
           end;
  let current := default JNull (field fields (js "state")) in
  if eqStr (field fields (js "app_id")) (app_id spec)
     && eqStr (field fields (js "revision")) (revision spec)
     && bool_decide (textOfJson current ∈ APP_STATES)
  then Pure current
  else Raise (MicrovmError "hosted_app_status_invalid" (js "Hosted app runner status does not match the revision") true 503).

Definition previewToken (id : jstr) : hosted MicrovmAuthToken := mintToken id (previewPort cfg).

Definition terminate (id : jstr) : hosted bool :=
  r ← outcome (terminateMicrovm id);
  Pure (match r with inr _ => true | inl e => hasKind e NotFound end).
End runtime.
