(* ===== verification/HostedApp.v ===== *)
(** * Hosted applications: the control plane

    Models service/src/hosted-app/control-plane.ts: the status, start, stop and preview
    refresh of an application, each under the lease of the application and against the
    durable record of its MicroVM, and source-checkpoint.ts. The interfaces that the
    class is given ([HostedAppRegistry], the checkpoint store) are calls of [svc]. The
    heartbeat of the lease runs beside the operation; its fence is part of the signal
    that [Signals] reads. *)

From stdpp Require Import base list numbers option strings.
From Stdlib Require Import ZArith.
From S2P Require Import Prelude JsString Json Protocol Redis JsonText EnrollmentProtocol Sealing Effects HostedRuntime.

Definition HOSTED_APP_DEADLINE_HEADROOM_MS : Z := 60000.

Record HostedAppStartInput := StartInput {
  hostedAppRuntimeId : jstr; owner : HostedAppOwner; sourceRuntimeSessionId : jstr; spec : ResidentHostedAppSpec }.

(** The state is a JSON value since that of a running application is what its runner
    answers. *)
Record HostedAppPublicStatus := PublicStatus {
  p_app_id : jstr; p_revision : jstr; p_state : json; preview_id : jstr; p_hard_deadline_at : option Z;
  updated_at : Z; p_error : option jstr }.

Record controlPlaneConfig := ControlConfig {
  runtimeConfig : HostedAppMicrovmConfig; credentialKey : list Z; lockWaitMs : Z; lockTtlMs : Z }.

(** ** Records *)

(** [{...record, state, last_seen_at: now}]. *)
Definition transition (r : RuntimeRecord) (s : MicrovmLifecycleState) (now : Z) : RuntimeRecord :=
  RRecord (runtime_session_id r) (tenant_id r) (canonical_user_id r) (microvm_id r) (endpoint r) (port r)
    (image_arn r) (image_version r) (launch_fingerprint r) (launch_client_token r) (launch_request_fingerprint r)
    s (generation r) (launched_at r) now (hard_deadline_at r) (last_error r) (hosted_app r).

(** [{...record, microvm_id, endpoint}]. *)
Definition withVm (r : RuntimeRecord) (id ep : option jstr) : RuntimeRecord :=
  RRecord (runtime_session_id r) (tenant_id r) (canonical_user_id r) id ep (port r)
    (image_arn r) (image_version r) (launch_fingerprint r) (launch_client_token r) (launch_request_fingerprint r)
    (state r) (generation r) (launched_at r) (last_seen_at r) (hard_deadline_at r) (last_error r) (hosted_app r).

Definition withError (r : RuntimeRecord) (e : option jstr) : RuntimeRecord :=
  RRecord (runtime_session_id r) (tenant_id r) (canonical_user_id r) (microvm_id r) (endpoint r) (port r)
    (image_arn r) (image_version r) (launch_fingerprint r) (launch_client_token r) (launch_request_fingerprint r)
    (state r) (generation r) (launched_at r) (last_seen_at r) (hard_deadline_at r) e (hosted_app r).

Definition withCredential (r : RuntimeRecord) (sealed : option jstr) (expiresAt : option Z) : RuntimeRecord :=
  RRecord (runtime_session_id r) (tenant_id r) (canonical_user_id r) (microvm_id r) (endpoint r) (port r)
    (image_arn r) (image_version r) (launch_fingerprint r) (launch_client_token r) (launch_request_fingerprint r)
    (state r) (generation r) (launched_at r) (last_seen_at r) (hard_deadline_at r) (last_error r)
    ((fun d => Details (source_runtime_session_id d) (d_app_id d) (d_revision d) (spec_fingerprint d) (d_spec d)
                 (checkpoint_key d) sealed expiresAt) <$> hosted_app r).

Section control.
Context `{Platform} `{Runtime} `{!Utf8} `{Aead} `{Collation} (cfg : controlPlaneConfig).

(** The record of a launch whose MicroVM is known. *)
Definition withLaunched (r : RuntimeRecord) (vm : MicrovmDescription) (clientToken : jstr) (now : Z) : RuntimeRecord :=
  RRecord (runtime_session_id r) (tenant_id r) (canonical_user_id r) (Some (microvmId vm)) (vmEndpoint vm) (port r)
    (match imageArn vm with Some a => Some a | None => image_arn r end)
    (match imageVersion vm with Some v => Some v | None => image_version r end)
    (launch_fingerprint r) (Some clientToken) (launch_request_fingerprint r)
    (state r) (generation r) (match startedAtMs vm with Some t => Some t | None => launched_at r end) now
    (match startedAtMs vm with
     | Some t => Some (t + maximumDurationSeconds (runtimeConfig cfg) * 1000 - HOSTED_APP_DEADLINE_HEADROOM_MS)%Z
     | None => hard_deadline_at r
     end)
    (last_error r) (hosted_app r).

Definition pastDeadline (r : RuntimeRecord) (now : Z) : bool :=
  match hard_deadline_at r with Some t => (t <=? now)%Z | None => false end.

Definition publicState (r : RuntimeRecord) (now : Z) : jstr :=
  match state r with
  | RUNNING => if pastDeadline r now then js "stopped" else js "running"
  | PENDING => if pastDeadline r now then js "failed" else js "starting"
  | TERMINATED => if nonEmpty (last_error r) then js "failed" else js "stopped"
  | TERMINATING => js "stopping"
  | _ => js "starting"
  end.

Definition RECORD_INVALID : failure :=
  ControlPlaneError "hosted_app_record_invalid" (js "Hosted app registry record is missing app metadata") 503 true.
Definition NOT_FOUND : failure := ControlPlaneError "hosted_app_not_found" (js "Hosted app not found") 404 false.
Definition NOT_RUNNING : failure := ControlPlaneError "hosted_app_not_running" (js "Hosted app is not running") 409 true.
Definition REVISION_CONFLICT : failure :=
  ControlPlaneError "hosted_app_revision_conflict"
    (js "An app revision is immutable; use a new revision for changed launch settings") 409 false.

Definition hostedAppPublicStatus (r : RuntimeRecord) (now : Z) : hosted HostedAppPublicStatus :=
  match hosted_app r with
  | None => Raise RECORD_INVALID
  | Some app =>
      Pure (PublicStatus (d_app_id app) (d_revision app) (JStr (publicState r now)) (runtime_session_id r)
        (hard_deadline_at r) (last_seen_at r)
        (if nonEmpty (last_error r) then
           Some (match state r with
                 | TERMINATING => js "Hosted app cleanup is pending"
                 | RUNNING => js "Hosted app could not be stopped"
                 | _ => js "Hosted app operation failed"
                 end)
         else None))
  end.

(** The status of a record at the time it is asked for. *)
Definition publicStatusNow (r : RuntimeRecord) : hosted HostedAppPublicStatus := now ← call Clock; hostedAppPublicStatus r now.

Definition ownedBy (r : RuntimeRecord) (o : HostedAppOwner) (source : option jstr) : bool :=
  bool_decide (tenant_id r = tenantId o) && bool_decide (canonical_user_id r = canonicalUserId o)
  && match source with
     | None => true
     | Some s => bool_decide (source_runtime_session_id <$> hosted_app r = Some s)
     end.

Definition assertHostedAppOwned (r : RuntimeRecord) (o : HostedAppOwner) (source : option jstr) : hosted unit :=
  raiseIf (negb (ownedBy r o source)) NOT_FOUND.

(** A record without a MicroVM has no id: the code passes [undefined], here the empty
    text. *)
Definition recordedVm (r : RuntimeRecord) : MicrovmDescription :=
  Microvm (default [] (microvm_id r)) RUNNING (endpoint r) (image_arn r) (image_version r) None.

Definition writeOrFence (r : RuntimeRecord) (lockToken : jstr) : hosted unit :=
  written ← awaited (WriteRecord r lockToken);
  if (written : bool) then Pure tt else
  throwIfAborted;;
  Raise (ControlPlaneError "hosted_app_fenced" (js "Lost the hosted app lease while updating it") 409 true).

Definition withLease {A} (runtimeId : jstr) (operation : jstr -> hosted A) : hosted A :=
  held ← awaited (WaitForLock runtimeId (lockWaitMs cfg) (lockTtlMs cfg));
  match held with
  | Some ((_ :: _) as lockToken) =>
      finally (operation lockToken) (awaited (ReleaseLock runtimeId lockToken))
  | _ => Raise (ControlPlaneError "hosted_app_busy" (js "Another hosted app transition is in progress") 409 true)
  end.

Definition PREVIEW_UNAVAILABLE : failure :=
  ControlPlaneError "hosted_app_preview_unavailable" (js "Hosted app preview credential is unavailable") 503 true.

Definition persistPreviewCredential (r : RuntimeRecord) (vm : MicrovmDescription) (lockToken : jstr) : hosted RuntimeRecord :=
  credential ← previewToken (runtimeConfig cfg) (microvmId vm);
  now ← call Clock;
  raiseIf (expiresAtMs credential <=? now)%Z PREVIEW_UNAVAILABLE;;
  now ← call Clock;
  iv ← call RandomIv;
  match sealHostedAppCredential (runtime_session_id r) credential (credentialKey cfg) iv with
  | Err _ => Raise (PlainError (js "credential key must be 32 bytes"))
  | Ok sealed =>
      let running := withCredential (withError (transition r RUNNING now) None) (Some sealed) (Some (expiresAtMs credential)) in
      writeOrFence running lockToken;;
      Pure running
  end.

(** ** Status and preview *)

(** [registry.read], with the answer for an application that does not exist. *)
Definition readApp (runtimeId : jstr) (missing : failure) : hosted (RuntimeRecord * HostedAppRecordDetails) :=
  found ← awaited (ReadRecord runtimeId);
  match found with
  | Some r => match hosted_app r with Some app => Pure (r, app) | None => Raise missing end
  | None => Raise missing
  end.

Definition statusLeased (runtimeId : jstr) (o : HostedAppOwner) : hosted HostedAppPublicStatus :=
  found ← readApp runtimeId NOT_FOUND;
  let '(r, app) := found in
  assertHostedAppOwned r o None;;
  status ← publicStatusNow r;
  if negb (eqStr (Some (p_state status)) (js "running")) then Pure status else
  appState ← residentAppState (runtimeConfig cfg) (recordedVm r) (source_runtime_session_id app) (d_spec app);
  throwIfAborted;;
  current ← publicStatusNow r;
  if negb (eqStr (Some (p_state current)) (js "running")) then Pure current else
  Pure (PublicStatus (p_app_id current) (p_revision current) appState (preview_id current) (p_hard_deadline_at current)
    (updated_at current)
    (if eqStr (Some appState) (js "failed") then Some (js "Hosted app process failed") else p_error current)).

Definition refreshPreviewLeased (runtimeId : jstr) (o : HostedAppOwner) (lockToken : jstr) : hosted HostedAppPublicStatus :=
  found ← readApp runtimeId NOT_RUNNING;
  let '(r, _) := found in
  assertHostedAppOwned r o None;;
  now ← call Clock;
  raiseIf (negb (bool_decide (state r = RUNNING)) || negb (nonEmpty (microvm_id r)) || negb (nonEmpty (endpoint r))
           || match hard_deadline_at r with Some t => (t <=? now)%Z | None => true end) NOT_RUNNING;;
  persistPreviewCredential r (recordedVm r) lockToken ≫= publicStatusNow.

(** ** Start *)

(** A launch whose MicroVM is not known may still have been accepted, until the
    longest life of that MicroVM is over. *)
Definition couldStillBeLive (r : RuntimeRecord) (now : Z) : bool :=
  bool_decide (state r = PENDING) && negb (nonEmpty (microvm_id r))
  && match hard_deadline_at r with
     | None => true
     | Some t => (now <? t + HOSTED_APP_DEADLINE_HEADROOM_MS + launchTimeoutMs (runtimeConfig cfg))%Z
     end.

Definition sameLaunch (r : RuntimeRecord) : bool :=
  bool_decide (launch_fingerprint r = Some (hostedAppLaunchFingerprint (runtimeConfig cfg))).
Definition sameRequest (r : RuntimeRecord) : bool :=
  bool_decide (launch_request_fingerprint r = Some (hostedAppLaunchRequestFingerprint (runtimeConfig cfg))).

Definition deadlineLeaves (r : RuntimeRecord) (now : Z) : bool :=
  match hard_deadline_at r with Some t => (now + HOSTED_APP_DEADLINE_HEADROOM_MS <? t)%Z | None => false end.

Section start.
Context (input : HostedAppStartInput) (lockToken : jstr).
Abbreviation runtimeId := (hostedAppRuntimeId input).
Abbreviation fingerprint := (hostedAppSpecFingerprint (spec input)).

Definition assertRevision (v : HostedAppRevision) : hosted unit :=
  raiseIf (negb (bool_decide (rv_tenantId v = tenantId (owner input)) && bool_decide (rv_canonicalUserId v = canonicalUserId (owner input))
                 && bool_decide (rv_sourceRuntimeSessionId v = sourceRuntimeSessionId input))) NOT_FOUND;;
  raiseIf (negb (bool_decide (rv_revision v = revision (spec input)) && bool_decide (rv_specFingerprint v = fingerprint))) REVISION_CONFLICT.

(** [retainRevision] gives the revision that was stored first. *)
Definition retain (checkpointKey : jstr) : hosted HostedAppRevision :=
  v ← awaited (RetainRevision runtimeId
        (AppRevision (tenantId (owner input)) (canonicalUserId (owner input)) (sourceRuntimeSessionId input)
           (revision (spec input)) fingerprint checkpointKey));
  assertRevision v;;
  Pure v.

Definition sameRevision (r : RuntimeRecord) : bool := bool_decide (d_revision <$> hosted_app r = Some (revision (spec input))).
Definition sameSpec (r : RuntimeRecord) : bool := bool_decide (spec_fingerprint <$> hosted_app r = Some fingerprint).
Definition exactRevision (r : RuntimeRecord) : bool := sameRevision r && sameSpec r.

Definition reassertable (r : RuntimeRecord) (now : Z) : bool :=
  exactRevision r && bool_decide (state r = RUNNING) && sameLaunch r && nonEmpty (microvm_id r) && nonEmpty (endpoint r)
  && match hard_deadline_at r with None => true | Some _ => deadlineLeaves r now end.

(** The errors that let a MicroVM be replaced. *)
Definition unhealthy (e : failure) : bool :=
  match e with
  | MicrovmError c _ transient _ =>
      transient && bool_decide (c ∈ ["hosted_app_unhealthy"; "hosted_app_start_unavailable"; "hosted_app_start_failed"]%string)
  | _ => false
  end.

(** Bring the recorded MicroVM back, or retire it. *)
Definition reassert (prior : RuntimeRecord) : hosted RuntimeRecord :=
  let vm := recordedVm prior in
  r ← outcome (waitForControlReady (runtimeConfig cfg) vm;;
               startResidentApp (runtimeConfig cfg) vm (sourceRuntimeSessionId input) (spec input));
  match r with
  | inr _ => Pure prior
  | inl e =>
      if negb (unhealthy e) then Raise e else
      now ← call Clock;
      let terminating := transition prior TERMINATING now in
      writeOrFence terminating lockToken;;
      terminated ← terminate (microvmId vm);
      if negb terminated then Raise e else
      now ← call Clock;
      Pure (withError (transition (withVm terminating None None) TERMINATED now) (Some (messageOf e)))
  end.

Definition replayable (r : RuntimeRecord) (now : Z) : bool :=
  exactRevision r && bool_decide (state r = PENDING) && negb (nonEmpty (microvm_id r)) && nonEmpty (launch_client_token r)
  && nonEmpty (checkpoint_key <$> hosted_app r) && sameLaunch r && sameRequest r && deadlineLeaves r now.

(** Terminate the MicroVM of the revision that is replaced. *)
Definition retire (prior : option RuntimeRecord) : hosted (option RuntimeRecord) :=
  match prior with
  | Some p =>
      match microvm_id p with
      | Some ((_ :: _) as id) =>
          now ← call Clock;
          let terminating := transition p TERMINATING now in
          writeOrFence terminating lockToken;;
          terminated ← terminate id;
          if negb terminated then
            Raise (ControlPlaneError "hosted_app_replace_failed" (js "Could not terminate the previous hosted app revision") 503 true)
          else Pure (Some terminating)
      | _ => Pure prior
      end
  | None => Pure None
  end.

Definition launchIntentOf (gen : Z) (clientToken checkpointKey : jstr) (launchedAt hardDeadlineAt now : Z) : RuntimeRecord :=
  let c := runtimeConfig cfg in
  RRecord runtimeId (tenantId (owner input)) (canonicalUserId (owner input)) None None (Some (previewPort c))
    (Some (c_imageArn c)) (Some (c_imageVersion c)) (Some (hostedAppLaunchFingerprint c)) (Some clientToken)
    (Some (hostedAppLaunchRequestFingerprint c)) PENDING gen (Some launchedAt) now (Some hardDeadlineAt) None
    (Some (Details (sourceRuntimeSessionId input) (app_id (spec input)) (revision (spec input)) fingerprint (spec input)
       checkpointKey None None)).

(** Write a record on a path that already fails. *)
Definition tryWrite (r : RuntimeRecord) : hosted unit := call (WriteRecord r lockToken);; Pure tt.

Definition restoreName (r : RestoreOutcome) : jstr :=
  match r with Restored => js "restored" | Absent => js "absent" | FetchFailed => js "fetch_failed" | PushFailed => js "push_failed" end.
Definition restoreFailed (r : RestoreOutcome) : failure :=
  ControlPlaneError "hosted_app_restore_failed"
    (js "Could not restore the exact app workspace revision (" ++ restoreName r ++ js ")") 503 true.

(** The [try] of [start] once the MicroVM is known. *)
Definition serve (launched : RuntimeRecord) (vm : MicrovmDescription) (checkpointKey : jstr) : hosted HostedAppPublicStatus :=
  writeOrFence launched lockToken;;
  waitForControlReady (runtimeConfig cfg) vm;;
  restored ← awaited (RestoreCheckpoint (sourceRuntimeSessionId input) checkpointKey vm);
  match restored with Restored => Pure tt | _ => Raise (restoreFailed restored) end;;
  startResidentApp (runtimeConfig cfg) vm (sourceRuntimeSessionId input) (spec input);;
  now ← call Clock;
  persistPreviewCredential (transition launched RUNNING now) vm lockToken ≫= publicStatusNow.

(** Its [catch]. *)
Definition abandon (launched : RuntimeRecord) (vm : MicrovmDescription) (e : failure) : hosted HostedAppPublicStatus :=
  terminated ← terminate (microvmId vm);
  now ← call Clock;
  tryWrite (if (terminated : bool)
            then withError (transition (withVm launched None None) TERMINATED now) (Some (messageOf e))
            else withError (transition (withVm launched (Some (microvmId vm)) (vmEndpoint vm)) TERMINATING now)
                   (Some (js "Hosted app launch failed and its MicroVM still requires termination")));;
  Raise e.

Definition launchIntended (intent : RuntimeRecord) (clientToken checkpointKey : jstr) : hosted HostedAppPublicStatus :=
  r ← outcome (launch (runtimeConfig cfg) clientToken);
  match r with
  | inl e =>
      (if hasCode e BOOT_FAILED then
         now ← call Clock;
         tryWrite (withError (transition intent TERMINATED now) (Some (messageOf e)))
       else Pure tt);;
      Raise e
  | inr (vm, usedToken) =>
      now ← call Clock;
      let launched := withLaunched intent vm usedToken now in
      recover (serve launched vm checkpointKey) (abandon launched vm)
  end.

(** [replayed && prior.t ? prior.t : fresh]: a time of zero counts as absent. *)
Definition keptTime (t : option Z) (fresh : hosted Z) : hosted Z :=
  match t with Some t => if (t =? 0)%Z then fresh else Pure t | None => fresh end.

Definition launchNew (checkpointKey : jstr) (replayed : option RuntimeRecord) : hosted HostedAppPublicStatus :=
  gen ← match replayed with
        | Some p => Pure (generation p)
        | None => awaited (AllocateGeneration runtimeId (hostedAppLaunchGenerationSeed (runtimeConfig cfg)))
        end;
  clientToken ← match replayed ≫= launch_client_token with
                | Some ((_ :: _) as t) => Pure t
                | _ => hostedAppLaunchClientToken runtimeId gen
                end;
  launchedAt ← keptTime (replayed ≫= launched_at) (call Clock);
  hardDeadlineAt ← keptTime (replayed ≫= hard_deadline_at)
    (Pure (launchedAt + maximumDurationSeconds (runtimeConfig cfg) * 1000 - HOSTED_APP_DEADLINE_HEADROOM_MS)%Z);
  now ← call Clock;
  let intent := launchIntentOf gen clientToken checkpointKey launchedAt hardDeadlineAt now in
  writeOrFence intent lockToken;;
  launchIntended intent clientToken checkpointKey.

Definition LAUNCH_IN_PROGRESS : failure :=
  ControlPlaneError "hosted_app_launch_in_progress" (js "The prior hosted app launch must be recovered before it can be replaced") 409 true.

Definition replace (revision : option HostedAppRevision) (prior : option RuntimeRecord) : hosted HostedAppPublicStatus :=
  now ← call Clock;
  let replayPending := match prior with Some p => replayable p now | None => false end in
  now ← call Clock;
  raiseIf (match prior with Some p => couldStillBeLive p now | None => false end && negb replayPending) LAUNCH_IN_PROGRESS;;
  revision ← match revision with
             | Some v => Pure v
             | None => checkpointKey ← awaited (CaptureCheckpoint (sourceRuntimeSessionId input) (owner input)); retain checkpointKey
             end;
  throwIfAborted;;
  prior ← retire prior;
  launchNew (rv_checkpointKey revision) (if replayPending then prior else None).

Definition startLeased : hosted HostedAppPublicStatus :=
  stored ← awaited (ReadRevision runtimeId (revision (spec input)));
  match stored with Some v => assertRevision v | None => Pure tt end;;
  prior ← awaited (ReadRecord runtimeId);
  match prior with
  | Some p =>
      assertHostedAppOwned p (owner input) (Some (sourceRuntimeSessionId input));;
      raiseIf (sameRevision p && negb (sameSpec p)) REVISION_CONFLICT
  | None => Pure tt
  end;;
  retained ← match stored, prior ≫= hosted_app with
             | None, Some app =>
                 if match prior with Some p => exactRevision p | None => false end
                 then v ← retain (checkpoint_key app); Pure (Some v)
                 else Pure None
             | _, _ => Pure stored
             end;
  now ← call Clock;
  match prior with
  | Some p =>
      if reassertable p now then
        p' ← reassert p;
        if bool_decide (state p' = RUNNING)
        then persistPreviewCredential p' (recordedVm p) lockToken ≫= publicStatusNow
        else replace retained (Some p')
      else replace retained prior
  | None => replace retained None
  end.
End start.

(** ** Stop *)

Definition STOP_PENDING : failure :=
  ControlPlaneError "hosted_app_stop_pending" (js "The pending hosted app launch must be recovered before it can be stopped") 409 true.
Definition STOP_FAILED : failure := ControlPlaneError "hosted_app_stop_failed" (js "Could not terminate the hosted app") 503 true.

(** Learn the MicroVM of a pending launch by replaying its token. *)
Definition recoverPending (r : RuntimeRecord) (lockToken : jstr) : hosted RuntimeRecord :=
  match launch_client_token r with
  | Some ((_ :: _) as t) =>
      if negb (sameLaunch r && sameRequest r) then Raise STOP_PENDING else
      launched ← outcome (launch (runtimeConfig cfg) t);
      match launched with
      | inl e => if hasCode e BOOT_FAILED then Pure r else Raise e
      | inr (vm, usedToken) =>
          now ← call Clock;
          let recovered := withLaunched r vm usedToken now in
          recover (writeOrFence recovered lockToken) (fun e => terminate (microvmId vm);; Raise e);;
          Pure recovered
      end
  | _ => Raise STOP_PENDING
  end.

Definition terminateRecorded (r : RuntimeRecord) (lockToken : jstr) : hosted unit :=
  match microvm_id r with
  | Some ((_ :: _) as id) =>
      now ← call Clock;
      writeOrFence (transition r TERMINATING now) lockToken;;
      terminated ← terminate id;
      if (terminated : bool) then Pure tt else
      now ← call Clock;
      writeOrFence (withError (transition r (if bool_decide (state r = RUNNING) then RUNNING else TERMINATING) now)
        (Some (js "Could not terminate the hosted app"))) lockToken;;
      Raise STOP_FAILED
  | _ => Pure tt
  end.

Definition stopLeased (runtimeId : jstr) (o : HostedAppOwner) (lockToken : jstr) : hosted HostedAppPublicStatus :=
  found ← readApp runtimeId NOT_FOUND;
  let '(r, _) := found in
  assertHostedAppOwned r o None;;
  now ← call Clock;
  r ← (if couldStillBeLive r now then recoverPending r lockToken else Pure r);
  terminateRecorded r lockToken;;
  now ← call Clock;
  let stopped := withCredential (withError (transition (withVm r None None) TERMINATED now) None) None None in
  writeOrFence stopped lockToken;;
  publicStatusNow stopped.

(** ** The operations *)

Definition status (runtimeId : jstr) (o : HostedAppOwner) : hosted HostedAppPublicStatus :=
  withLease runtimeId (fun _ => statusLeased runtimeId o).
Definition start (input : HostedAppStartInput) : hosted HostedAppPublicStatus :=
  withLease (hostedAppRuntimeId input) (startLeased input).
Definition stop (runtimeId : jstr) (o : HostedAppOwner) : hosted HostedAppPublicStatus :=
  withLease runtimeId (stopLeased runtimeId o).
Definition refreshPreview (runtimeId : jstr) (o : HostedAppOwner) : hosted HostedAppPublicStatus :=
  withLease runtimeId (refreshPreviewLeased runtimeId o).
End control.
