(* ===== verification/HostedWorld.v ===== *)
(** * Hosted applications: the provider, the registry and the lease

    The world in which an operation of the control plane runs. The provider of
    MicroVMs is the class [MicrovmProvider]: it does to its fleet what its
    documentation says ([documented]; a client token makes at most one MicroVM, and a
    MicroVM that terminated stays so). The record of the application is its entry of
    the registry, which is written under the lease only. Between two calls other
    clients act ([drift]); they leave the record and the application's MicroVMs alone
    while the lease is held, and a lease may be lost at any time. [calm] programs send
    nothing that changes either. *)

From stdpp Require Import base list numbers option strings gmap.
From Stdlib Require Import ZArith Lia.
From S2P Require Import Prelude JsString Json Protocol Redis JsonText EnrollmentProtocol Sealing Effects HostedRuntime HostedApp.

(** ** The provider *)

(** The MicroVMs that were ever made, with the client token of each, and those that
    run. *)
Record fleet := Fleet { born : gmap jstr jstr; alive : gset jstr }.

Definition terminal (s : MicrovmLifecycleState) : bool := bool_decide (s = TERMINATING) || bool_decide (s = TERMINATED).

(** MicroVMs end, and none is made. *)
Definition wanes (f f' : fleet) : Prop := born f' = born f /\ alive f' ⊆ alive f.

(** At most one MicroVM is made, for the token [t], and only if it made none yet. *)
Definition grows (t : jstr) (f f' : fleet) : Prop :=
  wanes f f' \/
  exists i, i ∉ dom (born f) /\ (forall j, born f !! j <> Some t) /\ born f' = <[i := t]> (born f) /\ alive f' ⊆ {[i]} ∪ alive f.

(** What a description of the MicroVM [i] says of the fleet. *)
Definition describes (f : fleet) (i : jstr) (d : sdkResponse) : Prop :=
  (forall s, r_state d = Some s -> terminal s = true -> i ∉ alive f) /\ (r_state d = Some RUNNING -> i ∈ alive f).

Definition documented {R} (f : fleet) (c : svc R) : R -> fleet -> Prop :=
  match c in svc R return R -> fleet -> Prop with
  | SdkRun t => fun r f' =>
      grows t f f' /\ match r with
                      | inr d => forall i, r_microvmId d = Some i -> born f' !! i = Some t /\ describes f' i d
                      | inl _ => True
                      end
  | SdkGet i => fun r f' =>
      wanes f f' /\ match r with
                    | inr d => (forall j, r_microvmId d = Some j -> j = i) /\ describes f' i d
                    | inl e => classifyError e = NotFound -> i ∉ alive f'
                    end
  | SdkResume i => fun r f' => wanes f f' /\ match r with inr _ => True | inl e => classifyError e = NotFound -> i ∉ alive f' end
  | SdkTerminate i => fun r f' => wanes f f' /\ match r with inr _ => i ∉ alive f' | inl e => classifyError e = NotFound -> i ∉ alive f' end
  | _ => fun _ f' => f' = f
  end.

Class MicrovmProvider (P : Type) := {
  fleetOf : P -> fleet;
  answer : forall R, P -> svc R -> R -> P -> Prop;
  answer_documented R p (c : svc R) r p' : answer R p c r p' -> documented (fleetOf p) c r (fleetOf p');
}.

#[global, refine] Instance reference_provider : MicrovmProvider fleet := {| fleetOf f := f; answer R f c r f' := documented f c r f' |}.
Proof. done. Defined.

(** ** The world *)

Record world (P : Type) := World { provider : P; stored : option RuntimeRecord; clock : Z; held : bool }.
Arguments World {P} provider stored clock held.
Arguments provider {P} w.
Arguments stored {P} w.
Arguments clock {P} w.
Arguments held {P} w.

Section world.
Context {P : Type} `{MicrovmProvider P} (rid : jstr).

(** The client tokens of the application. *)
Definition ours (t : jstr) : bool := startsWith t (js "happ-" ++ rid ++ js "-").

Definition vms (w : world P) : fleet := fleetOf (provider w).

(** The clock moves on, MicroVMs end, other applications make theirs, the lease may be
    lost: then anything may happen to the record. *)
Definition drift (w w' : world P) : Prop :=
  (clock w <= clock w')%Z /\
  (held w' = true -> held w = true /\ stored w' = stored w
     /\ born (vms w) ⊆ born (vms w') /\ alive (vms w') ∩ dom (born (vms w)) ⊆ alive (vms w)
     /\ forall i t, born (vms w') !! i = Some t -> ours t = true -> born (vms w) !! i = Some t).

(** Errors that no client of the provider throws. *)
Definition foreignError (e : failure) : Prop :=
  match e with MicrovmError _ _ _ _ | LambdaMicrovmApiError _ _ => False | _ => True end.

Definition effect {R} (w : world P) (c : svc R) : R -> world P -> Prop :=
  match c in svc R return R -> world P -> Prop with
  | Clock => fun r w' => w' = w /\ r = clock w
  | ReadRecord id => fun r w' => w' = w /\ (held w = true -> id = rid -> r = inr (stored w) \/ exists e, r = inl e)
  | WriteRecord rec _ => fun r w' =>
      if bool_decide (runtime_session_id rec = rid) then
        match r with
        | inr true => held w = true /\ w' = World (provider w) (Some rec) (clock w) true
        | _ => w' = w \/ (held w = true /\ w' = World (provider w) (Some rec) (clock w) true)
        end
      else w' = w
  | ReserveOp _ _ _ => fun r w' => w' = w /\ match r with inl e => foreignError e | inr _ => True end
  | Sleep _ => fun r w' => w' = w /\ match r with inl e => foreignError e | inr _ => True end
  | SdkRun t => fun r w' => exists p, answer _ (provider w) (SdkRun t) r p /\ w' = World p (stored w) (clock w) (held w)
  | SdkGet i => fun r w' => exists p, answer _ (provider w) (SdkGet i) r p /\ w' = World p (stored w) (clock w) (held w)
  | SdkResume i => fun r w' => exists p, answer _ (provider w) (SdkResume i) r p /\ w' = World p (stored w) (clock w) (held w)
  | SdkTerminate i => fun r w' => exists p, answer _ (provider w) (SdkTerminate i) r p /\ w' = World p (stored w) (clock w) (held w)
  | _ => fun _ w' => w' = w
  end.

Definition step (R : Type) (w : world P) (c : svc R) (r : R) (w' : world P) : Prop := exists w1, drift w w1 /\ effect w1 c r w'.

Lemma drift_refl w : drift w w.
Proof. split; [lia|]. intros Hh. repeat split; try done. set_solver. Qed.

Lemma drift_trans w1 w2 w3 : drift w1 w2 -> drift w2 w3 -> drift w1 w3.
Proof.
  intros [C1 D1] [C2 D2]. split; [lia|]. intros Hh. destruct (D2 Hh) as (Hh2 & S2 & B2 & A2 & O2).
  destruct (D1 Hh2) as (Hh1 & S1 & B1 & A1 & O1). repeat split; [done|congruence|by etrans| |by eauto].
  apply subseteq_dom in B1. set_solver.
Qed.

(** ** Calm programs *)

(** Calls that change neither the record nor the fleet. *)
Definition calmCall {R} (c : svc R) : bool :=
  match c with WriteRecord _ _ | SdkRun _ | SdkGet _ | SdkResume _ | SdkTerminate _ => false | _ => true end.

Fixpoint calm {A} (m : hosted A) : Prop :=
  match m with
  | Pure _ | Raise _ => True
  | Call c k => calmCall c = true /\ forall r, calm (k r)
  | Repeat v body k => (forall v, calm (body v)) /\ forall b, calm (k b)
  end.

Lemma calm_bind {A B} (m : hosted A) (f : A -> hosted B) : calm m -> (forall a, calm (f a)) -> calm (m ≫= f).
Proof.
  unfold mbind, tree_bind. induction m as [A a|A e|A R c k IH|A V B' v body IHb k IHk]; cbn [calm tbind]; intros Hm Hf; try done.
  - destruct Hm. split; [done|]. intros r. by apply IH.
  - destruct Hm as [Hb Hk]. split; [done|]. intros b. by apply IHk.
Qed.

Lemma calm_outcome {A} (m : hosted A) : calm m -> calm (outcome m).
Proof.
  induction m as [A a|A e|A R c k IH|A V B v body IHb k IHk]; cbn [calm outcome]; intros Hm; try done.
  - destruct Hm. split; [done|]. intros r. by apply IH.
  - destruct Hm as [Hb Hk]. split; [intros v'; apply (calm_bind (outcome (body v'))); [by apply IHb|done]|].
    intros [e|b]; [done|by apply IHk].
Qed.

Lemma calm_recover {A} (m : hosted A) h : calm m -> (forall e, calm (h e)) -> calm (recover m h).
Proof. intros Hm Hh. unfold recover. apply calm_bind; [by apply calm_outcome|]. by intros [e|a]. Qed.

Lemma calm_awaited {R} (c : svc (failure + R)) : calmCall c = true -> calm (awaited c).
Proof. intros Hc. unfold awaited. apply calm_bind; [by split|]. by intros [e|a]. Qed.

Lemma calm_step {R} w (c : svc R) r w' : calmCall c = true -> step R w c r w' -> drift w w'.
Proof. intros Hc (w1 & Hd & He). destruct c; try discriminate Hc; cbn [effect] in He; destruct_and?; by subst. Qed.

(** A calm program keeps whatever the other clients keep. *)
Lemma ensures_calm {A} (Inv S : world P -> Prop) (m : hosted A) w :
  (forall w, S w -> Inv w) -> (forall w w', drift w w' -> S w -> S w') -> calm m -> S w ->
  ensures step Inv m w (fun w' _ => S w').
Proof.
  intros HI HS. revert w. induction m as [A a|A e|A R c k IH|A V B v body IHb k IHk]; intros w Hm Hw; cbn [calm ensures] in *; try done.
  - destruct Hm as [Hc Hk]. intros r w' Hs. apply calm_step in Hs; [|done]. pose proof (HS _ _ Hs Hw). split; [by apply HI|]. by apply IH.
  - destruct Hm as [Hb Hk]. exists (fun _ => S). split; [done|]. intros v' w' Hw'. eapply ensures_mono; [by apply IHb|].
    intros w'' [e|[v''|b]] Ho; [done..|]. by apply IHk.
Qed.
End world.

(** ** Playing a run

    An executable run on the reference provider, for concrete examples: no other client
    interferes, every call succeeds, and a launch makes its MicroVM at once. *)

Section play.
Context (rid : jstr).

Definition describe (f : fleet) (i : jstr) : sdkResponse :=
  SdkResponse (Some i) (Some (if bool_decide (i ∈ alive f) then RUNNING else TERMINATED)) (Some (js "host")) None None None.

Definition withFleet (w : world fleet) (f : fleet) : world fleet := World f (stored w) (clock w) (held w).

Definition vmOfToken (f : fleet) (t : jstr) : option jstr := fst <$> List.find (fun it => bool_decide (snd it = t)) (map_to_list (born f)).

Definition launched (f : fleet) (t : jstr) : fleet * jstr :=
  match vmOfToken f t with
  | Some i => (f, i)
  | None =>
      let i := js "vm-" ++ t in
      if bool_decide (i ∈ dom (born f)) then (f, []) else (Fleet (<[i := t]> (born f)) ({[i]} ∪ alive f), i)
  end.

Definition respond {R} (c : svc R) (w : world fleet) : R * world fleet :=
  match c in svc R return R * world fleet with
  | Clock => (clock w, w)
  | Signals => ((false, false), w)
  | Sleep _ => (inr tt, w)
  | SdkRun t =>
      let '(f, i) := launched (provider w) t in
      (if isEmpty i then inl (SdkError [] []) else inr (describe f i), withFleet w f)
  | SdkGet i => (inr (describe (provider w) i), w)
  | SdkResume _ => (inr tt, w)
  | SdkTerminate i => (inr tt, withFleet w (Fleet (born (provider w)) (alive (provider w) ∖ {[i]})))
  | SdkToken _ _ _ => (inr (Some (js "secret")), w)
  | ReserveOp _ _ _ => (inr tt, w)
  | PoisonOp _ _ => (inr tt, w)
  | Fetch _ => (inr 200%Z, w)
  | CancelBody => (inr tt, w)
  | BodyText => (inr [], w)
  | BodyJson => (inr JNull, w)
  | WaitForLock _ _ _ => (inr (Some (js "lease")), w)
  | ReleaseLock _ _ => (inr tt, w)
  | ReadRecord _ => (inr (stored w), w)
  | WriteRecord rec _ =>
      if held w && bool_decide (runtime_session_id rec = rid) then (inr true, World (provider w) (Some rec) (clock w) true) else (inr false, w)
  | AllocateGeneration _ seed => (inr seed, w)
  | ReadRevision _ _ => (inr None, w)
  | RetainRevision _ r => (inr r, w)
  | CaptureCheckpoint _ _ => (inr (js "checkpoint"), w)
  | RestoreCheckpoint _ _ _ => (inr Restored, w)
  | RandomIv => (repeat 0%Z 12, w)
  end.

Fixpoint play (fuel : nat) {A} (m : hosted A) (w : world fleet) : option (world fleet * (failure + A)) :=
  match fuel with
  | O => None
  | S fuel =>
      match m with
      | Pure a => Some (w, inr a)
      | Raise e => Some (w, inl e)
      | Call c k => let '(r, w') := respond c w in play fuel (k r) w'
      | Repeat v body k =>
          match play fuel (body v) w with
          | Some (w', inl e) => Some (w', inl e)
          | Some (w', inr (inl v')) => play fuel (Repeat v' body k) w'
          | Some (w', inr (inr b)) => play fuel (k b) w'
          | None => None
          end
      end
  end.

Lemma describe_describes f i : describes f i (describe f i).
Proof.
  unfold describes, describe. cbn [r_state]. case_bool_decide as Hi; split; try done. intros st E. by injection E as <-.
Qed.

Lemma launched_grows f t f' i : launched f t = (f', i) -> grows t f f' /\ (i <> [] -> born f' !! i = Some t).
Proof.
  unfold launched, vmOfToken. destruct (List.find _ _) as [[j u]|] eqn:Ef; cbn [fmap option_fmap option_map fst].
  - intros E. injection E as <- <-. apply find_some in Ef as [Hin Hu]. cbn [snd] in Hu. apply bool_decide_eq_true_1 in Hu as ->.
    split; [by left|]. intros _. apply list_elem_of_In in Hin. by apply elem_of_map_to_list in Hin.
  - case_bool_decide as Hd; intros E; injection E as <- <-; [by split; [left|]|]. split; [|intros _; cbn [born]; by rewrite lookup_insert_eq].
    right. eexists. split; [exact Hd|]. split; [|by split]. intros j Hj. apply elem_of_map_to_list, list_elem_of_In in Hj.
    eapply find_none in Ef; [|exact Hj]. cbn [snd] in Ef. by rewrite bool_decide_eq_true_2 in Ef.
Qed.

Lemma respond_step {R} (c : svc R) w : step rid R w c (fst (respond c w)) (snd (respond c w)).
Proof.
  exists w. split; [apply drift_refl|]. destruct c; cbn [respond effect fst snd]; try done.
  - destruct (launched (provider w) clientToken) as [f i] eqn:El. apply launched_grows in El as [Hg Hb]. exists f. cbn [fst snd].
    split; [|done]. split; [done|]. unfold isEmpty. case_bool_decide as Hi; [done|]. intros j E. injection E as <-.
    split; [by apply Hb|apply describe_describes].
  - exists (provider w). split; [|by destruct w]. split; [by split|]. split; [intros j E; by injection E as <-|apply describe_describes].
  - exists (provider w). split; [|by destruct w]. by split.
  - eexists. split; [|done]. split; [split; [done|]; cbn; set_solver|]. cbn. set_solver.
  - split; [done|]. intros _ _. by left.
  - destruct (held w) eqn:Eh; cbn [andb].
    + case_bool_decide; cbn [fst snd]; [done|]. done.
    + cbn [fst snd]. case_bool_decide; [by left|done].
Qed.

Lemma play_runs fuel {A} (m : hosted A) w w' o : play fuel m w = Some (w', o) -> runs (step rid) w m w' o.
Proof.
  revert A m w w' o. induction fuel as [|fuel IH]; intros A m w w' o; [done|]. destruct m as [A a|A e|A R c k|A V B v body k]; cbn [play].
  - intros E. injection E as <- <-. constructor.
  - intros E. injection E as <- <-. constructor.
  - pose proof (respond_step c w) as Hs. destruct (respond c w) as [r w1]. intros E. econstructor; [exact Hs|by apply IH].
  - destruct (play fuel (body v) w) as [[w1 [e|[v'|b]]]|] eqn:Eb; intros E; [|..|done]; apply IH in Eb.
    + injection E as <- <-. by constructor.
    + eapply r_again; [exact Eb|by apply IH].
    + eapply r_exit; [exact Eb|by apply IH].
Qed.
End play.
