(* ===== verification/HostedAppProofs.v ===== *)
(** * Hosted applications: every MicroVM is accounted for

    Proves of the control plane that, while its lease is held, every running MicroVM of
    the application is the one its durable record names or one that replaying the
    recorded launch finds; the one exception is a launch whose deadline had passed when
    the operation began. It holds at every point where a replica may crash. Then what
    [start] and [stop] guarantee when they succeed, and that nothing happens for a
    caller who does not own the application. *)

From stdpp Require Import base list numbers option strings gmap.
From Stdlib Require Import ZArith Lia.
From S2P Require Import Prelude JsString Json Protocol Redis JsonText EnrollmentProtocol Sealing Effects HostedRuntime HostedApp HostedWorld.

(** ** Calm parts of the code *)

Create HintDb calm.
Ltac calm_step :=
  first
    [ done
    | solve [auto with calm nocore]
    | apply calm_bind; [|intros ?]
    | apply calm_outcome
    | apply calm_recover; [|intros ?]
    | apply calm_awaited; reflexivity
    | case_match
    | split; [reflexivity|intros ?] ].
Ltac calm_auto := repeat calm_step.

Lemma calm_raiseIf b e : calm (raiseIf b e).
Proof. by destruct b. Qed.
#[export] Hint Resolve calm_raiseIf : calm.

Lemma calm_throwIfAborted : calm throwIfAborted.
Proof. unfold throwIfAborted. calm_auto. Qed.
Lemma calm_poison op d e : calm (poisonIfThrottled op d e).
Proof. unfold poisonIfThrottled. calm_auto. Qed.
#[export] Hint Resolve calm_throwIfAborted calm_poison : calm.

Section calm.
Context `{Platform} `{Runtime} `{!Utf8} `{Aead} `{Collation} (rc : HostedAppMicrovmConfig).

Lemma calm_mintToken i p : calm (mintToken rc i p).
Proof. unfold mintToken, createMicrovmAuthToken, send. calm_auto. Qed.
#[local] Hint Resolve calm_mintToken : calm.

Lemma calm_waitForControlReady vm : calm (waitForControlReady rc vm).
Proof. unfold waitForControlReady. calm_step; [calm_auto|]. split; [|done]. intros [e t]. calm_auto. Qed.

Lemma calm_startResidentApp vm id s : calm (startResidentApp rc vm id s).
Proof. unfold startResidentApp. calm_auto. Qed.

Lemma calm_residentAppState vm id s : calm (residentAppState rc vm id s).
Proof. unfold residentAppState. calm_auto. Qed.

Lemma calm_previewToken i : calm (previewToken rc i).
Proof. unfold previewToken. auto with calm. Qed.

Lemma calm_publicStatusNow r : calm (publicStatusNow r).
Proof. unfold publicStatusNow, hostedAppPublicStatus. calm_auto. Qed.
End calm.
#[export] Hint Resolve calm_mintToken calm_waitForControlReady calm_startResidentApp calm_residentAppState calm_previewToken calm_publicStatusNow : calm.

(** ** The account of an application's MicroVMs *)

(** The token made a MicroVM that ended. *)
Definition spent (f : fleet) (k : jstr) : Prop := exists i, born f !! i = Some k /\ i ∉ alive f.

(** The record accounts for the MicroVM [i] of the token [t]: it names it, or it is the
    intent of a launch that makes or finds it. The second token of a launch is used once
    the first is spent. *)
Definition covered (f : fleet) (s : option RuntimeRecord) (i t : jstr) : Prop :=
  match s with
  | None => False
  | Some r =>
      (microvm_id r = Some i /\ i <> [])
      \/ (nonEmpty (microvm_id r) = false /\ state r = PENDING
          /\ exists k, launch_client_token r = Some k /\ (t = k \/ (t = retryTokenOf k /\ spent f k)))
  end.

Section account.
Context {P : Type} `{MicrovmProvider P} (cfg : controlPlaneConfig) (rid : jstr) (r0 : option RuntimeRecord).
Abbreviation ours := (ours rid).
Abbreviation drift := (drift rid).
Abbreviation step := (step rid).

(** The token belongs to the launch that the operation found, and its deadline, with
    the headroom and the time a launch may take, had passed. *)
Definition lapsed (now : Z) (t : jstr) : Prop :=
  match r0 with
  | None => False
  | Some r =>
      nonEmpty (microvm_id r) = false /\ state r = PENDING
      /\ (exists d, hard_deadline_at r = Some d /\ d + HOSTED_APP_DEADLINE_HEADROOM_MS + launchTimeoutMs (runtimeConfig cfg) <= now)%Z
      /\ exists k, launch_client_token r = Some k /\ (t = k \/ t = retryTokenOf k)
  end.

(** Every running MicroVM of the application satisfies [Q]. *)
Definition everyVm (w : world P) (Q : jstr -> jstr -> Prop) : Prop :=
  forall i t, ours t = true -> i ∈ alive (vms w) -> born (vms w) !! i = Some t -> Q i t \/ lapsed (clock w) t.

Definition coveredBy (w : world P) (s : option RuntimeRecord) : Prop := everyVm w (covered (vms w) s).
Definition soleVm (id : jstr) (w : world P) : Prop := everyVm w (fun i _ => i = id).
Definition noVm (w : world P) : Prop := everyVm w (fun _ _ => False).

Definition keyed (s : option RuntimeRecord) : Prop :=
  match s with
  | None => True
  | Some r => runtime_session_id r = rid /\ forall k, launch_client_token r = Some k -> ours k = true
  end.

Definition tokensOnce (w : world P) : Prop :=
  forall i j t, ours t = true -> born (vms w) !! i = Some t -> born (vms w) !! j = Some t -> i = j.

(** While the lease is held the record is one of [L], and each of them accounts for
    every MicroVM. *)
Definition account (L : list (option RuntimeRecord)) (w : world P) : Prop :=
  held w = true -> tokensOnce w /\ stored w ∈ L /\ Forall keyed L /\ Forall (coveredBy w) L.

Definition accounted (w : world P) : Prop := account [stored w] w.

(** A fact of the world while the lease is held. *)
Definition leased (Q : world P -> Prop) (w : world P) : Prop := held w = true -> Q w.

(** *** What other clients keep *)

Lemma drift_held w w' : drift w w' -> held w' = true -> held w = true.
Proof. intros [_ Hd] Hh. by apply Hd. Qed.

Lemma spent_drift w w' k : drift w w' -> held w' = true -> spent (vms w) k -> spent (vms w') k.
Proof.
  intros [_ Hd] Hh (i & Hb & Ha). destruct (Hd Hh) as (_ & _ & B & A & _). exists i. split; [by eapply lookup_weaken|].
  intros Hi. apply Ha. apply A, elem_of_intersection. split; [done|]. by apply elem_of_dom_2 in Hb.
Qed.

Lemma lapsed_later t now now' : (now <= now')%Z -> lapsed now t -> lapsed now' t.
Proof.
  unfold lapsed. intros Hn. destruct r0 as [r|]; [|done]. intros (Hi & Hs & (d & Hd & Hl) & Hk). repeat split; try done.
  exists d. split; [done|lia].
Qed.

Lemma everyVm_drift w w' (Q Q' : jstr -> jstr -> Prop) :
  drift w w' -> held w' = true -> everyVm w Q -> (forall i t, Q i t -> Q' i t) -> everyVm w' Q'.
Proof.
  intros [Hc Hd] Hh HQ HQQ i t Ho Hi Hb. destruct (Hd Hh) as (_ & _ & B & A & O). pose proof (O i t Hb Ho) as Hb0.
  destruct (HQ i t Ho) as [HQi|Hl]; [|done|left; by apply HQQ|right; by eapply lapsed_later].
  apply A, elem_of_intersection. split; [done|]. by apply elem_of_dom_2 in Hb0.
Qed.

Lemma soleVm_drift id w w' : drift w w' -> leased (soleVm id) w -> leased (soleVm id) w'.
Proof. intros Hd Hs Hh. eapply everyVm_drift; [done..| |]; [by apply Hs, (drift_held _ _ Hd)|done]. Qed.
Lemma leased_spent_drift k w w' : drift w w' -> leased (fun w => spent (vms w) k) w -> leased (fun w => spent (vms w) k) w'.
Proof. intros Hd Hs Hh. eapply spent_drift; [done..|]. by apply Hs, (drift_held _ _ Hd). Qed.

Lemma covered_drift w w' s i t : drift w w' -> held w' = true -> covered (vms w) s i t -> covered (vms w') s i t.
Proof.
  intros Hd Hh. destruct s as [r|]; [|done]. intros [?|(Hi & Hs & k & Hk & Ht)]; [by left|]. right. repeat split; try done.
  exists k. split; [done|]. destruct Ht as [?|[? Hp]]; [by left|right]. split; [done|]. by eapply spent_drift.
Qed.

Lemma account_drift L w w' : drift w w' -> account L w -> account L w'.
Proof.
  intros Hd Ha Hh. pose proof (drift_held _ _ Hd Hh) as Hh0. destruct (Ha Hh0) as (Ht & Hs & Hk & Hc).
  pose proof Hd as [_ Hd']. destruct (Hd' Hh) as (_ & Es & _ & _ & O). repeat split; [|by rewrite Es|done|].
  - intros i j t Ho Hi Hj. apply (Ht i j t Ho); by apply O.
  - eapply Forall_impl; [exact Hc|]. intros s Hcs. eapply everyVm_drift; [done..|exact Hcs|]. intros i t. by apply covered_drift.
Qed.

Lemma account_accounted L w : account L w -> accounted w.
Proof.
  intros Ha Hh. destruct (Ha Hh) as (Ht & Hs & Hk & Hc). rewrite Forall_forall in Hk, Hc.
  repeat split; [done|apply list_elem_of_singleton; done|apply Forall_singleton; auto..].
Qed.

Lemma noVm_covers w s : noVm w -> coveredBy w s.
Proof. intros Hn i t Ho Hi Hb. destruct (Hn i t Ho Hi Hb); [done|by right]. Qed.

(** *** Calls to the provider *)

Lemma wanes_drift w p : wanes (vms w) (fleetOf p) -> drift w (World p (stored w) (clock w) (held w)).
Proof.
  intros [Hb Ha]. split; [cbn; lia|]. intros Hh. change (vms (World p (stored w) (clock w) (held w))) with (fleetOf p).
  rewrite Hb. repeat split; try done. set_solver.
Qed.

Lemma get_step w i r w' : step _ w (SdkGet i) r w' ->
  drift w w' /\ match r with
               | inr d => (forall j, r_microvmId d = Some j -> j = i) /\ describes (vms w') i d
               | inl e => classifyError e = NotFound -> i ∉ alive (vms w')
               end.
Proof.
  intros (w1 & Hd & p & Ha & ->). apply answer_documented in Ha as [Hw Hr]. split; [|done].
  eapply drift_trans; [done|by apply wanes_drift].
Qed.

Lemma resume_step w i r w' : step _ w (SdkResume i) r w' ->
  drift w w' /\ match r with inr _ => True | inl e => classifyError e = NotFound -> i ∉ alive (vms w') end.
Proof.
  intros (w1 & Hd & p & Ha & ->). apply answer_documented in Ha as [Hw Hr]. split; [|done].
  eapply drift_trans; [done|by apply wanes_drift].
Qed.

Lemma terminate_step w i r w' : step _ w (SdkTerminate i) r w' ->
  drift w w' /\ match r with inr _ => i ∉ alive (vms w') | inl e => classifyError e = NotFound -> i ∉ alive (vms w') end.
Proof.
  intros (w1 & Hd & p & Ha & ->). apply answer_documented in Ha as [Hw Hr]. split; [|done].
  eapply drift_trans; [done|by apply wanes_drift].
Qed.

(** Facts that neither other clients nor a write of the record take away. *)
Class Durable (F : world P -> Prop) : Prop := {
  durable_drift w w' : drift w w' -> F w -> F w';
  durable_fleet w w' : vms w' = vms w -> clock w' = clock w -> held w' = held w -> F w -> F w';
}.

#[local] Instance durable_everyVm Q : Durable (leased (fun w => everyVm w Q)).
Proof.
  split.
  - intros w w' Hd Hs Hh. eapply everyVm_drift; [done..| |]; [by apply Hs, (drift_held _ _ Hd)|done].
  - intros w w' Ev Ec Eh Hs Hh i t. rewrite Ev, Ec. apply Hs. congruence.
Qed.
#[local] Instance durable_soleVm id : Durable (leased (soleVm id)) := durable_everyVm (fun i _ => i = id).
#[local] Instance durable_noVm : Durable (leased noVm) := durable_everyVm (fun _ _ => False).
#[local] Instance durable_spent k : Durable (leased (fun w => spent (vms w) k)).
Proof. split; [apply leased_spent_drift|]. intros w w' Ev Ec Eh Hs Hh. rewrite Ev. apply Hs. congruence. Qed.
#[local] Instance durable_and F G : Durable F -> Durable G -> Durable (fun w => F w /\ G w).
Proof. intros HF HG. split; [intros w w' Hd [? ?]; split; by eapply durable_drift|intros w w' E1 E2 E3 [? ?]; split; by eapply durable_fleet]. Qed.
#[local] Instance durable_true : Durable (fun _ => True).
Proof. done. Qed.

(** A calm program keeps the account and every durable fact. *)
Lemma calm_keeps {A} F `{!Durable F} (m : hosted A) L w :
  calm m -> account L w -> F w -> ensures step accounted m w (fun w' _ => account L w' /\ F w').
Proof.
  intros Hm Ha Hf. apply (ensures_calm rid accounted (fun w => account L w /\ F w)); [|..|done|done].
  - intros w1 [Ha1 _]. by eapply account_accounted.
  - intros w1 w2 Hd [Ha1 Hf1]. split; [by eapply account_drift|by eapply durable_drift].
Qed.

(** The program goes on with the time at which it is asked. *)
Lemma clock_bind {A} F `{!Durable F} L (f : Z -> hosted A) w Q :
  account L w -> F w -> (forall w', account L w' -> F w' -> ensures step accounted (f (clock w')) w' Q) ->
  ensures step accounted (call Clock ≫= f) w Q.
Proof.
  intros Ha Hf Hk. apply ensures_bind, ensures_call. intros now w' (w1 & Hd & -> & ->).
  pose proof (account_drift _ _ _ Hd Ha). pose proof (durable_drift _ _ Hd Hf). split; [by eapply account_accounted|by apply Hk].
Qed.

Lemma poison_bind {A} F `{!Durable F} L op d e (m : hosted A) w Q :
  account L w -> F w -> (forall w', account L w' -> F w' -> ensures step accounted m w' Q) ->
  ensures step accounted (poisonIfThrottled op d e;; m) w Q.
Proof.
  intros Ha Hf Hk. unfold poisonIfThrottled. case_match; [|by apply Hk]. apply ensures_bind, ensures_bind, ensures_call.
  intros reply w' Hst. apply calm_step in Hst; [|done]. pose proof (account_drift _ _ _ Hst Ha). pose proof (durable_drift _ _ Hst Hf).
  split; [by eapply account_accounted|by apply Hk].
Qed.

Lemma terminate_keeps F `{!Durable F} L i w :
  account L w -> F w -> leased (soleVm i) w ->
  ensures step accounted (terminate i) w (fun w' o => account L w' /\ F w' /\ leased (soleVm i) w'
    /\ exists b, o = inr b /\ (b = true -> leased noVm w')).
Proof.
  intros Ha Hf Hs. unfold terminate. apply ensures_bind, ensures_outcome. unfold terminateMicrovm, send.
  apply ensures_bind, ensures_call. intros r w' Hst. apply terminate_step in Hst as [Hd Hr].
  pose proof (account_drift _ _ _ Hd Ha) as Ha'. pose proof (durable_drift _ _ Hd Hf) as Hf'. pose proof (soleVm_drift _ _ _ Hd Hs) as Hs'.
  split; [by eapply account_accounted|].
  assert (i ∉ alive (vms w') -> leased noVm w') as Hdead.
  { intros Hi Hh j t Ho Hj Hb. destruct (Hs' Hh j t Ho Hj Hb) as [->|]; [done|by right]. }
  destruct r as [e|[]]; cbn [ensures]; repeat (split; [done|]); (eexists; split; [reflexivity|]); intros Hb; apply Hdead; [|done].
  apply Hr. unfold hasKind in Hb. by bools.
Qed.

(** *** Writes of the record *)

(** The record may be written while [F] holds. *)
Definition writable (F : world P -> Prop) (r : RuntimeRecord) : Prop :=
  forall w, F w -> leased (fun w => keyed (Some r) /\ coveredBy w (Some r)) w.

Lemma write_step F `{!Durable F} L r tok reply w w' :
  writable F r -> account L w -> F w -> step _ w (WriteRecord r tok) reply w' ->
  F w' /\ account (Some r :: L) w' /\ (reply = inr true -> account [Some r] w').
Proof.
  intros HF Ha Hf (w1 & Hd & He). pose proof (account_drift _ _ _ Hd Ha) as Ha1. pose proof (durable_drift _ _ Hd Hf) as Hf1.
  assert (account (Some r :: L) w1) as Hsame.
  { intros Hh. destruct (Ha1 Hh) as (Ht & Hs & Hks & Hc). destruct (HF w1 Hf1 Hh). split; [done|]. split; [by right|].
    split; by constructor. }
  destruct (held w1) eqn:Hh.
  - cbn [effect] in He. rewrite bool_decide_eq_true_2 in He by apply (HF w1 Hf1 Hh).
    assert (w' = World (provider w1) (Some r) (clock w1) true -> F w' /\ account (Some r :: L) w' /\ account [Some r] w') as Hw.
    { intros ->. split; [by eapply durable_fleet; [..|exact Hf1]|]. destruct (Hsame Hh) as (Ht & _ & Hks & Hc).
      split; intros _; (split; [exact Ht|]); (split; [by left|]); [by split|].
      inversion Hks; inversion Hc; split; by apply Forall_singleton. }
    destruct reply as [e|[]]; [destruct He as [->|[_ E]]; [done|]|destruct He as [_ E]|destruct He as [->|[_ E]]; [done|]];
      by destruct (Hw E) as (? & ? & ?).
  - assert (w' = w1) as ->.
    { cbn [effect] in He. case_match; [|done]. destruct reply as [e|[]]; destruct_or?; destruct_and?; congruence. }
    split; [done|]. split; [done|]. intros _ Hx. congruence.
Qed.

Lemma write_keeps F `{!Durable F} L r tok w :
  writable F r -> account L w -> F w ->
  ensures step accounted (writeOrFence r tok) w (fun w' o => F w' /\ match o with inr _ => account [Some r] w' | inl _ => account (Some r :: L) w' end).
Proof.
  intros HF Ha Hf. unfold writeOrFence. apply ensures_bind, ensures_awaited. intros reply w' Hst.
  apply (write_step F L) in Hst as (Hf' & Hl & Hr); [|done..]. split; [by eapply account_accounted|].
  destruct reply as [e|[]]; [done|split; [done|by apply Hr]|]. eapply ensures_bind, ensures_mono.
  - by apply (calm_keeps F _ (Some r :: L)); [apply calm_throwIfAborted|..].
  - by intros w2 [e|[]] [Ha2 Hf2].
Qed.

Lemma tryWrite_keeps F `{!Durable F} L r tok w :
  writable F r -> account L w -> F w ->
  ensures step accounted (tryWrite tok r) w (fun w' o => F w' /\ account (Some r :: L) w').
Proof.
  intros HF Ha Hf. unfold tryWrite. apply ensures_bind, ensures_call. intros reply w' Hst.
  apply (write_step F L) in Hst as (Hf' & Hl & Hr); [|done..]. split; [by eapply account_accounted|]. done.
Qed.

(** *** Launches *)

(** An intent that names no MicroVM, with its client token. *)
Definition intends (r : RuntimeRecord) (k : jstr) : Prop :=
  nonEmpty (microvm_id r) = false /\ state r = PENDING /\ launch_client_token r = Some k.

(** The tokens that may be sent under an intent: the second once the first is spent. *)
Definition sendable (k t : jstr) (w : world P) : Prop := t = k \/ (t = retryTokenOf k /\ leased (fun w => spent (vms w) k) w).

Lemma ours_app t u : ours t = true -> ours (t ++ u) = true.
Proof.
  unfold HostedWorld.ours, startsWith. rewrite !bool_decide_eq_true. intros E. rewrite <- E at 2.
  rewrite take_app_le; [done|]. rewrite <- E, length_take at 1. lia.
Qed.

Lemma intent_keyed r k : intends r k -> keyed (Some r) -> ours k = true.
Proof. intros (_ & _ & Hk) [_ Ho]. by apply Ho. Qed.

(** A request that is sent leaves the intent in charge of what it made. *)
Lemma run_step r k t reply w w' :
  intends r k -> account [Some r] w -> sendable k t w -> step _ w (SdkRun t) reply w' ->
  account [Some r] w' /\ (forall k', leased (fun w => spent (vms w) k') w -> leased (fun w => spent (vms w) k') w')
  /\ match reply with
     | inr d => forall i, r_microvmId d = Some i -> born (vms w') !! i = Some t /\ describes (vms w') i d
     | inl _ => True
     end.
Proof.
  intros Hr Ha Hk (w1 & Hd & p & Hp & ->). apply answer_documented in Hp as [Hg Hreply]. split; [|split; [|done]].
  - destruct Hg as [Hw|(i & Hi & Ht & Hb & Hal)]; [eapply account_drift; [by apply wanes_drift|by eapply account_drift]|].
    pose proof (account_drift _ _ _ Hd Ha) as Ha1. intros Hh. cbn [held] in Hh. destruct (Ha1 Hh) as (Honce & Hs & Hks & Hc).
    set (w' := World p _ _ _). assert (vms w' = fleetOf p) as Ev by done. assert (born (vms w1) ⊆ born (vms w')) as Hsub.
    { rewrite Ev, Hb. apply insert_subseteq, not_elem_of_dom, Hi. }
    assert (forall k', spent (vms w1) k' -> spent (vms w') k') as Hsp.
    { intros k' (j & Hj & Hja). exists j. split; [by eapply lookup_weaken|]. rewrite Ev. intros Hx. apply Hal in Hx.
      apply elem_of_union in Hx as [Hx|Hx]; [|done]. apply elem_of_singleton in Hx as ->. by apply elem_of_dom_2 in Hj. }
    repeat split; [|done|done|].
    + intros a b u Ho. rewrite Ev, Hb, !lookup_insert_Some. intros [[<- <-]|[Na Ba]] [[<- E]|[Nb Bb]]; [done|by destruct (Ht b)|by subst; destruct (Ht a)|].
      by eapply Honce.
    + apply Forall_singleton. rewrite Forall_singleton in Hc. intros j u Ho Hj Hbj. rewrite Ev, Hb in Hbj. change (clock w') with (clock w1).
      apply lookup_insert_Some in Hbj as [[<- <-]|[Nj Bj]].
      * left. right. destruct Hr as (H1 & H2 & H3). repeat split; try done. exists k. split; [done|].
        destruct Hk as [->|[-> Hsk]]; [by left|right]. split; [done|]. apply Hsp. by apply (leased_spent_drift _ _ _ Hd Hsk).
      * rewrite Ev in Hj. apply Hal, elem_of_union in Hj as [Hj|Hj]; [by apply elem_of_singleton in Hj|].
        destruct (Hc j u Ho Hj Bj) as [Hcov|]; [left|by right]. destruct Hcov as [?|(? & ? & k' & ? & Hu)]; [by left|right].
        repeat split; try done. exists k'. split; [done|]. destruct Hu as [|[? ?]]; [by left|right]. by auto.
  - intros k' Hsk Hh. pose proof (leased_spent_drift _ _ _ Hd Hsk Hh) as (j & Hj & Hja).
    change (vms (World p (stored w1) (clock w1) (held w1))) with (fleetOf p).
    destruct Hg as [[Hb Hal]|(i & Hi & Ht & Hb & Hal)]; exists j; rewrite Hb; (split; [|intros Hx; apply Hal in Hx]); [done|done|..].
    + apply lookup_insert_Some. right. split; [|done]. intros ->. by apply elem_of_dom_2 in Hj.
    + apply elem_of_union in Hx as [Hx|Hx]; [|done]. apply elem_of_singleton in Hx as ->. by apply elem_of_dom_2 in Hj.
Qed.

Section launch.
Context (r : RuntimeRecord) (k : jstr) (Hr : intends r k) (Hok : ours k = true).

#[local] Instance durable_sendable t : Durable (sendable k t).
Proof. split; [intros w w' Hd|intros w w' E1 E2 E3]; (intros [?|[? ?]]; [by left|right]; split; [done|]); [by eapply durable_drift|by eapply durable_fleet; [exact E1|..]]. Qed.
#[local] Instance durable_born i t : Durable (leased (fun w => born (vms w) !! i = Some t)).
Proof.
  split; [|intros w w' Ev _ Eh Hs Hh; rewrite Ev; apply Hs; congruence]. intros w w' [Hc Hd] Hs Hh.
  destruct (Hd Hh) as (Hh0 & _ & B & _). eapply lookup_weaken; [by apply Hs|done].
Qed.

(** What is known of the MicroVM of the token [t]. *)
Definition found (t : jstr) (vm : MicrovmDescription) (w : world P) : Prop :=
  leased (fun w => born (vms w) !! microvmId vm = Some t) w
  /\ (terminal (vmState vm) = true -> leased (fun w => spent (vms w) t) w)
  /\ (vmState vm = RUNNING -> leased (soleVm (microvmId vm)) w).
#[local] Instance durable_found t vm : Durable (found t vm).
Proof.
  split; [intros w w' Hd (H1 & H2 & H3)|intros w w' E1 E2 E3 (H1 & H2 & H3)];
    (split; [|split; [intros Ht; specialize (H2 Ht)|intros Hs; specialize (H3 Hs)]]).
  1-3: by eapply durable_drift.
  all: by eapply durable_fleet; [exact E1|..].
Qed.

Lemma spent_none w u j : tokensOnce w -> ours u = true -> spent (vms w) u -> j ∈ alive (vms w) -> born (vms w) !! j <> Some u.
Proof. intros Ho Hu (i & Hi & Hd) Hj Hb. by rewrite (Ho j i u) in Hj. Qed.

(** The running MicroVM of a token that may be sent is the only one. *)
Lemma sole_running t i w :
  account [Some r] w -> sendable k t w -> held w = true -> born (vms w) !! i = Some t ->
  (t = k -> i ∈ alive (vms w)) -> soleVm i w.
Proof.
  intros Ha Ht Hh Hb Hi j u Ho Hj Hbj. destruct (Ha Hh) as (Honce & _ & _ & Hc). rewrite Forall_singleton in Hc.
  destruct (Hc j u Ho Hj Hbj) as [Hcov|]; [|by right]. left. destruct Hr as (H1 & H2 & H3).
  destruct Hcov as [[E Hne]|(_ & _ & k' & E & Hu)]; [rewrite E in H1; by destruct j|]. rewrite H3 in E. injection E as <-.
  pose proof (ours_app k (js "-r1") Hok) as Hokr.
  destruct Ht as [->|[-> Hsp]], Hu as [->|[-> Hsp']].
  - by apply (Honce j i k).
  - by destruct (spent_none w k i Honce Hok Hsp' (Hi eq_refl)).
  - by destruct (spent_none w k j Honce Hok (Hsp Hh) Hj).
  - by apply (Honce j i (retryTokenOf k)).
Qed.

Lemma describe_found t i d w :
  account [Some r] w -> sendable k t w -> leased (fun w => born (vms w) !! i = Some t) w -> describes (vms w) i d ->
  found t (Microvm i (default PENDING (r_state d)) (r_endpoint d) (r_imageArn d) (r_imageVersion d) (r_startedAt d)) w.
Proof.
  intros Ha Ht Hb [Hdead Hrun]. split; [done|]. cbn [vmState microvmId]. split.
  - intros Hterm Hh. exists i. split; [by apply Hb|]. destruct (r_state d) as [st|]; [by eapply Hdead|done].
  - intros Hs Hh. apply (sole_running t); try done; [by apply Hb|]. intros _. apply Hrun. destruct (r_state d); cbn in Hs; congruence.
Qed.

(** The outcome of a call about the MicroVM of [t]: no error of its says it failed to
    boot. *)
Definition toldOf (t : jstr) (w : world P) (o : failure + MicrovmDescription) : Prop :=
  account [Some r] w /\ sendable k t w /\
  match o with inr vm => microvmId vm <> [] /\ found t vm w | inl e => hasCode e BOOT_FAILED = false end.

Lemma run_told t w : account [Some r] w -> sendable k t w -> ensures step accounted (runMicrovm t) w (toldOf t).
Proof.
  intros Ha Ht. assert (forall w, account [Some r] w -> sendable k t w ->
    ensures step accounted (send (SdkRun t) ≫= toDescription) w (toldOf t)) as Hone.
  { clear w Ha Ht. intros w Ha Ht. apply ensures_bind. unfold send. apply ensures_bind, ensures_call. intros reply w' Hst.
    apply (run_step r k t) in Hst as (Ha' & Hsp & Hreply); [|done..].
    assert (sendable k t w') as Ht' by (destruct Ht as [?|[? ?]]; [by left|right; by auto]).
    split; [by eapply account_accounted|]. destruct reply as [e|d]; cbn [ensures]; [done|].
    unfold toDescription. destruct (r_microvmId d) as [[|c i]|] eqn:E; cbn [ensures]; [done| |done].
    destruct (Hreply _ eq_refl) as [Hb Hd]. split; [done|]. split; [done|]. split; [done|]. apply describe_found; [done|done|by intros _|done]. }
  unfold runMicrovm. apply ensures_recover. eapply ensures_mono; [by apply Hone|]. intros w1 [e|vm] Ho; [|done].
  destruct Ho as (Ha1 & Ht1 & He). case_match; cbn [ensures]; [done|]. apply ensures_recover.
  eapply ensures_mono; [by apply Hone|]. intros w2 [e2|vm] Ho; [|done]. cbn [ensures]. destruct Ho as (? & ? & _). done.
Qed.

Lemma get_told t i w : account [Some r] w -> sendable k t w -> leased (fun w => born (vms w) !! i = Some t) w ->
  ensures step accounted (getMicrovm i) w (fun w' o => toldOf t w' o /\ leased (fun w => born (vms w) !! i = Some t) w'
    /\ match o with inl e => hasKind e NotFound = true -> leased (fun w => spent (vms w) t) w' | inr _ => True end).
Proof.
  intros Ha Ht Hb. unfold getMicrovm. apply ensures_bind. unfold send. apply ensures_bind, ensures_call. intros reply w' Hst.
  apply get_step in Hst as [Hd Hreply]. pose proof (account_drift _ _ _ Hd Ha) as Ha'.
  pose proof (durable_drift _ _ Hd Ht) as Ht'. pose proof (durable_drift _ _ Hd Hb) as Hb'.
  split; [by eapply account_accounted|]. destruct reply as [e|d]; cbn [ensures].
  - split; [done|]. split; [done|]. intros Hk Hh. exists i. split; [by apply Hb'|]. apply Hreply. unfold hasKind in Hk. by bools.
  - unfold toDescription. destruct (r_microvmId d) as [[|c j]|] eqn:E; cbn [ensures]; [done| |done]. destruct Hreply as [Hj Hdesc].
    pose proof (Hj _ eq_refl) as <-. split; [|done]. split; [done|]. split; [done|]. split; [done|]. by apply describe_found.
Qed.

(** The outcome of a launch under one token. *)
Definition launchedOnce (t : jstr) (w : world P) (o : failure + MicrovmDescription) : Prop :=
  account [Some r] w /\ sendable k t w /\
  match o with
  | inr vm => microvmId vm <> [] /\ leased (soleVm (microvmId vm)) w
  | inl e => hasCode e BOOT_FAILED = true -> leased (fun w => spent (vms w) t) w
  end.

Lemma told_launched t w e : account [Some r] w -> sendable k t w -> hasCode e BOOT_FAILED = false -> launchedOnce t w (inl e).
Proof. intros Ha Ht He. split; [done|]. split; [done|]. by rewrite He. Qed.

Lemma foreign_code e : foreignError e -> hasCode e BOOT_FAILED = false /\ hasKind e NotFound = false.
Proof. by destruct e. Qed.

Lemma reserve_step op n d w reply w' : step _ w (ReserveOp op n d) reply w' ->
  drift w w' /\ match reply with inl e => foreignError e | inr _ => True end.
Proof. by intros (w1 & Hd & -> & He). Qed.
Lemma sleep_step n w reply w' : step _ w (Sleep n) reply w' ->
  drift w w' /\ match reply with inl e => foreignError e | inr _ => True end.
Proof. by intros (w1 & Hd & -> & He). Qed.

Lemma poll_told t d i w : account [Some r] w -> sendable k t w -> leased (fun w => born (vms w) !! i = Some t) w ->
  ensures step accounted (pollMicrovm d i) w (toldOf t).
Proof.
  intros Ha Ht Hb. unfold pollMicrovm.
  apply (clock_bind (fun w => sendable k t w /\ leased (fun w => born (vms w) !! i = Some t) w) [Some r]); [done..|].
  intros w1 Ha1 [Ht1 Hb1]. apply ensures_bind, ensures_awaited. intros reply w2 Hst.
  apply sleep_step in Hst as [Hd He]. pose proof (account_drift _ _ _ Hd Ha1). pose proof (durable_drift _ _ Hd Ht1). pose proof (durable_drift _ _ Hd Hb1).
  split; [by eapply account_accounted|]. destruct reply as [e|[]].
  - split; [done|]. split; [done|]. by apply foreign_code.
  - eapply ensures_mono; [by apply get_told|]. by intros w3 o [? _].
Qed.

(** One turn of the wait. *)
Lemma resume_told t d i w : account [Some r] w -> sendable k t w -> leased (fun w => born (vms w) !! i = Some t) w ->
  ensures step accounted (awaited (ReserveOp ResumeOp 5 d);; resumeMicrovm i) w (fun w' o => toldOf t w' o /\ leased (fun w => born (vms w) !! i = Some t) w'
    /\ match o with inl e => hasKind e NotFound = true -> leased (fun w => spent (vms w) t) w' | inr _ => True end).
Proof.
  intros Ha Ht Hb. apply ensures_bind, ensures_awaited. intros reply w1 Hst. apply reserve_step in Hst as [Hd He].
  pose proof (account_drift _ _ _ Hd Ha) as Ha1. pose proof (durable_drift _ _ Hd Ht) as Ht1. pose proof (durable_drift _ _ Hd Hb) as Hb1.
  split; [by eapply account_accounted|]. destruct reply as [e|[]].
  { apply foreign_code in He as [He1 He2]. split; [done|]. split; [done|]. by rewrite He2. }
  unfold resumeMicrovm, send. apply ensures_bind, ensures_bind, ensures_call. intros reply w2 Hst.
  apply resume_step in Hst as [Hd2 Hreply]. pose proof (account_drift _ _ _ Hd2 Ha1). pose proof (durable_drift _ _ Hd2 Ht1).
  pose proof (durable_drift _ _ Hd2 Hb1) as Hb2. split; [by eapply account_accounted|]. destruct reply as [e|[]]; cbn [ensures].
  - split; [done|]. split; [done|]. intros Hk Hh. exists i. split; [by apply Hb2|]. apply Hreply. unfold hasKind in Hk. by bools.
  - by apply get_told.
Qed.

Definition waiting (t : jstr) (v : MicrovmDescription * bool) (w : world P) : Prop :=
  account [Some r] w /\ sendable k t w /\ microvmId (fst v) <> [] /\ found t (fst v) w.

Lemma told_waiting t w vm b : toldOf t w (inr vm) -> waiting t (vm, b) w.
Proof. by intros (? & ? & ? & ?). Qed.

Lemma await_launched t d vm w : toldOf t w (inr vm) -> ensures step accounted (awaitRunning d vm) w (launchedOnce t).
Proof.
  intros Hw. unfold awaitRunning. cbn [ensures]. exists (waiting t). split; [by apply told_waiting|]. clear w vm Hw.
  intros [vm resumed] w (Ha & Ht & Hne & Hf). cbn [fst] in Hne, Hf.
  apply (clock_bind (fun w => sendable k t w /\ found t vm w) [Some r]); [done..|]. clear w Ha Ht Hf. intros w Ha [Ht Hf].
  assert (forall b, ensures step accounted (vm' ← pollMicrovm d (microvmId vm); Pure (inl (vm', b) : MicrovmDescription * bool + MicrovmDescription)) w
    (fun w' o => match o with inl e => launchedOnce t w' (inl e) | inr (inl v) => waiting t v w' | inr (inr b) => launchedOnce t w' (inr b) end)) as Hpoll.
  { intros b. apply ensures_bind. eapply ensures_mono; [by apply (poll_told t d); [..|apply Hf]|].
    intros w' [e|vm'] Ho; cbn [ensures]; [destruct Ho as (? & ? & ?); by apply told_launched|by apply told_waiting]. }
  case_match; [by apply told_launched|]. case_match; [|case_match; [|case_match; [|by apply Hpoll]]].
  - bools. split; [done|]. split; [done|]. split; [done|]. by apply Hf.
  - split; [done|]. split; [done|]. intros _. by apply Hf.
  - apply ensures_bind, ensures_outcome. eapply ensures_mono; [by apply (resume_told t d); [..|apply Hf]|].
    intros w' [e|vm'] (Ho & Hb & Hn); cbn [ensures]; [|by apply told_waiting]. destruct Ho as (Ha' & Ht' & He).
    destruct (hasKind e NotFound) eqn:EN.
    + apply (poison_bind (fun w => sendable k t w /\ leased (fun w => spent (vms w) t) w) [Some r]); [done|by auto|].
      intros w2 Ha2 [Ht2 Hs2]. by split.
    + apply (poison_bind (fun w => sendable k t w /\ leased (fun w => born (vms w) !! microvmId vm = Some t) w) [Some r]); [done|by auto|].
      intros w2 Ha2 [Ht2 Hb2]. case_match; [by apply told_launched|]. apply ensures_bind.
      eapply ensures_mono; [by apply (poll_told t d)|].
      intros w3 [e'|vm'] Ho; cbn [ensures]; [destruct Ho as (? & ? & ?); by apply told_launched|by apply told_waiting].
Qed.

Lemma launchOnce_launched c t d w : account [Some r] w -> sendable k t w -> ensures step accounted (launchOnce c t d) w (launchedOnce t).
Proof.
  intros Ha Ht. unfold launchOnce. apply ensures_bind, ensures_recover, ensures_awaited. intros reply w1 Hst.
  apply reserve_step in Hst as [Hd He]. pose proof (account_drift _ _ _ Hd Ha) as Ha1. pose proof (durable_drift _ _ Hd Ht) as Ht1.
  split; [by eapply account_accounted|]. destruct reply as [e|[]].
  { apply foreign_code in He as [He _]. destruct e; cbn [ensures]; by apply told_launched. }
  apply ensures_bind, ensures_recover. eapply ensures_mono; [by apply run_told|]. intros w2 [e|vm] Ho.
  - destruct Ho as (Ha2 & Ht2 & He2). apply (poison_bind (sendable k t) [Some r]); [done..|]. intros w3 Ha3 Ht3. by apply told_launched.
  - by apply await_launched.
Qed.

(** The outcome of [launch]: its MicroVM is the only one of the application, or the
    intent is still in charge; a failure to boot leaves none. *)
Definition launchOutcome (w : world P) (o : failure + MicrovmDescription * jstr) : Prop :=
  account [Some r] w /\
  match o with
  | inr (vm, used) => microvmId vm <> [] /\ leased (soleVm (microvmId vm)) w /\ ours used = true
  | inl e => hasCode e BOOT_FAILED = true -> leased noVm w
  end.

Lemma code_launchFailure e : hasCode (launchFailure e) BOOT_FAILED = hasCode e BOOT_FAILED.
Proof. by destruct e as [| |[]| | |]. Qed.

Lemma both_spent w : account [Some r] w -> leased (fun w => spent (vms w) k) w -> leased (fun w => spent (vms w) (retryTokenOf k)) w -> leased noVm w.
Proof.
  intros Ha H1 H2 Hh j u Ho Hj Hb. destruct (Ha Hh) as (Honce & _ & _ & Hc). rewrite Forall_singleton in Hc.
  destruct (Hc j u Ho Hj Hb) as [Hcov|]; [|by right]. exfalso. destruct Hr as (E1 & E2 & E3).
  destruct Hcov as [[E Hne]|(_ & _ & k' & E & Hu)]; [rewrite E in E1; by destruct j|]. rewrite E3 in E. injection E as <-.
  destruct Hu as [->|[-> _]]; by eapply (spent_none w _ j Honce Ho); [apply H1 || apply H2|..].
Qed.

(** The signals are read at one instant. *)
Lemma signals_bind {A} F `{!Durable F} L (f : bool * bool -> hosted A) w Q :
  account L w -> F w -> (forall b w', account L w' -> F w' -> ensures step accounted (f b) w' Q) ->
  ensures step accounted (call Signals ≫= f) w Q.
Proof.
  intros Ha Hf Hk. apply ensures_bind, ensures_call. intros b w' Hst. apply calm_step in Hst; [|done].
  pose proof (account_drift _ _ _ Hst Ha). pose proof (durable_drift _ _ Hst Hf). split; [by eapply account_accounted|by apply Hk].
Qed.

Lemma launch_keeps c w : account [Some r] w -> ensures step accounted (launch c k) w launchOutcome.
Proof.
  intros Ha. unfold launch. apply (clock_bind (fun _ => True) [Some r]); [done..|]. clear w Ha. intros w Ha _.
  apply ensures_bind, ensures_outcome. eapply ensures_mono; [apply launchOnce_launched; [done|by left]|].
  intros w1 [e|vm] (Ha1 & Ht1 & Ho); [|cbn [ensures]; split; [done|]; by destruct Ho].
  destruct (hasCode e BOOT_FAILED) eqn:E1.
  - apply (signals_bind (leased (fun w => spent (vms w) k)) [Some r]); [done|by auto|]. intros [caller late] w2 Ha2 Hs2. cbn [fst snd].
    destruct (caller || late) eqn:Es; [by split|]. rewrite code_launchFailure, E1. apply orb_false_iff in Es as [-> ->]. cbn [negb orb].
    apply ensures_bind, ensures_outcome. eapply ensures_mono; [apply launchOnce_launched; [done|by right]|].
    intros w3 [e2|vm] (Ha3 & Ht3 & Ho3); [|cbn [ensures]; split; [done|]; destruct Ho3; repeat split; [done..|by apply ours_app]].
    assert (leased (fun w => spent (vms w) k) w3) as Hs3.
    { destruct Ht3 as [E|[_ Hs3]]; [|done]. apply (f_equal length) in E. unfold retryTokenOf in E. rewrite length_app in E. cbn in E. lia. }
    destruct (hasCode e2 BOOT_FAILED) eqn:E2.
    + apply (signals_bind (leased noVm) [Some r]); [done|by apply both_spent; auto|]. by intros [b1 b2] w4 Ha4 Hn4.
    + apply (signals_bind (fun _ => True) [Some r]); [done..|]. intros [b1 b2] w4 Ha4 _. split; [done|]. cbn [fst snd].
      destruct (b1 || b2); [done|]. by rewrite code_launchFailure, E2.
  - apply (signals_bind (fun _ => True) [Some r]); [done..|]. intros [caller late] w2 Ha2 _. cbn [fst snd].
    destruct (caller || late); [by split|]. rewrite code_launchFailure, E1. cbn [negb orb ensures]. split; [done|].
    by rewrite code_launchFailure, E1.
Qed.
End launch.

(** *** The control plane *)

Lemma sole_covers i r w : microvm_id r = Some i -> i <> [] -> soleVm i w -> coveredBy w (Some r).
Proof. intros Hi Hn Hs j t Ho Hj Hb. destruct (Hs j t Ho Hj Hb) as [->|]; [left; by left|by right]. Qed.

Lemma covers_sole i r w : microvm_id r = Some i -> i <> [] -> coveredBy w (Some r) -> soleVm i w.
Proof.
  intros Hi Hn Hc j t Ho Hj Hb. destruct (Hc j t Ho Hj Hb) as [[[E _]|(E & _)]|]; [left; congruence| |by right].
  rewrite Hi in E. by destruct i.
Qed.

#[local] Instance durable_const (Q : Prop) : Durable (leased (fun _ => Q)).
Proof. split; [intros w w' Hd Hs Hh; by apply Hs, (drift_held _ _ Hd)|intros w w' _ _ E Hs Hh; apply Hs; congruence]. Qed.

(** Some account is kept. *)
Definition kept (F : world P -> Prop) (w : world P) : Prop := F w /\ exists L, account L w.

Lemma writable_sole i r : keyed (Some r) -> microvm_id r = Some i -> i <> [] -> writable (leased (soleVm i)) r.
Proof. intros Hk Hi Hn w Hs Hh. split; [done|]. eapply sole_covers; [done..|]. by apply Hs. Qed.

Lemma writable_none r : keyed (Some r) -> writable (leased noVm) r.
Proof. intros Hk w Hs Hh. split; [done|]. apply noVm_covers. by apply Hs. Qed.

(** Once the lease is lost nothing is claimed. *)
Lemma unheld {A} (Inv : world P -> Prop) (m : hosted A) w (Q : world P -> failure + A -> Prop) :
  (forall w, held w = false -> Inv w) -> held w = false -> (forall w' o, held w' = false -> Q w' o) -> ensures step Inv m w Q.
Proof.
  intros HI. revert w Q. induction m as [A a|A e|A R c k IH|A V B v body IHb k IHk]; intros w Q Hh HQ; cbn [ensures]; auto.
  - intros reply w' (w1 & Hd & He). assert (held w1 = false) as H1.
    { destruct (held w1) eqn:E; [|done]. by rewrite (drift_held _ _ Hd E) in Hh. }
    assert (held w' = false) as H2.
    { destruct c; cbn [effect] in He; repeat case_match; destruct_or?; destruct_and?; naive_solver congruence. }
    split; [by apply HI|by apply IH].
  - exists (fun _ w => held w = false). split; [done|]. intros v' w' Hw'. apply IHb; [done|]. intros w'' [e|[v''|b]] Hx; [by apply HQ|done|by apply IHk].
Qed.

Lemma unheld_accounted w : held w = false -> accounted w.
Proof. intros Hh Hx. congruence. Qed.

(** The record names every MicroVM. *)
Definition names (r : RuntimeRecord) (w : world P) : Prop := everyVm w (fun i _ => microvm_id r = Some i /\ i <> []).
#[local] Instance durable_names r : Durable (leased (names r)) := durable_everyVm _.

Lemma names_sole i r w : microvm_id r = Some i -> i <> [] -> names r w <-> soleVm i w.
Proof.
  intros Hi Hn. split; intros Hs j t Ho Hj Hb; (destruct (Hs j t Ho Hj Hb) as [E|]; [|by right]); left; [destruct E; congruence|by subst].
Qed.

Lemma names_none r w : nonEmpty (microvm_id r) = false -> names r w -> noVm w.
Proof. intros Hi Hs j t Ho Hj Hb. destruct (Hs j t Ho Hj Hb) as [[E Hn]|]; [rewrite E in Hi; by destruct j|by right]. Qed.

(** A launch that the operation found and that cannot have been accepted any more. *)
Lemma found_names r w : r0 = Some r -> coveredBy w (Some r) -> couldStillBeLive cfg r (clock w) = false -> names r w.
Proof.
  intros E Hc Hl j t Ho Hj Hb. destruct (Hc j t Ho Hj Hb) as [[?|(Hi & Hs & k & Hk & Ht)]|]; [by left| |by right].
  right. unfold lapsed. rewrite E. split; [done|]. split; [done|]. split; [|exists k; split; [done|naive_solver]].
  unfold couldStillBeLive in Hl. rewrite Hs, Hi, bool_decide_eq_true_2 in Hl by done. cbn [negb andb] in Hl.
  destruct (hard_deadline_at r) as [d|]; [|done]. bools. by exists d.
Qed.

Lemma read_step w reply w' :
  account [r0] w -> step _ w (ReadRecord rid) reply w' -> account [r0] w' /\ forall found, reply = inr found -> leased (fun _ => found = r0) w'.
Proof.
  intros Ha (w1 & Hd & -> & Hr). pose proof (account_drift _ _ _ Hd Ha) as Ha1. split; [done|]. intros x -> Hh.
  destruct (Ha1 Hh) as (_ & Hs & _). apply list_elem_of_singleton in Hs. destruct (Hr Hh eq_refl) as [E|[e E]]; congruence.
Qed.

Section control.
Context `{Platform} `{Runtime} `{!Utf8} `{Aead} `{Collation}.

(** The credential of the preview is stored with the record of the MicroVM. *)
Lemma persist_keeps i r vm tok L w :
  keyed (Some r) -> microvm_id r = Some i -> i <> [] -> account L w -> leased (soleVm i) w ->
  ensures step accounted (persistPreviewCredential cfg r vm tok) w (fun w' o =>
    match o with
    | inr r' => leased (soleVm i) w' /\ account [Some r'] w' /\ exists now sealed e,
        r' = withCredential (withError (transition r RUNNING now) None) (Some sealed) e
    | inl _ => kept (leased (soleVm i)) w'
    end).
Proof.
  intros Hk Hi Hn Ha Hs. unfold persistPreviewCredential. apply ensures_bind.
  eapply ensures_mono; [apply (calm_keeps (leased (soleVm i)) _ L); [apply calm_previewToken|done..]|].
  clear w Ha Hs. intros w [e|c] [Ha Hs]; [by split; [|exists L]|]. apply (clock_bind (leased (soleVm i)) L); [done..|].
  clear w Ha Hs. intros w Ha Hs. unfold raiseIf. case_match; [by split; [|exists L]|].
  apply (clock_bind (leased (soleVm i)) L); [done..|]. intros w1 Ha1 Hs1. apply ensures_bind, ensures_call.
  intros iv w' Hst. apply calm_step in Hst; [|done]. pose proof (account_drift _ _ _ Hst Ha1) as Ha'. pose proof (durable_drift _ _ Hst Hs1) as Hs'.
  split; [by eapply account_accounted|]. case_match; [|by split; [|exists L]]. apply ensures_bind.
  eapply ensures_mono; [apply (write_keeps (leased (soleVm i)) L); [by apply (writable_sole i)|done..]|].
  intros w2 [e|[]] [Hs2 Ha2]; [by split; [|eexists]|]. cbn [ensures]. split; [done|]. split; [done|]. eauto.
Qed.

(** A pending launch is replayed: the record that results names what there is. *)
Lemma recover_keeps r tok w :
  r0 = Some r -> keyed (Some r) -> account [r0] w -> nonEmpty (microvm_id r) = false -> state r = PENDING ->
  ensures step accounted (recoverPending cfg r tok) w (fun w' o =>
    match o with inr r' => kept (leased (names r')) w' /\ keyed (Some r') | inl _ => kept (fun _ => True) w' end).
Proof.
  intros E Hk Ha Hi Hs. unfold recoverPending. destruct (launch_client_token r) as [[|c t]|] eqn:Et; [by split; [|exists [r0]]| |by split; [|exists [r0]]].
  case_match; [by split; [|exists [r0]]|]. rewrite E in Ha. apply ensures_bind, ensures_outcome.
  eapply ensures_mono; [apply (launch_keeps r (c :: t)); [done|by apply Hk|done]|]. intros w1 [e|[vm used]] (Ha1 & Ho).
  - destruct (hasCode e BOOT_FAILED); cbn [ensures]; [|by split; [|exists [Some r]]]. split; [|done]. split; [|by exists [Some r]].
    intros Hh j u Hou Hj Hb. destruct (Ho eq_refl Hh j u Hou Hj Hb); [done|by right].
  - destruct Ho as (Hne & Hsole & Hused). apply (clock_bind (leased (soleVm (microvmId vm))) [Some r]); [done..|].
    intros w2 Ha2 Hs2. set (r' := withLaunched cfg r vm used (clock w2)).
    assert (keyed (Some r')) as Hk' by (split; [apply Hk|intros k' Ek; by injection Ek as <-]).
    apply ensures_bind, ensures_recover.
    eapply ensures_mono; [apply (write_keeps (leased (soleVm (microvmId vm))) [Some r]); [by apply (writable_sole (microvmId vm))|done..]|].
    intros w3 [e|[]] [Hs3 Ha3]; cbn [ensures].
    + apply ensures_bind. eapply ensures_mono; [by apply (terminate_keeps (fun _ => True))|].
      intros w4 o (Ha4 & _ & _ & b & -> & _). cbn [ensures]. split; [done|]. by eexists.
    + split; [|done]. split; [|by eexists]. intros Hh. apply (names_sole (microvmId vm)); [done..|]. by apply Hs3.
Qed.

Lemma terminateRecorded_keeps r tok w :
  keyed (Some r) -> kept (leased (names r)) w ->
  ensures step accounted (terminateRecorded r tok) w (fun w' o =>
    match o with inr _ => kept (leased noVm) w' | inl _ => kept (fun _ => True) w' end).
Proof.
  intros Hk [Hn [L Ha]]. unfold terminateRecorded. destruct (microvm_id r) as [[|c i]|] eqn:Ei.
  1,3: split; [|by exists L]; intros Hh; apply (names_none r); [by rewrite Ei|by apply Hn].
  assert (leased (soleVm (c :: i)) w) as Hs by (intros Hh; apply (names_sole _ r); [done..|by apply Hn]).
  apply (clock_bind (leased (soleVm (c :: i))) L); [done..|]. clear w Hn Ha Hs. intros w Ha Hs. apply ensures_bind.
  eapply ensures_mono; [apply (write_keeps (leased (soleVm (c :: i))) L); [by apply (writable_sole (c :: i))|done..]|].
  intros w1 [e|[]] [Hs1 Ha1]; [by split; [|eexists]|]. apply ensures_bind.
  eapply ensures_mono; [by apply (terminate_keeps (fun _ => True))|]. intros w2 o (Ha2 & _ & Hs2 & b & -> & Hb).
  destruct b; [split; [by auto|by eexists]|]. eapply (clock_bind (leased (soleVm (c :: i)))); [done..|]. intros w3 Ha3 Hs3.
  apply ensures_bind. eapply ensures_mono; [eapply (write_keeps (leased (soleVm (c :: i)))); [by apply (writable_sole (c :: i))|done..]|].
  intros w4 [e|[]] [Hs4 Ha4]; (split; [done|by eexists]).
Qed.

(** What a stopped application's record says. *)
Definition stoppedAs (st : HostedAppPublicStatus) (w : world P) : Prop :=
  noVm w /\ p_state st = JStr (js "stopped")
  /\ exists r, stored w = Some r /\ state r = TERMINATED /\ microvm_id r = None /\ runtime_session_id r = rid /\ preview_id st = rid.

Lemma stop_keeps o tok w :
  account [r0] w -> ensures step accounted (stopLeased cfg rid o tok) w (fun w' out =>
    (exists L, account L w') /\ match out with inr st => leased (stoppedAs st) w' | inl _ => True end).
Proof.
  intros Ha. unfold stopLeased, readApp. apply ensures_bind, ensures_bind, ensures_awaited. intros reply w1 Hst.
  apply read_step in Hst as [Ha1 Hf]; [|done]. split; [by eapply account_accounted|].
  destruct reply as [e|x]; [by split; [eexists|]|]. destruct x as [r|]; [|by split; [eexists|]].
  destruct (hosted_app r) as [app|] eqn:Eapp; [|by split; [eexists|]]. cbn [ensures].
  destruct (held w1) eqn:Hh; [|apply unheld; [apply unheld_accounted|done|]; intros w' out Hx; split; [exists []; intros Hy; congruence|destruct out; [done|intros Hy; congruence]]].
  assert (r0 = Some r) as E by (symmetry; exact (Hf _ eq_refl Hh)). destruct (Ha1 Hh) as (_ & _ & Hks & _). rewrite E, Forall_singleton in Hks.
  unfold assertHostedAppOwned, raiseIf. case_match; [by split; [eexists|]|].
  apply (clock_bind (fun _ => True) [r0]); [done..|]. intros w2 Ha2 _. apply ensures_bind.
  apply (ensures_mono _ _ _ _ (fun w' o =>
    match o with inr r' => kept (leased (names r')) w' /\ keyed (Some r') | inl _ => kept (fun _ => True) w' end)).
  { destruct (couldStillBeLive cfg r (clock w2)) eqn:Ec.
    - pose proof Ec as Ec'. unfold couldStillBeLive in Ec'. bools. by apply recover_keeps.
    - split; [|done]. split; [|by exists [r0]]. intros Hh2. destruct (Ha2 Hh2) as (_ & _ & _ & Hc). rewrite E, Forall_singleton in Hc.
      by apply found_names. }
  intros w3 [e|r'] Ho; [by destruct Ho|]. destruct Ho as [Hkept Hk]. apply ensures_bind.
  eapply ensures_mono; [by apply terminateRecorded_keeps|]. intros w4 [e|[]] [Hn [L HL]]; [by split; [exists L|]|].
  apply (clock_bind (leased noVm) L); [done..|]. intros w5 Ha5 Hn5. apply ensures_bind.
  eapply ensures_mono; [apply (write_keeps (leased noVm) L); [by apply writable_none|done..]|].
  intros w6 [e|[]] [Hn6 Ha6]; [by split; [eexists|]|]. eapply (clock_bind (leased noVm)); [done..|]. intros w7 Ha7 Hn7.
  unfold hostedAppPublicStatus. case_match; cbn [ensures]; [|by split; [eexists|]]. split; [by eexists|]. intros Hh7.
  split; [by apply Hn7|]. split; [done|]. destruct (Ha7 Hh7) as (_ & Hs7 & _). apply list_elem_of_singleton in Hs7.
  eexists. split; [exact Hs7|]. repeat split; try done; apply Hk.
Qed.

(** *** Start *)

Section start.
Context (input : HostedAppStartInput) (tok : jstr) (Hrid : hostedAppRuntimeId input = rid).

(** The record is of the revision that was asked for, and of its owner. *)
Definition belongs (r : RuntimeRecord) : Prop :=
  tenant_id r = tenantId (owner input) /\ canonical_user_id r = canonicalUserId (owner input)
  /\ exists d, hosted_app r = Some d /\ source_runtime_session_id d = sourceRuntimeSessionId input
     /\ d_revision d = revision (spec input) /\ spec_fingerprint d = hostedAppSpecFingerprint (spec input).

Definition runningAs (st : HostedAppPublicStatus) (w : world P) : Prop :=
  exists r i, stored w = Some r /\ state r = RUNNING /\ microvm_id r = Some i /\ i <> [] /\ soleVm i w
    /\ runtime_session_id r = rid /\ belongs r /\ preview_id st = rid /\ p_revision st = revision (spec input).

Definition startOutcome (w : world P) (out : failure + HostedAppPublicStatus) : Prop :=
  (exists L, account L w) /\ match out with inr st => leased (runningAs st) w | inl _ => True end.

(** The last part of both ways to succeed. *)
Lemma persist_start i r vm L w :
  keyed (Some r) -> microvm_id r = Some i -> i <> [] -> belongs r -> account L w -> leased (soleVm i) w ->
  ensures step accounted (persistPreviewCredential cfg r vm tok ≫= publicStatusNow) w (fun w' out =>
    match out with inr st => startOutcome w' (inr st) | inl _ => kept (leased (soleVm i)) w' end).
Proof.
  intros Hk Hi Hn Hbel Ha Hs. apply ensures_bind. eapply ensures_mono; [by eapply (persist_keeps i)|].
  intros w1 [e|r'] Ho; [done|]. destruct Ho as (Hs1 & Ha1 & now & sealed & ex & ->). set (r' := withCredential _ _ _).
  apply (clock_bind (leased (soleVm i)) [Some r']); [done..|]. intros w2 Ha2 Hs2. unfold hostedAppPublicStatus.
  destruct Hbel as (Ht & Hu & d & Ed & Hd). assert (hosted_app r' = Some (Details (source_runtime_session_id d) (d_app_id d) (d_revision d)
    (spec_fingerprint d) (d_spec d) (checkpoint_key d) (Some sealed) ex)) as Er' by (unfold r'; cbn; by rewrite Ed).
  rewrite Er'. cbn [ensures]. split; [by eexists|]. intros Hh. destruct (Ha2 Hh) as (_ & Hst & _). apply list_elem_of_singleton in Hst.
  exists r', i. repeat split; try done; [by apply Hs2|apply Hk| |apply Hk|apply Hd].
  eexists. split; [exact Er'|]. exact Hd.
Qed.

Lemma serve_keeps i r vm key L w :
  keyed (Some r) -> microvm_id r = Some i -> i <> [] -> belongs r -> account L w -> leased (soleVm i) w ->
  ensures step accounted (serve cfg input tok r vm key) w (fun w' out =>
    match out with inr st => startOutcome w' (inr st) | inl _ => kept (leased (soleVm i)) w' end).
Proof.
  intros Hk Hi Hn Hbel Ha Hs. unfold serve. apply ensures_bind.
  eapply ensures_mono; [apply (write_keeps (leased (soleVm i)) L); [by apply (writable_sole i)|done..]|].
  intros w1 [e|[]] [Hs1 Ha1]; [by split; [|eexists]|]. apply ensures_bind.
  eapply ensures_mono; [by apply (calm_keeps (leased (soleVm i)) _ [Some r]); [auto with calm|..]|].
  intros w2 [e|[]] [Ha2 Hs2]; [by split; [|eexists]|]. apply ensures_bind.
  eapply ensures_mono; [by apply (calm_keeps (leased (soleVm i)) _ [Some r]); [by apply calm_awaited|..]|].
  intros w3 [e|x] [Ha3 Hs3]; [by split; [|eexists]|]. apply ensures_bind. destruct x; cbn [ensures]; try (by split; [|eexists]).
  apply ensures_bind. eapply ensures_mono; [by apply (calm_keeps (leased (soleVm i)) _ [Some r]); [auto with calm|..]|].
  intros w4 [e|[]] [Ha4 Hs4]; [by split; [|eexists]|]. apply (clock_bind (leased (soleVm i)) [Some r]); [done..|].
  intros w5 Ha5 Hs5. by apply (persist_start i _ _ [Some r]).
Qed.

Lemma abandon_keeps i r vm e w :
  keyed (Some r) -> microvmId vm = i -> i <> [] -> kept (leased (soleVm i)) w ->
  ensures step accounted (abandon tok r vm e) w startOutcome.
Proof.
  intros Hk Hi Hn [Hs [L Ha]]. unfold abandon. rewrite Hi. apply ensures_bind.
  eapply ensures_mono; [by apply (terminate_keeps (fun _ => True))|]. intros w1 o (Ha1 & _ & Hs1 & b & -> & Hb). destruct b.
  - eapply (clock_bind (leased noVm)); [done|by auto|]. intros w2 Ha2 Hn2. apply ensures_bind.
    eapply ensures_mono; [eapply (tryWrite_keeps (leased noVm)); [by apply writable_none|done..]|].
    intros w3 [x|[]] [Hn3 Ha3]; (split; [by eexists|done]).
  - eapply (clock_bind (leased (soleVm i))); [done..|]. intros w2 Ha2 Hs2. apply ensures_bind.
    eapply ensures_mono; [eapply (tryWrite_keeps (leased (soleVm i))); [by apply (writable_sole i)|done..]|].
    intros w3 [x|[]] [Hn3 Ha3]; (split; [by eexists|done]).
Qed.

Lemma intended_keeps r k key w :
  intends r k -> keyed (Some r) -> belongs r -> account [Some r] w ->
  ensures step accounted (launchIntended cfg input tok r k key) w startOutcome.
Proof.
  intros Hi Hk Hbel Ha. unfold launchIntended. apply ensures_bind, ensures_outcome.
  eapply ensures_mono; [apply (launch_keeps r k); [done|by eapply intent_keyed|done]|]. intros w1 [e|[vm used]] (Ha1 & Ho).
  - destruct (hasCode e BOOT_FAILED); cbn [ensures]; [|by split; [eexists|]]. apply ensures_bind.
    apply (clock_bind (leased noVm) [Some r]); [done|by auto|]. intros w2 Ha2 Hn2.
    eapply ensures_mono; [eapply (tryWrite_keeps (leased noVm)); [by apply writable_none|done..]|].
    intros w3 [x|[]] [Hn3 Ha3]; (split; [by eexists|done]).
  - destruct Ho as (Hne & Hsole & Hused). apply (clock_bind (leased (soleVm (microvmId vm))) [Some r]); [done..|].
    intros w2 Ha2 Hs2. set (r' := withLaunched cfg r vm used (clock w2)).
    assert (keyed (Some r')) as Hk' by (split; [apply Hk|intros k' Ek; by injection Ek as <-]).
    apply ensures_recover. eapply ensures_mono; [by apply (serve_keeps (microvmId vm) r' vm key [Some r])|].
    intros w3 [e|st] Ho; [|done]. by apply (abandon_keeps (microvmId vm)).
Qed.

#[local] Instance durable_covered r : Durable (leased (fun w => coveredBy w (Some r))).
Proof.
  split.
  - intros w w' Hd Hs Hh. eapply everyVm_drift; [done..| |]; [by apply Hs, (drift_held _ _ Hd)|]. intros i t. by apply covered_drift.
  - intros w w' Ev Ec Eh Hs Hh i t. rewrite Ev, Ec. apply Hs. congruence.
Qed.

Lemma intent_belongs gen k key t1 t2 now : belongs (launchIntentOf cfg input gen k key t1 t2 now).
Proof. split; [done|]. split; [done|]. by eexists. Qed.

(** Write the intent, then launch. *)
Lemma intent_keeps F `{!Durable F} L gen k key t1 t2 w :
  ours k = true ->
  (forall now, writable F (launchIntentOf cfg input gen k key t1 t2 now)) -> account L w -> F w ->
  ensures step accounted (now ← call Clock; writeOrFence (launchIntentOf cfg input gen k key t1 t2 now) tok;;
    launchIntended cfg input tok (launchIntentOf cfg input gen k key t1 t2 now) k key) w startOutcome.
Proof.
  intros Hk HF Ha Hf. apply (clock_bind F L); [done..|]. intros w1 Ha1 Hf1. apply ensures_bind.
  eapply ensures_mono; [by apply (write_keeps F L)|]. intros w2 [e|[]] [Hf2 Ha2]; [by split; [eexists|]|].
  apply intended_keeps; [done| |apply intent_belongs|done]. split; [done|]. intros k' E. by injection E as <-.
Qed.

Lemma clientToken_ours gen w (Q : world P -> failure + jstr -> Prop) :
  (forall e, Q w (inl e)) -> (forall k, ours k = true -> Q w (inr k)) ->
  ensures step accounted (hostedAppLaunchClientToken (hostedAppRuntimeId input) gen) w Q.
Proof.
  intros He Hk. unfold hostedAppLaunchClientToken. apply ensures_bind. unfold raiseIf at 1. destruct (_ || _); [apply He|].
  cbn [ensures]. apply ensures_bind. unfold raiseIf. destruct (_ <? _)%nat; [apply He|]. apply Hk. rewrite Hrid.
  unfold HostedWorld.ours, startsWith. apply bool_decide_eq_true_2. rewrite !app_assoc. apply take_app_length.
Qed.

Lemma launchNew_keeps key L w : account L w -> leased noVm w -> ensures step accounted (launchNew cfg input tok key None) w startOutcome.
Proof.
  intros Ha Hn. unfold launchNew. apply ensures_bind.
  eapply ensures_mono; [by apply (calm_keeps (leased noVm) _ L); [by apply calm_awaited|..]|]. clear w Ha Hn.
  intros w [e|gen] [Ha Hn]; [by split; [eexists|]|]. apply ensures_bind, clientToken_ours; [by split; [eexists|]|]. intros k Hk.
  cbn [keptTime]. apply (clock_bind (leased noVm) L); [done..|]. intros w1 Ha1 Hn1. apply ensures_bind. cbn [ensures].
  apply (intent_keeps (leased noVm) L); [done| |done|done]. intros now. apply writable_none. split; [done|]. intros k' E. by injection E as <-.
Qed.

Lemma kept_time t (m : hosted Z) : keptTime t m = m \/ exists z, keptTime t m = Pure z.
Proof. destruct t as [z|]; cbn [keptTime]; [case_match; [by left|right; by eexists]|by left]. Qed.

Lemma replay_keeps p k key w :
  intends p k -> k <> [] -> ours k = true -> account [Some p] w ->
  ensures step accounted (launchNew cfg input tok key (Some p)) w startOutcome.
Proof.
  intros Hi Hne Hk Ha. unfold launchNew. cbn [mbind option_bind]. destruct Hi as (I1 & I2 & I3). rewrite I3.
  destruct k as [|c k]; [done|]. apply ensures_bind. cbn [ensures]. apply ensures_bind. cbn [ensures].
  assert (forall t1 t2 now, writable (leased (fun w => coveredBy w (Some p))) (launchIntentOf cfg input (generation p) (c :: k) key t1 t2 now)) as Hw.
  { intros t1 t2 now w' Hc Hh. split; [split; [done|]; intros k' E; by injection E as <-|]. intros i t Ho Hj Hb.
    destruct (Hc Hh i t Ho Hj Hb) as [[[E Hn]|(_ & _ & k' & E & Ht)]|]; [rewrite E in I1; by destruct i| |by right].
    left. right. rewrite I3 in E. injection E as <-. by eauto 7. }
  assert (leased (fun w => coveredBy w (Some p)) w) as Hc.
  { intros Hh. destruct (Ha Hh) as (_ & _ & _ & Hc). by rewrite Forall_singleton in Hc. }
  set (F := leased (fun w => coveredBy w (Some p))) in *.
  assert (forall launchedAt w, account [Some p] w -> F w ->
    ensures step accounted (hardDeadlineAt ← keptTime (hard_deadline_at p)
        (Pure (launchedAt + maximumDurationSeconds (runtimeConfig cfg) * 1000 - HOSTED_APP_DEADLINE_HEADROOM_MS)%Z);
      now ← call Clock; writeOrFence (launchIntentOf cfg input (generation p) (c :: k) key launchedAt hardDeadlineAt now) tok;;
      launchIntended cfg input tok (launchIntentOf cfg input (generation p) (c :: k) key launchedAt hardDeadlineAt now) (c :: k) key) w startOutcome) as Hrest.
  { intros la w' Ha' Hc'. apply ensures_bind.
    destruct (kept_time (hard_deadline_at p) (Pure (la + maximumDurationSeconds (runtimeConfig cfg) * 1000 - HOSTED_APP_DEADLINE_HEADROOM_MS)%Z)) as [->|[z ->]];
      cbn [ensures]; by apply (intent_keeps F [Some p]). }
  destruct (kept_time (launched_at p) (call Clock)) as [->|[z ->]]; [|exact (Hrest z w Ha Hc)].
  apply (clock_bind F [Some p]); [done..|]. intros w1 Ha1 Hc1. exact (Hrest _ w1 Ha1 Hc1).
Qed.

Lemma retire_keeps p L w :
  keyed (Some p) -> account L w -> leased (names p) w ->
  ensures step accounted (retire tok (Some p)) w (fun w' o =>
    match o with inr _ => kept (leased noVm) w' | inl _ => kept (fun _ => True) w' end).
Proof.
  intros Hk Ha Hn. unfold retire. destruct (microvm_id p) as [[|c i]|] eqn:Ei.
  1,3: split; [|by exists L]; intros Hh; apply (names_none p); [by rewrite Ei|by apply Hn].
  assert (leased (soleVm (c :: i)) w) as Hs by (intros Hh; apply (names_sole _ p); [done..|by apply Hn]).
  apply (clock_bind (leased (soleVm (c :: i))) L); [done..|]. clear w Hn Ha Hs. intros w Ha Hs. apply ensures_bind.
  eapply ensures_mono; [apply (write_keeps (leased (soleVm (c :: i))) L); [by apply (writable_sole (c :: i))|done..]|].
  intros w1 [e|[]] [Hs1 Ha1]; [by split; [|eexists]|]. apply ensures_bind.
  eapply ensures_mono; [by apply (terminate_keeps (fun _ => True))|]. intros w2 o (Ha2 & _ & Hs2 & b & -> & Hb).
  destruct b; (split; [by auto|by eexists]).
Qed.

Lemma calm_assertRevision v : calm (assertRevision input v).
Proof. unfold assertRevision. calm_auto. Qed.
#[local] Hint Resolve calm_assertRevision : calm.
Lemma calm_retain key : calm (retain input key).
Proof. unfold retain. calm_auto. Qed.
#[local] Hint Resolve calm_retain : calm.

(** What is known of the record that is replaced: it is the one that was found, or its
    MicroVM was retired. *)
Definition replaceable (prior : option RuntimeRecord) (L : list (option RuntimeRecord)) (w : world P) : Prop :=
  match prior with
  | None => leased noVm w
  | Some p => keyed (Some p) /\ ((r0 = Some p /\ L = [r0]) \/ (leased (names p) w /\ state p = TERMINATED))
  end.
#[local] Instance durable_replaceable prior L : Durable (replaceable prior L).
Proof.
  destruct prior as [p|]; [|apply durable_noVm].
  split; [intros w w' Hd [Hk [?|[Hn Hs]]]|intros w w' E1 E2 E3 [Hk [?|[Hn Hs]]]]; (split; [done|]); try (by left); right; (split; [|done]).
  - by eapply durable_drift.
  - by eapply durable_fleet; [exact E1|..].
Qed.

(** The part of [replace] after its checks. *)
Lemma replaced_keeps {A} F `{!Durable F} (m : hosted A) (next : A -> hosted HostedAppPublicStatus) L w :
  calm m -> account L w -> F w ->
  (forall a w', account L w' -> F w' -> ensures step accounted (next a) w' startOutcome) ->
  ensures step accounted (m ≫= next) w startOutcome.
Proof.
  intros Hm Ha Hf Hn. apply ensures_bind. eapply ensures_mono; [by apply (calm_keeps F _ L)|].
  intros w1 [e|a] [Ha1 Hf1]; [by split; [eexists|]|by apply Hn].
Qed.

Lemma replace_keeps rev prior L w :
  account L w -> replaceable prior L w -> ensures step accounted (replace cfg input tok rev prior) w startOutcome.
Proof.
  intros Ha Hp. unfold replace. apply (clock_bind (replaceable prior L) L); [done..|]. clear w Ha Hp. intros w Ha Hp.
  apply (clock_bind (replaceable prior L) L); [done..|]. intros w1 Ha1 Hp1. apply ensures_bind. unfold raiseIf at 1.
  destruct prior as [p|].
  2: { cbn [andb ensures]. apply (replaced_keeps (leased noVm) _ _ L); [destruct rev; calm_auto|done..|]. intros v w2 Ha2 Hn2.
    apply (replaced_keeps (leased noVm) _ _ L); [auto with calm|done..|]. intros _ w3 Ha3 Hn3. by apply (launchNew_keeps _ L). }
  destruct Hp1 as [Hk Hp1]. destruct (replayable cfg input p (clock w)) eqn:Er.
  - rewrite andb_false_r. cbn [ensures]. unfold replayable in Er. bools. destruct (microvm_id p) as [[|c i]|] eqn:Ei; try done.
    all: destruct (launch_client_token p) as [[|ck kk]|] eqn:Ek; try done; destruct Hp1 as [[E0 ->]|[_ Ht]]; [|congruence].
    all: apply (replaced_keeps (fun _ => True) _ _ [r0]); [destruct rev; calm_auto|done..|]; intros v w2 Ha2 _.
    all: apply (replaced_keeps (fun _ => True) _ _ [r0]); [auto with calm|done..|]; intros _ w3 Ha3 _.
    all: unfold retire; rewrite Ei; rewrite E0 in Ha3; apply (replay_keeps p (ck :: kk)); [split; [by rewrite Ei|by split]|done|by apply Hk|done].
  - cbn [negb]. rewrite andb_true_r. destruct (couldStillBeLive cfg p (clock w1)) eqn:Ec; cbn [ensures]; [by split; [eexists|]|].
    assert (leased (names p) w1) as Hn1.
    { destruct Hp1 as [[E0 ->]|[Hn _]]; [|done]. intros Hh. destruct (Ha1 Hh) as (_ & _ & _ & Hc). rewrite E0, Forall_singleton in Hc.
      by apply found_names. }
    apply (replaced_keeps (leased (names p)) _ _ L); [destruct rev; calm_auto|done..|]. intros v w2 Ha2 Hn2.
    apply (replaced_keeps (leased (names p)) _ _ L); [auto with calm|done..|]. intros _ w3 Ha3 Hn3. apply ensures_bind.
    eapply ensures_mono; [by apply (retire_keeps p L)|]. intros w4 [e|x] [Hn4 [L' Ha4]]; [by split; [eexists|]|].
    by apply (launchNew_keeps _ L').
Qed.

(** A MicroVM that was brought back is unchanged; one that was not is retired. *)
Lemma reassert_keeps p i w :
  r0 = Some p -> keyed (Some p) -> microvm_id p = Some i -> i <> [] -> account [r0] w ->
  ensures step accounted (reassert cfg input tok p) w (fun w' o =>
    match o with
    | inr p' => (p' = p /\ account [r0] w') \/ (state p' = TERMINATED /\ exists L, account L w' /\ replaceable (Some p') L w')
    | inl _ => kept (fun _ => True) w'
    end).
Proof.
  intros E0 Hk Hi Hne Ha. unfold reassert. assert (leased (soleVm i) w) as Hs.
  { intros Hh. destruct (Ha Hh) as (_ & _ & _ & Hc). rewrite E0, Forall_singleton in Hc. by apply (covers_sole i p). }
  apply ensures_bind, ensures_outcome. eapply ensures_mono.
  { apply (calm_keeps (leased (soleVm i)) _ [r0]); [|done..]. apply calm_bind; [auto with calm|intros _; auto with calm]. }
  clear w Ha Hs. intros w [e|[]] [Ha Hs]; [|by left]. case_match; [by split; [|exists [r0]]|].
  apply (clock_bind (leased (soleVm i)) [r0]); [done..|]. clear w Ha Hs. intros w Ha Hs. apply ensures_bind.
  eapply ensures_mono; [apply (write_keeps (leased (soleVm i)) [r0]); [by apply (writable_sole i)|done..]|].
  intros w1 [x|[]] [Hs1 Ha1]; [by split; [|eexists]|]. cbn [recordedVm microvmId]. rewrite Hi. cbn [default]. apply ensures_bind.
  eapply ensures_mono; [by apply (terminate_keeps (fun _ => True))|]. intros w2 o (Ha2 & _ & _ & b & -> & Hb).
  destruct b; cbn [negb]; [|by split; [|eexists]]. eapply (clock_bind (leased noVm)); [done|by auto|]. intros w3 Ha3 Hn3.
  right. split; [done|]. eexists. split; [exact Ha3|]. split; [done|]. right. split; [|done].
  intros Hh j t Ho Hj Hb'. destruct (Hn3 Hh j t Ho Hj Hb'); [done|by right].
Qed.

Lemma start_keeps w : account [r0] w -> ensures step accounted (startLeased cfg input tok) w startOutcome.
Proof.
  intros Ha. unfold startLeased. apply (replaced_keeps (fun _ => True) _ _ [r0]); [by apply calm_awaited|done..|].
  clear w Ha. intros rev w Ha _. apply (replaced_keeps (fun _ => True) _ _ [r0]); [destruct rev; calm_auto|done..|].
  clear w Ha. intros _ w Ha _. rewrite Hrid. apply ensures_bind, ensures_awaited. intros reply w1 Hst.
  apply read_step in Hst as [Ha1 Hf]; [|done]. split; [by eapply account_accounted|].
  destruct reply as [e|prior]; [by split; [eexists|]|].
  destruct (held w1) eqn:Hh; [|apply unheld; [apply unheld_accounted|done|]; intros w' out Hx; split; [exists []; intros Hy; congruence|destruct out; [done|intros Hy; congruence]]].
  assert (r0 = prior) as E0 by (symmetry; exact (Hf _ eq_refl Hh)). destruct (Ha1 Hh) as (_ & _ & Hks & Hc1).
  rewrite E0 in Hks, Hc1. rewrite Forall_singleton in Hks, Hc1. clear Hf Ha.
  destruct prior as [p|].
  2: { apply ensures_bind. cbn [ensures]. assert (leased noVm w1) as Hn1 by (intros _ j t Ho Hj Hb; destruct (Hc1 j t Ho Hj Hb); [done|by right]).
    apply (replaced_keeps (leased noVm) _ _ [r0]); [destruct rev; calm_auto|done..|]. intros rev' w2 Ha2 Hn2.
    apply (clock_bind (leased noVm) [r0]); [done..|]. intros w3 Ha3 Hn3. by apply (replace_keeps _ None [r0]). }
  apply ensures_bind. unfold assertHostedAppOwned. apply ensures_bind. unfold raiseIf at 1.
  destruct (ownedBy p (owner input) (Some (sourceRuntimeSessionId input))) eqn:Eown; cbn [negb ensures]; [|by split; [eexists|]].
  unfold raiseIf. destruct (sameRevision input p && negb (sameSpec input p)); cbn [ensures]; [by split; [eexists|]|].
  apply (replaced_keeps (fun _ => True) _ _ [r0]); [destruct rev, (hosted_app p); cbn; try case_match; calm_auto|done..|].
  intros rev' w2 Ha2 _. apply (clock_bind (fun _ => True) [r0]); [done..|]. intros w3 Ha3 _.
  destruct (reassertable cfg input p (clock w3)) eqn:Ere; [|apply (replace_keeps _ _ [r0]); [done|]; split; [done|by left]].
  unfold reassertable, exactRevision, sameRevision, sameSpec, ownedBy in *. bools.
  destruct (microvm_id p) as [[|c i]|] eqn:Ei; try done. apply ensures_bind.
  eapply ensures_mono; [by apply (reassert_keeps p (c :: i))|]. intros w4 [e|p'] Ho; [by destruct Ho|].
  destruct Ho as [[-> Ha4]|[Et (L & Ha4 & Hr)]]; [|rewrite Et; rewrite bool_decide_eq_false_2 by done; by apply (replace_keeps _ _ L)].
  rewrite bool_decide_eq_true_2 by done. assert (belongs p) as Hbel.
  { split; [done|]. split; [done|]. destruct (hosted_app p) as [d|]; [|done]. cbn in *. simplify_eq. by exists d. }
  eapply ensures_mono; [apply (persist_start (c :: i) p _ [r0]); try done|by intros w5 [e|st] Ho; [destruct Ho|]].
  intros Hh4. destruct (Ha4 Hh4) as (_ & _ & _ & Hc). rewrite E0, Forall_singleton in Hc. by apply (covers_sole _ p).
Qed.
End start.

(** *** Status and preview *)

Lemma status_calm o : calm (statusLeased cfg rid o).
Proof.
  unfold statusLeased, readApp. apply calm_bind; [apply calm_bind; [by apply calm_awaited|intros [r|]; [case_match|]; done]|].
  intros [r app]. unfold assertHostedAppOwned. calm_auto.
Qed.

Lemma refresh_keeps o tok w : account [r0] w -> ensures step accounted (refreshPreviewLeased cfg rid o tok) w (fun w' _ => exists L, account L w').
Proof.
  intros Ha. unfold refreshPreviewLeased, readApp. apply ensures_bind, ensures_bind, ensures_awaited. intros reply w1 Hst.
  apply read_step in Hst as [Ha1 Hf]; [|done]. split; [by eapply account_accounted|].
  destruct reply as [e|[r|]]; [by eexists| |by eexists]. destruct (hosted_app r) as [app|]; [|by eexists]. cbn [ensures].
  destruct (held w1) eqn:Hh; [|apply unheld; [apply unheld_accounted|done|]; intros w' out Hx; exists []; intros Hy; congruence].
  assert (r0 = Some r) as E by (symmetry; exact (Hf _ eq_refl Hh)). destruct (Ha1 Hh) as (_ & _ & Hks & Hc). rewrite E in Hks, Hc.
  rewrite Forall_singleton in Hks, Hc. unfold assertHostedAppOwned. apply ensures_bind. unfold raiseIf at 1. case_match; cbn [ensures]; [by eexists|].
  destruct (microvm_id r) as [[|c i]|] eqn:Ei.
  1,3: apply (clock_bind (fun _ => True) [r0]); [done..|]; intros w2 Ha2 _; unfold raiseIf; cbn [nonEmpty negb]; rewrite orb_true_r; by eexists.
  apply (clock_bind (leased (soleVm (c :: i))) [r0]); [done|intros _; by apply (covers_sole _ r)|]. intros w2 Ha2 Hs2.
  apply ensures_bind. unfold raiseIf. case_match; cbn [ensures]; [by eexists|]. apply ensures_bind.
  eapply ensures_mono; [by apply (persist_keeps (c :: i) r _ _ [r0])|]. intros w3 [e|r'] Ho; [by destruct Ho|].
  destruct Ho as (Hs3 & Ha3 & _). eapply ensures_mono; [by apply (calm_keeps (fun _ => True) _ [Some r']); [auto with calm|..]|].
  intros w4 x [Ha4 _]. by eexists.
Qed.
End control.
End account.

(** ** The operations under a lease *)

Inductive appOperation := OpStatus (o : HostedAppOwner) | OpStart (input : HostedAppStartInput) | OpStop (o : HostedAppOwner) | OpRefreshPreview (o : HostedAppOwner).

Section operations.
Context `{Platform} `{Runtime} `{!Utf8} `{Aead} `{Collation} (cfg : controlPlaneConfig) (rid : jstr).

Definition leasedOperation (op : appOperation) (tok : jstr) : hosted HostedAppPublicStatus :=
  match op with
  | OpStatus o => statusLeased cfg rid o
  | OpStart input => startLeased cfg input tok
  | OpStop o => stopLeased cfg rid o tok
  | OpRefreshPreview o => refreshPreviewLeased cfg rid o tok
  end.

Definition aboutApp (op : appOperation) : Prop := match op with OpStart input => hostedAppRuntimeId input = rid | _ => True end.

Context {P : Type} `{MicrovmProvider P}.

(** The record accounts for every running MicroVM of the application. *)
Definition accountsFor (w : world P) : Prop :=
  tokensOnce rid w /\ keyed rid (stored w)
  /\ forall i t, ours rid t = true -> i ∈ alive (vms w) -> born (vms w) !! i = Some t -> covered (vms w) (stored w) i t.

Lemma accounts_account w : accountsFor w -> account cfg rid (stored w) [stored w] w.
Proof.
  intros (Ht & Hk & Hc) _. split; [done|]. split; [by left|]. split; apply Forall_singleton; [done|]. intros i t Ho Hi Hb. left. by apply Hc.
Qed.

Lemma operation_keeps op tok w :
  aboutApp op -> accountsFor w ->
  ensures (step rid) (accounted cfg rid (stored w)) (leasedOperation op tok) w (fun w' _ => True).
Proof.
  intros Hop Ha. apply accounts_account in Ha. destruct op; cbn [leasedOperation].
  - eapply ensures_mono; [apply (ensures_calm rid _ (account cfg rid (stored w) [stored w])); [|..|apply status_calm|exact Ha]|done].
    + intros w1. apply account_accounted.
    + intros w1 w2. apply account_drift.
  - eapply ensures_mono; [by apply start_keeps|done].
  - eapply ensures_mono; [by apply stop_keeps|done].
  - eapply ensures_mono; [by apply refresh_keeps|done].
Qed.

(** (C18) No operation of the control plane loses a MicroVM. Take a replica that holds
    the lease of an application whose record accounts for all its running MicroVMs, and
    any operation on it. At every point of the run, where the replica may crash, while
    the lease is held: each running MicroVM of the application is named by the record, or
    replaying the launch that the record intends finds it; the exception is the MicroVM
    of a launch intent that the operation found already past the time in which the code
    takes it to be over. *)
Theorem hosted_vm_accounted op tok w w' :
  aboutApp op -> accountsFor w -> visits (step rid) w (leasedOperation op tok) w' -> held w' = true ->
  tokensOnce rid w' /\ keyed rid (stored w')
  /\ forall i t, ours rid t = true -> i ∈ alive (vms w') -> born (vms w') !! i = Some t ->
       covered (vms w') (stored w') i t \/ lapsed cfg (stored w) (clock w') t.
Proof.
  intros Hop Ha Hv Hh. pose proof (account_accounted _ _ _ _ _ (accounts_account _ Ha)) as Hi.
  destruct (ensures_visits _ _ _ _ _ Hv _ Hi (operation_keeps op tok w Hop Ha) Hh) as (Ht & _ & Hk & Hc).
  rewrite Forall_singleton in Hk, Hc. done.
Qed.

(** (C19) A stop that succeeds leaves nothing running. When it returns while the lease is
    held, no MicroVM of the application runs (but one of a launch whose time was over
    when the operation began), the record is terminated and names none, and the status
    says stopped. *)
Theorem hosted_stop_complete o tok w w' st :
  accountsFor w -> runs (step rid) w (stopLeased cfg rid o tok) w' (inr st) -> held w' = true ->
  stoppedAs cfg rid (stored w) st w'.
Proof.
  intros Ha Hr Hh. apply accounts_account in Ha. pose proof (account_accounted _ _ _ _ _ Ha) as Hi.
  destruct (ensures_runs _ _ _ _ _ _ Hr _ Hi (stop_keeps cfg rid _ o tok w Ha)) as [_ [_ Ho]]. by apply Ho.
Qed.

(** (C20) A start that succeeds serves what was asked for. When it returns while the lease
    is held, the record is running, belongs to the caller and to the revision and the
    specification of the request, and names the only running MicroVM of the application
    (but one of a launch whose time was over when the operation began). *)
Theorem hosted_start_serves input tok w w' st :
  hostedAppRuntimeId input = rid -> accountsFor w -> runs (step rid) w (startLeased cfg input tok) w' (inr st) -> held w' = true ->
  runningAs cfg rid (stored w) input st w'.
Proof.
  intros Hrid Ha Hr Hh. apply accounts_account in Ha. pose proof (account_accounted _ _ _ _ _ Ha) as Hi.
  destruct (ensures_runs _ _ _ _ _ _ Hr _ Hi (start_keeps cfg rid _ input tok Hrid w Ha)) as [_ [_ Ho]]. by apply Ho.
Qed.

(** *** Callers who do not own the application *)

Definition isOwner (r : RuntimeRecord) (o : HostedAppOwner) : Prop := tenant_id r = tenantId o /\ canonical_user_id r = canonicalUserId o.

(** A start also names the session whose workspace the application was made from. *)
Definition mayOperate (op : appOperation) (r : RuntimeRecord) : Prop :=
  match op with
  | OpStart input => isOwner r (owner input) /\ exists d, hosted_app r = Some d /\ source_runtime_session_id d = sourceRuntimeSessionId input
  | OpStatus o | OpStop o | OpRefreshPreview o => isOwner r o
  end.

Lemma owned_isOwner r o src : ownedBy r o src = true ->
  isOwner r o /\ match src with Some s => exists d, hosted_app r = Some d /\ source_runtime_session_id d = s | None => True end.
Proof.
  unfold ownedBy. intros Ho. bools. split; [by split|]. destruct src as [s|]; [|done]. bools.
  destruct (hosted_app r) as [d|]; [|done]. cbn in *. simplify_eq. by exists d.
Qed.

(** The record is the same, and no MicroVM was made. *)
Definition untouched (w0 w : world P) : Prop :=
  stored w = stored w0 /\ forall i t, ours rid t = true -> born (vms w) !! i = Some t -> born (vms w0) !! i = Some t.

Section foreign.
Context (w0 : world P) (r : RuntimeRecord) (Hstored : stored w0 = Some r).
Abbreviation Inv := (leased (untouched w0)).

Lemma untouched_drift w w' : drift rid w w' -> Inv w -> Inv w'.
Proof.
  intros [_ Hd] Hu Hh. destruct (Hd Hh) as (Hh0 & Es & _ & _ & O). destruct (Hu Hh0) as [Es0 Hb]. split; [congruence|].
  intros i t Ho Hi. apply Hb; [done|]. by apply O.
Qed.

Lemma unheld_untouched w : held w = false -> Inv w.
Proof. intros Hh Hx. congruence. Qed.

Definition refused {A} (w : world P) (o : failure + A) : Prop := Inv w /\ leased (fun _ => exists e, o = inl e) w.

Lemma calm_untouched {A} (m : hosted A) w : calm m -> Inv w -> ensures (step rid) Inv m w (fun w' _ => Inv w').
Proof. intros Hm Hi. apply (ensures_calm rid Inv Inv); [done|apply untouched_drift|done|done]. Qed.

Lemma raise_refused {A} e w : Inv w -> @refused A w (inl e).
Proof. intros Hi. split; [done|]. intros _. by eexists. Qed.

Lemma refused_unheld {A} w (o : failure + A) : held w = false -> refused w o.
Proof. intros Hh. split; [by apply unheld_untouched|]. intros Hy. congruence. Qed.

Lemma unheld_refused {A} (m : hosted A) w : held w = false -> ensures (step rid) Inv m w refused.
Proof.
  intros Hh. apply unheld; [apply unheld_untouched|done|]. intros w' o. apply refused_unheld.
Qed.

(** Who reads the record reads that of the other owner. *)
Lemma read_foreign {A} (k : option RuntimeRecord -> hosted A) w (Q : world P -> failure + A -> Prop) :
  Inv w -> (forall w' e, Inv w' -> Q w' (inl e)) -> (forall w' o, held w' = false -> Q w' o) ->
  (forall w', Inv w' -> ensures (step rid) Inv (k (Some r)) w' Q) ->
  ensures (step rid) Inv (awaited (ReadRecord rid) ≫= k) w Q.
Proof.
  intros Hi He Hu Hk. apply ensures_bind, ensures_awaited. intros reply w1 (w2 & Hd & -> & Hr). pose proof (untouched_drift _ _ Hd Hi) as Hi2.
  split; [done|]. destruct reply as [e|x]; [by apply He|]. destruct (held w2) eqn:Hh.
  - destruct (Hr eq_refl eq_refl) as [E|[e E]]; [|done]. injection E as ->. destruct (Hi2 Hh) as [-> _]. rewrite Hstored. by apply Hk.
  - by apply unheld; [apply unheld_untouched|..].
Qed.

Lemma app_refused {A} missing o (k : RuntimeRecord * HostedAppRecordDetails -> hosted A) k' w :
  ownedBy r o None = false -> Inv w -> (forall app, k (r, app) = (assertHostedAppOwned r o None ≫= k' app)) ->
  ensures (step rid) Inv (readApp rid missing ≫= k) w refused.
Proof.
  intros Ho Hi Hk. unfold readApp. apply ensures_bind, read_foreign; [done|intros; by apply raise_refused|..].
  - intros w' [e|a] Hh; [by apply refused_unheld|by apply unheld_refused].
  - intros w' Hi'. destruct (hosted_app r) as [app|]; cbn [ensures]; [|by apply raise_refused]. rewrite Hk.
    unfold assertHostedAppOwned. rewrite Ho. by apply raise_refused.
Qed.

Lemma start_refused input tok w :
  hostedAppRuntimeId input = rid -> ownedBy r (owner input) (Some (sourceRuntimeSessionId input)) = false -> Inv w ->
  ensures (step rid) Inv (startLeased cfg input tok) w refused.
Proof.
  intros Hrid Ho Hi. unfold startLeased. apply ensures_bind.
  eapply ensures_mono; [by apply calm_untouched; [by apply calm_awaited|]|]. clear w Hi. intros w [e|rev] Hi; [by apply raise_refused|].
  apply ensures_bind. eapply ensures_mono; [apply calm_untouched; [destruct rev; [apply calm_assertRevision|done]|done]|].
  clear w Hi. intros w [e|[]] Hi; [by apply raise_refused|]. rewrite Hrid.
  apply read_foreign; [done|intros; by apply raise_refused|intros; by apply refused_unheld|].
  clear w Hi. intros w Hi. apply ensures_bind. unfold assertHostedAppOwned. rewrite Ho. by apply raise_refused.
Qed.

Lemma operation_refused op tok w : aboutApp op -> ~ mayOperate op r -> Inv w -> ensures (step rid) Inv (leasedOperation op tok) w refused.
Proof.
  intros Hop Ho Hi. destruct op as [o|input|o|o]; cbn [leasedOperation mayOperate] in *.
  2: { apply start_refused; [done| |done]. apply not_true_iff_false. intros [Ho1 Ho2]%owned_isOwner. by apply Ho. }
  all: assert (ownedBy r o None = false) by (apply not_true_iff_false; intros [Ho1 _]%owned_isOwner; by apply Ho).
  all: unfold statusLeased, stopLeased, refreshPreviewLeased; by eapply (app_refused _ _ _ (fun app _ => _)).
Qed.
End foreign.

(** (C21) Nothing happens for a caller who does not own the application. While the lease
    is held, no operation of theirs changes the record or makes a MicroVM, at any point
    of its run, and it ends in an error. *)
Theorem hosted_foreign_refused op tok w r :
  aboutApp op -> stored w = Some r -> ~ mayOperate op r ->
  (forall w', visits (step rid) w (leasedOperation op tok) w' -> held w' = true -> untouched w w')
  /\ (forall w' o, runs (step rid) w (leasedOperation op tok) w' o -> held w' = true -> exists e, o = inl e).
Proof.
  intros Hop Hs Ho. assert (leased (untouched w) w) as Hi by by intros _.
  pose proof (operation_refused w r Hs op tok w Hop Ho Hi) as He. split.
  - intros w' Hv Hh. exact (ensures_visits _ _ _ _ _ Hv _ Hi He Hh).
  - intros w' o Hr Hh. destruct (ensures_runs _ _ _ _ _ _ Hr _ Hi He) as [_ [_ Hx]]. by apply Hx.
Qed.
End operations.

(** ** Examples *)

#[local] Instance example_platform : Platform := {|
  toLowerCase s := s; stripIgnorable s := s; hasControl _ := false; sha256hex _ := repeat 48%Z 64 |}.
#[local] Instance example_collation : Collation := {| localeLe a b := negb (lex b a) |}.

Definition app_rid : jstr := js "happ_1".
Definition app_owner : HostedAppOwner := AppOwner (js "tenant") (js "user").
Definition app_spec : ResidentHostedAppSpec :=
  ResidentSpec (js "app") (js "r1") (js "python") (js "3") (js "main.py") (js ".") [] [].
Definition app_config : controlPlaneConfig :=
  ControlConfig (MicrovmConfig (js "arn") (js "1") None None None 8080 9000 3600 600 600 900 60000 5000 60000 5 50)
    (repeat 7%Z 32) 1000 30000.
Definition app_input : HostedAppStartInput := StartInput app_rid app_owner (js "rt_1") app_spec.

Definition fresh_world : world fleet := World (Fleet ∅ ∅) None 1000000 true.

(** The outcome of a played run, and the run itself. *)
Definition worldOf (p : option (world fleet * (failure + HostedAppPublicStatus))) : world fleet :=
  match p with Some (w, _) => w | None => fresh_world end.
Definition statusOf (p : option (world fleet * (failure + HostedAppPublicStatus))) : HostedAppPublicStatus :=
  match p with Some (_, inr st) => st | _ => PublicStatus [] [] JNull [] None 0 None end.
Definition succeeds (p : option (world fleet * (failure + HostedAppPublicStatus))) : bool :=
  match p with Some (_, inr _) => true | _ => false end.

Lemma played_runs fuel m w : succeeds (play app_rid fuel m w) = true ->
  runs (step app_rid) w m (worldOf (play app_rid fuel m w)) (inr (statusOf (play app_rid fuel m w))).
Proof. destruct (play app_rid fuel m w) as [[w' [e|st]]|] eqn:E; [done|intros _|done]. by apply play_runs in E. Qed.

Definition started : option (world fleet * (failure + HostedAppPublicStatus)) := play app_rid 400 (startLeased app_config app_input (js "lease")) fresh_world.
Definition started_world : world fleet := worldOf started.
Definition started_status : HostedAppPublicStatus := statusOf started.

Lemma started_runs : runs (step app_rid) fresh_world (startLeased app_config app_input (js "lease")) started_world (inr started_status).
Proof. apply played_runs. by vm_compute. Qed.

Lemma fresh_accounts : accountsFor app_rid fresh_world.
Proof. split; [intros i j t _ Hi; cbn in Hi; by rewrite lookup_empty in Hi|]. split; [done|]. intros i t _ Hi. cbn in Hi. set_solver. Qed.

Lemma hosted_start_serves_witness :
  accountsFor app_rid fresh_world /\ held started_world = true
  /\ runningAs app_config app_rid (stored fresh_world) app_input started_status started_world.
Proof.
  split; [apply fresh_accounts|]. assert (held started_world = true) as Hh by by vm_compute. split; [exact Hh|].
  exact (hosted_start_serves app_config app_rid app_input (js "lease") fresh_world started_world started_status eq_refl fresh_accounts started_runs Hh).
Defined.

Lemma hosted_vm_accounted_witness :
  held started_world = true
  /\ tokensOnce app_rid started_world /\ keyed app_rid (stored started_world)
  /\ forall i t, ours app_rid t = true -> i ∈ alive (vms started_world) -> born (vms started_world) !! i = Some t ->
       covered (vms started_world) (stored started_world) i t \/ lapsed app_config (stored fresh_world) (clock started_world) t.
Proof.
  assert (held started_world = true) as Hh by by vm_compute. split; [exact Hh|].
  exact (hosted_vm_accounted app_config app_rid (OpStart app_input) (js "lease") fresh_world started_world
    eq_refl fresh_accounts (runs_visits _ _ _ _ _ started_runs) Hh).
Defined.

Definition stopping_run := play app_rid 100 (stopLeased app_config app_rid app_owner (js "lease")) started_world.
Definition stopped_world : world fleet := worldOf stopping_run.
Definition stopped_status : HostedAppPublicStatus := statusOf stopping_run.

Lemma stopped_runs : runs (step app_rid) started_world (stopLeased app_config app_rid app_owner (js "lease")) stopped_world (inr stopped_status).
Proof. apply played_runs. by vm_compute. Qed.

Lemma started_stored : exists r, stored started_world = Some r.
Proof.
  assert (match stored started_world with Some _ => true | None => false end = true) as Hs by by vm_compute.
  destruct (stored started_world); [by eexists|done].
Qed.

Definition app_vm : jstr := js "vm-happ-happ_1-1000000000000000".
Definition app_token : jstr := js "happ-happ_1-1000000000000000".

Lemma started_fields :
  elements (alive (vms started_world)) = [app_vm] /\ map_to_list (born (vms started_world)) = [(app_vm, app_token)]
  /\ microvm_id <$> stored started_world = Some (Some app_vm) /\ runtime_session_id <$> stored started_world = Some app_rid
  /\ launch_client_token <$> stored started_world = Some (Some app_token).
Proof. vm_compute. repeat split. Qed.

Lemma started_accounts : accountsFor app_rid started_world.
Proof.
  destruct started_fields as (Ea & Eb & Ei & Er & Ek).
  destruct started_stored as [r Es]. rewrite Es in Ei, Er, Ek. cbn [fmap option_fmap option_map] in Ei, Er, Ek. injection Ei as Ei. injection Er as Er. injection Ek as Ek. split; [|split; rewrite Es].
  - intros a b t _. rewrite <- !elem_of_map_to_list, Eb, !list_elem_of_singleton. intros E1 E2. injection E1 as -> _. injection E2 as -> _. reflexivity.
  - split; [exact Er|]. intros k' E. rewrite Ek in E. injection E as <-. reflexivity.
  - intros j t _. rewrite <- elem_of_elements, Ea, list_elem_of_singleton. intros -> _. left. split; [exact Ei|discriminate].
Qed.

Lemma hosted_stop_complete_witness :
  held stopped_world = true /\ stoppedAs app_config app_rid (stored started_world) stopped_status stopped_world.
Proof.
  assert (held stopped_world = true) as Hh by by vm_compute. split; [exact Hh|].
  exact (hosted_stop_complete app_config app_rid app_owner (js "lease") started_world stopped_world stopped_status started_accounts stopped_runs Hh).
Defined.

Definition other_owner : HostedAppOwner := AppOwner (js "tenant") (js "mallory").

Lemma hosted_foreign_refused_witness :
  exists r, stored started_world = Some r /\ ~ mayOperate (OpStop other_owner) r
  /\ (forall w', visits (step app_rid) started_world (leasedOperation app_config app_rid (OpStop other_owner) (js "lease")) w' ->
       held w' = true -> untouched app_rid started_world w').
Proof.
  assert (canonical_user_id <$> stored started_world = Some (js "user")) as Ec by by vm_compute.
  destruct started_stored as [r Es]. exists r. split; [exact Es|]. rewrite Es in Ec. injection Ec as Ec.
  assert (~ mayOperate (OpStop other_owner) r) as Hm by (intros [_ E]; rewrite Ec in E; discriminate E). split; [exact Hm|].
  exact (proj1 (hosted_foreign_refused app_config app_rid (OpStop other_owner) (js "lease") started_world r I Es Hm)).
Defined.
